(* ===== verification/_CoqProject ===== *)
-Q . S2P
Prelude.v
SimSchema.v
SimRefStream.v
SimValidate.v
SimVersions.v
Simulator.v
SimulatorInv.v
SimulatorTerm.v
SimulatorTime.v
SimulatorObs.v
CoreProgram.v
CoreValidate.v
CoreJson.v
CoreConvert.v
Ledger.v
Slab.v
Placement.v
Device.v
Objects.v
Pool.v
PoolInv.v
PoolSafe.v
RunState.v
Transfers.v
Engine.v
Execute.v
EngineTerm.v
EngineInv.v
EngineSafe.v
EngineLaunch.v
EngineRun.v
PfCore.v
PfFacts.v
PfTransitions.v
PfReducer.v
PfReducerInv.v
PfReduce.v
PfPrefetch.v
PfPlan.v
PfPlanOk.v
PfPlanBest.v
SvcAlloc.v
SvcStore.v
SvcStoreInv.v
SvcStoreSpec.v
SvcStoreRun.v
SvcHandlers.v
SvcDispatch.v
SvcSnapshot.v
SvcSnapshotOk.v
SvcSnapshotRun.v
SvcServer.v
SvcServerRun.v
SvcExamples.v
SvcEdges.v
CkRecord.v
CkRecordOk.v
CkTargets.v
CkTargetsOk.v
CkRestore.v
CkRank.v
CkCompose.v
CkComposeOk.v
CkExamples.v
RcReport.v
RcReportOk.v
RcAccounts.v
RcPlan.v
RcPlanOk.v
JsonText.v
JsonTextOk.v
SvcWire.v
SvcWireOk.v
SvcRegistry.v
SvcRegistryOk.v
SvcRuns.v
SvcRunsOk.v
SvcRunsDemo.v
