(* ===== verification/Prelude.v ===== *)
(** * Verification of the dataflow simulator and runtime

    The program plans and executes training workloads whose objects do not all
    fit in fast memory.  A workload is a chain of tasks; a plan decorates it
    with releases, offloads to backing memory and prefetches from it.  The
    [dataflow_sim] package holds the chain language, its validator, an
    event-driven simulator that predicts a plan's timeline and memory use, and the
    planners that write the plans, of which PressureFit is the main one.  The
    [dataflow] package holds the program IR, its validator, its JSON form and the
    conversion to and from chains, and a runtime that executes a plan: a byte
    ledger, a buffer pool over slabs and static placements, a device backend
    with streams and completions, two transfer lanes, an object table and the
    dispatcher that ties them together.  Its service keeps named objects in one slab
    between runs: clients submit calls, one thread executes them in order, another
    writes snapshots of leased objects and restores them.  A checkpoint composes the
    snapshots of many engines into one record of logical objects, and plans the
    restores that bring them back.

    ** Files and what they model (paths under src/src/)

    - [Prelude]: Python exceptions ([result]), the state-and-error monad [M] with
      its Hoare-style rules ([wp], [keeps], [lockstep]), Python numbers ([Num],
      [NumLaws]), lists, sorting, dicts as lists of items, [bisect_left].
    - [SimSchema], [SimRefStream], [SimValidate]: dataflow_sim/core/schema.py,
      reference_stream.py and validate.py.  [SimVersions] gives the byte-version
      meaning of a plan.
    - [Simulator]: dataflow_sim/engine/simulator.py, errors.py; one definition per
      closure of [_run_impl] over the record [Sim] of its mutable locals.
      [SimulatorInv] (capacities), [SimulatorTerm] (termination),
      [SimulatorTime] (timelines), [SimulatorObs] (snapshots and the two passes).
    - [CoreProgram], [CoreValidate], [CoreJson], [CoreConvert]:
      dataflow/core/types.py and program.py, validate.py, jsonio.py, convert.py.
    - [Ledger], [Slab], [Placement], [Device], [Objects], [Pool]:
      dataflow/runtime/ledger.py, slab.py, placement.py, device/base.py and
      device/fake.py, objects.py, pool.py.  [PoolInv] and [PoolSafe] are the
      pool's memory safety.
    - [RunState], [Transfers], [Engine], [Execute]: the shared store of a run
      (trace.py, executable.py), transfers.py, and engine.py: token handlers,
      eviction valve, dispatcher, run boundary and sessions.  [EngineTerm]
      (termination), [EngineInv], [EngineSafe], [EngineLaunch] and [EngineRun]
      (memory safety and budget of whole runs).
    - [PfCore], [PfTransitions], [PfReducer], [PfPrefetch], [PfPlan]: the planner
      dataflow_sim/policies/pressurefit.py with pressurefit_aux/: facts, boundary
      model and seed (core.py, types.py, seeds.py), transitions.py, reducer.py,
      prefetch_rules.py and residency_refinement.py, and emit.py, candidate.py,
      physical_repair.py and the portfolio.  [PfFacts], [PfReducerInv] and
      [PfReduce] (the reduction), [PfPlanOk] (returned plans), [PfPlanBest] (the
      selection).
    - [SvcAlloc], [SvcStore]: dataflow/service/store.py: the slab allocator and the
      catalog.  [SvcStoreInv] (the invariant and the abstract map of objects),
      [SvcStoreSpec] (every call against its effect on that map), [SvcStoreRun]
      (sequences of calls).
    - [SvcHandlers]: handlers_store.py; [SvcDispatch]: the dispatcher of server.py as
      atomic steps of its thread and the others; [SvcSnapshot]:
      handlers_snapshot.py, and [SvcServer] its endpoints in the dispatcher's
      table.  [SvcSnapshotOk] and [SvcSnapshotRun] (what a restore brings back),
      [SvcServerRun] (what is answered), [SvcExamples] (the theorems on concrete
      stores), [SvcEdges] (inputs that nothing guards).
    - [CkRecord], [CkTargets], [CkCompose]: dataflow/checkpoint/record.py, targets.py
      and compose.py.  [CkRecordOk] (what validation decides), [CkTargetsOk]
      (what a plan fetches), [CkRestore] (plans and the engine's restore),
      [CkRank] (the view of one source), [CkComposeOk] (what a composed record
      holds), [CkExamples].
    - [RcReport]: dataflow_sim/engine/stall_report.py.  [RcReportOk]
      (its windows), [RcAccounts] (its times, over the rationals).
      [RcPlan]: dataflow_sim/planning/recompute.py and workloads/common/recompute.py,
      [RcPlanOk] what its plans are worth.
    - [JsonText]: the JSON text of a message as Python's json writes and reads it;
      [SvcWire]: dataflow/service/wire.py over a stream cut into pieces.  [JsonTextOk],
      [SvcWireOk] (what is sent is received).
    - [SvcRegistry]: dataflow/service/registry.py; [SvcRegistryOk] (its cache).
      [SvcRuns]: handlers_runs.py and execution.py: programs, the run call and runs of host
      tasks, over the engine of [SvcSnapshot]; [SvcRunsOk] (what a run may touch,
      and what a parked run has done), [SvcRunsDemo] (concrete services).

    ** How state and effects are modelled

    A function that mutates objects is a computation of [M S E A]: from a state
    to a [result] and a state, the state being kept when an exception is
    raised.  Objects with an identity (buffers, streams) carry a number, and what
    the code mutates of them is in the state.  Dicts are lists of items where
    their order matters and finite maps otherwise.  Sizes are [Z], as Python
    ints do not overflow; times are of any type with [Num], so that the
    theorems that need laws of arithmetic say so by [NumLaws], which floats satisfy.

    ** What is shown

    - Simulator: reported peaks, snapshots and traces respect the capacities;
      every loop terminates; bars of a track do not overlap and carry the tasks'
      runtimes; the recording of snapshots does not change a schedule; tasks
      start on live inputs; a validated, recoverable plan never reads stale bytes.
    - IR: validation decides well-formedness; JSON and chain conversions round
      trip; a validated program's ids resolve in the simulator.
    - Memory: the ledger is exact; the slab refines a set of free bytes; packing
      is sound; the pool never hands out overlapping buffers.
    - Runtime: every run ends; every launch gets buffers of its objects' sizes,
      no two overlapping; a successful run stays in its budget.
    - PressureFit: the reducer's incremental arrays are exact, its reduction ends
      and fits; a returned plan does the work of the chain and runs within
      the capacity less the leeway; the early exit of the search loses nothing.
    - Service: the extents in use never overlap; every call refines an operation on
      a map from names to objects; leased objects stay; a drained store is whole;
      snapshots restore exactly; each call is answered once, in order unless
      parked, and the parked ones once nothing is leased.
    - Checkpoints: validation decides certification; a plan fetches every byte once
      and the engine's restore puts it in its place; a source gets its own geometry
      back; a record is complete or absent.
    - Stall reports: they account for every moment of a run, and their backlog windows
      are exactly the times at which a transfer waits.  Recompute plans: never slower than
      the plan without recompute, and found exactly when a seed is feasible.
    - Programs and runs: the cached resolver is the one a fresh build makes; a run of host
      tasks changes only bytes of unleased objects that it declares to mutate, and
      nothing when it is parked.
    - Wire: frames arrive as sent however the stream is cut; a message without its end is
      delivered again and again.
    - Divergences between the code and what it says, each by a concrete run.

    ** Bounds and fuel

    Loops without a structural argument take fuel.  The simulator's loops get one
    more than the number of transfers outstanding, the dispatcher's waits one more
    than a measure of the tokens, transfers and evictions left, and both are
    proved never to run out ([SimulatorTerm], [EngineTerm]).  The reducer's split
    limit and the repair limit are the code's own; the split limit is proved
    never to be reached from the seed of a validated chain ([PfReduce]).  The batches
    of the recompute planner are halved, so their size is fuel enough
    ([RcPlanOk.try_batches_fuel]); a text of [n] bytes is parsed within [2 n + 1] calls
    ([JsonTextOk.loads_fuel]); a loop that reads a socket takes a byte in every turn.

    ** What is not modelled

    Profilers, statistics and NVTX annotations; the CUDA and VMM backends and torch
    interoperation (calls into drivers); of the service the threads of a connection, the
    client, plugins and the pinned slab (a device run and its placement are arguments of
    the run call); peer groups (sockets,
    collectives); the training library and workload builders (kernels and cost models
    of particular networks); the web application; message texts of exceptions; JSON
    text outside ASCII.  The baseline planning policies other than PressureFit, whose
    plans the same validator and simulator check, are not modelled. *)
From stdpp Require Import base tactics option list gmap strings pretty sorting.
From Stdlib Require Import ZArith Lia.

Open Scope Z_scope.

(** ** Exceptions

    A Python function that may raise returns a [result]: [Ok] with the returned
    value or [Err] with the exception. *)
Inductive result (E A : Type) : Type :=
| Ok (a : A)
| Err (e : E).
Arguments Ok {E A} a.
Arguments Err {E A} e.

Definition is_ok {E A} (r : result E A) : bool :=
  match r with Ok _ => true | Err _ => false end.

#[export] Instance result_ret {E} : MRet (result E) := λ A a, Ok a.
#[export] Instance result_bind {E} : MBind (result E) := λ A B f m,
  match m with Ok a => f a | Err e => Err e end.
#[export] Instance result_fmap {E} : FMap (result E) := λ A B f m,
  match m with Ok a => Ok (f a) | Err e => Err e end.

(** [raise_if c e]: the statement [if c: raise e]. *)
Definition raise_if {E} (c : bool) (e : E) : result E unit :=
  if c then Err e else Ok tt.

(** [for x in l: acc = f(acc, x)] where the body may raise. *)
Fixpoint foldR {E A B} (f : B → A → result E B) (acc : B) (l : list A) : result E B :=
  match l with
  | [] => Ok acc
  | x :: l => acc' ← f acc x; foldR f acc' l
  end.

(** [for x in l: f(x)] where the body may raise and returns nothing. *)
Fixpoint iterR {E A} (f : A → result E unit) (l : list A) : result E unit :=
  match l with
  | [] => Ok tt
  | x :: l => f x ;; iterR f l
  end.

(** ** Mutable state and exceptions

    A method that mutates the state [S] and may raise.  The state that an
    exception leaves behind is kept, as Python keeps it. *)
Definition M (S E A : Type) : Type := S → result E A * S.

#[export] Instance M_ret {S E} : MRet (M S E) := λ A a s, (Ok a, s).
#[export] Instance M_bind {S E} : MBind (M S E) := λ A B f m s,
  match m s with
  | (Ok a, s') => f a s'
  | (Err e, s') => (Err e, s')
  end.
#[export] Instance M_fmap {S E} : FMap (M S E) := λ A B f m s,
  match m s with
  | (Ok a, s') => (Ok (f a), s')
  | (Err e, s') => (Err e, s')
  end.

Definition raise {S E A} (e : E) : M S E A := λ s, (Err e, s).
Definition get {S E} : M S E S := λ s, (Ok s, s).
Definition gets {S E A} (f : S → A) : M S E A := λ s, (Ok (f s), s).
Definition modify {S E} (f : S → S) : M S E unit := λ s, (Ok tt, f s).
Definition lift {S E A} (r : result E A) : M S E A := λ s, (r, s).
Definition check {S E} (c : bool) (e : E) : M S E unit := if c then mret tt else raise e.
Definition when {S E} (c : bool) (m : M S E unit) : M S E unit := if c then m else mret tt.

(** [for x in l: f(x)]. *)
Fixpoint forM_ {S E A} (l : list A) (f : A → M S E unit) : M S E unit :=
  match l with
  | [] => mret tt
  | x :: l => f x ;; forM_ l f
  end.

(** [for i, x in enumerate(l, start=i): f(i, x)]. *)
Fixpoint forI_ {S E A} (i : nat) (l : list A) (f : nat → A → M S E unit) : M S E unit :=
  match l with
  | [] => mret tt
  | x :: l => f i x ;; forI_ (Datatypes.S i) l f
  end.

(** *** Triples

    [wp m s Q R]: started in [s], [m] either returns with [Q] or raises with
    [R]; [triple P m Q R]: it does so from every state of [P]. *)
Definition wp {S E A} (m : M S E A) (s : S) (Q : A → S → Prop) (R : E → S → Prop) : Prop :=
  match m s with
  | (Ok a, s') => Q a s'
  | (Err e, s') => R e s'
  end.
Definition triple {S E A} (P : S → Prop) (m : M S E A)
    (Q : A → S → Prop) (R : E → S → Prop) : Prop :=
  ∀ s, P s → wp m s Q R.

(** [keeps I m]: every normal return of [m] re-establishes the invariant [I]. *)
Definition keeps {S E A} (I : S → Prop) (m : M S E A) : Prop :=
  triple I m (λ _, I) (λ _ _, True).

(** *** Lockstep

    [lockstep R m1 m2]: from [R]-related states, if [m1] returns then [m2]
    returns the same value, into related states. *)
Definition lockstep {S E A} (R : S → S → Prop) (m1 m2 : M S E A) : Prop :=
  ∀ s1 s2 a s1', R s1 s2 → m1 s1 = (Ok a, s1') →
  ∃ s2', m2 s2 = (Ok a, s2') ∧ R s1' s2'.

(** ** Numbers

    Times are Python numbers, ints and floats mixed.  [Num T] is what the
    code uses of them; [NumLaws T] is what holds of every non-NaN value,
    rounding included. *)
Class Num (T : Type) := {
  num_of_Z : Z → T;
  num_add : T → T → T;
  num_sub : T → T → T;
  num_leb : T → T → bool;
  num_ltb : T → T → bool;
  num_eqb : T → T → bool;
}.

(** Python's [max(a, b)] keeps [a] on ties, [min(a, b)] too. *)
Definition num_max {T} `{Num T} (a b : T) : T := if num_ltb a b then b else a.
Definition num_min {T} `{Num T} (a b : T) : T := if num_ltb b a then b else a.
Definition num_zero {T} `{Num T} : T := num_of_Z 0.
(** [float(sys.maxsize)], which rounds 2^63 - 1 to 2^63. *)
Definition num_inf {T} `{Num T} : T := num_of_Z (2 ^ 63).

Class NumLaws (T : Type) `{Num T} := {
  num_leb_refl : ∀ a : T, num_leb a a = true;
  num_leb_trans : ∀ a b c : T, num_leb a b = true → num_leb b c = true → num_leb a c = true;
  num_leb_total : ∀ a b : T, num_leb a b = true ∨ num_leb b a = true;
  num_ltb_leb : ∀ a b : T, num_ltb a b = negb (num_leb b a);
  num_eqb_leb : ∀ a b : T, num_eqb a b = num_leb a b && num_leb b a;
  num_add_nonneg : ∀ a d : T, num_leb (num_of_Z 0) d = true → num_leb a (num_add a d) = true;
  num_add_mono : ∀ a b d : T, num_leb (num_of_Z 0) d = true → num_leb a b = true →
    num_leb (num_add a d) (num_add b d) = true;
  num_of_Z_mono : ∀ x y, x ≤ y → num_leb (num_of_Z x) (num_of_Z y : T) = true;
}.

#[export] Instance num_Z : Num Z := {|
  num_of_Z := λ z, z; num_add := Z.add; num_sub := Z.sub;
  num_leb := Z.leb; num_ltb := Z.ltb; num_eqb := Z.eqb;
|}.

#[export] Instance num_laws_Z : NumLaws Z.
Proof. split; simpl; intros; lia. Qed.

Declare Scope num_scope.
Delimit Scope num_scope with num.
Infix "+" := num_add : num_scope.
Infix "-" := num_sub : num_scope.
Infix "<=?" := num_leb : num_scope.
Infix "<?" := num_ltb : num_scope.
Infix "=?" := num_eqb : num_scope.

Section num_facts.
Context {T : Type} `{NumLaws T}.
Implicit Types a b c : T.

Lemma num_ltb_irrefl a : num_ltb a a = false.
Proof. by rewrite num_ltb_leb, num_leb_refl. Qed.
Lemma num_ltb_false a b : num_ltb a b = false ↔ num_leb b a = true.
Proof. rewrite num_ltb_leb. by destruct (num_leb b a). Qed.
Lemma num_ltb_weaken a b : num_ltb a b = true → num_leb a b = true.
Proof. rewrite num_ltb_leb. destruct (num_leb_total a b) as [->| ->]; done. Qed.
Lemma num_max_l a b : num_leb a (num_max a b) = true.
Proof. unfold num_max. destruct (num_ltb a b) eqn:Hab; [by apply num_ltb_weaken|apply num_leb_refl]. Qed.
Lemma num_max_r a b : num_leb b (num_max a b) = true.
Proof. unfold num_max. destruct (num_ltb a b) eqn:Hab; [apply num_leb_refl|by apply num_ltb_false]. Qed.
Lemma num_min_l a b : num_leb (num_min a b) a = true.
Proof. unfold num_min. destruct (num_ltb b a) eqn:Hab; [by apply num_ltb_weaken|apply num_leb_refl]. Qed.
Lemma num_min_r a b : num_leb (num_min a b) b = true.
Proof. unfold num_min. destruct (num_ltb b a) eqn:Hab; [apply num_leb_refl|by apply num_ltb_false]. Qed.
End num_facts.

(** ** Python lists *)

Definition sumZ (l : list Z) : Z := foldr Z.add 0 l.

(** Ceiling of [n] to a multiple of [a], the code's [(n + a - 1) // a * a]. *)
Definition align_up (a n : Z) : Z := (n + a - 1) / a * a.

(** [sorted(l, key=...)] with the keys' [<=]: stable insertion. *)
Section py_sort.
Context {A : Type} (leb : A → A → bool).

Fixpoint insert_sorted (x : A) (l : list A) : list A :=
  match l with
  | [] => [x]
  | y :: l' => if leb x y then x :: l else y :: insert_sorted x l'
  end.

Definition py_sorted (l : list A) : list A := foldr insert_sorted [] l.
End py_sort.

(** ** Python dicts

    A dict as the list of its items, in insertion order. *)
Section assoc.
Context {K V : Type} `{EqDecision K}.

Fixpoint assoc_get (d : list (K * V)) (k : K) : option V :=
  match d with
  | [] => None
  | (k', v) :: d => if decide (k = k') then Some v else assoc_get d k
  end.

(** [d[k] = v]: an existing key keeps its position. *)
Fixpoint assoc_set (d : list (K * V)) (k : K) (v : V) : list (K * V) :=
  match d with
  | [] => [(k, v)]
  | (k', v') :: d => if decide (k = k') then (k, v) :: d else (k', v') :: assoc_set d k v
  end.

(** [del d[k]]. *)
Fixpoint assoc_del (d : list (K * V)) (k : K) : list (K * V) :=
  match d with
  | [] => []
  | (k', v) :: d => if decide (k = k') then d else (k', v) :: assoc_del d k
  end.

(** An assignment to a present key replaces its value in place, to an absent
    one appends; a deletion takes the item out. *)
Lemma assoc_get_split d k v :
  assoc_get d k = Some v → ∃ d1 d2, d = d1 ++ (k, v) :: d2 ∧ k ∉ d1.*1.
Proof.
  induction d as [|[k' v'] d IH]; simpl; [done|]. destruct (decide (k = k')) as [<-|Hne].
  - intros [= ->]. exists [], d. split; [done|apply not_elem_of_nil].
  - intros Hg. destruct (IH Hg) as (d1 & d2 & -> & Hk). exists ((k', v') :: d1), d2. split; [done|].
    rewrite fmap_cons. by apply not_elem_of_cons.
Qed.

Lemma assoc_get_none d k : assoc_get d k = None ↔ k ∉ d.*1.
Proof.
  induction d as [|[k' v'] d IH]; simpl; [split; [intros _; apply not_elem_of_nil|done]|].
  rewrite not_elem_of_cons, <-IH. destruct (decide (k = k')); naive_solver.
Qed.

Lemma assoc_set_middle d1 d2 k v w : k ∉ d1.*1 → assoc_set (d1 ++ (k, v) :: d2) k w = d1 ++ (k, w) :: d2.
Proof.
  induction d1 as [|[k' v'] d1 IH]; simpl; [by rewrite decide_True|].
  rewrite not_elem_of_cons. intros [Hne Hk]. rewrite decide_False by done. by rewrite IH.
Qed.

Lemma assoc_set_absent d k v : k ∉ d.*1 → assoc_set d k v = d ++ [(k, v)].
Proof.
  induction d as [|[k' v'] d IH]; simpl; [done|].
  rewrite not_elem_of_cons. intros [Hne Hk]. rewrite decide_False by done. by rewrite IH.
Qed.

Lemma assoc_del_middle d1 d2 k v : k ∉ d1.*1 → assoc_del (d1 ++ (k, v) :: d2) k = d1 ++ d2.
Proof.
  induction d1 as [|[k' v'] d1 IH]; simpl; [by rewrite decide_True|].
  rewrite not_elem_of_cons. intros [Hne Hk]. rewrite decide_False by done. by rewrite IH.
Qed.

Lemma assoc_del_absent d k : k ∉ d.*1 → assoc_del d k = d.
Proof.
  induction d as [|[k' v'] d IH]; simpl; [done|].
  rewrite not_elem_of_cons. intros [Hne Hk]. rewrite decide_False by done. by rewrite IH.
Qed.

Lemma assoc_get_set d k v : assoc_get (assoc_set d k v) k = Some v.
Proof.
  induction d as [|[k' v'] d IH]; simpl; [by rewrite decide_True|].
  destruct (decide (k = k')) as [<-|Hne]; simpl; [by rewrite decide_True|by rewrite decide_False].
Qed.

Lemma assoc_get_set_ne d k k' v : k ≠ k' → assoc_get (assoc_set d k v) k' = assoc_get d k'.
Proof.
  intros Hne. induction d as [|[k'' v''] d IH]; simpl; [by rewrite decide_False|].
  destruct (decide (k = k'')) as [<-|Hn]; simpl; [by rewrite !decide_False by done|].
  by rewrite IH.
Qed.

Lemma elem_of_assoc_set d k v k' v' : (k', v') ∈ assoc_set d k v → (k', v') = (k, v) ∨ (k', v') ∈ d.
Proof.
  destruct (assoc_get d k) as [w|] eqn:Hg.
  - apply assoc_get_split in Hg as (d1 & d2 & -> & Hk). rewrite assoc_set_middle by done. set_solver.
  - apply assoc_get_none in Hg. rewrite assoc_set_absent by done. set_solver.
Qed.

Lemma assoc_set_keys d k v : NoDup d.*1 → NoDup (assoc_set d k v).*1.
Proof.
  intros Hn. destruct (assoc_get d k) as [w|] eqn:Hg.
  - apply assoc_get_split in Hg as (d1 & d2 & -> & Hk). rewrite assoc_set_middle by done.
    by rewrite fmap_app, fmap_cons in *.
  - apply assoc_get_none in Hg. rewrite assoc_set_absent by done. rewrite fmap_app. apply NoDup_app.
    split_and!; [done| |apply NoDup_singleton]. intros x Hx ->%list_elem_of_singleton. done.
Qed.
End assoc.

(** The values of a dict of lists, before and after an assignment. *)
Lemma assoc_set_join {K V} `{EqDecision K} (d : list (K * list V)) k : ∃ rest,
  Permutation (mjoin d.*2) (default [] (assoc_get d k) ++ rest) ∧
  ∀ v, Permutation (mjoin (assoc_set d k v).*2) (v ++ rest).
Proof.
  destruct (assoc_get d k) as [w|] eqn:Hg.
  - apply assoc_get_split in Hg as (d1 & d2 & -> & Hk). exists (mjoin d1.*2 ++ mjoin d2.*2). simpl. split.
    + rewrite fmap_app, fmap_cons, join_app. simpl. by rewrite (Permutation_app_swap_app (mjoin d1.*2)).
    + intros v. rewrite assoc_set_middle by done. rewrite fmap_app, fmap_cons, join_app. simpl.
      by rewrite (Permutation_app_swap_app (mjoin d1.*2)).
  - apply assoc_get_none in Hg. exists (mjoin d.*2). split; [done|]. intros v.
    rewrite assoc_set_absent by done. rewrite fmap_app, join_app. simpl. rewrite app_nil_r.
    by rewrite (comm (++)).
Qed.

(** [bisect.bisect_left(a, x)] on a list of ints: the library's binary search,
    with the length of the interval as fuel. *)
Fixpoint bisect_loop (fuel : nat) (a : list Z) (x : Z) (lo hi : nat) : nat :=
  match fuel with
  | O => lo
  | S fuel =>
      if (lo <? hi)%nat then
        let mid := ((lo + hi) / 2)%nat in
        match a !! mid with
        | Some v => if v <? x then bisect_loop fuel a x (S mid) hi
                    else bisect_loop fuel a x lo mid
        | None => lo
        end
      else lo
  end.
Definition bisect_left (a : list Z) (x : Z) : nat :=
  bisect_loop (length a) a x 0 (length a).

(** ** Rules for triples *)
Section triple_rules.
Context {S E : Type}.
Implicit Types (P I : S → Prop).

Lemma triple_weaken {A} P P' (m : M S E A) Q Q' (R R' : E → S → Prop) :
  triple P m Q R → (∀ s, P' s → P s) → (∀ a s, Q a s → Q' a s) →
  (∀ e s, R e s → R' e s) → triple P' m Q' R'.
Proof.
  intros Hm HP HQ HR s Hs. specialize (Hm s (HP s Hs)). unfold wp in *.
  destruct (m s) as [[a|e] s']; auto.
Qed.

Lemma triple_bind {A B} P (m : M S E A) (f : A → M S E B) Q Q' R :
  triple P m Q R → (∀ a, triple (Q a) (f a) Q' R) → triple P (m ≫= f) Q' R.
Proof.
  intros Hm Hf s Hs. specialize (Hm s Hs). unfold wp, mbind, M_bind in *.
  destruct (m s) as [[a|e] s']; [|done]. by apply Hf.
Qed.

Lemma triple_ret {A} (a : A) (Q : A → S → Prop) (R : E → S → Prop) :
  triple (Q a) (mret a) Q R.
Proof. by intros s Hs. Qed.

Lemma triple_forM {A} I (l : list A) (f : A → M S E unit) (R : E → S → Prop) :
  (∀ x, x ∈ l → triple I (f x) (λ _, I) R) → triple I (forM_ l f) (λ _, I) R.
Proof.
  induction l as [|x l IH]; intros Hf; simpl; [by intros s Hs|].
  eapply triple_bind; [apply Hf; set_solver|]. intros ?. apply IH. set_solver.
Qed.

Lemma triple_forI {A} I (l : list A) i (f : nat → A → M S E unit) (R : E → S → Prop) :
  (∀ j x, l !! j = Some x → triple I (f (i + j)%nat x) (λ _, I) R) →
  triple I (forI_ i l f) (λ _, I) R.
Proof.
  revert i; induction l as [|x l IH]; intros i Hf; simpl; [by intros s Hs|].
  eapply triple_bind.
  - replace i with (i + 0)%nat by lia. by apply Hf.
  - intros ?. apply IH. intros j y Hy.
    replace (Datatypes.S i + j)%nat with (i + Datatypes.S j)%nat by lia. by apply Hf.
Qed.

(** A loop whose invariant counts the iterations. *)
Lemma triple_forI_count {A} (J : nat → S → Prop) (l : list A) i (f : nat → A → M S E unit)
    (R : E → S → Prop) :
  (∀ j x, l !! j = Some x → triple (J (i + j)%nat) (f (i + j)%nat x) (λ _, J (Datatypes.S (i + j))) R) →
  triple (J i) (forI_ i l f) (λ _, J (i + length l)%nat) R.
Proof.
  revert i; induction l as [|x l IH]; intros i Hf; simpl.
  { rewrite Nat.add_0_r. by intros s Hs. }
  eapply triple_bind; [specialize (Hf 0%nat x eq_refl); by rewrite Nat.add_0_r in Hf|].
  intros []. replace (i + Datatypes.S (length l))%nat with (Datatypes.S i + length l)%nat by lia.
  apply IH. intros j y Hy.
  replace (Datatypes.S i + j)%nat with (i + Datatypes.S j)%nat by lia. by apply Hf.
Qed.

Lemma keeps_ret {A} I (a : A) : keeps (E:=E) I (mret a).
Proof. by intros s Hs. Qed.
Lemma keeps_raise {A} I (e : E) : keeps (A:=A) I (raise e).
Proof. by intros s Hs. Qed.
Lemma keeps_gets {A} I (f : S → A) : keeps (E:=E) I (gets f).
Proof. by intros s Hs. Qed.
Lemma keeps_get I : keeps (E:=E) I get.
Proof. by intros s Hs. Qed.
Lemma keeps_lift {A} I (r : result E A) : keeps I (lift r).
Proof. intros s Hs. by destruct r. Qed.
Lemma keeps_check I c (e : E) : keeps I (check c e).
Proof. intros s Hs. by destruct c. Qed.
Lemma keeps_modify I f : (∀ s, I s → I (f s)) → keeps (E:=E) I (modify f).
Proof. intros Hf s Hs. by apply (Hf s). Qed.
Lemma keeps_when I c (m : M S E unit) : keeps I m → keeps I (when c m).
Proof. by destruct c; [|intros _ s Hs]. Qed.
Lemma keeps_bind {A B} I (m : M S E A) (f : A → M S E B) :
  keeps I m → (∀ a, keeps I (f a)) → keeps I (m ≫= f).
Proof. intros Hm Hf. by eapply triple_bind. Qed.
(** After a read, the continuation may use what the invariant says of the state read. *)
Lemma keeps_get_bind {B} I (f : S → M S E B) :
  (∀ s, I s → keeps I (f s)) → keeps I (get ≫= f).
Proof. intros Hf s Hs. exact (Hf s Hs s Hs). Qed.
Lemma keeps_gets_bind {A B} I (g : S → A) (f : A → M S E B) :
  (∀ s, I s → keeps I (f (g s))) → keeps I (gets g ≫= f).
Proof. intros Hf s Hs. exact (Hf s Hs s Hs). Qed.
Lemma keeps_forM {A} I (l : list A) (f : A → M S E unit) :
  (∀ x, x ∈ l → keeps I (f x)) → keeps I (forM_ l f).
Proof. apply triple_forM. Qed.
Lemma keeps_forI {A} I (l : list A) i (f : nat → A → M S E unit) :
  (∀ j x, l !! j = Some x → keeps I (f (i + j)%nat x)) → keeps I (forI_ i l f).
Proof. apply triple_forI. Qed.

(** A run that returned did so through states of the invariant. *)
Lemma keeps_run {A} I (m : M S E A) s a s' :
  keeps I m → I s → m s = (Ok a, s') → I s'.
Proof. intros Hm Hs Hr. specialize (Hm s Hs). unfold wp in Hm. by rewrite Hr in Hm. Qed.

Lemma bind_ok {A B} (m : M S E A) (f : A → M S E B) s b s' :
  (m ≫= f) s = (Ok b, s') ↔ ∃ a s1, m s = (Ok a, s1) ∧ f a s1 = (Ok b, s').
Proof.
  unfold mbind, M_bind. destruct (m s) as [[a|e] s1]; split.
  - intros H. by exists a, s1.
  - by intros (a' & s2 & [= -> ->] & H).
  - done.
  - by intros (a' & s2 & H & _).
Qed.
End triple_rules.

Create HintDb keeps discriminated.
#[export] Hint Resolve keeps_ret keeps_raise keeps_gets keeps_get keeps_lift
  keeps_check : keeps.

(** [keeps_tac]: decompose a computation down to its [modify]s. *)
Ltac keeps_tac :=
  repeat match goal with
  | |- keeps _ (get ≫= _) => apply keeps_get_bind
  | |- keeps _ (_ ≫= _) => apply keeps_bind
  | |- keeps _ (when _ _) => apply keeps_when
  | |- keeps _ (forM_ _ _) => apply keeps_forM
  | |- keeps _ (if ?c then _ else _) => destruct c eqn:?
  | |- keeps _ (match ?c with _ => _ end) => destruct c eqn:?
  | |- ∀ _, _ => intros ?
  | |- keeps _ _ => solve [auto with keeps nocore]
  end.

(** ** Rules for [wp]: symbolic execution *)
Section wp_rules.
Context {S E : Type}.

Lemma wp_bind {A B} (m : M S E A) (f : A → M S E B) s Q R :
  wp m s (λ a s', wp (f a) s' Q R) R → wp (m ≫= f) s Q R.
Proof. unfold wp, mbind, M_bind. by destruct (m s) as [[a|e] s']. Qed.
Lemma wp_get_bind {B} (f : S → M S E B) s Q R : wp (f s) s Q R → wp (get ≫= f) s Q R.
Proof. done. Qed.
Lemma wp_gets_bind {A B} (g : S → A) (f : A → M S E B) s Q R :
  wp (f (g s)) s Q R → wp (gets g ≫= f) s Q R.
Proof. done. Qed.
Lemma wp_modify_bind {B} g (f : unit → M S E B) s Q R :
  wp (f tt) (g s) Q R → wp (modify g ≫= f) s Q R.
Proof. done. Qed.
Lemma wp_modify g s (Q : unit → S → Prop) (R : E → S → Prop) :
  Q tt (g s) → wp (modify g) s Q R.
Proof. done. Qed.
Lemma wp_ret {A} (a : A) s (Q : A → S → Prop) (R : E → S → Prop) :
  Q a s → wp (mret a) s Q R.
Proof. done. Qed.
Lemma wp_ret_bind {A B} (a : A) (f : A → M S E B) s Q R :
  wp (f a) s Q R → wp (mret a ≫= f) s Q R.
Proof. done. Qed.
Lemma wp_raise {A} (e : E) s (Q : A → S → Prop) (R : E → S → Prop) :
  R e s → wp (raise e) s Q R.
Proof. done. Qed.
Lemma wp_raise_bind {A B} (e : E) (f : A → M S E B) s Q (R : E → S → Prop) :
  R e s → wp (raise e ≫= f) s Q R.
Proof. done. Qed.
Lemma wp_check_bind {B} c (e : E) (f : unit → M S E B) s Q (R : E → S → Prop) :
  (c = true → wp (f tt) s Q R) → (c = false → R e s) → wp (check c e ≫= f) s Q R.
Proof. intros H1 H2. destruct c; [by apply H1|by apply H2]. Qed.
Lemma wp_check c (e : E) s (Q : unit → S → Prop) (R : E → S → Prop) :
  (c = true → Q tt s) → (c = false → R e s) → wp (check c e) s Q R.
Proof. intros H1 H2. destruct c; [by apply H1|by apply H2]. Qed.
Lemma wp_lift_bind {A B} (r : result E A) (f : A → M S E B) s Q (R : E → S → Prop) :
  (∀ a, r = Ok a → wp (f a) s Q R) → (∀ e, r = Err e → R e s) → wp (lift r ≫= f) s Q R.
Proof. intros H1 H2. destruct r; [by apply H1|by apply H2]. Qed.
Lemma wp_bind_assoc {A B C} (m : M S E A) (f : A → M S E B) (g : B → M S E C) s Q R :
  wp (m ≫= λ a, f a ≫= g) s Q R → wp ((m ≫= f) ≫= g) s Q R.
Proof. unfold wp, mbind, M_bind. by destruct (m s) as [[a|e] s']. Qed.
Lemma wp_mono {A} (m : M S E A) s Q Q' (R R' : E → S → Prop) :
  wp m s Q R → (∀ a s', Q a s' → Q' a s') → (∀ e s', R e s' → R' e s') → wp m s Q' R'.
Proof. unfold wp. destruct (m s) as [[a|e] s']; auto. Qed.
Lemma wp_and {A} (m : M S E A) s Q Q' (R R' : E → S → Prop) :
  wp m s Q R → wp m s Q' R' → wp m s (λ a s', Q a s' ∧ Q' a s') R.
Proof. unfold wp. destruct (m s) as [[a|e] s']; auto. Qed.
(** A call with a known specification, followed by the rest. *)
Lemma wp_call {A} P (m : M S E A) s Q Q' R :
  triple P m Q R → P s → (∀ a s', Q a s' → Q' a s') → wp m s Q' R.
Proof. intros Hm Hs HQ. eapply wp_mono; [by apply Hm|done|done]. Qed.
Lemma wp_call_bind {A B} P (m : M S E A) (f : A → M S E B) s Q Q' R :
  triple P m Q R → P s → (∀ a s', Q a s' → wp (f a) s' Q' R) → wp (m ≫= f) s Q' R.
Proof. intros Hm Hs HQ. apply wp_bind. by eapply wp_call. Qed.
End wp_rules.

(** Partial correctness: nothing is said of exceptions. *)
Abbreviation okw m s Q := (wp m s Q (λ _ _, True)).

Lemma okw_bind {S E A B} (m : M S E A) (f : A → M S E B) s Q Q' :
  okw m s Q → (∀ a s', Q a s' → okw (f a) s' Q') → okw (m ≫= f) s Q'.
Proof. intros Hm Hf. apply wp_bind. eapply wp_mono; [exact Hm|exact Hf|done]. Qed.

(** [wp_step]: one primitive; [wp_auto]: as far as primitives and tests go. *)
Ltac wp_step :=
  match goal with
  | |- wp ((_ ≫= _) ≫= _) _ _ _ => apply wp_bind_assoc
  | |- wp (get ≫= _) _ _ _ => apply wp_get_bind
  | |- wp (gets _ ≫= _) _ _ _ => apply wp_gets_bind
  | |- wp (modify _ ≫= _) _ _ _ => apply wp_modify_bind
  | |- wp (modify _) _ _ _ => apply wp_modify
  | |- wp (mret _ ≫= _) _ _ _ => apply wp_ret_bind
  | |- wp (mret _) _ _ _ => apply wp_ret
  | |- wp (raise _ ≫= _) _ _ _ => apply wp_raise_bind
  | |- wp (raise _) _ _ _ => apply wp_raise
  | |- wp (check _ _ ≫= _) _ _ _ => apply wp_check_bind; intros ?
  | |- wp (check _ _) _ _ _ => apply wp_check; intros ?
  | |- wp (lift _ ≫= _) _ _ _ => apply wp_lift_bind; intros ? ?
  | |- wp (when ?c _) _ _ _ => unfold when at 1; destruct c eqn:?
  | |- wp (when ?c _ ≫= _) _ _ _ => unfold when at 1; destruct c eqn:?
  | |- wp (match ?c with _ => _ end) _ _ _ => destruct c eqn:?
  | |- wp (match ?c with _ => _ end ≫= _) _ _ _ => destruct c eqn:?
  end.
Ltac wp_auto := repeat (wp_step; cbv beta).

(** ** Rules for lockstep runs *)
Section lockstep_rules.
Context {S E : Type} (R : S → S → Prop).

Lemma lockstep_ret {A} (a : A) : lockstep (E:=E) R (mret a) (mret a).
Proof. intros s1 s2 ? ? HR [= <- <-]. by exists s2. Qed.
Lemma lockstep_raise {A} (e : E) (m : M S E A) : lockstep R (raise e) m.
Proof. intros s1 s2 ? ? HR [=]. Qed.
Lemma lockstep_lift {A} (r : result E A) : lockstep R (lift r) (lift r).
Proof. intros s1 s2 ? ? HR Hr. exists s2. unfold lift in *. by simplify_eq. Qed.
Lemma lockstep_check c (e : E) : lockstep R (check c e) (check c e).
Proof. destruct c; [apply lockstep_ret|apply lockstep_raise]. Qed.
Lemma lockstep_gets {A} (f : S → A) :
  (∀ s1 s2, R s1 s2 → f s1 = f s2) → lockstep (E:=E) R (gets f) (gets f).
Proof. intros Hf s1 s2 ? ? HR [= <- <-]. exists s2. split; [|done]. unfold gets. by rewrite (Hf s1 s2). Qed.
Lemma lockstep_modify (f g : S → S) :
  (∀ s1 s2, R s1 s2 → R (f s1) (g s2)) → lockstep (E:=E) R (modify f) (modify g).
Proof. intros Hf s1 s2 ? ? HR [= <- <-]. exists (g s2). eauto. Qed.
Lemma lockstep_when c (m1 m2 : M S E unit) :
  lockstep R m1 m2 → lockstep R (when c m1) (when c m2).
Proof. destruct c; [done|]. intros _. apply lockstep_ret. Qed.
Lemma lockstep_bind {A B} (m1 m2 : M S E A) (f1 f2 : A → M S E B) :
  lockstep R m1 m2 → (∀ a, lockstep R (f1 a) (f2 a)) →
  lockstep R (m1 ≫= f1) (m2 ≫= f2).
Proof.
  intros Hm Hf s1 s2 b s1' HR (a & t1 & H1 & H2)%bind_ok.
  destruct (Hm _ _ _ _ HR H1) as (t2 & H3 & HR').
  destruct (Hf _ _ _ _ _ HR' H2) as (s2' & H4 & HR'').
  exists s2'. split; [|done]. apply bind_ok. eauto.
Qed.
Lemma lockstep_forM {A} (l : list A) (f1 f2 : A → M S E unit) :
  (∀ x, lockstep R (f1 x) (f2 x)) → lockstep R (forM_ l f1) (forM_ l f2).
Proof.
  intros Hf. induction l as [|x l IH]; simpl; [apply lockstep_ret|].
  apply lockstep_bind; auto.
Qed.
Lemma lockstep_forI {A} (l : list A) i (f1 f2 : nat → A → M S E unit) :
  (∀ j x, lockstep R (f1 j x) (f2 j x)) → lockstep R (forI_ i l f1) (forI_ i l f2).
Proof.
  intros Hf. revert i; induction l as [|x l IH]; intros i; simpl; [apply lockstep_ret|].
  apply lockstep_bind; auto.
Qed.
(** A read of the whole state: the continuations agree on related states. *)
Lemma lockstep_get {B} (f1 f2 : S → M S E B) :
  (∀ s1 s2, R s1 s2 → lockstep R (f1 s1) (f2 s2)) →
  lockstep R (get ≫= f1) (get ≫= f2).
Proof. intros Hf s1 s2 b s1' HR H. exact (Hf s1 s2 HR s1 s2 b s1' HR H). Qed.
End lockstep_rules.

(** ** Sums, alignment, sorting *)
Lemma sumZ_cons x l : sumZ (x :: l) = x + sumZ l.
Proof. done. Qed.

Lemma sumZ_app l1 l2 : sumZ (l1 ++ l2) = sumZ l1 + sumZ l2.
Proof. induction l1 as [|x l1 IH]; simpl; [done|]. rewrite IH. lia. Qed.

Lemma sumZ_nonneg l : Forall (λ z, 0 ≤ z) l → 0 ≤ sumZ l.
Proof. induction 1; simpl; lia. Qed.

Lemma sumZ_perm l1 l2 : Permutation l1 l2 → sumZ l1 = sumZ l2.
Proof. induction 1; simpl in *; lia. Qed.

Lemma align_up_spec a n : 0 < a → n ≤ align_up a n < n + a ∧ align_up a n `mod` a = 0.
Proof.
  intros Ha. unfold align_up. rewrite Z.mod_mul by lia.
  pose proof (Z.div_mod (n + a - 1) a). pose proof (Z.mod_pos_bound (n + a - 1) a Ha). nia.
Qed.

Lemma align_up_nonneg a n : 0 < a → 0 ≤ n → 0 ≤ align_up a n.
Proof. intros Ha Hn. pose proof (align_up_spec a n Ha). lia. Qed.

Section py_sort_lemmas.
Context {A : Type} (leb : A → A → bool).

Lemma insert_sorted_perm x l : Permutation (x :: l) (insert_sorted leb x l).
Proof.
  induction l as [|y l IH]; simpl; [done|]. destruct (leb x y); [done|].
  rewrite Permutation_swap. by apply Permutation_skip.
Qed.

Lemma py_sorted_perm l : Permutation l (py_sorted leb l).
Proof.
  induction l as [|x l IH]; simpl; [done|].
  rewrite <-insert_sorted_perm. by apply Permutation_skip.
Qed.

Lemma elem_of_py_sorted x l : x ∈ py_sorted leb l ↔ x ∈ l.
Proof. by rewrite <-(py_sorted_perm l). Qed.

Context (leb_total : ∀ x y, leb x y = true ∨ leb y x = true).
Context (leb_trans : ∀ x y z, leb x y = true → leb y z = true → leb x z = true).

Lemma insert_sorted_sorted x l :
  StronglySorted (λ a b, leb a b = true) l →
  StronglySorted (λ a b, leb a b = true) (insert_sorted leb x l).
Proof.
  induction 1 as [|y l Hl IH Hall]; simpl; [by repeat constructor|].
  destruct (leb x y) eqn:Hxy.
  - constructor; [by constructor|]. constructor; [done|].
    eapply Forall_impl; [exact Hall|]. intros z Hz; simpl in *. by eapply leb_trans.
  - constructor; [done|]. rewrite <-insert_sorted_perm. constructor; [|done].
    destruct (leb_total x y); congruence.
Qed.

Lemma py_sorted_sorted l : StronglySorted (λ a b, leb a b = true) (py_sorted leb l).
Proof. induction l; simpl; [constructor|]. by apply insert_sorted_sorted. Qed.

(** A sorted list is left alone. *)
Lemma py_sorted_id l : StronglySorted (λ a b, leb a b = true) l → py_sorted leb l = l.
Proof.
  induction 1 as [|x l Hl IH Hx]; simpl; [done|]. rewrite IH.
  destruct l as [|y l]; [done|]. simpl. by apply Forall_cons in Hx as [-> _].
Qed.
End py_sort_lemmas.

(** ** Binary search *)
Lemma StronglySorted_lookup {A} (R : A → A → Prop) (l : list A) i j x y :
  StronglySorted R l → (i < j)%nat → l !! i = Some x → l !! j = Some y → R x y.
Proof.
  intros Hs. revert i j. induction Hs as [|z l Hl IH Hall]; intros [|i] [|j] Hij Hi Hj;
    simplify_eq/=; try lia.
  - rewrite Forall_forall in Hall. apply Hall, list_elem_of_lookup. eauto.
  - eapply (IH i j); [lia|done..].
Qed.

Lemma StronglySorted_app_iff {A} (R : A → A → Prop) (l1 l2 : list A) :
  StronglySorted R (l1 ++ l2) ↔
  StronglySorted R l1 ∧ StronglySorted R l2 ∧ ∀ x y, x ∈ l1 → y ∈ l2 → R x y.
Proof.
  induction l1 as [|z l1 IH]; simpl.
  { split; [|by intros (_ & ? & _)]. intros Hs. split_and!; [constructor|done|by intros ? ? ?%elem_of_nil]. }
  split.
  - intros Hs. inversion Hs as [|? ? Hl Hz]; subst. apply IH in Hl as (H1 & H2 & H3).
    apply Forall_app in Hz as [Hz1 Hz2]. split_and!; [by constructor|done|].
    intros x y [->|Hx]%elem_of_cons Hy; [|auto]. rewrite Forall_forall in Hz2. auto.
  - intros (H1 & H2 & H3). inversion H1 as [|? ? Hl Hz]; subst. constructor.
    + apply IH. split_and!; [done|done|]. intros x y Hx. apply H3. by apply list_elem_of_further.
    + apply Forall_app. split; [done|]. apply Forall_forall. intros y. apply H3, list_elem_of_here.
Qed.

(** A symmetric relation that holds between all pairs does so in any order. *)
Lemma StronglySorted_perm {A} (R : A → A → Prop) `{!Symmetric R} (l1 l2 : list A) :
  Permutation l1 l2 → StronglySorted R l1 → StronglySorted R l2.
Proof.
  induction 1 as [|x l1 l2 Hp IH|x y l|l1 l2 l3 _ IH1 _ IH2]; [done|..|by auto].
  - intros Hs. inversion Hs as [|? ? Hl Hx]; subst. constructor; [auto|]. by rewrite <-Hp.
  - intros Hs. inversion Hs as [|? ? Hl Hy]; subst. inversion Hl as [|? ? Hl' Hx]; subst.
    apply Forall_cons in Hy as [Hyx Hy]. constructor; [by constructor|]. apply Forall_cons. split; [by symmetry|done].
Qed.

(** A list splits in one way into elements with and elements without [P]. *)
Lemma app_split_unique {A} (P : A → Prop) (a1 a2 b1 b2 : list A) :
  a1 ++ a2 = b1 ++ b2 → Forall P a1 → Forall P b1 →
  Forall (λ x, ¬ P x) a2 → Forall (λ x, ¬ P x) b2 → a1 = b1 ∧ a2 = b2.
Proof.
  revert b1. induction a1 as [|x a1 IH]; intros [|y b1]; simpl; intros Heq Ha1 Hb1 Ha2 Hb2; subst; try done.
  - apply Forall_cons in Hb1 as [? _]. by apply Forall_cons in Ha2 as [? _].
  - apply Forall_cons in Ha1 as [? _]. by apply Forall_cons in Hb2 as [? _].
  - injection Heq as -> Heq. apply Forall_cons in Ha1 as [_ Ha1], Hb1 as [_ Hb1].
    by destruct (IH b1 Heq Ha1 Hb1 Ha2 Hb2) as [-> ->].
Qed.

Lemma bisect_loop_spec fuel a x lo hi :
  StronglySorted Z.le a → (lo ≤ hi ≤ length a)%nat → (hi - lo ≤ fuel)%nat →
  (∀ i v, (i < lo)%nat → a !! i = Some v → v < x) →
  (∀ i v, (hi ≤ i)%nat → a !! i = Some v → x ≤ v) →
  let r := bisect_loop fuel a x lo hi in
  (lo ≤ r ≤ hi)%nat ∧
  (∀ i v, (i < r)%nat → a !! i = Some v → v < x) ∧
  (∀ i v, (r ≤ i)%nat → a !! i = Some v → x ≤ v).
Proof.
  intros Hs. revert lo hi. induction fuel as [|fuel IH]; intros lo hi Hb Hf Hlo Hhi;
    cbn [bisect_loop].
  { assert (lo = hi) by lia. subst. eauto with lia. }
  destruct (Nat.ltb_spec lo hi); [|assert (lo = hi) by lia; subst; eauto with lia].
  set (mid := ((lo + hi) / 2)%nat). cbv zeta.
  assert (lo ≤ mid < hi)%nat as Hmid.
  { unfold mid. pose proof (Nat.div_mod_eq (lo + hi) 2).
    pose proof (Nat.mod_upper_bound (lo + hi) 2). lia. }
  destruct (lookup_lt_is_Some_2 a mid) as [v Hv]; [lia|]. rewrite Hv.
  assert (∀ i j vi vj, (i ≤ j)%nat → a !! i = Some vi → a !! j = Some vj → vi ≤ vj) as Hmono.
  { intros i j vi vj Hij Hi Hj. destruct (decide (i = j)) as [->|]; [simplify_eq; lia|].
    apply (StronglySorted_lookup _ _ i j _ _ Hs); [lia|done..]. }
  destruct (Z.ltb_spec v x).
  - edestruct (IH (S mid) hi) as (?&?&?); [lia..| | |split_and!; [lia|lia|done|done]]; [|done].
    intros i w Hi Hw. assert (w ≤ v) by (eapply Hmono; [|exact Hw|exact Hv]; lia). lia.
  - edestruct (IH lo mid) as (?&?&?); [lia..|done| |split_and!; [lia|lia|done|done]].
    intros i w Hi Hw. assert (v ≤ w) by (eapply Hmono; [|exact Hv|exact Hw]; lia). lia.
Qed.

(** On a sorted list, [bisect_left] splits it into the elements below [x] and
    those at or above it. *)
Lemma bisect_left_spec a x :
  StronglySorted Z.le a →
  (bisect_left a x ≤ length a)%nat ∧
  (∀ i v, (i < bisect_left a x)%nat → a !! i = Some v → v < x) ∧
  (∀ i v, (bisect_left a x ≤ i)%nat → a !! i = Some v → x ≤ v).
Proof.
  intros Hs. edestruct (bisect_loop_spec (length a) a x 0 (length a)) as (?&?&?); eauto with lia.
  - intros i v Hi Hv. apply lookup_lt_Some in Hv. lia.
  - split_and!; [unfold bisect_left; lia|done|done].
Qed.

(** ** Returning computations of [result] *)
Section result_ok.
Context {E : Type}.

Lemma result_bind_ok {A B} (m : result E A) (f : A → result E B) b :
  m ≫= f = Ok b ↔ ∃ a, m = Ok a ∧ f a = Ok b.
Proof.
  destruct m as [a|e]; simpl; split; intros H.
  - by exists a.
  - by destruct H as (a' & [= ->] & H).
  - done.
  - by destruct H as (a' & H & _).
Qed.

Lemma raise_if_ok c (e : E) u : raise_if c e = Ok u ↔ c = false.
Proof. destruct c, u; simpl; split; done. Qed.

Lemma iterR_ok {A} (f : A → result E unit) l u :
  iterR f l = Ok u ↔ Forall (λ x, f x = Ok tt) l.
Proof.
  induction l as [|x l IH]; simpl; [destruct u; split; [constructor|done]|].
  rewrite result_bind_ok, Forall_cons, <-IH. split.
  - by intros ([] & Hx & Hl).
  - intros [Hx Hl]. by exists tt.
Qed.

(** A loop that returned ran its body successfully on every element, from the
    accumulator of the elements before it. *)
Lemma foldR_ok_inv {A B} (f : B → A → result E B) (I : nat → B → Prop) l : ∀ acc acc' i,
  foldR f acc l = Ok acc' → I i acc →
  (∀ j x b b', l !! j = Some x → I (i + j)%nat b → f b x = Ok b' → I (S (i + j)) b') →
  I (i + length l)%nat acc'.
Proof.
  induction l as [|x l IH]; intros acc acc' i; simpl.
  - intros [= <-] HI _. by rewrite Nat.add_0_r.
  - rewrite result_bind_ok. intros (b & Hx & Hl) HI Hstep.
    replace (i + S (length l))%nat with (S i + length l)%nat by lia. eapply IH; [done|..].
    + replace (S i) with (S (i + 0)) by lia. eapply Hstep; [done| |done]. by rewrite Nat.add_0_r.
    + intros j y b1 b2 Hj. replace (S i + j)%nat with (i + S j)%nat by lia. by apply Hstep.
Qed.

Lemma result_bind_err {A B} (m : result E A) (f : A → result E B) e :
  m ≫= f = Err e ↔ m = Err e ∨ ∃ a, m = Ok a ∧ f a = Err e.
Proof.
  destruct m as [a|e']; simpl; split.
  - intros Hf. right. eauto.
  - intros [[=]|(a' & [= ->] & Hf)]. done.
  - intros [= ->]. by left.
  - intros [[= ->]|(a' & [=] & _)]. done.
Qed.

(** An exception out of a loop is an exception of its body. *)
Lemma foldR_err {A B} (f : B → A → result E B) l acc e :
  foldR f acc l = Err e → ∃ acc' x, x ∈ l ∧ f acc' x = Err e.
Proof.
  revert acc. induction l as [|x l IH]; intros acc; simpl; [done|].
  rewrite result_bind_err. intros [Hx|(b & _ & Hl)].
  - exists acc, x. split; [apply list_elem_of_here|done].
  - destruct (IH b Hl) as (acc' & y & Hy & Hfy). exists acc', y. split; [by apply list_elem_of_further|done].
Qed.
End result_ok.

(** [for x in l: if k(x) in seen or not good(x): raise; seen.add(k(x))]. *)
Lemma foldR_collect {E A K} `{Countable K} (f : gset K → A → result E (gset K))
    (k : A → K) (good : A → Prop) :
  (∀ seen x s', f seen x = Ok s' ↔ good x ∧ k x ∉ seen ∧ s' = {[k x]} ∪ seen) →
  ∀ l acc s, foldR f acc l = Ok s ↔
    NoDup (k <$> l) ∧ (∀ x, x ∈ l → good x) ∧ (∀ x, x ∈ l → k x ∉ acc) ∧
    s = list_to_set (k <$> l) ∪ acc.
Proof.
  intros Hf. induction l as [|x l IH]; intros acc s.
  { change (list_to_set (k <$> [])) with (∅ : gset K). rewrite (left_id_L ∅ (∪)).
    change (foldR f acc []) with (Ok acc : result E (gset K)). split.
    - intros [= <-]. split_and!; [constructor|by intros ? ?%elem_of_nil..|done].
    - by intros (_&_&_&->). }
  rewrite fmap_cons, NoDup_cons, list_to_set_cons. simpl.
  rewrite result_bind_ok. setoid_rewrite Hf. setoid_rewrite IH. clear IH Hf. split.
  - intros (b&(Hg&Hx&->)&Hnd&Hgood&Hacc&->). split_and!; [|done|..].
    + intros (y&Hy&Hyl)%list_elem_of_fmap. apply (Hacc y Hyl). rewrite <-Hy. apply elem_of_union_l.
      by apply elem_of_singleton.
    + intros y [->|Hy]%elem_of_cons; auto.
    + intros y [->|Hy]%elem_of_cons; [done|]. intros Hy'. apply (Hacc y Hy). by apply elem_of_union_r.
    + by rewrite (assoc_L (∪)), (comm_L (∪) _ {[k x]}).
  - intros ((Hnin&Hnd)&Hgood&Hacc&->). eexists; split; [split_and!; [apply Hgood, list_elem_of_here|apply Hacc, list_elem_of_here|done]|].
    split_and!; [done|intros y Hy; by apply Hgood, list_elem_of_further|..].
    + intros y Hy [Hy'%elem_of_singleton|Hy']%elem_of_union.
      * apply Hnin. rewrite <-Hy'. by apply list_elem_of_fmap_2.
      * by apply (Hacc y); [apply list_elem_of_further|].
    + by rewrite (assoc_L (∪)), (comm_L (∪) _ {[k x]}).
Qed.

(** The same from the empty set. *)
Lemma foldR_collect_empty {E A K} `{Countable K} (f : gset K → A → result E (gset K))
    (k : A → K) (good : A → Prop) l s :
  (∀ seen x s', f seen x = Ok s' ↔ good x ∧ k x ∉ seen ∧ s' = {[k x]} ∪ seen) →
  foldR f ∅ l = Ok s ↔
    NoDup (k <$> l) ∧ (∀ x, x ∈ l → good x) ∧ s = list_to_set (k <$> l).
Proof.
  intros Hf. rewrite (foldR_collect f k good Hf), (right_id_L ∅ (∪)). split.
  - by intros (?&?&_&?).
  - intros (?&?&?). split_and!; [done..| |done]. intros x _. apply not_elem_of_empty.
Qed.

(** ** Invariants of loops *)
Lemma foldl_ind {A B} (P : B → Prop) (f : B → A → B) l b :
  P b → (∀ x b, x ∈ l → P b → P (f b x)) → P (foldl f b l).
Proof.
  revert b. induction l as [|x l IH]; intros b Hb Hf; simpl; [done|].
  apply IH; [apply Hf; [apply list_elem_of_here|done]|].
  intros y b' Hy. apply Hf. by apply list_elem_of_further.
Qed.

(** Two loops over the same list, in lockstep. *)
Lemma foldl_ind2 {A B C} (P : B → C → Prop) (f : B → A → B) (g : C → A → C) l b c :
  P b c → (∀ x b c, x ∈ l → P b c → P (f b x) (g c x)) → P (foldl f b l) (foldl g c l).
Proof.
  revert b c. induction l as [|x l IH]; intros b c Hbc Hf; simpl; [done|].
  apply IH; [apply Hf; [apply list_elem_of_here|done]|].
  intros y b' c' Hy. apply Hf. by apply list_elem_of_further.
Qed.
