(* ===== verification/SimSchema.v ===== *)
(** * The simulator's schema ([dataflow_sim/core/schema.py])

    The task chain a plan is written in, and the event log a simulation
    returns.  Times are values of any numeric type [T]; sizes are ints.  A
    [Location] is a string of which the code names two, so the type has those
    two and every other string; it is in bijection with [string]. *)
From S2P Require Import Prelude.
From stdpp Require Import base option list gmap strings.
From Stdlib Require Import ZArith.
Open Scope Z_scope.

(** ** Locations *)
Definition is_std_location (s : string) : bool :=
  String.eqb s "fast" || String.eqb s "backing".

Inductive Location :=
| Fast
| Backing
| OtherLoc (s : string) (H : is_std_location s = false).

Definition loc_to_string (l : Location) : string :=
  match l with Fast => "fast" | Backing => "backing" | OtherLoc s _ => s end.

Definition loc_of_string (s : string) : Location :=
  match decide (s = "fast"%string) with
  | left _ => Fast
  | right _ =>
      match is_std_location s as b return is_std_location s = b → Location with
      | true => λ _, Backing
      | false => λ H, OtherLoc s H
      end eq_refl
  end.

(** A decidable equality reads as a test. *)
Definition loc_eqb (a b : Location) : bool :=
  match a, b with
  | Fast, Fast | Backing, Backing => true
  | OtherLoc s _, OtherLoc t _ => String.eqb s t
  | _, _ => false
  end.

(** The test [x in ("backing", "fast")]. *)
Definition loc_known (l : Location) : bool :=
  match l with OtherLoc _ _ => false | _ => true end.

Lemma is_std_location_irrel s (H1 H2 : is_std_location s = false) : H1 = H2.
Proof. apply eq_pi. solve_decision. Qed.

Lemma loc_of_to_string l : loc_of_string (loc_to_string l) = l.
Proof.
  destruct l as [| |s H]; [done..|]. unfold loc_of_string. simpl.
  destruct (decide (s = "fast"%string)) as [->|Hn]; [done|].
  generalize (eq_refl (is_std_location s)).
  generalize (is_std_location s) at 2 3. intros [] Hb; [congruence|].
  f_equal. apply is_std_location_irrel.
Qed.

Lemma loc_to_of_string s : loc_to_string (loc_of_string s) = s.
Proof.
  unfold loc_of_string. destruct (decide (s = "fast"%string)) as [->|Hn]; [done|].
  generalize (eq_refl (is_std_location s)).
  generalize (is_std_location s) at 2 3. intros [] Hb; [|done]. simpl.
  unfold is_std_location in Hb. apply orb_prop in Hb as [Hb|Hb];
    apply String.eqb_eq in Hb; congruence.
Qed.

#[export] Instance loc_to_string_inj : Inj (=) (=) loc_to_string.
Proof. intros a b H. by rewrite <-(loc_of_to_string a), H, loc_of_to_string. Qed.

#[export] Instance Location_eq_dec : EqDecision Location.
Proof.
  refine (λ a b, cast_if (decide (loc_to_string a = loc_to_string b)));
    [by apply (inj loc_to_string)|congruence].
Defined.

#[export] Instance Location_countable : Countable Location :=
  inj_countable' loc_to_string loc_of_string loc_of_to_string.

Lemma loc_eqb_eq a b : loc_eqb a b = true ↔ a = b.
Proof.
  split; [|intros <-; destruct a; simpl; auto using String.eqb_refl].
  destruct a, b; simpl; try done. rewrite String.eqb_eq. intros ->. f_equal.
  apply is_std_location_irrel.
Qed.

(** ** The task chain *)
Record Object := mkObject {
  obj_id : string;
  obj_size : Z;
  obj_location : Location;
  obj_type : string;
}.

Record OutputAlloc := mkOutput {
  out_id : string;
  out_size : Z;
  out_location : Location;
  out_type : string;
}.

Record TransferTrigger (T : Type) := mkTrigger {
  trig_obj : string;
  trig_runtime : option T;
}.
Arguments mkTrigger {T}.
Arguments trig_obj {T}.
Arguments trig_runtime {T}.

Record Task (T : Type) := mkTask {
  task_id : string;
  inputs : list string;
  outputs : list OutputAlloc;
  runtime : T;
  workspace_bytes : Z;
  releases_after : list string;
  offload_after : list (TransferTrigger T);
  prefetch_after : list (TransferTrigger T);
  mutates_inputs : list string;
}.
Arguments mkTask {T}.
Arguments task_id {T}.
Arguments inputs {T}.
Arguments outputs {T}.
Arguments runtime {T}.
Arguments workspace_bytes {T}.
Arguments releases_after {T}.
Arguments offload_after {T}.
Arguments prefetch_after {T}.
Arguments mutates_inputs {T}.

(** [final_locations] is a dict: its items in insertion order. *)
Record TaskChain (T : Type) := mkChain {
  initial_memory : list Object;
  tasks : list (Task T);
  final_locations : list (string * Location);
  fast_memory_capacity : option Z;
  backing_memory_capacity : option Z;
  bandwidth_from_slow : option Z;
  bandwidth_to_slow : option Z;
}.
Arguments mkChain {T}.
Arguments initial_memory {T}.
Arguments tasks {T}.
Arguments final_locations {T}.
Arguments fast_memory_capacity {T}.
Arguments backing_memory_capacity {T}.
Arguments bandwidth_from_slow {T}.
Arguments bandwidth_to_slow {T}.

(** ** The event log *)
Inductive MemoryState :=
| live
| reserved
| pending_inbound
| inbound
| pending_outbound
| outbound.

#[export] Instance MemoryState_eq_dec : EqDecision MemoryState.
Proof. solve_decision. Defined.

Definition mstate_eqb (a b : MemoryState) : bool :=
  match a, b with
  | live, live | reserved, reserved | pending_inbound, pending_inbound
  | inbound, inbound | pending_outbound, pending_outbound
  | outbound, outbound => true
  | _, _ => false
  end.

Lemma mstate_eqb_eq a b : mstate_eqb a b = true ↔ a = b.
Proof. by destruct a, b. Qed.

Inductive TransferDirection := from_slow | to_slow.

#[export] Instance TransferDirection_eq_dec : EqDecision TransferDirection.
Proof. solve_decision. Defined.
#[export] Instance TransferDirection_countable : Countable TransferDirection.
Proof.
  apply (inj_countable' (λ d, match d with from_slow => true | to_slow => false end)
           (λ b : bool, if b then from_slow else to_slow)). by intros [].
Defined.

Definition dir_name (d : TransferDirection) : string :=
  match d with from_slow => "from_slow" | to_slow => "to_slow" end.

Inductive EventKind :=
| task_start
| task_end
| release
| transfer_enqueue
| transfer_start
| transfer_end
| transfer_deferred.

Record MemoryEntry (T : Type) := mkMemoryEntry {
  me_id : string;
  me_size : Z;
  me_location : Location;
  me_type : string;
  me_state : MemoryState;
  me_next_ref_t : option T;
}.
Arguments mkMemoryEntry {T}.
Arguments me_id {T}.
Arguments me_size {T}.
Arguments me_location {T}.
Arguments me_type {T}.
Arguments me_state {T}.
Arguments me_next_ref_t {T}.

Record ActiveTask (T : Type) := mkActiveTask { at_id : string; ends_at : T }.
Arguments mkActiveTask {T}.

Record Reference (T : Type) := mkReference {
  ref_obj : string;
  ref_t : T;
  ref_task : string;
}.
Arguments mkReference {T}.
Arguments ref_obj {T}.
Arguments ref_t {T}.
Arguments ref_task {T}.

Record Snapshot (T : Type) := mkSnapshot {
  snap_memory : list (MemoryEntry T);
  snap_total_size : Z;
  snap_active_task : option (ActiveTask T);
  snap_reference_stream : list (Reference T);
}.
Arguments mkSnapshot {T}.
Arguments snap_memory {T}.
Arguments snap_total_size {T}.
Arguments snap_active_task {T}.
Arguments snap_reference_stream {T}.

Record Event (T : Type) := mkEvent {
  ev_t : T;
  ev_kind : EventKind;
  ev_snapshot : Snapshot T;
  ev_task_id : option string;
  ev_object_ids : list string;
  ev_transfer_obj : option string;
  ev_transfer_direction : option TransferDirection;
}.
Arguments mkEvent {T}.
Arguments ev_t {T}.
Arguments ev_kind {T}.
Arguments ev_snapshot {T}.
Arguments ev_task_id {T}.
Arguments ev_object_ids {T}.
Arguments ev_transfer_obj {T}.
Arguments ev_transfer_direction {T}.

(** The [track] of an interval: the compute lane or a transfer stream. *)
Inductive Track := track_compute | track_of (d : TransferDirection).

#[export] Instance Track_eq_dec : EqDecision Track.
Proof. solve_decision. Defined.

Record TaskInterval (T : Type) := mkInterval {
  iv_id : string;
  iv_start : T;
  iv_end : T;
  iv_track : Track;
}.
Arguments mkInterval {T}.
Arguments iv_id {T}.
Arguments iv_start {T}.
Arguments iv_end {T}.
Arguments iv_track {T}.

(** [fast_bytes_by_band]: a dict from band names to bytes. *)
Record MemoryTracePoint (T : Type) := mkTracePoint {
  mp_t : T;
  mp_bands : gmap string Z;
}.
Arguments mkTracePoint {T}.
Arguments mp_t {T}.
Arguments mp_bands {T}.

Record EventLog (T : Type) := mkEventLog {
  task_intervals : list (TaskInterval T);
  events : list (Event T);
  peak_fast_memory_bytes : Z;
  peak_backing_memory_bytes : Z;
  memory_trace : list (MemoryTracePoint T);
}.
Arguments mkEventLog {T}.
Arguments task_intervals {T}.
Arguments events {T}.
Arguments peak_fast_memory_bytes {T}.
Arguments peak_backing_memory_bytes {T}.
Arguments memory_trace {T}.
