(* ===== verification/SimRefStream.v ===== *)
(** * Reference streams ([dataflow_sim/core/reference_stream.py])

    The forward-looking tape of first touches over the remaining tasks, and
    the point query for one object.  A task absent from the start-time dict is
    a [KeyError]. *)
From S2P Require Import Prelude SimSchema.
From stdpp Require Import base option list gmap strings sorting.
From Stdlib Require Import ZArith.
Open Scope Z_scope.

(** [KeyError(k)]. *)
Record KeyError := mkKeyError { key_error : string }.

Section RefStream.
Context {T : Type} `{Num T}.
Implicit Types (starts : gmap string T) (ts : list (Task T)).

(** [if obj_id not in first_ref: first_ref[obj_id] = Reference(...)]. *)
Definition add_first_ref (t : T) (tid : string) (acc : list (Reference T))
    (oid : string) : list (Reference T) :=
  if bool_decide (oid ∈ (ref_obj <$> acc)) then acc
  else acc ++ [mkReference oid t tid].

Definition first_refs_task (t : T) (acc : list (Reference T)) (task : Task T) :
    list (Reference T) :=
  foldl (add_first_ref t (task_id task))
    (foldl (add_first_ref t (task_id task)) acc (inputs task))
    (out_id <$> outputs task).

(** Python's [<=] on the key tuples [(r.ref_t, r.obj_id)], as the sort sees it. *)
Definition ref_ltb (a b : Reference T) : bool :=
  if num_eqb (ref_t a) (ref_t b) then String.ltb (ref_obj a) (ref_obj b)
  else num_ltb (ref_t a) (ref_t b).
Definition ref_leb (a b : Reference T) : bool := negb (ref_ltb b a).

Definition lookup_start starts (tid : string) : result KeyError T :=
  match starts !! tid with Some t => Ok t | None => Err (mkKeyError tid) end.

Definition first_refs ts starts : result KeyError (list (Reference T)) :=
  foldR (λ acc task,
    t ← lookup_start starts (task_id task);
    Ok (first_refs_task t acc task)) [] ts.

Definition compute_reference_stream ts starts : result KeyError (list (Reference T)) :=
  py_sorted ref_leb <$> first_refs ts starts.

(** [obj_id in task.inputs or any(o.id == obj_id for o in task.outputs)]. *)
Definition touches (oid : string) (task : Task T) : bool :=
  bool_decide (oid ∈ inputs task) || bool_decide (oid ∈ (out_id <$> outputs task)).

Fixpoint next_ref_time (oid : string) ts starts : result KeyError (option T) :=
  match ts with
  | [] => Ok None
  | task :: ts =>
      if touches oid task then Some <$> lookup_start starts (task_id task)
      else next_ref_time oid ts starts
  end.

(** ** Lemmas *)

Definition find_ref (oid : string) (refs : list (Reference T)) : option (Reference T) :=
  list_find (λ r, ref_obj r = oid) refs ≫= λ p, Some p.2.

Lemma find_ref_app oid l1 l2 :
  find_ref oid (l1 ++ l2) =
  match find_ref oid l1 with Some r => Some r | None => find_ref oid l2 end.
Proof.
  unfold find_ref. destruct (list_find _ l1) as [[i r]|] eqn:H1; simpl.
  - by erewrite list_find_app_l by done.
  - rewrite list_find_app_r by done. by destruct (list_find _ l2) as [[i r]|].
Qed.

Lemma find_ref_None oid refs : find_ref oid refs = None ↔ oid ∉ (ref_obj <$> refs).
Proof.
  unfold find_ref. destruct (list_find _ refs) as [[i r]|] eqn:Hf; simpl.
  - apply list_find_Some in Hf as (Hi&<-&_). split; [done|]. intros []. 
    apply list_elem_of_fmap. exists r; split; [done|]. apply list_elem_of_lookup; eauto.
  - apply list_find_None in Hf. rewrite Forall_forall in Hf. split; [|done]. intros _.
    rewrite list_elem_of_fmap. intros (r&->&Hr). by apply (Hf r).
Qed.

Lemma find_ref_Some oid refs r : find_ref oid refs = Some r → r ∈ refs ∧ ref_obj r = oid.
Proof.
  unfold find_ref. destruct (list_find _ refs) as [[i r']|] eqn:Hf; simpl; [|done].
  intros [= <-]. apply list_find_Some in Hf as (Hi&<-&_).
  split; [apply list_elem_of_lookup; eauto|done].
Qed.

Lemma find_add_first_ref t tid acc oid x :
  find_ref x (add_first_ref t tid acc oid) =
  match find_ref x acc with
  | Some r => Some r
  | None => if decide (x = oid) then Some (mkReference oid t tid) else None
  end.
Proof.
  unfold add_first_ref. case_bool_decide as Hin.
  - destruct (find_ref x acc) eqn:Hx; [done|]. apply find_ref_None in Hx.
    rewrite decide_False; [done|congruence].
  - rewrite find_ref_app. destruct (find_ref x acc) eqn:Hx; [done|].
    unfold find_ref; simpl. destruct (decide (oid = x)) as [->|Hne]; simpl.
    + by rewrite decide_True by done.
    + by rewrite decide_False by done.
Qed.

Lemma find_foldl_add t tid x ids : ∀ acc,
  find_ref x (foldl (add_first_ref t tid) acc ids) =
  match find_ref x acc with
  | Some r => Some r
  | None => if decide (x ∈ ids) then Some (mkReference x t tid) else None
  end.
Proof.
  induction ids as [|i ids IH]; intros acc; simpl.
  { by destruct (find_ref x acc). }
  rewrite IH, find_add_first_ref. destruct (find_ref x acc); [done|].
  destruct (decide (x = i)) as [->|Hne].
  - by rewrite decide_True by (apply list_elem_of_here).
  - destruct (decide (x ∈ ids)) as [Hi|Hi].
    + by rewrite decide_True by (by apply list_elem_of_further).
    + by rewrite decide_False by (rewrite elem_of_cons; tauto).
Qed.

Lemma find_first_refs_task t acc task x :
  find_ref x (first_refs_task t acc task) =
  match find_ref x acc with
  | Some r => Some r
  | None => if touches x task then Some (mkReference x t (task_id task)) else None
  end.
Proof.
  unfold first_refs_task, touches. rewrite !find_foldl_add.
  destruct (find_ref x acc); [done|].
  do 2 case_decide; repeat case_bool_decide; done.
Qed.

Lemma NoDup_foldl_add t tid ids : ∀ acc,
  NoDup (ref_obj <$> acc) → NoDup (ref_obj <$> foldl (add_first_ref t tid) acc ids).
Proof.
  induction ids as [|i ids IH]; intros acc Hacc; simpl; [done|]. apply IH.
  unfold add_first_ref. case_bool_decide; [done|]. rewrite fmap_app. apply NoDup_app.
  split_and!; [done| |apply NoDup_singleton].
  intros y Hy Hy'. apply list_elem_of_singleton in Hy'. by subst.
Qed.

(** The accumulated loop, stated for an arbitrary starting dict. *)
Lemma foldR_first_refs starts ts : ∀ acc refs,
  foldR (λ acc task, t ← lookup_start starts (task_id task);
                     Ok (first_refs_task t acc task)) acc ts = Ok refs →
  NoDup (ref_obj <$> acc) →
  NoDup (ref_obj <$> refs) ∧
  ∀ x, match find_ref x acc with
       | Some r => find_ref x refs = Some r
       | None => next_ref_time x ts starts = Ok (ref_t <$> find_ref x refs)
       end.
Proof.
  induction ts as [|task ts IH]; intros acc refs; simpl.
  { intros [= <-] Hnd. split; [done|]. intros x. by destruct (find_ref x acc) as [r|] eqn:Hx; [|simpl]. }
  destruct (lookup_start starts (task_id task)) as [t|e] eqn:Hs; simpl; [|done].
  intros Hr Hnd. apply IH in Hr as [Hnd' Hx]; [|by do 2 apply NoDup_foldl_add].
  split; [done|]. intros x. specialize (Hx x). rewrite find_first_refs_task in Hx.
  destruct (find_ref x acc) as [r|]; [done|].
  destruct (touches x task); [|done].
  simpl. by rewrite Hx.
Qed.

End RefStream.

(** ** The order of the tape *)
Section RefOrder.
Context {T : Type} `{NumLaws T}.

Lemma num_leb_ltb (a b : T) : num_leb a b = negb (num_ltb b a).
Proof. by rewrite num_ltb_leb, negb_involutive. Qed.

Lemma string_leb_ltb s1 s2 : String.leb s1 s2 = negb (String.ltb s2 s1).
Proof.
  unfold String.leb, String.ltb. rewrite (String.compare_antisym s2 s1).
  by destruct (String.compare s1 s2).
Qed.

(** [ref_leb] is the lexicographic order on [(ref_t, obj_id)]. *)
Lemma ref_leb_spec (a b : Reference T) :
  ref_leb a b = true ↔
  num_leb (ref_t a) (ref_t b) = true ∧
  (num_leb (ref_t b) (ref_t a) = true → (ref_obj a ≤ ref_obj b)%string).
Proof.
  unfold ref_leb, ref_ltb. rewrite num_eqb_leb, num_ltb_leb.
  unfold String.le. rewrite string_leb_ltb.
  destruct (num_leb_total (ref_t a) (ref_t b)) as [E|E]; rewrite E;
    [destruct (num_leb (ref_t b) (ref_t a)) eqn:E'|destruct (num_leb (ref_t a) (ref_t b)) eqn:E'];
    simpl; rewrite ?Is_true_true; naive_solver.
Qed.

Lemma ref_leb_total (a b : Reference T) : ref_leb a b = true ∨ ref_leb b a = true.
Proof.
  rewrite !ref_leb_spec.
  destruct (num_leb (ref_t a) (ref_t b)) eqn:E1, (num_leb (ref_t b) (ref_t a)) eqn:E2.
  - destruct (total String.le (ref_obj a) (ref_obj b)); [left|right]; done.
  - left. split; [done|congruence].
  - right. split; [done|congruence].
  - destruct (num_leb_total (ref_t a) (ref_t b)); congruence.
Qed.

Lemma ref_leb_trans (a b c : Reference T) :
  ref_leb a b = true → ref_leb b c = true → ref_leb a c = true.
Proof.
  rewrite !ref_leb_spec. intros [Hab Sab] [Hbc Sbc].
  split; [by eapply num_leb_trans|]. intros Hca.
  transitivity (ref_obj b); [apply Sab|apply Sbc]; by eapply num_leb_trans.
Qed.
End RefOrder.

(** ** Theorems *)
Section RefTheorems.
Context {T : Type} `{NumLaws T}.

(** The reference tape and the point query agree: whenever the tape
    is computed, it lists each object of the remaining tasks exactly once,
    sorted by [(ref_t, obj_id)], and the entry of an object carries exactly
    the time that [next_ref_time] returns for it ([None] when it has no
    entry). *)
Theorem reference_stream_correct (ts : list (Task T)) (starts : gmap string T)
    (refs : list (Reference T)) :
  compute_reference_stream ts starts = Ok refs →
  NoDup (ref_obj <$> refs) ∧
  StronglySorted (λ a b, ref_leb a b = true) refs ∧
  ∀ oid, ∃ r, next_ref_time oid ts starts = Ok r ∧
    ∀ t, r = Some t ↔ ∃ tid, mkReference oid t tid ∈ refs.
Proof.
  unfold compute_reference_stream. destruct (first_refs ts starts) as [l|e] eqn:Hl;
    simpl; [|done]. intros [= <-].
  apply foldR_first_refs in Hl as [Hnd Hx]; [|constructor].
  assert (ref_obj <$> l ≡ₚ ref_obj <$> py_sorted ref_leb l) as Hp.
  { by rewrite <-(py_sorted_perm ref_leb l). }
  split_and!.
  - by rewrite <-Hp.
  - apply py_sorted_sorted; [apply ref_leb_total|apply ref_leb_trans].
  - intros oid. specialize (Hx oid). simpl in Hx. eexists; split; [exact Hx|].
    intros t. setoid_rewrite elem_of_py_sorted. split.
    + destruct (find_ref oid l) as [[o t' tid]|] eqn:Hf; simpl; [|done]. intros [= ->].
      apply find_ref_Some in Hf as [Hin <-]. by exists tid.
    + intros [tid Hin]. destruct (find_ref oid l) as [r|] eqn:Hf.
      * apply find_ref_Some in Hf as [Hin' Ho]. simpl.
        apply list_elem_of_lookup in Hin as [i Hi], Hin' as [j Hj].
        assert (i = j) as <-; [|rewrite Hi in Hj; by injection Hj as <-].
        eapply (NoDup_lookup (ref_obj <$> l)); [done|by rewrite list_lookup_fmap, Hi|].
        by rewrite list_lookup_fmap, Hj, <-Ho.
      * apply find_ref_None in Hf as []. apply list_elem_of_fmap. by eexists (mkReference _ _ _).
Qed.
End RefTheorems.

Definition ref_demo_tasks : list (Task Z) :=
  [mkTask "t0" ["w"] [mkOutput "a" 4 Fast "activation"] 5 0 [] [] [] [];
   mkTask "t1" ["a"; "w"] [] 3 0 [] [] [] []]%string.
Definition ref_demo_starts : gmap string Z := {["t0" := 0; "t1" := 5]}%string.

Lemma reference_stream_correct_witness :
  compute_reference_stream ref_demo_tasks ref_demo_starts =
    Ok [mkReference "a" 0 "t0"; mkReference "w" 0 "t0"]%string ∧
  ∃ r, next_ref_time "w" ref_demo_tasks ref_demo_starts = Ok r.
Proof.
  split; [vm_compute; reflexivity|].
  destruct (reference_stream_correct ref_demo_tasks ref_demo_starts
              [mkReference "a" 0 "t0"; mkReference "w" 0 "t0"]%string) as (_&_&H);
    [vm_compute; reflexivity|].
  destruct (H "w"%string) as [r [Hr _]]. by exists r.
Defined.
