(* ===== verification/SimValidate.v ===== *)
(** * Static validation of task chains ([dataflow_sim/core/validate.py])

    The four category checks and the entry points.  An exception is a value of
    [ValidationError], one constructor per rule token; where Python reports
    [next(iter(s))] of a set, which element it is is unspecified and the
    constructor does not carry it. *)
From S2P Require Import Prelude SimSchema.
From stdpp Require Import base option list gmap strings sets.
From Stdlib Require Import ZArith Lia.
Open Scope Z_scope.

Inductive ValidationError :=
| duplicate_initial_memory (oid : string) (l : Location)
| negative_workspace (tid : string) (ws : Z)
| duplicate_input_id (tid oid : string)
| duplicate_output_shadows_initial (tid oid : string)
| duplicate_output_id (tid oid : string)
| self_cycle (tid oid : string)
| unknown_input (tid oid : string)
| releases_after_unknown_obj (tid oid : string)
| mutates_inputs_not_in_inputs (tid oid : string)
| offload_unknown_obj (tid oid : string)
| prefetch_unknown_obj (tid oid : string)
| final_location_unknown_obj (oid : string)
| final_location_invalid (oid : string) (l : Location)
| conflict_prefetch_and_offload_same_object (tid : string)
| duplicate_offload (tid oid : string)
| offload_not_on_compute (tid oid : string)
| duplicate_prefetch (tid oid : string)
| prefetch_already_on_compute (tid oid : string)
| release_and_offload_same_object (tid : string)
| release_of_dirty_with_later_use (tid rel_tid oid : string)
| release_no_backing_copy_with_later_use (tid rel_tid oid : string)
| released_then_referenced (tid rel_tid oid : string)
| never_prefetched (tid oid : string)
| final_location_not_on_backing (oid : string)
| final_location_dirty_on_backing (oid : string)
| final_location_not_on_compute (oid : string)
| initial_memory_overflow (l : Location) (total cap : Z)
| forced_footprint_exceeds (details : list (string * (Z * Z * Z)))
| location_key_error (l : Location).

Section Validate.
Context {T : Type}.
Implicit Types (chain : TaskChain T) (task : Task T).

(** ** Id resolution *)

(** [for x in l: if x in seen: raise err(x); seen.add(x)], returning [seen]. *)
Definition collect_fresh {E} (err : string → E) (l : list string) : result E (gset string) :=
  foldR (λ seen x, if bool_decide (x ∈ seen) then Err (err x) else Ok ({[x]} ∪ seen)) ∅ l.

(** The loop over the initial memory: [(seen_initial, known)]. *)
Definition check_initial_memory (objs : list Object) :
    result ValidationError (gset (string * Location) * gset string) :=
  foldR (λ '(seen, known) o,
    let key := (obj_id o, obj_location o) in
    if bool_decide (key ∈ seen) then Err (duplicate_initial_memory (obj_id o) (obj_location o))
    else Ok ({[key]} ∪ seen, {[obj_id o]} ∪ known)) (∅, ∅) objs.

(** The loop over a task's outputs, returning [own_outputs]. *)
Definition check_outputs (initial_ids known : gset string) task :
    result ValidationError (gset string) :=
  foldR (λ own out,
    let oid := out_id out in
    if bool_decide (oid ∈ initial_ids) then
      Err (duplicate_output_shadows_initial (task_id task) oid)
    else if bool_decide (oid ∈ known) then Err (duplicate_output_id (task_id task) oid)
    else if bool_decide (oid ∈ own) then Err (duplicate_output_id (task_id task) oid)
    else Ok ({[oid]} ∪ own)) ∅ (outputs task).

(** [for x in l: if not ok(x): raise err(x)]. *)
Definition check_all {A} (ok : A → bool) (err : A → ValidationError) (l : list A) :
    result ValidationError unit :=
  iterR (λ x, raise_if (negb (ok x)) (err x)) l.

Definition resolve_task (initial_ids known : gset string) task :
    result ValidationError (gset string) :=
  let tid := task_id task in
  raise_if (workspace_bytes task <? 0) (negative_workspace tid (workspace_bytes task)) ;;
  seen_in ← collect_fresh (duplicate_input_id tid) (inputs task);
  own ← check_outputs initial_ids known task;
  check_all (λ i, negb (bool_decide (i ∈ own))) (self_cycle tid) (inputs task) ;;
  check_all (λ i, bool_decide (i ∈ known)) (unknown_input tid) (inputs task) ;;
  check_all (λ r, bool_decide (r ∈ known) || bool_decide (r ∈ own))
    (releases_after_unknown_obj tid) (releases_after task) ;;
  check_all (λ m, bool_decide (m ∈ seen_in))
    (mutates_inputs_not_in_inputs tid) (mutates_inputs task) ;;
  check_all (λ o, bool_decide (o ∈ known) || bool_decide (o ∈ own))
    (offload_unknown_obj tid) (trig_obj <$> offload_after task) ;;
  check_all (λ o, bool_decide (o ∈ known) || bool_decide (o ∈ own))
    (prefetch_unknown_obj tid) (trig_obj <$> prefetch_after task) ;;
  Ok (known ∪ own).

Definition check_final_ids (known : gset string) (finals : list (string * Location)) :
    result ValidationError unit :=
  iterR (λ '(oid, loc),
    raise_if (negb (bool_decide (oid ∈ known))) (final_location_unknown_obj oid) ;;
    raise_if (negb (loc_known loc)) (final_location_invalid oid loc)) finals.

Definition validate_id_resolution chain : result ValidationError unit :=
  let initial_ids : gset string := list_to_set (obj_id <$> initial_memory chain) in
  '(_, known) ← check_initial_memory (initial_memory chain);
  known ← foldR (resolve_task initial_ids) known (tasks chain);
  check_final_ids known (final_locations chain).

(** ** Triggers *)
Record Residency := mkResidency {
  on_compute : gset string;
  on_backing : gset string;
}.

(** [if x.location == "fast": on_compute.add(x.id) else: on_backing.add(x.id)]. *)
Definition land (oid : string) (loc : Location) (r : Residency) : Residency :=
  match loc with
  | Fast => mkResidency ({[oid]} ∪ on_compute r) (on_backing r)
  | _ => mkResidency (on_compute r) ({[oid]} ∪ on_backing r)
  end.

Definition initial_residency (objs : list Object) : Residency :=
  foldl (λ r o, land (obj_id o) (obj_location o) r) (mkResidency ∅ ∅) objs.

Definition land_outputs task (r : Residency) : Residency :=
  foldl (λ r o, land (out_id o) (out_location o) r) r (outputs task).

Definition trigger_offload (r : Residency) (oid : string) : Residency :=
  mkResidency (on_compute r ∖ {[oid]}) ({[oid]} ∪ on_backing r).
Definition trigger_prefetch (r : Residency) (oid : string) : Residency :=
  mkResidency ({[oid]} ∪ on_compute r) (on_backing r).
Definition trigger_release (r : Residency) (oid : string) : Residency :=
  mkResidency (on_compute r ∖ {[oid]}) (on_backing r).

(** The end-of-step commit: offloads, prefetches, releases. *)
Definition commit_triggers task (r : Residency) : Residency :=
  foldl trigger_release
    (foldl trigger_prefetch
      (foldl trigger_offload r (trig_obj <$> offload_after task))
      (trig_obj <$> prefetch_after task))
    (releases_after task).

Definition trigger_task (r : Residency) task : result ValidationError Residency :=
  let tid := task_id task in
  let off_ids : gset string := list_to_set (trig_obj <$> offload_after task) in
  let pf_ids : gset string := list_to_set (trig_obj <$> prefetch_after task) in
  raise_if (negb (bool_decide (off_ids ∩ pf_ids = ∅)))
    (conflict_prefetch_and_offload_same_object tid) ;;
  let r := land_outputs task r in
  foldR (λ (seen : gset string) oid,
    raise_if (bool_decide (oid ∈ seen)) (duplicate_offload tid oid) ;;
    raise_if (negb (bool_decide (oid ∈ on_compute r))) (offload_not_on_compute tid oid) ;;
    Ok ({[oid]} ∪ seen)) ∅ (trig_obj <$> offload_after task) ;;
  foldR (λ (seen : gset string) oid,
    raise_if (bool_decide (oid ∈ seen)) (duplicate_prefetch tid oid) ;;
    raise_if (bool_decide (oid ∈ on_compute r)) (prefetch_already_on_compute tid oid) ;;
    Ok ({[oid]} ∪ seen)) ∅ (trig_obj <$> prefetch_after task) ;;
  Ok (commit_triggers task r).

Definition validate_triggers chain : result ValidationError unit :=
  foldR trigger_task (initial_residency (initial_memory chain)) (tasks chain) ;; Ok tt.

(** ** Releases and mutations *)
Record Dirtiness := mkDirtiness {
  resid : Residency;
  dirty : gset string;
  released_meta : gmap string (string * bool * bool);
}.

Definition check_input task (d : Dirtiness) (inp : string) : result ValidationError unit :=
  if bool_decide (inp ∈ on_compute (resid d)) then Ok tt
  else match released_meta d !! inp with
       | Some (rel, was_dirty, had_backing) =>
           if (was_dirty : bool) then Err (release_of_dirty_with_later_use (task_id task) rel inp)
           else if negb had_backing then
             Err (release_no_backing_copy_with_later_use (task_id task) rel inp)
           else Err (released_then_referenced (task_id task) rel inp)
       | None => Err (never_prefetched (task_id task) inp)
       end.

Definition commit_mutation (d : Dirtiness) (mid : string) : Dirtiness :=
  mkDirtiness (resid d) ({[mid]} ∪ dirty d) (released_meta d).
Definition commit_offload (d : Dirtiness) (oid : string) : Dirtiness :=
  mkDirtiness (trigger_offload (resid d) oid) (dirty d ∖ {[oid]}) (released_meta d).
Definition commit_prefetch (d : Dirtiness) (oid : string) : Dirtiness :=
  mkDirtiness (trigger_prefetch (resid d) oid) (dirty d ∖ {[oid]})
    (delete oid (released_meta d)).
Definition commit_release (tid : string) (d : Dirtiness) (rid : string) : Dirtiness :=
  mkDirtiness (trigger_release (resid d) rid) (dirty d ∖ {[rid]})
    (<[rid := (tid, bool_decide (rid ∈ dirty d), bool_decide (rid ∈ on_backing (resid d)))]>
       (released_meta d)).

Definition commit_task task (d : Dirtiness) : Dirtiness :=
  foldl (commit_release (task_id task))
    (foldl commit_prefetch
      (foldl commit_offload
        (foldl commit_mutation
          (mkDirtiness (land_outputs task (resid d)) (dirty d) (released_meta d))
          (mutates_inputs task))
        (trig_obj <$> offload_after task))
      (trig_obj <$> prefetch_after task))
    (releases_after task).

Definition release_task (d : Dirtiness) task : result ValidationError Dirtiness :=
  let rel_set : gset string := list_to_set (releases_after task) in
  let off_set : gset string := list_to_set (trig_obj <$> offload_after task) in
  raise_if (negb (bool_decide (rel_set ∩ off_set = ∅)))
    (release_and_offload_same_object (task_id task)) ;;
  iterR (check_input task d) (inputs task) ;;
  Ok (commit_task task d).

Definition check_final (d : Dirtiness) (fl : string * Location) : result ValidationError unit :=
  let '(oid, loc) := fl in
  match loc with
  | Backing =>
      raise_if (negb (bool_decide (oid ∈ on_backing (resid d))))
        (final_location_not_on_backing oid) ;;
      raise_if (bool_decide (oid ∈ dirty d)) (final_location_dirty_on_backing oid)
  | Fast =>
      raise_if (negb (bool_decide (oid ∈ on_compute (resid d))))
        (final_location_not_on_compute oid)
  | OtherLoc _ _ => Ok tt
  end.

Definition initial_dirtiness (objs : list Object) : Dirtiness :=
  mkDirtiness (initial_residency objs) ∅ ∅.

Definition validate_releases_mutation chain : result ValidationError unit :=
  d ← foldR release_task (initial_dirtiness (initial_memory chain)) (tasks chain);
  iterR (check_final d) (final_locations chain).

(** ** Capacity *)

(** [alloc[obj.location] += obj.size] over the initial memory. *)
Definition initial_alloc (objs : list Object) : result ValidationError (Z * Z) :=
  foldR (λ '(f, b) o,
    match obj_location o with
    | Fast => Ok (f + obj_size o, b)
    | Backing => Ok (f, b + obj_size o)
    | l => Err (location_key_error l)
    end) (0, 0) objs.

Definition check_cap (l : Location) (total : Z) (cap : option Z) : result ValidationError unit :=
  match cap with
  | None => Ok tt
  | Some cap => raise_if (cap <? total) (initial_memory_overflow l total cap)
  end.

(** [sum(o.size for o in task.outputs if o.location == loc)]. *)
Definition out_bytes_at (l : Location) task : Z :=
  sumZ (out_size <$> filter (λ o, loc_eqb (out_location o) l = true) (outputs task)).

(** [sum(size_of.get(i, 0) for i in task.inputs)]. *)
Definition input_bytes (size_of : gmap string Z) task : Z :=
  sumZ ((λ i, default 0 (size_of !! i)) <$> inputs task).

Definition forced_bytes (size_of : gmap string Z) task : Z :=
  input_bytes size_of task + out_bytes_at Fast task + workspace_bytes task.

Definition add_output_sizes (size_of : gmap string Z) task : gmap string Z :=
  foldl (λ m o, <[out_id o := out_size o]> m) size_of (outputs task).

(** The loop of the forced-footprint check: [(size_of, impossible_tasks)]. *)
Definition footprint_task (cap : Z) (acc : gmap string Z * list (string * (Z * Z * Z))) task :=
  let '(size_of, bad) := acc in
  (add_output_sizes size_of task,
   if cap <? forced_bytes size_of task then
     bad ++ [(task_id task,
              (input_bytes size_of task, out_bytes_at Fast task, workspace_bytes task))]
   else bad).

Definition initial_sizes (objs : list Object) : gmap string Z :=
  foldl (λ m o, <[obj_id o := obj_size o]> m) ∅ objs.

Definition validate_capacity chain : result ValidationError unit :=
  '(f, b) ← initial_alloc (initial_memory chain);
  check_cap Fast f (fast_memory_capacity chain) ;;
  check_cap Backing b (backing_memory_capacity chain) ;;
  match fast_memory_capacity chain with
  | None => Ok tt
  | Some cap =>
      let '(_, bad) := foldl (footprint_task cap)
                         (initial_sizes (initial_memory chain), []) (tasks chain) in
      match bad with [] => Ok tt | _ => Err (forced_footprint_exceeds bad) end
  end.

(** ** Entry points *)
Definition validate_planning_input chain : result ValidationError unit :=
  validate_id_resolution chain ;; validate_capacity chain.

Definition validate_chain chain : result ValidationError unit :=
  validate_id_resolution chain ;;
  validate_triggers chain ;;
  validate_releases_mutation chain ;;
  validate_capacity chain.

End Validate.

(** ** What the validator decides *)
Section ValidateSpec.
Context {T : Type}.
Implicit Types (chain : TaskChain T) (task : Task T).

(** The dict keys of the initial memory. *)
Definition initial_keys (objs : list Object) : list (string * Location) :=
  (λ o, (obj_id o, obj_location o)) <$> objs.

Definition out_ids task : list string := out_id <$> outputs task.

(** Ids introduced by the initial memory and by the first [i] tasks. *)
Definition known_before chain (i : nat) : gset string :=
  list_to_set (obj_id <$> initial_memory chain) ∪
  list_to_set (take i (tasks chain) ≫= out_ids).

Record task_resolves (known : gset string) task : Prop := {
  tr_workspace : 0 ≤ workspace_bytes task;
  tr_inputs_nodup : NoDup (inputs task);
  tr_outputs_nodup : NoDup (out_ids task);
  tr_outputs_fresh : ∀ o, o ∈ out_ids task → o ∉ known;
  tr_inputs : ∀ i, i ∈ inputs task → i ∈ known;
  tr_releases : ∀ r, r ∈ releases_after task → r ∈ known ∨ r ∈ out_ids task;
  tr_mutates : ∀ m, m ∈ mutates_inputs task → m ∈ inputs task;
  tr_offload : ∀ o, o ∈ (trig_obj <$> offload_after task) → o ∈ known ∨ o ∈ out_ids task;
  tr_prefetch : ∀ o, o ∈ (trig_obj <$> prefetch_after task) → o ∈ known ∨ o ∈ out_ids task;
}.

(** Every reference resolves to an id introduced strictly earlier, and every
    id is introduced once. *)
Record ids_resolve chain : Prop := {
  ir_initial : NoDup (initial_keys (initial_memory chain));
  ir_tasks : ∀ i task, tasks chain !! i = Some task → task_resolves (known_before chain i) task;
  ir_final : ∀ oid loc, (oid, loc) ∈ final_locations chain →
    oid ∈ known_before chain (length (tasks chain)) ∧ loc_known loc = true;
}.

Lemma collect_fresh_ok {E} (err : string → E) l s :
  collect_fresh err l = Ok s ↔ NoDup l ∧ s = list_to_set l.
Proof.
  unfold collect_fresh.
  rewrite (foldR_collect_empty _ id (λ _, True)); [rewrite list_fmap_id; tauto|].
  intros seen x s'. case_bool_decide; split; try naive_solver.
Qed.

Lemma check_initial_memory_ok objs known :
  (∃ seen, check_initial_memory objs = Ok (seen, known)) ↔
  NoDup (initial_keys objs) ∧ known = list_to_set (obj_id <$> objs).
Proof.
  unfold check_initial_memory, initial_keys. set (key := λ o, (obj_id o, obj_location o)).
  set (step := λ '(seen, known) o, _).
  assert (∀ acc acck p, foldR step (acc, acck) objs = Ok p ↔
    foldR (λ (seen : gset (string * Location)) o,
       if bool_decide (key o ∈ seen)
       then Err (duplicate_initial_memory (obj_id o) (obj_location o))
       else Ok ({[key o]} ∪ seen)) acc objs = Ok p.1 ∧
    p.2 = list_to_set (obj_id <$> objs) ∪ acck) as Hsplit.
  { clear. induction objs as [|o objs IH]; intros acc acck [p1 p2].
    { simpl. rewrite (left_id_L ∅ (∪)). naive_solver. }
    cbn [foldR]. change (step (acc, acck) o) with
      (if bool_decide (key o ∈ acc)
       then Err (duplicate_initial_memory (obj_id o) (obj_location o))
       else Ok ({[key o]} ∪ acc, {[obj_id o]} ∪ acck)).
    case_bool_decide; [by split; [|intros [? _]]|].
    change (Ok ?x ≫= ?f) with (f x). rewrite IH, fmap_cons, list_to_set_cons.
    by rewrite (assoc_L (∪) _ {[obj_id o]}), (comm_L (∪) _ {[obj_id o]}). }
  setoid_rewrite Hsplit. rewrite (right_id_L ∅ (∪)). simpl. clear Hsplit.
  assert (∀ (seen : gset (string * Location)) x s', (if bool_decide (key x ∈ seen)
      then Err (duplicate_initial_memory (obj_id x) (obj_location x))
      else Ok ({[key x]} ∪ seen)) = Ok s' ↔ True ∧ key x ∉ seen ∧ s' = {[key x]} ∪ seen) as Hstep.
  { intros sn x s'. case_bool_decide; naive_solver. }
  setoid_rewrite (foldR_collect_empty _ key (λ _, True) _ _ Hstep).
  split; [by intros (seen&(?&_&_)&?)|]. intros [Hnd ->]. by eexists.
Qed.

Lemma check_outputs_ok initial_ids known task own :
  check_outputs initial_ids known task = Ok own ↔
  NoDup (out_ids task) ∧ (∀ o, o ∈ out_ids task → o ∉ initial_ids ∧ o ∉ known) ∧
  own = list_to_set (out_ids task).
Proof.
  unfold check_outputs, out_ids.
  rewrite (foldR_collect_empty _ out_id (λ o, out_id o ∉ initial_ids ∧ out_id o ∉ known)).
  2: { intros seen x s'. simpl. repeat case_bool_decide; split; naive_solver. }
  split; intros (?&Hg&?); split_and!; try done.
  - by intros o (x&->&Hx)%list_elem_of_fmap; apply Hg.
  - intros x Hx. by apply Hg, list_elem_of_fmap_2.
Qed.

Lemma check_all_ok {A} (ok : A → bool) err l u :
  check_all ok err l = Ok u ↔ ∀ x, x ∈ l → ok x = true.
Proof.
  unfold check_all. rewrite iterR_ok, Forall_forall.
  by setoid_rewrite raise_if_ok; setoid_rewrite negb_false_iff.
Qed.

Lemma resolve_task_ok initial_ids known task known' :
  initial_ids ⊆ known →
  resolve_task initial_ids known task = Ok known' ↔
  task_resolves known task ∧ known' = known ∪ list_to_set (out_ids task).
Proof.
  intros Hsub. unfold resolve_task. split.
  - intros Hr.
    apply result_bind_ok in Hr as (?&Hws%raise_if_ok&Hr).
    apply result_bind_ok in Hr as (seen&[Hin ->]%collect_fresh_ok&Hr).
    apply result_bind_ok in Hr as (own&(Hout&Hfr&->)%check_outputs_ok&Hr).
    apply result_bind_ok in Hr as (?&_&Hr).
    apply result_bind_ok in Hr as (?&Hi&Hr). rewrite check_all_ok in Hi.
    apply result_bind_ok in Hr as (?&Hrel&Hr). rewrite check_all_ok in Hrel.
    apply result_bind_ok in Hr as (?&Hmut&Hr). rewrite check_all_ok in Hmut.
    apply result_bind_ok in Hr as (?&Hoff&Hr). rewrite check_all_ok in Hoff.
    apply result_bind_ok in Hr as (?&Hpf&[= <-]). rewrite check_all_ok in Hpf.
    split; [|done]. split; [lia|done|done|by intros o Ho; apply Hfr|..].
    + intros i' Hi'. specialize (Hi i' Hi'). by rewrite bool_decide_eq_true in Hi.
    + intros r Hr. specialize (Hrel r Hr). by rewrite orb_true_iff, !bool_decide_eq_true, elem_of_list_to_set in Hrel.
    + intros m Hm. specialize (Hmut m Hm). by rewrite bool_decide_eq_true, elem_of_list_to_set in Hmut.
    + intros r Hr. specialize (Hoff r Hr). by rewrite orb_true_iff, !bool_decide_eq_true, elem_of_list_to_set in Hoff.
    + intros r Hr. specialize (Hpf r Hr). by rewrite orb_true_iff, !bool_decide_eq_true, elem_of_list_to_set in Hpf.
  - intros [[Hws Hin Hout Hfr Hi Hrel Hmut Hoff Hpf] ->].
    apply result_bind_ok; exists tt; split; [apply raise_if_ok; lia|].
    apply result_bind_ok; eexists; split; [by apply collect_fresh_ok|].
    apply result_bind_ok; eexists; split; [apply check_outputs_ok; split_and!; [done| |done]|].
    { intros o Ho. specialize (Hfr o Ho). split; [|done]. intros Ho'. by apply Hfr, Hsub. }
    assert (∀ {A} (ok : A → bool) err l (r : result ValidationError (gset string)) k,
      (∀ x, x ∈ l → ok x = true) → r = Ok k → (check_all ok err l ;; r) = Ok k) as Hseq.
    { intros A ok err l r k Hl ->. apply result_bind_ok; exists tt.
      by split; [apply check_all_ok|]. }
    repeat (apply Hseq; [intros x Hx|]);
      rewrite ?orb_true_iff, ?negb_true_iff, ?bool_decide_eq_true, ?bool_decide_eq_false,
        ?elem_of_list_to_set; auto.
    intros Hx'. by apply (Hfr x), Hi.
Qed.

Lemma resolve_tasks_ok initial_ids ts : ∀ known known',
  initial_ids ⊆ known →
  foldR (resolve_task initial_ids) known ts = Ok known' ↔
  (∀ i task, ts !! i = Some task →
     task_resolves (known ∪ list_to_set (take i ts ≫= out_ids)) task) ∧
  known' = known ∪ list_to_set (ts ≫= out_ids).
Proof.
  induction ts as [|task ts IH]; intros known known' Hsub.
  { simpl. rewrite (right_id_L ∅ (∪)). split.
    - intros [= <-]. split; [intros i x; by rewrite lookup_nil|done].
    - by intros [_ ->]. }
  cbn [foldR]. rewrite result_bind_ok. split.
  - intros (k1 & [Ht ->]%resolve_task_ok & Hts); [|done].
    apply IH in Hts as [Hts ->]; [|set_solver]. split.
    + intros [|i] x; simpl; [intros [= <-]|].
      * by rewrite (right_id_L ∅ (∪)).
      * intros Hx. rewrite list_to_set_app_L, (assoc_L (∪)). by apply Hts.
    + simpl. by rewrite list_to_set_app_L, (assoc_L (∪)).
  - intros [Hall ->]. exists (known ∪ list_to_set (out_ids task)). split.
    + apply resolve_task_ok; [done|]. split; [|done]. specialize (Hall 0%nat task eq_refl).
      simpl in Hall. by rewrite (right_id_L ∅ (∪)) in Hall.
    + apply IH; [set_solver|]. simpl. rewrite list_to_set_app_L, (assoc_L (∪)). split; [|done].
      intros i x Hx. specialize (Hall (S i) x Hx). simpl in Hall.
      by rewrite list_to_set_app_L, (assoc_L (∪)) in Hall.
Qed.

Lemma check_final_ids_ok known finals u :
  check_final_ids known finals = Ok u ↔
  ∀ oid loc, (oid, loc) ∈ finals → oid ∈ known ∧ loc_known loc = true.
Proof.
  unfold check_final_ids. rewrite iterR_ok, Forall_forall. split.
  - intros Hf oid loc Hin. specialize (Hf _ Hin). simpl in Hf.
    apply result_bind_ok in Hf as (?&H1%raise_if_ok&H2%raise_if_ok).
    rewrite negb_false_iff in *. by rewrite bool_decide_eq_true in H1.
  - intros Hf [oid loc] Hin. destruct (Hf _ _ Hin) as [Hk Hl].
    apply result_bind_ok; exists tt. rewrite !raise_if_ok, !negb_false_iff.
    by rewrite bool_decide_eq_true.
Qed.

(** [validate_id_resolution] accepts exactly the chains whose ids resolve. *)
Lemma validate_id_resolution_ok chain u :
  validate_id_resolution chain = Ok u ↔ ids_resolve chain.
Proof.
  unfold validate_id_resolution. rewrite result_bind_ok. split.
  - intros ([seen known]&Hinit&Hr). apply result_bind_ok in Hr as (known'&Hts&Hfin).
    destruct (check_initial_memory_ok (initial_memory chain) known) as [[Hnd ->] _]; [by eexists|].
    apply resolve_tasks_ok in Hts as [Hts ->]; [|done].
    rewrite check_final_ids_ok in Hfin.
    split; [done|done|]. intros oid loc Hin. unfold known_before. rewrite firstn_all.
    by apply Hfin.
  - intros [Hnd Hts Hfin]. 
    destruct (check_initial_memory_ok (initial_memory chain)
      (list_to_set (obj_id <$> initial_memory chain))) as [_ [seen Hs]]; [done|].
    rewrite Hs. eexists; split; [done|]. apply result_bind_ok.
    eexists; split; [by apply resolve_tasks_ok|]. apply check_final_ids_ok.
    unfold known_before in Hfin. by rewrite firstn_all in Hfin.
Qed.

(** *** Triggers and releases *)

(** What [trigger_task] requires of the residency after the outputs landed. *)
Record triggers_fit (r : Residency) task : Prop := {
  tf_conflict : ∀ o, o ∈ (trig_obj <$> offload_after task) →
    o ∈ (trig_obj <$> prefetch_after task) → False;
  tf_offload_nodup : NoDup (trig_obj <$> offload_after task);
  tf_offload : ∀ o, o ∈ (trig_obj <$> offload_after task) → o ∈ on_compute r;
  tf_prefetch_nodup : NoDup (trig_obj <$> prefetch_after task);
  tf_prefetch : ∀ o, o ∈ (trig_obj <$> prefetch_after task) → o ∉ on_compute r;
}.

Lemma trigger_task_ok r task r' :
  trigger_task r task = Ok r' ↔
  triggers_fit (land_outputs task r) task ∧ r' = commit_triggers task (land_outputs task r).
Proof.
  unfold trigger_task. rewrite result_bind_ok.
  assert (∀ (cond : string → bool) err1 err2 (seen : gset string) x s',
    (raise_if (bool_decide (x ∈ seen)) (err1 x : ValidationError) ;;
     raise_if (cond x) (err2 x) ;; Ok ({[x]} ∪ seen)) = Ok s' ↔
    cond x = false ∧ id x ∉ seen ∧ s' = {[id x]} ∪ seen) as Hstep.
  { intros cond err1 err2 seen x s'. unfold id. case_bool_decide; simpl; [naive_solver|].
    destruct (cond x); simpl; naive_solver. }
  split.
  - intros (?&Hc%raise_if_ok&Hr). rewrite negb_false_iff, bool_decide_eq_true in Hc.
    apply result_bind_ok in Hr as (s1&H1&Hr). apply result_bind_ok in Hr as (s2&H2&[= <-]).
    split; [|done].
    apply (foldR_collect_empty _ id _ _ _ (Hstep _ _ _)) in H1 as (Hn1&Hg1&_).
    apply (foldR_collect_empty _ id _ _ _ (Hstep _ _ _)) in H2 as (Hn2&Hg2&_).
    rewrite list_fmap_id in Hn1, Hn2. split; [|done| |done|].
    + intros o Ho1 Ho2. assert (o ∈ (∅ : gset string)) as []%not_elem_of_empty.
      rewrite <-Hc. rewrite elem_of_intersection, !elem_of_list_to_set. done.
    + intros o Ho. specialize (Hg1 o Ho). simpl in Hg1.
      by rewrite negb_false_iff, bool_decide_eq_true in Hg1.
    + intros o Ho. specialize (Hg2 o Ho). by rewrite bool_decide_eq_false in Hg2.
  - intros [[Hc Hn1 Hg1 Hn2 Hg2] ->]. exists tt. split.
    { apply raise_if_ok. rewrite negb_false_iff, bool_decide_eq_true. apply set_eq. intros o.
      rewrite elem_of_intersection, !elem_of_list_to_set. split; [|by intros ?%not_elem_of_empty].
      intros [??]. by destruct (Hc o). }
    apply result_bind_ok. eexists; split.
    { apply (foldR_collect_empty _ id _ _ _ (Hstep _ _ _)). rewrite list_fmap_id.
      split_and!; [done| |done]. intros o Ho. rewrite negb_false_iff, bool_decide_eq_true. auto. }
    apply result_bind_ok. eexists; split; [|done].
    apply (foldR_collect_empty _ id _ _ _ (Hstep _ _ _)). rewrite list_fmap_id.
    split_and!; [done| |done]. intros o Ho. rewrite bool_decide_eq_false. auto.
Qed.

Lemma release_task_ok d task d' :
  release_task d task = Ok d' ↔
  (∀ o, o ∈ releases_after task → o ∈ (trig_obj <$> offload_after task) → False) ∧
  (∀ i, i ∈ inputs task → i ∈ on_compute (resid d)) ∧
  d' = commit_task task d.
Proof.
  unfold release_task. rewrite result_bind_ok. split.
  - intros (?&Hc%raise_if_ok&Hr). rewrite negb_false_iff, bool_decide_eq_true in Hc.
    apply result_bind_ok in Hr as (?&Hin&[= <-]). rewrite iterR_ok, Forall_forall in Hin.
    split_and!; [| |done].
    + intros o Ho1 Ho2. assert (o ∈ (∅ : gset string)) as []%not_elem_of_empty.
      rewrite <-Hc. rewrite elem_of_intersection, !elem_of_list_to_set. done.
    + intros i Hi. specialize (Hin i Hi). unfold check_input in Hin.
      case_bool_decide; [done|]. by destruct (released_meta d !! i) as [[[? []] []]|].
  - intros (Hc&Hin&->). exists tt. split.
    { apply raise_if_ok. rewrite negb_false_iff, bool_decide_eq_true. apply set_eq. intros o.
      rewrite elem_of_intersection, !elem_of_list_to_set. split; [|by intros ?%not_elem_of_empty].
      intros [??]. by destruct (Hc o). }
    apply result_bind_ok. exists tt. split; [|done]. apply iterR_ok, Forall_forall.
    intros i Hi. unfold check_input. by rewrite bool_decide_eq_true_2 by auto.
Qed.

(** The two walks track the same residency. *)
Lemma resid_commit_task task d :
  resid (commit_task task d) = commit_triggers task (land_outputs task (resid d)).
Proof.
  unfold commit_task, commit_triggers.
  assert (∀ l d, resid (foldl (commit_release (task_id task)) d l) = foldl trigger_release (resid d) l)
    as -> by (induction l as [|x l IH]; intros d0; simpl; [done|apply IH]).
  assert (∀ l d, resid (foldl commit_prefetch d l) = foldl trigger_prefetch (resid d) l)
    as -> by (induction l as [|x l IH]; intros d0; simpl; [done|apply IH]).
  assert (∀ l d, resid (foldl commit_offload d l) = foldl trigger_offload (resid d) l)
    as -> by (induction l as [|x l IH]; intros d0; simpl; [done|apply IH]).
  assert (∀ l d, resid (foldl commit_mutation d l) = resid d)
    as -> by (induction l as [|x l IH]; intros d0; simpl; [done|by rewrite IH]).
  done.
Qed.
End ValidateSpec.
