(* ===== verification/SimVersions.v ===== *)
(** * Versions of bytes under a validated plan

    The byte-level meaning the validator's residency walk stands for: every
    mutation of an object creates a new version of its bytes, an offload copies
    the fast bytes to backing, a prefetch copies the backing bytes to fast, a
    bare release drops the fast bytes ([Task]'s docstring in
    [dataflow_sim/core/schema.py]; the runtime keeps the same counters in
    [ObjectRecord.version] and [Slot.version]).  The theorems say what
    [validate_chain] guarantees about these versions, and what it does not. *)
From S2P Require Import Prelude SimSchema SimValidate.
From stdpp Require Import base option list gmap strings sets.
From Stdlib Require Import ZArith Lia.
Open Scope Z_scope.

(** [latest]: mutations so far; [vfast], [vback]: the version each copy holds. *)
Record Bytes := mkBytes { latest : nat; vfast : option nat; vback : option nat }.

Definition Versions := string → Bytes.

Definition v_land (loc : Location) (b : Bytes) : Bytes :=
  match loc with
  | Fast => mkBytes (latest b) (Some (latest b)) (vback b)
  | _ => mkBytes (latest b) (vfast b) (Some (latest b))
  end.
Definition v_mutate (b : Bytes) : Bytes :=
  mkBytes (S (latest b)) (Some (S (latest b))) (vback b).
Definition v_offload (b : Bytes) : Bytes := mkBytes (latest b) None (vfast b).
Definition v_prefetch (b : Bytes) : Bytes := mkBytes (latest b) (vback b) (vback b).
Definition v_release (b : Bytes) : Bytes := mkBytes (latest b) None (vback b).

Definition v_at (f : Bytes → Bytes) (V : Versions) (o : string) : Versions :=
  λ x, if decide (x = o) then f (V x) else V x.

Section Versions.
Context {T : Type}.
Implicit Types (chain : TaskChain T) (task : Task T) (V : Versions).

Definition v_task task V : Versions :=
  let V := foldl (λ V o, v_at (v_land (out_location o)) V (out_id o)) V (outputs task) in
  let V := foldl (v_at v_mutate) V (mutates_inputs task) in
  let V := foldl (v_at v_offload) V (trig_obj <$> offload_after task) in
  let V := foldl (v_at v_prefetch) V (trig_obj <$> prefetch_after task) in
  foldl (v_at v_release) V (releases_after task).

Definition v_initial (objs : list Object) : Versions :=
  foldl (λ V o, v_at (v_land (obj_location o)) V (obj_id o)) (λ _, mkBytes 0 None None) objs.

(** The versions before task [i]. *)
Definition versions_at chain (i : nat) : Versions :=
  foldl (λ V t, v_task t V) (v_initial (initial_memory chain)) (take i (tasks chain)).

(** ** Recoverable plans

    What [validate_chain] leaves unchecked: an object that was bare-released
    while its fast bytes were newer than its backing copy has lost its latest
    bytes.  A plan is recoverable when it neither prefetches such an object
    nor names it in [final_locations] for backing, and prefetches only objects
    that have a backing copy. *)
Definition lost_by task (d : Dirtiness) : gset string :=
  let d := foldl commit_mutation
             (mkDirtiness (land_outputs task (resid d)) (dirty d) (released_meta d))
             (mutates_inputs task) in
  let d := foldl commit_offload d (trig_obj <$> offload_after task) in
  let d := foldl commit_prefetch d (trig_obj <$> prefetch_after task) in
  list_to_set (releases_after task) ∩ dirty d.

(** The backing copies a prefetch of this task can read. *)
Definition sources task (d : Dirtiness) (lost : gset string) : gset string :=
  (on_backing (resid d) ∪
   list_to_set (out_id <$> filter (λ o, loc_eqb (out_location o) Fast = false) (outputs task)))
  ∖ lost.

Fixpoint recoverable_from (d : Dirtiness) (lost : gset string) (ts : list (Task T))
    (finals : list (string * Location)) : bool :=
  match ts with
  | [] => forallb (λ '(o, l), negb (loc_eqb l Backing && bool_decide (o ∈ lost))) finals
  | task :: ts =>
      forallb (λ o, bool_decide (o ∈ sources task d lost)) (trig_obj <$> prefetch_after task) &&
      recoverable_from (commit_task task d) (lost ∪ lost_by task d) ts finals
  end.

Definition recoverable chain : bool :=
  recoverable_from (initial_dirtiness (initial_memory chain)) ∅ (tasks chain)
    (final_locations chain).
End Versions.

(** ** The invariant behind the walk *)
Section VersionInv.
Context {T : Type}.
Implicit Types (chain : TaskChain T) (task : Task T) (V : Versions).

Record VInv (lost : gset string) (d : Dirtiness) V : Prop := {
  vi_fast : ∀ o, o ∈ on_compute (resid d) → vfast (V o) = Some (latest (V o));
  vi_back : ∀ o, o ∈ on_backing (resid d) → o ∉ dirty d → o ∉ lost →
    vback (V o) = Some (latest (V o));
  vi_dirty : ∀ o, o ∈ dirty d → o ∈ on_compute (resid d);
}.

(** Case analysis on whether [v_at] hits the object asked about. *)
Ltac v_cases :=
  unfold v_at in *;
  repeat match goal with |- context [decide (?x = ?o)] =>
    destruct (decide (x = o)) as [->|?]; simpl in * end.

Lemma VInv_land lost d V oid loc :
  VInv lost d V →
  VInv lost (mkDirtiness (land oid loc (resid d)) (dirty d) (released_meta d))
    (v_at (v_land loc) V oid).
Proof.
  intros [HA HB HC]. split; destruct loc; intros o; simpl; v_cases; simpl; try set_solver.
Qed.

Lemma VInv_mutate lost d V m :
  VInv lost d V → m ∈ on_compute (resid d) →
  VInv lost (commit_mutation d m) (v_at v_mutate V m).
Proof. intros [HA HB HC] Hm. split; intros o; simpl; v_cases; simpl; set_solver. Qed.

Lemma VInv_offload lost d V m :
  VInv lost d V → m ∈ on_compute (resid d) →
  VInv lost (commit_offload d m) (v_at v_offload V m).
Proof. intros [HA HB HC] Hm. split; intros o; simpl; v_cases; simpl; set_solver. Qed.

Lemma VInv_prefetch lost d V m :
  VInv lost d V → m ∈ on_backing (resid d) → m ∉ dirty d → m ∉ lost →
  VInv lost (commit_prefetch d m) (v_at v_prefetch V m).
Proof. intros [HA HB HC] Hm Hd Hl. split; intros o; simpl; v_cases; simpl; set_solver. Qed.

Lemma VInv_release lost tid d V m :
  VInv lost d V → (m ∈ dirty d → m ∈ lost) →
  VInv lost (commit_release tid d m) (v_at v_release V m).
Proof.
  intros [HA HB HC] Hm. split; intros o; simpl; v_cases; simpl; set_solver.
Qed.

Lemma VInv_weaken lost lost' d V : lost ⊆ lost' → VInv lost d V → VInv lost' d V.
Proof. intros Hs [HA HB HC]. split; [done| |done]. intros o Ho Hd Hl. apply HB; set_solver. Qed.

(** *** Whole loops *)
Lemma land_on_compute oid loc r : on_compute r ⊆ on_compute (land oid loc r).
Proof. destruct loc; simpl; set_solver. Qed.
Lemma land_on_backing oid loc r : on_backing r ⊆ on_backing (land oid loc r).
Proof. destruct loc; simpl; set_solver. Qed.

Lemma land_outputs_compute task r : on_compute r ⊆ on_compute (land_outputs task r).
Proof.
  unfold land_outputs. apply (foldl_ind (λ r', on_compute r ⊆ on_compute r')); [done|].
  intros x b _ Hb. etrans; [done|apply land_on_compute].
Qed.

Lemma land_outputs_sources task d lost :
  sources task d lost ⊆ on_backing (land_outputs task (resid d)) ∖ lost.
Proof.
  unfold sources, land_outputs. intros o Ho. apply elem_of_difference in Ho as [Ho Hl].
  apply elem_of_difference; split; [|done]. revert Ho. generalize (resid d).
  induction (outputs task) as [|x outs IH]; intros r; simpl; [set_solver|].
  intros [Ho|Ho]%elem_of_union; [by apply IH, elem_of_union_l, land_on_backing|].
  apply IH. rewrite filter_cons in Ho. case_decide as Hx; [|by apply elem_of_union_r].
  rewrite fmap_cons, list_to_set_cons in Ho. apply elem_of_union in Ho as [Ho|Ho];
    [|by apply elem_of_union_r]. apply elem_of_union_l.
  apply elem_of_singleton in Ho as ->. destruct (out_location x); simpl in *; set_solver.
Qed.

Lemma VInv_offloads lost l : ∀ d V,
  VInv lost d V → NoDup l → (∀ o, o ∈ l → o ∈ on_compute (resid d)) →
  let d' := foldl commit_offload d l in
  VInv lost d' (foldl (v_at v_offload) V l) ∧
  on_backing (resid d) ⊆ on_backing (resid d') ∧ dirty d' ⊆ dirty d.
Proof.
  induction l as [|x l IH]; intros d V HV Hnd Hl; simpl; [done|].
  apply NoDup_cons in Hnd as [Hx Hnd].
  destruct (IH (commit_offload d x) (v_at v_offload V x)) as (H1&H2&H3).
  - apply VInv_offload; [done|]. apply Hl, list_elem_of_here.
  - done.
  - intros o Ho. simpl. apply elem_of_difference. split; [by apply Hl, list_elem_of_further|].
    rewrite elem_of_singleton. by intros ->.
  - split_and!; [done|simpl in *; set_solver..].
Qed.

Lemma VInv_task lost d V task :
  VInv lost d V →
  triggers_fit (land_outputs task (resid d)) task →
  (∀ i, i ∈ inputs task → i ∈ on_compute (resid d)) →
  (∀ m, m ∈ mutates_inputs task → m ∈ inputs task) →
  (∀ o, o ∈ (trig_obj <$> prefetch_after task) → o ∈ sources task d lost) →
  VInv (lost ∪ lost_by task d) (commit_task task d) (v_task task V).
Proof.
  intros HV [Hconf Hoffnd Hoff Hpfnd Hpf] Hin Hmut Hsrc. unfold commit_task, v_task, lost_by.
  set (d1 := mkDirtiness (land_outputs task (resid d)) (dirty d) (released_meta d)).
  set (V1 := foldl _ V (outputs task)).
  assert (VInv lost d1 V1) as HV1.
  { unfold d1, V1, land_outputs.
    apply (foldl_ind2 (λ r V, VInv lost (mkDirtiness r (dirty d) (released_meta d)) V)); [by destruct d|].
    intros x r V' _ HV'. by apply (VInv_land lost (mkDirtiness r _ _)). }
  set (d2 := foldl commit_mutation d1 _). set (V2 := foldl (v_at v_mutate) V1 _).
  assert (VInv lost d2 V2 ∧ resid d2 = resid d1) as [HV2 Hr2].
  { apply (foldl_ind2 (λ d V, VInv lost d V ∧ resid d = resid d1)); [done|].
    intros m d' V' Hm [HV' Hr']. split; [|done]. apply VInv_mutate; [done|].
    rewrite Hr'. by apply land_outputs_compute, Hin, Hmut. }
  set (d3 := foldl commit_offload d2 _). set (V3 := foldl (v_at v_offload) V2 _).
  destruct (VInv_offloads lost (trig_obj <$> offload_after task) d2 V2) as (HV3&Hb3&Hd3);
    [done..|by rewrite Hr2|]. fold d3 V3 in HV3, Hb3, Hd3.
  set (d4 := foldl commit_prefetch d3 _). set (V4 := foldl (v_at v_prefetch) V3 _).
  assert (VInv lost d4 V4) as HV4.
  { apply (foldl_ind2 (λ d V, VInv lost d V ∧ on_backing (resid d3) ⊆ on_backing (resid d)
                              ∧ dirty d ⊆ dirty d3)); [done|].
    intros o d' V' Ho (HV'&Hb'&Hd').
    pose proof (land_outputs_sources task d lost o (Hsrc o Ho)) as [Hs Hl]%elem_of_difference.
    split_and!; [|simpl; set_solver..]. apply VInv_prefetch; [done| | |done].
    - apply Hb', Hb3. by rewrite Hr2.
    - intros Hdd. apply (Hpf o Ho). change (land_outputs task (resid d)) with (resid d1).
      rewrite <-Hr2. by apply (vi_dirty _ _ _ HV2), Hd3, Hd'. }
  set (lost' := lost ∪ _).
  apply (foldl_ind2 (λ d V, VInv lost' d V ∧ dirty d ⊆ dirty d4)).
  { split; [|done]. apply (VInv_weaken lost); [set_solver|done]. }
  intros o d' V' Ho [HV' Hd']. split; [|simpl; set_solver]. apply VInv_release; [done|].
  intros Hdd. apply elem_of_union_r, elem_of_intersection. split; [by apply elem_of_list_to_set|auto].
Qed.

Definition inputs_latest task V : Prop :=
  ∀ i, i ∈ inputs task → vfast (V i) = Some (latest (V i)).

Lemma VInv_chain finals ts : ∀ d V lost rn dn,
  VInv lost d V →
  foldR trigger_task (resid d) ts = Ok rn →
  foldR release_task d ts = Ok dn →
  (∀ task m, task ∈ ts → m ∈ mutates_inputs task → m ∈ inputs task) →
  recoverable_from d lost ts finals = true →
  (∀ i task, ts !! i = Some task →
     inputs_latest task (foldl (λ V t, v_task t V) V (take i ts))) ∧
  ∃ lost', VInv lost' dn (foldl (λ V t, v_task t V) V ts) ∧
    ∀ o, (o, Backing) ∈ finals → o ∉ lost'.
Proof.
  induction ts as [|task ts IH]; intros d V lost rn dn HV; cbn [foldR recoverable_from].
  { intros _ [= <-] _ Hfin. split; [by intros i task; rewrite lookup_nil|].
    exists lost. split; [done|]. intros o Ho Hl. rewrite forallb_forall in Hfin.
    apply list_elem_of_In in Ho. specialize (Hfin _ Ho). simpl in Hfin.
    by rewrite bool_decide_eq_true_2 in Hfin. }
  rewrite !result_bind_ok. intros (r1&[Htf ->]%trigger_task_ok&Hr).
  intros (d1&(_&Hin&->)%release_task_ok&Hd) Hmut [Hsrc Hrec]%andb_true_iff.
  rewrite <-resid_commit_task in Hr.
  assert (∀ o, o ∈ (trig_obj <$> prefetch_after task) → o ∈ sources task d lost) as Hsrc'.
  { intros o Ho. rewrite forallb_forall in Hsrc. apply list_elem_of_In, Hsrc in Ho.
    by rewrite bool_decide_eq_true in Ho. }
  assert (VInv (lost ∪ lost_by task d) (commit_task task d) (v_task task V)) as HV'.
  { apply VInv_task; try done. intros m. apply Hmut. apply list_elem_of_here. }
  destruct (IH _ _ _ _ _ HV' Hr Hd) as (Hall&Hfin); [|done|].
  { intros t m Ht. apply Hmut. by apply list_elem_of_further. }
  split; [|done]. intros [|i] t; simpl; [|apply Hall].
  intros [= <-] o Ho. by apply (vi_fast _ _ _ HV), Hin.
Qed.

Lemma VInv_initial objs : VInv ∅ (initial_dirtiness objs) (v_initial objs).
Proof.
  unfold initial_dirtiness, initial_residency, v_initial.
  apply (foldl_ind2 (λ r V, VInv ∅ (mkDirtiness r ∅ ∅) V)); [split; simpl; set_solver|].
  intros x r V _ HV. by apply (VInv_land ∅ (mkDirtiness r ∅ ∅)).
Qed.
End VersionInv.

(** ** Theorems *)

(** C21: No stale reads under a recoverable plan.  If [validate_chain]
    accepts the chain and the plan is recoverable, then every task finds in
    the fast copy of each of its inputs the bytes of the object's last
    mutation, and at the end of the chain every location named in
    [final_locations] holds the last bytes of its object. *)
Theorem validated_reads_latest {T} (chain : TaskChain T) :
  validate_chain chain = Ok tt → recoverable chain = true →
  (∀ i task inp, tasks chain !! i = Some task → inp ∈ inputs task →
     vfast (versions_at chain i inp) = Some (latest (versions_at chain i inp))) ∧
  (∀ o l, (o, l) ∈ final_locations chain →
     let b := versions_at chain (length (tasks chain)) o in
     (l = Backing → vback b = Some (latest b)) ∧ (l = Fast → vfast b = Some (latest b))).
Proof.
  unfold validate_chain. intros Hv Hrec.
  apply result_bind_ok in Hv as (?&Hids%validate_id_resolution_ok&Hv).
  apply result_bind_ok in Hv as (?&Htr&Hv). apply result_bind_ok in Hv as (?&Hrel&_).
  apply result_bind_ok in Htr as (rn&Htr&_). apply result_bind_ok in Hrel as (dn&Hrel&Hfin).
  rewrite iterR_ok, Forall_forall in Hfin.
  destruct (VInv_chain (final_locations chain) (tasks chain)
    (initial_dirtiness (initial_memory chain)) (v_initial (initial_memory chain)) ∅ rn dn)
    as (Hall&lost&HV&Hlost); [apply VInv_initial|done|done| |done|].
  { intros task m [i Hi]%list_elem_of_lookup. by apply (tr_mutates _ _ (ir_tasks _ Hids i task Hi)). }
  split; [intros i task inp Ht Hinp; by apply (Hall i task Ht)|].
  intros o l Hol. unfold versions_at. rewrite firstn_all. specialize (Hfin _ Hol). split; intros ->.
  - apply result_bind_ok in Hfin as (?&H1%raise_if_ok&H2%raise_if_ok).
    rewrite negb_false_iff, bool_decide_eq_true in H1. rewrite bool_decide_eq_false in H2.
    apply (vi_back _ _ _ HV); auto.
  - simpl in Hfin. apply raise_if_ok in Hfin. rewrite negb_false_iff, bool_decide_eq_true in Hfin.
    by apply (vi_fast _ _ _ HV).
Qed.

(** A weight updated in place, written back, and fetched again for the next use. *)
Definition writeback_chain : TaskChain Z :=
  mkChain
    [mkObject "W" 8 Backing "weight"; mkObject "W" 8 Fast "weight"]
    [mkTask "step" ["W"] [] 5 0 [] [mkTrigger "W" None] [] ["W"];
     mkTask "idle" [] [] 5 0 [] [] [mkTrigger "W" None] [];
     mkTask "use" ["W"] [] 5 0 [] [] [] []]
    [("W", Backing)] (Some 16) (Some 16) (Some 1) (Some 1).

Lemma validated_reads_latest_witness :
  validate_chain writeback_chain = Ok tt ∧
  vfast (versions_at writeback_chain 2 "W") = Some 1%nat.
Proof.
  split; [vm_compute; reflexivity|].
  destruct (validated_reads_latest writeback_chain) as [H _]; [vm_compute; reflexivity..|].
  change (Some 1%nat) with (Some (latest (versions_at writeback_chain 2 "W"))).
  apply (H 2%nat (mkTask "use" ["W"] [] 5 0 [] [] [] [])); [reflexivity|apply list_elem_of_here].
Defined.

(** The same plan with a bare release in place of the write-back. *)
Definition lost_update_chain : TaskChain Z :=
  mkChain
    [mkObject "W" 8 Backing "weight"; mkObject "W" 8 Fast "weight"]
    [mkTask "step" ["W"] [] 5 0 ["W"] [] [] ["W"];
     mkTask "idle" [] [] 5 0 [] [] [mkTrigger "W" None] [];
     mkTask "use" ["W"] [] 5 0 [] [] [] []]
    [("W", Backing)] (Some 16) (Some 16) (Some 1) (Some 1).

(** [validate_chain] does not reject a lost update: it accepts a chain
    that mutates [W], bare-releases it while dirty and prefetches the stale
    backing copy, although the later task then reads version 0 of bytes whose
    latest version is 1 and the required backing copy of [W] is stale at the
    end, the situations [release-of-dirty-with-later-use] and
    [final-location-dirty-on-backing] name. *)
Theorem validate_accepts_lost_update :
  validate_chain lost_update_chain = Ok tt ∧
  recoverable lost_update_chain = false ∧
  versions_at lost_update_chain 2 "W" = mkBytes 1 (Some 0%nat) (Some 0%nat) ∧
  versions_at lost_update_chain 3 "W" = mkBytes 1 (Some 0%nat) (Some 0%nat).
Proof. vm_compute. done. Qed.
