(* ===== verification/Simulator.v ===== *)
(** * The event-driven simulator ([dataflow_sim/engine/simulator.py])

    [_run_impl] with its closures: the mutable locals are the record [Sim],
    each closure is a computation of [M (Sim T) SimError], and the
    constants the closures capture ([chain], [snapshots], [memory_trace],
    [ref_starts], [last_ref]) are section variables.  The three [while] loops
    take fuel, one more than [measure s], the number of transfers queued,
    deferred or in flight. *)
From S2P Require Import Prelude SimSchema SimRefStream SimValidate.
From stdpp Require Import base option list gmap strings pretty.
From Stdlib Require Import ZArith Lia.
Open Scope Z_scope.

(** ** State *)
Record PoolEntry := mkPoolEntry {
  pe_size : Z;
  pe_state : MemoryState;
  pe_location : Location;
  pe_type : string;
}.

Definition PoolKey : Type := string * Location.

Record InFlight (T : Type) := mkInFlight {
  fl_obj : string;
  fl_direction : TransferDirection;
  fl_src_size : Z;
  fl_start_t : T;
  fl_end_t : T;
}.
Arguments mkInFlight {T}.
Arguments fl_obj {T}.
Arguments fl_direction {T}.
Arguments fl_src_size {T}.
Arguments fl_start_t {T}.
Arguments fl_end_t {T}.

Record Queued (T : Type) := mkQueued {
  q_obj : string;
  q_direction : TransferDirection;
  q_src_size : Z;
  q_runtime : T;
  q_dst_type : option string;
}.
Arguments mkQueued {T}.
Arguments q_obj {T}.
Arguments q_direction {T}.
Arguments q_src_size {T}.
Arguments q_runtime {T}.
Arguments q_dst_type {T}.

Record Sim (T : Type) := mkSim {
  pool : gmap (string * Location) PoolEntry;
  sim_events : list (Event T);
  intervals : list (TaskInterval T);
  memory_points : list (MemoryTracePoint T);
  fl_from : option (InFlight T);
  fl_to : option (InFlight T);
  q_from : list (Queued T);
  q_to : list (Queued T);
  compute_busy_until : T;
  active_workspace_bytes : Z;
  deferred_prefetches : gmap string (list (Queued T));
  transfer_seq : gmap (TransferDirection * string) nat;
  peak_fast : Z;
  peak_backing : Z;
  total_fast : Z;
  total_backing : Z;
}.
Arguments mkSim {T}.
Arguments pool {T}.
Arguments sim_events {T}.
Arguments intervals {T}.
Arguments memory_points {T}.
Arguments fl_from {T}.
Arguments fl_to {T}.
Arguments q_from {T}.
Arguments q_to {T}.
Arguments compute_busy_until {T}.
Arguments active_workspace_bytes {T}.
Arguments deferred_prefetches {T}.
Arguments transfer_seq {T}.
Arguments peak_fast {T}.
Arguments peak_backing {T}.
Arguments total_fast {T}.
Arguments total_backing {T}.

(** Field assignments. *)
Section setters.
Context {T : Type}.
Implicit Types s : Sim T.
Definition set_pool p s := mkSim p (sim_events s) (intervals s) (memory_points s)
  (fl_from s) (fl_to s) (q_from s) (q_to s) (compute_busy_until s) (active_workspace_bytes s)
  (deferred_prefetches s) (transfer_seq s) (peak_fast s) (peak_backing s) (total_fast s) (total_backing s).
Definition set_events e s := mkSim (pool s) e (intervals s) (memory_points s)
  (fl_from s) (fl_to s) (q_from s) (q_to s) (compute_busy_until s) (active_workspace_bytes s)
  (deferred_prefetches s) (transfer_seq s) (peak_fast s) (peak_backing s) (total_fast s) (total_backing s).
Definition set_intervals i s := mkSim (pool s) (sim_events s) i (memory_points s)
  (fl_from s) (fl_to s) (q_from s) (q_to s) (compute_busy_until s) (active_workspace_bytes s)
  (deferred_prefetches s) (transfer_seq s) (peak_fast s) (peak_backing s) (total_fast s) (total_backing s).
Definition set_points p s := mkSim (pool s) (sim_events s) (intervals s) p
  (fl_from s) (fl_to s) (q_from s) (q_to s) (compute_busy_until s) (active_workspace_bytes s)
  (deferred_prefetches s) (transfer_seq s) (peak_fast s) (peak_backing s) (total_fast s) (total_backing s).
Definition set_in_flight (d : TransferDirection) f s := mkSim (pool s) (sim_events s) (intervals s)
  (memory_points s)
  (match d with from_slow => f | to_slow => fl_from s end)
  (match d with from_slow => fl_to s | to_slow => f end)
  (q_from s) (q_to s) (compute_busy_until s) (active_workspace_bytes s)
  (deferred_prefetches s) (transfer_seq s) (peak_fast s) (peak_backing s) (total_fast s) (total_backing s).
Definition set_queue (d : TransferDirection) q s := mkSim (pool s) (sim_events s) (intervals s)
  (memory_points s) (fl_from s) (fl_to s)
  (match d with from_slow => q | to_slow => q_from s end)
  (match d with from_slow => q_to s | to_slow => q end)
  (compute_busy_until s) (active_workspace_bytes s)
  (deferred_prefetches s) (transfer_seq s) (peak_fast s) (peak_backing s) (total_fast s) (total_backing s).
Definition set_busy t s := mkSim (pool s) (sim_events s) (intervals s) (memory_points s)
  (fl_from s) (fl_to s) (q_from s) (q_to s) t (active_workspace_bytes s)
  (deferred_prefetches s) (transfer_seq s) (peak_fast s) (peak_backing s) (total_fast s) (total_backing s).
Definition set_workspace w s := mkSim (pool s) (sim_events s) (intervals s) (memory_points s)
  (fl_from s) (fl_to s) (q_from s) (q_to s) (compute_busy_until s) w
  (deferred_prefetches s) (transfer_seq s) (peak_fast s) (peak_backing s) (total_fast s) (total_backing s).
Definition set_deferred d s := mkSim (pool s) (sim_events s) (intervals s) (memory_points s)
  (fl_from s) (fl_to s) (q_from s) (q_to s) (compute_busy_until s) (active_workspace_bytes s)
  d (transfer_seq s) (peak_fast s) (peak_backing s) (total_fast s) (total_backing s).
Definition set_seq q s := mkSim (pool s) (sim_events s) (intervals s) (memory_points s)
  (fl_from s) (fl_to s) (q_from s) (q_to s) (compute_busy_until s) (active_workspace_bytes s)
  (deferred_prefetches s) q (peak_fast s) (peak_backing s) (total_fast s) (total_backing s).
Definition set_peaks f b s := mkSim (pool s) (sim_events s) (intervals s) (memory_points s)
  (fl_from s) (fl_to s) (q_from s) (q_to s) (compute_busy_until s) (active_workspace_bytes s)
  (deferred_prefetches s) (transfer_seq s) f b (total_fast s) (total_backing s).
Definition set_totals f b s := mkSim (pool s) (sim_events s) (intervals s) (memory_points s)
  (fl_from s) (fl_to s) (q_from s) (q_to s) (compute_busy_until s) (active_workspace_bytes s)
  (deferred_prefetches s) (transfer_seq s) (peak_fast s) (peak_backing s) f b.
End setters.

Definition in_flight {T} (d : TransferDirection) (s : Sim T) : option (InFlight T) :=
  match d with from_slow => fl_from s | to_slow => fl_to s end.
Definition queue {T} (d : TransferDirection) (s : Sim T) : list (Queued T) :=
  match d with from_slow => q_from s | to_slow => q_to s end.
Definition loc_total {T} (l : Location) (s : Sim T) : Z :=
  match l with Fast => total_fast s | _ => total_backing s end.

(** ** Exceptions *)
Inductive SimError :=
| ValidationFailed (e : ValidationError)
| DuplicateInitial (oid : string) (l : Location)
| InitialOverflow (l : Location) (total cap : Z)
| NeedsBandwidth (d : TransferDirection)
| ZeroDivisionError
| OverwriteSizeMismatch (oid : string) (dst src : Z)
| AssertionError
| PoolKeyError (k : PoolKey)
| LocationKeyError (l : Location)
| BandKeyError (band : string)
| StartKeyError (tid : string)
| NoDeferredPrefetch (oid : string)
| NoScheduledOffload (oid : string)
| NoScheduledPrefetch (oid : string)
| InputOnBackingOnly (oid : string)
| InputNotPresent (oid : string)
| InputBeingOffloaded (oid : string)
| InputReserved (oid : string)
| InputUnknownState (oid : string)
| CapacityOutputReservation (tid : string) (cap need overage : Z)
| CapacityDeadlock (tid : string) (cap need overage : option Z) (missing : list string)
| BackingOutputOverflow (tid : string) (size used cap : Z)
| OutputCollision (tid : string) (k : PoolKey)
| OverCommitted (tid : string) (used cap : Z)
| ReleaseNoCopy (tid oid : string)
| ReleaseNotLive (tid oid : string) (st : MemoryState)
| OffloadNotLive (tid oid : string)
| OffloadBackingNotLive (tid oid : string)
| OffloadSizeMismatch (tid oid : string)
| PrefetchCopyExists (tid oid : string)
| PrefetchNoSource (tid oid : string)
| StuckTransfers (from_q to_q deferred : list string)
| OutOfFuel.

(** ** Module-level functions *)
Section Simulator.
Context {T : Type} `{Num T}.
Local Open Scope num_scope.

(** [_precompute_task_starts]: a dict, so a repeated id keeps its last start. *)
Definition precompute_task_starts (chain : TaskChain T) : gmap string T :=
  (foldl (λ '(starts, t) task,
     (<[task_id task := t]> starts, t + runtime task)) (∅, num_zero) (tasks chain)).1.

Definition empty_bands : gmap string Z :=
  list_to_map ((λ b, (b, 0%Z)) <$>
    ["weight"; "activation"; "gradient"; "optimizer"; "other"; "inbound";
     "outbound"; "pending_outbound"]%string).

Definition band_of (e : PoolEntry) : string :=
  match pe_state e with
  | pending_inbound | inbound => "inbound"
  | outbound => "outbound"
  | pending_outbound => "pending_outbound"
  | _ => pe_type e
  end.

Definition fast_memory_bands (p : gmap PoolKey PoolEntry) : result SimError (gmap string Z) :=
  foldR (λ bands '((_, loc), e),
    if loc_eqb loc Fast then
      match bands !! band_of e with
      | Some n => Ok (<[band_of e := (n + pe_size e)%Z]> bands)
      | None => Err (BandKeyError (band_of e))
      end
    else Ok bands) empty_bands (map_to_list p).

(** The sort key [(m.location, m.id)] of a snapshot's memory. *)
Definition mem_ltb (a b : MemoryEntry T) : bool :=
  let la := loc_to_string (me_location a) in
  let lb := loc_to_string (me_location b) in
  if String.eqb la lb then String.ltb (me_id a) (me_id b) else String.ltb la lb.

Definition snapshot_of (p : gmap PoolKey PoolEntry) (active : option (ActiveTask T))
    (remaining : list (Task T)) (starts : gmap string T) : result SimError (Snapshot T) :=
  match compute_reference_stream remaining starts with
  | Err e => Err (StartKeyError (key_error e))
  | Ok refs =>
      let next_ref : gmap string T :=
        foldl (λ m r, <[ref_obj r := ref_t r]> m) ∅ refs in
      let memory := (λ '((oid, loc), e),
          mkMemoryEntry oid (pe_size e) loc (pe_type e) (pe_state e) (next_ref !! oid))
          <$> map_to_list p in
      Ok (mkSnapshot (py_sorted (λ a b, negb (mem_ltb b a)) memory)
            (sumZ ((λ kv, pe_size kv.2) <$> map_to_list p)) active refs)
  end.

(** ** The closures of [_run_impl] *)
Section Impl.
Variable chain : TaskChain T.
Variable snapshots memory_trace_on : bool.
Variable ref_starts : gmap string T.

Abbreviation SM := (M (Sim T) SimError).

Definition capacity (l : Location) : option Z :=
  match l with Fast => fast_memory_capacity chain | _ => backing_memory_capacity chain end.

Definition bands_eqb (a b : gmap string Z) : bool := bool_decide (a = b).

Definition emit_memory_trace (t : T) : SM unit :=
  when memory_trace_on (
    s ← get;
    bands ← lift (fast_memory_bands (pool s));
    match last (memory_points s) with
    | Some p => if (mp_t p =? t) && bands_eqb (mp_bands p) bands then mret tt
                else modify (set_points (memory_points s ++ [mkTracePoint t bands]))
    | None => modify (set_points (memory_points s ++ [mkTracePoint t bands]))
    end).

Definition loc_free (l : Location) (s : Sim T) : Z :=
  match capacity l with
  | None => 2 ^ 63
  | Some cap =>
      let workspace := if loc_eqb l Fast then active_workspace_bytes s else 0%Z in
      (cap - loc_total l s - workspace)%Z
  end.

Definition transfer_runtime (d : TransferDirection) (size : Z) (override : option T) :
    result SimError T :=
  match override with
  | Some r => Ok (num_max r num_zero)
  | None =>
      match (match d with from_slow => bandwidth_from_slow chain
                        | to_slow => bandwidth_to_slow chain end) with
      | None => Err (NeedsBandwidth d)
      | Some bw => if (bw =? 0)%Z then Err ZeroDivisionError
                   else Ok (num_of_Z (Z.max ((size + bw - 1) / bw) 1))
      end
  end.

(** One row of [predict_schedule]: [(obj_id, start_t, end_t, src_size)]. *)
Definition Row : Type := string * T * T * Z.
Definition row_end (r : Row) : T := r.1.2.

Fixpoint predict_queue (now cursor : T) (q : list (Queued T)) : list Row :=
  match q with
  | [] => []
  | tx :: q =>
      let start := num_max cursor now in
      let fin := start + q_runtime tx in
      (q_obj tx, start, fin, q_src_size tx) :: predict_queue now fin q
  end.

Definition predict_schedule (d : TransferDirection) (now : T) (s : Sim T) : list Row :=
  match in_flight d s with
  | Some f => (fl_obj f, fl_start_t f, fl_end_t f, fl_src_size f) ::
                predict_queue now (fl_end_t f) (queue d s)
  | None => predict_queue now now (queue d s)
  end.

(** The keyword arguments an [emit] passes on to [Event]. *)
Record EmitArgs := mkEmitArgs {
  ea_active : option (ActiveTask T);
  ea_task_id : option string;
  ea_object_ids : list string;
  ea_transfer : option (string * TransferDirection);
}.

Definition emit (kind : EventKind) (t : T) (snap_idx : nat) (a : EmitArgs) : SM unit :=
  modify (λ s, set_peaks
    (Z.max (peak_fast s) (total_fast s + active_workspace_bytes s))
    (Z.max (peak_backing s) (total_backing s)) s) ;;
  emit_memory_trace t ;;
  when snapshots (
    s ← get;
    snap ← lift (snapshot_of (pool s) (ea_active a) (drop snap_idx (tasks chain)) ref_starts);
    modify (set_events (sim_events s ++
      [mkEvent t kind snap (ea_task_id a) (ea_object_ids a)
         (fst <$> ea_transfer a) (snd <$> ea_transfer a)]))).

Definition emit_transfer (kind : EventKind) (t : T) (idx : nat) (oid : string)
    (d : TransferDirection) : SM unit :=
  emit kind t idx (mkEmitArgs None None [] (Some (oid, d))).

(** [pool[k].state = st], a [KeyError] when the key is absent. *)
Definition set_state (k : PoolKey) (st : MemoryState) : SM unit :=
  s ← get;
  match pool s !! k with
  | Some e => modify (set_pool (<[k := mkPoolEntry (pe_size e) st (pe_location e) (pe_type e)]> (pool s)))
  | None => raise (PoolKeyError k)
  end.

(** [loc_total[loc] += delta], a [KeyError] at an unknown location. *)
Definition add_total (l : Location) (delta : Z) : SM unit :=
  match l with
  | Fast => modify (λ s, set_totals (total_fast s + delta)%Z (total_backing s) s)
  | Backing => modify (λ s, set_totals (total_fast s) (total_backing s + delta)%Z s)
  | _ => raise (LocationKeyError l)
  end.

(** [tx.dst_type or "other"]. *)
Definition or_other (ty : option string) : string :=
  match ty with Some EmptyString | None => "other" | Some t => t end.

Definition transfer_name (d : TransferDirection) (oid : string) (seq : nat) : string :=
  if (seq =? 0)%nat then dir_name d +:+ ":" +:+ oid
  else dir_name d +:+ ":" +:+ oid +:+ "#" +:+ pretty seq.

Definition dst_loc (d : TransferDirection) : Location :=
  match d with from_slow => Fast | to_slow => Backing end.

(** Create or update the destination entry; a [to_slow] source turns [outbound]. *)
Definition allocate_dst (d : TransferDirection) (tx : Queued T) (existing : option PoolEntry) : SM unit :=
  match d with
  | from_slow =>
      match existing with
      | None =>
          modify (λ s, set_pool (<[(q_obj tx, Fast) :=
            mkPoolEntry (q_src_size tx) inbound Fast (or_other (q_dst_type tx))]> (pool s)) s) ;;
          add_total Fast (q_src_size tx)
      | Some _ => set_state (q_obj tx, Fast) inbound
      end
  | to_slow =>
      set_state (q_obj tx, Fast) outbound ;;
      match existing with
      | None =>
          modify (λ s, set_pool (<[(q_obj tx, Backing) :=
            mkPoolEntry (q_src_size tx) inbound Backing (or_other (q_dst_type tx))]> (pool s)) s) ;;
          add_total Backing (q_src_size tx)
      | Some e =>
          check (pe_size e =? q_src_size tx)%Z
            (OverwriteSizeMismatch (q_obj tx) (pe_size e) (q_src_size tx)) ;;
          set_state (q_obj tx, Backing) inbound
      end
  end.

(** The transfer occupies its stream and gets its timeline bar. *)
Definition record_start (d : TransferDirection) (now : T) (snap_idx : nat) (tx : Queued T) : SM unit :=
  modify (set_in_flight d (Some (mkInFlight (q_obj tx) d (q_src_size tx) now (now + q_runtime tx)))) ;;
  seq ← gets (λ s, default 0%nat (transfer_seq s !! (d, q_obj tx)));
  modify (λ s, set_seq (<[(d, q_obj tx) := S seq]> (transfer_seq s)) s) ;;
  modify (λ s, set_intervals (intervals s ++
    [mkInterval (transfer_name d (q_obj tx) seq) now (now + q_runtime tx) (track_of d)]) s) ;;
  emit_transfer transfer_start now snap_idx (q_obj tx) d.

(** The start of the queue head [tx], once its destination is known to fit. *)
Definition start_transfer (d : TransferDirection) (now : T) (snap_idx : nat)
    (tx : Queued T) (rest : list (Queued T)) (existing : option PoolEntry) : SM unit :=
  modify (set_queue d rest) ;;
  allocate_dst d tx existing ;;
  record_start d now snap_idx tx.

(** Whether the head fits its destination ([free >= tx.src_size]). *)
Definition head_fits (d : TransferDirection) (tx : Queued T) (s : Sim T) : bool :=
  match capacity (dst_loc d) with
  | None => true
  | Some cap =>
      let already := match pool s !! (q_obj tx, dst_loc d) with
                     | Some e => pe_size e | None => 0%Z end in
      let workspace := match dst_loc d with Fast => active_workspace_bytes s | _ => 0%Z end in
      (q_src_size tx <=? cap - loc_total (dst_loc d) s - workspace + already)%Z
  end.

Definition try_start (d : TransferDirection) (now : T) (snap_idx : nat) : SM unit :=
  s ← get;
  match in_flight d s, queue d s with
  | None, tx :: rest =>
      if head_fits d tx s
      then start_transfer d now snap_idx tx rest (pool s !! (q_obj tx, dst_loc d))
      else mret tt
  | _, _ => mret tt
  end.

(** The pool effect of a completion. *)
Definition settle (d : TransferDirection) (oid : string) : SM unit :=
  match d with
  | from_slow => set_state (oid, Fast) live
  | to_slow =>
      s ← get;
      match pool s !! (oid, Fast) with
      | None => raise (PoolKeyError (oid, Fast))
      | Some e =>
          add_total Fast (- pe_size e)%Z ;;
          modify (λ s, set_pool (delete (oid, Fast) (pool s)) s) ;;
          set_state (oid, Backing) live
      end
  end.

(** Prefetches that waited for the write-back of [oid] join the queue. *)
Definition activate_waiters (oid : string) (t : T) (snap_idx : nat) : SM unit :=
  waiters ← gets (λ s, default [] (deferred_prefetches s !! oid));
  modify (λ s, set_deferred (delete oid (deferred_prefetches s)) s) ;;
  forM_ waiters (λ tx,
    modify (λ s, set_queue from_slow (q_from s ++ [tx]) s) ;;
    emit_transfer transfer_enqueue t snap_idx (q_obj tx) from_slow).

Definition complete (d : TransferDirection) (t : T) (snap_idx : nat) : SM unit :=
  s ← get;
  match in_flight d s with
  | None => raise AssertionError
  | Some f =>
      settle d (fl_obj f) ;;
      modify (set_in_flight d None) ;;
      emit_transfer transfer_end t snap_idx (fl_obj f) d ;;
      match d with
      | from_slow => mret tt
      | to_slow => activate_waiters (fl_obj f) t snap_idx
      end
  end.

(** ** Loops over transfer completions *)

(** Transfers that have not completed: the measure of the three loops. *)
Definition flying {A} (f : option A) : nat := match f with Some _ => 1 | None => 0 end.
Definition deferred_count (m : gmap string (list (Queued T))) : nat :=
  map_fold (λ _ l n, (length l + n)%nat) 0%nat m.
Definition measure (s : Sim T) : nat :=
  (length (q_from s) + length (q_to s) + flying (fl_from s) + flying (fl_to s) +
   deferred_count (deferred_prefetches s))%nat.

Definition end_or_inf (f : option (InFlight T)) : T :=
  match f with Some f => fl_end_t f | None => num_inf end.

(** Complete the earlier of the two streams, [from_slow] on ties, and restart. *)
Definition complete_next (snap_idx : nat) : SM unit :=
  s ← get;
  let from_slow_end := end_or_inf (fl_from s) in
  let to_slow_end := end_or_inf (fl_to s) in
  if from_slow_end <=? to_slow_end then
    complete from_slow from_slow_end snap_idx ;;
    try_start from_slow from_slow_end snap_idx
  else
    complete to_slow to_slow_end snap_idx ;;
    try_start to_slow to_slow_end snap_idx ;;
    try_start from_slow to_slow_end snap_idx.

Fixpoint advance_loop (fuel : nat) (target_t : T) (snap_idx : nat) : SM unit :=
  match fuel with
  | O => raise OutOfFuel
  | S fuel =>
      s ← get;
      let next_end := num_min (end_or_inf (fl_from s)) (end_or_inf (fl_to s)) in
      if target_t <? next_end then mret tt
      else complete_next snap_idx ;; advance_loop fuel target_t snap_idx
  end.

Definition advance (target_t : T) (snap_idx : nat) : SM unit :=
  s ← get; advance_loop (S (measure s)) target_t snap_idx.

(** ** Readiness *)
Definition find_row (oid : string) (rows : list Row) : option T :=
  (λ p, row_end p.2) <$> list_find (λ r : Row, r.1.1.1 = oid) rows.

(** [max((end for ...), default=now)]. *)
Definition max_end (rows : list Row) (now : T) : T :=
  match rows with
  | [] => now
  | r :: rows => foldl (λ m r, num_max m (row_end r)) (row_end r) rows
  end.

Definition deferred_prefetch_ready_t (inp : string) (now : T) (s : Sim T) : result SimError T :=
  match deferred_prefetches s !! inp with
  | None | Some [] => Err (NoDeferredPrefetch inp)
  | Some (w :: _) =>
      match find_row inp (predict_schedule to_slow now s) with
      | None => Err (NoScheduledOffload inp)
      | Some to_slow_end =>
          let from_slow_busy_until := max_end (predict_schedule from_slow now s) now in
          Ok (num_max to_slow_end from_slow_busy_until + q_runtime w)
      end
  end.

Definition input_ready_t (inp : string) (now : T) (s : Sim T) : result SimError T :=
  match pool s !! (inp, Fast) with
  | None =>
      match deferred_prefetches s !! inp with
      | Some _ => deferred_prefetch_ready_t inp now s
      | None =>
          match find_row inp (predict_schedule from_slow now s) with
          | Some fin => Ok fin
          | None =>
              match pool s !! (inp, Backing) with
              | Some _ => Err (InputOnBackingOnly inp)
              | None => Err (InputNotPresent inp)
              end
          end
      end
  | Some e =>
      match pe_state e with
      | live => Ok now
      | inbound =>
          match find_row inp (predict_schedule from_slow now s) with
          | Some fin => Ok fin
          | None => Err (NoScheduledPrefetch inp)
          end
      | pending_outbound | outbound =>
          match deferred_prefetches s !! inp with
          | Some _ => deferred_prefetch_ready_t inp now s
          | None => Err (InputBeingOffloaded inp)
          end
      | reserved => Err (InputReserved inp)
      | pending_inbound => Err (InputUnknownState inp)
      end
  end.

(** The walk over the scheduled offloads: when enough bytes will be free, or
    the bytes free after all of them. *)
Fixpoint offload_walk (needed free : Z) (rows : list Row) : T + Z :=
  match rows with
  | [] => inr free
  | r :: rows =>
      let free := (free + r.2)%Z in
      if (needed <=? free)%Z then inl (row_end r) else offload_walk needed free rows
  end.

Definition compute_reservation_ready_t (needed : Z) (now : T) (tid : string) (s : Sim T) :
    result SimError T :=
  match fast_memory_capacity chain with
  | None => Ok now
  | Some cap =>
      let free := loc_free Fast s in
      if (needed <=? free)%Z then Ok now
      else
        match offload_walk needed free
                (py_sorted (λ a b, negb (row_end b <? row_end a)) (predict_schedule to_slow now s)) with
        | inl t => Ok t
        | inr free =>
            let actual_need := (cap + needed - free)%Z in
            Err (CapacityOutputReservation tid cap actual_need (actual_need - cap))
        end
  end.

(** ** One task of the main loop *)
Definition out_bytes (l : Location) (task : Task T) : Z := out_bytes_at l task.
Definition reservation_size (task : Task T) : Z :=
  (out_bytes Fast task + workspace_bytes task)%Z.

(** Step 1: the earliest start. *)
Definition earliest_start (task : Task T) (s : Sim T) : result SimError T :=
  let probe := compute_busy_until s in
  target ← foldR (λ target inp, r ← input_ready_t inp probe s; Ok (num_max target r))
             probe (inputs task);
  if (0 <? reservation_size task)%Z then
    r ← compute_reservation_ready_t (reservation_size task) probe (task_id task) s;
    Ok (num_max target r)
  else Ok target.

Definition input_live (s : Sim T) (inp : string) : bool :=
  match pool s !! (inp, Fast) with Some e => mstate_eqb (pe_state e) live | None => false end.

Definition over_capacity (task : Task T) (s : Sim T) : bool :=
  match fast_memory_capacity chain with
  | Some cap => (0 <? reservation_size task)%Z && (cap <? total_fast s + reservation_size task)%Z
  | None => false
  end.

Definition ready_to_run (task : Task T) (s : Sim T) : bool :=
  forallb (input_live s) (inputs task) && negb (over_capacity task s).

Definition deadlock_error (task : Task T) (s : Sim T) : SimError :=
  let need := if over_capacity task s then Some (total_fast s + reservation_size task)%Z else None in
  CapacityDeadlock (task_id task) (fast_memory_capacity chain) need
    (match need, fast_memory_capacity chain with
     | Some n, Some cap => Some (n - cap)%Z | _, _ => None end)
    (filter (λ i, input_live s i = false) (inputs task)).

(** Step 2b: drain in-flight transfers until the task can run. *)
Fixpoint drain_loop (fuel : nat) (task : Task T) (i : nat) (target_start : T) : SM T :=
  match fuel with
  | O => raise OutOfFuel
  | S fuel =>
      s ← get;
      if ready_to_run task s then mret target_start
      else
        try_start from_slow target_start i ;;
        try_start to_slow target_start i ;;
        s ← get;
        let next_end := num_min (end_or_inf (fl_from s)) (end_or_inf (fl_to s)) in
        if next_end =? num_inf then raise (deadlock_error task s)
        else advance next_end i ;; drain_loop fuel task i next_end
  end.

Definition drain (task : Task T) (i : nat) (target_start : T) : SM T :=
  s ← get; drain_loop (S (measure s)) task i target_start.

(** Step 3. *)
Definition check_backing_outputs (task : Task T) : SM unit :=
  s ← get;
  match backing_memory_capacity chain with
  | Some cap =>
      check (total_backing s + out_bytes Backing task <=? cap)%Z
        (BackingOutputOverflow (task_id task) (out_bytes Backing task) (total_backing s) cap)
  | None => mret tt
  end.

(** Step 4: reserve the workspace and the outputs, then the hard invariant. *)
Definition reserve_output (task : Task T) (out : OutputAlloc) : SM unit :=
  s ← get;
  let k := (out_id out, out_location out) in
  match pool s !! k with
  | Some _ => raise (OutputCollision (task_id task) k)
  | None =>
      modify (set_pool (<[k := mkPoolEntry (out_size out) reserved (out_location out) (out_type out)]>
                (pool s))) ;;
      add_total (out_location out) (out_size out)
  end.

Definition check_committed (task : Task T) : SM unit :=
  s ← get;
  match fast_memory_capacity chain with
  | Some cap =>
      check (total_fast s + active_workspace_bytes s <=? cap)%Z
        (OverCommitted (task_id task) (total_fast s + active_workspace_bytes s) cap)
  | None => mret tt
  end.

Definition reserve_outputs (task : Task T) : SM unit :=
  modify (set_workspace (workspace_bytes task)) ;;
  forM_ (outputs task) (reserve_output task) ;;
  check_committed task.

Definition reserve_task (task : Task T) : SM unit :=
  check_backing_outputs task ;; reserve_outputs task.

(** Step 5: the interval and the [task_start] event; returns [end_t]. *)
Definition start_task (task : Task T) (i : nat) (start : T) : SM T :=
  let end_t := start + runtime task in
  modify (λ s, set_intervals (intervals s ++ [mkInterval (task_id task) start end_t track_compute]) s) ;;
  modify (set_busy end_t) ;;
  emit task_start start i
    (mkEmitArgs (Some (mkActiveTask (task_id task) end_t)) (Some (task_id task)) [] None) ;;
  mret end_t.

(** Step 7: the workspace dies, the outputs become live. *)
Definition finish_outputs (task : Task T) (i : nat) (end_t : T) : SM unit :=
  modify (set_workspace 0) ;;
  forM_ (outputs task) (λ out, set_state (out_id out, out_location out) live) ;;
  emit task_end end_t (S i) (mkEmitArgs None (Some (task_id task)) [] None).

(** The last chain position that references each object. *)
Definition last_ref : gmap string nat :=
  (foldl (λ '(m, idx) (t : Task T),
     let m := foldl (λ m o, <[o := idx]> m) m (inputs t) in
     let m := foldl (λ m x, <[trig_obj x := idx]> m) m (offload_after t) in
     let m := foldl (λ m x, <[trig_obj x := idx]> m) m (prefetch_after t) in
     (m, S idx)) (∅, 0%nat) (tasks chain)).1.

(** [i >= last_ref.get(obj_id, -1) and obj_id not in chain.final_locations]. *)
Definition dead_everywhere (i : nat) (oid : string) : bool :=
  match last_ref !! oid with Some k => (k <=? i)%nat | None => true end &&
  negb (bool_decide (oid ∈ (fst <$> final_locations chain))).

(** Step 8. *)
Definition release_one (task : Task T) (i : nat) (oid : string) : SM unit :=
  s ← get;
  match pool s !! (oid, Fast) with
  | None => raise (ReleaseNoCopy (task_id task) oid)
  | Some e =>
      check (mstate_eqb (pe_state e) live) (ReleaseNotLive (task_id task) oid (pe_state e)) ;;
      add_total Fast (- pe_size e)%Z ;;
      modify (λ s, set_pool (delete (oid, Fast) (pool s)) s) ;;
      when (dead_everywhere i oid) (
        s ← get;
        match pool s !! (oid, Backing) with
        | Some b =>
            when (mstate_eqb (pe_state b) live) (
              add_total Backing (- pe_size b)%Z ;;
              modify (λ s, set_pool (delete (oid, Backing) (pool s)) s))
        | None => mret tt
        end)
  end.

Definition do_releases (task : Task T) (i : nat) (end_t : T) : SM unit :=
  when (negb (bool_decide (releases_after task = []))) (
    forM_ (releases_after task) (release_one task i) ;;
    emit release end_t (S i) (mkEmitArgs None None (releases_after task) None)).

(** Step 9. *)
Definition offload_one (task : Task T) (i : nat) (end_t : T) (trig : TransferTrigger T) : SM unit :=
  let tid := task_id task in
  let oid := trig_obj trig in
  s ← get;
  match pool s !! (oid, Fast) with
  | None => raise (OffloadNotLive tid oid)
  | Some src =>
      check (mstate_eqb (pe_state src) live) (OffloadNotLive tid oid) ;;
      match pool s !! (oid, Backing) with
      | Some b =>
          check (mstate_eqb (pe_state b) live) (OffloadBackingNotLive tid oid) ;;
          check (pe_size b =? pe_size src)%Z (OffloadSizeMismatch tid oid)
      | None => mret tt
      end ;;
      rt ← lift (transfer_runtime to_slow (pe_size src) (trig_runtime trig));
      set_state (oid, Fast) pending_outbound ;;
      modify (λ s, set_queue to_slow (q_to s ++
        [mkQueued oid to_slow (pe_size src) rt (Some (pe_type src))]) s) ;;
      emit_transfer transfer_enqueue end_t (S i) oid to_slow
  end.

(** Step 10. *)
Definition state_in (l : list MemoryState) (e : option PoolEntry) : bool :=
  match e with Some e => existsb (mstate_eqb (pe_state e)) l | None => false end.

Definition prefetch_one (task : Task T) (i : nat) (end_t : T) (trig : TransferTrigger T) : SM unit :=
  let tid := task_id task in
  let oid := trig_obj trig in
  s ← get;
  let src := pool s !! (oid, Backing) in
  let dev := pool s !! (oid, Fast) in
  check (negb (state_in [live; inbound] dev)) (PrefetchCopyExists tid oid) ;;
  if state_in [pending_outbound; outbound] dev || state_in [pending_inbound; inbound] src then
    match (match src with Some e => Some e | None => dev end) with
    | None => mret tt (* one of the two is present *)
    | Some e =>
        rt ← lift (transfer_runtime from_slow (pe_size e) (trig_runtime trig));
        modify (λ s, set_deferred (<[oid := default [] (deferred_prefetches s !! oid) ++
          [mkQueued oid from_slow (pe_size e) rt (Some (pe_type e))]]> (deferred_prefetches s)) s) ;;
        emit_transfer transfer_deferred end_t (S i) oid from_slow
    end
  else
    match src with
    | None => raise (PrefetchNoSource tid oid)
    | Some e =>
        check (mstate_eqb (pe_state e) live) (PrefetchNoSource tid oid) ;;
        rt ← lift (transfer_runtime from_slow (pe_size e) (trig_runtime trig));
        modify (λ s, set_queue from_slow (q_from s ++
          [mkQueued oid from_slow (pe_size e) rt (Some (pe_type e))]) s) ;;
        emit_transfer transfer_enqueue end_t (S i) oid from_slow
    end.

(** Steps 7 to 11, at the end of the task. *)
Definition finish_task (i : nat) (task : Task T) (end_t : T) : SM unit :=
  finish_outputs task i end_t ;;
  do_releases task i end_t ;;
  forM_ (offload_after task) (offload_one task i end_t) ;;
  forM_ (prefetch_after task) (prefetch_one task i end_t) ;;
  try_start from_slow end_t (S i) ;;
  try_start to_slow end_t (S i).

Definition run_task (i : nat) (task : Task T) : SM unit :=
  s ← get;
  target ← lift (earliest_start task s);
  advance target i ;;
  start ← drain task i target;
  reserve_task task ;;
  end_t ← start_task task i start;
  advance end_t (S i) ;;
  finish_task i task end_t.

(** The final drain: until both streams are idle. *)
Fixpoint final_drain_loop (fuel : nat) : SM unit :=
  match fuel with
  | O => raise OutOfFuel
  | S fuel =>
      s ← get;
      match fl_from s, fl_to s with
      | None, None => mret tt
      | _, _ => complete_next (length (tasks chain)) ;; final_drain_loop fuel
      end
  end.

Definition final_drain : SM unit := s ← get; final_drain_loop (S (measure s)).

Definition check_stuck : SM unit :=
  s ← get;
  check (bool_decide (q_from s = [] ∧ q_to s = [] ∧ deferred_prefetches s = ∅))
    (StuckTransfers (q_obj <$> q_from s) (q_obj <$> q_to s)
       (py_sorted String.leb (fst <$> map_to_list (deferred_prefetches s)))).

Definition run_body : SM unit :=
  forI_ 0 (tasks chain) run_task ;; final_drain ;; check_stuck.
End Impl.

(** ** [_run_impl] and [run] *)

(** The pool and the bytes per location ([fast], [backing]) of the initial memory. *)
Definition load_initial (objs : list Object) :
    result SimError (gmap PoolKey PoolEntry * (Z * Z)) :=
  foldR (λ '(p, (f, b)) o,
    let k := (obj_id o, obj_location o) in
    match p !! k with
    | Some _ => Err (DuplicateInitial (obj_id o) (obj_location o))
    | None =>
        let p := <[k := mkPoolEntry (obj_size o) live (obj_location o) (obj_type o)]> p in
        match obj_location o with
        | Fast => Ok (p, ((f + obj_size o)%Z, b))
        | Backing => Ok (p, (f, (b + obj_size o)%Z))
        | l => Err (LocationKeyError l)
        end
    end) (∅, (0%Z, 0%Z)) objs.

Definition check_one_capacity (l : Location) (cap : option Z) (total : Z) : result SimError unit :=
  match cap with
  | None => Ok tt
  | Some cap => raise_if (cap <? total)%Z (InitialOverflow l total cap)
  end.

Definition check_initial_capacity (chain : TaskChain T) (f b : Z) : result SimError unit :=
  check_one_capacity Fast (fast_memory_capacity chain) f ;;
  check_one_capacity Backing (backing_memory_capacity chain) b.

Definition initial_sim (p : gmap PoolKey PoolEntry) (f b : Z) : Sim T :=
  mkSim p [] [] [] None None [] [] num_zero 0 ∅ ∅ f b f b.

Definition event_log (s : Sim T) : EventLog T :=
  mkEventLog (intervals s) (sim_events s) (peak_fast s)
    (Z.max (peak_backing s) (total_backing s)) (memory_points s).

Definition start_state (chain : TaskChain T) : result SimError (Sim T) :=
  '(p, (f, b)) ← load_initial (initial_memory chain);
  check_initial_capacity chain f b ;;
  Ok (initial_sim p f b).

Definition run_impl (chain : TaskChain T) (task_starts_override : option (gmap string T))
    (snapshots memory_trace_on : bool) : result SimError (EventLog T) :=
  s0 ← start_state chain;
  let ref_starts :=
    if snapshots then default (precompute_task_starts chain) task_starts_override else ∅ in
  match run_body chain snapshots memory_trace_on ref_starts s0 with
  | (Ok _, s) => Ok (event_log s)
  | (Err e, _) => Err e
  end.

Definition actual_starts (log : EventLog T) : gmap string T :=
  foldl (λ m iv, if bool_decide (iv_track iv = track_compute)
                 then <[iv_id iv := iv_start iv]> m else m) ∅ (task_intervals log).

Definition run (chain : TaskChain T) (validate snapshots memory_trace_on : bool) :
    result SimError (EventLog T) :=
  (if validate then
     match validate_chain chain with Ok _ => Ok tt | Err e => Err (ValidationFailed e) end
   else Ok tt) ;;
  if snapshots then
    first ← run_impl chain None false false;
    run_impl chain (Some (actual_starts first)) true memory_trace_on
  else run_impl chain None false memory_trace_on.
End Simulator.
