(* ===== verification/SimulatorInv.v ===== *)
(** * Memory safety of the simulator

    The running totals [loc_total] are the bytes of the pool ([Acct]), and no
    reachable state uses more than a location's capacity, the active workspace
    included ([Capped]).  Every closure of [_run_impl] re-establishes [Inv], so
    the peaks of a returned log are within the capacities. *)
From S2P Require Import Prelude SimSchema SimRefStream SimValidate SimVersions Simulator.
From stdpp Require Import base tactics option list gmap strings pretty fin_maps.
From Stdlib Require Import ZArith Lia.
Open Scope Z_scope.

(** ** Bytes of a pool at a location *)
Definition entry_bytes (l : Location) (k : PoolKey) (e : PoolEntry) : Z :=
  if decide (k.2 = l) then pe_size e else 0.
Definition pool_bytes (l : Location) (p : gmap PoolKey PoolEntry) : Z :=
  map_fold (λ k e z, entry_bytes l k e + z) 0 p.

Section pool_bytes.
Context (l : Location).
Implicit Types p : gmap PoolKey PoolEntry.

Lemma pool_bytes_empty : pool_bytes l ∅ = 0.
Proof. apply map_fold_empty. Qed.

Lemma pool_bytes_insert p k e :
  p !! k = None → pool_bytes l (<[k := e]> p) = entry_bytes l k e + pool_bytes l p.
Proof.
  intros Hk. unfold pool_bytes.
  rewrite (map_fold_insert_L (λ k e z, entry_bytes l k e + z)); [done|intros; lia|done].
Qed.

Lemma pool_bytes_delete p k e :
  p !! k = Some e → pool_bytes l (delete k p) = pool_bytes l p - entry_bytes l k e.
Proof.
  intros Hk. rewrite <-(insert_delete_id p k e) at 2 by done.
  rewrite pool_bytes_insert by apply lookup_delete_eq. lia.
Qed.

(** A change of state leaves the bytes alone. *)
Lemma pool_bytes_update p k e e' :
  p !! k = Some e → pe_size e' = pe_size e → pool_bytes l (<[k := e']> p) = pool_bytes l p.
Proof.
  intros Hk Hs. rewrite <-insert_delete_eq, pool_bytes_insert by apply lookup_delete_eq.
  rewrite (pool_bytes_delete p k e) by done. unfold entry_bytes. rewrite Hs. lia.
Qed.
End pool_bytes.

Lemma pool_bytes_list l p :
  pool_bytes l p = sumZ ((λ kv, entry_bytes l kv.1 kv.2) <$> map_to_list p).
Proof.
  unfold pool_bytes. rewrite map_fold_foldr. induction (map_to_list p) as [|[k e] q IH]; simpl; [done|].
  by rewrite IH.
Qed.

(** ** What a log shows of the memory *)

(** Bytes a snapshot shows at a location. *)
Definition snapshot_bytes {T} (l : Location) (sn : Snapshot T) : Z :=
  sumZ ((λ m, if decide (me_location m = l) then me_size m else 0) <$> snap_memory sn).
Definition band_bytes (bands : gmap string Z) : Z := map_fold (λ _ n z, n + z) 0 bands.

Lemma snapshot_of_bytes {T} `{Num T} p a (rem : list (Task T)) starts sn l :
  snapshot_of p a rem starts = Ok sn → snapshot_bytes l sn = pool_bytes l p.
Proof.
  unfold snapshot_of. destruct (compute_reference_stream rem starts) as [refs|]; [|done].
  intros [= <-]. unfold snapshot_bytes. simpl. rewrite pool_bytes_list.
  rewrite (sumZ_perm _ _ (fmap_Permutation _ _ _ (symmetry (py_sorted_perm _ _)))).
  rewrite <-list_fmap_compose. f_equal. apply list_fmap_ext. by intros ? [[oid l'] e] _.
Qed.

Lemma band_bytes_add bands b n z :
  bands !! b = Some n → band_bytes (<[b := n + z]> bands) = band_bytes bands + z.
Proof.
  intros Hb. unfold band_bytes. rewrite <-(insert_delete_id bands b n) at 2 by done.
  rewrite <-insert_delete_eq, !map_fold_insert_L; try apply lookup_delete_eq; try lia; intros; lia.
Qed.

(** The bands of a memory-trace point add up to the fast bytes of the pool. *)
Lemma fast_memory_bands_sum p bands :
  fast_memory_bands p = Ok bands → band_bytes bands = pool_bytes Fast p.
Proof.
  unfold fast_memory_bands. rewrite pool_bytes_list.
  assert (band_bytes empty_bands = 0) as H0 by (vm_compute; reflexivity).
  rewrite <-(Z.add_0_l (sumZ _)), <-H0.
  clear H0. generalize empty_bands. induction (map_to_list p) as [|[[oid l] e] q IH]; intros b0; simpl.
  - intros [= <-]. lia.
  - unfold entry_bytes at 1; simpl. destruct (loc_eqb l Fast) eqn:Hl; simpl.
    + destruct (b0 !! band_of e) as [n|] eqn:Hn; simpl; [|done]. intros ->%IH.
      rewrite (band_bytes_add _ _ _ _ Hn). case_decide; [unfold fmap; lia|]. by destruct l.
    + intros ->%IH. case_decide; [by subst|unfold fmap; lia].
Qed.

(** [under cap z]: [z] does not exceed an optional capacity. *)
Definition under (cap : option Z) (z : Z) : Prop := ∀ c, cap = Some c → z ≤ c.

Lemma under_le cap z z' : under cap z → z' ≤ z → under cap z'.
Proof. intros H Hz c Hc. specialize (H c Hc). lia. Qed.
Lemma under_max cap z z' : under cap z → under cap z' → under cap (Z.max z z').
Proof. intros H H' c Hc. specialize (H c Hc). specialize (H' c Hc). lia. Qed.

(** Sizes are byte counts. *)
Definition sizes_nonneg {T} (chain : TaskChain T) : Prop :=
  Forall (λ o, 0 ≤ obj_size o) (initial_memory chain) ∧
  Forall (λ t, 0 ≤ workspace_bytes t ∧ Forall (λ o, 0 ≤ out_size o) (outputs t)) (tasks chain).

Section Inv.
Context {T : Type} `{Num T}.
Variable chain : TaskChain T.
Variable snapshots memory_trace_on : bool.
Variable ref_starts : gmap string T.
Implicit Types s : Sim T.

Definition queued_ok (q : list (Queued T)) : Prop := Forall (λ tx, 0 ≤ q_src_size tx) q.

(** No snapshot and no trace point shows a location above its capacity. *)
Definition event_fits (ev : Event T) : Prop :=
  under (fast_memory_capacity chain) (snapshot_bytes Fast (ev_snapshot ev)) ∧
  under (backing_memory_capacity chain) (snapshot_bytes Backing (ev_snapshot ev)).
Definition point_fits (p : MemoryTracePoint T) : Prop :=
  under (fast_memory_capacity chain) (band_bytes (mp_bands p)).

Record Acct s : Prop := {
  acct_fast : total_fast s = pool_bytes Fast (pool s);
  acct_backing : total_backing s = pool_bytes Backing (pool s);
  acct_sizes : map_Forall (λ _ e, 0 ≤ pe_size e) (pool s);
  acct_queue : ∀ d, queued_ok (queue d s);
  acct_deferred : map_Forall (λ _ q, queued_ok q) (deferred_prefetches s);
  acct_workspace : 0 ≤ active_workspace_bytes s;
  acct_peak_fast : under (fast_memory_capacity chain) (peak_fast s);
  acct_peak_backing : under (backing_memory_capacity chain) (peak_backing s);
  acct_events : Forall event_fits (sim_events s);
  acct_points : Forall point_fits (memory_points s);
}.

Record Capped s : Prop := {
  capped_fast : under (fast_memory_capacity chain) (total_fast s + active_workspace_bytes s);
  capped_backing : under (backing_memory_capacity chain) (total_backing s);
}.

Definition Inv s : Prop := Acct s ∧ Capped s.

(** ** Emissions change the peaks and the log only *)
Lemma Inv_bytes s :
  Inv s → under (fast_memory_capacity chain) (pool_bytes Fast (pool s)) ∧
          under (backing_memory_capacity chain) (pool_bytes Backing (pool s)).
Proof.
  intros [[Hf Hb _ _ _ Hw] [Hcf Hcb]]. rewrite <-Hf, <-Hb. split; [|done].
  eapply under_le; [done|lia].
Qed.

Lemma Inv_add_point s t bands :
  Inv s → fast_memory_bands (pool s) = Ok bands →
  Inv (set_points (memory_points s ++ [mkTracePoint t bands]) s).
Proof.
  intros Hs Hb. apply fast_memory_bands_sum in Hb. pose proof (Inv_bytes s Hs) as [Hcf _].
  destruct Hs as [[] []]. split; split; simpl; try done. apply Forall_app. split; [done|].
  apply Forall_singleton. unfold point_fits; simpl. by rewrite Hb.
Qed.

Lemma keeps_emit_memory_trace t : keeps Inv (emit_memory_trace memory_trace_on t).
Proof.
  intros s Hs. unfold emit_memory_trace. wp_auto; try done; by apply Inv_add_point.
Qed.
#[local] Hint Resolve keeps_emit_memory_trace : keeps.

Lemma Inv_add_event s ev :
  Inv s → (∀ l, snapshot_bytes l (ev_snapshot ev) = pool_bytes l (pool s)) →
  Inv (set_events (sim_events s ++ [ev]) s).
Proof.
  intros Hs Hev. pose proof (Inv_bytes s Hs) as [Hcf Hcb]. destruct Hs as [[] []].
  split; split; simpl; try done. apply Forall_app. split; [done|]. apply Forall_singleton.
  unfold event_fits. by rewrite !Hev.
Qed.

Lemma keeps_emit k t i a : keeps Inv (emit chain snapshots memory_trace_on ref_starts k t i a).
Proof.
  unfold emit. apply keeps_bind; [|intros _; apply keeps_bind; [auto with keeps|intros _]].
  - apply keeps_modify. intros s [[] []]. split; split; simpl; try done; by apply under_max.
  - intros s Hs. wp_auto; try done. apply Inv_add_event; [done|]. intros l. by eapply snapshot_of_bytes.
Qed.
#[local] Hint Resolve keeps_emit : keeps.

Lemma keeps_emit_transfer k t i oid d :
  keeps Inv (emit_transfer chain snapshots memory_trace_on ref_starts k t i oid d).
Proof. apply keeps_emit. Qed.
#[local] Hint Resolve keeps_emit_transfer : keeps.

(** ** Changes of one pool entry *)
Definition total_at (l : Location) s : Z := pool_bytes l (pool s).

Lemma Acct_sizes_insert s k e :
  Acct s → 0 ≤ pe_size e → map_Forall (λ _ e, 0 ≤ pe_size e) (<[k := e]> (pool s)).
Proof. intros Hs He. apply map_Forall_insert_2; [done|apply Hs]. Qed.

Lemma Inv_set_state s k e st :
  Inv s → pool s !! k = Some e →
  Inv (set_pool (<[k := mkPoolEntry (pe_size e) st (pe_location e) (pe_type e)]> (pool s)) s).
Proof.
  intros [Ha Hc] Hk. assert (0 ≤ pe_size e) by (eapply acct_sizes; eauto).
  pose proof (Acct_sizes_insert s k (mkPoolEntry (pe_size e) st (pe_location e) (pe_type e)) Ha).
  destruct Ha, Hc. split; split; simpl; auto; by rewrite (pool_bytes_update _ _ _ e).
Qed.

Lemma keeps_set_state k st : keeps Inv (set_state k st).
Proof. intros s Hs. unfold set_state. wp_auto; [by apply Inv_set_state|done]. Qed.
#[local] Hint Resolve keeps_set_state : keeps.

(** Adding an entry that fits, and its bytes, to [fast] or [backing]. *)
Lemma Acct_add s oid l e f b :
  Acct s → pool s !! (oid, l) = None → 0 ≤ pe_size e →
  f = total_fast s + (if decide (l = Fast) then pe_size e else 0) →
  b = total_backing s + (if decide (l = Backing) then pe_size e else 0) →
  Acct (set_totals f b (set_pool (<[(oid, l) := e]> (pool s)) s)).
Proof.
  intros Ha Hk He -> ->. pose proof (Acct_sizes_insert s (oid, l) e Ha He).
  destruct Ha as [Hf Hb]. split; simpl; try done; rewrite pool_bytes_insert by done;
    unfold entry_bytes; simpl; lia.
Qed.

(** Removing an entry and its bytes. *)
Lemma Inv_remove s oid l e f b :
  Inv s → pool s !! (oid, l) = Some e →
  f = total_fast s - (if decide (l = Fast) then pe_size e else 0) →
  b = total_backing s - (if decide (l = Backing) then pe_size e else 0) →
  Inv (set_pool (delete (oid, l) (pool s)) (set_totals f b s)).
Proof.
  intros [[Hf Hb Hz] [Hcf Hcb]] Hk -> ->. assert (0 ≤ pe_size e) by (eapply Hz; eauto).
  split; split; simpl; try done.
  - rewrite (pool_bytes_delete _ _ _ e) by done. unfold entry_bytes; simpl. lia.
  - rewrite (pool_bytes_delete _ _ _ e) by done. unfold entry_bytes; simpl. lia.
  - by apply map_Forall_delete.
  - eapply under_le; [done|]. case_decide; lia.
  - eapply under_le; [done|]. case_decide; lia.
Qed.

(** ** Transfers *)
Lemma Inv_queue s d q : Inv s → queued_ok q → Inv (set_queue d q s).
Proof.
  intros [[? ? ? Hd] []] Hq. split; split; simpl; try done.
  intros d'. specialize (Hd d'). by destruct d, d'.
Qed.

(** The destination entry a starting transfer creates. *)
Lemma Inv_dst s d oid e f b :
  Inv s → pool s !! (oid, dst_loc d) = None → 0 ≤ pe_size e →
  under (capacity chain (dst_loc d))
    (loc_total (dst_loc d) s + (match d with from_slow => active_workspace_bytes s | to_slow => 0 end) +
       pe_size e) →
  f = total_fast s + (match d with from_slow => pe_size e | to_slow => 0 end) →
  b = total_backing s + (match d with from_slow => 0 | to_slow => pe_size e end) →
  Inv (set_totals f b (set_pool (<[(oid, dst_loc d) := e]> (pool s)) s)).
Proof.
  intros [Ha [Hcf Hcb]] Hk He Hroom -> ->. split.
  - eapply Acct_add; [done..| |]; by destruct d.
  - destruct d; simpl in *; split; simpl; (eapply under_le; [done|lia]).
Qed.

Lemma head_fits_room d tx s :
  head_fits chain d tx s = true → pool s !! (q_obj tx, dst_loc d) = None →
  under (capacity chain (dst_loc d))
    (loc_total (dst_loc d) s + (match d with from_slow => active_workspace_bytes s | to_slow => 0 end) +
       q_src_size tx).
Proof.
  unfold head_fits. intros Hf Hk c Hc. rewrite Hc, Hk in Hf. destruct d; simpl in *; lia.
Qed.

Lemma Inv_in_flight s d f : Inv s → Inv (set_in_flight d f s).
Proof. intros [[] []]. by split; split. Qed.

Lemma keeps_record_start d now i tx :
  keeps Inv (record_start chain snapshots memory_trace_on ref_starts d now i tx).
Proof.
  intros s Hs. unfold record_start. wp_auto. apply keeps_emit_transfer.
  destruct Hs as [[] []]. by split; split.
Qed.

Lemma keeps_try_start d now i :
  keeps Inv (try_start chain snapshots memory_trace_on ref_starts d now i).
Proof.
  intros s Hs. unfold try_start. apply wp_get_bind.
  destruct (in_flight d s); [done|]. destruct (queue d s) as [|tx rest] eqn:Hq; [done|].
  destruct (head_fits chain d tx s) eqn:Hfit; [|done].
  assert (queued_ok (tx :: rest)) as [Htx Hrest]%Forall_cons by (rewrite <-Hq; apply Hs).
  pose proof (head_fits_room _ _ _ Hfit) as Hroom.
  unfold start_transfer. apply wp_modify_bind.
  pose proof (Inv_queue s d rest Hs Hrest) as Hs1. apply wp_bind.
  eapply (wp_mono _ _ (λ _, Inv) _ (λ _ _, True)); [|intros _; apply keeps_record_start|done].
  destruct d; unfold allocate_dst, set_state, add_total; simpl dst_loc in *; wp_auto; try done.
  - by apply (Inv_set_state (set_queue _ _ s)).
  - eapply (Inv_dst (set_queue from_slow rest s) from_slow (q_obj tx));
      [done|done|done|by apply Hroom|simpl; lia|simpl; lia].
  - apply (Inv_set_state (set_pool _ (set_queue _ _ s))); [|done].
    by apply (Inv_set_state (set_queue _ _ s)).
  - eapply (Inv_dst (set_pool _ (set_queue to_slow rest s)) to_slow (q_obj tx));
      [by apply (Inv_set_state (set_queue to_slow rest s))| |done|by apply Hroom|simpl; lia|done].
    simpl. by rewrite lookup_insert_ne.
Qed.
#[local] Hint Resolve keeps_try_start : keeps.

Lemma keeps_enqueue d tx :
  0 ≤ q_src_size tx →
  keeps (E:=SimError) Inv (modify (λ s, set_queue d (queue d s ++ [tx]) s)).
Proof.
  intros Htx. apply keeps_modify. intros s Hs. apply Inv_queue; [done|].
  apply Forall_app. split; [apply Hs|by apply Forall_singleton].
Qed.

Lemma keeps_activate_waiters oid t i :
  keeps Inv (activate_waiters chain snapshots memory_trace_on ref_starts oid t i).
Proof.
  intros s Hs. unfold activate_waiters. wp_auto.
  assert (queued_ok (default [] (deferred_prefetches s !! oid))) as Hw.
  { destruct (deferred_prefetches s !! oid) as [q|] eqn:Hd; [|by apply Forall_nil].
    destruct Hs as [Ha _]. by apply (acct_deferred s Ha oid). }
  assert (Inv (set_deferred (delete oid (deferred_prefetches s)) s)) as Hs1.
  { destruct Hs as [[] []]. split; split; simpl; try done. by apply map_Forall_delete. }
  revert Hs1. generalize (set_deferred (delete oid (deferred_prefetches s)) s). apply keeps_forM.
  intros tx Htx. unfold queued_ok in Hw. rewrite Forall_forall in Hw.
  apply keeps_bind; [|auto with keeps]. apply (keeps_enqueue from_slow). auto.
Qed.

Lemma keeps_complete d t i :
  keeps Inv (complete chain snapshots memory_trace_on ref_starts d t i).
Proof.
  unfold complete. keeps_tac.
  - unfold settle. destruct d; [auto with keeps|]. clear. intros s Hs. unfold add_total. wp_auto; [|done].
    apply keeps_set_state. eapply (Inv_remove s); [done|done|simpl; lia|simpl; lia].
  - apply keeps_modify. auto using Inv_in_flight.
  - apply keeps_activate_waiters.
Qed.
#[local] Hint Resolve keeps_complete : keeps.

(** ** Loops *)
Lemma keeps_complete_next i :
  keeps Inv (complete_next chain snapshots memory_trace_on ref_starts i).
Proof. unfold complete_next. keeps_tac. Qed.
#[local] Hint Resolve keeps_complete_next : keeps.

Lemma keeps_advance t i : keeps Inv (advance chain snapshots memory_trace_on ref_starts t i).
Proof.
  unfold advance. keeps_tac. generalize (S (measure s)) as fuel. intros fuel.
  induction fuel as [|fuel IH]; simpl; keeps_tac; done.
Qed.
#[local] Hint Resolve keeps_advance : keeps.

Lemma keeps_drain task i t : keeps Inv (drain chain snapshots memory_trace_on ref_starts task i t).
Proof.
  unfold drain. keeps_tac. generalize (S (measure s)) as fuel. intros fuel. revert t.
  induction fuel as [|fuel IH]; intros t; simpl; keeps_tac; done.
Qed.
#[local] Hint Resolve keeps_drain : keeps.

Lemma keeps_final_drain : keeps Inv (final_drain chain snapshots memory_trace_on ref_starts).
Proof.
  unfold final_drain. keeps_tac. generalize (S (measure s)) as fuel. intros fuel.
  induction fuel as [|fuel IH]; simpl; keeps_tac; done.
Qed.
#[local] Hint Resolve keeps_final_drain : keeps.

(** ** Reserving a task's workspace and outputs *)
Definition bytes_at (l : Location) (outs : list OutputAlloc) : Z :=
  sumZ (out_size <$> filter (λ o, loc_eqb (out_location o) l = true) outs).

Lemma bytes_at_cons l o outs :
  bytes_at l (o :: outs) = (if loc_eqb (out_location o) l then out_size o else 0) + bytes_at l outs.
Proof.
  unfold bytes_at. rewrite filter_cons. destruct (loc_eqb (out_location o) l); simpl; done.
Qed.

Lemma reserve_each task outs s :
  Forall (λ o, 0 ≤ out_size o) outs → Acct s →
  under (backing_memory_capacity chain) (total_backing s + bytes_at Backing outs) →
  wp (forM_ outs (reserve_output task)) s
    (λ _ s', Acct s' ∧ under (backing_memory_capacity chain) (total_backing s')) (λ _ _, True).
Proof.
  revert s. induction outs as [|o outs IH]; intros s Ho Ha Hb; simpl.
  { apply wp_ret. split; [done|]. eapply under_le; [done|]. unfold bytes_at; simpl. lia. }
  apply Forall_cons in Ho as [Ho Houts]. rewrite bytes_at_cons in Hb. apply wp_bind.
  eapply (wp_mono _ _ (λ _ s', Acct s' ∧ under (backing_memory_capacity chain)
    (total_backing s' + bytes_at Backing outs)) _ (λ _ _, True)); [|intros _ s' []; by apply IH|done].
  unfold reserve_output, add_total. wp_auto; try done; split; simpl.
  - eapply (Acct_add s); [done|done|done|simpl; lia|simpl; lia].
  - eapply under_le; [exact Hb|]. simpl. lia.
  - eapply (Acct_add s); [done|done|done|simpl; lia|simpl; lia].
  - eapply under_le; [exact Hb|]. simpl. lia.
Qed.

Definition task_sizes_ok (task : Task T) : Prop :=
  0 ≤ workspace_bytes task ∧ Forall (λ o, 0 ≤ out_size o) (outputs task).

Lemma keeps_reserve_task task : task_sizes_ok task → keeps Inv (reserve_task chain task).
Proof.
  intros [Hw Ho] s [Ha [Hcf Hcb]]. unfold reserve_task, check_backing_outputs, reserve_outputs.
  apply wp_bind_assoc, wp_get_bind.
  eapply wp_bind, (wp_mono _ _ (λ _ s', s' = s ∧ under (backing_memory_capacity chain)
    (total_backing s + bytes_at Backing (outputs task))) _ (λ _ _, True)); [|intros _ ? [-> Hb]|done].
  { destruct (backing_memory_capacity chain) as [cap|]; wp_auto; try done.
    split; [done|]. intros c [= <-]. unfold out_bytes, out_bytes_at in *. unfold bytes_at. lia. }
  apply wp_modify_bind, wp_bind.
  eapply wp_mono; [apply reserve_each; [done| |exact Hb]|intros _ s' [Ha' Hb']|done].
  { destruct Ha. by split. }
  unfold check_committed. apply wp_get_bind. destruct (fast_memory_capacity chain) as [cap|] eqn:Hcap.
  - wp_auto; [|done]. split; [done|]. split; [|done]. rewrite Hcap. intros c [= <-]. lia.
  - wp_auto. split; [done|]. split; [|done]. rewrite Hcap. by intros c [=].
Qed.
#[local] Hint Resolve keeps_reserve_task : keeps.

(** ** The rest of a task *)
Lemma keeps_start_task task i t :
  keeps Inv (start_task chain snapshots memory_trace_on ref_starts task i t).
Proof.
  unfold start_task. keeps_tac; apply keeps_modify; intros ? [[] []]; by split; split.
Qed.

Lemma keeps_finish_outputs task i t :
  keeps Inv (finish_outputs chain snapshots memory_trace_on ref_starts task i t).
Proof.
  unfold finish_outputs. keeps_tac. apply keeps_modify. intros s [[] []]. split; split; simpl; try done.
  eapply under_le; [done|]. lia.
Qed.

Lemma keeps_release_one task i oid : keeps Inv (release_one chain task i oid).
Proof.
  intros s Hs. unfold release_one, add_total. wp_auto; try done; simpl in *.
  - set (s1 := set_pool (delete (oid, Fast) (pool s))
                 (set_totals (total_fast s + - pe_size p) (total_backing s) s)).
    assert (Inv s1) by (eapply (Inv_remove s); [done|done|simpl; lia|simpl; lia]).
    eapply (Inv_remove s1); [done|done|simpl; lia|simpl; lia].
  - eapply (Inv_remove s); [done|done|simpl; lia|simpl; lia].
  - eapply (Inv_remove s); [done|done|simpl; lia|simpl; lia].
  - eapply (Inv_remove s); [done|done|simpl; lia|simpl; lia].
Qed.
#[local] Hint Resolve keeps_release_one : keeps.

Lemma keeps_do_releases task i t :
  keeps Inv (do_releases chain snapshots memory_trace_on ref_starts task i t).
Proof. unfold do_releases. keeps_tac. Qed.

Lemma Inv_size s k e : Inv s → pool s !! k = Some e → 0 ≤ pe_size e.
Proof. intros [Ha _] Hk. by eapply (acct_sizes s Ha k). Qed.

Lemma keeps_offload_one task i t trig :
  keeps Inv (offload_one chain snapshots memory_trace_on ref_starts task i t trig).
Proof.
  unfold offload_one. keeps_tac. apply (keeps_enqueue to_slow). simpl. by eapply Inv_size.
Qed.

Lemma keeps_defer oid tx :
  0 ≤ q_src_size tx →
  keeps (E:=SimError) Inv (modify (λ s, set_deferred (<[oid := default [] (deferred_prefetches s !! oid) ++ [tx]]>
    (deferred_prefetches s)) s)).
Proof.
  intros Htx. apply keeps_modify. intros s [[] []]. split; split; simpl; try done.
  apply map_Forall_insert_2; [|done]. apply Forall_app. split; [|by apply Forall_singleton].
  destruct (deferred_prefetches s !! oid) as [q|] eqn:Hq; [|by apply Forall_nil].
  by apply (acct_deferred0 oid).
Qed.

Lemma keeps_prefetch_one task i t trig :
  keeps Inv (prefetch_one chain snapshots memory_trace_on ref_starts task i t trig).
Proof.
  unfold prefetch_one. keeps_tac.
  - apply keeps_defer. simpl. destruct (pool s !! (trig_obj trig, Backing)) eqn:?; simplify_eq;
      by eapply Inv_size.
  - apply (keeps_enqueue from_slow). simpl. by eapply Inv_size.
Qed.
#[local] Hint Resolve keeps_start_task keeps_finish_outputs keeps_do_releases keeps_offload_one
  keeps_prefetch_one : keeps.

Lemma keeps_run_task i task :
  task_sizes_ok task → keeps Inv (run_task chain snapshots memory_trace_on ref_starts i task).
Proof. intros Hok. unfold run_task, finish_task. keeps_tac. Qed.

Lemma keeps_run_body :
  sizes_nonneg chain → keeps Inv (run_body chain snapshots memory_trace_on ref_starts).
Proof.
  intros [_ Hok]. unfold run_body, check_stuck. keeps_tac. apply keeps_forI. intros j task Hj.
  apply keeps_run_task. rewrite Forall_forall in Hok. apply Hok, list_elem_of_lookup. eauto.
Qed.

(** ** Whole runs *)
Lemma load_initial_acct objs p f b :
  Forall (λ o, 0 ≤ obj_size o) objs → load_initial objs = Ok (p, (f, b)) →
  f = pool_bytes Fast p ∧ b = pool_bytes Backing p ∧ map_Forall (λ _ e, 0 ≤ pe_size e) p.
Proof.
  intros Ho Hl. revert Hl. unfold load_initial. intros Hl.
  refine (foldR_ok_inv _ (λ _ '(p, (f, b)), f = pool_bytes Fast p ∧ b = pool_bytes Backing p ∧
    map_Forall (λ _ e, 0 ≤ pe_size e) p) _ _ _ 0 Hl _ _).
  - rewrite !pool_bytes_empty. split_and!; [done..|]. apply map_Forall_empty.
  - intros j o (p1 & f1 & b1) [p2 [f2 b2]] Hj (Hf & Hb & Hz) Hstep. simpl in Hstep.
    assert (0 ≤ obj_size o).
    { rewrite Forall_forall in Ho. apply Ho, list_elem_of_lookup. eauto. }
    destruct (p1 !! (obj_id o, obj_location o)) eqn:Hk; [done|].
    destruct (obj_location o) eqn:Hloc; simplify_eq; rewrite !pool_bytes_insert by done;
      unfold entry_bytes; simpl; (split_and!; [lia|lia|by apply map_Forall_insert_2]).
Qed.

Lemma start_state_Inv s : sizes_nonneg chain → start_state chain = Ok s → Inv s.
Proof.
  intros [Ho _]. unfold start_state. rewrite result_bind_ok. intros ([p [f b]] & Hl & Hs).
  destruct (load_initial_acct _ _ _ _ Ho Hl) as (Hf & Hb & Hz).
  unfold check_initial_capacity in Hs. rewrite result_bind_ok in Hs.
  destruct Hs as (u & (u' & Hcf & Hcb)%result_bind_ok & [= <-]).
  assert (under (fast_memory_capacity chain) f) as Huf.
  { intros c Hc. unfold check_one_capacity in Hcf. rewrite Hc, raise_if_ok in Hcf. lia. }
  assert (under (backing_memory_capacity chain) b) as Hub.
  { intros c Hc. unfold check_one_capacity in Hcb. rewrite Hc in Hcb. destruct (c <? b) eqn:?; [done|lia]. }
  split; split; simpl; try done; try apply Forall_nil_2.
  - intros []; by apply Forall_nil.
  - eapply under_le; [exact Huf|lia].
Qed.
End Inv.

(** Everything a log shows of the memory is within the chain's capacities. *)
Definition log_fits {T} (chain : TaskChain T) (log : EventLog T) : Prop :=
  under (fast_memory_capacity chain) (peak_fast_memory_bytes log) ∧
  under (backing_memory_capacity chain) (peak_backing_memory_bytes log) ∧
  Forall (event_fits chain) (events log) ∧
  Forall (point_fits chain) (memory_trace log).

Section Run.
Context {T : Type} `{Num T}.

Lemma run_impl_fits (chain : TaskChain T) starts sn mt log :
  sizes_nonneg chain → run_impl chain starts sn mt = Ok log → log_fits chain log.
Proof.
  intros Hok. unfold run_impl. rewrite result_bind_ok. intros (s0 & Hs0 & Hrun).
  apply start_state_Inv in Hs0; [|done].
  destruct (run_body _ _ _ _ s0) as [[[]|e] s] eqn:Hb; [|done]. injection Hrun as <-.
  eapply keeps_run in Hb; [|by apply keeps_run_body|done]. destruct Hb as [[] []].
  unfold log_fits; simpl. split_and!; [done|by apply under_max|done|done].
Qed.

(** C16: The simulator never commits more memory than a location has: in every log
    it returns, with validation and snapshots on or off, the recorded peaks
    (workspace included), every snapshot and every memory-trace point stay
    within the fast and backing capacities. *)
Theorem run_respects_capacity (chain : TaskChain T) validate sn mt log :
  sizes_nonneg chain → run chain validate sn mt = Ok log → log_fits chain log.
Proof.
  intros Hok. unfold run. rewrite result_bind_ok. intros (u & _ & Hrun).
  destruct sn; [|by eapply run_impl_fits].
  rewrite result_bind_ok in Hrun. destruct Hrun as (first & _ & Hrun). by eapply run_impl_fits.
Qed.
End Run.

Lemma run_respects_capacity_witness :
  sizes_nonneg writeback_chain ∧
  ∃ log, run writeback_chain true true true = Ok log ∧ log_fits writeback_chain log.
Proof.
  assert (sizes_nonneg writeback_chain) as Hok.
  { split; repeat constructor; vm_compute; discriminate. }
  split; [exact Hok|].
  destruct (run writeback_chain true true true) as [log|e] eqn:Hrun.
  - exists log. split; [reflexivity|].
    exact (run_respects_capacity writeback_chain true true true log Hok Hrun).
  - exfalso. revert Hrun. vm_compute. discriminate.
Defined.
