(* ===== verification/SimulatorTerm.v ===== *)
(** * Termination of the simulator

    The three [while] loops of [_run_impl] (in [advance], in the drain before a
    task and at the end) complete at least one transfer per round, and a
    completion takes one transfer off [measure].  So the fuel of the model,
    one more than [measure], is never used up: [run] returns a log or raises one
    of the program's own exceptions. *)
From S2P Require Import Prelude SimSchema SimRefStream SimValidate SimVersions Simulator.
From stdpp Require Import base tactics option list gmap strings pretty fin_maps.
From Stdlib Require Import ZArith Lia.
Open Scope Z_scope.

Definition not_fuel (e : SimError) : Prop := e ≠ OutOfFuel.

Section Term.
Context {T : Type} `{Num T}.
Variable chain : TaskChain T.
Variable snapshots memory_trace_on : bool.
Variable ref_starts : gmap string T.
Implicit Types s : Sim T.

(** [still m]: [m] neither adds nor completes a transfer. *)
Definition nofuel {A} (m : M (Sim T) SimError A) : Prop :=
  triple (λ _, True) m (λ _ _, True) (λ e _, not_fuel e).
Definition still {A} (m : M (Sim T) SimError A) : Prop :=
  ∀ n, triple (λ s, measure s = n) m (λ _ s, measure s = n) (λ e _, not_fuel e).

Lemma still_nofuel {A} (m : M (Sim T) SimError A) : still m → nofuel m.
Proof. intros Hm s _. by eapply wp_mono; [apply (Hm (measure s))|..]. Qed.

Lemma still_bind {A B} (m : M (Sim T) SimError A) (f : A → M (Sim T) SimError B) :
  still m → (∀ a, still (f a)) → still (m ≫= f).
Proof. intros Hm Hf n. eapply triple_bind; [apply Hm|]. intros a. apply Hf. Qed.
Lemma nofuel_bind {A B} (m : M (Sim T) SimError A) (f : A → M (Sim T) SimError B) :
  nofuel m → (∀ a, nofuel (f a)) → nofuel (m ≫= f).
Proof. intros Hm Hf. eapply triple_bind; [apply Hm|]. intros a. apply Hf. Qed.
Lemma nofuel_forM {A} (l : list A) f : (∀ x, nofuel (f x)) → nofuel (forM_ l f).
Proof. intros Hf. apply triple_forM. intros x _. apply Hf. Qed.

(** ** Pure helpers raise only the program's exceptions *)
Lemma fast_memory_bands_nf p e : fast_memory_bands p = Err e → not_fuel e.
Proof.
  intros (b & [[o l] x] & _ & Hx)%foldR_err. simpl in Hx. repeat case_match; by simplify_eq.
Qed.
Lemma snapshot_of_nf p a rem (starts : gmap string T) e : snapshot_of p a rem starts = Err e → not_fuel e.
Proof. unfold snapshot_of. destruct (compute_reference_stream rem starts); by intros [= <-]. Qed.
Lemma transfer_runtime_nf d z o e : transfer_runtime chain d z o = Err e → not_fuel e.
Proof. unfold transfer_runtime. intros. repeat case_match; by simplify_eq. Qed.
Lemma input_ready_nf inp now s e : input_ready_t inp now s = Err e → not_fuel e.
Proof. unfold input_ready_t, deferred_prefetch_ready_t. intros. repeat case_match; by simplify_eq. Qed.
Lemma reservation_nf n now tid s e : compute_reservation_ready_t chain n now tid s = Err e → not_fuel e.
Proof. unfold compute_reservation_ready_t. intros. repeat case_match; by simplify_eq. Qed.

Lemma earliest_start_nf task s e : earliest_start chain task s = Err e → not_fuel e.
Proof.
  unfold earliest_start. intros [(t & x & _ & Hx)%foldR_err|(t & _ & Ht)]%result_bind_err.
  - apply result_bind_err in Hx as [Hx|(? & _ & [=])]. by eapply input_ready_nf.
  - case_match; [|done]. apply result_bind_err in Ht as [Hx|(? & _ & [=])]. by eapply reservation_nf.
Qed.

(** ** Emissions and pool updates *)
Lemma still_emit k t i a : still (emit chain snapshots memory_trace_on ref_starts k t i a).
Proof.
  intros n s Hs. unfold emit, emit_memory_trace.
  wp_auto; eauto using fast_memory_bands_nf, snapshot_of_nf.
Qed.
Lemma still_emit_transfer k t i oid d :
  still (emit_transfer chain snapshots memory_trace_on ref_starts k t i oid d).
Proof. apply still_emit. Qed.
Lemma still_set_state k st : still (set_state k st).
Proof. intros n s Hs. unfold set_state. by wp_auto. Qed.

Lemma measure_split s d f :
  in_flight d s = Some f → measure s = S (measure (set_in_flight d None s)).
Proof. unfold measure. destruct d; simpl; intros ->; simpl; lia. Qed.

Lemma still_try_start d now i :
  still (try_start chain snapshots memory_trace_on ref_starts d now i).
Proof.
  intros n s Hs. unfold try_start. apply wp_get_bind.
  destruct (in_flight d s) eqn:Hf; [by apply wp_ret|].
  destruct (queue d s) as [|tx rest] eqn:Hq; [by apply wp_ret|].
  destruct (head_fits chain d tx s); [|by apply wp_ret].
  unfold start_transfer. apply wp_modify_bind, wp_bind.
  set (s1 := set_queue d rest s).
  assert (in_flight d s1 = None ∧ S (measure s1) = n) as Hs1.
  { subst n s1. split; [by destruct d|]. unfold measure. destruct d; simpl in *; rewrite Hq; simpl; lia. }
  generalize (pool s !! (q_obj tx, dst_loc d)) as ex. intros ex. clearbody s1. clear Hf Hq s Hs.
  eapply (wp_mono _ _ (λ _ s', in_flight d s' = None ∧ S (measure s') = n) _
    (λ e _, not_fuel e)); [|clear s1 Hs1|done].
  - unfold allocate_dst, set_state, add_total. wp_auto; try done; destruct d; by simplify_eq/=.
  - intros _ s [Hf Hn]. unfold record_start. wp_auto. apply still_emit_transfer.
    rewrite <-Hn. unfold measure. destruct d; simpl in *; rewrite Hf; simpl; lia.
Qed.

(** ** A completion takes one transfer off the measure *)
Lemma deferred_count_delete (m : gmap string (list (Queued T))) k :
  deferred_count m = (length (default [] (m !! k)) + deferred_count (delete k m))%nat.
Proof.
  unfold deferred_count. destruct (m !! k) as [q|] eqn:Hk; simpl.
  - rewrite <-(insert_delete_id m k q) at 1 by done.
    rewrite map_fold_insert_L; [done|intros; lia|apply lookup_delete_eq].
  - by rewrite delete_id.
Qed.

Lemma activate_waiters_measure oid t i n :
  triple (λ s, measure s = n) (activate_waiters chain snapshots memory_trace_on ref_starts oid t i)
    (λ _ s, measure s = n) (λ e _, not_fuel e).
Proof.
  intros s Hs. unfold activate_waiters. wp_auto.
  set (ws := default [] (deferred_prefetches s !! oid)).
  set (s1 := set_deferred (delete oid (deferred_prefetches s)) s).
  assert (measure s1 + length ws = n)%nat as Hs1.
  { subst n. unfold measure, s1, ws; simpl. rewrite (deferred_count_delete (deferred_prefetches s) oid). lia. }
  clearbody s1 ws. clear s Hs. revert s1 Hs1. induction ws as [|tx ws IH]; intros s1 Hs1; simpl in *.
  - apply wp_ret. lia.
  - wp_auto. apply wp_bind. eapply wp_mono; [by apply still_emit_transfer| |done].
    intros [] s2 Hs2; simpl in Hs2. apply IH. rewrite Hs2. unfold measure in *; simpl. rewrite length_app; simpl. lia.
Qed.

Lemma complete_measure d t i n :
  triple (λ s, measure s = S n) (complete chain snapshots memory_trace_on ref_starts d t i)
    (λ _ s, measure s = n) (λ e _, not_fuel e).
Proof.
  intros s Hs. unfold complete. apply wp_get_bind. destruct (in_flight d s) as [f|] eqn:Hf; [|done].
  apply wp_bind.
  eapply (wp_mono _ _ (λ _ s', in_flight d s' = Some f ∧ measure s' = S n) _
    (λ e _, not_fuel e)); [| |done].
  - unfold settle, set_state, add_total. wp_auto; try done; destruct d; by simplify_eq/=.
  - clear s Hs Hf. intros _ s [Hf Hs]. wp_auto. apply wp_bind.
    eapply wp_mono; [apply (still_emit_transfer _ _ _ _ _ n)| |done].
    { rewrite (measure_split _ _ _ Hf) in Hs. by injection Hs. }
    intros [] s' Hs'. destruct d; [by apply wp_ret|by apply activate_waiters_measure].
Qed.

Lemma complete_next_measure i n :
  triple (λ s, measure s = S n) (complete_next chain snapshots memory_trace_on ref_starts i)
    (λ _ s, measure s = n) (λ e _, not_fuel e).
Proof.
  intros s Hs. unfold complete_next. apply wp_get_bind.
  destruct (_ <=? _)%num; (eapply wp_call_bind; [apply complete_measure|exact Hs|intros [] s1 Hs1]).
  - by apply still_try_start.
  - eapply wp_call_bind; [apply still_try_start|exact Hs1|]. intros [] s2 Hs2. by apply still_try_start.
Qed.

Lemma complete_next_busy i s :
  measure s = 0%nat →
  wp (complete_next chain snapshots memory_trace_on ref_starts i) s (λ _ _, False) (λ e _, not_fuel e).
Proof.
  intros Hs. assert (∀ d, in_flight d s = None) as Hidle.
  { unfold measure in Hs. intros []; simpl; destruct (fl_from s), (fl_to s); simpl in *; try done; lia. }
  unfold complete_next, complete. apply wp_get_bind.
  destruct (_ <=? _)%num; wp_auto; try done; by rewrite Hidle in *.
Qed.

(** Every round of the loops takes at least one off the measure. *)
Lemma complete_next_decreases i s :
  wp (complete_next chain snapshots memory_trace_on ref_starts i) s
    (λ _ s', (measure s' < measure s)%nat) (λ e _, not_fuel e).
Proof.
  destruct (measure s) as [|n] eqn:Hn.
  - by eapply wp_mono; [apply complete_next_busy|..].
  - eapply wp_mono; [by apply complete_next_measure| |done]. intros [] s' Hs'; simpl in Hs'. lia.
Qed.

Definition next_end s : T := num_min (end_or_inf (fl_from s)) (end_or_inf (fl_to s)).

Lemma advance_loop_fuel fuel t i s :
  (measure s < fuel)%nat →
  wp (advance_loop chain snapshots memory_trace_on ref_starts fuel t i) s
    (λ _ s', (measure s' ≤ measure s)%nat ∧
             ((t <? next_end s)%num = false → (measure s' < measure s)%nat))
    (λ e _, not_fuel e).
Proof.
  revert s. induction fuel as [|fuel IH]; intros s Hs; [lia|]. simpl. apply wp_get_bind.
  change (num_min _ _) with (next_end s).
  destruct (t <? next_end s)%num; [by apply wp_ret|]. apply wp_bind.
  eapply wp_mono; [apply complete_next_decreases| |done]. intros [] s1 Hs1; simpl in Hs1.
  eapply wp_mono; [apply IH; lia| |done]. intros [] s2 [Hs2 _]. lia.
Qed.

Lemma advance_fuel t i s :
  wp (advance chain snapshots memory_trace_on ref_starts t i) s
    (λ _ s', (measure s' ≤ measure s)%nat ∧
             ((t <? next_end s)%num = false → (measure s' < measure s)%nat))
    (λ e _, not_fuel e).
Proof. unfold advance. apply wp_get_bind, advance_loop_fuel. lia. Qed.

Lemma nofuel_final_drain : nofuel (final_drain chain snapshots memory_trace_on ref_starts).
Proof.
  intros s _. unfold final_drain. apply wp_get_bind.
  assert (measure s < S (measure s))%nat as Hf by lia. revert Hf. generalize (S (measure s)) as fuel.
  intros fuel. revert s. induction fuel as [|fuel IH]; intros s Hs; [lia|]. simpl. apply wp_get_bind.
  assert (wp (complete_next chain snapshots memory_trace_on ref_starts (length (tasks chain)) ;;
    final_drain_loop chain snapshots memory_trace_on ref_starts fuel) s (λ _ _, True) (λ e _, not_fuel e)).
  { apply wp_bind. eapply wp_mono; [apply complete_next_decreases| |done]. intros [] s1 Hs1.
    apply IH. simpl in Hs1. lia. }
  destruct (fl_from s), (fl_to s); done.
Qed.

Context `{!NumLaws T}.

Lemma nofuel_drain task i t : nofuel (drain chain snapshots memory_trace_on ref_starts task i t).
Proof.
  intros s _. unfold drain. apply wp_get_bind.
  assert (measure s < S (measure s))%nat as Hf by lia. revert Hf. generalize (S (measure s)) as fuel.
  intros fuel. revert t s. induction fuel as [|fuel IH]; intros t s Hs; [lia|]. simpl. apply wp_get_bind.
  destruct (ready_to_run chain task s); [done|].
  eapply wp_call_bind; [apply still_try_start|reflexivity|intros [] s1 Hs1].
  eapply wp_call_bind; [apply still_try_start|exact Hs1|intros [] s2 Hs2]. apply wp_get_bind.
  change (num_min _ _) with (next_end s2). destruct (next_end s2 =? num_inf)%num; [done|].
  apply wp_bind. eapply wp_mono; [apply advance_fuel| |done]. intros [] s3 [_ Hs3].
  apply IH. specialize (Hs3 (num_ltb_irrefl _)). simpl in Hs2. lia.
Qed.

(** ** Tasks and whole runs *)
Lemma nofuel_advance t i : nofuel (advance chain snapshots memory_trace_on ref_starts t i).
Proof. intros s _. by eapply wp_mono; [apply advance_fuel|..]. Qed.

Lemma nofuel_reserve_task task : nofuel (reserve_task chain task).
Proof.
  unfold reserve_task, reserve_outputs. apply nofuel_bind; [|intros _; apply nofuel_bind; [done|intros _]].
  - intros s _. unfold check_backing_outputs. by wp_auto.
  - apply nofuel_bind; [apply nofuel_forM|intros _]; intros; intros s _;
      unfold reserve_output, add_total, check_committed; by wp_auto.
Qed.

Lemma nofuel_finish_outputs task i t :
  nofuel (finish_outputs chain snapshots memory_trace_on ref_starts task i t).
Proof.
  unfold finish_outputs. apply nofuel_bind; [done|intros _]. apply nofuel_bind; [apply nofuel_forM|intros _].
  - intros o. apply still_nofuel, still_set_state.
  - apply still_nofuel, still_emit.
Qed.

Lemma nofuel_do_releases task i t :
  nofuel (do_releases chain snapshots memory_trace_on ref_starts task i t).
Proof.
  unfold do_releases, when. case_match; [|done]. apply nofuel_bind; [apply nofuel_forM|intros _].
  - intros o s _. unfold release_one, add_total. by wp_auto.
  - apply still_nofuel, still_emit.
Qed.

Lemma nofuel_offload_one task i t trig :
  nofuel (offload_one chain snapshots memory_trace_on ref_starts task i t trig).
Proof.
  intros s _. unfold offload_one, set_state. wp_auto; eauto using transfer_runtime_nf; try done.
  all: by apply (still_nofuel _ (still_emit_transfer _ _ _ _ _)).
Qed.

Lemma nofuel_prefetch_one task i t trig :
  nofuel (prefetch_one chain snapshots memory_trace_on ref_starts task i t trig).
Proof.
  intros s _. unfold prefetch_one. wp_auto; eauto using transfer_runtime_nf; try done.
  all: by apply (still_nofuel _ (still_emit_transfer _ _ _ _ _)).
Qed.

Ltac nofuel_split :=
  repeat match goal with |- nofuel (_ ≫= _) => apply nofuel_bind; [|intros ?] end.

Lemma nofuel_run_task i task : nofuel (run_task chain snapshots memory_trace_on ref_starts i task).
Proof.
  unfold run_task, finish_task. apply nofuel_bind; [done|intros s].
  apply nofuel_bind; [intros s' _; unfold wp, lift; destruct (earliest_start _ _ _) eqn:?;
    [done|by eapply earliest_start_nf]|intros target].
  nofuel_split; auto using nofuel_advance, nofuel_drain,
    nofuel_reserve_task, nofuel_finish_outputs, nofuel_do_releases, nofuel_forM,
    nofuel_offload_one, nofuel_prefetch_one, still_nofuel, still_try_start.
  unfold start_task. nofuel_split; try done. apply still_nofuel, still_emit.
Qed.

Lemma nofuel_run_body : nofuel (run_body chain snapshots memory_trace_on ref_starts).
Proof.
  unfold run_body. apply nofuel_bind; [|intros _; apply nofuel_bind; [apply nofuel_final_drain|intros _]].
  - apply triple_forI. intros j x _. apply nofuel_run_task.
  - intros s _. unfold check_stuck. by wp_auto.
Qed.
End Term.

Section RunTerm.
Context {T : Type} `{NumLaws T}.

Lemma start_state_nf (chain : TaskChain T) e : start_state chain = Err e → not_fuel e.
Proof.
  unfold start_state, load_initial, check_initial_capacity, check_one_capacity, raise_if.
  intros [([p [f b]] & o & _ & Hx)%foldR_err|([p [f b]] & _ & Hx)]%result_bind_err.
  - repeat case_match; by simplify_eq.
  - unfold mbind, result_bind in Hx. repeat case_match; by simplify_eq.
Qed.

Lemma run_impl_nf (chain : TaskChain T) starts sn mt e :
  run_impl chain starts sn mt = Err e → not_fuel e.
Proof.
  unfold run_impl. intros [Hx|(s0 & _ & Hx)]%result_bind_err; [by eapply start_state_nf|].
  set (rs := if sn then _ else _) in Hx.
  pose proof (nofuel_run_body chain sn mt rs s0 I) as Hnf. unfold wp in Hnf.
  destruct (run_body _ _ _ _ _) as [[]]; by simplify_eq.
Qed.

(** A result of the program: a log or one of its own exceptions. *)
Definition program_result (r : result SimError (EventLog T)) : Prop :=
  match r with Ok _ => True | Err e => e ≠ OutOfFuel end.

(** C17: Every loop of the simulator terminates: with fuel one above the number of
    transfers not yet completed, [run] always ends in a log or in one of the
    program's own exceptions, never for lack of fuel. *)
Theorem run_terminates (chain : TaskChain T) validate sn mt :
  program_result (run chain validate sn mt).
Proof.
  unfold program_result. destruct (run chain validate sn mt) as [log|e] eqn:He; [done|]. intros ->.
  unfold run in He. apply result_bind_err in He as [Hv|(u & _ & Hr)].
  - by destruct validate; [destruct (validate_chain chain)|].
  - destruct sn; [|by eapply run_impl_nf].
    apply result_bind_err in Hr as [Hr|(log & _ & Hr)]; by eapply run_impl_nf.
Qed.
End RunTerm.

Lemma run_terminates_witness : NumLaws Z ∧ program_result (run writeback_chain true true true).
Proof. split; [exact _|]. apply (run_terminates (T := Z)). Defined.
