(* ===== verification/SimulatorTime.v ===== *)
(** * Timelines of the simulator

    Compute and the two transfer streams are single servers.  [Timeline b c s]
    says that the clock has reached [c]: transfers in flight end at or after
    [c], everything else on their tracks ended by [c], the compute track is
    booked until [b], and the bars of each track follow one another. *)
From S2P Require Import Prelude SimSchema SimRefStream SimValidate SimVersions Simulator.
From stdpp Require Import base tactics option list gmap strings pretty fin_maps sorting.
From Stdlib Require Import ZArith Lia.
Open Scope Z_scope.

Section Spec.
Context {T : Type} `{Num T}.

(** The bars of one track, in the order the log lists them. *)
Definition track_ivs (tr : Track) (ivs : list (TaskInterval T)) : list (TaskInterval T) :=
  filter (λ iv, iv_track iv = tr) ivs.

(** Each bar starts after every earlier bar has ended. *)
Definition sequential (ivs : list (TaskInterval T)) : Prop :=
  StronglySorted (λ a b, num_leb (iv_end a) (iv_start b) = true) ivs.

(** The compute bars are the tasks, in order, each of its task's length. *)
Definition bars_of (ivs : list (TaskInterval T)) (ts : list (Task T)) : Prop :=
  Forall2 (λ iv t, iv_id iv = task_id t ∧ iv_end iv = num_add (iv_start iv) (runtime t)) ivs ts.

Definition runtimes_nonneg (chain : TaskChain T) : Prop :=
  Forall (λ t, num_leb num_zero (runtime t) = true) (tasks chain).
End Spec.

Section Time.
Context {T : Type} `{NumLaws T}.
Variable chain : TaskChain T.
Variable snapshots memory_trace_on : bool.
Variable ref_starts : gmap string T.
Implicit Types s : Sim T.
Local Notation "a ⊑ b" := (num_leb a b = true) (at level 70).

Definition rt_ok (q : list (Queued T)) : Prop := Forall (λ tx, num_zero ⊑ q_runtime tx) q.

Record Timeline (done : list (Task T)) (b c : T) s : Prop := {
  tl_busy : compute_busy_until s = b;
  tl_flight : ∀ d f, in_flight d s = Some f → c ⊑ fl_end_t f;
  tl_queue : ∀ d, rt_ok (queue d s);
  tl_deferred : map_Forall (λ _ q, rt_ok q) (deferred_prefetches s);
  tl_seq : ∀ tr, sequential (track_ivs tr (intervals s));
  tl_past : ∀ d iv, iv ∈ track_ivs (track_of d) (intervals s) →
    iv_end iv ⊑ c ∨ ∃ f, in_flight d s = Some f ∧ iv_end iv = fl_end_t f;
  tl_compute : ∀ iv, iv ∈ track_ivs track_compute (intervals s) → iv_end iv ⊑ b;
  tl_bars : bars_of (track_ivs track_compute (intervals s)) done;
  tl_pos : num_zero ⊑ b;
  tl_start : ∀ iv, iv ∈ track_ivs track_compute (intervals s) → num_zero ⊑ iv_start iv;
}.

(** Only these fields matter. *)
Definition same_time s s' : Prop :=
  compute_busy_until s' = compute_busy_until s ∧ (∀ d, in_flight d s' = in_flight d s) ∧
  intervals s' = intervals s.

Lemma Timeline_same done b c s s' :
  Timeline done b c s → same_time s s' → (∀ d, rt_ok (queue d s')) →
  map_Forall (λ _ q, rt_ok q) (deferred_prefetches s') → Timeline done b c s'.
Proof.
  intros [] (Hb & Hf & Hi) Hq Hd. split; try done; try setoid_rewrite Hf; try rewrite Hi; try done.
  congruence.
Qed.

Section Frame.
Context (done : list (Task T)) (b c : T).

(** Updates of the pool, totals, peaks and logs do not touch the timeline. *)
Ltac frame := intros ? []; by split.

Lemma time_emit k t i a :
  keeps (Timeline done b c) (emit chain snapshots memory_trace_on ref_starts k t i a).
Proof. unfold emit, emit_memory_trace. keeps_tac; apply keeps_modify; frame. Qed.
Lemma time_emit_transfer k t i oid d :
  keeps (Timeline done b c) (emit_transfer chain snapshots memory_trace_on ref_starts k t i oid d).
Proof. apply time_emit. Qed.
Lemma time_set_state k st : keeps (Timeline done b c) (set_state k st).
Proof. unfold set_state. keeps_tac; apply keeps_modify; frame. Qed.
Lemma time_add_total l z : keeps (Timeline done b c) (add_total l z).
Proof. unfold add_total. keeps_tac; apply keeps_modify; frame. Qed.
Hint Resolve time_emit time_emit_transfer time_set_state time_add_total : keeps.

Lemma time_settle d oid : keeps (Timeline done b c) (settle d oid).
Proof. unfold settle. keeps_tac; apply keeps_modify; frame. Qed.
Lemma time_allocate d tx e : keeps (Timeline done b c) (allocate_dst d tx e).
Proof. unfold allocate_dst. keeps_tac; apply keeps_modify; frame. Qed.
Lemma time_reserve_task task : keeps (Timeline done b c) (reserve_task chain task).
Proof.
  unfold reserve_task, check_backing_outputs, reserve_outputs, reserve_output, check_committed.
  keeps_tac; apply keeps_modify; frame.
Qed.
Lemma time_finish task i t :
  keeps (Timeline done b c) (finish_outputs chain snapshots memory_trace_on ref_starts task i t).
Proof. unfold finish_outputs. keeps_tac. apply keeps_modify; frame. Qed.
Lemma time_releases task i t :
  keeps (Timeline done b c) (do_releases chain snapshots memory_trace_on ref_starts task i t).
Proof. unfold do_releases, release_one. keeps_tac; apply keeps_modify; frame. Qed.

Lemma time_enqueue d tx :
  num_zero ⊑ q_runtime tx →
  keeps (E:=SimError) (Timeline done b c) (modify (λ s, set_queue d (queue d s ++ [tx]) s)).
Proof.
  intros Htx. apply keeps_modify. intros s Hs. eapply Timeline_same; [done|..].
  - done.
  - intros d'. pose proof (tl_queue _ _ _ _ Hs d') as Hq.
    destruct d, d'; simpl in *; try done; apply Forall_app; (split; [done|by apply Forall_singleton]).
  - apply Hs.
Qed.

Lemma time_activate oid t i :
  keeps (Timeline done b c) (activate_waiters chain snapshots memory_trace_on ref_starts oid t i).
Proof.
  intros s Hs. unfold activate_waiters. wp_auto.
  assert (rt_ok (default [] (deferred_prefetches s !! oid))) as Hw.
  { destruct (deferred_prefetches s !! oid) as [q|] eqn:Hd; [|by apply Forall_nil].
    by apply (tl_deferred _ _ _ _ Hs oid). }
  assert (Timeline done b c (set_deferred (delete oid (deferred_prefetches s)) s)) as Hs1.
  { eapply Timeline_same; [exact Hs|done|apply Hs|]. by apply map_Forall_delete, Hs. }
  revert Hs1. generalize (set_deferred (delete oid (deferred_prefetches s)) s). apply keeps_forM.
  intros tx Htx. unfold rt_ok in Hw. rewrite Forall_forall in Hw.
  apply keeps_bind; [|auto with keeps]. apply (time_enqueue from_slow). by apply Hw.
Qed.
End Frame.
#[local] Hint Resolve time_emit time_emit_transfer time_set_state time_add_total time_settle
  time_allocate time_reserve_task time_finish time_releases time_activate : keeps.

(** ** Starting and completing transfers *)
Lemma track_ivs_app tr (l1 l2 : list (TaskInterval T)) :
  track_ivs tr (l1 ++ l2) = track_ivs tr l1 ++ track_ivs tr l2.
Proof. apply filter_app. Qed.

Lemma sequential_snoc ivs (iv : TaskInterval T) :
  sequential ivs → (∀ iv', iv' ∈ ivs → iv_end iv' ⊑ iv_start iv) → sequential (ivs ++ [iv]).
Proof.
  induction 1 as [|x l Hl IH Hx]; intros Hiv; simpl; [repeat constructor|].
  constructor; [apply IH; set_solver|]. apply Forall_app. split; [done|].
  apply Forall_singleton. apply Hiv. set_solver.
Qed.

Lemma track_ivs_snoc tr ivs (iv : TaskInterval T) :
  track_ivs tr (ivs ++ [iv]) = if decide (iv_track iv = tr) then track_ivs tr ivs ++ [iv] else track_ivs tr ivs.
Proof.
  rewrite track_ivs_app. unfold track_ivs at 2. rewrite filter_cons. case_decide; [done|].
  by rewrite app_nil_r.
Qed.

(** A new bar on an idle stream. *)
Lemma Timeline_start done b c s d now tx name :
  Timeline done b c s → in_flight d s = None → c ⊑ now → num_zero ⊑ q_runtime tx →
  Timeline done b c
    (set_intervals (intervals s ++ [mkInterval name now (now + q_runtime tx)%num (track_of d)])
      (set_in_flight d (Some (mkInFlight (q_obj tx) d (q_src_size tx) now (now + q_runtime tx)%num)) s)).
Proof.
  intros [Hb Hf Hq Hd Hs Hp Hc Hbars Hpos Hst] Hidle Hnow Hrt.
  assert (c ⊑ (now + q_runtime tx)%num) as Hend.
  { eapply num_leb_trans; [exact Hnow|]. by apply num_add_nonneg. }
  split; simpl; try done.
  - intros d' f Hf'. destruct d, d'; simpl in Hf'; simplify_eq;
      first [done|by apply (Hf from_slow)|by apply (Hf to_slow)].
  - intros tr. rewrite track_ivs_snoc. case_decide as Htr; [|done]. simpl in Htr. subst tr.
    apply sequential_snoc; [done|]. intros iv Hiv; simpl.
    destruct (Hp d iv Hiv) as [Hle|(f & Hf' & _)]; [by eapply num_leb_trans|congruence].
  - intros d' iv. rewrite track_ivs_snoc. simpl. case_decide as Htr.
    + injection Htr as <-. intros [Hiv|Hiv]%elem_of_app.
      * left. destruct (Hp d iv Hiv) as [Hle|(f & Hf' & _)]; [done|congruence].
      * apply list_elem_of_singleton in Hiv as ->. right. eexists. split; [by destruct d|done].
    + intros Hiv. destruct (Hp d' iv Hiv) as [Hle|(f & Hf' & He)]; [by left|right].
      exists f. split; [|done]. destruct d, d'; done.
  - intros iv. rewrite track_ivs_snoc. case_decide; [done|]. apply Hc.
  - rewrite track_ivs_snoc. case_decide; [done|]. apply Hbars.
  - intros iv. rewrite track_ivs_snoc. case_decide; [done|]. apply Hst.
Qed.

Lemma time_try_start done b c d now i :
  c ⊑ now →
  keeps (Timeline done b c) (try_start chain snapshots memory_trace_on ref_starts d now i).
Proof.
  intros Hnow s Hs. unfold try_start. apply wp_get_bind.
  destruct (in_flight d s) eqn:Hf; [done|]. destruct (queue d s) as [|tx rest] eqn:Hq; [done|].
  destruct (head_fits chain d tx s); [|done]. unfold start_transfer. apply wp_modify_bind.
  pose proof (tl_queue _ _ _ _ Hs d) as Hrt. rewrite Hq in Hrt. apply Forall_cons in Hrt as [Htx Hrest].
  assert (Timeline done b c (set_queue d rest s)) as Hs1.
  { eapply Timeline_same; [exact Hs|done| |apply Hs]. intros d'.
    pose proof (tl_queue _ _ _ _ Hs d'). by destruct d, d'. }
  apply wp_bind. eapply (wp_mono _ _ (λ _ s', Timeline done b c s' ∧ in_flight d s' = None) _ (λ _ _, True));
    [|clear s Hs Hf Hq Hs1|done].
  - eapply wp_and; [by apply time_allocate|]. instantiate (1 := λ _ _, True).
    unfold allocate_dst, set_state, add_total. wp_auto; try done; by destruct d.
  - intros _ s [Hs Hf]. unfold record_start. wp_auto. apply time_emit_transfer.
    destruct (Timeline_start done b c s d now tx (transfer_name d (q_obj tx) (default 0%nat (transfer_seq s !! (d, q_obj tx)))) Hs Hf Hnow Htx).
    by split.
Qed.

Lemma time_complete done b c d i s f :
  Timeline done b c s → in_flight d s = Some f →
  (∀ d' g, in_flight d' s = Some g → fl_end_t f ⊑ fl_end_t g) →
  wp (complete chain snapshots memory_trace_on ref_starts d (fl_end_t f) i) s
    (λ _, Timeline done b (fl_end_t f)) (λ _ _, True).
Proof.
  intros Hs Hf Hmin. unfold complete. apply wp_get_bind. rewrite Hf. apply wp_bind.
  assert (c ⊑ fl_end_t f) as Hc by by eapply tl_flight.
  eapply (wp_mono _ _ (λ _ s', Timeline done b c s' ∧ (∀ d, in_flight d s' = in_flight d s)) _ (λ _ _, True));
    [|intros _ s' [Hs' Hfl]|done].
  { eapply wp_and; [by apply time_settle|]. instantiate (1 := λ _ _, True).
    unfold settle, set_state, add_total. wp_auto; try done; by intros []. }
  apply wp_modify_bind.
  assert (Timeline done b (fl_end_t f) (set_in_flight d None s')) as Hs1.
  { destruct Hs' as [Hb Hf' Hq Hd Hseq Hp Hcb Hbars Hpos Hst]. split; simpl; try done.
    - intros d' g Hg. apply (Hmin d'). rewrite <-Hfl. by destruct d, d'.
    - intros d' iv Hiv. destruct (Hp d' iv Hiv) as [Hle|(g & Hg & He)].
      + left. by eapply num_leb_trans.
      + destruct (decide (d' = d)) as [->|Hne]; [left|right].
        * rewrite Hfl, Hf in Hg. injection Hg as <-. rewrite He. apply num_leb_refl.
        * exists g. split; [|done]. by destruct d, d'. }
  revert Hs1. generalize (set_in_flight d None s'). clear. intros s1 Hs1.
  revert s1 Hs1. change (keeps (Timeline done b (fl_end_t f)) (
    emit_transfer chain snapshots memory_trace_on ref_starts transfer_end (fl_end_t f) i (fl_obj f) d ;;
    match d with
    | from_slow => mret tt
    | to_slow => activate_waiters chain snapshots memory_trace_on ref_starts (fl_obj f) (fl_end_t f) i
    end)). keeps_tac.
Qed.

Definition next_end_t s : T := num_min (end_or_inf (fl_from s)) (end_or_inf (fl_to s)).

Lemma next_end_flight s d f : in_flight d s = Some f → next_end_t s ⊑ fl_end_t f.
Proof.
  unfold next_end_t. destruct d; simpl; intros ->; simpl; [apply num_min_l|apply num_min_r].
Qed.

(** The next completion happens at [next_end_t] and moves the clock there. *)
Lemma time_complete_next done b c i s :
  Timeline done b c s →
  wp (complete_next chain snapshots memory_trace_on ref_starts i) s
    (λ _, Timeline done b (next_end_t s)) (λ _ _, True).
Proof.
  intros Hs. pose proof (next_end_flight s) as Hmin. unfold complete_next. apply wp_get_bind.
  unfold next_end_t, num_min in *. rewrite num_ltb_leb in *.
  destruct (end_or_inf (fl_from s) <=? end_or_inf (fl_to s))%num; simpl in Hmin |- *; apply wp_bind.
  - destruct (fl_from s) as [f|] eqn:Hf; [|unfold complete; apply wp_get_bind; simpl; by rewrite Hf].
    eapply wp_mono; [by eapply (time_complete done b c from_slow)| |done].
    intros []. apply time_try_start, num_leb_refl.
  - destruct (fl_to s) as [f|] eqn:Hf; [|unfold complete; apply wp_get_bind; simpl; by rewrite Hf].
    eapply wp_mono; [by eapply (time_complete done b c to_slow)| |done].
    intros []. apply keeps_bind; [|intros _]; apply time_try_start, num_leb_refl.
Qed.

Lemma time_advance done b c t i :
  c ⊑ t →
  triple (Timeline done b c) (advance chain snapshots memory_trace_on ref_starts t i)
    (λ _, Timeline done b t) (λ _ _, True).
Proof.
  intros Ht s Hs. unfold advance. apply wp_get_bind. generalize (S (measure s)) as fuel. intros fuel.
  revert c s Ht Hs. induction fuel as [|fuel IH]; intros c s Ht Hs; simpl; [done|]. apply wp_get_bind.
  change (num_min _ _) with (next_end_t s). destruct (t <? next_end_t s)%num eqn:Hlt.
  - apply wp_ret. destruct Hs as [Hb Hf Hq Hd Hseq Hp Hcb Hbars]. split; try done.
    + intros d f Hdf. eapply num_leb_trans; [by apply num_ltb_weaken|]. by eapply next_end_flight.
    + intros d iv Hiv. destruct (Hp d iv Hiv) as [Hle|?]; [left|by right]. by eapply num_leb_trans.
  - apply wp_bind. eapply wp_mono; [by eapply time_complete_next| |done].
    intros [] s' Hs'. apply (IH _ s') in Hs'; [done|]. by apply num_ltb_false.
Qed.

Lemma next_end_after done b c s :
  Timeline done b c s → (next_end_t s =? num_inf)%num = false → c ⊑ next_end_t s.
Proof.
  intros Hs Hne. unfold next_end_t, num_min in *.
  assert (∀ d, c ⊑ end_or_inf (in_flight d s) ∨ end_or_inf (in_flight d s) = num_inf) as Hd.
  { intros d. destruct (in_flight d s) as [f|] eqn:Hf; [left; by eapply tl_flight|by right]. }
  assert ((num_inf =? num_inf)%num = true) as Hinf by by rewrite num_eqb_leb, num_leb_refl.
  pose proof (Hd from_slow) as Hfr. pose proof (Hd to_slow) as Hto. simpl in Hfr, Hto.
  case_match; [destruct Hto as [?|Heq]|destruct Hfr as [?|Heq]]; try done; rewrite Heq in Hne; congruence.
Qed.

Lemma time_drain done b task i t :
  triple (Timeline done b t) (drain chain snapshots memory_trace_on ref_starts task i t)
    (λ r s, t ⊑ r ∧ Timeline done b r s) (λ _ _, True).
Proof.
  intros s Hs. unfold drain. apply wp_get_bind. generalize (S (measure s)) as fuel. intros fuel.
  revert t s Hs. induction fuel as [|fuel IH]; intros t s Hs; simpl; [done|]. apply wp_get_bind.
  destruct (ready_to_run chain task s); [apply wp_ret; split; [apply num_leb_refl|done]|].
  eapply wp_call_bind; [apply time_try_start, num_leb_refl|exact Hs|intros [] s1 Hs1].
  eapply wp_call_bind; [apply time_try_start, num_leb_refl|exact Hs1|intros [] s2 Hs2]. apply wp_get_bind.
  change (num_min _ _) with (next_end_t s2). destruct (next_end_t s2 =? num_inf)%num eqn:Hne; [done|].
  pose proof (next_end_after _ _ _ _ Hs2 Hne) as Hle.
  eapply wp_call_bind; [by apply time_advance|exact Hs2|intros [] s3 Hs3].
  eapply wp_mono; [by apply IH| |done]. intros r s' [Hr Hs']. split; [|done]. by eapply num_leb_trans.
Qed.

(** ** Tasks *)
Lemma earliest_start_after task s t :
  earliest_start chain task s = Ok t → compute_busy_until s ⊑ t.
Proof.
  unfold earliest_start. intros (t1 & Hfold & Hrest)%result_bind_ok.
  assert (compute_busy_until s ⊑ t1) as Ht1.
  { refine (foldR_ok_inv _ (λ _ a, compute_busy_until s ⊑ a) _ _ _ 0 Hfold (num_leb_refl _) _).
    intros j x a a' _ Ha (r & _ & [= <-])%result_bind_ok. eapply num_leb_trans; [done|apply num_max_l]. }
  destruct (0 <? reservation_size task); [|by injection Hrest as <-].
  apply result_bind_ok in Hrest as (r & _ & [= <-]). eapply num_leb_trans; [done|apply num_max_l].
Qed.

Lemma transfer_runtime_nonneg d z o r : transfer_runtime chain d z o = Ok r → num_zero ⊑ r.
Proof.
  unfold transfer_runtime. intros Hr. repeat case_match; simplify_eq;
    first [apply num_max_r|apply num_of_Z_mono; lia].
Qed.

Lemma keeps_lift_bind {S E A B} (I : S → Prop) (r : result E A) (f : A → M S E B) :
  (∀ a, r = Ok a → keeps I (f a)) → keeps I (lift r ≫= f).
Proof. intros Hf s Hs. apply wp_lift_bind; [|done]. intros a Ha. by apply (Hf a Ha). Qed.

Lemma time_offload done b c task i t trig :
  keeps (Timeline done b c) (offload_one chain snapshots memory_trace_on ref_starts task i t trig).
Proof.
  unfold offload_one. apply keeps_get_bind. intros s _. case_match; [|auto with keeps].
  apply keeps_bind; [auto with keeps|intros _]. apply keeps_bind; [by keeps_tac|intros _].
  apply keeps_lift_bind. intros rt Hrt. apply transfer_runtime_nonneg in Hrt. keeps_tac.
  by apply (time_enqueue _ _ _ to_slow).
Qed.

Lemma time_prefetch done b c task i t trig :
  keeps (Timeline done b c) (prefetch_one chain snapshots memory_trace_on ref_starts task i t trig).
Proof.
  unfold prefetch_one. apply keeps_get_bind. intros s _. apply keeps_bind; [auto with keeps|intros _].
  case_match; case_match; try solve [auto with keeps].
  - apply keeps_lift_bind. intros rt Hrt. apply transfer_runtime_nonneg in Hrt. keeps_tac.
    apply keeps_modify. intros s' Hs'. eapply Timeline_same; [exact Hs'|done|apply Hs'|].
    apply map_Forall_insert_2; [|apply Hs']. apply Forall_app. split; [|by apply Forall_singleton].
    destruct (deferred_prefetches s' !! trig_obj trig) as [q|] eqn:Hq; [|by apply Forall_nil].
    by apply (tl_deferred _ _ _ _ Hs' (trig_obj trig)).
  - apply keeps_bind; [auto with keeps|intros _].
    apply keeps_lift_bind. intros rt Hrt. apply transfer_runtime_nonneg in Hrt. keeps_tac.
    by apply (time_enqueue _ _ _ from_slow).
Qed.

Lemma time_start_task done b task i start :
  b ⊑ start → num_zero ⊑ runtime task →
  triple (Timeline done b start) (start_task chain snapshots memory_trace_on ref_starts task i start)
    (λ e s, e = (start + runtime task)%num ∧ Timeline (done ++ [task]) e start s) (λ _ _, True).
Proof.
  intros Hb Hrt s [Hbusy Hf Hq Hd Hseq Hp Hc Hbars Hpos Hst]. unfold start_task. wp_auto.
  set (iv := mkInterval (task_id task) start (start + runtime task)%num track_compute).
  eapply wp_call_bind; [apply (time_emit (done ++ [task]) (start + runtime task)%num start)| |
    intros [] s' Hs'; by apply wp_ret].
  assert (start ⊑ (start + runtime task)%num) as Hend by by apply num_add_nonneg.
  split; simpl; try done; fold iv.
  - intros tr. rewrite track_ivs_snoc. case_decide as Htr; [|done]. apply sequential_snoc; [done|].
    subst tr. intros iv' Hiv'. eapply num_leb_trans; [by apply Hc|done].
  - intros d iv'. rewrite track_ivs_snoc. case_decide; [done|]. apply Hp.
  - intros iv'. rewrite track_ivs_snoc. case_decide; [|done].
    intros [Hiv|Hiv]%elem_of_app; [|apply list_elem_of_singleton in Hiv as ->; apply num_leb_refl].
    eapply num_leb_trans; [by apply Hc|]. by eapply num_leb_trans.
  - rewrite track_ivs_snoc. case_decide; [|done]. apply Forall2_app; [done|]. by repeat constructor.
  - eapply num_leb_trans; [exact Hpos|]. by eapply num_leb_trans.
  - intros iv'. rewrite track_ivs_snoc. case_decide; [|done].
    intros [Hiv|Hiv]%elem_of_app; [by apply Hst|]. apply list_elem_of_singleton in Hiv as ->. by eapply num_leb_trans.
Qed.

Lemma time_finish_task done b e task i :
  keeps (Timeline done b e) (finish_task chain snapshots memory_trace_on ref_starts i task e).
Proof.
  unfold finish_task. keeps_tac;
    first [apply time_offload|apply time_prefetch|apply time_try_start, num_leb_refl].
Qed.

(** Between tasks the clock stands at the end of the last one. *)
Definition settled (done : list (Task T)) s : Prop := Timeline done (compute_busy_until s) (compute_busy_until s) s.

Lemma time_run_task done task i :
  num_zero ⊑ runtime task →
  triple (settled done) (run_task chain snapshots memory_trace_on ref_starts i task)
    (λ _, settled (done ++ [task])) (λ _ _, True).
Proof.
  intros Hrt s Hs. unfold settled in Hs. set (b := compute_busy_until s) in Hs. unfold run_task.
  apply wp_get_bind. apply wp_lift_bind; [|done]. intros target Ht%earliest_start_after.
  eapply wp_call_bind; [by apply time_advance|exact Hs|intros [] s1 Hs1].
  eapply wp_call_bind; [apply time_drain|exact Hs1|intros start s2 [Hstart Hs2]].
  eapply wp_call_bind; [apply time_reserve_task|exact Hs2|intros [] s3 Hs3].
  eapply wp_call_bind; [apply time_start_task; [|done]|exact Hs3|intros e s4 [-> Hs4]].
  { by eapply num_leb_trans. }
  set (e := (start + runtime task)%num) in *.
  eapply wp_call_bind; [apply (time_advance (done ++ [task]) e start e); by apply num_add_nonneg|exact Hs4|intros [] s5 Hs5].
  eapply wp_mono; [by apply time_finish_task|intros [] s' Hs'|done].
  unfold settled. assert (compute_busy_until s' = e) as -> by apply Hs'. done.
Qed.

Lemma time_run_body s0 :
  runtimes_nonneg chain → settled [] s0 →
  wp (run_body chain snapshots memory_trace_on ref_starts) s0
    (λ _ s, bars_of (track_ivs track_compute (intervals s)) (tasks chain) ∧
            (∀ tr, sequential (track_ivs tr (intervals s))) ∧
            ∀ iv, iv ∈ track_ivs track_compute (intervals s) → num_zero ⊑ iv_start iv) (λ _ _, True).
Proof.
  intros Hrt Hs0. unfold run_body, check_stuck.
  eapply wp_call_bind; [apply (triple_forI_count (λ k, settled (take k (tasks chain))))|
    by rewrite take_0|intros [] s Hs].
  { intros j task Hj. simpl. rewrite (take_S_r _ _ _ Hj). apply time_run_task.
    unfold runtimes_nonneg in Hrt. rewrite Forall_forall in Hrt. apply Hrt, list_elem_of_lookup. eauto. }
  simpl in Hs. rewrite firstn_all in Hs. unfold settled in Hs.
  assert (∀ fuel c s, Timeline (tasks chain) (compute_busy_until s) c s →
    wp (final_drain_loop chain snapshots memory_trace_on ref_starts fuel) s
      (λ _ s', ∃ b c, Timeline (tasks chain) b c s') (λ _ _, True)) as Hdrain.
  { clear s Hs s0 Hs0. intros fuel. induction fuel as [|fuel IH]; intros c s Hs; simpl; [done|].
    assert (wp (complete_next chain snapshots memory_trace_on ref_starts (length (tasks chain)) ;;
      final_drain_loop chain snapshots memory_trace_on ref_starts fuel) s
      (λ _ s', ∃ b c, Timeline (tasks chain) b c s') (λ _ _, True)).
    { apply wp_bind. eapply wp_mono; [by eapply time_complete_next| |done]. intros [] s' Hs'.
      eapply IH. by rewrite (tl_busy _ _ _ _ Hs'). }
    apply wp_get_bind. destruct (fl_from s), (fl_to s); try done. apply wp_ret. eauto. }
  unfold final_drain. wp_auto. apply wp_bind. eapply wp_mono; [by eapply Hdrain| |done].
  intros [] s' (b & c & Hs'). wp_auto; [|done]. split_and!; apply Hs'.
Qed.
End Time.

Section RunTime.
Context {T : Type} `{NumLaws T}.

(** Everything the log says of time is consistent with three single-server
    resources. *)
Definition timeline_ok (chain : TaskChain T) (log : EventLog T) : Prop :=
  bars_of (track_ivs track_compute (task_intervals log)) (tasks chain) ∧
  (∀ tr, sequential (track_ivs tr (task_intervals log))) ∧
  ∀ iv, iv ∈ track_ivs track_compute (task_intervals log) → num_leb num_zero (iv_start iv) = true.

Lemma run_impl_timeline (chain : TaskChain T) starts sn mt log :
  runtimes_nonneg chain → run_impl chain starts sn mt = Ok log → timeline_ok chain log.
Proof.
  intros Hok. unfold run_impl. rewrite result_bind_ok. intros (s0 & Hs0 & Hrun).
  unfold start_state in Hs0. rewrite result_bind_ok in Hs0. destruct Hs0 as ([p [f b]] & _ & Hs0).
  apply result_bind_ok in Hs0 as (u & _ & [= <-]).
  set (rs := if sn then _ else _) in Hrun.
  pose proof (time_run_body chain sn mt rs (initial_sim p f b) Hok) as Hwp. unfold wp in Hwp.
  destruct (run_body _ _ _ _ _) as [[[]|e] s]; [|done]. injection Hrun as <-. apply Hwp.
  split; simpl; try done.
  - by intros [].
  - intros []; apply Forall_nil_2.
  - intros tr. apply SSorted_nil.
  - intros d iv Hiv; by apply elem_of_nil in Hiv.
  - intros iv Hiv; by apply elem_of_nil in Hiv.
  - apply Forall2_nil_2.
  - apply num_leb_refl.
  - intros iv Hiv; by apply elem_of_nil in Hiv.
Qed.

Lemma run_ok_timeline (chain : TaskChain T) validate sn mt log :
  runtimes_nonneg chain → run chain validate sn mt = Ok log → timeline_ok chain log.
Proof.
  intros Hok. unfold run. rewrite result_bind_ok. intros (u & _ & Hrun).
  destruct sn; [|by eapply run_impl_timeline].
  rewrite result_bind_ok in Hrun. destruct Hrun as (first & _ & Hrun). by eapply run_impl_timeline.
Qed.

(** C18: The simulator schedules compute and the two transfer streams as
    single-server FIFO resources: in every log it returns, the compute bars are
    the tasks in chain order, each exactly its runtime long, and on each
    of the three tracks no bar starts before every earlier bar of the track
    has ended; compute starts no earlier than time 0. *)
Theorem run_timeline (chain : TaskChain T) validate sn mt log :
  runtimes_nonneg chain → run chain validate sn mt = Ok log → timeline_ok chain log.
Proof. apply run_ok_timeline. Qed.
End RunTime.

Lemma run_timeline_witness :
  runtimes_nonneg writeback_chain ∧
  ∃ log, run writeback_chain true false true = Ok log ∧ timeline_ok writeback_chain log.
Proof.
  assert (runtimes_nonneg writeback_chain) as Hok by (repeat constructor).
  split; [exact Hok|].
  destruct (run writeback_chain true false true) as [log|e] eqn:Hrun.
  - exists log. split; [reflexivity|]. exact (run_timeline writeback_chain true false true log Hok Hrun).
  - exfalso. revert Hrun. vm_compute. discriminate.
Defined.
