(* ===== verification/SimulatorObs.v ===== *)
(** * Observing a run does not change it

    [run] simulates twice: a bare pass finds the actual start times, and a
    second pass with snapshots on reruns with them.  The two passes agree
    ([erase] forgets the recorded events and trace points), and the
    [task_start] snapshots show every input of the task live in fast memory. *)
From S2P Require Import Prelude SimSchema SimRefStream SimValidate SimVersions Simulator.
From stdpp Require Import base tactics option list gmap strings pretty fin_maps.
From Stdlib Require Import ZArith Lia.
Open Scope Z_scope.

Section Lockstep.
Context {T : Type} `{Num T}.
Variable chain : TaskChain T.
Variable sn mt : bool.
Variable rs rs' : gmap string T.
Implicit Types s : Sim T.

(** The state without what observation adds to it. *)
Definition erase s : Sim T := set_points [] (set_events [] s).
Definition same_run s1 s2 : Prop := erase s1 = erase s2.

(** Reads and writes that ignore the recordings. *)
Lemma lockstep_get_erase {B} (f1 f2 : Sim T → M (Sim T) SimError B) :
  (∀ s, f2 s = f2 (erase s)) → (∀ s, lockstep same_run (f1 s) (f2 s)) →
  lockstep same_run (get ≫= f1) (get ≫= f2).
Proof.
  intros He Hf. apply lockstep_get. intros s1 s2 HR.
  rewrite (He s2), <-HR, <-(He s1). apply Hf.
Qed.
Lemma lockstep_modify_erase (f : Sim T → Sim T) :
  (∀ s, erase (f s) = erase (f (erase s))) →
  lockstep (E:=SimError) same_run (modify f) (modify f).
Proof.
  intros He. apply lockstep_modify. intros s1 s2 HR. unfold same_run in *.
  by rewrite (He s1), (He s2), HR.
Qed.
Lemma lockstep_gets_erase {A} (f : Sim T → A) :
  (∀ s, f s = f (erase s)) → lockstep (E:=SimError) same_run (gets f) (gets f).
Proof. intros He. apply lockstep_gets. intros s1 s2 HR. by rewrite (He s1), (He s2), HR. Qed.

Create HintDb lockstep discriminated.
Ltac lock :=
  repeat match goal with
  | |- ∀ _, _ => intros ?
  | |- lockstep _ (get ≫= _) (get ≫= _) => apply lockstep_get_erase; [reflexivity|]
  | |- lockstep _ (_ ≫= _) (_ ≫= _) => apply lockstep_bind
  | |- lockstep _ (when _ _) (when _ _) => apply lockstep_when
  | |- lockstep _ (forM_ _ _) (forM_ _ _) => apply lockstep_forM
  | |- lockstep _ (mret _) (mret _) => apply lockstep_ret
  | |- lockstep _ (raise _) _ => apply lockstep_raise
  | |- lockstep _ (lift _) (lift _) => apply lockstep_lift
  | |- lockstep _ (check _ _) (check _ _) => apply lockstep_check
  | |- lockstep _ (gets _) (gets _) => apply lockstep_gets_erase; reflexivity
  | |- lockstep _ (modify _) (modify _) => apply lockstep_modify_erase; reflexivity
  | |- lockstep _ (match ?c with _ => _ end) _ => destruct c
  | |- lockstep _ _ _ => solve [eauto with lockstep nocore]
  end.

(** A step that only records is invisible. *)
Lemma lockstep_emit k t i a :
  lockstep same_run (emit chain sn mt rs k t i a) (emit chain false false rs' k t i a).
Proof.
  unfold emit. apply lockstep_bind; [lock|intros _].
  intros s1 s2 b s1' HR (u & s3 & H1 & H2)%bind_ok. exists s2. split; [by destruct b|].
  assert (erase s3 = erase s1) as E1.
  { revert H1. unfold emit_memory_trace, when. destruct mt; [|by intros [= _ <-]].
    intros (x & s4 & [= <- <-] & (bands & s5 & [= Hb <-] & Hp)%bind_ok)%bind_ok.
    destruct (last (memory_points s1)); [destruct ((_ =? t)%num && _)|]; by injection Hp as _ <-. }
  assert (erase s1' = erase s3) as E2.
  { revert H2. unfold when. destruct sn; [|by intros [= _ <-]].
    intros (x & s4 & [= <- <-] & (snap & s5 & [= Hb <-] & [= _ <-])%bind_ok)%bind_ok. done. }
  unfold same_run in *. congruence.
Qed.
Hint Resolve lockstep_emit : lockstep.
Lemma lockstep_emit_transfer k t i oid d :
  lockstep same_run (emit_transfer chain sn mt rs k t i oid d) (emit_transfer chain false false rs' k t i oid d).
Proof. apply lockstep_emit. Qed.
Lemma lockstep_set_state k st : lockstep same_run (set_state (T:=T) k st) (set_state k st).
Proof. unfold set_state. lock. Qed.
Lemma lockstep_add_total l z : lockstep same_run (add_total (T:=T) l z) (add_total l z).
Proof. unfold add_total. lock. Qed.
Hint Resolve lockstep_emit_transfer lockstep_set_state lockstep_add_total : lockstep.

Lemma lockstep_try_start d now i :
  lockstep same_run (try_start chain sn mt rs d now i) (try_start chain false false rs' d now i).
Proof. unfold try_start, start_transfer, allocate_dst, record_start. lock. Qed.
Hint Resolve lockstep_try_start : lockstep.

Lemma lockstep_complete d t i :
  lockstep same_run (complete chain sn mt rs d t i) (complete chain false false rs' d t i).
Proof. unfold complete, settle, activate_waiters. lock. Qed.
Hint Resolve lockstep_complete : lockstep.

Lemma lockstep_complete_next i :
  lockstep same_run (complete_next chain sn mt rs i) (complete_next chain false false rs' i).
Proof. unfold complete_next. lock. Qed.
Hint Resolve lockstep_complete_next : lockstep.

Lemma lockstep_advance t i :
  lockstep same_run (advance chain sn mt rs t i) (advance chain false false rs' t i).
Proof.
  unfold advance. lock. generalize (S (measure s)) as fuel. intros fuel.
  induction fuel as [|fuel IH]; simpl; lock.
Qed.
Hint Resolve lockstep_advance : lockstep.

Lemma lockstep_drain task i t :
  lockstep same_run (drain chain sn mt rs task i t) (drain chain false false rs' task i t).
Proof.
  unfold drain. lock. generalize (S (measure s)) as fuel. intros fuel. revert t.
  induction fuel as [|fuel IH]; intros t; simpl; lock.
Qed.

Lemma lockstep_final_drain :
  lockstep same_run (final_drain chain sn mt rs) (final_drain chain false false rs').
Proof.
  unfold final_drain. lock. generalize (S (measure s)) as fuel. intros fuel.
  induction fuel as [|fuel IH]; simpl; lock.
Qed.

Lemma lockstep_reserve_task task :
  lockstep same_run (reserve_task chain task) (reserve_task chain task).
Proof.
  unfold reserve_task, check_backing_outputs, reserve_outputs, reserve_output, check_committed. lock.
Qed.
Hint Resolve lockstep_drain lockstep_final_drain lockstep_reserve_task : lockstep.

Lemma lockstep_finish_task i task t :
  lockstep same_run (finish_task chain sn mt rs i task t) (finish_task chain false false rs' i task t).
Proof.
  unfold finish_task, finish_outputs, do_releases, release_one, offload_one, prefetch_one. lock.
Qed.
Hint Resolve lockstep_finish_task : lockstep.

Lemma lockstep_run_body :
  lockstep same_run (run_body chain sn mt rs) (run_body chain false false rs').
Proof.
  unfold run_body, check_stuck. lock. apply lockstep_forI. intros j task.
  unfold run_task, start_task. lock.
Qed.
End Lockstep.

(** The part of a log that does not depend on what was observed. *)
Definition schedule_of {T} (log : EventLog T) : list (TaskInterval T) * Z * Z :=
  (task_intervals log, peak_fast_memory_bytes log, peak_backing_memory_bytes log).

Section TwoPass.
Context {T : Type} `{Num T}.

Lemma run_impl_unobserved (chain : TaskChain T) starts sn mt log :
  run_impl chain starts sn mt = Ok log →
  ∃ bare, run_impl chain None false false = Ok bare ∧ schedule_of bare = schedule_of log.
Proof.
  unfold run_impl. rewrite result_bind_ok. intros (s0 & Hs0 & Hrun).
  destruct (run_body _ _ _ _ s0) as [[[]|e] s] eqn:Hb; [|done]. injection Hrun as <-.
  destruct (lockstep_run_body _ _ _ _ ∅ s0 s0 () s eq_refl Hb) as (s' & Hb' & HR).
  rewrite Hs0. simpl. rewrite Hb'. eexists. split; [done|].
  unfold same_run, erase in HR. unfold schedule_of, event_log; simpl.
  injection HR. intros. congruence.
Qed.

End TwoPass.


(** ** Tasks start on live inputs *)
Section Reads.
Context {T : Type} `{Num T}.
Variable chain : TaskChain T.

(** The snapshot shows every input of the task live in fast memory. *)
Definition shows_inputs_live (snap : Snapshot T) (task : Task T) : Prop :=
  ∀ inp, inp ∈ inputs task →
  ∃ m, m ∈ snap_memory snap ∧ me_id m = inp ∧ me_location m = Fast ∧ me_state m = live.

Definition start_ok (ev : Event T) : Prop :=
  ev_kind ev = task_start →
  ∃ task, task ∈ tasks chain ∧ ev_task_id ev = Some (task_id task) ∧
          shows_inputs_live (ev_snapshot ev) task.

Variable sn mt : bool.
Variable rs : gmap string T.
Implicit Types s : Sim T.

Definition Reads s : Prop := Forall start_ok (sim_events s).

Lemma reads_emit k t i a : k ≠ task_start → keeps Reads (emit chain sn mt rs k t i a).
Proof.
  intros Hk s Hs. unfold emit, emit_memory_trace. wp_auto; try done;
    apply Forall_app; (split; [done|]); apply Forall_singleton; intros Hk'; by destruct Hk.
Qed.
Lemma reads_emit_transfer k t i oid d :
  k ≠ task_start → keeps Reads (emit_transfer chain sn mt rs k t i oid d).
Proof. apply reads_emit. Qed.

Ltac reads := keeps_tac; match goal with
  | |- keeps _ (modify _) => by apply keeps_modify; intros ? ?
  | |- keeps _ (emit_transfer _ _ _ _ _ _ _ _ _) => by apply reads_emit_transfer
  | |- keeps _ (emit _ _ _ _ _ _ _ _) => by apply reads_emit
  end.

Lemma reads_set_state k st : keeps Reads (set_state k st).
Proof. unfold set_state. reads. Qed.
Lemma reads_add_total l z : keeps Reads (add_total l z).
Proof. unfold add_total. reads. Qed.
Hint Resolve reads_set_state reads_add_total : keeps.
Lemma reads_try_start d now i : keeps Reads (try_start chain sn mt rs d now i).
Proof. unfold try_start, start_transfer, allocate_dst, record_start. reads. Qed.
Lemma reads_complete d t i : keeps Reads (complete chain sn mt rs d t i).
Proof. unfold complete, settle, activate_waiters. reads. Qed.
Hint Resolve reads_try_start reads_complete : keeps.
Lemma reads_complete_next i : keeps Reads (complete_next chain sn mt rs i).
Proof. unfold complete_next. keeps_tac. Qed.
Hint Resolve reads_complete_next : keeps.
Lemma reads_advance t i : keeps Reads (advance chain sn mt rs t i).
Proof.
  unfold advance. keeps_tac. generalize (S (measure s)) as fuel. intros fuel.
  induction fuel as [|fuel IH]; simpl; keeps_tac; done.
Qed.
Hint Resolve reads_advance : keeps.
Lemma reads_final_drain : keeps Reads (final_drain chain sn mt rs).
Proof.
  unfold final_drain. keeps_tac. generalize (S (measure s)) as fuel. intros fuel.
  induction fuel as [|fuel IH]; simpl; keeps_tac; done.
Qed.
Lemma reads_finish_outputs task i t : keeps Reads (finish_outputs chain sn mt rs task i t).
Proof. unfold finish_outputs. reads. Qed.
Lemma reads_do_releases task i t : keeps Reads (do_releases chain sn mt rs task i t).
Proof. unfold do_releases, release_one. reads. Qed.
Lemma reads_offload_one task i t trig : keeps Reads (offload_one chain sn mt rs task i t trig).
Proof. unfold offload_one. reads. Qed.
Lemma reads_prefetch_one task i t trig : keeps Reads (prefetch_one chain sn mt rs task i t trig).
Proof. unfold prefetch_one. reads. Qed.
Hint Resolve reads_finish_outputs reads_do_releases reads_offload_one reads_prefetch_one : keeps.
Lemma reads_finish_task i task t : keeps Reads (finish_task chain sn mt rs i task t).
Proof. unfold finish_task. keeps_tac. Qed.
Hint Resolve reads_final_drain reads_finish_task : keeps.

Definition inputs_live (task : Task T) s : Prop := forallb (input_live s) (inputs task) = true.

(** The drain returns only when the inputs are live. *)
Lemma reads_drain task i t :
  triple Reads (drain chain sn mt rs task i t) (λ _ s, Reads s ∧ inputs_live task s) (λ _ _, True).
Proof.
  intros s Hs. unfold drain. apply wp_get_bind. generalize (S (measure s)) as fuel. intros fuel.
  revert t s Hs. induction fuel as [|fuel IH]; intros t s Hs; simpl; [done|]. apply wp_get_bind.
  destruct (ready_to_run chain task s) eqn:Hr.
  { apply wp_ret. split; [done|]. by apply andb_true_iff in Hr as [? _]. }
  eapply wp_call_bind; [apply reads_try_start|exact Hs|intros [] s1 Hs1].
  eapply wp_call_bind; [apply reads_try_start|exact Hs1|intros [] s2 Hs2]. wp_auto; [done|].
  eapply wp_call_bind; [apply reads_advance|exact Hs2|intros [] s3 Hs3]. by apply IH.
Qed.

(** Reserving outputs adds entries; the live ones stay. *)
Lemma inputs_live_add task s s' k e :
  inputs_live task s → pool s !! k = None → pool s' = <[k := e]> (pool s) → inputs_live task s'.
Proof.
  unfold inputs_live, input_live. rewrite !forallb_forall. intros Hl Hk Hp i Hi.
  specialize (Hl i Hi). rewrite Hp.
  destruct (decide (k = (i, Fast))) as [->|Hne]; [by rewrite Hk in Hl|by rewrite lookup_insert_ne].
Qed.

Lemma reads_reserve task task' :
  keeps (λ s, Reads s ∧ inputs_live task s) (reserve_task chain task').
Proof.
  unfold reserve_task, check_backing_outputs, reserve_outputs, check_committed. keeps_tac.
  - by apply keeps_modify.
  - clear. intros s' Hs'. unfold reserve_output, add_total. wp_auto; try done.
    all: destruct Hs' as [Hr Hl]; split; [done|]; by eapply inputs_live_add.
Qed.

Lemma snapshot_shows_live p a rem (starts : gmap string T) snap oid e :
  snapshot_of p a rem starts = Ok snap → p !! (oid, Fast) = Some e → pe_state e = live →
  ∃ m, m ∈ snap_memory snap ∧ me_id m = oid ∧ me_location m = Fast ∧ me_state m = live.
Proof.
  unfold snapshot_of. destruct (compute_reference_stream rem starts) as [refs|]; [|done].
  intros [= <-] He Hl. eexists. split; [|split_and!].
  - simpl. apply elem_of_py_sorted, list_elem_of_fmap. exists ((oid, Fast), e).
    split; [reflexivity|]. by apply elem_of_map_to_list.
  - done.
  - done.
  - done.
Qed.

Lemma reads_start task i t :
  task ∈ tasks chain →
  triple (λ s, Reads s ∧ inputs_live task s) (start_task chain sn mt rs task i t)
    (λ _, Reads) (λ _ _, True).
Proof.
  intros Ht s [Hs Hl]. unfold start_task, emit, emit_memory_trace. wp_auto; try done.
  all: apply Forall_app; split; [done|]; apply Forall_singleton; intros _; exists task;
    split_and!; [done|done|]; intros inp Hin; unfold inputs_live in Hl; rewrite forallb_forall in Hl;
    apply list_elem_of_In in Hin; specialize (Hl inp Hin); unfold input_live in Hl;
    destruct (pool s !! (inp, Fast)) as [e|] eqn:He; [|done];
    (eapply snapshot_shows_live; [eassumption|exact He|]); by destruct (pe_state e).
Qed.

Lemma reads_run_body : keeps Reads (run_body chain sn mt rs).
Proof.
  unfold run_body, check_stuck. keeps_tac. apply keeps_forI. intros j task Hj.
  apply list_elem_of_lookup_2 in Hj. intros s0 Hs0. unfold run_task. apply wp_get_bind.
  apply wp_lift_bind; [|done]. intros target _.
  eapply wp_call_bind; [apply reads_advance|exact Hs0|intros [] s1 Hs1].
  eapply wp_call_bind; [apply reads_drain|exact Hs1|intros start s2 Hs2].
  eapply wp_call_bind; [apply reads_reserve|exact Hs2|intros [] s3 Hs3].
  eapply wp_call_bind; [by apply reads_start|exact Hs3|intros e s4 Hs4].
  eapply wp_call_bind; [apply reads_advance|exact Hs4|intros [] s5 Hs5].
  by apply reads_finish_task.
Qed.
End Reads.

Section RunReads.
Context {T : Type} `{Num T}.

(** C20: A task never starts before its inputs are there: in every log, the
    snapshot of each [task_start] event shows all inputs of the started task
    live in fast memory. *)
Theorem run_starts_on_live_inputs (chain : TaskChain T) validate sn mt log :
  run chain validate sn mt = Ok log → Forall (start_ok chain) (events log).
Proof.
  assert (∀ starts sn log, run_impl chain starts sn mt = Ok log → Forall (start_ok chain) (events log)) as Himpl.
  { clear. intros starts sn log. unfold run_impl, start_state.
    intros (s0 & ([p [f b]] & _ & (u & _ & [= <-])%result_bind_ok)%result_bind_ok & Hrun)%result_bind_ok.
    destruct (run_body _ _ _ _ _) as [[[]|e] s] eqn:Hb; [|done]. injection Hrun as <-.
    eapply keeps_run in Hb; [exact Hb|apply reads_run_body|by apply Forall_nil]. }
  unfold run. intros (u & _ & Hrun)%result_bind_ok. destruct sn; [|by eapply Himpl].
  apply result_bind_ok in Hrun as (first & _ & Hrun). by eapply Himpl.
Qed.
End RunReads.

Lemma run_starts_on_live_inputs_witness :
  ∃ log, run writeback_chain true true false = Ok log ∧ Forall (start_ok writeback_chain) (events log).
Proof.
  destruct (run writeback_chain true true false) as [log|e] eqn:Hrun.
  - exists log. split; [reflexivity|].
    exact (run_starts_on_live_inputs writeback_chain true true false log Hrun).
  - exfalso. revert Hrun. vm_compute. discriminate.
Defined.

(** ** Names of timeline bars *)

(** ["a"] is fetched twice, the object called ["a#1"] once. *)
Definition hash_chain : TaskChain Z :=
  mkChain
    [mkObject "a" 1 Backing "weight"; mkObject "a#1" 1 Backing "weight"]
    [mkTask "t0" [] [] 1 0 [] [] [mkTrigger "a" None; mkTrigger "a#1" None] [];
     mkTask "t1" ["a"; "a#1"] [] 1 0 ["a"] [] [] [];
     mkTask "t2" [] [] 1 0 [] [] [mkTrigger "a" None] [];
     mkTask "t3" ["a"] [] 1 0 [] [] [] []]
    [] None None (Some 1) (Some 1).

(** Transfer bars of a valid chain can share their id, although the [#N]
    suffix is there to keep them distinct: the second fetch of ["a"] is
    named like the first fetch of the object ["a#1"]. *)
Theorem transfer_bar_names_collide :
  ∃ log, run hash_chain true false false = Ok log ∧
  ∃ i j b c, i ≠ j ∧ task_intervals log !! i = Some b ∧ task_intervals log !! j = Some c ∧
    iv_track b = track_of from_slow ∧ iv_track c = track_of from_slow ∧ iv_id b = iv_id c.
Proof.
  eexists. split; [vm_compute; reflexivity|].
  eexists 2%nat, 5%nat, _, _. split; [done|]. vm_compute. done.
Qed.
