(* ===== verification/CoreProgram.v ===== *)
(** * The program IR ([dataflow/core/types.py], [dataflow/core/program.py])

    Locations are the simulator's strings ([SimSchema.Location]); roles and
    dtypes are strings that validation checks.  [Mapping] fields are dicts:
    their items in insertion order.  Values of type [Any] are JSON values. *)
From S2P Require Import Prelude SimSchema.
From stdpp Require Import base option list gmap strings.
From Stdlib Require Import ZArith Lia.
Open Scope Z_scope.

(** ** Scalars *)
Definition ROLES : list string :=
  ["parameter"; "gradient"; "optimizer_state"; "activation"; "input"; "output"; "temp"; "other"].

Definition DTYPE_BITS : gmap string Z :=
  list_to_map [("fp64", 64); ("fp32", 32); ("tf32", 32); ("fp16", 16); ("bf16", 16);
    ("fp8_e4m3", 8); ("fp8_e5m2", 8); ("fp4", 4); ("int64", 64); ("int32", 32); ("int16", 16);
    ("int8", 8); ("uint8", 8); ("bool", 8)]%string.

(** [math.prod]. *)
Definition prodZ (l : list Z) : Z := foldl Z.mul 1 l.

Inductive DtypeError := unknown_dtype (dtype : string).

Definition dtype_nbytes (shape : list Z) (dtype : string) : result DtypeError Z :=
  match DTYPE_BITS !! dtype with
  | None => Err (unknown_dtype dtype)
  | Some bits => Ok ((prodZ shape * bits + 7) / 8)
  end.

Record TensorMeta := mkTensor {
  tm_dtype : option string;
  tm_shape : option (list Z);
  tm_strides : option (list Z);
}.

(** [TensorMeta.nbytes]: [None] where the size is not checked. *)
Definition nbytes (t : TensorMeta) : result DtypeError (option Z) :=
  match tm_dtype t, tm_shape t with
  | Some dtype, Some shape =>
      match tm_strides t with
      | Some _ => Ok None
      | None => n ← dtype_nbytes shape dtype; Ok (Some n)
      end
  | _, _ => Ok None
  end.

(** ** JSON values *)
Inductive json (T : Type) :=
| JNull
| JBool (b : bool)
| JInt (z : Z)
| JFloat (f : T)
| JStr (s : string)
| JList (l : list (json T))
| JDict (d : list (string * json T)).
Arguments JNull {T}.
Arguments JBool {T} b.
Arguments JInt {T} z.
Arguments JFloat {T} f.
Arguments JStr {T} s.
Arguments JList {T} l.
Arguments JDict {T} d.

(** ** Objects, tasks, programs *)
Record ObjectSpec := mkObjectSpec {
  os_id : string;
  os_size_bytes : Z;
  os_location : Location;
  os_role : string;
  os_tensor : option TensorMeta;
  os_persistent : bool;
}.

Record OutputSpec := mkOutputSpec {
  ous_id : string;
  ous_size_bytes : Z;
  ous_location : Location;
  ous_role : string;
  ous_tensor : option TensorMeta;
}.

Record TransferDirective (T : Type) := mkDirective {
  td_object_id : string;
  td_runtime_us : option T;
}.
Arguments mkDirective {T}.
Arguments td_object_id {T}.
Arguments td_runtime_us {T}.

Record TaskSpec (T : Type) := mkTaskSpec {
  ts_id : string;
  ts_inputs : list string;
  ts_outputs : list OutputSpec;
  ts_mutates : list string;
  ts_runtime_us : T;
  ts_workspace_bytes : Z;
  ts_group : string;
  ts_compute_block_key : option string;
  ts_block_params : list (string * json T);
  ts_comm_groups : list (string * json T);
  ts_releases_after : list string;
  ts_offload_after : list (TransferDirective T);
  ts_prefetch_after : list (TransferDirective T);
  ts_label : option string;
  ts_metadata : list (string * json T);
  ts_host : bool;
}.
Arguments mkTaskSpec {T}.
Arguments ts_id {T}.
Arguments ts_inputs {T}.
Arguments ts_outputs {T}.
Arguments ts_mutates {T}.
Arguments ts_runtime_us {T}.
Arguments ts_workspace_bytes {T}.
Arguments ts_group {T}.
Arguments ts_compute_block_key {T}.
Arguments ts_block_params {T}.
Arguments ts_comm_groups {T}.
Arguments ts_releases_after {T}.
Arguments ts_offload_after {T}.
Arguments ts_prefetch_after {T}.
Arguments ts_label {T}.
Arguments ts_metadata {T}.
Arguments ts_host {T}.

(** [TaskSpec.with_directives]: [None] keeps a field. *)
Definition with_directives {T} (t : TaskSpec T) (releases : option (list string))
    (offload prefetch : option (list (TransferDirective T))) : TaskSpec T :=
  mkTaskSpec (ts_id t) (ts_inputs t) (ts_outputs t) (ts_mutates t) (ts_runtime_us t)
    (ts_workspace_bytes t) (ts_group t) (ts_compute_block_key t) (ts_block_params t)
    (ts_comm_groups t)
    (default (ts_releases_after t) releases)
    (default (ts_offload_after t) offload)
    (default (ts_prefetch_after t) prefetch)
    (ts_label t) (ts_metadata t) (ts_host t).

Record RecomputeOption (T : Type) := mkOption {
  ro_level : Z;
  ro_saved_bytes : Z;
  ro_recompute_us : T;
  ro_label : string;
}.
Arguments mkOption {T}.
Arguments ro_level {T}.
Arguments ro_saved_bytes {T}.
Arguments ro_recompute_us {T}.
Arguments ro_label {T}.

Record RecomputeRewrite (T : Type) := mkRewrite {
  rw_object_id : string;
  rw_f_task_id : string;
  rw_r_task_id : string;
  rw_options : list (RecomputeOption T);
  rw_f_compute_block_key : string;
  rw_r_compute_block_key : string;
  rw_group_key : string;
}.
Arguments mkRewrite {T}.
Arguments rw_object_id {T}.
Arguments rw_f_task_id {T}.
Arguments rw_r_task_id {T}.
Arguments rw_options {T}.
Arguments rw_f_compute_block_key {T}.
Arguments rw_r_compute_block_key {T}.
Arguments rw_group_key {T}.

Definition SCHEMA_VERSION : string := "dataflow-rt/v1".

Record Program (T : Type) := mkProgram {
  p_name : string;
  p_initial_objects : list ObjectSpec;
  p_tasks : list (TaskSpec T);
  p_final_locations : list (string * Location);
  p_fast_memory_capacity : option Z;
  p_backing_memory_capacity : option Z;
  p_bandwidth_from_slow : option Z;
  p_bandwidth_to_slow : option Z;
  p_recompute_rewrites : list (RecomputeRewrite T);
  p_metadata : list (string * json T);
  p_schema_version : string;
}.
Arguments mkProgram {T}.
Arguments p_name {T}.
Arguments p_initial_objects {T}.
Arguments p_tasks {T}.
Arguments p_final_locations {T}.
Arguments p_fast_memory_capacity {T}.
Arguments p_backing_memory_capacity {T}.
Arguments p_bandwidth_from_slow {T}.
Arguments p_bandwidth_to_slow {T}.
Arguments p_recompute_rewrites {T}.
Arguments p_metadata {T}.
Arguments p_schema_version {T}.

(** ** Lookups *)
Section Lookups.
Context {T : Type}.
Implicit Types p : Program T.

Definition object_sizes p : gmap string Z :=
  foldl (λ sizes t, foldl (λ m o, <[ous_id o := ous_size_bytes o]> m) sizes (ts_outputs t))
    (foldl (λ m o, <[os_id o := os_size_bytes o]> m) ∅ (p_initial_objects p)) (p_tasks p).

Definition producers p : gmap string string :=
  foldl (λ prod t, foldl (λ m o, <[ous_id o := ts_id t]> m) prod (ts_outputs t)) ∅ (p_tasks p).

Definition task_by_id p : gmap string (TaskSpec T) :=
  foldl (λ m t, <[ts_id t := t]> m) ∅ (p_tasks p).

Definition is_annotated p : bool :=
  existsb (λ t, negb (bool_decide (ts_releases_after t = [])) ||
                negb (bool_decide (length (ts_offload_after t) = 0%nat)) ||
                negb (bool_decide (length (ts_prefetch_after t) = 0%nat))) (p_tasks p).
End Lookups.
