(* ===== verification/CoreValidate.v ===== *)
(** * Structural validation of programs ([dataflow/core/validate.py])

    [validate_program] collects every problem ([Problem]) and raises them
    together.  One path escapes the collection: [TensorMeta.nbytes] raises on
    an unknown dtype, so a dense tensor of unknown dtype aborts the validation
    with that exception instead. *)
From S2P Require Import Prelude SimSchema CoreProgram.
From stdpp Require Import base tactics option list gmap strings sets sorting.
From Stdlib Require Import ZArith Lia.
Open Scope Z_scope.

Inductive Problem :=
| empty_name
| duplicate_initial (oid : string) (l : Location)
| inconsistent_initial (oid : string)
| bad_size (where_ : string) (size : Z)
| bad_location (where_ : string) (l : Location)
| bad_role (where_ : string) (role : string)
| bad_dtype (where_ : string) (dtype : string)
| size_mismatch (where_ : string) (size expected : Z)
| bad_comm_group (tid purpose : string)
| duplicate_task (tid : string)
| negative_runtime (tid : string)
| negative_workspace_bytes (tid : string)
| missing_input (tid oid : string)
| late_input (tid oid : string) (at_ : Z)
| duplicate_inputs (tid : string)
| mutates_non_input (tid oid : string)
| output_collides (tid oid : string) (at_ : Z)
| releases_twice (tid oid : string)
| releases_unknown (tid oid : string)
| offloads_twice (tid oid : string)
| offloads_unknown (tid oid : string)
| offload_negative (tid oid : string)
| prefetches_twice (tid oid : string)
| prefetches_unknown (tid oid : string)
| prefetch_negative (tid oid : string)
| released_and_offloaded (tid : string)
| released_and_prefetched (tid : string)
| unknown_final (oid : string)
| bad_final_location (oid : string) (l : Location)
| nonpositive_setting (name : string) (value : Z)
| needs_bandwidth_from_slow
| needs_bandwidth_to_slow
| no_options (oid : string)
| first_level_nonzero (oid : string) (level : Z)
| levels_not_ascending (oid : string)
| no_such_rewrite_task (oid : string).

(** [if c: err(p)]. *)
Definition err_if (c : bool) (p : Problem) : list Problem := if c then [p] else [].

(** [ValidationError(errors)], or the [ValueError] of an unknown dtype. *)
Inductive ProgramError :=
| Invalid (problems : list Problem)
| NbytesError (e : DtypeError).

Abbreviation Problems := (result DtypeError (list Problem)).

(** [errors.extend] of two parts in sequence, either of which may raise. *)
Definition also (a b : Problems) : Problems := x ← a; y ← b; Ok (x ++ y).
Arguments also : simpl never.
Infix "+++" := also (at level 60, right associativity).

(** [for x in l: ...] collecting problems. *)
Definition each {A} (f : A → Problems) (l : list A) : Problems :=
  foldr (λ x r, f x +++ r) (Ok []) l.

Definition check_object (where_ : string) (size : Z) (l : Location) (role : string)
    (tensor : option TensorMeta) : Problems :=
  Ok (err_if (size <? 1) (bad_size where_ size) ++
      err_if (negb (loc_known l)) (bad_location where_ l) ++
      err_if (negb (bool_decide (role ∈ ROLES))) (bad_role where_ role)) +++
  match tensor with
  | None => Ok []
  | Some t =>
      Ok (match tm_dtype t with
          | Some d => err_if (negb (bool_decide (is_Some (DTYPE_BITS !! d)))) (bad_dtype where_ d)
          | None => []
          end) +++
      (expected ← nbytes t;
       Ok (match expected with
           | Some n => err_if (negb (n =? size)) (size_mismatch where_ size n)
           | None => []
           end))
  end.

Section Validate.
Context {T : Type} `{Num T}.
Implicit Types (p : Program T) (task : TaskSpec T).

(** The loop over the initial objects: the problems of each, given the keys
    seen and the last size and role per id. *)
Fixpoint check_initial (seen : gset (string * Location)) (by_id : gmap string (Z * string))
    (objs : list ObjectSpec) : Problems :=
  match objs with
  | [] => Ok []
  | o :: objs =>
      let key := (os_id o, os_location o) in
      let sr := (os_size_bytes o, os_role o) in
      Ok (err_if (bool_decide (key ∈ seen)) (duplicate_initial (os_id o) (os_location o)) ++
          match by_id !! os_id o with
          | Some prior => err_if (negb (bool_decide (prior = sr))) (inconsistent_initial (os_id o))
          | None => []
          end) +++
      check_object (os_id o) (os_size_bytes o) (os_location o) (os_role o) (os_tensor o) +++
      check_initial ({[key]} ∪ seen) (<[os_id o := sr]> by_id) objs
  end.

Definition initial_created (objs : list ObjectSpec) : gmap string Z :=
  foldl (λ m o, <[os_id o := (-1)]> m) ∅ objs.

(** [isinstance(name, str) and name]. *)
Definition nonempty_str (j : json T) : bool :=
  match j with JStr s => negb (bool_decide (s = ""%string)) | _ => false end.

Definition check_comm task : list Problem :=
  ts_comm_groups task ≫= λ '(purpose, name),
    err_if (negb (negb (bool_decide (purpose = ""%string)) && nonempty_str name))
      (bad_comm_group (ts_id task) purpose).

Definition check_inputs (idx : Z) (created : gmap string Z) task : list Problem :=
  ts_inputs task ≫= λ inp,
    match created !! inp with
    | None => [missing_input (ts_id task) inp]
    | Some at_ => err_if (idx <=? at_) (late_input (ts_id task) inp at_)
    end.

(** [len(set(l)) != len(l)]. *)
Definition has_dup (l : list string) : bool := negb (bool_decide (NoDup l)).

(** The loop over the outputs: problems, and [created_at] afterwards. *)
Fixpoint check_outs (idx : Z) (tid : string) (created : gmap string Z) (outs : list OutputSpec) :
    Problems * gmap string Z :=
  match outs with
  | [] => (Ok [], created)
  | o :: outs =>
      let '(here, created') :=
        match created !! ous_id o with
        | Some at_ => ([output_collides tid (ous_id o) at_], created)
        | None => ([], <[ous_id o := idx]> created)
        end in
      let '(rest, created'') := check_outs idx tid created' outs in
      (Ok here +++
       check_object (ous_id o) (ous_size_bytes o) (ous_location o) (ous_role o) (ous_tensor o) +++
       rest, created'')
  end.

Definition known_by_now (idx : Z) (created : gmap string Z) (oid : string) : bool :=
  match created !! oid with Some at_ => at_ <=? idx | None => false end.

(** [for x in l: if x in seen: err(twice); seen.add(x); more(x)]. *)
Fixpoint check_each (seen : gset string) (twice : string → Problem)
    (more : string → option T → list Problem) (l : list (string * option T)) : list Problem :=
  match l with
  | [] => []
  | (x, rt) :: l =>
      err_if (bool_decide (x ∈ seen)) (twice x) ++ more x rt ++
      check_each ({[x]} ∪ seen) twice more l
  end.

Definition directive_ids (l : list (TransferDirective T)) : list string := td_object_id <$> l.
Definition directive_pairs (l : list (TransferDirective T)) : list (string * option T) :=
  (λ d, (td_object_id d, td_runtime_us d)) <$> l.

Definition negative_override (rt : option T) : bool :=
  match rt with Some r => (r <? num_zero)%num | None => false end.

Definition check_directives (idx : Z) (created : gmap string Z) task : list Problem :=
  let tid := ts_id task in
  let unknown x := negb (known_by_now idx created x) in
  check_each ∅ (releases_twice tid) (λ x _, err_if (unknown x) (releases_unknown tid x))
    ((λ x, (x, None)) <$> ts_releases_after task) ++
  check_each ∅ (offloads_twice tid)
    (λ x rt, err_if (unknown x) (offloads_unknown tid x) ++
             err_if (negative_override rt) (offload_negative tid x))
    (directive_pairs (ts_offload_after task)) ++
  check_each ∅ (prefetches_twice tid)
    (λ x rt, err_if (unknown x) (prefetches_unknown tid x) ++
             err_if (negative_override rt) (prefetch_negative tid x))
    (directive_pairs (ts_prefetch_after task)) ++
  err_if (existsb (λ x, bool_decide (x ∈ directive_ids (ts_offload_after task))) (ts_releases_after task))
    (released_and_offloaded tid) ++
  err_if (existsb (λ x, bool_decide (x ∈ directive_ids (ts_prefetch_after task))) (ts_releases_after task))
    (released_and_prefetched tid).

(** One iteration of the task loop: problems and the next [created_at]. *)
Definition check_task (idx : Z) (created : gmap string Z) (task_ids : gset string) task :
    Problems * gmap string Z :=
  let tid := ts_id task in
  let '(outs, created') := check_outs idx tid created (ts_outputs task) in
  (Ok (check_comm task ++
       err_if (bool_decide (tid ∈ task_ids)) (duplicate_task tid) ++
       err_if (ts_runtime_us task <? num_zero)%num (negative_runtime tid) ++
       err_if (ts_workspace_bytes task <? 0) (negative_workspace_bytes tid) ++
       check_inputs idx created task ++
       err_if (has_dup (ts_inputs task)) (duplicate_inputs tid) ++
       (ts_mutates task ≫= λ m,
          err_if (negb (bool_decide (m ∈ ts_inputs task))) (mutates_non_input tid m))) +++
   outs +++
   Ok (check_directives idx created' task), created').

Fixpoint check_tasks (idx : Z) (created : gmap string Z) (task_ids : gset string)
    (ts : list (TaskSpec T)) : Problems * gmap string Z :=
  match ts with
  | [] => (Ok [], created)
  | t :: ts =>
      let '(here, created') := check_task idx created task_ids t in
      let '(rest, created'') := check_tasks (idx + 1) created' ({[ts_id t]} ∪ task_ids) ts in
      (here +++ rest, created'')
  end.

Definition check_finals (created : gmap string Z) p : list Problem :=
  p_final_locations p ≫= λ '(oid, loc),
    err_if (negb (bool_decide (is_Some (created !! oid)))) (unknown_final oid) ++
    err_if (negb (loc_known loc)) (bad_final_location oid loc).

Definition check_positive (name : string) (v : option Z) : list Problem :=
  match v with Some v => err_if (v <=? 0) (nonpositive_setting name v) | None => [] end.

Definition check_settings p : list Problem :=
  check_positive "fast_memory_capacity" (p_fast_memory_capacity p) ++
  check_positive "backing_memory_capacity" (p_backing_memory_capacity p) ++
  check_positive "bandwidth_from_slow" (p_bandwidth_from_slow p) ++
  check_positive "bandwidth_to_slow" (p_bandwidth_to_slow p).

(** [any(trig.runtime_us is None for t in tasks for trig in ...)]. *)
Definition needs_bandwidth (f : TaskSpec T → list (TransferDirective T)) p : bool :=
  existsb (λ t, existsb (λ d, bool_decide (td_runtime_us d = None)) (f t)) (p_tasks p).

Definition check_bandwidth p : list Problem :=
  err_if (needs_bandwidth ts_prefetch_after p && bool_decide (p_bandwidth_from_slow p = None))
    needs_bandwidth_from_slow ++
  err_if (needs_bandwidth ts_offload_after p && bool_decide (p_bandwidth_to_slow p = None))
    needs_bandwidth_to_slow.

Definition check_rewrite (task_ids : gset string) (rw : RecomputeRewrite T) : list Problem :=
  match rw_options rw with
  | [] => [no_options (rw_object_id rw)]
  | o :: _ =>
      let levels := ro_level <$> rw_options rw in
      err_if (negb (ro_level o =? 0)) (first_level_nonzero (rw_object_id rw) (ro_level o)) ++
      err_if (negb (bool_decide (levels = py_sorted Z.leb levels)) ||
              negb (bool_decide (NoDup levels))) (levels_not_ascending (rw_object_id rw)) ++
      err_if (negb (bool_decide (rw_f_task_id rw ∈ task_ids)) &&
              negb (bool_decide (rw_r_task_id rw ∈ task_ids))) (no_such_rewrite_task (rw_object_id rw))
  end.

Definition problems p : Problems :=
  let '(tasks, created) := check_tasks 0 (initial_created (p_initial_objects p)) ∅ (p_tasks p) in
  Ok (err_if (bool_decide (p_name p = ""%string)) empty_name) +++
  check_initial ∅ ∅ (p_initial_objects p) +++
  tasks +++
  Ok (check_finals created p ++ check_settings p ++ check_bandwidth p ++
      (p_recompute_rewrites p ≫= check_rewrite (list_to_set (ts_id <$> p_tasks p)))).

Definition validate_program p : result ProgramError unit :=
  match problems p with
  | Err e => Err (NbytesError e)
  | Ok [] => Ok tt
  | Ok errs => Err (Invalid errs)
  end.
End Validate.

(** ** No problem found *)
Lemma also_nil a b : a +++ b = Ok [] ↔ a = Ok [] ∧ b = Ok [].
Proof.
  unfold also. rewrite result_bind_ok. split.
  - intros (x & -> & (y & -> & [= [-> ->]%app_eq_nil])%result_bind_ok). done.
  - intros [-> ->]. by exists [].
Qed.
Lemma ok_nil (l : list Problem) : (Ok l : Problems) = Ok [] ↔ l = [].
Proof. split; [by intros [= ->]|by intros ->]. Qed.
Lemma err_if_nil c p : err_if c p = [] ↔ c = false.
Proof. by destruct c. Qed.
Lemma app_nil' (a b : list Problem) : a ++ b = [] ↔ a = [] ∧ b = [].
Proof. apply app_nil. Qed.
Lemma concat_nil {A} (f : A → list Problem) (l : list A) :
  l ≫= f = [] ↔ ∀ x, x ∈ l → f x = [].
Proof.
  induction l as [|x l IH]; simpl; [split; [by intros _ ? ?%elem_of_nil|done]|].
  rewrite app_nil', IH. split.
  - intros [Hx Hl] y [->|Hy]%elem_of_cons; auto.
  - intros Hf. split; [apply Hf, list_elem_of_here|]. intros y Hy. by apply Hf, list_elem_of_further.
Qed.
Lemma negb_decide (P : Prop) `{Decision P} : negb (bool_decide P) = false ↔ P.
Proof. rewrite negb_false_iff. apply bool_decide_eq_true. Qed.

Create HintDb problems discriminated.
#[export] Hint Rewrite also_nil ok_nil err_if_nil app_nil' @concat_nil : problems.
Ltac problems := autorewrite with problems.

(** ** What a well-formed program is *)
Definition tensor_ok (size : Z) (t : TensorMeta) : Prop :=
  ∀ d, tm_dtype t = Some d → ∃ bits, DTYPE_BITS !! d = Some bits ∧
  ∀ shape, tm_shape t = Some shape → tm_strides t = None →
  size = (prodZ shape * bits + 7) / 8.

Record object_ok (size : Z) (l : Location) (role : string) (tensor : option TensorMeta) : Prop := {
  ok_size : 1 ≤ size;
  ok_location : loc_known l = true;
  ok_role : role ∈ ROLES;
  ok_tensor : ∀ t, tensor = Some t → tensor_ok size t;
}.

Section Spec.
Context {T : Type} `{Num T}.
Implicit Types (p : Program T) (task : TaskSpec T).

Definition output_ids task : list string := ous_id <$> ts_outputs task.

(** Directives of one kind on one task: known ids, each once, no negative time. *)
Definition directives_ok (known : gset string) (l : list (TransferDirective T)) : Prop :=
  NoDup (directive_ids l) ∧
  ∀ d, d ∈ l → td_object_id d ∈ known ∧ ∀ r, td_runtime_us d = Some r → (r <? num_zero)%num = false.

(** [known]: the objects that exist before the task. *)
Record task_ok (known : gset string) task : Prop := {
  tk_comm : ∀ purpose name, (purpose, name) ∈ ts_comm_groups task →
    purpose ≠ ""%string ∧ ∃ s, name = JStr s ∧ s ≠ ""%string;
  tk_runtime : (ts_runtime_us task <? num_zero)%num = false;
  tk_workspace : 0 ≤ ts_workspace_bytes task;
  tk_inputs : ∀ i, i ∈ ts_inputs task → i ∈ known;
  tk_inputs_nodup : NoDup (ts_inputs task);
  tk_mutates : ∀ m, m ∈ ts_mutates task → m ∈ ts_inputs task;
  tk_outputs_nodup : NoDup (output_ids task);
  tk_outputs_fresh : ∀ o, o ∈ output_ids task → o ∉ known;
  tk_outputs : ∀ o, o ∈ ts_outputs task →
    object_ok (ous_size_bytes o) (ous_location o) (ous_role o) (ous_tensor o);
  tk_releases_nodup : NoDup (ts_releases_after task);
  tk_releases : ∀ r, r ∈ ts_releases_after task → r ∈ known ∪ list_to_set (output_ids task);
  tk_offload : directives_ok (known ∪ list_to_set (output_ids task)) (ts_offload_after task);
  tk_prefetch : directives_ok (known ∪ list_to_set (output_ids task)) (ts_prefetch_after task);
  tk_disjoint : ∀ r, r ∈ ts_releases_after task →
    r ∉ directive_ids (ts_offload_after task) ∧ r ∉ directive_ids (ts_prefetch_after task);
}.

(** Objects that exist before task [i]. *)
Definition objects_before p (i : nat) : gset string :=
  list_to_set (os_id <$> p_initial_objects p) ∪ list_to_set (take i (p_tasks p) ≫= output_ids).

Definition positive (v : option Z) : Prop := ∀ z, v = Some z → 0 < z.

Record rewrite_ok (ids : list string) (rw : RecomputeRewrite T) : Prop := {
  rk_first : ∃ o os, rw_options rw = o :: os ∧ ro_level o = 0;
  rk_levels : StronglySorted Z.lt (ro_level <$> rw_options rw);
  rk_task : rw_f_task_id rw ∈ ids ∨ rw_r_task_id rw ∈ ids;
}.

Record well_formed p : Prop := {
  wf_name : p_name p ≠ ""%string;
  wf_initial_nodup : NoDup ((λ o, (os_id o, os_location o)) <$> p_initial_objects p);
  wf_initial_consistent : ∀ o1 o2, o1 ∈ p_initial_objects p → o2 ∈ p_initial_objects p →
    os_id o1 = os_id o2 → (os_size_bytes o1, os_role o1) = (os_size_bytes o2, os_role o2);
  wf_initial_ok : ∀ o, o ∈ p_initial_objects p →
    object_ok (os_size_bytes o) (os_location o) (os_role o) (os_tensor o);
  wf_task_ids : NoDup (ts_id <$> p_tasks p);
  wf_tasks : ∀ i task, p_tasks p !! i = Some task → task_ok (objects_before p i) task;
  wf_finals : ∀ oid loc, (oid, loc) ∈ p_final_locations p →
    oid ∈ objects_before p (length (p_tasks p)) ∧ loc_known loc = true;
  wf_settings : positive (p_fast_memory_capacity p) ∧ positive (p_backing_memory_capacity p) ∧
    positive (p_bandwidth_from_slow p) ∧ positive (p_bandwidth_to_slow p);
  wf_from_slow : p_bandwidth_from_slow p = None → ∀ t d, t ∈ p_tasks p →
    d ∈ ts_prefetch_after t → td_runtime_us d ≠ None;
  wf_to_slow : p_bandwidth_to_slow p = None → ∀ t d, t ∈ p_tasks p →
    d ∈ ts_offload_after t → td_runtime_us d ≠ None;
  wf_rewrites : ∀ rw, rw ∈ p_recompute_rewrites p → rewrite_ok (ts_id <$> p_tasks p) rw;
}.
End Spec.

Lemma check_object_nil w size l role tensor :
  check_object w size l role tensor = Ok [] ↔ object_ok size l role tensor.
Proof.
  unfold check_object. problems. rewrite negb_false_iff, negb_decide, Z.ltb_ge.
  assert (∀ t, (Ok (match tm_dtype t with
          | Some d => err_if (negb (bool_decide (is_Some (DTYPE_BITS !! d)))) (bad_dtype w d)
          | None => [] end) +++
      (expected ← nbytes t; Ok (match expected with
           | Some n => err_if (negb (n =? size)) (size_mismatch w size n)
           | None => [] end)) : Problems) = Ok [] ↔ tensor_ok size t) as Ht.
  { intros t. problems. unfold tensor_ok, nbytes, dtype_nbytes. destruct (tm_dtype t) as [d|]; cbn -[DTYPE_BITS lookup bool_decide].
    2: { split; [|by intros _; split]. by intros _ d [=]. }
    problems. rewrite negb_decide. split.
    - intros [[bits Hb] Hrest] ? [= <-]. exists bits. split; [done|]. intros shape Hsh Hst.
      rewrite Hsh, Hst, Hb in Hrest. simpl in Hrest.
      rewrite ok_nil, err_if_nil, negb_false_iff, Z.eqb_eq in Hrest. done.
    - intros Hok. destruct (Hok d eq_refl) as (bits & Hb & Hsz). split; [by exists bits|].
      destruct (tm_shape t) as [shape|]; [|done]. destruct (tm_strides t); [done|].
      rewrite Hb. simpl. rewrite ok_nil, err_if_nil, negb_false_iff, Z.eqb_eq.
      symmetry. by apply Hsz. }
  split.
  - intros ((Hsz & Hl & Hr) & Hten). split; [lia|done|done|]. intros t ->. by apply Ht.
  - intros [Hsz Hl Hr Hten]. split_and!; [lia|done|done|]. destruct tensor as [t|]; [|done].
    by apply Ht, Hten.
Qed.

(** ** Each loop decides its part *)
Definition obj_key (o : ObjectSpec) : string * Location := (os_id o, os_location o).
Definition obj_sig (o : ObjectSpec) : Z * string := (os_size_bytes o, os_role o).

Lemma check_initial_nil seen by_id objs :
  check_initial seen by_id objs = Ok [] ↔
  NoDup (obj_key <$> objs) ∧ (∀ o, o ∈ objs → obj_key o ∉ seen) ∧
  (∀ o sr, o ∈ objs → by_id !! os_id o = Some sr → sr = obj_sig o) ∧
  (∀ o1 o2, o1 ∈ objs → o2 ∈ objs → os_id o1 = os_id o2 → obj_sig o1 = obj_sig o2) ∧
  (∀ o, o ∈ objs → object_ok (os_size_bytes o) (os_location o) (os_role o) (os_tensor o)).
Proof.
  revert seen by_id. induction objs as [|o objs IH]; intros seen by_id.
  { simpl. split; [|done]. intros _. split_and!; [constructor|..]; intros; set_solver. }
  cbn [check_initial]. problems. rewrite IH, check_object_nil. clear IH.
  rewrite bool_decide_eq_false, fmap_cons, NoDup_cons.
  assert (match by_id !! os_id o with
    | Some prior => err_if (negb (bool_decide (prior = (os_size_bytes o, os_role o)))) (inconsistent_initial (os_id o))
    | None => [] end = [] ↔ ∀ sr, by_id !! os_id o = Some sr → sr = obj_sig o) as ->.
  { destruct (by_id !! os_id o) as [sr|]; [|done]. rewrite err_if_nil, negb_decide. naive_solver. }
  split.
  - intros ((Hkey & Hid) & Hok & Hnd & Hseen & Hby & Hpair & Hoks). split_and!; try done.
    + intros (o' & Heq & Ho')%list_elem_of_fmap. apply (Hseen o' Ho'). rewrite <-Heq. set_solver.
    + intros o' [->|Ho']%elem_of_cons; [done|]. specialize (Hseen o' Ho'). set_solver.
    + intros o' sr [->|Ho']%elem_of_cons Hsr; [auto|].
      destruct (decide (os_id o' = os_id o)) as [Heq|Hne].
      * rewrite Heq in Hsr. rewrite (Hid sr Hsr). apply (Hby o' (obj_sig o) Ho').
        rewrite Heq. apply lookup_insert_eq.
      * apply (Hby o' sr Ho'). by rewrite lookup_insert_ne.
    + assert (∀ o', o' ∈ objs → os_id o' = os_id o → obj_sig o = obj_sig o') as Hho.
      { intros o' Ho' Heq. apply (Hby o' (obj_sig o) Ho'). rewrite Heq. apply lookup_insert_eq. }
      intros o1 o2 [->|H1]%elem_of_cons [->|H2]%elem_of_cons Heq; auto. symmetry. auto.
    + intros o' [->|Ho']%elem_of_cons; auto.
  - intros ((Hnin & Hnd) & Hseen & Hby & Hpair & Hoks). split_and!; try done.
    + apply Hseen, list_elem_of_here.
    + intros sr Hsr. apply (Hby o sr); [apply list_elem_of_here|done].
    + apply Hoks, list_elem_of_here.
    + intros o' Ho' [Heq%elem_of_singleton|Hin]%elem_of_union.
      * apply Hnin. change (obj_key o' = obj_key o) in Heq. rewrite <-Heq. by apply list_elem_of_fmap_2.
      * by apply (Hseen o'); [apply list_elem_of_further|].
    + intros o' sr Ho' Hsr. destruct (decide (os_id o' = os_id o)) as [Heq|Hne].
      * rewrite Heq, lookup_insert_eq in Hsr. injection Hsr as <-.
        apply Hpair; [apply list_elem_of_here|by apply list_elem_of_further|done].
      * rewrite lookup_insert_ne in Hsr by done. by apply (Hby o' sr); [apply list_elem_of_further|].
    + intros o1 o2 H1 H2. apply Hpair; by apply list_elem_of_further.
    + intros o' Ho'. by apply Hoks, list_elem_of_further.
Qed.

(** [created] records the ids of [known], none of them later than [idx]. *)
Definition records (created : gmap string Z) (known : gset string) (idx : Z) : Prop :=
  dom created = known ∧ map_Forall (λ _ at_, at_ ≤ idx) created.

Lemma initial_created_records objs :
  records (initial_created objs) (list_to_set (os_id <$> objs)) (-1).
Proof.
  unfold initial_created.
  assert (∀ m s, records m s (-1) →
    records (foldl (λ m o, <[os_id o := -1]> m) m objs) (s ∪ list_to_set (os_id <$> objs)) (-1)) as Hgen.
  { induction objs as [|o objs IH]; intros m s [Hd Hm]; simpl.
    - by rewrite (right_id_L ∅ (∪)).
    - rewrite (assoc_L (∪)). apply IH. split; [rewrite dom_insert_L, Hd; set_solver|].
      by apply map_Forall_insert_2. }
  specialize (Hgen ∅ ∅). rewrite (left_id_L ∅ (∪)) in Hgen. apply Hgen. split; [done|]. apply map_Forall_empty.
Qed.

Lemma records_later created known i j : records created known i → i ≤ j → records created known j.
Proof. intros [Hd Hm] Hij. split; [done|]. eapply map_Forall_impl; [exact Hm|]. simpl. lia. Qed.

Lemma check_outs_spec idx tid created known outs :
  records created known idx →
  let '(ps, created') := check_outs idx tid created outs in
  records created' (known ∪ list_to_set (ous_id <$> outs)) idx ∧
  (ps = Ok [] ↔ NoDup (ous_id <$> outs) ∧ (∀ o, o ∈ ous_id <$> outs → o ∉ known) ∧
    (∀ o, o ∈ outs → object_ok (ous_size_bytes o) (ous_location o) (ous_role o) (ous_tensor o))).
Proof.
  revert created known. induction outs as [|o outs IH]; intros created known [Hd Hm];
    [|rewrite fmap_cons, list_to_set_cons]; cbn [check_outs].
  { simpl. rewrite (right_id_L ∅ (∪)). split; [done|]. split; [|done]. intros _.
    split_and!; [constructor|intros; set_solver..]. }
  destruct (created !! ous_id o) as [at_|] eqn:Ho.
  - assert (ous_id o ∈ known) as Hk by (rewrite <-Hd; by apply elem_of_dom_2 in Ho).
    specialize (IH created known (conj Hd Hm)).
    destruct (check_outs idx tid created outs) as [ps created'] eqn:Hrest. destruct IH as [Hrec _].
    split; [by replace (known ∪ _) with (known ∪ list_to_set (ous_id <$> outs)) by set_solver|].
    problems. split; [intros [Hx _]; discriminate Hx|]. intros (_ & Hf & _).
    exfalso. by apply (Hf (ous_id o)); [apply list_elem_of_here|].
  - assert (ous_id o ∉ known) as Hk by (rewrite <-Hd; by apply not_elem_of_dom in Ho).
    specialize (IH (<[ous_id o := idx]> created) ({[ous_id o]} ∪ known)).
    destruct (check_outs idx tid (<[ous_id o:=idx]> created) outs) as [ps created'] eqn:Hrest.
    destruct IH as [Hrec Hps].
    { split; [by rewrite dom_insert_L, Hd|]. apply map_Forall_insert_2; [lia|done]. }
    split; [by replace (known ∪ _) with ({[ous_id o]} ∪ known ∪ list_to_set (ous_id <$> outs)) by set_solver|].
    problems. rewrite Hps, check_object_nil, NoDup_cons. clear Hps. split.
    + intros (_ & Hok & Hnd & Hf & Hoks). split_and!; [|done|..].
      * intros Hin. apply (Hf _ Hin). set_solver.
      * intros x [->|Hx]%elem_of_cons; [done|]. specialize (Hf x Hx). set_solver.
      * intros x [->|Hx]%elem_of_cons; auto.
    + intros ((Hnin & Hnd) & Hf & Hoks). split_and!; [done|apply Hoks, list_elem_of_here|done|..].
      * intros x Hx [->%elem_of_singleton|Hin]%elem_of_union; [done|].
        by apply (Hf x); [apply list_elem_of_further|].
      * intros x Hx. by apply Hoks, list_elem_of_further.
Qed.

Section Decide.
Context {T : Type} `{Num T}.
Implicit Types (p : Program T) (task : TaskSpec T).

Lemma check_each_nil seen twice (more : string → option T → list Problem) l :
  check_each seen twice more l = [] ↔
  NoDup l.*1 ∧ (∀ x, x ∈ l.*1 → x ∉ seen) ∧ (∀ x rt, (x, rt) ∈ l → more x rt = []).
Proof.
  revert seen. induction l as [|[x rt] l IH]; intros seen.
  { simpl. split; [|done]. intros _. split_and!; [constructor|intros; set_solver..]. }
  rewrite fmap_cons. cbn [check_each fst]. problems. rewrite IH, bool_decide_eq_false, NoDup_cons. clear IH.
  split.
  - intros (Hx & Hm & Hnd & Hs & Hmore). split_and!; [|done|..].
    + intros Hin. apply (Hs x Hin). set_solver.
    + intros y [->|Hy]%elem_of_cons; [done|]. specialize (Hs y Hy). set_solver.
    + intros y r [[= -> ->]|Hy]%elem_of_cons; auto.
  - intros ((Hnin & Hnd) & Hs & Hmore). split_and!; try done.
    + apply Hs, list_elem_of_here.
    + apply Hmore, list_elem_of_here.
    + intros y Hy [->%elem_of_singleton|Hin]%elem_of_union; [done|].
      by apply (Hs y); [apply list_elem_of_further|].
    + intros y r Hy. by apply Hmore, list_elem_of_further.
Qed.

Lemma known_by_now_spec created known idx x :
  records created known idx → negb (known_by_now idx created x) = false ↔ x ∈ known.
Proof.
  intros [<- Hm]. rewrite negb_false_iff, elem_of_dom. unfold known_by_now.
  destruct (created !! x) as [at_|] eqn:Hx; [|split; [done|by intros [? [=]]]].
  split; [eauto|]. intros _. apply Z.leb_le. exact (Hm x at_ Hx).
Qed.

Lemma directive_check_nil twice unk neg created known idx (l : list (TransferDirective T)) :
  records created known idx →
  check_each ∅ twice (λ x rt, err_if (negb (known_by_now idx created x)) (unk x) ++
                              err_if (negative_override rt) (neg x)) (directive_pairs l) = [] ↔
  directives_ok known l.
Proof.
  intros Hrec. rewrite check_each_nil. unfold directive_pairs, directives_ok, directive_ids.
  rewrite <-list_fmap_compose. setoid_rewrite app_nil'. setoid_rewrite err_if_nil.
  setoid_rewrite (known_by_now_spec _ _ _ _ Hrec). split.
  - intros (Hnd & _ & Hall). split; [done|]. intros d Hd.
    destruct (Hall (td_object_id d) (td_runtime_us d)) as [Hk Hneg].
    { apply list_elem_of_fmap. by exists d. }
    split; [done|]. intros r Hr. by rewrite Hr in Hneg.
  - intros (Hnd & Hall). split_and!; [done|set_solver|]. intros x rt (d & [= -> ->] & Hd)%list_elem_of_fmap.
    destruct (Hall d Hd) as [Hk Hneg]. split; [done|]. unfold negative_override.
    destruct (td_runtime_us d) as [r|]; auto.
Qed.

Lemma existsb_false {A} (f : A → bool) l : existsb f l = false ↔ ∀ x, x ∈ l → f x = false.
Proof.
  induction l as [|x l IH]; simpl; [split; [by intros _ ? ?%elem_of_nil|done]|].
  rewrite orb_false_iff, IH. split.
  - intros [Hx Hl] y [->|Hy]%elem_of_cons; auto.
  - intros Hf. split; [apply Hf, list_elem_of_here|]. intros y Hy. by apply Hf, list_elem_of_further.
Qed.

Lemma check_directives_nil idx created known task :
  records created known idx →
  check_directives idx created task = [] ↔
  NoDup (ts_releases_after task) ∧ (∀ r, r ∈ ts_releases_after task → r ∈ known) ∧
  directives_ok known (ts_offload_after task) ∧ directives_ok known (ts_prefetch_after task) ∧
  (∀ r, r ∈ ts_releases_after task →
    r ∉ directive_ids (ts_offload_after task) ∧ r ∉ directive_ids (ts_prefetch_after task)).
Proof.
  intros Hrec. unfold check_directives. problems.
  rewrite !(directive_check_nil _ _ _ _ _ _ _ Hrec), check_each_nil, !existsb_false.
  rewrite <-list_fmap_compose, list_fmap_id.
  setoid_rewrite err_if_nil. setoid_rewrite bool_decide_eq_false.
  setoid_rewrite (known_by_now_spec _ _ _ _ Hrec). split.
  - intros ((Hnd & _ & Hk) & Hoff & Hpf & Hd1 & Hd2). split_and!; try done; [|by auto].
    intros r Hr. apply (Hk r None). apply list_elem_of_fmap. by exists r.
  - intros (Hnd & Hk & Hoff & Hpf & Hd). split_and!; try done.
    + intros x rt (r & Heq & Hr)%list_elem_of_fmap. simplify_eq. auto.
    + intros r Hr. by apply Hd.
    + intros r Hr. by apply Hd.
Qed.

Lemma check_comm_nil task :
  check_comm task = [] ↔
  ∀ purpose name, (purpose, name) ∈ ts_comm_groups task →
    purpose ≠ ""%string ∧ ∃ s, name = JStr s ∧ s ≠ ""%string.
Proof.
  unfold check_comm. rewrite concat_nil. split.
  - intros Hall k v Hkv. specialize (Hall (k, v) Hkv). simpl in Hall.
    rewrite err_if_nil, negb_false_iff, andb_true_iff, negb_true_iff, bool_decide_eq_false in Hall.
    destruct Hall as [Hk Hv]. split; [done|]. destruct v; simpl in Hv; try done.
    rewrite negb_true_iff, bool_decide_eq_false in Hv. eauto.
  - intros Hall [k v] Hkv. destruct (Hall k v Hkv) as (Hk & s & -> & Hs).
    rewrite err_if_nil, negb_false_iff, andb_true_iff, negb_true_iff, bool_decide_eq_false. simpl.
    by rewrite negb_true_iff, bool_decide_eq_false.
Qed.

Lemma check_inputs_nil idx created known task :
  records created known (idx - 1) →
  check_inputs idx created task = [] ↔ ∀ i, i ∈ ts_inputs task → i ∈ known.
Proof.
  intros [<- Hm]. unfold check_inputs. rewrite concat_nil. split; intros Hall i Hi; specialize (Hall i Hi).
  - apply elem_of_dom. destruct (created !! i); [eauto|done].
  - apply elem_of_dom in Hall as [at_ Hat]. rewrite Hat, err_if_nil, Z.leb_gt.
    specialize (Hm i at_ Hat). simpl in Hm. lia.
Qed.

(** One task: the problems are none exactly if the task is well formed where
    it stands, and its outputs are known afterwards. *)
Lemma check_task_spec idx created known ids task :
  records created known (idx - 1) →
  let '(ps, created') := check_task idx created ids task in
  records created' (known ∪ list_to_set (output_ids task)) idx ∧
  (ps = Ok [] ↔ ts_id task ∉ ids ∧ task_ok known task).
Proof.
  intros Hrec. unfold check_task.
  pose proof (check_outs_spec idx (ts_id task) created known (ts_outputs task)
    (records_later _ _ _ idx Hrec ltac:(lia))) as Houts.
  destruct (check_outs idx (ts_id task) created (ts_outputs task)) as [outs created'].
  destruct Houts as [Hrec' Houts]. split; [done|].
  problems. rewrite Houts, check_comm_nil, bool_decide_eq_false, Z.ltb_ge.
  rewrite (check_inputs_nil _ _ _ _ Hrec). unfold has_dup. rewrite negb_decide.
  rewrite (check_directives_nil _ _ _ _ Hrec').
  setoid_rewrite err_if_nil. setoid_rewrite negb_decide. split.
  - intros ((? & ? & ? & ? & ? & ? & ?) & (? & ? & ?) & ? & ? & ? & ? & ?). by split.
  - by intros [? []].
Qed.

Lemma check_tasks_spec ts idx created known ids :
  records created known (idx - 1) →
  let '(ps, created') := check_tasks idx created ids ts in
  dom created' = known ∪ list_to_set (ts ≫= output_ids) ∧
  (ps = Ok [] ↔ NoDup (ts_id <$> ts) ∧ (∀ x, x ∈ ts_id <$> ts → x ∉ ids) ∧
     ∀ i task, ts !! i = Some task → task_ok (known ∪ list_to_set (take i ts ≫= output_ids)) task).
Proof.
  revert idx created known ids. induction ts as [|t ts IH]; intros idx created known ids Hrec.
  { simpl. destruct Hrec as [Hd _]. rewrite (right_id_L ∅ (∪)). split; [done|].
    split; [|done]. intros _. split_and!; [constructor|intros; set_solver|by intros ? ? ?]. }
  cbn [check_tasks]. pose proof (check_task_spec idx created known ids t Hrec) as Ht.
  destruct (check_task idx created ids t) as [here created1]. destruct Ht as [Hrec1 Hhere].
  specialize (IH (idx + 1) created1 (known ∪ list_to_set (output_ids t)) ({[ts_id t]} ∪ ids)).
  destruct (check_tasks (idx + 1) created1 ({[ts_id t]} ∪ ids) ts) as [rest created2].
  destruct IH as [Hd Hrest]; [by replace (idx + 1 - 1) with idx by lia|].
  rewrite bind_cons, list_to_set_app_L, (assoc_L (∪)). split; [done|].
  problems. rewrite Hhere, Hrest, fmap_cons, NoDup_cons. clear Hhere Hrest. split.
  - intros ((Hid & Hok) & Hnd & Hids & Hall). split_and!; [|done|..].
    + intros Hin. apply (Hids _ Hin). set_solver.
    + intros x [->|Hx]%elem_of_cons; [done|]. specialize (Hids x Hx). set_solver.
    + intros [|i] task Hi; simpl in Hi |- *.
      * simplify_eq. by rewrite (right_id_L ∅ (∪)).
      * rewrite list_to_set_app_L, (assoc_L (∪)). by apply Hall.
  - intros ((Hnin & Hnd) & Hids & Hall). split_and!; try done.
    + apply Hids, list_elem_of_here.
    + specialize (Hall 0%nat t eq_refl). simpl in Hall. by rewrite (right_id_L ∅ (∪)) in Hall.
    + intros x Hx [->%elem_of_singleton|Hin]%elem_of_union; [done|].
      by apply (Hids x); [apply list_elem_of_further|].
    + intros i task Hi. specialize (Hall (S i) task Hi). simpl in Hall.
      by rewrite list_to_set_app_L, (assoc_L (∪)) in Hall.
Qed.

Lemma ascending_spec l :
  (l = py_sorted Z.leb l ∧ NoDup l) ↔ StronglySorted Z.lt l.
Proof.
  split.
  - intros [Hs Hnd]. assert (StronglySorted (λ a b, Z.leb a b = true) l) as Hle.
    { rewrite Hs. apply py_sorted_sorted; intros; lia. }
    clear Hs. induction Hle as [|x l Hl IH Hx]; [constructor|]. apply NoDup_cons in Hnd as [Hnin Hnd].
    constructor; [auto|]. rewrite Forall_forall in Hx |- *. intros y Hy. specialize (Hx y Hy).
    assert (x ≠ y) by (by intros ->). lia.
  - intros Hs. split.
    + symmetry. apply py_sorted_id. clear - Hs. induction Hs as [|x l Hl IH Hx]; constructor; [done|].
      eapply Forall_impl; [exact Hx|]. simpl. lia.
    + induction Hs as [|x l Hl IH Hx]; constructor; [|done]. intros Hin.
      rewrite Forall_forall in Hx. specialize (Hx x Hin). lia.
Qed.

Lemma check_rewrite_nil (ids : list string) (rw : RecomputeRewrite T) :
  check_rewrite (list_to_set ids) rw = [] ↔ rewrite_ok ids rw.
Proof.
  unfold check_rewrite. destruct (rw_options rw) as [|o os] eqn:Ho.
  { split; [done|]. intros [(o & os & Heq & _) _ _]. congruence. }
  problems. rewrite <-Ho, orb_false_iff, andb_false_iff, !negb_decide, ascending_spec.
  rewrite negb_false_iff, Z.eqb_eq, !elem_of_list_to_set. split.
  - intros (H0 & Hs & Ht). split; [by exists o, os|done|done].
  - intros [(o' & os' & Heq & H0) Hs Ht]. split_and!; [congruence|done|done].
Qed.

Lemma check_positive_nil name v : check_positive name v = [] ↔ positive v.
Proof.
  unfold check_positive, positive. destruct v as [z|]; [|by split].
  rewrite err_if_nil, Z.leb_gt. naive_solver.
Qed.

Lemma needs_bandwidth_spec (f : TaskSpec T → list (TransferDirective T)) p (bw : option Z) :
  needs_bandwidth f p && bool_decide (bw = None) = false ↔
  (bw = None → ∀ t d, t ∈ p_tasks p → d ∈ f t → td_runtime_us d ≠ None).
Proof.
  unfold needs_bandwidth. case_bool_decide as Hbw; [|rewrite andb_false_r; by split].
  rewrite andb_true_r, existsb_false. setoid_rewrite existsb_false. setoid_rewrite bool_decide_eq_false.
  naive_solver.
Qed.

Lemma check_finals_nil (created : gmap string Z) known p :
  dom created = known →
  check_finals created p = [] ↔
  ∀ oid loc, (oid, loc) ∈ p_final_locations p → oid ∈ known ∧ loc_known loc = true.
Proof.
  intros <-. unfold check_finals. rewrite concat_nil.
  setoid_rewrite elem_of_dom. split.
  - intros Hall oid loc Hin. specialize (Hall _ Hin). simpl in Hall.
    by rewrite app_nil', !err_if_nil, negb_decide, negb_false_iff in Hall.
  - intros Hall [oid loc] Hin. rewrite app_nil', !err_if_nil, negb_decide, negb_false_iff. by apply Hall.
Qed.

Lemma problems_nil p : problems p = Ok [] ↔ well_formed p.
Proof.
  unfold problems.
  pose proof (check_tasks_spec (p_tasks p) 0 (initial_created (p_initial_objects p))
    (list_to_set (os_id <$> p_initial_objects p)) ∅ (initial_created_records _)) as Htasks.
  destruct (check_tasks 0 (initial_created (p_initial_objects p)) ∅ (p_tasks p)) as [tasks created].
  destruct Htasks as [Hdom Htasks].
  problems. rewrite Htasks, check_initial_nil, bool_decide_eq_false, (check_finals_nil _ _ _ Hdom).
  unfold check_settings, check_bandwidth. problems. rewrite !check_positive_nil, !needs_bandwidth_spec.
  setoid_rewrite check_rewrite_nil. clear Htasks Hdom.
  assert (objects_before p (length (p_tasks p)) =
    list_to_set (os_id <$> p_initial_objects p) ∪ list_to_set (p_tasks p ≫= output_ids)) as Hall.
  { unfold objects_before. by rewrite take_ge. }
  split.
  - intros (Hn & (Hk & _ & _ & Hc & Ho) & (Hid & _ & Ht) & Hf & (? & ? & ? & ?) & (? & ?) & Hr).
    split; try done. by rewrite Hall.
  - intros [Hn Hk Hc Ho Hid Ht Hf (? & ? & ? & ?) ? ? Hr]. rewrite Hall in Hf.
    split_and!; try done; intros; set_solver.
Qed.

(** C24: [validate_program] decides well-formedness: it returns exactly on the
    programs whose ids, sizes, directives, settings and rewrites are as
    [well_formed] states, and raises on every other. *)
Theorem validate_program_decides p : validate_program p = Ok tt ↔ well_formed p.
Proof.
  rewrite <-problems_nil. unfold validate_program.
  destruct (problems p) as [[|e errs]|e]; split; intros; by simplify_eq.
Qed.
End Decide.

(** ** An unknown dtype aborts the collection *)

(** Two problems: an object of unknown dtype, and an empty program name. *)
Definition unknown_dtype_program : Program Z :=
  mkProgram "" [mkObjectSpec "x" 4 Backing "other" (Some (mkTensor (Some "fp12") (Some [1]) None)) false]
    [] [] None None None None [] [] SCHEMA_VERSION.

(** The problems are not always listed: a dense tensor of unknown dtype makes
    [validate_program] raise the bare [ValueError] of [dtype_nbytes], and the
    problems collected before it (here an empty name and the dtype itself) are
    not reported. *)
Theorem unknown_dtype_hides_problems :
  validate_program unknown_dtype_program = Err (NbytesError (unknown_dtype "fp12")).
Proof. vm_compute. reflexivity. Qed.
