(* ===== verification/CoreJson.v ===== *)
(** * JSON form of programs ([dataflow/core/jsonio.py])

    [program_to_dict] and [program_from_dict] on JSON values.  The wire format
    has the declared field types; the code does not test them, and builds a
    program with fields of other types from a document that violates
    them.  Such documents are outside the typed model: the model answers
    [IllTyped] there.  The files ([save_program], [load_program]) add
    only [json.dumps] and [json.loads]. *)
From S2P Require Import Prelude SimSchema CoreProgram.
From stdpp Require Import base tactics option list gmap strings.
From Stdlib Require Import ZArith Lia.
Open Scope Z_scope.

Inductive JsonError :=
| MissingKey (k : string)
| UnsupportedVersion (v : string)
| IllTyped (field : string).

Section Json.
Context {T : Type} `{Num T}.

Definition jdict : Type := list (string * json T).

(** ** Dicts *)

(** [d.get(k)]; a dict has each key once. *)
Fixpoint dget (d : jdict) (k : string) : option (json T) :=
  match d with
  | [] => None
  | (k', v) :: d => if String.eqb k k' then Some v else dget d k
  end.

(** A dict built key by key, [if ...: d[k] = v]: [None] omits the key. *)
Definition fields (l : list (string * option (json T))) : jdict :=
  l ≫= λ '(k, v), match v with Some v => [(k, v)] | None => [] end.

(** [d[k]]. *)
Definition dreq (d : jdict) (k : string) : result JsonError (json T) :=
  match dget d k with Some v => Ok v | None => Err (MissingKey k) end.

(** ** To dict *)
Definition some_if {A} (c : bool) (v : A) : option A := if c then Some v else None.
Definition jstrs (l : list string) : json T := JList (JStr <$> l).
Definition jints (l : list Z) : json T := JList (JInt <$> l).
(** The truth of a list or a dict: non-empty. *)
Definition nonempty {A} (l : list A) : bool := match l with [] => false | _ => true end.

Definition tensor_to_dict (t : option TensorMeta) : option (json T) :=
  match t with
  | None => None
  | Some t =>
      let d := fields [("dtype", JStr <$> tm_dtype t); ("shape", jints <$> tm_shape t);
                       ("strides", jints <$> tm_strides t)]%string in
      some_if (nonempty d) (JDict d)
  end.

Definition obj_fields (id : string) (size : Z) (l : Location) (role : string)
    (persistent : bool) (tensor : option TensorMeta) : list (string * option (json T)) :=
  [("id", Some (JStr id)); ("size_bytes", Some (JInt size));
   ("location", Some (JStr (loc_to_string l))); ("role", Some (JStr role));
   ("persistent", some_if persistent (JBool true));
   ("tensor", tensor_to_dict tensor)]%string.

Definition object_to_dict (o : ObjectSpec) : json T :=
  JDict (fields (obj_fields (os_id o) (os_size_bytes o) (os_location o) (os_role o)
                   (os_persistent o) (os_tensor o))).
Definition output_to_dict (o : OutputSpec) : json T :=
  JDict (fields (obj_fields (ous_id o) (ous_size_bytes o) (ous_location o) (ous_role o)
                   false (ous_tensor o))).

Definition trigger_to_dict (t : TransferDirective T) : json T :=
  JDict (fields [("object_id", Some (JStr (td_object_id t)));
                 ("runtime_us", JFloat <$> td_runtime_us t)]%string).

Definition task_fields (t : TaskSpec T) : list (string * option (json T)) :=
  [("id", Some (JStr (ts_id t)));
   ("runtime_us", Some (JFloat (ts_runtime_us t)));
   ("workspace_bytes", some_if (negb (Z.eqb (ts_workspace_bytes t) 0)) (JInt (ts_workspace_bytes t)));
   ("inputs", some_if (nonempty (ts_inputs t)) (jstrs (ts_inputs t)));
   ("outputs", some_if (nonempty (ts_outputs t)) (JList (output_to_dict <$> ts_outputs t)));
   ("mutates", some_if (nonempty (ts_mutates t)) (jstrs (ts_mutates t)));
   ("group", some_if (negb (String.eqb (ts_group t) "compute")) (JStr (ts_group t)));
   ("compute_block_key", JStr <$> ts_compute_block_key t);
   ("block_params", some_if (nonempty (ts_block_params t)) (JDict (ts_block_params t)));
   ("comm_groups", some_if (nonempty (ts_comm_groups t)) (JDict (ts_comm_groups t)));
   ("releases_after", some_if (nonempty (ts_releases_after t)) (jstrs (ts_releases_after t)));
   ("offload_after", some_if (nonempty (ts_offload_after t))
      (JList (trigger_to_dict <$> ts_offload_after t)));
   ("prefetch_after", some_if (nonempty (ts_prefetch_after t))
      (JList (trigger_to_dict <$> ts_prefetch_after t)));
   ("label", JStr <$> ts_label t);
   ("metadata", some_if (nonempty (ts_metadata t)) (JDict (ts_metadata t)));
   ("host", some_if (ts_host t) (JBool true))]%string.

Definition task_to_dict (t : TaskSpec T) : json T := JDict (fields (task_fields t)).

Definition option_to_dict (o : RecomputeOption T) : json T :=
  JDict [("level", JInt (ro_level o)); ("saved_bytes", JInt (ro_saved_bytes o));
         ("recompute_us", JFloat (ro_recompute_us o)); ("label", JStr (ro_label o))]%string.

Definition rewrite_to_dict (rw : RecomputeRewrite T) : json T :=
  JDict [("object_id", JStr (rw_object_id rw)); ("f_task_id", JStr (rw_f_task_id rw));
         ("r_task_id", JStr (rw_r_task_id rw)); ("options", JList (option_to_dict <$> rw_options rw));
         ("f_compute_block_key", JStr (rw_f_compute_block_key rw));
         ("r_compute_block_key", JStr (rw_r_compute_block_key rw));
         ("group_key", JStr (rw_group_key rw))]%string.

Definition locations_to_dict (l : list (string * Location)) : json T :=
  JDict ((λ '(oid, loc), (oid, JStr (loc_to_string loc))) <$> l).

Definition program_fields (p : Program T) : list (string * option (json T)) :=
  [("schema_version", Some (JStr (p_schema_version p)));
   ("name", Some (JStr (p_name p)));
   ("initial_objects", Some (JList (object_to_dict <$> p_initial_objects p)));
   ("tasks", Some (JList (task_to_dict <$> p_tasks p)));
   ("final_locations", some_if (nonempty (p_final_locations p)) (locations_to_dict (p_final_locations p)));
   ("fast_memory_capacity", JInt <$> p_fast_memory_capacity p);
   ("backing_memory_capacity", JInt <$> p_backing_memory_capacity p);
   ("bandwidth_from_slow", JInt <$> p_bandwidth_from_slow p);
   ("bandwidth_to_slow", JInt <$> p_bandwidth_to_slow p);
   ("recompute_rewrites", some_if (nonempty (p_recompute_rewrites p))
      (JList (rewrite_to_dict <$> p_recompute_rewrites p)));
   ("metadata", some_if (nonempty (p_metadata p)) (JDict (p_metadata p)))]%string.

Definition program_to_dict (p : Program T) : jdict := fields (program_fields p).

(** ** From dict *)
Section Reading.
Variable name : string.

Definition as_str (j : json T) : result JsonError string :=
  match j with JStr s => Ok s | _ => Err (IllTyped name) end.
Definition as_int (j : json T) : result JsonError Z :=
  match j with JInt z => Ok z | _ => Err (IllTyped name) end.
(** [float(x)] of a number. *)
Definition as_float (j : json T) : result JsonError T :=
  match j with JFloat f => Ok f | JInt z => Ok (num_of_Z z) | _ => Err (IllTyped name) end.
Definition as_list (j : json T) : result JsonError (list (json T)) :=
  match j with JList l => Ok l | _ => Err (IllTyped name) end.
Definition as_dict (j : json T) : result JsonError jdict :=
  match j with JDict d => Ok d | _ => Err (IllTyped name) end.

(** [None] when absent or null. *)
Definition optional {A} (f : json T → result JsonError A) (j : option (json T)) :
    result JsonError (option A) :=
  match j with
  | None | Some JNull => Ok None
  | Some v => a ← f v; Ok (Some a)
  end.

(** [f(d.get(k, default))]. *)
Definition with_default {A} (f : json T → result JsonError A) (a : A) (j : option (json T)) :
    result JsonError A :=
  match j with None => Ok a | Some v => f v end.
End Reading.

(** [tuple(f(x) for x in l)]. *)
Fixpoint mapR {A B} (f : A → result JsonError B) (l : list A) : result JsonError (list B) :=
  match l with
  | [] => Ok []
  | x :: l => y ← f x; ys ← mapR f l; Ok (y :: ys)
  end.

(** [bool(x)]. *)
Definition truthy (j : json T) : bool :=
  match j with
  | JNull => false
  | JBool b => b
  | JInt z => negb (z =? 0)
  | JFloat f => negb (f =? num_zero)%num
  | JStr s => negb (String.eqb s "")
  | JList l => nonempty l
  | JDict d => nonempty d
  end.

Definition get_str d k := v ← dreq d k; as_str k v.
Definition get_int d k := v ← dreq d k; as_int k v.
Definition get_list {A} (f : json T → result JsonError A) d k : result JsonError (list A) :=
  with_default (λ v, l ← as_list k v; mapR f l) [] (dget d k).
Definition get_dict d k : result JsonError jdict := with_default (as_dict k) [] (dget d k).
Definition get_bool d k : bool := match dget d k with Some v => truthy v | None => false end.

Definition tensor_from_dict (j : option (json T)) : result JsonError (option TensorMeta) :=
  match j with
  | None => Ok None
  | Some v =>
      if truthy v then
        d ← as_dict "tensor" v;
        dtype ← optional (as_str "dtype") (dget d "dtype");
        shape ← optional (λ v, l ← as_list "shape" v; mapR (as_int "shape") l) (dget d "shape");
        strides ← optional (λ v, l ← as_list "strides" v; mapR (as_int "strides") l) (dget d "strides");
        Ok (Some (mkTensor dtype shape strides))
      else Ok None
  end.

Definition get_location d (def : Location) : result JsonError Location :=
  s ← with_default (as_str "location") (loc_to_string def) (dget d "location"); Ok (loc_of_string s).

Definition object_from_dict (j : json T) : result JsonError ObjectSpec :=
  d ← as_dict "object" j;
  id ← get_str d "id";
  size ← get_int d "size_bytes";
  l ← get_location d Backing;
  role ← with_default (as_str "role") "other"%string (dget d "role");
  tensor ← tensor_from_dict (dget d "tensor");
  Ok (mkObjectSpec id size l role tensor (get_bool d "persistent")).

Definition output_from_dict (j : json T) : result JsonError OutputSpec :=
  d ← as_dict "output" j;
  id ← get_str d "id";
  size ← get_int d "size_bytes";
  l ← get_location d Fast;
  role ← with_default (as_str "role") "other"%string (dget d "role");
  tensor ← tensor_from_dict (dget d "tensor");
  Ok (mkOutputSpec id size l role tensor).

Definition trigger_from_dict (j : json T) : result JsonError (TransferDirective T) :=
  d ← as_dict "trigger" j;
  id ← get_str d "object_id";
  rt ← optional (as_float "runtime_us") (dget d "runtime_us");
  Ok (mkDirective id rt).

Definition task_from_dict (j : json T) : result JsonError (TaskSpec T) :=
  d ← as_dict "task" j;
  id ← get_str d "id";
  inputs ← get_list (as_str "inputs") d "inputs";
  outputs ← get_list output_from_dict d "outputs";
  mutates ← get_list (as_str "mutates") d "mutates";
  runtime ← with_default (as_float "runtime_us") (num_of_Z 1) (dget d "runtime_us");
  ws ← with_default (as_int "workspace_bytes") 0 (dget d "workspace_bytes");
  group ← with_default (as_str "group") "compute"%string (dget d "group");
  key ← optional (as_str "compute_block_key") (dget d "compute_block_key");
  params ← get_dict d "block_params";
  comm ← get_dict d "comm_groups";
  rel ← get_list (as_str "releases_after") d "releases_after";
  off ← get_list trigger_from_dict d "offload_after";
  pre ← get_list trigger_from_dict d "prefetch_after";
  label ← optional (as_str "label") (dget d "label");
  meta ← get_dict d "metadata";
  Ok (mkTaskSpec id inputs outputs mutates runtime ws group key params comm rel off pre label meta
        (get_bool d "host")).

Definition option_from_dict (j : json T) : result JsonError (RecomputeOption T) :=
  d ← as_dict "option" j;
  level ← get_int d "level";
  saved ← get_int d "saved_bytes";
  usv ← dreq d "recompute_us";
  us ← as_float "recompute_us" usv;
  label ← with_default (as_str "label") ""%string (dget d "label");
  Ok (mkOption level saved us label).

Definition rewrite_from_dict (j : json T) : result JsonError (RecomputeRewrite T) :=
  d ← as_dict "rewrite" j;
  oid ← get_str d "object_id";
  f ← get_str d "f_task_id";
  r ← get_str d "r_task_id";
  optv ← dreq d "options";
  optl ← as_list "options" optv;
  opts ← mapR option_from_dict optl;
  fk ← with_default (as_str "f_compute_block_key") ""%string (dget d "f_compute_block_key");
  rk ← with_default (as_str "r_compute_block_key") ""%string (dget d "r_compute_block_key");
  gk ← with_default (as_str "group_key") ""%string (dget d "group_key");
  Ok (mkRewrite oid f r opts fk rk gk).

Definition locations_from_dict (d : jdict) : result JsonError (list (string * Location)) :=
  mapR (λ '(oid, v), s ← as_str "final_locations" v; Ok (oid, loc_of_string s)) d.

Definition program_from_dict (d : jdict) : result JsonError (Program T) :=
  version ← with_default (as_str "schema_version") SCHEMA_VERSION (dget d "schema_version");
  raise_if (negb (String.eqb version SCHEMA_VERSION)) (UnsupportedVersion version) ;;
  name ← get_str d "name";
  objs ← get_list object_from_dict d "initial_objects";
  tasks ← get_list task_from_dict d "tasks";
  fl ← get_dict d "final_locations";
  finals ← locations_from_dict fl;
  fast ← optional (as_int "fast_memory_capacity") (dget d "fast_memory_capacity");
  back ← optional (as_int "backing_memory_capacity") (dget d "backing_memory_capacity");
  bwf ← optional (as_int "bandwidth_from_slow") (dget d "bandwidth_from_slow");
  bwt ← optional (as_int "bandwidth_to_slow") (dget d "bandwidth_to_slow");
  rws ← get_list rewrite_from_dict d "recompute_rewrites";
  meta ← get_dict d "metadata";
  Ok (mkProgram name objs tasks finals fast back bwf bwt rws meta version).
End Json.

(** ** Round trip *)

(** A tensor with no field at all is written as no tensor. *)
Definition tensor_kept (t : option TensorMeta) : Prop := t ≠ Some (mkTensor None None None).

(** Programs the wire format represents: the current version, no empty tensor. *)
Record serializable {T} (p : Program T) : Prop := {
  sz_version : p_schema_version p = SCHEMA_VERSION;
  sz_objects : ∀ o, o ∈ p_initial_objects p → tensor_kept (os_tensor o);
  sz_outputs : ∀ t o, t ∈ p_tasks p → o ∈ ts_outputs t → tensor_kept (ous_tensor o);
}.

Section RoundTrip.
Context {T : Type} `{Num T}.
Implicit Types d : list (string * json T).

(** What was written under a key is read back from it. *)
Fixpoint fget (l : list (string * option (json T))) (k : string) : option (json T) :=
  match l with
  | [] => None
  | (k', v) :: l => if String.eqb k k' then v else fget l k
  end.

Lemma dget_fresh (l : list (string * option (json T))) k : k ∉ l.*1 → dget (fields l) k = None.
Proof.
  induction l as [|[k' v] l IH]; [done|]. rewrite fmap_cons, not_elem_of_cons. intros [Hk Hl].
  unfold fields. rewrite bind_cons. fold (fields l). simpl in Hk.
  destruct v as [v|]; simpl; [|by apply IH]. destruct (String.eqb_spec k k'); [done|]. by apply IH.
Qed.
Lemma dget_fields (l : list (string * option (json T))) k : NoDup l.*1 → dget (fields l) k = fget l k.
Proof.
  induction l as [|[k' v] l IH]; [done|]. rewrite fmap_cons, NoDup_cons. intros [Hk Hl].
  unfold fields. rewrite bind_cons. fold (fields l). simpl in Hk |- *.
  destruct (String.eqb_spec k k') as [->|Hne]; destruct v as [v|]; simpl.
  - by rewrite String.eqb_refl.
  - by apply dget_fresh.
  - apply String.eqb_neq in Hne as ->. by apply IH.
  - by apply IH.
Qed.

Lemma mapR_map {A B} (enc : A → B) (dec : B → result JsonError A) l :
  (∀ x, x ∈ l → dec (enc x) = Ok x) → mapR dec (enc <$> l) = Ok l.
Proof.
  induction l as [|x l IH]; intros Hx; [done|]. rewrite fmap_cons. simpl.
  rewrite Hx by apply list_elem_of_here. simpl. rewrite IH; [done|].
  intros y Hy. by apply Hx, list_elem_of_further.
Qed.

Lemma get_list_rt {A} d k (enc : A → json T) dec l :
  dget d k = some_if (nonempty l) (JList (enc <$> l)) →
  (∀ x, x ∈ l → dec (enc x) = Ok x) → get_list dec d k = Ok l.
Proof.
  intros Hd Hx. unfold get_list. rewrite Hd. destruct l as [|x l]; [done|].
  cbn [some_if nonempty with_default as_list]. apply (mapR_map enc dec (x :: l)) in Hx.
  by simpl in Hx |- *.
Qed.
Lemma get_list_present {A} d k (enc : A → json T) dec l :
  dget d k = Some (JList (enc <$> l)) →
  (∀ x, x ∈ l → dec (enc x) = Ok x) → get_list dec d k = Ok l.
Proof.
  intros Hd Hx. unfold get_list. rewrite Hd. by apply (mapR_map enc dec l).
Qed.
Lemma get_dict_rt d k (m : list (string * json T)) :
  dget d k = some_if (nonempty m) (JDict m) → get_dict d k = Ok m.
Proof. intros Hd. unfold get_dict. rewrite Hd. by destruct m. Qed.
Lemma optional_rt {A} (enc : A → json T) dec (o : option A) :
  (∀ a, enc a ≠ JNull) → (∀ a, dec (enc a) = Ok a) → optional dec (enc <$> o) = Ok o.
Proof.
  intros Hn Hd. destruct o as [a|]; simpl; [|done]. specialize (Hn a). specialize (Hd a).
  destruct (enc a); try done; by rewrite Hd.
Qed.
Lemma get_bool_rt d k (b : bool) : dget d k = some_if b (JBool true) → get_bool d k = b.
Proof. intros Hd. unfold get_bool. rewrite Hd. by destruct b. Qed.

Lemma ints_rt k (l : list Z) : mapR (as_int (T:=T) k) (JInt <$> l) = Ok l.
Proof. by apply mapR_map. Qed.

Lemma tensor_rt t : tensor_kept t → tensor_from_dict (T:=T) (tensor_to_dict t) = Ok t.
Proof.
  intros Ht. destruct t as [[dt sh st]|]; [|done]. unfold tensor_kept in Ht.
  destruct dt, sh, st; try congruence; unfold tensor_to_dict, tensor_from_dict, jints; simpl;
    rewrite ?ints_rt; simpl; rewrite ?ints_rt; done.
Qed.

(** [keys_tac]: the keys of a literal dict are distinct. *)
Ltac keys_tac := apply (bool_decide_unpack (NoDup _)); vm_compute; exact I.

Lemma object_rt (o : ObjectSpec) :
  tensor_kept (os_tensor o) → object_from_dict (T:=T) (object_to_dict o) = Ok o.
Proof.
  intros Ht. unfold object_to_dict, object_from_dict. cbn [as_dict].
  set (l := obj_fields _ _ _ _ _ _). assert (NoDup l.*1) as Hk by keys_tac.
  assert (∀ k, dget (fields l) k = fget l k) as Hd by (intros k; by apply dget_fields).
  generalize dependent (fields l). intros d Hd. clear Hk. change (Ok ?x ≫= ?f) with (f x). cbv beta.
  unfold get_str, get_int, get_location, dreq. rewrite !Hd. subst l. simpl.
  rewrite loc_of_to_string, tensor_rt by done. simpl.
  rewrite (get_bool_rt _ _ (os_persistent o)) by (by rewrite Hd). by destruct o.
Qed.

Lemma output_rt (o : OutputSpec) :
  tensor_kept (ous_tensor o) → output_from_dict (T:=T) (output_to_dict o) = Ok o.
Proof.
  intros Ht. unfold output_to_dict, output_from_dict. cbn [as_dict].
  set (l := obj_fields _ _ _ _ _ _). assert (NoDup l.*1) as Hk by keys_tac.
  assert (∀ k, dget (fields l) k = fget l k) as Hd by (intros k; by apply dget_fields).
  generalize dependent (fields l). intros d Hd. clear Hk. change (Ok ?x ≫= ?f) with (f x). cbv beta.
  unfold get_str, get_int, get_location, dreq. rewrite !Hd. subst l. simpl.
  rewrite loc_of_to_string, tensor_rt by done. by destruct o.
Qed.

Lemma trigger_rt (t : TransferDirective T) : trigger_from_dict (trigger_to_dict t) = Ok t.
Proof. destruct t as [oid [rt|]]; done. Qed.

Lemma option_rt (o : RecomputeOption T) : option_from_dict (option_to_dict o) = Ok o.
Proof. by destruct o. Qed.

Lemma rewrite_rt (rw : RecomputeRewrite T) : rewrite_from_dict (rewrite_to_dict rw) = Ok rw.
Proof.
  unfold rewrite_to_dict, rewrite_from_dict. simpl.
  rewrite (mapR_map option_to_dict) by (intros; apply option_rt). by destruct rw.
Qed.

Lemma locations_rt (l : list (string * Location)) :
  locations_from_dict (T:=T) ((λ '(oid, loc), (oid, JStr (loc_to_string loc))) <$> l) = Ok l.
Proof. unfold locations_from_dict. apply mapR_map. intros [oid loc] _. simpl. by rewrite loc_of_to_string. Qed.

(** The value of a defaulted field that is written only when it differs. *)
Lemma default_rt {A} (f : json T → result JsonError A) (dflt a : A) (enc : A → json T) (c : bool) :
  (c = false → a = dflt) → f (enc a) = Ok a →
  with_default f dflt (some_if c (enc a)) = Ok a.
Proof. intros Hc Hf. destruct c; simpl; [done|]. by rewrite Hc. Qed.

Lemma task_rt (t : TaskSpec T) :
  (∀ o, o ∈ ts_outputs t → tensor_kept (ous_tensor o)) →
  task_from_dict (task_to_dict t) = Ok t.
Proof.
  intros Ht. unfold task_to_dict, task_from_dict. cbn [as_dict].
  assert (NoDup (task_fields t).*1) as Hk by keys_tac.
  assert (∀ k, dget (fields (task_fields t)) k = fget (task_fields t) k) as Hd.
  { intros k. by apply dget_fields. }
  generalize dependent (fields (task_fields t)). intros d Hd. clear Hk.
  change (Ok ?x ≫= ?f) with (f x). cbv beta. unfold get_str, dreq.
  rewrite !Hd. cbn [fget task_fields String.eqb Ascii.eqb Bool.eqb as_str].
  rewrite (get_list_rt d "inputs" JStr _ (ts_inputs t)); [|by rewrite Hd|done].
  rewrite (get_list_rt d "outputs" output_to_dict _ (ts_outputs t)); [|by rewrite Hd|intros; by apply output_rt, Ht].
  rewrite (get_list_rt d "mutates" JStr _ (ts_mutates t)); [|by rewrite Hd|done].
  rewrite (get_list_rt d "releases_after" JStr _ (ts_releases_after t)); [|by rewrite Hd|done].
  rewrite (get_list_rt d "offload_after" trigger_to_dict _ (ts_offload_after t)); [|by rewrite Hd|intros; apply trigger_rt].
  rewrite (get_list_rt d "prefetch_after" trigger_to_dict _ (ts_prefetch_after t)); [|by rewrite Hd|intros; apply trigger_rt].
  rewrite (get_dict_rt d "block_params" (ts_block_params t)) by (by rewrite Hd).
  rewrite (get_dict_rt d "comm_groups" (ts_comm_groups t)) by (by rewrite Hd).
  rewrite (get_dict_rt d "metadata" (ts_metadata t)) by (by rewrite Hd).
  rewrite (get_bool_rt d "host" (ts_host t)) by (by rewrite Hd).
  rewrite !(optional_rt JStr) by done.
  rewrite (default_rt _ 0 (ts_workspace_bytes t) JInt); [|intros ?%negb_false_iff%Z.eqb_eq; done|done].
  rewrite (default_rt _ "compute"%string (ts_group t) JStr); [|intros ?%negb_false_iff%String.eqb_eq; done|done].
  by destruct t.
Qed.

End RoundTrip.

(** A small annotated training step. *)
Definition sample_program : Program Z :=
  mkProgram "step"
    [mkObjectSpec "W" 8 Backing "parameter" (Some (mkTensor (Some "fp32") (Some [2]) None)) true;
     mkObjectSpec "W" 8 Fast "parameter" (Some (mkTensor (Some "fp32") (Some [2]) None)) true]
    [mkTaskSpec "fwd" ["W"] [mkOutputSpec "A" 4 Fast "activation" (Some (mkTensor (Some "bf16") (Some [2]) None))]
       [] 5 16 "compute" (Some "block") [("layer", JInt 0)]%string [] [] [] [] (Some "forward") [] false;
     mkTaskSpec "opt" ["W"; "A"] [] ["W"] 7 0 "optimizer" None [] [("dp", JStr "ring")]%string
       ["A"] [mkDirective "W" None] [] None [("note", JNull)]%string false]
    [("W"%string, Backing)] (Some 64) (Some 64) (Some 1) (Some 1)
    [mkRewrite "A" "fwd" "fwd_r" [mkOption 0 4 0 "save"; mkOption 1 0 5 "recompute"] "" "" ""]
    [] SCHEMA_VERSION.

