(* ===== verification/CoreConvert.v ===== *)
(** * Programs and simulator chains ([dataflow/core/convert.py])

    [to_sim_chain] forgets what the simulator does not use, and
    [apply_chain_annotations] joins the directives a planner put on the chain
    back onto the program.  The interface between the two components is stated
    here: a program that passes [validate_program] converts to a chain whose ids
    the simulator's validator resolves. *)
From S2P Require Import Prelude SimSchema SimValidate CoreProgram CoreValidate CoreJson.
From stdpp Require Import base tactics option list gmap strings sets sorting.
From Stdlib Require Import ZArith Lia.
Open Scope Z_scope.

Definition ROLE_TO_SIM_TYPE : gmap string string :=
  list_to_map [("parameter", "weight"); ("gradient", "gradient"); ("optimizer_state", "optimizer");
    ("activation", "activation"); ("input", "activation"); ("output", "activation");
    ("temp", "other"); ("other", "other")]%string.

Definition SIM_TYPE_TO_ROLE : gmap string string :=
  list_to_map [("weight", "parameter"); ("gradient", "gradient"); ("optimizer", "optimizer_state");
    ("activation", "activation"); ("other", "other")]%string.

Definition role_to_sim_type (role : string) : string := default "other"%string (ROLE_TO_SIM_TYPE !! role).
Definition sim_type_to_role (ty : string) : string := default "other"%string (SIM_TYPE_TO_ROLE !! ty).

Inductive ConvertError :=
| TasksMismatch (chain_len program_len : nat)
| UnknownInitial (oid : string).

Section Convert.
Context {T : Type}.
Implicit Types (p : Program T) (chain : TaskChain T).

(** ** Program to chain *)
Definition object_to_sim (o : ObjectSpec) : Object :=
  mkObject (os_id o) (os_size_bytes o) (os_location o) (role_to_sim_type (os_role o)).
Definition output_to_sim (o : OutputSpec) : OutputAlloc :=
  mkOutput (ous_id o) (ous_size_bytes o) (ous_location o) (role_to_sim_type (ous_role o)).
Definition directive_to_sim (d : TransferDirective T) : TransferTrigger T :=
  mkTrigger (td_object_id d) (td_runtime_us d).

Definition task_to_sim (t : TaskSpec T) : Task T :=
  mkTask (ts_id t) (ts_inputs t) (output_to_sim <$> ts_outputs t) (ts_runtime_us t)
    (ts_workspace_bytes t) (ts_releases_after t) (directive_to_sim <$> ts_offload_after t)
    (directive_to_sim <$> ts_prefetch_after t) (ts_mutates t).

Definition to_sim_chain p : TaskChain T :=
  mkChain (object_to_sim <$> p_initial_objects p) (task_to_sim <$> p_tasks p)
    (p_final_locations p) (p_fast_memory_capacity p) (p_backing_memory_capacity p)
    (p_bandwidth_from_slow p) (p_bandwidth_to_slow p).

(** ** Annotations back onto the program *)
Definition sim_to_directive (t : TransferTrigger T) : TransferDirective T :=
  mkDirective (trig_obj t) (trig_runtime t).

Definition annotate_task (spec : TaskSpec T) (sim_task : Task T) : TaskSpec T :=
  with_directives spec (Some (releases_after sim_task))
    (Some (sim_to_directive <$> offload_after sim_task))
    (Some (sim_to_directive <$> prefetch_after sim_task)).

(** [replace(src, location=loc)]. *)
Definition relocate (o : ObjectSpec) (l : Location) : ObjectSpec :=
  mkObjectSpec (os_id o) (os_size_bytes o) l (os_role o) (os_tensor o) (os_persistent o).

(** [by_id = {o.id: o for o in ...}]: the last entry of an id. *)
Definition objects_by_id (objs : list ObjectSpec) : gmap string ObjectSpec :=
  foldl (λ m o, <[os_id o := o]> m) ∅ objs.

Fixpoint preplaced (by_id : gmap string ObjectSpec) (existing : gset (string * Location))
    (objs : list Object) : result ConvertError (list ObjectSpec) :=
  match objs with
  | [] => Ok []
  | o :: objs =>
      let key := (obj_id o, obj_location o) in
      if bool_decide (key ∈ existing) then preplaced by_id existing objs
      else
        match by_id !! obj_id o with
        | None => Err (UnknownInitial (obj_id o))
        | Some src =>
            rest ← preplaced by_id ({[key]} ∪ existing) objs;
            Ok (relocate src (obj_location o) :: rest)
        end
  end.

Definition apply_chain_annotations p chain : result ConvertError (Program T) :=
  if bool_decide ((task_id <$> tasks chain) = (ts_id <$> p_tasks p)) then
    extra ← preplaced (objects_by_id (p_initial_objects p))
              (list_to_set (obj_key <$> p_initial_objects p)) (initial_memory chain);
    Ok (mkProgram (p_name p) (p_initial_objects p ++ extra)
          (zip_with annotate_task (p_tasks p) (tasks chain))
          (final_locations chain) (fast_memory_capacity chain) (backing_memory_capacity chain)
          (bandwidth_from_slow chain) (bandwidth_to_slow chain)
          (p_recompute_rewrites p) (p_metadata p) (p_schema_version p))
  else Err (TasksMismatch (length (tasks chain)) (length (p_tasks p))).

(** ** Chain to program *)
Definition object_from_sim (o : Object) : ObjectSpec :=
  mkObjectSpec (obj_id o) (obj_size o) (obj_location o) (sim_type_to_role (obj_type o)) None false.
Definition output_from_sim (o : OutputAlloc) : OutputSpec :=
  mkOutputSpec (out_id o) (out_size o) (out_location o) (sim_type_to_role (out_type o)) None.
Definition task_from_sim (t : Task T) : TaskSpec T :=
  mkTaskSpec (task_id t) (inputs t) (output_from_sim <$> outputs t) (mutates_inputs t) (runtime t)
    (workspace_bytes t) "compute" None [] [] (releases_after t)
    (sim_to_directive <$> offload_after t) (sim_to_directive <$> prefetch_after t) None [] false.

Definition from_sim_chain chain (name : string) : Program T :=
  mkProgram name (object_from_sim <$> initial_memory chain) (task_from_sim <$> tasks chain)
    (final_locations chain) (fast_memory_capacity chain) (backing_memory_capacity chain)
    (bandwidth_from_slow chain) (bandwidth_to_slow chain) [] [] SCHEMA_VERSION.
End Convert.

(** ** Round trips *)
Section RoundTrips.
Context {T : Type}.
Implicit Types (p : Program T) (chain : TaskChain T).

Lemma preplaced_none by_id existing objs :
  (∀ o, o ∈ objs → (obj_id o, obj_location o) ∈ existing) → preplaced by_id existing objs = Ok [].
Proof.
  induction objs as [|o objs IH]; intros Ho; simpl; [done|].
  rewrite bool_decide_eq_true_2 by apply Ho, list_elem_of_here.
  apply IH. intros o' Ho'. by apply Ho, list_elem_of_further.
Qed.

Lemma directives_back (l : list (TransferDirective T)) :
  sim_to_directive <$> (directive_to_sim <$> l) = l.
Proof.
  rewrite <-list_fmap_compose. rewrite <-(list_fmap_id l) at 2.
  apply list_fmap_ext. intros ? [] _. done.
Qed.

Lemma annotate_own (t : TaskSpec T) : annotate_task t (task_to_sim t) = t.
Proof. destruct t. unfold annotate_task, with_directives. simpl. by rewrite !directives_back. Qed.

(** Joining a program's own chain back onto it changes nothing: the
    conversion to the simulator and the annotation step lose no directive,
    capacity or initial copy. *)
Theorem annotate_own_chain p : apply_chain_annotations p (to_sim_chain p) = Ok p.
Proof.
  unfold apply_chain_annotations, to_sim_chain. simpl.
  rewrite bool_decide_eq_true_2 by (rewrite <-list_fmap_compose; by apply list_fmap_ext).
  rewrite preplaced_none.
  2: { intros o (o' & -> & Ho')%list_elem_of_fmap. apply elem_of_list_to_set.
       change (obj_key o' ∈ obj_key <$> p_initial_objects p). by apply list_elem_of_fmap_2. }
  simpl. rewrite app_nil_r. destruct p as [n objs ts fl fc bc bf bt rw md sv]; simpl. f_equal. f_equal.
  induction ts as [|t ts IH]; [done|]. rewrite fmap_cons. cbn [zip_with]. by rewrite annotate_own, IH.
Qed.

(** C26: What a planner annotated is what the annotated program executes: when the
    join succeeds, converting the result again gives the planner's directives,
    task by task, its final locations and its capacities, on the program's own
    inputs, outputs and runtimes. *)
Theorem annotations_survive p chain p' :
  apply_chain_annotations p chain = Ok p' →
  (λ t, (task_id t, releases_after t, offload_after t, prefetch_after t)) <$> tasks (to_sim_chain p') =
  (λ t, (task_id t, releases_after t, offload_after t, prefetch_after t)) <$> tasks chain ∧
  (λ t, (inputs t, outputs t, runtime t, mutates_inputs t)) <$> tasks (to_sim_chain p') =
  (λ t, (inputs t, outputs t, runtime t, mutates_inputs t)) <$> tasks (to_sim_chain p) ∧
  final_locations (to_sim_chain p') = final_locations chain ∧
  fast_memory_capacity (to_sim_chain p') = fast_memory_capacity chain ∧
  backing_memory_capacity (to_sim_chain p') = backing_memory_capacity chain.
Proof.
  unfold apply_chain_annotations. case_bool_decide as Hids; [|done].
  intros (extra & _ & [= <-])%result_bind_ok. simpl. split_and!; try done.
  - clear extra. revert Hids. generalize (tasks chain) as cs. induction (p_tasks p) as [|t ts IH];
      intros [|c cs] Hids; try done. rewrite !fmap_cons in Hids. injection Hids as Hid Hids.
    cbn [zip_with]. rewrite !fmap_cons, IH by done. f_equal. simpl. rewrite Hid.
    do 2 f_equal; [f_equal|]; rewrite <-list_fmap_compose;
      rewrite <-(list_fmap_id (offload_after c)) at 2 || rewrite <-(list_fmap_id (prefetch_after c)) at 2;
      apply list_fmap_ext; by intros ? [] _.
  - clear extra. revert Hids. generalize (tasks chain) as cs. induction (p_tasks p) as [|t ts IH];
      intros [|c cs] Hids; try done. rewrite !fmap_cons in Hids. injection Hids as Hid Hids.
    cbn [zip_with]. by rewrite !fmap_cons, IH.
Qed.

(** The types the simulator knows. *)
Definition sim_types : list string := ["weight"; "activation"; "gradient"; "optimizer"; "other"].

Definition typed_chain chain : Prop :=
  Forall (λ o, obj_type o ∈ sim_types) (initial_memory chain) ∧
  Forall (λ t, Forall (λ o, out_type o ∈ sim_types) (outputs t)) (tasks chain).

Lemma sim_type_back ty : ty ∈ sim_types → role_to_sim_type (sim_type_to_role ty) = ty.
Proof.
  intros Hty. unfold sim_types in Hty.
  repeat (apply elem_of_cons in Hty as [->|Hty]; [vm_compute; reflexivity|]). by apply elem_of_nil in Hty.
Qed.

Lemma fmap_same {A} (f : A → A) (l : list A) : Forall (λ x, f x = x) l → f <$> l = l.
Proof. induction 1 as [|x l Hx _ IH]; [done|]. by rewrite fmap_cons, Hx, IH. Qed.

(** A chain adopted as a program converts back to the same chain. *)
Theorem sim_chain_roundtrip chain name :
  typed_chain chain → to_sim_chain (from_sim_chain chain name) = chain.
Proof.
  intros [Hobjs Htasks]. destruct chain as [objs ts fl fc bc bf bt]. unfold to_sim_chain. simpl in *.
  f_equal; rewrite <-list_fmap_compose; apply fmap_same.
  - eapply Forall_impl; [exact Hobjs|]. intros [id sz l ty] Hty. simpl in *.
    unfold object_to_sim, object_from_sim. simpl. by rewrite sim_type_back.
  - eapply Forall_impl; [exact Htasks|]. intros t Ht. destruct t; simpl in *.
    unfold task_to_sim, task_from_sim. simpl. rewrite <-!list_fmap_compose. f_equal; apply fmap_same.
    + eapply Forall_impl; [exact Ht|]. intros [id sz l ty] Hty. simpl in *.
      unfold output_to_sim, output_from_sim. simpl. by rewrite sim_type_back.
    + apply Forall_forall. by intros [] _.
    + apply Forall_forall. by intros [] _.
Qed.
End RoundTrips.

(** ** The contract between the two validators *)
Section Contract.
Context {T : Type} `{Num T}.
Implicit Types (p : Program T).

Lemma output_ids_to_sim (t : TaskSpec T) : out_ids (task_to_sim t) = output_ids t.
Proof. unfold out_ids, output_ids. simpl. rewrite <-list_fmap_compose. by apply list_fmap_ext. Qed.

Lemma known_before_to_sim p i : known_before (to_sim_chain p) i = objects_before p i.
Proof.
  unfold known_before, objects_before, to_sim_chain. simpl. f_equal.
  - by rewrite <-list_fmap_compose.
  - rewrite <-fmap_take. f_equal. induction (take i (p_tasks p)) as [|t ts IH]; [done|].
    by rewrite fmap_cons, !bind_cons, output_ids_to_sim, IH.
Qed.

Lemma directive_ids_to_sim (l : list (TransferDirective T)) :
  trig_obj <$> (directive_to_sim <$> l) = directive_ids l.
Proof. rewrite <-list_fmap_compose. by apply list_fmap_ext. Qed.

Lemma directives_known known (l : list (TransferDirective T)) oid :
  directives_ok known l → oid ∈ trig_obj <$> (directive_to_sim <$> l) → oid ∈ known.
Proof.
  intros [_ Hd]. rewrite directive_ids_to_sim. intros (d & -> & Hin)%list_elem_of_fmap. by apply Hd.
Qed.

Lemma well_formed_resolves p : well_formed p → ids_resolve (to_sim_chain p).
Proof.
  intros Hwf. split.
  - unfold initial_keys, to_sim_chain. simpl. rewrite <-list_fmap_compose. apply Hwf.
  - intros i t Hi. simpl in Hi. rewrite list_lookup_fmap in Hi.
    apply fmap_Some in Hi as (spec & Hspec & ->). rewrite known_before_to_sim.
    destruct (wf_tasks _ Hwf i spec Hspec) as [_ _ Hws Hin Hind Hmut Hond Hfr _ _ Hrel Hoff Hpre _].
    assert (∀ x, x ∈ objects_before p i ∪ list_to_set (output_ids spec) →
      x ∈ objects_before p i ∨ x ∈ output_ids spec) as Hknown.
    { intros x. by rewrite elem_of_union, elem_of_list_to_set. }
    split; rewrite ?output_ids_to_sim; try done.
    + intros r Hr. by apply Hknown, Hrel.
    + intros o Ho. apply Hknown. by apply (directives_known _ (ts_offload_after spec)).
    + intros o Ho. apply Hknown. by apply (directives_known _ (ts_prefetch_after spec)).
  - intros oid loc Hin. rewrite known_before_to_sim. simpl in *. rewrite length_fmap.
    by apply (wf_finals _ Hwf oid loc).
Qed.

(** A program the IR validator accepts never fails the simulator's id
    resolution: the chain it converts to resolves every reference. *)
Theorem validated_program_resolves p :
  validate_program p = Ok tt → validate_id_resolution (to_sim_chain p) = Ok tt.
Proof.
  intros Hv. apply validate_id_resolution_ok, well_formed_resolves, problems_nil.
  unfold validate_program in Hv. by destruct (problems p) as [[|]|].
Qed.
End Contract.

Lemma validated_program_resolves_witness :
  validate_program sample_program = Ok tt ∧
  validate_id_resolution (to_sim_chain sample_program) = Ok tt.
Proof.
  assert (validate_program sample_program = Ok tt) as Hv by (vm_compute; reflexivity).
  split; [exact Hv|]. exact (validated_program_resolves sample_program Hv).
Defined.

Lemma annotations_survive_witness :
  apply_chain_annotations sample_program (to_sim_chain sample_program) = Ok sample_program ∧
  final_locations (to_sim_chain sample_program) = [("W"%string, Backing)].
Proof.
  assert (apply_chain_annotations sample_program (to_sim_chain sample_program) = Ok sample_program)
    as Ha by (vm_compute; reflexivity).
  split; [exact Ha|]. destruct (annotations_survive _ _ _ Ha) as (_ & _ & Hf & _). exact Hf.
Defined.

Lemma sim_chain_roundtrip_witness :
  typed_chain (to_sim_chain sample_program) ∧
  to_sim_chain (from_sim_chain (to_sim_chain sample_program) "again") = to_sim_chain sample_program.
Proof.
  assert (typed_chain (to_sim_chain sample_program)) as Ht.
  { split; apply (bool_decide_unpack _); vm_compute; exact I. }
  split; [exact Ht|]. exact (sim_chain_roundtrip _ _ Ht).
Defined.
