(* ===== verification/Ledger.v ===== *)
(** * The byte ledger ([dataflow/runtime/ledger.py])

    One counter per location.  The observer [on_change] the engine wires in is
    the list [calls] of its calls, kept when [observed].  [charge] and
    [release] are computations of [M Ledger LedgerError]; an exception keeps
    the state it was raised in. *)
From S2P Require Import Prelude SimSchema.
From stdpp Require Import base tactics option list gmap strings.
From Stdlib Require Import ZArith Lia.
Open Scope Z_scope.

Record Ledger := mkLedger {
  fast_capacity : option Z;
  backing_capacity : option Z;
  used_fast : Z;
  used_backing : Z;
  peak_fast_bytes : Z;
  peak_backing_bytes : Z;
  observed : bool;
  calls : list (Location * Z);
}.

Inductive LedgerError :=
| OverCommit (l : Location) (used size cap : Z)
| NegativeUsage (l : Location) (used : Z)
| UsedKeyError (l : Location).

Abbreviation LM := (M Ledger LedgerError).

Definition new_ledger (fast backing : option Z) (obs : bool) : Ledger :=
  mkLedger fast backing 0 0 0 0 obs [].

Definition ledger_capacity (l : Location) (s : Ledger) : option Z :=
  match l with Fast => fast_capacity s | _ => backing_capacity s end.

(** [self.used[location]]: a [KeyError] at any other location. *)
Definition used_at (l : Location) (s : Ledger) : result LedgerError Z :=
  match l with
  | Fast => Ok (used_fast s)
  | Backing => Ok (used_backing s)
  | _ => Err (UsedKeyError l)
  end.

Definition set_used (l : Location) (z : Z) (s : Ledger) : Ledger :=
  match l with
  | Fast => mkLedger (fast_capacity s) (backing_capacity s) z (used_backing s)
              (peak_fast_bytes s) (peak_backing_bytes s) (observed s) (calls s)
  | _ => mkLedger (fast_capacity s) (backing_capacity s) (used_fast s) z
           (peak_fast_bytes s) (peak_backing_bytes s) (observed s) (calls s)
  end.

Definition bump_peak (l : Location) (s : Ledger) : Ledger :=
  match l with
  | Fast => mkLedger (fast_capacity s) (backing_capacity s) (used_fast s) (used_backing s)
              (Z.max (peak_fast_bytes s) (used_fast s)) (peak_backing_bytes s) (observed s) (calls s)
  | Backing => mkLedger (fast_capacity s) (backing_capacity s) (used_fast s) (used_backing s)
              (peak_fast_bytes s) (Z.max (peak_backing_bytes s) (used_backing s)) (observed s) (calls s)
  | _ => s
  end.

Definition notify (l : Location) (z : Z) (s : Ledger) : Ledger :=
  if observed s then
    mkLedger (fast_capacity s) (backing_capacity s) (used_fast s) (used_backing s)
      (peak_fast_bytes s) (peak_backing_bytes s) (observed s) (calls s ++ [(l, z)])
  else s.

(** [None] when unbounded. *)
Definition free_bytes (l : Location) (s : Ledger) : result LedgerError (option Z) :=
  match ledger_capacity l s with
  | None => Ok None
  | Some cap => u ← used_at l s; Ok (Some (cap - u))
  end.

Definition can_reserve (l : Location) (size : Z) (s : Ledger) : result LedgerError bool :=
  if size <=? 0 then Ok true
  else match ledger_capacity l s with
       | None => Ok true
       | Some cap => u ← used_at l s; Ok (u + size <=? cap)
       end.

Definition charge (l : Location) (size : Z) : LM unit :=
  if size <=? 0 then mret tt
  else
    s ← get;
    u ← lift (used_at l s);
    match ledger_capacity l s with
    | Some cap => check (u + size <=? cap) (OverCommit l u size cap)
    | None => mret tt
    end ;;
    modify (set_used l (u + size)) ;;
    modify (bump_peak l) ;;
    modify (notify l (u + size)).

Definition ledger_release (l : Location) (size : Z) : LM unit :=
  if size <=? 0 then mret tt
  else
    s ← get;
    u ← lift (used_at l s);
    modify (set_used l (u - size)) ;;
    check (0 <=? u - size) (NegativeUsage l (u - size)) ;;
    modify (notify l (u - size)).

(** ** Accounting invariant *)
Definition within (cap : option Z) (z : Z) : Prop := ∀ c, cap = Some c → z ≤ c.

Record LedgerInv (s : Ledger) : Prop := {
  li_fast : 0 ≤ used_fast s ≤ peak_fast_bytes s;
  li_backing : 0 ≤ used_backing s ≤ peak_backing_bytes s;
  li_cap_fast : within (fast_capacity s) (peak_fast_bytes s);
  li_cap_backing : within (backing_capacity s) (peak_backing_bytes s);
}.

Lemma within_max cap a b : within cap a → within cap b → within cap (Z.max a b).
Proof. intros Ha Hb c Hc. specialize (Ha c Hc). specialize (Hb c Hc). lia. Qed.

Lemma new_ledger_inv fast backing obs :
  within fast 0 → within backing 0 → LedgerInv (new_ledger fast backing obs).
Proof. by split. Qed.

Lemma keeps_charge l size : keeps LedgerInv (charge l size).
Proof.
  intros s [Hf Hb Hcf Hcb]. unfold charge. destruct (Z.leb_spec size 0) as [|Hs]; [by apply wp_ret|].
  destruct l; simpl; wp_auto; try done; simplify_eq; simpl.
  all: unfold notify; simpl; destruct (observed s); split; simpl; try done; try lia.
  all: rewrite ?Heqo; apply within_max; [done|]; intros c [=]; lia.
Qed.

Lemma keeps_ledger_release l size : keeps LedgerInv (ledger_release l size).
Proof.
  intros s [Hf Hb Hcf Hcb]. unfold ledger_release. destruct (Z.leb_spec size 0) as [|Hs]; [by apply wp_ret|].
  destruct l; simpl; wp_auto; try done; simplify_eq; simpl.
  all: unfold notify; simpl; destruct (observed s); split; simpl; try done; lia.
Qed.

(** ** Trajectories *)
Inductive LedgerOp := Charge (l : Location) (size : Z) | Release (l : Location) (size : Z).

Definition do_op (op : LedgerOp) : LM unit :=
  match op with Charge l z => charge l z | Release l z => ledger_release l z end.

(** Bytes an operation adds at a location. *)
Definition delta (l : Location) (op : LedgerOp) : Z :=
  match op with
  | Charge l' z => if decide (l' = l) then Z.max 0 z else 0
  | Release l' z => if decide (l' = l) then - Z.max 0 z else 0
  end.

(** The highest value a running sum reaches, its start included. *)
Fixpoint peak_of (start : Z) (ds : list Z) : Z :=
  match ds with [] => start | d :: ds => Z.max start (peak_of (start + d) ds) end.

Lemma do_op_spec op s :
  LedgerInv s →
  wp (do_op op) s (λ _ s', LedgerInv s' ∧
    used_fast s' = used_fast s + delta Fast op ∧ used_backing s' = used_backing s + delta Backing op ∧
    peak_fast_bytes s' = Z.max (peak_fast_bytes s) (used_fast s') ∧
    peak_backing_bytes s' = Z.max (peak_backing_bytes s) (used_backing s') ∧
    fast_capacity s' = fast_capacity s ∧ backing_capacity s' = backing_capacity s) (λ _ _, True).
Proof.
  intros Hs. apply wp_and with (R' := λ _ _, True); [destruct op; [by apply keeps_charge|by apply keeps_ledger_release]|].
  destruct Hs as [Hf Hb _ _]. destruct op as [l z|l z]; simpl.
  - unfold charge. destruct (Z.leb_spec z 0) as [Hz|Hz].
    { apply wp_ret. destruct l; simpl; split_and!; repeat case_decide; lia || done. }
    destruct l; simpl; wp_auto; try done; simplify_eq; unfold notify; simpl; destruct (observed s); simpl;
      split_and!; try done; lia.
  - unfold ledger_release. destruct (Z.leb_spec z 0) as [Hz|Hz].
    { apply wp_ret. destruct l; simpl; split_and!; repeat case_decide; lia || done. }
    destruct l; simpl; wp_auto; try done; simplify_eq; unfold notify; simpl; destruct (observed s); simpl;
      split_and!; try done; lia.
Qed.

(** A ledger is an exact account: after any sequence of charges and releases
    that raised nothing, each counter is the sum of the bytes charged minus the
    bytes released, each peak is the highest value the counter has had, and no
    peak exceeds the capacity. *)
Theorem ledger_is_exact fast backing obs ops s :
  within fast 0 → within backing 0 →
  forM_ ops do_op (new_ledger fast backing obs) = (Ok tt, s) →
  used_fast s = sumZ (delta Fast <$> ops) ∧
  used_backing s = sumZ (delta Backing <$> ops) ∧
  peak_fast_bytes s = peak_of 0 (delta Fast <$> ops) ∧
  peak_backing_bytes s = peak_of 0 (delta Backing <$> ops) ∧
  within fast (peak_fast_bytes s) ∧ within backing (peak_backing_bytes s).
Proof.
  intros Hf Hb.
  assert (∀ s0, LedgerInv s0 → wp (forM_ ops do_op) s0 (λ _ s, LedgerInv s ∧
    used_fast s = used_fast s0 + sumZ (delta Fast <$> ops) ∧
    used_backing s = used_backing s0 + sumZ (delta Backing <$> ops) ∧
    peak_fast_bytes s = Z.max (peak_fast_bytes s0) (peak_of (used_fast s0) (delta Fast <$> ops)) ∧
    peak_backing_bytes s = Z.max (peak_backing_bytes s0) (peak_of (used_backing s0) (delta Backing <$> ops)) ∧
    fast_capacity s = fast_capacity s0 ∧ backing_capacity s = backing_capacity s0) (λ _ _, True)) as Hgen.
  { clear. induction ops as [|op ops IH]; intros s0 Hs0.
    - apply wp_ret. destruct Hs0 as [? ? ? ?]. split; [by split|]. simpl. split_and!; lia || done.
    - cbn [forM_]. rewrite !fmap_cons. cbn [sumZ foldr peak_of].
      apply wp_bind. eapply wp_mono; [by apply do_op_spec| |done].
      intros [] s1 (Hs1 & Huf & Hub & Hpf & Hpb & Hcf & Hcb).
      eapply wp_mono; [by apply IH| |done]. intros [] s2 (Hs2 & Huf2 & Hub2 & Hpf2 & Hpb2 & Hcf2 & Hcb2).
      pose proof (li_fast _ Hs0). pose proof (li_backing _ Hs0).
      rewrite Huf2, Hub2, Hpf2, Hpb2, Hpf, Hpb, Hcf2, Hcb2, Huf, Hub. unfold sumZ.
      assert (∀ z l, z ≤ peak_of z l) as Hge by (intros z []; simpl; lia).
      pose proof (Hge (used_fast s0 + delta Fast op) (delta Fast <$> ops)).
      pose proof (Hge (used_backing s0 + delta Backing op) (delta Backing <$> ops)).
      split_and!; try done; lia. }
  intros Hrun. specialize (Hgen _ (new_ledger_inv fast backing obs Hf Hb)).
  unfold wp in Hgen. rewrite Hrun in Hgen. simpl in Hgen.
  destruct Hgen as ([_ _ Hcf Hcb] & Huf & Hub & Hpf & Hpb & Hef & Heb). rewrite Hef in Hcf. rewrite Heb in Hcb.
  assert (∀ z l, z ≤ peak_of z l) as Hge by (intros z []; simpl; lia).
  pose proof (Hge 0 (delta Fast <$> ops)). pose proof (Hge 0 (delta Backing <$> ops)).
  split_and!; try done; lia.
Qed.

Definition sample_ops : list LedgerOp :=
  [Charge Fast 3; Charge Backing 4; Charge Fast 2; Release Fast 3; Charge Fast 1].

Lemma ledger_is_exact_witness :
  ∃ s, forM_ sample_ops do_op (new_ledger (Some 5) None true) = (Ok tt, s) ∧
       used_fast s = 3 ∧ peak_fast_bytes s = 5.
Proof.
  assert (within (Some 5) 0) as H5 by (intros c [= <-]; lia).
  assert (within None 0) as HN by (intros c [=]).
  exists (snd (forM_ sample_ops do_op (new_ledger (Some 5) None true))).
  assert (forM_ sample_ops do_op (new_ledger (Some 5) None true) =
    (Ok tt, snd (forM_ sample_ops do_op (new_ledger (Some 5) None true)))) as Hrun
    by (vm_compute; reflexivity).
  split; [exact Hrun|].
  destruct (ledger_is_exact (Some 5) None true sample_ops _ H5 HN Hrun) as (H1 & _ & H2 & _).
  rewrite H1, H2. split; vm_compute; reflexivity.
Defined.

(** Admission is exact: when [can_reserve] says yes, [charge] succeeds and
    adds the bytes, and when it says no, [charge] raises the over-commit and
    leaves the ledger as it was. *)
Theorem can_reserve_admits l size s b :
  loc_known l = true → can_reserve l size s = Ok b →
  if b then ∃ s', charge l size s = (Ok tt, s') ∧
                  used_at l s' = (u ← used_at l s; Ok (u + Z.max 0 size))
  else ∃ used cap, charge l size s = (Err (OverCommit l used size cap), s).
Proof.
  intros Hl. unfold can_reserve, charge. destruct (Z.leb_spec size 0) as [Hz|Hz].
  { intros [= <-]. exists s. split; [done|]. destruct l; simpl; try done; do 2 f_equal; lia. }
  destruct (ledger_capacity l s) as [cap|] eqn:Hcap.
  - intros (u & Hu & [= <-])%result_bind_ok. destruct (Z.leb_spec (u + size) cap) as [Hfit|Hfit].
    + destruct l; simpl in *; try done; simplify_eq; unfold mbind, M_bind; simpl; rewrite Hcap;
        rewrite (proj2 (Z.leb_le _ _) Hfit); simpl; unfold notify; simpl;
        destruct (observed s); eexists; (split; [reflexivity|]); simpl; do 2 f_equal; lia.
    + destruct l; simpl in *; try done; simplify_eq; unfold mbind, M_bind; simpl; rewrite Hcap;
        rewrite (proj2 (Z.leb_gt _ _) Hfit); eauto.
  - intros [= <-]. destruct l; simpl in *; try done; unfold mbind, M_bind; simpl; rewrite Hcap; simpl;
      unfold notify; simpl; destruct (observed s); eexists; (split; [reflexivity|]); simpl; do 2 f_equal; lia.
Qed.

Lemma can_reserve_admits_witness :
  loc_known Fast = true ∧ can_reserve Fast 6 (new_ledger (Some 5) None false) = Ok false ∧
  ∃ used cap, charge Fast 6 (new_ledger (Some 5) None false) =
    (Err (OverCommit Fast used 6 cap), new_ledger (Some 5) None false).
Proof.
  split; [reflexivity|]. split; [reflexivity|].
  exact (can_reserve_admits Fast 6 (new_ledger (Some 5) None false) false eq_refl eq_refl).
Defined.
