(* ===== verification/Slab.v ===== *)
(** * The slab sub-allocator ([dataflow/runtime/slab.py])

    Offsets carved best-fit from one allocation; freed ranges coalesce with
    their neighbours.  The holes are the two parallel lists of the code.  The
    specification is the set of free bytes: [allocate] takes a range of free
    bytes out of it, [free] puts the range back. *)
From S2P Require Import Prelude.
From stdpp Require Import base tactics option list gmap strings sorting.
From Stdlib Require Import ZArith Lia.
Open Scope Z_scope.

Definition ALIGN : Z := 512.

Record Slab := mkSlab {
  capacity_bytes : Z;
  hole_offsets : list Z;
  hole_sizes : list Z;
  used_bytes : Z;
}.

(** [__post_init__]: [scaled] is the float product
    [int(capacity_bytes * headroom_factor)]. *)
Definition post_init (capacity scaled : Z) : Slab :=
  let headroom := Z.min scaled (2 * 1024 ^ 3) in
  let cap := align_up ALIGN (capacity + headroom) in
  mkSlab cap [0] [cap] 0.

(** The scan of [allocate]: index and size of the best hole so far. *)
Fixpoint best_fit (size : Z) (i : nat) (best : option (nat * Z)) (sizes : list Z) : option (nat * Z) :=
  match sizes with
  | [] => best
  | hole :: sizes =>
      if (size <=? hole) && (match best with None => true | Some (_, b) => hole <? b end) then
        if hole =? size then Some (i, hole) else best_fit size (S i) (Some (i, hole)) sizes
      else best_fit size (S i) best sizes
  end.

(** [del l[i]] and [l.insert(i, x)]. *)
Definition del_at {A} (i : nat) (l : list A) : list A := take i l ++ drop (S i) l.
Definition insert_at {A} (i : nat) (x : A) (l : list A) : list A := take i l ++ x :: drop i l.

Definition allocate (size_bytes : Z) (s : Slab) : option Z * Slab :=
  let size := align_up ALIGN size_bytes in
  match best_fit size 0 None (hole_sizes s) with
  | None => (None, s)
  | Some (best, _) =>
      match hole_offsets s !! best, hole_sizes s !! best with
      | Some offset, Some hole =>
          let remaining := hole - size in
          (Some offset,
           if remaining =? 0
           then mkSlab (capacity_bytes s) (del_at best (hole_offsets s)) (del_at best (hole_sizes s))
                  (used_bytes s + size)
           else mkSlab (capacity_bytes s) (<[best := offset + size]> (hole_offsets s))
                  (<[best := remaining]> (hole_sizes s)) (used_bytes s + size))
      | _, _ => (None, s) (* the lists have equal length *)
      end
  end.

(** The two coalescing steps of [free] on the parallel lists. *)
Definition coalesce_next (i : nat) (offset size : Z) (offs szs : list Z) : list Z * list Z :=
  match offs !! i, szs !! i with
  | Some o, Some z =>
      if offset + size =? o then (<[i := offset]> offs, <[i := z + size]> szs)
      else (insert_at i offset offs, insert_at i size szs)
  | _, _ => (insert_at i offset offs, insert_at i size szs)
  end.

Definition coalesce_prev (i : nat) (offs szs : list Z) : list Z * list Z :=
  match i with
  | O => (offs, szs)
  | S j =>
      match offs !! j, szs !! j, offs !! i, szs !! i with
      | Some oj, Some zj, Some oi, Some zi =>
          if oj + zj =? oi then (del_at i offs, del_at i (<[j := zj + zi]> szs)) else (offs, szs)
      | _, _, _, _ => (offs, szs)
      end
  end.

Definition free (offset size_bytes : Z) (s : Slab) : Slab :=
  let size := align_up ALIGN size_bytes in
  let i := bisect_left (hole_offsets s) offset in
  let '(offs, szs) := coalesce_next i offset size (hole_offsets s) (hole_sizes s) in
  let '(offs, szs) := coalesce_prev i offs szs in
  mkSlab (capacity_bytes s) offs szs (used_bytes s - size).

(** ** Invariant and abstraction *)
Definition holes (s : Slab) : list (Z * Z) := zip (hole_offsets s) (hole_sizes s).

Definition in_range (r : Z * Z) (x : Z) : Prop := r.1 ≤ x < r.1 + r.2.

(** The byte [x] of the slab is free. *)
Definition free_at (s : Slab) (x : Z) : Prop := ∃ h, h ∈ holes s ∧ in_range h x.

(** Strictly separated: sorted, disjoint and fully coalesced. *)
Definition apart (a b : Z * Z) : Prop := a.1 + a.2 < b.1.

Definition hole_ok (cap : Z) (h : Z * Z) : Prop :=
  0 ≤ h.1 ∧ 0 < h.2 ∧ h.1 + h.2 ≤ cap ∧ (ALIGN | h.1) ∧ (ALIGN | h.2).

Record SlabInv (s : Slab) : Prop := {
  si_length : length (hole_offsets s) = length (hole_sizes s);
  si_sorted : StronglySorted apart (holes s);
  si_holes : Forall (hole_ok (capacity_bytes s)) (holes s);
  si_used : used_bytes s = capacity_bytes s - sumZ (hole_sizes s);
}.

(** ** The parallel lists as one list of holes *)
Definition of_holes (cap : Z) (hs : list (Z * Z)) (used : Z) : Slab := mkSlab cap hs.*1 hs.*2 used.

Lemma of_holes_eq s :
  length (hole_offsets s) = length (hole_sizes s) →
  s = of_holes (capacity_bytes s) (holes s) (used_bytes s).
Proof.
  intros Hl. destruct s; unfold of_holes, holes; simpl in *.
  f_equal; [by rewrite fst_zip by lia|by rewrite snd_zip by lia].
Qed.

Lemma holes_of_holes cap hs used : holes (of_holes cap hs used) = hs.
Proof. unfold holes, of_holes. simpl. apply zip_fst_snd. Qed.

Lemma split_holes s l1 x l2 :
  length (hole_offsets s) = length (hole_sizes s) → holes s = l1 ++ x :: l2 →
  hole_offsets s = l1.*1 ++ x.1 :: l2.*1 ∧ hole_sizes s = l1.*2 ++ x.2 :: l2.*2.
Proof.
  intros Hl Hh. pose proof (of_holes_eq s Hl) as Heq. rewrite Hh in Heq.
  pose proof (f_equal hole_offsets Heq) as H1. pose proof (f_equal hole_sizes Heq) as H2. simpl in H1, H2.
  by rewrite !fmap_app in H1, H2.
Qed.

Section middle.
Context {A : Type}.
Implicit Types (l : list A) (x : A).
Lemma insert_middle l1 x y l2 : <[length l1 := y]> (l1 ++ x :: l2) = l1 ++ y :: l2.
Proof. induction l1 as [|z l1 IH]; simpl; [done|]. by f_equal. Qed.
Lemma del_at_middle l1 x l2 : del_at (length l1) (l1 ++ x :: l2) = l1 ++ l2.
Proof.
  unfold del_at. rewrite take_app_length. f_equal.
  rewrite drop_app_ge by lia. replace (S (length l1) - length l1)%nat with 1%nat by lia. done.
Qed.
Lemma insert_at_middle l1 x l2 : insert_at (length l1) x (l1 ++ l2) = l1 ++ x :: l2.
Proof. unfold insert_at. by rewrite take_app_length, drop_app_length. Qed.
End middle.

(** ** Best fit *)
Definition is_best (size : Z) (sizes : list Z) (r : option (nat * Z)) : Prop :=
  match r with
  | Some (j, h) => sizes !! j = Some h ∧ size ≤ h ∧ ∀ h', h' ∈ sizes → size ≤ h' → h ≤ h'
  | None => ∀ h, h ∈ sizes → h < size
  end.

Lemma best_fit_scan size rest seen best :
  is_best size seen best → is_best size (seen ++ rest) (best_fit size (length seen) best rest).
Proof.
  revert seen best. induction rest as [|h rest IH]; intros seen best Hb; cbn [best_fit].
  { by rewrite app_nil_r. }
  assert (∀ best', is_best size (seen ++ [h]) best' →
    is_best size (seen ++ h :: rest) (best_fit size (S (length seen)) best' rest)) as Hnext.
  { intros best' Hb'. specialize (IH (seen ++ [h]) best' Hb'). rewrite length_app in IH. simpl in IH.
    rewrite <-app_assoc in IH. by replace (S (length seen)) with (length seen + 1)%nat by lia. }
  destruct (Z.leb_spec size h) as [Hle|Hlt]; simpl.
  2: { apply Hnext. destruct best as [[j b]|]; simpl in *.
       - destruct Hb as (Hj & Hs & Hmin). split_and!; [by apply lookup_app_l_Some|done|].
         intros h' [Hin|Hin%list_elem_of_singleton]%elem_of_app Hs'; [auto|lia].
       - intros h' [Hin|Hin%list_elem_of_singleton]%elem_of_app; [auto|lia]. }
  assert (Hhere : (match best with None => true | Some (_, b) => h <? b end) = true →
    is_best size (seen ++ [h]) (Some (length seen, h))).
  { intros Hc. split_and!; [by apply list_lookup_middle|done|].
    intros h' [Hin|Hin%list_elem_of_singleton]%elem_of_app Hs'; [|lia].
    destruct best as [[j b]|]; simpl in *; [|specialize (Hb h' Hin); lia].
    destruct Hb as (_ & _ & Hmin). specialize (Hmin h' Hin Hs'). lia. }
  destruct (match best with None => true | Some (_, b) => h <? b end) eqn:Hc.
  - destruct (Z.eqb_spec h size) as [->|Hne]; [|by apply Hnext, Hhere].
    split_and!; [by apply list_lookup_middle|done|]. intros h' _ Hs'. lia.
  - apply Hnext. destruct best as [[j b]|]; [|done]. simpl in *. destruct Hb as (Hj & Hs & Hmin).
    split_and!; [by apply lookup_app_l_Some|done|].
    intros h' [Hin|Hin%list_elem_of_singleton]%elem_of_app Hs'; [auto|lia].
Qed.

Lemma best_fit_spec size sizes : is_best size sizes (best_fit size 0 None sizes).
Proof. apply (best_fit_scan size sizes [] None). by intros h ?%elem_of_nil. Qed.

(** ** Allocation *)
Definition carve (o h size : Z) : list (Z * Z) :=
  if h - size =? 0 then [] else [(o + size, h - size)].

(** Where the carve happens: the best hole, between the holes around it. *)
Lemma allocate_shape size_bytes s off s' :
  SlabInv s → allocate size_bytes s = (Some off, s') →
  ∃ l1 h l2, holes s = l1 ++ (off, h) :: l2 ∧ align_up ALIGN size_bytes ≤ h ∧
    (∀ z, z ∈ hole_sizes s → align_up ALIGN size_bytes ≤ z → h ≤ z) ∧
    s' = of_holes (capacity_bytes s) (l1 ++ carve off h (align_up ALIGN size_bytes) ++ l2)
           (used_bytes s + align_up ALIGN size_bytes).
Proof.
  intros Hinv. unfold allocate. set (size := align_up ALIGN size_bytes).
  pose proof (best_fit_spec size (hole_sizes s)) as Hbest.
  destruct (best_fit size 0 None (hole_sizes s)) as [[j h]|]; [|done]. simpl in Hbest.
  destruct Hbest as (Hj & Hs & Hmin). rewrite Hj.
  destruct (hole_offsets s !! j) as [o|] eqn:Ho; [|done]. intros [= <- <-].
  assert (holes s !! j = Some (o, h)) as Hh by (apply lookup_zip_with_Some; eauto).
  apply list_elem_of_split_length in Hh as (l1 & l2 & Hsplit & ->).
  exists l1, h, l2. split_and!; try done. unfold carve.
  destruct (split_holes s l1 (o, h) l2 (si_length _ Hinv) Hsplit) as [-> ->].
  unfold of_holes; simpl. rewrite !fmap_app. simpl.
  destruct (h - size =? 0); simpl.
  - f_equal; [rewrite <-(length_fmap fst l1)|rewrite <-(length_fmap snd l1)]; apply del_at_middle.
  - f_equal; [rewrite <-(length_fmap fst l1)|rewrite <-(length_fmap snd l1)]; apply insert_middle.
Qed.

Lemma align_size n : 0 < n → 0 < align_up ALIGN n ∧ (ALIGN | align_up ALIGN n) ∧ n ≤ align_up ALIGN n.
Proof.
  intros Hn. destruct (align_up_spec ALIGN n) as [Hb Hm]; [done|].
  split_and!; [lia|by apply Z.mod_divide|lia].
Qed.

(** Ranges given by [StronglySorted apart] around a middle one. *)
Lemma around l1 (m : list (Z * Z)) l2 :
  StronglySorted apart (l1 ++ m ++ l2) ↔
  StronglySorted apart l1 ∧ StronglySorted apart m ∧ StronglySorted apart l2 ∧
  (∀ a x, a ∈ l1 → x ∈ m → apart a x) ∧ (∀ x b, x ∈ m → b ∈ l2 → apart x b) ∧
  (∀ a b, a ∈ l1 → b ∈ l2 → apart a b).
Proof.
  rewrite !StronglySorted_app_iff. setoid_rewrite elem_of_app. naive_solver.
Qed.

Lemma carve_ok cap o h size :
  hole_ok cap (o, h) → 0 < size → size ≤ h → (ALIGN | size) →
  Forall (hole_ok cap) (carve o h size) ∧ StronglySorted apart (carve o h size) ∧
  sumZ (carve o h size).*2 = h - size ∧
  ∀ r, r ∈ carve o h size → r.1 = o + size ∧ r.1 + r.2 = o + h.
Proof.
  intros (H0 & H1 & H2 & H3 & H4) Hs Hle Ha. unfold carve. simpl in *.
  destruct (Z.eqb_spec (h - size) 0) as [He|Hne].
  - split_and!; [constructor|constructor|simpl; lia|by intros r ?%elem_of_nil].
  - split_and!.
    + apply Forall_singleton. unfold hole_ok; simpl. split_and!; try lia; [by apply Z.divide_add_r|by apply Z.divide_sub_r].
    + repeat constructor.
    + simpl. lia.
    + intros r ->%list_elem_of_singleton. simpl. lia.
Qed.

Definition same_bytes (s s' : Slab) (r : Z * Z) : Prop :=
  ∀ x, free_at s' x ↔ free_at s x ∧ ¬ in_range r x.

(** A successful allocation. *)
Lemma allocate_ok size_bytes s off s' :
  SlabInv s → 0 < size_bytes → allocate size_bytes s = (Some off, s') →
  SlabInv s' ∧ capacity_bytes s' = capacity_bytes s ∧
  0 ≤ off ∧ off + align_up ALIGN size_bytes ≤ capacity_bytes s ∧ (ALIGN | off) ∧
  (∀ x, in_range (off, align_up ALIGN size_bytes) x → free_at s x) ∧
  same_bytes s s' (off, align_up ALIGN size_bytes).
Proof.
  intros Hinv Hn Halloc. destruct (align_size size_bytes Hn) as (Hs & Hal & _).
  destruct (allocate_shape _ _ _ _ Hinv Halloc) as (l1 & h & l2 & Hsplit & Hle & _ & ->).
  set (size := align_up ALIGN size_bytes) in *.
  destruct Hinv as [Hlen Hsort Hok Hused]. rewrite Hsplit in Hsort, Hok.
  apply Forall_app in Hok as [Hok1 [Hokh Hok2]%Forall_cons].
  destruct (carve_ok _ _ _ size Hokh Hs Hle Hal) as (Hcok & Hcs & Hcsum & Hcr).
  change ((off, h) :: l2) with ([(off, h)] ++ l2) in Hsort. apply around in Hsort as (Hs1 & _ & Hs2 & H1m & Hm2 & H12).
  destruct Hokh as (Ho1 & Ho2 & Ho3 & Ho4 & Ho5). simpl in *.
  assert (∀ a, a ∈ l1 → a.1 + a.2 < off) as Hbefore.
  { intros a Ha. apply (H1m a (off, h) Ha), list_elem_of_here. }
  assert (∀ b, b ∈ l2 → off + h < b.1) as Hafter.
  { intros b Hb. apply (Hm2 (off, h) b); [apply list_elem_of_here|done]. }
  split_and!; try done; try lia.
  - split; [simpl; by rewrite !length_fmap|rewrite holes_of_holes..|].
    + apply around. split_and!; try done.
      * intros a x Ha Hx. destruct (Hcr x Hx). specialize (Hbefore a Ha). unfold apart. lia.
      * intros x b Hx Hb. destruct (Hcr x Hx). specialize (Hafter b Hb). unfold apart. lia.
    + by rewrite !Forall_app.
    + destruct (split_holes s l1 (off, h) l2 Hlen Hsplit) as [_ Hsz].
      simpl. rewrite Hused, Hsz, !fmap_app, !sumZ_app, Hcsum. simpl. lia.
  - intros x Hx. exists (off, h). split; [rewrite Hsplit; set_solver|]. unfold in_range in *; simpl in *. lia.
  - intros x. unfold free_at. rewrite holes_of_holes, Hsplit. unfold in_range. simpl. split.
    + intros (r & [Hr|[Hr|Hr]%elem_of_app]%elem_of_app & Hx).
      * split; [exists r; set_solver|]. specialize (Hbefore r Hr). lia.
      * destruct (Hcr r Hr) as [E1 E2]. split; [|lia]. exists (off, h). split; [set_solver|simpl; lia].
      * split; [exists r; set_solver|]. specialize (Hafter r Hr). lia.
    + intros [(r & [Hr|[->|Hr]%elem_of_cons]%elem_of_app & Hx) Hout].
      * exists r. set_solver.
      * simpl in Hx. exists (off + size, h - size). split; [|simpl; lia].
        unfold carve. destruct (Z.eqb_spec (h - size) 0); [lia|]. set_solver.
      * exists r. set_solver.
Qed.

(** ** Freeing *)

(** The hole the freed range becomes, with the holes around it. *)
Definition merge_next (off size : Z) (l2 : list (Z * Z)) : list (Z * Z) :=
  match l2 with
  | (o, z) :: l2' => if off + size =? o then (off, z + size) :: l2' else (off, size) :: l2
  | [] => [(off, size)]
  end.

Lemma merge_next_raw off size a1 b1 (l2 : list (Z * Z)) :
  length a1 = length b1 →
  coalesce_next (length a1) off size (a1 ++ l2.*1) (b1 ++ l2.*2) =
  (a1 ++ (merge_next off size l2).*1, b1 ++ (merge_next off size l2).*2).
Proof.
  intros Hl. unfold coalesce_next, merge_next. destruct l2 as [|[o z] l2].
  - rewrite !lookup_ge_None_2 by (rewrite length_app; simpl; lia).
    rewrite insert_at_middle. rewrite Hl at 1. by rewrite insert_at_middle.
  - rewrite !fmap_cons. cbn [fst snd]. rewrite !list_lookup_middle by done.
    destruct (off + size =? o).
    + rewrite insert_middle. rewrite Hl at 1. by rewrite insert_middle.
    + rewrite insert_at_middle. rewrite Hl at 1. by rewrite insert_at_middle.
Qed.

(** The last hole before the range, if it touches. *)
Lemma merge_prev_raw a b oj zj oi zi a2 b2 :
  length a = length b →
  coalesce_prev (S (length a)) (a ++ oj :: oi :: a2) (b ++ zj :: zi :: b2) =
  if oj + zj =? oi then (a ++ oj :: a2, b ++ (zj + zi) :: b2)
  else (a ++ oj :: oi :: a2, b ++ zj :: zi :: b2).
Proof.
  intros Hl. unfold coalesce_prev. rewrite !list_lookup_middle by done.
  assert (∀ (l : list Z) x y k, (l ++ x :: y :: k) !! S (length l) = Some y) as Hnext.
  { intros l x y k. rewrite lookup_app_r by lia. by replace (S (length l) - length l)%nat with 1%nat by lia. }
  rewrite Hnext, Hl, Hnext. destruct (oj + zj =? oi); [|done].
  assert (∀ (l : list Z) x y k, del_at (S (length l)) (l ++ x :: y :: k) = l ++ x :: k) as Hdel.
  { intros l x y k. pose proof (del_at_middle (l ++ [x]) y k) as E. rewrite length_app in E. simpl in E.
    rewrite <-!app_assoc in E. simpl in E. by replace (length l + 1)%nat with (S (length l)) in E by lia. }
  rewrite insert_middle, Hdel. rewrite <-Hl at 1. by rewrite Hdel.
Qed.

Definition merge_prev (l1 cur : list (Z * Z)) : list (Z * Z) :=
  match cur with
  | (oi, zi) :: l2 =>
      match last l1 with
      | Some (oj, zj) =>
          if oj + zj =? oi then removelast l1 ++ (oj, zj + zi) :: l2 else l1 ++ cur
      | None => cur
      end
  | [] => l1
  end.

Lemma coalesce_shape off size l1 l2 :
  (let '(offs, szs) := coalesce_next (length l1) off size (l1.*1 ++ l2.*1) (l1.*2 ++ l2.*2) in
   coalesce_prev (length l1) offs szs) =
  ((merge_prev l1 (merge_next off size l2)).*1, (merge_prev l1 (merge_next off size l2)).*2).
Proof.
  pose proof (merge_next_raw off size l1.*1 l1.*2 l2) as E. rewrite !length_fmap in E. rewrite E by done. clear E.
  assert (∃ oi zi l2', merge_next off size l2 = (oi, zi) :: l2') as (oi & zi & l2' & ->).
  { unfold merge_next. destruct l2 as [|[o z] l2]; [eauto|]. destruct (off + size =? o); eauto. }
  unfold merge_prev. destruct l1 as [|[oj zj] l1 _] using rev_ind; [done|].
  rewrite last_snoc, removelast_last, length_app. cbn [length].
  replace (length l1 + 1)%nat with (S (length l1)) by lia.
  rewrite !fmap_app, !fmap_cons, <-!app_assoc. cbn [app fst snd].
  change ([].*1 ++ ?k) with k. change ([].*2 ++ ?k) with k.
  pose proof (merge_prev_raw l1.*1 l1.*2 oj zj oi zi l2'.*1 l2'.*2) as E. rewrite !length_fmap in E.
  rewrite E by done. destruct (oj + zj =? oi); by rewrite !fmap_app.
Qed.

Definition covers (hs : list (Z * Z)) (x : Z) : Prop := ∃ h, h ∈ hs ∧ in_range h x.

Lemma covers_cons h hs x : covers (h :: hs) x ↔ in_range h x ∨ covers hs x.
Proof. unfold covers. setoid_rewrite elem_of_cons. naive_solver. Qed.
Lemma covers_app h1 h2 x : covers (h1 ++ h2) x ↔ covers h1 x ∨ covers h2 x.
Proof. unfold covers. setoid_rewrite elem_of_app. naive_solver. Qed.
Lemma covers_nil x : covers [] x ↔ False.
Proof. unfold covers. split; [|done]. by intros (? & ?%elem_of_nil & _). Qed.

Ltac sums :=
  rewrite ?fmap_app, ?fmap_cons, ?sumZ_app, ?sumZ_cons; cbn [fst snd];
  change (sumZ [].*2) with 0; lia.

Section Merge.
Context (cap off size : Z).
Context (Hoff : 0 ≤ off) (Hsize : 0 < size) (Hcap : off + size ≤ cap).
Context (Halo : (ALIGN | off)) (Hals : (ALIGN | size)).

(** Coalescing with the next hole. *)
Lemma merge_next_ok l2 :
  StronglySorted apart l2 → Forall (hole_ok cap) l2 → (∀ b, b ∈ l2 → off + size ≤ b.1) →
  ∃ z l2', merge_next off size l2 = (off, z) :: l2' ∧
    StronglySorted apart ((off, z) :: l2') ∧ Forall (hole_ok cap) ((off, z) :: l2') ∧
    z + sumZ l2'.*2 = size + sumZ l2.*2 ∧
    ∀ x, covers ((off, z) :: l2') x ↔ in_range (off, size) x ∨ covers l2 x.
Proof.
  intros Hs Hok Hb. unfold merge_next. destruct l2 as [|[o z] l2].
  { exists size, []. split_and!; [done|constructor; constructor|by apply Forall_singleton|done|].
    intros x. by rewrite covers_cons. }
  inversion Hs as [|? ? Hs' Hz]; subst. apply Forall_cons in Hok as [(Ho1 & Ho2 & Ho3 & Ho4 & Ho5) Hok].
  rewrite Forall_forall in Hz. specialize (Hb (o, z) (list_elem_of_here _ _)). cbn [fst snd] in *.
  destruct (Z.eqb_spec (off + size) o) as [He|Hne].
  - exists (z + size), l2. split_and!; [done|..].
    + constructor; [done|]. apply Forall_forall. intros b Hb'. specialize (Hz b Hb').
      unfold apart in *; simpl in *. lia.
    + apply Forall_cons. split; [|done]. unfold hole_ok; simpl. split_and!; try lia; [done|by apply Z.divide_add_r].
    + sums.
    + intros x. rewrite !covers_cons. unfold in_range; simpl. intuition lia.
  - exists size, ((o, z) :: l2). split_and!; [done|..].
    + constructor; [done|]. apply Forall_forall. intros b [->|Hb']%elem_of_cons; unfold apart; simpl; [lia|].
      specialize (Hz b Hb'). unfold apart in Hz; simpl in Hz. lia.
    + apply Forall_cons. split; [by unfold hole_ok|]. apply Forall_cons. split; [by unfold hole_ok|done].
    + sums.
    + intros x. by rewrite !covers_cons.
Qed.

(** Coalescing with the previous hole. *)
Lemma merge_prev_ok l1 z l2 :
  StronglySorted apart l1 → Forall (hole_ok cap) l1 → (∀ a, a ∈ l1 → a.1 + a.2 ≤ off) →
  StronglySorted apart ((off, z) :: l2) → Forall (hole_ok cap) ((off, z) :: l2) →
  let m := merge_prev l1 ((off, z) :: l2) in
  StronglySorted apart m ∧ Forall (hole_ok cap) m ∧
  sumZ m.*2 = sumZ l1.*2 + (z + sumZ l2.*2) ∧
  ∀ x, covers m x ↔ covers l1 x ∨ covers ((off, z) :: l2) x.
Proof.
  intros Hs1 Hok1 Ha Hs2 Hok2. unfold merge_prev.
  destruct l1 as [|[oj zj] l1 _] using rev_ind.
  { split_and!; [done|done|cbn [last]; sums|]. intros x. rewrite covers_nil. naive_solver. }
  rewrite last_snoc, removelast_last. cbv zeta.
  apply StronglySorted_app_iff in Hs1 as (Hs1 & _ & H1j). apply Forall_app in Hok1 as [Hok1 [Hokj _]%Forall_cons].
  inversion Hs2 as [|? ? Hs2' Hz]; subst. rewrite Forall_forall in Hz.
  apply Forall_cons in Hok2 as [Hokz Hok2]. 
  destruct Hokj as (Hj1 & Hj2 & Hj3 & Hj4 & Hj5), Hokz as (Hz1 & Hz2 & Hz3 & Hz4 & Hz5). cbn [fst snd] in *.
  assert (oj + zj ≤ off) as Hj by (apply (Ha (oj, zj)); set_solver).
  assert (∀ a, a ∈ l1 → a.1 + a.2 < oj) as H1.
  { intros a Ha'. apply (H1j a (oj, zj) Ha'), list_elem_of_here. }
  assert (∀ b, b ∈ l2 → off + z < b.1) as H2 by (intros b Hb; apply (Hz b Hb)).
  destruct (Z.eqb_spec (oj + zj) off) as [He|Hne]; split_and!.
  - apply StronglySorted_app_iff. split_and!; [done|constructor; [done|]|].
    + apply Forall_forall. intros b Hb. specialize (H2 b Hb). unfold apart; simpl. lia.
    + intros a x Hx [->|Hb]%elem_of_cons; specialize (H1 a Hx); unfold apart; simpl; [lia|].
      specialize (H2 x Hb). lia.
  - apply Forall_app. split; [done|]. apply Forall_cons. split; [|done].
    unfold hole_ok; simpl. split_and!; try lia; [done|by apply Z.divide_add_r].
  - sums.
  - intros x. rewrite !covers_app, !covers_cons, covers_nil. unfold in_range; simpl. intuition lia.
  - rewrite <-app_assoc. apply StronglySorted_app_iff. split_and!; [done| |].
    + simpl. constructor; [done|]. apply Forall_forall.
      intros b [->|Hb]%elem_of_cons; unfold apart; simpl; [lia|]. specialize (H2 b Hb). lia.
    + intros a x Hx. specialize (H1 a Hx). simpl. unfold apart.
      intros [->|[->|Hb]%elem_of_cons]%elem_of_cons; simpl; [lia|lia|]. specialize (H2 x Hb). lia.
  - rewrite <-app_assoc. apply Forall_app. split; [done|]. simpl. apply Forall_cons. split; [done|].
    repeat (apply Forall_cons; split); done.
  - sums.
  - intros x. rewrite !covers_app, !covers_cons. naive_solver.
Qed.
End Merge.

Lemma holes_sorted_offsets s : SlabInv s → StronglySorted Z.le (hole_offsets s).
Proof.
  intros Hinv. rewrite (of_holes_eq s (si_length _ Hinv)). simpl.
  destruct Hinv as [_ Hs Hok _]. induction Hs as [|h hs Hs IH Hh]; simpl; [constructor|].
  apply Forall_cons in Hok as [(H1 & H2 & _) Hok]. constructor; [by apply IH|].
  apply Forall_forall. intros o (b & -> & Hb)%list_elem_of_fmap. rewrite Forall_forall in Hh.
  specialize (Hh b Hb). unfold apart in Hh. lia.
Qed.

(** The freed range splits the holes. *)
Lemma free_shape off n s :
  SlabInv s → 0 < n → (∀ x, in_range (off, align_up ALIGN n) x → ¬ free_at s x) →
  ∃ l1 l2, holes s = l1 ++ l2 ∧
    (∀ a, a ∈ l1 → a.1 + a.2 ≤ off) ∧ (∀ b, b ∈ l2 → off + align_up ALIGN n ≤ b.1) ∧
    free off n s = of_holes (capacity_bytes s) (merge_prev l1 (merge_next off (align_up ALIGN n) l2))
                     (used_bytes s - align_up ALIGN n).
Proof.
  intros Hinv Hn Hbusy. destruct (align_size n Hn) as (Hs & _). set (size := align_up ALIGN n) in *.
  destruct (bisect_left_spec (hole_offsets s) off (holes_sorted_offsets s Hinv)) as (Hi & Hlt & Hge).
  unfold free. fold size. set (i := bisect_left (hole_offsets s) off) in *.
  exists (take i (holes s)), (drop i (holes s)).
  assert (length (take i (holes s)) = i) as Hli.
  { rewrite length_take. unfold holes. rewrite length_zip. pose proof (si_length _ Hinv). lia. }
  assert (∀ j h, holes s !! j = Some h → hole_offsets s !! j = Some h.1 ∧ hole_ok (capacity_bytes s) h) as Hlook.
  { intros j h Hj. split.
    - unfold holes in Hj. apply lookup_zip_with_Some in Hj as (x & y & -> & Hx & _). done.
    - eapply Forall_lookup_1; [apply Hinv|done]. }
  split_and!.
  - by rewrite take_drop.
  - intros a (j & Hj)%list_elem_of_lookup. apply lookup_take_Some in Hj as [Hj Hji].
    destruct (Hlook j a Hj) as [Ho (H1 & H2 & _)]. specialize (Hlt j a.1 Hji Ho).
    destruct (decide (a.1 + a.2 ≤ off)) as [|Hgt]; [done|]. exfalso. apply (Hbusy off).
    + unfold in_range; simpl. lia.
    + exists a. split; [by apply list_elem_of_lookup_2 in Hj|]. unfold in_range. lia.
  - intros b (j & Hj)%list_elem_of_lookup. rewrite lookup_drop in Hj.
    destruct (Hlook _ b Hj) as [Ho (H1 & H2 & _)]. specialize (Hge (i + j)%nat b.1 ltac:(lia) Ho).
    destruct (decide (off + size ≤ b.1)) as [|Hgt]; [done|]. exfalso. apply (Hbusy b.1).
    + unfold in_range; simpl. lia.
    + exists b. split; [by apply list_elem_of_lookup_2 in Hj|]. unfold in_range. lia.
  - pose proof (coalesce_shape off size (take i (holes s)) (drop i (holes s))) as E.
    rewrite Hli, <-!fmap_app, take_drop in E.
    pose proof (of_holes_eq s (si_length _ Hinv)) as Heq.
    assert ((holes s).*1 = hole_offsets s ∧ (holes s).*2 = hole_sizes s) as [E1 E2].
    { split; [rewrite (f_equal hole_offsets Heq)|rewrite (f_equal hole_sizes Heq)]; done. }
    rewrite E1, E2 in E. destruct (coalesce_next _ _ _ _ _) as [offs szs].
    destruct (coalesce_prev _ _ _) as [offs' szs']. by injection E as -> ->.
Qed.

(** A range may be freed when it lies in the slab and is not free already. *)
Record freeable (off n : Z) (s : Slab) : Prop := {
  fr_size : 0 < n;
  fr_lo : 0 ≤ off;
  fr_hi : off + align_up ALIGN n ≤ capacity_bytes s;
  fr_align : (ALIGN | off);
  fr_busy : ∀ x, in_range (off, align_up ALIGN n) x → ¬ free_at s x;
}.

Lemma free_ok off n s :
  SlabInv s → freeable off n s →
  SlabInv (free off n s) ∧ capacity_bytes (free off n s) = capacity_bytes s ∧
  ∀ x, free_at (free off n s) x ↔ free_at s x ∨ in_range (off, align_up ALIGN n) x.
Proof.
  intros Hinv [Hn Hlo Hhi Hal Hbusy]. destruct (align_size n Hn) as (Hs & Hals & _).
  destruct (free_shape off n s Hinv Hn Hbusy) as (l1 & l2 & Hsplit & Hb & Ha & ->).
  set (size := align_up ALIGN n) in *. destruct Hinv as [Hlen Hsort Hok Hused].
  rewrite Hsplit in Hsort, Hok. apply StronglySorted_app_iff in Hsort as (Hs1 & Hs2 & _).
  apply Forall_app in Hok as [Hok1 Hok2].
  destruct (merge_next_ok (capacity_bytes s) off size Hlo Hs Hhi Hal Hals l2 Hs2 Hok2 Ha)
    as (z & l2' & -> & Hsn & Hokn & Hsumn & Hcovn).
  destruct (merge_prev_ok (capacity_bytes s) off size Hlo Hs Hhi Hal Hals l1 z l2' Hs1 Hok1 Hb Hsn Hokn)
    as (Hsm & Hokm & Hsumm & Hcovm).
  assert (hole_sizes s = (holes s).*2) as Hsz.
  { pose proof (f_equal hole_sizes (of_holes_eq s Hlen)) as E. exact E. }
  split; [|split; [done|]].
  - split; rewrite ?holes_of_holes; [simpl; by rewrite !length_fmap|done|done|].
    unfold of_holes. cbn [used_bytes capacity_bytes hole_sizes]. rewrite Hsumm, Hused, Hsz, Hsplit, fmap_app, sumZ_app. lia.
  - intros x. unfold free_at. rewrite holes_of_holes. fold (covers (merge_prev l1 ((off, z) :: l2')) x).
    fold (covers (holes s) x). rewrite Hcovm, Hcovn, Hsplit, covers_app. tauto.
Qed.

Lemma post_init_inv capacity scaled :
  0 ≤ scaled → 0 < capacity → SlabInv (post_init capacity scaled).
Proof.
  intros Hs Hc. unfold post_init. set (h := Z.min scaled (2 * 1024 ^ 3)).
  destruct (align_size (capacity + h)) as (H1 & H2 & H3); [subst h; lia|].
  split; unfold holes; simpl.
  - done.
  - constructor; constructor.
  - apply Forall_singleton. unfold hole_ok; simpl. split_and!; try lia; [by apply Z.divide_0_r|done].
  - lia.
Qed.

(** ** The slab as a set of free bytes

    [SlabRefines s live]: the live ranges are disjoint, aligned and inside the
    slab, and the free bytes are exactly the bytes of the slab in none of
    them. *)
Definition disjoint_ranges (a b : Z * Z) : Prop :=
  ∀ x, in_range (a.1, align_up ALIGN a.2) x → ¬ in_range (b.1, align_up ALIGN b.2) x.

Record SlabRefines (s : Slab) (live : list (Z * Z)) : Prop := {
  sr_inv : SlabInv s;
  sr_live : Forall (λ r, 0 < r.2 ∧ freeable r.1 r.2 s) live;
  sr_disjoint : StronglySorted disjoint_ranges live;
  sr_bytes : ∀ x, free_at s x ↔
    0 ≤ x < capacity_bytes s ∧ ∀ r, r ∈ live → ¬ in_range (r.1, align_up ALIGN r.2) x;
}.

#[export] Instance disjoint_ranges_sym : Symmetric disjoint_ranges.
Proof. intros a b Hab x Hb Ha. by apply (Hab x). Qed.

(** The order of the live ranges does not matter. *)
#[export] Instance SlabRefines_perm s : Proper (Permutation ==> impl) (SlabRefines s).
Proof.
  intros l1 l2 Hp [Hi Hl Hd Hb]. split; [done|by rewrite <-Hp|by eapply (StronglySorted_perm _ l1)|].
  intros x. rewrite Hb. by setoid_rewrite Hp.
Qed.

(** The range an allocation returns is disjoint from every live range, and
    afterwards it is live. *)
Lemma allocate_step s live n off s' :
  SlabRefines s live → 0 < n → allocate n s = (Some off, s') → SlabRefines s' ((off, n) :: live).
Proof.
  intros [Hinv Hlive Hdis Hbytes] Hn Halloc.
  destruct (allocate_ok n s off s' Hinv Hn Halloc) as (Hinv' & Hcap & Hlo & Hhi & Hal & Hwas & Hsame).
  split; [done|..].
  - apply Forall_cons. split.
    + split; [done|]. split; try done; [by rewrite Hcap|]. simpl. intros x Hx Hf. by apply Hsame in Hf as [_ ?].
    + eapply Forall_impl; [exact Hlive|]. intros r [Hr [H1 H2 H3 H4 H5]]. split; [done|].
      split; try done; [by rewrite Hcap|]. intros x Hx Hf. apply Hsame in Hf as [Hf _]. by apply (H5 x Hx).
  - constructor; [done|]. apply Forall_forall. intros r Hr x Hx. by apply (proj1 (Hbytes x) (Hwas x Hx)).
  - intros x. rewrite (Hsame x), Hbytes, Hcap. setoid_rewrite elem_of_cons. split.
    + intros [[Hx Hl] Hr]. split; [done|]. intros r [->|Hin]; auto.
    + intros [Hx Hl]. split; [split; auto|]. apply (Hl (off, n)). by left.
Qed.

(** Freeing a live range makes it free again and changes nothing else. *)
Lemma free_step s off n live :
  SlabRefines s ((off, n) :: live) → SlabRefines (free off n s) live.
Proof.
  intros [Hinv Hlive Hdis Hbytes]. apply Forall_cons in Hlive as [[Hn Hfr] Hlive]. simpl in Hn, Hfr.
  destruct (free_ok off n s Hinv Hfr) as (Hinv' & Hcap & Hfree).
  inversion Hdis as [|? ? Hdis' Hd]; subst. rewrite Forall_forall in Hd.
  split; [done|..|done|].
  - rewrite Forall_forall in Hlive |- *. intros r Hr. destruct (Hlive r Hr) as [Hn' [H1 H2 H3 H4 H5]].
    split; [done|]. split; try done; [by rewrite Hcap|]. intros x Hx [Hf|Hf]%Hfree; [by apply (H5 x)|].
    by apply (Hd r Hr x).
  - intros x. rewrite Hfree, Hbytes, Hcap. setoid_rewrite elem_of_cons. split.
    + intros [[Hx Hl]|Hx]; [auto|]. destruct Hfr as [_ Hlo Hhi _ _].
      split; [unfold in_range in Hx; simpl in Hx; lia|]. intros r Hr. by apply (Hd r Hr).
    + intros [Hx Hl]. destruct (decide (off ≤ x < off + align_up ALIGN n)) as [Hr|Hr].
      * right. by unfold in_range.
      * left. split; [done|]. intros r [->|Hin]; [by unfold in_range|auto].
Qed.

Lemma post_init_refines capacity scaled :
  0 < capacity → 0 ≤ scaled → SlabRefines (post_init capacity scaled) [].
Proof.
  intros Hc Hsc. split; [by apply post_init_inv|by apply Forall_nil|constructor|].
  intros x. split.
  - intros (h & ->%list_elem_of_singleton & Hx). split; [done|]. by intros r ?%elem_of_nil.
  - intros [Hx _]. exists (0, capacity_bytes (post_init capacity scaled)).
    split; [apply list_elem_of_here|]. done.
Qed.

(** States a slab reaches when its client frees only what it holds, with the
    ranges held. *)
Inductive slab_reach (capacity scaled : Z) : Slab → list (Z * Z) → Prop :=
| reach_new : slab_reach capacity scaled (post_init capacity scaled) []
| reach_allocate s live n off s' :
    slab_reach capacity scaled s live → 0 < n → allocate n s = (Some off, s') →
    slab_reach capacity scaled s' ((off, n) :: live)
| reach_fail s live n s' :
    slab_reach capacity scaled s live → allocate n s = (None, s') → slab_reach capacity scaled s' live
| reach_free s live live' off n :
    slab_reach capacity scaled s live → Permutation live ((off, n) :: live') →
    slab_reach capacity scaled (free off n s) live'.

(** C23: The slab implements its specification, a set of free bytes: whatever
    sequence of allocations and frees a client makes, the ranges it holds are
    aligned, inside the slab and pairwise disjoint, the free bytes are exactly
    the others, and the holes stay sorted, coalesced and accounted for. *)
Theorem slab_refines_byte_set capacity scaled s live :
  0 < capacity → 0 ≤ scaled → slab_reach capacity scaled s live → SlabRefines s live.
Proof.
  intros Hc Hsc. induction 1 as [|s live n off s' _ IH Hn Ha|s live n s' _ IH Ha|s live live' off n _ IH Hp].
  - by apply post_init_refines.
  - by eapply allocate_step.
  - unfold allocate in Ha. repeat case_match; by simplify_eq.
  - rewrite Hp in IH. by apply free_step.
Qed.

Lemma slab_refines_byte_set_witness :
  ∃ s, slab_reach 4096 512 s [(1024, 512); (0, 600)] ∧ SlabRefines s [(1024, 512); (0, 600)].
Proof.
  assert (slab_reach 4096 512 (snd (allocate 512 (snd (allocate 600 (post_init 4096 512)))))
            [(1024, 512); (0, 600)]) as Hr.
  { eapply reach_allocate; [eapply reach_allocate; [apply reach_new|lia|]|lia|];
      vm_compute; reflexivity. }
  eexists. split; [exact Hr|]. apply (slab_refines_byte_set 4096 512); [lia|lia|exact Hr].
Defined.

(** An allocation fails only when no hole is large enough, and a failed one
    changes nothing. *)
Theorem allocate_fails s n s' :
  SlabInv s → allocate n s = (None, s') →
  s' = s ∧ ∀ h, h ∈ holes s → h.2 < align_up ALIGN n.
Proof.
  intros Hinv. unfold allocate. pose proof (best_fit_spec (align_up ALIGN n) (hole_sizes s)) as Hb.
  destruct (best_fit (align_up ALIGN n) 0 None (hole_sizes s)) as [[j h]|]; simpl in Hb.
  - destruct Hb as (Hj & _). rewrite Hj. destruct (hole_offsets s !! j) as [o|] eqn:Ho; [done|].
    apply lookup_ge_None_1 in Ho. apply lookup_lt_Some in Hj. rewrite (si_length _ Hinv) in Ho. lia.
  - intros [= <-]. split; [done|]. intros [o z] Hz. apply Hb. simpl.
    apply list_elem_of_lookup in Hz as (j & Hj). unfold holes in Hj.
    apply lookup_zip_with_Some in Hj as (x & y & [= -> ->] & _ & Hy). by eapply list_elem_of_lookup_2.
Qed.

(** Freeing what was just allocated restores the slab exactly: the carve and
    the two coalescing steps are inverse to each other. *)
Theorem allocate_free s n off s' :
  SlabInv s → 0 < n → allocate n s = (Some off, s') → free off n s' = s.
Proof.
  intros Hinv Hn Halloc. destruct (align_size n Hn) as (Hs & Hals & _).
  destruct (allocate_ok n s off s' Hinv Hn Halloc) as (Hinv' & Hcap & _ & _ & _ & _ & Hsame).
  destruct (allocate_shape n s off s' Hinv Halloc) as (l1 & h & l2 & Hsplit & Hle & _ & Hs').
  destruct (free_shape off n s' Hinv' Hn) as (k1 & k2 & Hk & Hb & Ha & ->).
  { intros x Hx Hf. by apply Hsame in Hf as [_ ?]. }
  rewrite (of_holes_eq s (si_length _ Hinv)) at 1. subst s'. rewrite holes_of_holes in Hk.
  set (size := align_up ALIGN n) in *. cbn [capacity_bytes used_bytes of_holes].
  destruct Hinv as [Hlen Hsort Hok Hused]. rewrite Hsplit in Hsort, Hok |- *.
  change ((off, h) :: l2) with ([(off, h)] ++ l2) in Hsort.
  apply around in Hsort as (_ & _ & _ & H1m & Hm2 & _).
  apply Forall_app in Hok as [Hok1 [Hokh Hok2]%Forall_cons].
  destruct (carve_ok _ _ _ size Hokh Hs Hle Hals) as (_ & _ & _ & Hcr).
  assert (∀ a, a ∈ l1 → a.1 + a.2 < off) as Hbefore.
  { intros a Hin. apply (H1m a (off, h) Hin), list_elem_of_here. }
  assert (∀ b, b ∈ l2 → off + h < b.1) as Hafter.
  { intros b Hin. apply (Hm2 (off, h) b); [apply list_elem_of_here|done]. }
  destruct (app_split_unique (λ r, r.1 < off) l1 (carve off h size ++ l2) k1 k2 Hk) as [<- <-].
  - apply Forall_forall. intros a Hin. specialize (Hbefore a Hin). rewrite Forall_forall in Hok1.
    destruct (Hok1 a Hin) as (_ & ? & _). lia.
  - apply Forall_forall. intros a Hin. specialize (Hb a Hin).
    assert (hole_ok (capacity_bytes s) a) as (_ & ? & _); [|lia].
    destruct Hinv' as [_ _ Hok' _]. rewrite holes_of_holes, Hk in Hok'. rewrite Forall_forall in Hok'.
    apply Hok', elem_of_app. by left.
  - apply Forall_forall. intros r [Hr|Hr]%elem_of_app; [destruct (Hcr r Hr); lia|].
    specialize (Hafter r Hr). lia.
  - apply Forall_forall. intros r Hr. specialize (Ha r Hr). lia.
  - assert (merge_next off size (carve off h size ++ l2) = (off, h) :: l2) as ->.
    { unfold carve. destruct (Z.eqb_spec (h - size) 0) as [He|Hne]; simpl.
      - replace size with h by lia. unfold merge_next. destruct l2 as [|[o z] l2]; [done|].
        specialize (Hafter (o, z) (list_elem_of_here _ _)). simpl in Hafter.
        by destruct (Z.eqb_spec (off + h) o); [lia|].
      - rewrite Z.eqb_refl. by replace (h - size + size) with h by lia. }
    unfold merge_prev. replace (used_bytes s + size - size) with (used_bytes s) by lia.
    destruct l1 as [|[oj zj] l1 _] using rev_ind; [done|]. rewrite last_snoc.
    assert (oj + zj < off) by (apply (Hbefore (oj, zj)), elem_of_app; right; apply list_elem_of_here).
    by destruct (Z.eqb_spec (oj + zj) off); [lia|].
Qed.

Lemma sample_slab_inv : SlabInv (snd (allocate 600 (post_init 4096 512))).
Proof. by eapply (allocate_ok 600 (post_init 4096 512)); [apply post_init_inv; lia|lia|vm_compute]. Qed.

Lemma allocate_free_witness :
  allocate 512 (snd (allocate 600 (post_init 4096 512))) =
    (Some 1024, snd (allocate 512 (snd (allocate 600 (post_init 4096 512))))) ∧
  free 1024 512 (snd (allocate 512 (snd (allocate 600 (post_init 4096 512))))) =
    snd (allocate 600 (post_init 4096 512)).
Proof.
  assert (allocate 512 (snd (allocate 600 (post_init 4096 512))) =
    (Some 1024, snd (allocate 512 (snd (allocate 600 (post_init 4096 512)))))) as Ha by (vm_compute; reflexivity).
  split; [exact Ha|]. apply (allocate_free _ 512 1024 _ sample_slab_inv); [lia|exact Ha].
Defined.

Lemma allocate_fails_witness :
  allocate 4096 (snd (allocate 600 (post_init 4096 512))) = (None, snd (allocate 600 (post_init 4096 512))) ∧
  ∀ h, h ∈ holes (snd (allocate 600 (post_init 4096 512))) → h.2 < align_up ALIGN 4096.
Proof.
  assert (allocate 4096 (snd (allocate 600 (post_init 4096 512))) =
    (None, snd (allocate 600 (post_init 4096 512)))) as Ha by (vm_compute; reflexivity).
  split; [exact Ha|]. exact (proj2 (allocate_fails _ 4096 _ sample_slab_inv Ha)).
Defined.
