(* ===== verification/Placement.v ===== *)
(** * Static placement ([dataflow/runtime/placement.py])

    The recorder of a dry run and the offline packing of its instances.  The
    seeded [random.shuffle]s of [compute_placement] are an argument: the
    list of shuffled instance lists. *)
From S2P Require Import Prelude.
From stdpp Require Import base tactics option list gmap strings sorting.
From Stdlib Require Import ZArith Lia.
Open Scope Z_scope.

Definition PALIGN : Z := 512.

(** [(object_id, incarnation)]. *)
Definition InstanceKey : Type := string * Z.

Record InstanceRecord := mkInstance {
  ir_key : InstanceKey;
  ir_size : Z;
  ir_birth : Z;
  ir_death : Z;
}.

(** ** Recorder: [live] is a dict, its items in insertion order *)
Record PlacementRecorder := mkRecorder {
  rc_ordinal : Z;
  rc_live : list (InstanceKey * InstanceRecord);
  rc_done : list InstanceRecord;
}.

Definition new_recorder : PlacementRecorder := mkRecorder 0 [] [].

Definition on_get (key : InstanceKey) (size : Z) (r : PlacementRecorder) : PlacementRecorder :=
  let t := rc_ordinal r + 1 in
  mkRecorder t (assoc_set (rc_live r) key (mkInstance key size t (2 ^ 62))) (rc_done r).

Definition on_put (key : InstanceKey) (r : PlacementRecorder) : PlacementRecorder :=
  let t := rc_ordinal r + 1 in
  match assoc_get (rc_live r) key with
  | Some i => mkRecorder t (assoc_del (rc_live r) key)
                (rc_done r ++ [mkInstance (ir_key i) (ir_size i) (ir_birth i) t])
  | None => mkRecorder t (rc_live r) (rc_done r)
  end.

Definition instances (r : PlacementRecorder) : list InstanceRecord :=
  rc_done r ++ (snd <$> rc_live r).

(** ** Packing *)
Definition padded (r : InstanceRecord) : Z := align_up PALIGN (ir_size r).

(** [not (other.death <= rec.birth or rec.death <= other.birth)]. *)
Definition overlaps (other r : InstanceRecord) : bool :=
  negb ((ir_death other <=? ir_birth r) || (ir_death r <=? ir_birth other)).

(** Tuples compare lexicographically. *)
Definition pair_leb (a b : Z * Z) : bool :=
  (a.1 <? b.1) || ((a.1 =? b.1) && (a.2 <=? b.2)).

Definition Placed : Type := Z * Z * InstanceRecord.

Definition conflicts_of (placed : list Placed) (r : InstanceRecord) : list (Z * Z) :=
  py_sorted pair_leb (fst <$> filter (λ p, overlaps p.2 r = true) placed).

(** The lowest gap: [for off, end in conflicts]. *)
Fixpoint find_gap (candidate size : Z) (conflicts : list (Z * Z)) : Z :=
  match conflicts with
  | [] => candidate
  | (off, end_) :: conflicts =>
      if candidate + size <=? off then candidate
      else find_gap (Z.max candidate end_) size conflicts
  end.

Record PackState := mkPack {
  pk_placed : list Placed;
  pk_offsets : gmap InstanceKey Z;
  pk_extent : Z;
}.

Definition pack_step (s : PackState) (r : InstanceRecord) : PackState :=
  let size := padded r in
  let candidate := find_gap 0 size (conflicts_of (pk_placed s) r) in
  mkPack (pk_placed s ++ [((candidate, candidate + size), r)])
    (<[ir_key r := candidate]> (pk_offsets s))
    (Z.max (pk_extent s) (candidate + size)).

Definition pack_state (rs : list InstanceRecord) : PackState := foldl pack_step (mkPack [] ∅ 0) rs.
Definition pack (rs : list InstanceRecord) : Z * gmap InstanceKey Z :=
  (pk_extent (pack_state rs), pk_offsets (pack_state rs)).

(** ** [compute_placement] *)
Record Placement := mkPlacement {
  pl_offsets : gmap InstanceKey Z;
  pl_sizes : gmap InstanceKey Z;
  pl_extent_bytes : Z;
  pl_load_bytes : Z;
  pl_physical_limit_bytes : Z;
}.

Inductive PlacementError := NotPackable (need load limit : Z).

(** The peak of the running sum over the sorted births and deaths. *)
Definition load_events (rs : list InstanceRecord) : list (Z * Z) :=
  rs ≫= λ r, [(ir_birth r, ir_size r); (ir_death r, - ir_size r)].
Definition peak_load (rs : list InstanceRecord) : Z :=
  (foldl (λ '(load, cur) ev, let cur := cur + ev.2 in (Z.max load cur, cur)) (0, 0)
     (py_sorted pair_leb (load_events rs))).1.

(** Keys compare as tuples of a string and an int. *)
Definition key_leb (a b : InstanceKey) : bool :=
  if String.eqb a.1 b.1 then a.2 <=? b.2 else String.ltb a.1 b.1.
(** [<=] of a tuple from the comparison of its first and the rest. *)
Definition then_leb (a b : Z) (rest : bool) : bool := (a <? b) || ((a =? b) && rest).

Definition by_size (a b : InstanceRecord) : bool :=
  then_leb (- ir_size a) (- ir_size b) (then_leb (ir_birth a) (ir_birth b) (key_leb (ir_key a) (ir_key b))).
Definition by_area (a b : InstanceRecord) : bool :=
  then_leb (- (ir_death a - ir_birth a) * ir_size a) (- (ir_death b - ir_birth b) * ir_size b)
    (key_leb (ir_key a) (ir_key b)).
Definition by_birth (a b : InstanceRecord) : bool :=
  then_leb (ir_birth a) (ir_birth b) (then_leb (- ir_size a) (- ir_size b) (key_leb (ir_key a) (ir_key b))).

Definition orders (base : list InstanceRecord) (shuffled : list (list InstanceRecord)) :
    list (list InstanceRecord) :=
  [py_sorted by_size base; py_sorted by_area base; py_sorted by_birth base] ++ shuffled.

(** The first smallest extent. *)
Definition better (best : option (Z * gmap InstanceKey Z)) (order : list InstanceRecord) :
    option (Z * gmap InstanceKey Z) :=
  let '(extent, offsets) := pack order in
  match best with
  | None => Some (extent, offsets)
  | Some (e, _) => if extent <? e then Some (extent, offsets) else best
  end.

Definition sizes_of (rs : list InstanceRecord) : gmap InstanceKey Z :=
  foldl (λ m r, <[ir_key r := ir_size r]> m) ∅ rs.

Definition compute_placement (r : PlacementRecorder) (limit : Z)
    (shuffled : list (list InstanceRecord)) : result PlacementError Placement :=
  let base := instances r in
  let load := peak_load base in
  match foldl better None (orders base shuffled) with
  | None => Err (NotPackable 0 load limit) (* there are at least three orders *)
  | Some (extent, offsets) =>
      raise_if (limit <? extent) (NotPackable extent load limit) ;;
      Ok (mkPlacement offsets (sizes_of base) extent load limit)
  end.

(** ** Packings are valid *)
Lemma pair_leb_total a b : pair_leb a b = true ∨ pair_leb b a = true.
Proof. unfold pair_leb. destruct a, b; simpl. lia. Qed.
Lemma pair_leb_trans a b c : pair_leb a b = true → pair_leb b c = true → pair_leb a c = true.
Proof. unfold pair_leb. destruct a, b, c; simpl. lia. Qed.

(** The gap found clears every conflict. *)
Lemma find_gap_spec size conflicts c0 :
  StronglySorted (λ a b, pair_leb a b = true) conflicts →
  let c := find_gap c0 size conflicts in
  c0 ≤ c ∧ ∀ r, r ∈ conflicts → c + size ≤ r.1 ∨ r.2 ≤ c.
Proof.
  intros Hs. revert c0. induction Hs as [|[off end_] l Hl IH Hx]; intros c0; simpl.
  { split; [lia|]. by intros r ?%elem_of_nil. }
  rewrite Forall_forall in Hx. destruct (Z.leb_spec (c0 + size) off) as [Hfit|Hno].
  - split; [lia|]. intros r [->|Hr]%elem_of_cons; [left; simpl; lia|].
    specialize (Hx r Hr). unfold pair_leb in Hx. simpl in Hx. left. lia.
  - destruct (IH (Z.max c0 end_)) as [Hge Hall]. split; [lia|].
    intros r [->|Hr]%elem_of_cons; [right; simpl; lia|auto].
Qed.

(** Two placed instances whose lifetimes overlap do not share a byte. *)
Definition clear_of (a b : Placed) : Prop :=
  overlaps a.2 b.2 = true → b.1.2 ≤ a.1.1 ∨ a.1.2 ≤ b.1.1.

Record PackInv (rs : list InstanceRecord) (s : PackState) : Prop := {
  pi_records : snd <$> pk_placed s = rs;
  pi_clear : StronglySorted clear_of (pk_placed s);
  pi_shape : ∀ p, p ∈ pk_placed s → 0 ≤ p.1.1 ∧ p.1.2 = p.1.1 + padded p.2 ∧ p.1.2 ≤ pk_extent s;
  pi_offsets : ∀ p, p ∈ pk_placed s → NoDup (ir_key <$> rs) → pk_offsets s !! ir_key p.2 = Some p.1.1;
}.

Lemma pack_step_inv rs s r : PackInv rs s → PackInv (rs ++ [r]) (pack_step s r).
Proof.
  intros [Hr Hc Hsh Ho]. unfold pack_step.
  destruct (find_gap_spec (padded r) (conflicts_of (pk_placed s) r) 0) as [Hge Hgap].
  { apply py_sorted_sorted; [apply pair_leb_total|apply pair_leb_trans]. }
  set (c := find_gap 0 (padded r) (conflicts_of (pk_placed s) r)) in *.
  split; simpl.
  - rewrite fmap_app, Hr. done.
  - apply StronglySorted_app_iff. split_and!; [done|constructor; constructor|].
    intros a b Ha ->%list_elem_of_singleton Hov. simpl in *.
    destruct (Hgap a.1) as [Hlow|Hhigh].
    + apply elem_of_py_sorted, list_elem_of_fmap. exists a. split; [done|]. by apply list_elem_of_filter.
    + left. done.
    + right. done.
  - intros p [Hp| ->%list_elem_of_singleton]%elem_of_app; simpl; [|lia].
    destruct (Hsh p Hp) as (? & ? & ?). lia.
  - intros p [Hp| ->%list_elem_of_singleton]%elem_of_app Hnd; simpl; [|apply lookup_insert_eq].
    rewrite fmap_app in Hnd. apply NoDup_app in Hnd as (Hnd & Hdis & _).
    rewrite lookup_insert_ne; [by apply Ho|]. intros Heq. apply (Hdis (ir_key p.2)).
    + apply list_elem_of_fmap. exists p.2. split; [done|]. rewrite <-Hr. by apply list_elem_of_fmap_2.
    + rewrite <-Heq. apply list_elem_of_here.
Qed.

Lemma pack_state_inv rs : PackInv rs (pack_state rs).
Proof.
  unfold pack_state. induction rs as [|r rs IH] using rev_ind; simpl.
  - split; simpl; [done|constructor|by intros p ?%elem_of_nil..].
  - rewrite foldl_app. simpl. by apply pack_step_inv.
Qed.

(** A placement is valid for a set of instances: every instance has an offset
    inside the extent, and two whose lifetimes overlap have disjoint ranges. *)
Definition valid_offsets (rs : list InstanceRecord) (extent : Z) (offsets : gmap InstanceKey Z) : Prop :=
  (∀ r, r ∈ rs → ∃ o, offsets !! ir_key r = Some o ∧ 0 ≤ o ∧ o + padded r ≤ extent) ∧
  (∀ a b oa ob, a ∈ rs → b ∈ rs → ir_key a ≠ ir_key b → overlaps a b = true →
     offsets !! ir_key a = Some oa → offsets !! ir_key b = Some ob →
     oa + padded a ≤ ob ∨ ob + padded b ≤ oa).

Lemma overlaps_sym a b : overlaps a b = overlaps b a.
Proof. unfold overlaps. by rewrite orb_comm. Qed.

Lemma pack_valid rs :
  NoDup (ir_key <$> rs) → valid_offsets rs (pack rs).1 (pack rs).2.
Proof.
  intros Hnd. destruct (pack_state_inv rs) as [Hr Hc Hsh Ho]. unfold pack; simpl.
  assert (∀ r, r ∈ rs → ∃ p, p ∈ pk_placed (pack_state rs) ∧ p.2 = r) as Hfind.
  { intros r Hin. rewrite <-Hr in Hin. apply list_elem_of_fmap in Hin as (p & -> & Hp). eauto. }
  split.
  - intros r Hin. destruct (Hfind r Hin) as (p & Hp & <-). exists p.1.1.
    destruct (Hsh p Hp) as (? & ? & ?). split_and!; [by apply Ho|done|lia].
  - intros a b oa ob Ha Hb Hne Hov Hoa Hob.
    destruct (Hfind a Ha) as (pa & Hpa & <-), (Hfind b Hb) as (pb & Hpb & <-).
    destruct (Hsh pa Hpa) as (_ & Ea & _), (Hsh pb Hpb) as (_ & Eb & _).
    rewrite (Ho pa Hpa Hnd) in Hoa. rewrite (Ho pb Hpb Hnd) in Hob. simplify_eq.
    apply list_elem_of_lookup in Hpa as [i Hi], Hpb as [j Hj].
    destruct (lt_eq_lt_dec i j) as [[Hij|Hij]|Hij].
    + pose proof (StronglySorted_lookup _ _ i j _ _ Hc Hij Hi Hj Hov). lia.
    + subst. rewrite Hi in Hj. by simplify_eq.
    + rewrite overlaps_sym in Hov. pose proof (StronglySorted_lookup _ _ j i _ _ Hc Hij Hj Hi Hov). lia.
Qed.

Lemma valid_offsets_perm rs rs' e o :
  Permutation rs rs' → valid_offsets rs e o → valid_offsets rs' e o.
Proof.
  intros Hp [H1 H2]. split.
  - intros r Hr. apply H1. by rewrite Hp.
  - intros a b oa ob Ha Hb. apply H2; by rewrite Hp.
Qed.

Lemma better_valid rs os best :
  NoDup (ir_key <$> rs) → Forall (Permutation rs) os →
  (∀ e o, best = Some (e, o) → valid_offsets rs e o) →
  ∀ e o, foldl better best os = Some (e, o) → valid_offsets rs e o.
Proof.
  intros Hnd. revert best. induction os as [|order os IH]; intros best Hos Hbest; simpl; [done|].
  apply Forall_cons in Hos as [Hp Hos]. apply IH; [done|]. intros e o. unfold better.
  pose proof (pack_valid order) as Hv. rewrite <-Hp in Hv at 1. specialize (Hv Hnd).
  apply (valid_offsets_perm _ rs) in Hv; [|by symmetry]. destruct (pack order) as [extent offsets]. simpl in Hv.
  destruct best as [[e' o']|]; [|by intros [= <- <-]].
  destruct (extent <? e'); intros [= <- <-]; auto.
Qed.

(** C27: Every placement [compute_placement] returns is sound: it fits the physical
    limit, gives every instance of the dry run an offset inside the extent, and
    instances whose lifetimes overlap never share a byte, whatever the shuffles. *)
Theorem placement_is_sound r limit shuffled p :
  NoDup (ir_key <$> instances r) → Forall (Permutation (instances r)) shuffled →
  compute_placement r limit shuffled = Ok p →
  pl_extent_bytes p ≤ limit ∧ valid_offsets (instances r) (pl_extent_bytes p) (pl_offsets p).
Proof.
  intros Hnd Hsh. unfold compute_placement.
  destruct (foldl better None (orders (instances r) shuffled)) as [[extent offsets]|] eqn:Hbest; [|done].
  intros (u & Hlim%raise_if_ok & [= <-])%result_bind_ok. simpl. split; [lia|].
  eapply (better_valid (instances r) (orders (instances r) shuffled) None); [done| |done|exact Hbest].
  unfold orders. apply Forall_app. split; [|done]. repeat constructor; apply py_sorted_perm.
Qed.

(** Two weights alive together and an activation after them. *)
Definition sample_recorder : PlacementRecorder :=
  on_put ("a"%string, 0) (on_get ("c"%string, 0) 300
    (on_put ("a"%string, 0) (on_get ("b"%string, 0) 600 (on_get ("a"%string, 0) 100 new_recorder)))).

Lemma placement_is_sound_witness :
  ∃ p, compute_placement sample_recorder 4096 [instances sample_recorder] = Ok p ∧
       valid_offsets (instances sample_recorder) (pl_extent_bytes p) (pl_offsets p).
Proof.
  destruct (compute_placement sample_recorder 4096 [instances sample_recorder]) as [p|e] eqn:Hp.
  - exists p. split; [reflexivity|].
    apply (placement_is_sound sample_recorder 4096 [instances sample_recorder] p); [..|exact Hp].
    + apply (bool_decide_unpack _). vm_compute. exact I.
    + apply Forall_singleton. reflexivity.
  - exfalso. revert Hp. vm_compute. discriminate.
Defined.
