(* ===== verification/Device.v ===== *)
(** * The device backend ([dataflow/runtime/device/base.py], [device/fake.py])

    The virtual-clock backend the engine is checked against.  Python objects
    with an identity carry it as a number: [b_ref] of a buffer, [st_ref] of a
    stream.  What the code mutates of them lives in the backend's state: the
    clock of a stream ([clocks]) and the guard of a buffer ([guards]).  The
    heap [_pending] is the list of its entries in the order [heappop] takes
    them.  [Tok] is the type of the opaque completion tokens. *)
From S2P Require Import Prelude SimSchema Placement.
From stdpp Require Import base tactics option list gmap strings pretty sorting.
From Stdlib Require Import ZArith Lia.
Open Scope Z_scope.

Inductive StreamKind := Compute | H2D | D2H.

Definition kind_to_string (k : StreamKind) : string :=
  match k with Compute => "compute" | H2D => "h2d" | D2H => "d2h" end.

Definition PRIORITY_H2D_DONE : Z := 0.
Definition PRIORITY_D2H_DONE : Z := 1.
Definition PRIORITY_TASK_DONE : Z := 2.

Record Stream := mkStream {
  st_ref : nat;
  st_id : string;
  st_kind : StreamKind;
}.

Record Event (T : Type) := mkEvent {
  ev_id : string;
  time_us : T;
  ev_completed : bool;
}.
Arguments mkEvent {T}.
Arguments ev_id {T}.
Arguments time_us {T}.
Arguments ev_completed {T}.

(** [Buffer.guard_event]: [None], an event, or a tuple of events. *)
Inductive Guard (T : Type) :=
| NoGuard
| OneGuard (e : Event T)
| GuardTuple (es : list (Event T)).
Arguments NoGuard {T}.
Arguments OneGuard {T}.
Arguments GuardTuple {T}.

(** [Buffer.raw]: the allocator a buffer came from.  The third component of a
    slab's tuple is the allocator object: a location's slab, or its overflow
    arena. *)
Inductive SlabRef := MainSlab (l : Location) | OverflowSlab (l : Location).

Inductive Raw :=
| RawNone
| RawSlab (offset : Z) (owner : SlabRef)
| RawExternal (token : Z)
| RawPlaced.

Record Buffer := mkBuffer {
  b_ref : nat;
  b_id : string;
  b_location : Location;
  b_size_bytes : Z;
  b_ptr : Z;
  b_raw : Raw;
  b_tag : option InstanceKey;
}.

Inductive DeviceError :=
| AllocKeyError (l : Location)
| MemcpyNeedsDuration
| TupleHasNoTime.

Section Fake.
Context {T Tok : Type} `{Num T}.

Record Fake := mkFake {
  physical : bool;
  time_scale : option (StreamKind → T → T);
  host_us : T;
  dev_seq : Z;
  pending : list (T * Z * Z * Tok);
  alloc_bytes : gmap Location Z;
  next_ptr : Z;
  clocks : gmap nat T;
  guards : gmap nat (Guard T);
  next_ref : nat;
}.

Abbreviation DM := (M Fake DeviceError).

Definition new_fake (phys : bool) (scale : option (StreamKind → T → T)) : Fake :=
  mkFake phys scale num_zero 0 [] {[Fast := 0; Backing := 0]} 16 ∅ ∅ 0.

Definition set_host t s := mkFake (physical s) (time_scale s) t (dev_seq s) (pending s)
  (alloc_bytes s) (next_ptr s) (clocks s) (guards s) (next_ref s).
Definition bump_seq s := mkFake (physical s) (time_scale s) (host_us s) (dev_seq s + 1) (pending s)
  (alloc_bytes s) (next_ptr s) (clocks s) (guards s) (next_ref s).
Definition set_pending p s := mkFake (physical s) (time_scale s) (host_us s) (dev_seq s) p
  (alloc_bytes s) (next_ptr s) (clocks s) (guards s) (next_ref s).
Definition set_alloc a s := mkFake (physical s) (time_scale s) (host_us s) (dev_seq s) (pending s)
  a (next_ptr s) (clocks s) (guards s) (next_ref s).
Definition bump_ptr n s := mkFake (physical s) (time_scale s) (host_us s) (dev_seq s) (pending s)
  (alloc_bytes s) (next_ptr s + n) (clocks s) (guards s) (next_ref s).
Definition set_clocks c s := mkFake (physical s) (time_scale s) (host_us s) (dev_seq s) (pending s)
  (alloc_bytes s) (next_ptr s) c (guards s) (next_ref s).
Definition set_guards g s := mkFake (physical s) (time_scale s) (host_us s) (dev_seq s) (pending s)
  (alloc_bytes s) (next_ptr s) (clocks s) g (next_ref s).
Definition bump_ref s := mkFake (physical s) (time_scale s) (host_us s) (dev_seq s) (pending s)
  (alloc_bytes s) (next_ptr s) (clocks s) (guards s) (S (next_ref s)).

(** ** Streams and events *)

(** A stream that was never advanced is at 0.0. *)
Definition clock_us (st : Stream) (s : Fake) : T := default num_zero (clocks s !! st_ref st).
Definition set_clock (st : Stream) (t : T) (s : Fake) : Fake := set_clocks (<[st_ref st := t]> (clocks s)) s.

(** [buffer.guard_event] and its assignment. *)
Definition guard_event (b : Buffer) (s : Fake) : Guard T := default NoGuard (guards s !! b_ref b).
Definition set_guard (b : Buffer) (g : Guard T) (s : Fake) : Fake := set_guards (<[b_ref b := g]> (guards s)) s.

(** A new Python object. *)
Definition new_ref : DM nat := r ← gets next_ref; modify bump_ref ;; mret r.

Definition create_stream (kind : StreamKind) : DM Stream :=
  modify bump_seq ;;
  n ← gets dev_seq;
  r ← new_ref;
  mret (mkStream r (kind_to_string kind +:+ ":" +:+ pretty n) kind).

Definition record_event (st : Stream) : DM (Event T) :=
  modify bump_seq ;;
  s ← get;
  mret (mkEvent ("ev" +:+ pretty (dev_seq s)) (clock_us st s) false).

Definition stream_wait_event (st : Stream) (e : Event T) : DM unit :=
  modify (λ s, set_clock st (num_max (clock_us st s) (time_us e)) s).

Definition event_complete (e : Event T) (s : Fake) : bool := num_leb (time_us e) (host_us s).

(** [event_complete(buffer.guard_event)] of a guard that is not [None]: the
    attribute [time_us] is read off whatever the guard is. *)
Definition guard_complete (g : Guard T) (s : Fake) : result DeviceError bool :=
  match g with
  | NoGuard => Ok true
  | OneGuard e => Ok (event_complete e s)
  | GuardTuple _ => Err TupleHasNoTime
  end.

(** [guard_event is not None and not event_complete(guard_event)]. *)
Definition guard_pending (b : Buffer) (s : Fake) : result DeviceError bool :=
  negb <$> guard_complete (guard_event b s) s.

Definition align_stream_to_host (st : Stream) : DM unit :=
  modify (λ s, set_clock st (num_max (clock_us st s) (host_us s)) s).

Definition event_time_us (e : Event T) : T := time_us e.

(** ** Memory *)
Definition add_alloc (l : Location) (delta : Z) : DM unit :=
  s ← get;
  match alloc_bytes s !! l with
  | None => raise (AllocKeyError l)
  | Some n => modify (set_alloc (<[l := n + delta]> (alloc_bytes s)))
  end.

Definition alloc (l : Location) (size : Z) : DM Buffer :=
  modify bump_seq ;;
  ptr ← gets next_ptr;
  modify (bump_ptr (Z.max size 1)) ;;
  add_alloc l size ;;
  n ← gets dev_seq;
  r ← new_ref;
  mret (mkBuffer r ("buf" +:+ pretty n) l size ptr RawNone None).

Definition dev_free (b : Buffer) : DM unit := add_alloc (b_location b) (- b_size_bytes b).

(** ** Asynchronous work *)
Definition advance_stream (st : Stream) (duration : T) : DM (T * T) :=
  s ← get;
  let duration := match time_scale s with Some f => f (st_kind st) duration | None => duration end in
  let start := num_max (clock_us st s) (host_us s) in
  modify (set_clock st (num_add start duration)) ;;
  mret (start, num_add start duration).

Definition memcpy_async (dst src : Buffer) (size : Z) (st : Stream) (duration : option T) : DM (T * T) :=
  match duration with
  | None => raise MemcpyNeedsDuration
  | Some d => advance_stream st d
  end.

(** Bytes are notional. *)
Definition memset_async (b : Buffer) (value : Z) (st : Stream) : DM unit := mret tt.

(** ** Completion tokens *)
Definition Entry : Type := T * Z * Z * Tok.
Definition entry_time (e : Entry) : T := e.1.1.1.
Definition entry_prio (e : Entry) : Z := e.1.1.2.
Definition entry_seq (e : Entry) : Z := e.1.2.

(** Tuples compare lexicographically; the sequence numbers are distinct, so a
    token is never compared. *)
Definition entry_leb (a b : Entry) : bool :=
  num_ltb (entry_time a) (entry_time b) ||
  (num_eqb (entry_time a) (entry_time b) &&
   ((entry_prio a <? entry_prio b) || ((entry_prio a =? entry_prio b) && (entry_seq a <=? entry_seq b)))).

Definition notify_after (st : Stream) (e : Event T) (token : Tok) (priority : Z) : DM unit :=
  modify bump_seq ;;
  n ← gets dev_seq;
  modify (λ s, set_pending (insert_sorted entry_leb (time_us e, priority, n, token) (pending s)) s).

Definition next_completion : DM (option Tok) :=
  s ← get;
  match pending s with
  | [] => mret None
  | (t, _, _, token) :: rest =>
      modify (set_pending rest) ;;
      modify (set_host (num_max (host_us s) t)) ;;
      mret (Some token)
  end.

Definition host_now_us (s : Fake) : T := host_us s.

(** Set-up is instantaneous. *)
Definition mark_origin : DM unit := mret tt.

(** [while self._pending: self.next_completion()]. *)
Fixpoint sync_loop (fuel : nat) : DM unit :=
  match fuel with
  | O => mret tt
  | S fuel => tok ← next_completion; match tok with None => mret tt | Some _ => sync_loop fuel end
  end.
Definition sync_all : DM unit := n ← gets (λ s, length (pending s)); sync_loop n.

Definition drain_aborted : DM Z :=
  n ← gets (λ s, length (pending s));
  modify (set_pending []) ;;
  mret (Z.of_nat n).
End Fake.
Arguments Fake : clear implicits.

(** ** Delivery order *)
Inductive DeviceOp (T Tok : Type) :=
| OpCreate (k : StreamKind)
| OpRecord (st : Stream)
| OpWait (st : Stream) (e : Event T)
| OpAlign (st : Stream)
| OpAlloc (l : Location) (size : Z)
| OpFree (b : Buffer)
| OpAdvance (st : Stream) (d : T)
| OpNotify (st : Stream) (e : Event T) (tok : Tok) (prio : Z)
| OpNext
| OpSync.
Arguments OpCreate {T Tok}.
Arguments OpRecord {T Tok}.
Arguments OpWait {T Tok}.
Arguments OpAlign {T Tok}.
Arguments OpAlloc {T Tok}.
Arguments OpFree {T Tok}.
Arguments OpAdvance {T Tok}.
Arguments OpNotify {T Tok}.
Arguments OpNext {T Tok}.
Arguments OpSync {T Tok}.

Section Order.
Context {T Tok : Type} `{NumLaws T}.
Implicit Types (s : Fake T Tok) (op : DeviceOp T Tok).

(** The state an operation leaves, whether it returned or raised. *)
Definition device_op op s : Fake T Tok :=
  match op with
  | OpCreate k => snd (create_stream k s)
  | OpRecord st => snd (record_event st s)
  | OpWait st e => snd (stream_wait_event st e s)
  | OpAlign st => snd (align_stream_to_host st s)
  | OpAlloc l size => snd (alloc l size s)
  | OpFree b => snd (dev_free b s)
  | OpAdvance st d => snd (advance_stream st d s)
  | OpNotify st e tok prio => snd (notify_after st e tok prio s)
  | OpNext => snd (next_completion s)
  | OpSync => snd (sync_all s)
  end.

(** The entries an operation takes off the heap, in order. *)
Definition delivered op s : list (T * Z * Z * Tok) :=
  match op with
  | OpNext => take 1 (pending s)
  | OpSync => pending s
  | _ => []
  end.

Definition notified op : list Tok :=
  match op with OpNotify _ _ tok _ => [tok] | _ => [] end.

Fixpoint device_run (ops : list (DeviceOp T Tok)) s : Fake T Tok :=
  match ops with [] => s | op :: ops => device_run ops (device_op op s) end.
Fixpoint deliveries (ops : list (DeviceOp T Tok)) s : list (T * Z * Z * Tok) :=
  match ops with [] => [] | op :: ops => delivered op s ++ deliveries ops (device_op op s) end.

(** No token is registered for an event in the past: what
    [align_stream_to_host] is called for before every recorded start. *)
Fixpoint timely (ops : list (DeviceOp T Tok)) s : Prop :=
  match ops with
  | [] => True
  | op :: ops =>
      match op with OpNotify _ e _ _ => num_leb (host_us s) (time_us e) = true | _ => True end ∧
      timely ops (device_op op s)
  end.

Definition sorted_entries : list (T * Z * Z * Tok) → Prop :=
  StronglySorted (λ a b, entry_leb a b = true).

(** The heap is in order and holds no entry of the past. *)
Record FakeInv s : Prop := {
  fi_sorted : sorted_entries (pending s);
  fi_future : Forall (λ e, num_leb (host_us s) (entry_time e) = true) (pending s);
}.

Lemma entry_leb_time (a b : T * Z * Z * Tok) :
  entry_leb a b = true → num_leb (entry_time a) (entry_time b) = true.
Proof.
  unfold entry_leb. rewrite num_eqb_leb. intros [Hl|Hl]%orb_prop; [by apply num_ltb_weaken|].
  by apply andb_prop in Hl as [[? _]%andb_prop _].
Qed.

Lemma entry_leb_total (a b : T * Z * Z * Tok) : entry_leb a b = true ∨ entry_leb b a = true.
Proof.
  unfold entry_leb. rewrite !num_eqb_leb, !num_ltb_leb.
  destruct (num_leb_total (entry_time a) (entry_time b)) as [Hl|Hl]; rewrite Hl;
    [destruct (num_leb (entry_time b) (entry_time a))|destruct (num_leb (entry_time a) (entry_time b))];
    simpl; auto; lia.
Qed.

Lemma entry_leb_trans (a b c : T * Z * Z * Tok) :
  entry_leb a b = true → entry_leb b c = true → entry_leb a c = true.
Proof.
  unfold entry_leb. rewrite !num_eqb_leb, !num_ltb_leb.
  pose proof (num_leb_trans (entry_time a) (entry_time b) (entry_time c)).
  pose proof (num_leb_trans (entry_time c) (entry_time b) (entry_time a)).
  pose proof (num_leb_trans (entry_time b) (entry_time c) (entry_time a)).
  pose proof (num_leb_trans (entry_time c) (entry_time a) (entry_time b)).
  pose proof (num_leb_total (entry_time a) (entry_time b)).
  pose proof (num_leb_total (entry_time b) (entry_time c)).
  pose proof (num_leb_total (entry_time a) (entry_time c)).
  destruct (num_leb (entry_time a) (entry_time b)), (num_leb (entry_time b) (entry_time a)),
    (num_leb (entry_time b) (entry_time c)), (num_leb (entry_time c) (entry_time b)),
    (num_leb (entry_time a) (entry_time c)), (num_leb (entry_time c) (entry_time a));
    simpl in *; try tauto; intuition lia.
Qed.

(** The operations that leave the heap and the host clock alone. *)
Lemma quiet_op op s :
  notified op = [] → delivered op s = [] → op ≠ OpNext → op ≠ OpSync →
  pending (device_op op s) = pending s ∧ host_us (device_op op s) = host_us s.
Proof.
  destruct op; simpl; try done; intros _ _ _ _.
  - unfold alloc, add_alloc, mbind, M_bind; simpl. by destruct (alloc_bytes s !! l).
  - unfold dev_free, add_alloc, mbind, M_bind; simpl. by destruct (alloc_bytes s !! b_location b).
Qed.

(** Delivering everything leaves the clock at the last delivered time. *)
Lemma sync_loop_spec n : ∀ s, FakeInv s → length (pending s) = n →
  pending (snd (sync_loop n s)) = [] ∧
  num_leb (host_us s) (host_us (snd (sync_loop n s))) = true ∧
  Forall (λ e, num_leb (entry_time e) (host_us (snd (sync_loop n s))) = true) (pending s).
Proof.
  induction n as [|n IH]; intros s [Hs Hf] Hlen.
  { apply length_zero_iff_nil in Hlen. simpl. rewrite Hlen. split_and!; [done|apply num_leb_refl|by apply Forall_nil]. }
  destruct (pending s) as [|[[[t p] q] tok] rest] eqn:Hp; [done|]. simpl in Hlen.
  cbn [sync_loop]. unfold next_completion, mbind, M_bind. simpl. rewrite Hp. simpl.
  set (s1 := set_host _ _).
  inversion Hs as [|? ? Hs' Hall]; subst. apply Forall_cons in Hf as [Ht Hf].
  unfold entry_time in Ht; simpl in Ht.
  assert (FakeInv s1) as H1.
  { split; [done|]. simpl. unfold num_max. destruct (num_ltb (host_us s) t) eqn:Hlt; [|done].
    eapply Forall_impl; [exact Hall|]. intros e He. by apply entry_leb_time in He. }
  destruct (IH s1 H1) as (He & Hh & Ha); [simpl; lia|]. split; [done|].
  assert (num_leb (host_us s) (host_us s1) = true) by (simpl; apply num_max_l).
  assert (num_leb t (host_us s1) = true) by (simpl; apply num_max_r).
  split; [by eapply num_leb_trans|]. apply Forall_cons. split; [by eapply num_leb_trans|done].
Qed.

Lemma device_op_inv op s :
  FakeInv s → match op with OpNotify _ e _ _ => num_leb (host_us s) (time_us e) = true | _ => True end →
  FakeInv (device_op op s) ∧ num_leb (host_us s) (host_us (device_op op s)) = true ∧
  Forall (λ e, num_leb (entry_time e) (host_us (device_op op s)) = true) (delivered op s) ∧
  Permutation (notified op ++ (snd <$> pending s)) ((snd <$> delivered op s) ++ (snd <$> pending (device_op op s))).
Proof.
  intros Hinv Ht. pose proof Hinv as [Hs Hf].
  assert (notified op = [] → delivered op s = [] → op ≠ OpNext → op ≠ OpSync →
    FakeInv (device_op op s) ∧ num_leb (host_us s) (host_us (device_op op s)) = true ∧
    Forall (λ e, num_leb (entry_time e) (host_us (device_op op s)) = true) (delivered op s) ∧
    Permutation (notified op ++ (snd <$> pending s))
      ((snd <$> delivered op s) ++ (snd <$> pending (device_op op s)))) as Hq.
  { intros H1 H2 H3 H4. destruct (quiet_op op s H1 H2 H3 H4) as [Hp Hh]. rewrite H1, H2, Hp, Hh.
    split_and!; [by split; rewrite ?Hp, ?Hh|apply num_leb_refl|by apply Forall_nil|done]. }
  destruct op; try (apply Hq; done); clear Hq; simpl.
  - split_and!; [split; simpl|apply num_leb_refl|by apply Forall_nil|].
    + apply insert_sorted_sorted; [apply entry_leb_total|apply entry_leb_trans|done].
    + rewrite <-insert_sorted_perm. by apply Forall_cons.
    + by rewrite <-insert_sorted_perm.
  - destruct (pending s) as [|[[[t p] q] tok] rest] eqn:Hp.
    { unfold next_completion, mbind, M_bind. simpl. rewrite Hp. simpl. rewrite Hp.
      split_and!; [done|apply num_leb_refl|by apply Forall_nil|done]. }
    unfold next_completion, mbind, M_bind. simpl. rewrite Hp. simpl. rewrite take_0.
    inversion Hs as [|? ? Hs' Hall]; subst. apply Forall_cons in Hf as [Ht' Hf].
    split_and!; [split; simpl; [done|]|apply num_max_l|apply Forall_singleton, num_max_r|done].
    unfold num_max. destruct (num_ltb (host_us s) t) eqn:Hlt; [|done].
    eapply Forall_impl; [exact Hall|]. intros e He. by apply entry_leb_time in He.
  - destruct (sync_loop_spec (length (pending s)) s Hinv eq_refl) as (He & Hh & Ha).
    unfold sync_all, mbind, M_bind. simpl. rewrite He. simpl. rewrite app_nil_r.
    split_and!; [split; rewrite He; constructor|done|done|done].
Qed.

Lemma delivered_sorted op s : FakeInv s → sorted_entries (delivered op s).
Proof.
  intros [Hs _]. destruct op; try constructor; simpl; [|done].
  destruct (pending s); simpl; [constructor|]. rewrite take_0. repeat constructor.
Qed.

Lemma delivered_future op s :
  FakeInv s → Forall (λ e, num_leb (host_us s) (entry_time e) = true) (delivered op s).
Proof.
  intros [_ Hf]. destruct op; simpl; try (by apply Forall_nil); [|done].
  by apply Forall_take.
Qed.

Definition by_time (a b : T * Z * Z * Tok) : Prop := num_leb (entry_time a) (entry_time b) = true.

Lemma device_run_inv ops : ∀ s, FakeInv s → timely ops s →
  FakeInv (device_run ops s) ∧
  StronglySorted by_time (deliveries ops s) ∧
  Forall (λ e, num_leb (host_us s) (entry_time e) = true) (deliveries ops s) ∧
  Permutation (mjoin (notified <$> ops) ++ (snd <$> pending s))
    ((snd <$> deliveries ops s) ++ (snd <$> pending (device_run ops s))).
Proof.
  induction ops as [|op ops IH]; intros s Hinv Ht.
  { simpl. split_and!; [done|constructor|by apply Forall_nil|done]. }
  destruct Ht as [Ht Hts]. destruct (device_op_inv op s Hinv Ht) as (Hinv' & Hh & Hd & Hp).
  destruct (IH _ Hinv' Hts) as (Hi & Hsort & Hfut & Hperm). cbn [device_run deliveries].
  pose proof (delivered_sorted op s Hinv) as Hds. pose proof (delivered_future op s Hinv) as Hdf.
  split_and!; [done|..].
  - apply StronglySorted_app_iff. split_and!; [|done|].
    + clear -Hds H0. induction Hds as [|e l Hl IHl He]; constructor; [done|].
      eapply Forall_impl; [exact He|]. intros x. apply entry_leb_time.
    + intros a b Ha Hb. rewrite Forall_forall in Hd, Hfut. specialize (Hd a Ha). specialize (Hfut b Hb).
      by eapply num_leb_trans.
  - apply Forall_app. split; [done|]. eapply Forall_impl; [exact Hfut|]. intros e He. by eapply num_leb_trans.
  - rewrite fmap_cons, fmap_app. cbn [mjoin list_join]. rewrite <-!(assoc_L (++)), <-Hperm.
    rewrite (assoc_L (++) (notified op)), (comm (++) (notified op)), <-(assoc_L (++)), Hp.
    by rewrite !(assoc_L (++)), (comm (++) (mjoin _)).
Qed.
End Order.

(** Completion tokens are delivered in the order of their completion times and
    none is lost or delivered twice: whatever the backend is asked to do, the
    tokens registered are those delivered and those still pending, provided
    no token is registered for an event in the past. *)
Theorem completions_in_order {T Tok} `{NumLaws T} phys scale (ops : list (DeviceOp T Tok)) :
  timely ops (new_fake phys scale) →
  StronglySorted by_time (deliveries ops (new_fake phys scale)) ∧
  Permutation (mjoin (notified <$> ops))
    ((snd <$> deliveries ops (new_fake phys scale)) ++ (snd <$> pending (device_run ops (new_fake phys scale)))).
Proof.
  intros Ht. destruct (device_run_inv ops (new_fake phys scale)) as (_ & Hs & _ & Hp); [|done|].
  - split; simpl; [constructor|by apply Forall_nil].
  - split; [done|]. simpl in Hp. by rewrite app_nil_r in Hp.
Qed.

Definition sample_ops : list (DeviceOp Z nat) :=
  let st := mkStream 0 "compute:1" Compute in
  [OpNotify st (mkEvent "ev1" 5 false) 1%nat 2; OpNotify st (mkEvent "ev2" 3 false) 2%nat 0;
   OpNotify st (mkEvent "ev3" 5 false) 3%nat 0; OpNext; OpNotify st (mkEvent "ev4" 4 false) 4%nat 1; OpSync].

Lemma completions_in_order_witness :
  snd <$> deliveries sample_ops (new_fake false None) = [2; 4; 3; 1]%nat ∧
  StronglySorted by_time (deliveries sample_ops (new_fake false None)).
Proof.
  split; [vm_compute; reflexivity|].
  apply (completions_in_order false None sample_ops). vm_compute. tauto.
Defined.
