(* ===== verification/Objects.v ===== *)
(** * The object table ([dataflow/runtime/objects.py])

    A record per object, in the order the objects appeared, with a slot per
    location.  Slots and records are owned by the table, so the code's
    in-place updates are updates of the table. *)
From S2P Require Import Prelude SimSchema CoreProgram Placement Device.
From stdpp Require Import base tactics option list gmap strings.
From Stdlib Require Import ZArith Lia.
Open Scope Z_scope.

Inductive SlotState := Reserved | Live | PendingOutbound | Outbound | PendingInbound | Inbound.

#[export] Instance SlotState_eq_dec : EqDecision SlotState.
Proof. solve_decision. Defined.

Record Slot (T : Type) := mkSlot {
  sl_buffer : Buffer;
  sl_state : SlotState;
  sl_version : Z;
  sl_ready_event : option (Event T);
}.
Arguments mkSlot {T}.
Arguments sl_buffer {T}.
Arguments sl_state {T}.
Arguments sl_version {T}.
Arguments sl_ready_event {T}.

Record ObjectRecord (T : Type) := mkRecord {
  or_id : string;
  or_size_bytes : Z;
  or_role : string;
  or_tensor : option TensorMeta;
  or_version : Z;
  or_fast : option (Slot T);
  or_backing : option (Slot T);
}.
Arguments mkRecord {T}.
Arguments or_id {T}.
Arguments or_size_bytes {T}.
Arguments or_role {T}.
Arguments or_tensor {T}.
Arguments or_version {T}.
Arguments or_fast {T}.
Arguments or_backing {T}.

Section Objects.
Context {T : Type}.
Implicit Types (r : ObjectRecord T) (l : Location).

(** [ObjectRecord(id=..., size_bytes=..., role=..., tensor=...)]. *)
Definition new_record (id : string) (size : Z) (role : string) (tensor : option TensorMeta) : ObjectRecord T :=
  mkRecord id size role tensor 0 None None.

Definition slot l r : option (Slot T) := match l with Fast => or_fast r | _ => or_backing r end.

Definition set_slot l (sl : option (Slot T)) r : ObjectRecord T :=
  match l with
  | Fast => mkRecord (or_id r) (or_size_bytes r) (or_role r) (or_tensor r) (or_version r) sl (or_backing r)
  | _ => mkRecord (or_id r) (or_size_bytes r) (or_role r) (or_tensor r) (or_version r) (or_fast r) sl
  end.

Definition set_version (v : Z) r : ObjectRecord T :=
  mkRecord (or_id r) (or_size_bytes r) (or_role r) (or_tensor r) v (or_fast r) (or_backing r).

(** Assignments to the fields of a slot. *)
Definition with_state (st : SlotState) (s : Slot T) : Slot T :=
  mkSlot (sl_buffer s) st (sl_version s) (sl_ready_event s).
Definition with_version (v : Z) (s : Slot T) : Slot T :=
  mkSlot (sl_buffer s) (sl_state s) v (sl_ready_event s).
Definition with_ready (e : option (Event T)) (s : Slot T) : Slot T :=
  mkSlot (sl_buffer s) (sl_state s) (sl_version s) e.

(** [ObjectTable.records]. *)
Definition Table : Type := list (string * ObjectRecord T).

Definition table_get (tb : Table) (oid : string) : option (ObjectRecord T) := assoc_get tb oid.

(** [ObjectTable.add]: an existing record is returned as it is. *)
Definition table_add (r : ObjectRecord T) (tb : Table) : ObjectRecord T * Table :=
  match assoc_get tb (or_id r) with
  | Some existing => (existing, tb)
  | None => (r, assoc_set tb (or_id r) r)
  end.

Definition fast_state (tb : Table) (oid : string) : option SlotState :=
  match assoc_get tb oid with
  | Some r => sl_state <$> or_fast r
  | None => None
  end.
End Objects.
Arguments Table : clear implicits.
