(* ===== verification/Pool.v ===== *)
(** * The buffer pool ([dataflow/runtime/pool.py], buffers of [slab.py])

    Recycling of physical buffers: exact-size free lists over slabs, overflow
    arenas and the backend's allocator, and the assigned mode in which the
    offsets of a static placement are handed out.  An operation runs over the
    backend and the pool together.  The diagnostics log is off
    ([alloc_log is None]) and so is the VMM arena ([vmm is None]). *)
From S2P Require Import Prelude SimSchema Slab Placement Device.
From stdpp Require Import base tactics option list gmap strings pretty sorting.
From Stdlib Require Import ZArith Lia.
Open Scope Z_scope.

(** A [SlabAllocator]: the holes of [Slab.v] with the allocation they divide. *)
Record SlabAllocator := mkSlabAllocator {
  sa_location : Location;
  sa_slab : Slab;
  sa_base : option Buffer;
}.

Inductive PoolError :=
| PoolDevice (e : DeviceError)
| ShapeUnstable (key : InstanceKey) (placed requested : Z)
| SizesKeyError (key : InstanceKey)
| AssignedWhileLive (key : InstanceKey)
| ExternalKeyError (l : Location)
| SlabBaseMissing
| NoPlacementBase.

Section Pool.
Context {T Tok : Type} `{Num T}.

Abbreviation DM := (M (Fake T Tok) DeviceError).

Record Pool := mkPool {
  slabs : list (Location * SlabAllocator);
  overflow_slabs : list (Location * SlabAllocator);
  free_lists : list ((Location * Z) * list Buffer);
  allocated_count : Z;
  reused_count : Z;
  slab_overflows : Z;
  arena_carves : Z;
  placement_escapes : Z;
  pool_seq : Z;
  recorder : option PlacementRecorder;
  placement : option Placement;
  placement_base : option Buffer;
  incarnations : gmap string Z;
  live_ranges : gmap InstanceKey (Z * Z);
  allocated_by_key : gmap (Location * Z) Z;
  placed_pending_guards : list (Z * Z * Event T);
  external_alloc : list (Location * ((Z → DM Buffer) * (Buffer → DM unit)));
}.

Definition new_pool : Pool := mkPool [] [] [] 0 0 0 0 0 0 None None None ∅ ∅ ∅ [] [].

(** The state of a pool operation: the backend it calls and the pool. *)
Definition PS : Type := Fake T Tok * Pool.
Abbreviation PM := (M PS PoolError).

Definition on_dev {A} (m : DM A) : PM A := λ s,
  match m s.1 with
  | (Ok a, d) => (Ok a, (d, s.2))
  | (Err e, d) => (Err (PoolDevice e), (d, s.2))
  end.
Definition on_pool (f : Pool → Pool) : PM unit := modify (λ s, (s.1, f s.2)).
Definition the_pool {A} (f : Pool → A) : PM A := gets (λ s, f s.2).

(** ** Field updates *)
Definition set_slabs x p := mkPool x (overflow_slabs p) (free_lists p) (allocated_count p) (reused_count p)
  (slab_overflows p) (arena_carves p) (placement_escapes p) (pool_seq p) (recorder p) (placement p)
  (placement_base p) (incarnations p) (live_ranges p) (allocated_by_key p) (placed_pending_guards p) (external_alloc p).
Definition set_overflow x p := mkPool (slabs p) x (free_lists p) (allocated_count p) (reused_count p)
  (slab_overflows p) (arena_carves p) (placement_escapes p) (pool_seq p) (recorder p) (placement p)
  (placement_base p) (incarnations p) (live_ranges p) (allocated_by_key p) (placed_pending_guards p) (external_alloc p).
Definition set_free x p := mkPool (slabs p) (overflow_slabs p) x (allocated_count p) (reused_count p)
  (slab_overflows p) (arena_carves p) (placement_escapes p) (pool_seq p) (recorder p) (placement p)
  (placement_base p) (incarnations p) (live_ranges p) (allocated_by_key p) (placed_pending_guards p) (external_alloc p).
Definition count_alloc (k : Location * Z) p := mkPool (slabs p) (overflow_slabs p) (free_lists p)
  (allocated_count p + 1) (reused_count p)
  (slab_overflows p) (arena_carves p) (placement_escapes p) (pool_seq p) (recorder p) (placement p)
  (placement_base p) (incarnations p) (live_ranges p)
  (<[k := default 0 (allocated_by_key p !! k) + 1]> (allocated_by_key p)) (placed_pending_guards p) (external_alloc p).
Definition count_reuse p := mkPool (slabs p) (overflow_slabs p) (free_lists p)
  (allocated_count p) (reused_count p + 1)
  (slab_overflows p) (arena_carves p) (placement_escapes p) (pool_seq p) (recorder p) (placement p)
  (placement_base p) (incarnations p) (live_ranges p) (allocated_by_key p) (placed_pending_guards p) (external_alloc p).
Definition count_overflow p := mkPool (slabs p) (overflow_slabs p) (free_lists p)
  (allocated_count p) (reused_count p)
  (slab_overflows p + 1) (arena_carves p) (placement_escapes p) (pool_seq p) (recorder p) (placement p)
  (placement_base p) (incarnations p) (live_ranges p) (allocated_by_key p) (placed_pending_guards p) (external_alloc p).
Definition count_carve p := mkPool (slabs p) (overflow_slabs p) (free_lists p)
  (allocated_count p) (reused_count p)
  (slab_overflows p) (arena_carves p + 1) (placement_escapes p) (pool_seq p) (recorder p) (placement p)
  (placement_base p) (incarnations p) (live_ranges p) (allocated_by_key p) (placed_pending_guards p) (external_alloc p).
Definition count_escape p := mkPool (slabs p) (overflow_slabs p) (free_lists p)
  (allocated_count p) (reused_count p)
  (slab_overflows p) (arena_carves p) (placement_escapes p + 1) (pool_seq p) (recorder p) (placement p)
  (placement_base p) (incarnations p) (live_ranges p) (allocated_by_key p) (placed_pending_guards p) (external_alloc p).
Definition bump_pool_seq p := mkPool (slabs p) (overflow_slabs p) (free_lists p)
  (allocated_count p) (reused_count p)
  (slab_overflows p) (arena_carves p) (placement_escapes p) (pool_seq p + 1) (recorder p) (placement p)
  (placement_base p) (incarnations p) (live_ranges p) (allocated_by_key p) (placed_pending_guards p) (external_alloc p).
Definition set_recorder x p := mkPool (slabs p) (overflow_slabs p) (free_lists p)
  (allocated_count p) (reused_count p)
  (slab_overflows p) (arena_carves p) (placement_escapes p) (pool_seq p) x (placement p)
  (placement_base p) (incarnations p) (live_ranges p) (allocated_by_key p) (placed_pending_guards p) (external_alloc p).
Definition set_placement x b p := mkPool (slabs p) (overflow_slabs p) (free_lists p)
  (allocated_count p) (reused_count p)
  (slab_overflows p) (arena_carves p) (placement_escapes p) (pool_seq p) (recorder p) x
  b (incarnations p) (live_ranges p) (allocated_by_key p) (placed_pending_guards p) (external_alloc p).
Definition set_incarnations x p := mkPool (slabs p) (overflow_slabs p) (free_lists p)
  (allocated_count p) (reused_count p)
  (slab_overflows p) (arena_carves p) (placement_escapes p) (pool_seq p) (recorder p) (placement p)
  (placement_base p) x (live_ranges p) (allocated_by_key p) (placed_pending_guards p) (external_alloc p).
Definition set_live_ranges x p := mkPool (slabs p) (overflow_slabs p) (free_lists p)
  (allocated_count p) (reused_count p)
  (slab_overflows p) (arena_carves p) (placement_escapes p) (pool_seq p) (recorder p) (placement p)
  (placement_base p) (incarnations p) x (allocated_by_key p) (placed_pending_guards p) (external_alloc p).
Definition set_placed_guards x p := mkPool (slabs p) (overflow_slabs p) (free_lists p)
  (allocated_count p) (reused_count p)
  (slab_overflows p) (arena_carves p) (placement_escapes p) (pool_seq p) (recorder p) (placement p)
  (placement_base p) (incarnations p) (live_ranges p) (allocated_by_key p) x (external_alloc p).
Definition set_external x p := mkPool (slabs p) (overflow_slabs p) (free_lists p)
  (allocated_count p) (reused_count p)
  (slab_overflows p) (arena_carves p) (placement_escapes p) (pool_seq p) (recorder p) (placement p)
  (placement_base p) (incarnations p) (live_ranges p) (allocated_by_key p) (placed_pending_guards p) x.

(** ** Slabs *)

(** [SlabAllocator(...)] with [__post_init__]; [scaled] is
    [int(capacity_bytes * headroom_factor)]. *)
Definition make_slab (l : Location) (capacity scaled : Z) : PM SlabAllocator :=
  let s := post_init capacity scaled in
  base ← on_dev (alloc l (capacity_bytes s));
  mret (mkSlabAllocator l s (Some base)).

(** The default factor 0.125 is exact in binary, the arena's is 0.0. *)
Definition add_slab (l : Location) (capacity overflow : Z) : PM unit :=
  sa ← make_slab l capacity (Z.quot capacity 8);
  on_pool (λ p, set_slabs (assoc_set (slabs p) l sa) p) ;;
  when (0 <? overflow)
    (sa ← make_slab l overflow 0;
     on_pool (λ p, set_overflow (assoc_set (overflow_slabs p) l sa) p)).

(** The allocator object a slab-backed buffer carries. *)
Definition slab_at (r : SlabRef) (p : Pool) : option SlabAllocator :=
  match r with
  | MainSlab l => assoc_get (slabs p) l
  | OverflowSlab l => assoc_get (overflow_slabs p) l
  end.
Definition set_slab_at (r : SlabRef) (s : Slab) (p : Pool) : Pool :=
  match slab_at r p with
  | None => p
  | Some sa =>
      let sa := mkSlabAllocator (sa_location sa) s (sa_base sa) in
      match r with
      | MainSlab l => set_slabs (assoc_set (slabs p) l sa) p
      | OverflowSlab l => set_overflow (assoc_set (overflow_slabs p) l sa) p
      end
  end.

(** [over.allocate(size)] on the allocator object [r]. *)
Definition slab_allocate (r : SlabRef) (size : Z) : PM (option Z) :=
  sa ← the_pool (slab_at r);
  match sa with
  | None => mret None
  | Some sa =>
      let '(off, s) := allocate size (sa_slab sa) in
      on_pool (set_slab_at r s) ;; mret off
  end.

Definition slab_free (r : SlabRef) (offset size : Z) : PM unit :=
  sa ← the_pool (slab_at r);
  match sa with
  | None => mret tt
  | Some sa => on_pool (set_slab_at r (free offset size (sa_slab sa)))
  end.

Definition make_buffer (r : SlabRef) (offset size seq : Z) : PM Buffer :=
  sa ← the_pool (slab_at r);
  match sa ≫= sa_base, sa with
  | Some base, Some sa =>
      n ← on_dev new_ref;
      mret (mkBuffer n ("slab:" +:+ loc_to_string (sa_location sa) +:+ ":" +:+ pretty seq)
              (sa_location sa) size (b_ptr base + offset) (RawSlab offset r) None)
  | _, _ => raise SlabBaseMissing
  end.

(** [SlabAllocator.close]. *)
Definition close_slab (sa : SlabAllocator) : PM unit :=
  match sa_base sa with Some base => on_dev (dev_free base) | None => mret tt end.

(** ** Static placement *)
Definition reset_placement_epoch : PM unit :=
  on_pool (λ p, set_live_ranges ∅ (set_incarnations ∅ p)).

Definition enable_placement (pl : Placement) : PM unit :=
  base ← on_dev (alloc Fast (pl_extent_bytes pl));
  on_pool (set_placement (Some pl) (Some base)) ;;
  reset_placement_epoch.

Definition next_key (tag : string) (p : Pool) : InstanceKey := (tag, default 0 (incarnations p !! tag)).

Definition advance_incarnation (key : InstanceKey) (p : Pool) : Pool :=
  set_incarnations (<[key.1 := key.2 + 1]> (incarnations p)) p.

(** [lo < end and offset < hi] for a live range [(lo, hi)]. *)
Definition range_busy (offset size : Z) (p : Pool) : bool :=
  existsb (λ kr, (kr.2.1 <? offset + size) && (offset <? kr.2.2)) (map_to_list (live_ranges p)).

(** The offset of the next instance of [tag] in assigned mode. *)
Definition assigned_offset (l : Location) (tag : option string) (p : Pool) : option (InstanceKey * Placement * Z) :=
  match placement p, l, tag with
  | Some pl, Fast, Some tag =>
      let key := next_key tag p in
      offset ← pl_offsets pl !! key; Some (key, pl, offset)
  | _, _, _ => None
  end.

Definition can_get (l : Location) (size : Z) (tag : option string) (p : Pool) : bool :=
  match assigned_offset l tag p with
  | None => true
  | Some (_, _, offset) => negb (range_busy offset size p)
  end.

(** ** Dynamic allocation *)

(** [stack.pop()]. *)
Definition py_pop {A} (l : list A) : option (A * list A) :=
  match rev l with [] => None | x :: r => Some (x, rev r) end.

(** A pooled buffer stays pooled when the slab is flushed: it is not
    slab-backed, or its guard is pending. *)
Definition keep_pooled (b : Buffer) (d : Fake T Tok) : result DeviceError bool :=
  match b_raw b with
  | RawSlab _ _ => guard_pending b d
  | _ => Ok true
  end.

Definition flush_buffer (keep : list Buffer) (b : Buffer) : PM (list Buffer) :=
  d ← gets fst;
  k ← on_dev (lift (keep_pooled b d));
  if (k : bool) then mret (keep ++ [b])
  else
    (match b_raw b with
     | RawSlab off r => slab_free r off (b_size_bytes b)
     | _ => mret tt
     end) ;; mret keep.

Fixpoint flush_stack (keep stack : list Buffer) : PM (list Buffer) :=
  match stack with
  | [] => mret keep
  | b :: stack => keep ← flush_buffer keep b; flush_stack keep stack
  end.

(** Return the pooled buffers of location [l] to their slabs. *)
Definition flush (l : Location) : PM unit :=
  fl ← the_pool free_lists;
  forM_ fl (λ kv,
    if bool_decide (kv.1.1 = l) then
      keep ← flush_stack [] kv.2;
      on_pool (λ p, set_free (assoc_set (free_lists p) kv.1 keep) p)
    else mret tt).

(** No hole fits: the overflow arena, then the vendor allocator. *)
Definition carve_overflow (l : Location) (size : Z) : PM Buffer :=
  over ← the_pool (slab_at (OverflowSlab l));
  off ← (match over with Some _ => slab_allocate (OverflowSlab l) size | None => mret None end);
  match off with
  | Some off =>
      on_pool count_carve ;; on_pool bump_pool_seq ;;
      n ← the_pool pool_seq; make_buffer (OverflowSlab l) off size n
  | None => on_pool count_overflow ;; on_dev (alloc l size)
  end.

Definition carve_buffer (l : Location) (size : Z) : PM Buffer :=
  off ← slab_allocate (MainSlab l) size;
  off ← (match off with
         | Some off => mret (Some off)
         | None => flush l ;; slab_allocate (MainSlab l) size
         end);
  match off with
  | Some off => on_pool bump_pool_seq ;; n ← the_pool pool_seq; make_buffer (MainSlab l) off size n
  | None => carve_overflow l size
  end.

Definition get_dynamic (l : Location) (size : Z) : PM Buffer :=
  p ← gets snd;
  match assoc_get (free_lists p) (l, size) ≫= py_pop with
  | Some (b, stack) =>
      on_pool count_reuse ;;
      on_pool (λ p, set_free (assoc_set (free_lists p) (l, size) stack) p) ;;
      mret b
  | None =>
      on_pool (count_alloc (l, size)) ;;
      match assoc_get (slabs p) l with
      | Some _ => carve_buffer l size
      | None =>
          match assoc_get (external_alloc p) l with
          | Some ext => on_dev (ext.1 size)
          | None => on_dev (alloc l size)
          end
      end
  end.

(** ** The operations *)
Definition with_tag (key : InstanceKey) (b : Buffer) : Buffer :=
  mkBuffer (b_ref b) (b_id b) (b_location b) (b_size_bytes b) (b_ptr b) (b_raw b) (Some key).

Definition get_escaped (l : Location) (size : Z) (tag : string) : PM Buffer :=
  p ← gets snd;
  on_pool (advance_incarnation (next_key tag p)) ;;
  on_pool count_escape ;;
  get_dynamic l size.

(** The guards of the range [start, end) that are still pending; completed
    ones are dropped. *)
Definition inherit_guards (b : Buffer) : PM unit :=
  s ← get;
  let '(d, p) := s in
  let live := filter (λ g, event_complete g.2 d = false) (placed_pending_guards p) in
  let mine := filter (λ g, g.1.1 < b_ptr b + b_size_bytes b ∧ b_ptr b < g.1.2) live in
  match placed_pending_guards p with
  | [] => mret tt
  | _ =>
      on_pool (set_placed_guards live) ;;
      match mine with
      | [] => mret tt
      | [g] => on_dev (modify (set_guard b (OneGuard g.2)))
      | _ => on_dev (modify (set_guard b (GuardTuple (snd <$> mine))))
      end
  end.

Definition get_placed (key : InstanceKey) (pl : Placement) (offset size : Z) : PM Buffer :=
  placed ← (match pl_sizes pl !! key with Some z => mret z | None => raise (SizesKeyError key) end);
  check (size =? placed) (ShapeUnstable key placed size) ;;
  p ← gets snd;
  check (negb (range_busy offset size p)) (AssignedWhileLive key) ;;
  on_pool (advance_incarnation key) ;;
  on_pool (λ p, set_live_ranges (<[key := (offset, offset + size)]> (live_ranges p)) p) ;;
  on_pool bump_pool_seq ;;
  match placement_base p with
  | None => raise NoPlacementBase
  | Some base =>
      n ← on_dev new_ref;
      let b := mkBuffer n ("placed:" +:+ key.1 +:+ ":" +:+ pretty key.2) Fast size
                 (b_ptr base + offset) RawPlaced (Some key) in
      inherit_guards b ;; mret b
  end.

Definition pool_get (l : Location) (size : Z) (tag : option string) : PM Buffer :=
  p ← gets snd;
  match recorder p, l, tag with
  | Some rc, Fast, Some tag =>
      let key := next_key tag p in
      on_pool (advance_incarnation key) ;;
      on_pool (set_recorder (Some (on_get key size rc))) ;;
      b ← get_dynamic l size;
      mret (with_tag key b)
  | _, _, _ =>
      match assigned_offset l tag p with
      | Some (key, pl, offset) => get_placed key pl offset size
      | None => get_dynamic l size
      end
  end.

Definition record_put (b : Buffer) : PM unit :=
  p ← gets snd;
  match recorder p, b_tag b with
  | Some rc, Some key => on_pool (set_recorder (Some (on_put key rc)))
  | _, _ => mret tt
  end.

Definition put (b : Buffer) : PM unit :=
  record_put b ;;
  match b_raw b with
  | RawPlaced =>
      on_pool (λ p, match b_tag b with
                    | Some key => set_live_ranges (delete key (live_ranges p)) p
                    | None => p
                    end) ;;
      d ← gets fst;
      pend ← on_dev (lift (guard_pending b d));
      when pend
        (match guard_event b d with
         | OneGuard e =>
             on_pool (λ p, set_placed_guards
               (placed_pending_guards p ++ [(b_ptr b, b_ptr b + b_size_bytes b, e)]) p)
         | _ => mret tt
         end)
  | _ =>
      on_pool (λ p,
        let key := (b_location b, b_size_bytes b) in
        set_free (assoc_set (free_lists p) key (default [] (assoc_get (free_lists p) key) ++ [b])) p)
  end.

(** ** Set-up and teardown *)
Definition demand_leb (a b : (Location * Z) * Z) : bool :=
  let la := loc_to_string a.1.1 in
  let lb := loc_to_string b.1.1 in
  if String.eqb la lb then a.1.2 <=? b.1.2 else String.leb la lb.

(** [while len(stack) < count: stack.append(backend.alloc(...))]. *)
Fixpoint prewarm_stack (n : nat) (key : Location * Z) : PM unit :=
  match n with
  | O => mret tt
  | S n =>
      on_pool (count_alloc key) ;;
      b ← on_dev (alloc key.1 key.2);
      on_pool (λ p, set_free (assoc_set (free_lists p) key
        (default [] (assoc_get (free_lists p) key) ++ [b])) p) ;;
      prewarm_stack n key
  end.

Definition prewarm (demand : list ((Location * Z) * Z)) : PM unit :=
  ext ← the_pool external_alloc;
  let demand := filter (λ kv, assoc_get ext kv.1.1 = None) demand in
  forM_ (py_sorted demand_leb demand) (λ kv,
    p ← gets snd;
    if bool_decide (is_Some (assoc_get (slabs p) kv.1.1)) then mret tt
    else if bool_decide (kv.1.1 = Fast) && bool_decide (is_Some (placement p)) then mret tt
    else
      let stack := default [] (assoc_get (free_lists p) kv.1) in
      on_pool (λ p, set_free (assoc_set (free_lists p) kv.1 stack) p) ;;
      prewarm_stack (Z.to_nat (kv.2 - Z.of_nat (length stack))) kv.1).

Definition drain_buffer (b : Buffer) : PM unit :=
  match b_raw b with
  | RawSlab off r => slab_free r off (b_size_bytes b)
  | RawExternal _ =>
      p ← gets snd;
      match assoc_get (external_alloc p) (b_location b) with
      | Some ext => on_dev (ext.2 b)
      | None => raise (ExternalKeyError (b_location b))
      end
  | _ => on_dev (dev_free b)
  end.

(** Stacks are popped from the end. *)
Definition drain : PM unit :=
  fl ← the_pool free_lists;
  forM_ fl (λ kv, forM_ (rev kv.2) drain_buffer) ;;
  on_pool (set_free []) ;;
  sl ← the_pool slabs;
  forM_ sl (λ kv, close_slab kv.2) ;;
  ov ← the_pool overflow_slabs;
  forM_ ov (λ kv, close_slab kv.2) ;;
  on_pool (set_slabs []) ;;
  on_pool (set_overflow []) ;;
  base ← the_pool placement_base;
  match base with
  | Some base => on_dev (dev_free base) ;; on_pool (set_placement None None)
  | None => mret tt
  end.
End Pool.
Arguments Pool : clear implicits.
Arguments PS : clear implicits.
