(* ===== verification/PoolInv.v ===== *)
(** * Memory safety of the buffer pool

    Every buffer the pool has made and not given back to a slab, [bufs], has a
    home: a backend allocation of its own, a carved range of a slab, or the
    range of a static placement.  [Arena] says so, and that no two of these
    buffers overlap in memory.  The buffers are those the clients hold and
    those on the free lists. *)
From S2P Require Import Prelude SimSchema Slab Placement Device Pool.
From stdpp Require Import base tactics option list gmap strings pretty sorting.
From Stdlib Require Import ZArith Lia.
Open Scope Z_scope.

#[export] Instance SlabRef_eq_dec : EqDecision SlabRef.
Proof. solve_decision. Defined.

Definition ref_location (r : SlabRef) : Location := match r with MainSlab l | OverflowSlab l => l end.

(** Two buffers do not overlap. *)
Definition apart_b (a b : Buffer) : Prop :=
  b_ptr a + b_size_bytes a ≤ b_ptr b ∨ b_ptr b + b_size_bytes b ≤ b_ptr a.

#[export] Instance apart_b_sym : Symmetric apart_b.
Proof. unfold apart_b. intros a b. lia. Qed.

(** [b] is the range at [off] of [base]. *)
Definition inside (base : Buffer) (off : Z) (b : Buffer) : Prop :=
  b_ptr b = b_ptr base + off ∧ 0 ≤ off ∧ off + b_size_bytes b ≤ b_size_bytes base.

Definition carved (r : SlabRef) (b : Buffer) : option (Z * Z) :=
  match b_raw b with
  | RawSlab off r' => if decide (r = r') then Some (off, b_size_bytes b) else None
  | _ => None
  end.

Definition placed_key (b : Buffer) : option InstanceKey :=
  match b_raw b with RawPlaced => b_tag b | _ => None end.

(** The offsets of a placement lie in its extent. *)
Definition WellPlaced (pl : Placement) : Prop :=
  0 ≤ pl_extent_bytes pl ∧
  ∀ k off n, pl_offsets pl !! k = Some off → pl_sizes pl !! k = Some n → 0 ≤ off ∧ off + n ≤ pl_extent_bytes pl.

(** The allocations the pool divides. *)
Inductive Root := RSlab (r : SlabRef) | RPlacement.

#[export] Instance Root_eq_dec : EqDecision Root.
Proof. solve_decision. Defined.

Section PoolInv.
Context {T Tok : Type} `{Num T}.
(** The buffers of the pool's clients, which the pool does not own. *)
Context (F : list nat).
Implicit Types (d : Fake T Tok) (p : Pool T Tok) (b : Buffer) (bufs held : list Buffer).

Definition base_of (r : Root) p : option Buffer :=
  match r with RSlab r => slab_at r p ≫= sa_base | RPlacement => placement_base p end.

Definition within_dev d b : Prop := 0 < b_ptr b ∧ b_ptr b + b_size_bytes b ≤ next_ptr d.

Definition homed d p b : Prop :=
  match b_raw b with
  | RawNone => within_dev d b ∧ ∀ r base, base_of r p = Some base → apart_b base b
  | RawSlab off r => ∃ base, base_of (RSlab r) p = Some base ∧ inside base off b
  | RawPlaced => ∃ k o base, b_tag b = Some k ∧ live_ranges p !! k = Some (o, o + b_size_bytes b) ∧
                  base_of RPlacement p = Some base ∧ inside base o b
  | RawExternal _ => False
  end.

Definition slab_ok bufs (r : SlabRef) (sa : SlabAllocator) : Prop :=
  SlabRefines (sa_slab sa) (omap (carved r) bufs) ∧ sa_location sa = ref_location r ∧
  ∃ base, sa_base sa = Some base ∧ b_size_bytes base = capacity_bytes (sa_slab sa).

Record Arena d p bufs : Prop := {
  ar_pos : Forall (λ b, 0 < b_size_bytes b) bufs;
  ar_apart : StronglySorted apart_b bufs;
  ar_homed : Forall (homed d p) bufs;
  ar_bases : ∀ r1 r2 b1 b2, r1 ≠ r2 → base_of r1 p = Some b1 → base_of r2 p = Some b2 → apart_b b1 b2;
  ar_based : ∀ r b, base_of r p = Some b → within_dev d b;
  ar_slabs : ∀ r sa, slab_at r p = Some sa → slab_ok bufs r sa;
  ar_keys : NoDup (omap placed_key bufs);
  ar_ranges : ∀ k lo hi, live_ranges p !! k = Some (lo, hi) →
    lo < hi ∧ ∃ pl, placement p = Some pl ∧ pl_offsets pl !! k = Some lo;
  ar_placement : ∀ pl, placement p = Some pl →
    WellPlaced pl ∧ ∃ base, placement_base p = Some base ∧ b_size_bytes base = pl_extent_bytes pl;
  ar_refs : Forall (λ b, b_ref b ∉ F) bufs;
  ar_clients : Forall (λ r, (r < next_ref d)%nat) F;
  ar_next : 0 < next_ptr d;
  ar_ext : external_alloc p = [];
}.

(** ** Structural rules *)
#[export] Instance Arena_perm d p : Proper (Permutation ==> impl) (Arena d p).
Proof.
  intros l1 l2 Hp [H1 H2 H3 H4 H5 H6 H7 H8 H9 H10 H11 H12 H13]. split; try done.
  - by rewrite <-Hp.
  - by apply (StronglySorted_perm _ l1).
  - by rewrite <-Hp.
  - intros r sa Hsa. destruct (H6 r sa Hsa) as (Hr & Hl & Hb). split; [|done]. by rewrite <-Hp.
  - by rewrite <-Hp.
  - by rewrite <-Hp.
Qed.

(** The backend state a pool operation leaves: it made allocations. *)
Record dev_frame d d' : Prop := {
  df_pending : pending d' = pending d;
  df_host : host_us d' = host_us d;
  df_clocks : clocks d' = clocks d;
  df_scale : time_scale d' = time_scale d;
  df_physical : physical d' = physical d;
  df_ptr : next_ptr d ≤ next_ptr d';
  df_ref : (next_ref d ≤ next_ref d')%nat;
}.

#[export] Instance dev_frame_preorder : PreOrder dev_frame.
Proof.
  split; [by intros d; split|]. intros d1 d2 d3 [] []. split; try congruence; lia.
Qed.

(** All that the arena relies on: what was allocated stays allocated. *)
Definition dev_mono d d' : Prop := next_ptr d ≤ next_ptr d' ∧ (next_ref d ≤ next_ref d')%nat.

Lemma dev_frame_mono d d' : dev_frame d d' → dev_mono d d'.
Proof. by intros []. Qed.

Lemma within_mono d d' b : dev_mono d d' → within_dev d b → within_dev d' b.
Proof. intros [] []. split; lia. Qed.

Lemma Arena_mono d d' p bufs : dev_mono d d' → Arena d p bufs → Arena d' p bufs.
Proof.
  intros Hd [H1 H2 H3 H4 H5 H6 H7 H8 H9 H10 H11 H12 H13]. split; try done.
  - eapply Forall_impl; [exact H3|]. intros b Hb. unfold homed in *. destruct (b_raw b); try done.
    destruct Hb as [Hb ?]. split; [by eapply within_mono|done].
  - intros r b Hr. eapply within_mono; [done|by eapply H5].
  - eapply Forall_impl; [exact H11|]. intros r Hr. destruct Hd; simpl in *; lia.
  - destruct Hd; lia.
Qed.

Lemma Arena_frame d d' p bufs : dev_frame d d' → Arena d p bufs → Arena d' p bufs.
Proof. intros Hd%dev_frame_mono. by apply Arena_mono. Qed.

(** The fields of a pool the arena depends on. *)
Record pool_frame p p' : Prop := {
  pf_slabs : slabs p' = slabs p;
  pf_overflow : overflow_slabs p' = overflow_slabs p;
  pf_placement : placement p' = placement p;
  pf_base : placement_base p' = placement_base p;
  pf_ranges : live_ranges p' = live_ranges p;
  pf_ext : external_alloc p' = external_alloc p;
}.

#[export] Instance pool_frame_preorder : PreOrder pool_frame.
Proof. split; [by intros d; split|]. intros p1 p2 p3 [] []. split; congruence. Qed.

Lemma Arena_pool_frame d p p' bufs : pool_frame p p' → Arena d p bufs → Arena d p' bufs.
Proof.
  intros [E1 E2 E3 E4 E5 E6] [H1 H2 H3 H4 H5 H6 H7 H8 H9 H10 H11 H12 H13].
  assert (∀ r, slab_at r p' = slab_at r p) as Hs by (intros []; simpl; congruence).
  assert (∀ r, base_of r p' = base_of r p) as Hb by (intros []; simpl; rewrite ?Hs; congruence).
  split; try done; try congruence.
  - eapply Forall_impl; [exact H3|]. intros b. unfold homed. rewrite E5, !Hb.
    destruct (b_raw b); rewrite ?Hb; try done. by setoid_rewrite Hb.
  - setoid_rewrite Hb. done.
  - setoid_rewrite Hb. done.
  - setoid_rewrite Hs. done.
  - rewrite E5, E3. done.
  - rewrite E3, E4. done.
Qed.

Lemma Arena_drop d p b bufs : (∀ r, carved r b = None) → Arena d p (b :: bufs) → Arena d p bufs.
Proof.
  intros Hc [H1 H2 H3 H4 H5 H6 H7 H8 H9 H10 H11 H12 H13].
  apply Forall_cons in H1 as [_ H1], H3 as [_ H3], H10 as [_ H10].
  inversion H2; subst. split; try done.
  - intros r sa Hsa. specialize (H6 r sa Hsa). unfold slab_ok in *. cbn [omap list_omap] in H6. by rewrite Hc in H6.
  - cbn [omap list_omap] in H7. destruct (placed_key b); [by apply NoDup_cons in H7 as [_ ?]|done].
Qed.

Lemma homed_within d p b : (∀ r base, base_of r p = Some base → within_dev d base) →
  homed d p b → within_dev d b.
Proof.
  intros Hb. unfold homed. destruct (b_raw b) as [|off r| |]; [by intros [??]| |done|].
  - intros (base & Hbase & Hi). destruct (Hb _ _ Hbase), Hi as (?&?&?). split; lia.
  - intros (k & o & base & _ & _ & Hbase & Hi). destruct (Hb _ _ Hbase), Hi as (?&?&?). split; lia.
Qed.

(** ** Backend allocations *)
Definition allocated d (l : Location) (n : Z) b d' : Prop :=
  b_raw b = RawNone ∧ b_ptr b = next_ptr d ∧ b_size_bytes b = n ∧ b_location b = l ∧
  b_ref b = next_ref d ∧ dev_frame d d' ∧ next_ptr d' = next_ptr d + Z.max n 1 ∧ next_ref d' = S (next_ref d).

Lemma wp_alloc l n d : wp (alloc l n) d (allocated d l n) (λ _ d', dev_frame d d').
Proof.
  unfold alloc, add_alloc, new_ref, wp, mbind, M_bind. simpl. unfold allocated.
  destruct (alloc_bytes d !! l); simpl; [split_and!; try done|]; split; simpl; done || lia.
Qed.

(** A fresh allocation is apart from everything there is. *)
Lemma allocated_apart d l n b d' b' : allocated d l n b d' → within_dev d b' → apart_b b' b.
Proof. intros (_ & Hp & _) []. unfold apart_b. lia. Qed.

Lemma allocated_within d l n b d' : 0 < next_ptr d → allocated d l n b d' → within_dev d' b.
Proof. intros Hn (_ & Hp & Hs & _ & _ & _ & Hd & _). split; lia. Qed.

Lemma bufs_within d p bufs b : Arena d p bufs → b ∈ bufs → within_dev d b.
Proof.
  intros Ha Hb. pose proof (ar_homed _ _ _ Ha) as Hh. rewrite Forall_forall in Hh.
  eapply homed_within; [apply (ar_based _ _ _ Ha)|by apply Hh].
Qed.

Lemma Arena_alloc d p bufs l n b d' :
  Arena d p bufs → 0 < n → allocated d l n b d' → Arena d' p (b :: bufs).
Proof.
  intros Ha Hn Hal. pose proof Hal as (Hraw & Hp & Hs & Hl & Href & Hd & _ & Hnr).
  pose proof (Arena_frame _ _ _ _ Hd Ha) as [H1 H2 H3 H4 H5 H6 H7 H8 H9 H10 H11 H12 H13]. split; try done.
  - apply Forall_cons. split; [lia|done].
  - constructor; [done|]. apply Forall_forall. intros b' Hb'. symmetry.
    eapply allocated_apart; [done|]. by eapply bufs_within.
  - apply Forall_cons. split; [|done]. unfold homed. rewrite Hraw. split.
    + eapply allocated_within; [apply (ar_next _ _ _ Ha)|done].
    + intros r base Hb. eapply allocated_apart; [done|]. by eapply (ar_based _ _ _ Ha).
  - intros r sa Hsa. unfold slab_ok. cbn [omap list_omap]. unfold carved at 1. rewrite Hraw. by apply H6.
  - cbn [omap list_omap]. unfold placed_key at 1. by rewrite Hraw.
  - apply Forall_cons. split; [|done]. intros Hin. pose proof (ar_clients _ _ _ Ha) as Hc.
    rewrite Forall_forall in Hc. specialize (Hc _ Hin). simpl in Hc. lia.
Qed.

(** ** Slabs *)
Lemma slab_at_set r s p sa :
  slab_at r p = Some sa →
  (∀ r', slab_at r' (set_slab_at r s p) =
    if decide (r' = r) then Some (mkSlabAllocator (sa_location sa) s (sa_base sa)) else slab_at r' p) ∧
  (∀ root, base_of root (set_slab_at r s p) = base_of root p).
Proof.
  intros Hsa.
  assert (∀ r', slab_at r' (set_slab_at r s p) =
    if decide (r' = r) then Some (mkSlabAllocator (sa_location sa) s (sa_base sa)) else slab_at r' p) as Hat.
  { intros r'. unfold set_slab_at. rewrite Hsa. destruct (decide (r' = r)) as [->|Hne].
    - destruct r; apply assoc_get_set.
    - destruct r as [l|l], r' as [l'|l']; simpl; try done; apply assoc_get_set_ne; congruence. }
  split; [done|]. intros [r'|]; simpl.
  - rewrite Hat. destruct (decide (r' = r)) as [->|]; [|done]. by rewrite Hsa.
  - unfold set_slab_at. rewrite Hsa. by destruct r.
Qed.

Lemma set_slab_at_rest r s p :
  let p' := set_slab_at r s p in
  placement p' = placement p ∧ placement_base p' = placement_base p ∧ live_ranges p' = live_ranges p ∧
  external_alloc p' = external_alloc p ∧ free_lists p' = free_lists p ∧ recorder p' = recorder p.
Proof. unfold set_slab_at. destruct (slab_at r p); [by destruct r|done]. Qed.

(** Replacing the holes of one slab, with its buffers. *)
Lemma Arena_set_slab d p bufs bufs' r s sa :
  slab_at r p = Some sa → Arena d p bufs →
  capacity_bytes s = capacity_bytes (sa_slab sa) → SlabRefines s (omap (carved r) bufs') →
  (∀ r', r' ≠ r → omap (carved r') bufs' = omap (carved r') bufs) →
  omap placed_key bufs' = omap placed_key bufs →
  Forall (λ b, 0 < b_size_bytes b) bufs' → StronglySorted apart_b bufs' →
  Forall (homed d p) bufs' → Forall (λ b, b_ref b ∉ F) bufs' →
  Arena d (set_slab_at r s p) bufs'.
Proof.
  intros Hsa Ha Hcap Hs Hother Hkeys Hpos Hap Hhome Hrefs.
  destruct (slab_at_set r s p sa Hsa) as [Hat Hbase].
  destruct (set_slab_at_rest r s p) as (E1 & E2 & E3 & E4 & _).
  destruct Ha as [H1 H2 H3 H4 H5 H6 H7 H8 H9 H10 H11 H12 H13].
  split; try done; rewrite ?E1, ?E2, ?E3, ?E4, ?Hkeys; try done.
  - eapply Forall_impl; [exact Hhome|]. intros b. unfold homed. rewrite E3.
    destruct (b_raw b); rewrite ?Hbase; try done. by setoid_rewrite Hbase.
  - by setoid_rewrite Hbase.
  - by setoid_rewrite Hbase.
  - intros r' sa'. rewrite Hat. destruct (decide (r' = r)) as [->|Hne].
    + intros [= <-]. destruct (H6 r sa Hsa) as (_ & Hl & base & Hb & Hsz). split_and!; [done..|].
      exists base. simpl. split; [done|congruence].
    + intros Hsa'. unfold slab_ok. rewrite Hother by done. by apply H6.
Qed.

Lemma allocate_capacity n s off s' : SlabInv s → 0 < n → allocate n s = (Some off, s') →
  capacity_bytes s' = capacity_bytes s ∧ 0 ≤ off ∧ off + n ≤ capacity_bytes s.
Proof.
  intros Hi Hn Ha. destruct (allocate_ok n s off s' Hi Hn Ha) as (_ & Hc & H0 & H1 & _).
  destruct (align_size n Hn) as (_ & _ & ?). lia.
Qed.

(** Two ranges of one slab held at once are apart. *)
Lemma ranges_apart s o1 n1 o2 n2 live :
  SlabRefines s ((o1, n1) :: live) → (o2, n2) ∈ live → o1 + n1 ≤ o2 ∨ o2 + n2 ≤ o1.
Proof.
  intros [_ Hl Hd _] Hin. inversion Hd as [|? ? _ Hall]; subst. rewrite Forall_forall in Hall.
  specialize (Hall _ Hin). unfold disjoint_ranges, in_range in Hall. simpl in Hall.
  apply Forall_cons in Hl as [[Hn1 _] Hl]. rewrite Forall_forall in Hl. destruct (Hl _ Hin) as [Hn2 _].
  simpl in *. destruct (align_size n1 Hn1) as (_ & _ & ?). destruct (align_size n2 Hn2) as (_ & _ & ?).
  destruct (decide (o1 + n1 ≤ o2)); [by left|]. destruct (decide (o2 + n2 ≤ o1)); [by right|].
  destruct (Hall (Z.max o1 o2)); lia.
Qed.

(** A buffer inside a root is apart from the buffers of the other homes. *)
Lemma root_apart d p bufs root base off b b' :
  Arena d p bufs → base_of root p = Some base → inside base off b → b' ∈ bufs →
  match root, b_raw b' with
  | RSlab r, RawSlab _ r' => r ≠ r'
  | RPlacement, RawPlaced => False
  | _, _ => True
  end → apart_b b b'.
Proof.
  intros Ha Hbase (Hp & Ho & Hs) Hin Hdiff. pose proof (ar_homed _ _ _ Ha) as Hh.
  rewrite Forall_forall in Hh. specialize (Hh b' Hin). unfold homed in Hh. unfold apart_b.
  destruct (b_raw b') as [|off' r'| |] eqn:Hraw.
  - destruct Hh as [_ Hh]. destruct (Hh _ _ Hbase); unfold apart_b in *; lia.
  - destruct Hh as (base' & Hb' & (?&?&?)). destruct (ar_bases _ _ _ Ha root (RSlab r') base base'); try done; [|lia..].
    destruct root; [congruence|done].
  - done.
  - destruct Hh as (k & o & base' & _ & _ & Hb' & (?&?&?)). destruct root; [|done].
    destruct (ar_bases _ _ _ Ha (RSlab r) RPlacement base base'); try done; lia.
Qed.

Lemma carved_in bufs b r off : b ∈ bufs → b_raw b = RawSlab off r → (off, b_size_bytes b) ∈ omap (carved r) bufs.
Proof.
  intros Hb Hraw. apply list_elem_of_omap. exists b. split; [done|]. unfold carved. rewrite Hraw.
  by rewrite decide_True.
Qed.

(** The buffer made of a freshly allocated range. *)
Lemma Arena_carve d p bufs r sa base n off s' b :
  Arena d p bufs → slab_at r p = Some sa → sa_base sa = Some base → 0 < n →
  allocate n (sa_slab sa) = (Some off, s') →
  b_raw b = RawSlab off r → b_ptr b = b_ptr base + off → b_size_bytes b = n → b_ref b ∉ F →
  Arena d (set_slab_at r s' p) (b :: bufs).
Proof.
  intros Ha Hsa Hbase Hn Hal Hraw Hptr Hsize HF.
  destruct (ar_slabs _ _ _ Ha r sa Hsa) as (Href & Hloc & base' & Hbase' & Hcap).
  rewrite Hbase in Hbase'. injection Hbase' as <-. subst n.
  destruct (allocate_capacity _ _ _ _ (sr_inv _ _ Href) Hn Hal) as (Hc & H0 & H1).
  pose proof (allocate_step _ _ _ _ _ Href Hn Hal) as Hstep.
  assert (inside base off b) as Hin by (split_and!; lia).
  assert (base_of (RSlab r) p = Some base) as Hb by (simpl; by rewrite Hsa).
  assert (omap (carved r) (b :: bufs) = (off, b_size_bytes b) :: omap (carved r) bufs) as Hom.
  { cbn [omap list_omap]. unfold carved at 1. rewrite Hraw. by rewrite decide_True. }
  apply (Arena_set_slab d p bufs _ r s' sa); try done.
  - by rewrite Hom.
  - intros r' Hne. cbn [omap list_omap]. unfold carved at 1. rewrite Hraw. by rewrite decide_False by congruence.
  - cbn [omap list_omap]. unfold placed_key at 1. by rewrite Hraw.
  - apply Forall_cons. split; [done|apply Ha].
  - constructor; [apply Ha|]. apply Forall_forall. intros b' Hb'.
    destruct (b_raw b') as [|off' r'| |] eqn:Hraw'; [eapply (root_apart d p bufs (RSlab r)); eauto; by rewrite Hraw'| | |].
    + destruct (decide (r = r')) as [<-|Hne]; [|eapply (root_apart d p bufs (RSlab r)); eauto; by rewrite Hraw'].
      pose proof (ar_homed _ _ _ Ha) as Hh. rewrite Forall_forall in Hh. specialize (Hh b' Hb').
      unfold homed in Hh. rewrite Hraw' in Hh. destruct Hh as (base2 & Hb2 & (?&?&?)). simplify_eq.
      destruct (ranges_apart _ _ _ _ _ _ Hstep (carved_in _ _ _ _ Hb' Hraw')); unfold apart_b; lia.
    + eapply (root_apart d p bufs (RSlab r)); eauto; by rewrite Hraw'.
    + eapply (root_apart d p bufs (RSlab r)); eauto; by rewrite Hraw'.
  - apply Forall_cons. split; [|apply Ha]. unfold homed. rewrite Hraw. by exists base.
  - apply Forall_cons. split; [done|apply Ha].
Qed.

(** A range given back. *)
Lemma Arena_slab_free d p bufs r sa off b :
  Arena d p (b :: bufs) → slab_at r p = Some sa → b_raw b = RawSlab off r →
  Arena d (set_slab_at r (free off (b_size_bytes b) (sa_slab sa)) p) bufs.
Proof.
  intros Ha Hsa Hraw. destruct (ar_slabs _ _ _ Ha r sa Hsa) as (Href & _ & _).
  cbn [omap list_omap] in Href. unfold carved in Href at 1. rewrite Hraw, decide_True in Href by done.
  pose proof Href as [Hinv Hlive _ _]. apply Forall_cons in Hlive as [[_ Hfr] _].
  destruct (free_ok _ _ _ Hinv Hfr) as (_ & Hcap & _).
  apply (Arena_set_slab d p (b :: bufs) bufs r _ sa); try done.
  - by apply free_step.
  - intros r' Hne. cbn [omap list_omap]. unfold carved at 2. rewrite Hraw. by rewrite decide_False by congruence.
  - cbn [omap list_omap]. unfold placed_key at 2. by rewrite Hraw.
  - pose proof (ar_pos _ _ _ Ha) as Hf. by apply Forall_cons in Hf as [_ ?].
  - pose proof (ar_apart _ _ _ Ha) as Hs. by inversion Hs.
  - pose proof (ar_homed _ _ _ Ha) as Hf. by apply Forall_cons in Hf as [_ ?].
  - pose proof (ar_refs _ _ _ Ha) as Hf. by apply Forall_cons in Hf as [_ ?].
Qed.

(** ** Assigned ranges *)
Lemma range_free offset n p k lo hi :
  range_busy offset n p = false → live_ranges p !! k = Some (lo, hi) → offset + n ≤ lo ∨ hi ≤ offset.
Proof.
  unfold range_busy. intros Hb Hk. rewrite <-not_true_iff_false, existsb_exists in Hb.
  destruct (decide (offset + n ≤ lo)); [by left|]. destruct (decide (hi ≤ offset)); [by right|].
  exfalso. apply Hb. exists (k, (lo, hi)). split; [by apply list_elem_of_In, elem_of_map_to_list|]. simpl. lia.
Qed.

Lemma placed_in bufs b k : b ∈ bufs → b_raw b = RawPlaced → b_tag b = Some k → k ∈ omap placed_key bufs.
Proof.
  intros Hb Hraw Htag. apply list_elem_of_omap. exists b. split; [done|]. unfold placed_key. by rewrite Hraw.
Qed.

Lemma placed_out d p bufs k : Arena d p bufs → k ∈ omap placed_key bufs → is_Some (live_ranges p !! k).
Proof.
  intros Ha (b & Hb & Hk)%list_elem_of_omap. pose proof (ar_homed _ _ _ Ha) as Hh. rewrite Forall_forall in Hh.
  specialize (Hh b Hb). unfold homed, placed_key in *. destruct (b_raw b); try done.
  destruct Hh as (k' & o & base & Ht & Hl & _). simplify_eq. by eexists.
Qed.

Lemma Arena_placed d p bufs key pl offset n base b :
  Arena d p bufs → placement p = Some pl → pl_offsets pl !! key = Some offset → pl_sizes pl !! key = Some n →
  0 < n → range_busy offset n p = false → placement_base p = Some base →
  b_raw b = RawPlaced → b_tag b = Some key → b_ptr b = b_ptr base + offset → b_size_bytes b = n → b_ref b ∉ F →
  Arena d (set_live_ranges (<[key := (offset, offset + n)]> (live_ranges p)) p) (b :: bufs).
Proof.
  intros Ha Hpl Hoff Hsz Hn Hbusy Hbase Hraw Htag Hptr Hsize HF. subst n.
  destruct (ar_placement _ _ _ Ha pl Hpl) as ([_ Hwell] & base' & Hbase' & Hext). rewrite Hbase in Hbase'.
  injection Hbase' as <-. destruct (Hwell _ _ _ Hoff Hsz) as [Ho1 Ho2].
  assert (live_ranges p !! key = None) as Hnew.
  { destruct (live_ranges p !! key) as [[lo hi]|] eqn:Hk; [|done].
    destruct (ar_ranges _ _ _ Ha _ _ _ Hk) as (Hlt & pl' & Hpl' & Hoff'). simplify_eq.
    destruct (range_free _ _ _ _ _ _ Hbusy Hk); lia. }
  assert (inside base offset b) as Hin by (split_and!; lia).
  assert (∀ r, carved r b = None) as Hnc by (intros r; unfold carved; by rewrite Hraw).
  pose proof Ha as [H1 H2 H3 H4 H5 H6 H7 H8 H9 H10 H11 H12 H13]. split; try done; simpl.
  - by apply Forall_cons.
  - constructor; [done|]. apply Forall_forall. intros b' Hb'.
    destruct (b_raw b') eqn:Hraw'; [eapply (root_apart d p bufs RPlacement); eauto; by rewrite Hraw'..|].
    rewrite Forall_forall in H3. specialize (H3 b' Hb'). unfold homed in H3. rewrite Hraw' in H3.
    destruct H3 as (k & o & base2 & _ & Hl & Hb2 & (?&?&?)). simpl in Hb2. simplify_eq.
    destruct (range_free _ _ _ _ _ _ Hbusy Hl); unfold apart_b; lia.
  - apply Forall_cons. split.
    + unfold homed. rewrite Hraw. exists key, offset, base. simpl. rewrite lookup_insert_eq. done.
    + rewrite Forall_forall in H3 |- *. intros b' Hb'. specialize (H3 b' Hb'). unfold homed in *.
      destruct (b_raw b') eqn:Hraw'; try done. destruct H3 as (k & o & base2 & Ht & Hl & Hrest).
      exists k, o, base2. split_and!; [done| |apply Hrest..]. simpl. rewrite lookup_insert_ne by congruence. done.
  - intros r sa Hsa. unfold slab_ok. cbn [omap list_omap]. rewrite Hnc. by apply H6.
  - cbn [omap list_omap]. unfold placed_key at 1. rewrite Hraw, Htag. apply NoDup_cons. split; [|done].
    intros Hk. destruct (placed_out _ _ _ _ Ha Hk). congruence.
  - intros k lo hi. destruct (decide (k = key)) as [->|Hne].
    + rewrite lookup_insert_eq. intros [= <- <-]. split; [lia|]. by exists pl.
    + rewrite lookup_insert_ne by done. apply H8.
  - by apply Forall_cons.
Qed.

Lemma Arena_unplace d p bufs key b :
  Arena d p (b :: bufs) → b_raw b = RawPlaced → b_tag b = Some key →
  Arena d (set_live_ranges (delete key (live_ranges p)) p) bufs.
Proof.
  intros Ha Hraw Htag. pose proof (ar_keys _ _ _ Ha) as Hk. cbn [omap list_omap] in Hk.
  unfold placed_key in Hk at 1. rewrite Hraw, Htag in Hk. apply NoDup_cons in Hk as [Hk _].
  assert (∀ r, carved r b = None) as Hnc by (intros r; unfold carved; by rewrite Hraw).
  apply Arena_drop in Ha as [H1 H2 H3 H4 H5 H6 H7 H8 H9 H10 H11 H12 H13]; [|done]. split; try done; simpl.
  - rewrite Forall_forall in H3 |- *. intros b' Hb'. specialize (H3 b' Hb'). unfold homed in *.
    destruct (b_raw b') eqn:Hraw'; try done. destruct H3 as (k & o & base2 & Ht & Hl & Hrest).
    exists k, o, base2. split_and!; [done| |apply Hrest..]. simpl. rewrite lookup_delete_ne; [done|].
    intros ->. by apply Hk, (placed_in bufs b').
  - intros k lo hi [_ Hl]%lookup_delete_Some. by apply H8.
Qed.

(** ** The pool and its clients *)
Definition free_bufs p : list Buffer := mjoin (free_lists p).*2.

(** [held]: the buffers handed out. *)
Record PoolInv d p held : Prop := {
  pi_arena : Arena d p (held ++ free_bufs p);
  pi_keyed : ∀ key stack b, (key, stack) ∈ free_lists p → b ∈ stack →
    key = (b_location b, b_size_bytes b) ∧ b_raw b ≠ RawPlaced;
  pi_nodup : NoDup (free_lists p).*1;
}.

#[export] Instance PoolInv_perm d p : Proper (Permutation ==> impl) (PoolInv d p).
Proof. intros l1 l2 Hp [H1 H2 H3]. split; [|done..]. by rewrite <-Hp. Qed.

Lemma PoolInv_same d p d' p' held held' :
  PoolInv d p held → free_lists p' = free_lists p → Arena d' p' (held' ++ free_bufs p) → PoolInv d' p' held'.
Proof. intros [_ H2 H3] Hf Ha. split; unfold free_bufs in *; rewrite Hf; done. Qed.

(** The buffers handed out do not overlap. *)
Lemma PoolInv_apart d p held : PoolInv d p held → StronglySorted apart_b held.
Proof. intros [Ha _ _]. pose proof (ar_apart _ _ _ Ha) as Hs. by apply StronglySorted_app_iff in Hs as [? _]. Qed.
End PoolInv.
