(* ===== verification/PoolSafe.v ===== *)
(** * The operations of the buffer pool keep its invariant

    What each operation of [Pool.v] does to [PoolInv], and the theorem that no
    sequence of operations hands out overlapping buffers. *)
From S2P Require Import Prelude SimSchema Slab Placement Device Pool PoolInv.
From stdpp Require Import base tactics option list gmap strings pretty sorting.
From Stdlib Require Import ZArith Lia.
Open Scope Z_scope.

Section PoolSafe.
Context {T Tok : Type} `{Num T} (F : list nat).
Implicit Types (d : Fake T Tok) (p : Pool T Tok) (b : Buffer) (bufs held : list Buffer).

Abbreviation ArenaF := (Arena F).
Abbreviation PInv := (PoolInv F).

Lemma okw_on_dev {A} (m : M (Fake T Tok) DeviceError A) d p (Q : A → PS T Tok → Prop) :
  okw m d (λ a d', Q a (d', p)) → okw (on_dev m) (d, p) Q.
Proof. unfold wp, on_dev. simpl. by destruct (m d) as [[a|e] d']. Qed.

Lemma okw_on_pool f d p (Q : unit → PS T Tok → Prop) : Q tt (d, f p) → okw (on_pool f) (d, p) Q.
Proof. done. Qed.

Lemma okw_on_pool_bind {A} f (k : unit → M (PS T Tok) PoolError A) d p (Q : A → PS T Tok → Prop) :
  okw (k tt) (d, f p) Q → okw (on_pool f ≫= k) (d, p) Q.
Proof. done. Qed.

(** A buffer was handed out. *)
Definition got d held (l : Location) (n : Z) b (s : PS T Tok) : Prop :=
  PInv s.1 s.2 (b :: held) ∧ b_size_bytes b = n ∧ b_location b = l ∧ dev_frame d s.1.

(** A buffer that is not at an assigned offset was handed out. *)
Definition got_dyn d held (l : Location) (n : Z) b (s : PS T Tok) : Prop :=
  got d held l n b s ∧ b_raw b ≠ RawPlaced.

Lemma okw_alloc_raw d p l n :
  okw (on_dev (alloc l n)) (d, p) (λ b s, allocated d l n b s.1 ∧ s.2 = p).
Proof. apply okw_on_dev. eapply wp_mono; [apply wp_alloc|done|done]. Qed.

Lemma okw_alloc d p held l n :
  PInv d p held → 0 < n → okw (on_dev (alloc l n)) (d, p) (got_dyn d held l n).
Proof.
  intros Hi Hn. apply okw_on_dev. eapply wp_mono; [apply wp_alloc| |done].
  intros b d' Hal. pose proof Hal as (Hraw & _ & Hs & Hl & _ & Hd & _).
  split; [split_and!; [|done..]|by rewrite Hraw].
  eapply PoolInv_same; [done..|]. eapply Arena_alloc; [apply Hi|done..].
Qed.

(** ** Slabs *)
Lemma Arena_same_slab d p bufs r sa :
  ArenaF d p bufs → slab_at r p = Some sa → ArenaF d (set_slab_at r (sa_slab sa) p) bufs.
Proof.
  intros Ha Hsa. destruct (ar_slabs _ _ _ _ Ha r sa Hsa) as (Hr & _).
  by apply (Arena_set_slab F d p bufs bufs r (sa_slab sa) sa); try apply Ha.
Qed.

Lemma slab_at_frame p p' r : pool_frame p p' → slab_at r p' = slab_at r p.
Proof. intros [E1 E2 _ _ _ _]. destruct r; simpl; congruence. Qed.

(** The outcome of an attempt to carve from the slab [r]. *)
Definition carve_attempt d p bufs (r : SlabRef) (n : Z) (off : option Z) (s : PS T Tok) : Prop :=
  s.1 = d ∧ free_lists s.2 = free_lists p ∧ (∀ r', is_Some (slab_at r' p) → is_Some (slab_at r' s.2)) ∧
  match off with
  | None => ArenaF d s.2 bufs
  | Some off => ∃ sa s1, slab_at r p = Some sa ∧ allocate n (sa_slab sa) = (Some off, s1) ∧ s.2 = set_slab_at r s1 p
  end.

Lemma okw_slab_allocate d p bufs r n :
  ArenaF d p bufs → 0 < n → okw (slab_allocate r n) (d, p) (carve_attempt d p bufs r n).
Proof.
  intros Ha Hn. unfold slab_allocate, wp, mbind, M_bind. simpl.
  destruct (slab_at r p) as [sa|] eqn:Hsa; simpl; [|done].
  destruct (allocate n (sa_slab sa)) as [off s1] eqn:Hal. simpl.
  assert (∀ r', is_Some (slab_at r' p) → is_Some (slab_at r' (set_slab_at r s1 p))) as Hsome.
  { intros r' Hr'. destruct (slab_at_set r s1 p sa Hsa) as [-> _]. by destruct (decide (r' = r)). }
  destruct (set_slab_at_rest r s1 p) as (_ & _ & _ & _ & Hf & _). split_and!; try done. simpl.
  destruct off as [off|]; [by eauto|].
  assert (s1 = sa_slab sa) as -> by (unfold allocate in Hal; repeat case_match; congruence).
  by apply Arena_same_slab.
Qed.

(** The buffer made of a successful attempt. *)
Lemma okw_make_buffer d p p' held r n sa off s1 seq :
  PInv d p held → 0 < n → slab_at r p = Some sa → allocate n (sa_slab sa) = (Some off, s1) →
  pool_frame (set_slab_at r s1 p) p' → free_lists p' = free_lists p →
  okw (make_buffer r off n seq) (d, p') (got_dyn d held (ref_location r) n).
Proof.
  intros Hi Hn Hsa Hal Hf Hfree. destruct Hi as [Ha H2 H3].
  destruct (ar_slabs _ _ _ _ Ha r sa Hsa) as (Hr & Hloc & base & Hbase & _).
  destruct (slab_at_set r s1 p sa Hsa) as [Hat _]. specialize (Hat r). rewrite decide_True in Hat by done.
  unfold make_buffer, wp, mbind, M_bind. simpl. rewrite (slab_at_frame _ _ r Hf), Hat. simpl. rewrite Hbase. simpl.
  set (b := mkBuffer _ _ _ _ _ _ _).
  assert (next_ref d ∉ F) as HF.
  { intros Hin. pose proof (ar_clients _ _ _ _ Ha) as Hc. rewrite Forall_forall in Hc. specialize (Hc _ Hin). simpl in Hc. lia. }
  pose proof (Arena_carve F d p _ r sa base n off s1 b Ha Hsa Hbase Hn Hal eq_refl eq_refl eq_refl HF) as Ha'.
  assert (dev_frame d (bump_ref d)) as Hd by (split; simpl; done || lia).
  split; [split_and!; [|done|done|done]|done]. eapply (PoolInv_same F d p); [by split|done|].
  eapply Arena_pool_frame; [exact Hf|]. eapply Arena_frame; [exact Hd|done].
Qed.

Lemma okw_carve_overflow d p held l n :
  PInv d p held → 0 < n → okw (carve_overflow l n) (d, p) (got_dyn d held l n).
Proof.
  intros Hi Hn. unfold carve_overflow.
  assert (∀ p', free_lists p' = free_lists p → ArenaF d p' (held ++ free_bufs p) →
    okw (on_pool count_overflow ;; on_dev (alloc l n)) (d, p') (got_dyn d held l n)) as Hvendor.
  { intros p' Hf Ha'. apply okw_on_pool_bind.
    apply okw_alloc; [|done]. eapply (PoolInv_same F d p); [done|done|]. eapply Arena_pool_frame; [|exact Ha']. by split. }
  apply wp_gets_bind. simpl.
  change (match assoc_get (overflow_slabs p) l with
          | Some _ => slab_allocate (OverflowSlab l) n | None => mret None end)
    with (match slab_at (OverflowSlab l) p with
          | Some _ => slab_allocate (OverflowSlab l) n | None => mret (M:=M (PS T Tok) PoolError) None end).
  eapply (okw_bind _ _ _ (carve_attempt d p (held ++ free_bufs p) (OverflowSlab l) n)).
  { destruct (slab_at (OverflowSlab l) p); [by apply okw_slab_allocate; [apply Hi|]|].
    apply wp_ret. split_and!; [done..|]. apply Hi. }
  intros off [d1 p1] (Hd1 & Hf & _ & Hres). simpl in *. subst d1.
  destruct off as [off|]; [|by apply Hvendor].
  destruct Hres as (sa & s1 & Hsa & Hal & ->).
  apply okw_on_pool_bind.
  apply okw_on_pool_bind.
  apply wp_gets_bind. eapply (okw_make_buffer d p _ held (OverflowSlab l)); eauto. by split.
Qed.

(** ** Flushing the free lists *)
Lemma okw_slab_free d p bufs r off b :
  ArenaF d p (b :: bufs) → b_raw b = RawSlab off r →
  okw (slab_free r off (b_size_bytes b)) (d, p) (λ _ s, s.1 = d ∧ free_lists s.2 = free_lists p ∧
    (∀ r', is_Some (slab_at r' p) → is_Some (slab_at r' s.2)) ∧ ArenaF d s.2 bufs).
Proof.
  intros Ha Hraw. pose proof (ar_homed _ _ _ _ Ha) as Hh. apply Forall_cons in Hh as [Hh _].
  unfold homed in Hh. rewrite Hraw in Hh. destruct Hh as (base & Hb & _). simpl in Hb.
  destruct (slab_at r p) as [sa|] eqn:Hsa; [|done].
  unfold slab_free, wp, mbind, M_bind. simpl. rewrite Hsa. simpl.
  split_and!; [done|by apply set_slab_at_rest| |by apply Arena_slab_free].
  intros r' Hr'. destruct (slab_at_set r (free off (b_size_bytes b) (sa_slab sa)) p sa Hsa) as [-> _].
  by destruct (decide (r' = r)).
Qed.

(** The stack [stack] is flushed, [keep] of it so far kept. *)
Lemma okw_flush_stack d : ∀ stack p keep X,
  ArenaF d p (X ++ keep ++ stack) →
  okw (flush_stack keep stack) (d, p) (λ keep' s, s.1 = d ∧ free_lists s.2 = free_lists p ∧
    (∀ r', is_Some (slab_at r' p) → is_Some (slab_at r' s.2)) ∧
    (∀ b, b ∈ keep' → b ∈ keep ++ stack) ∧ ArenaF d s.2 (X ++ keep')).
Proof.
  induction stack as [|b stack IH]; intros p keep X Ha.
  { apply wp_ret. rewrite app_nil_r in *. done. }
  cbn [flush_stack].
  eapply (okw_bind _ _ _ (λ keep1 s, s.1 = d ∧ free_lists s.2 = free_lists p ∧
    (∀ r', is_Some (slab_at r' p) → is_Some (slab_at r' s.2)) ∧
    (keep1 = keep ++ [b] ∨ keep1 = keep) ∧ ArenaF d s.2 (X ++ keep1 ++ stack))).
  - unfold flush_buffer. apply wp_gets_bind. simpl.
    eapply (okw_bind _ _ _ (λ k s, s = (d, p) ∧ keep_pooled b d = Ok k)).
    { unfold wp, on_dev, lift. simpl. by destruct (keep_pooled b d). }
    intros k s [-> Hk]. destruct k; [|destruct (b_raw b) as [|off r| |] eqn:Hraw;
      try (unfold keep_pooled in Hk; rewrite Hraw in Hk; congruence)].
    + apply wp_ret. simpl. split_and!; [done..|by left|]. by rewrite <-(assoc_L (++) keep).
    + eapply okw_bind; [eapply (okw_slab_free d p (X ++ keep ++ stack)); [|done]|].
      * by rewrite <-!Permutation_middle in Ha.
      * intros [] s (H1 & H2 & H3 & H4). apply wp_ret. split_and!; [done..|by right|done].
  - intros keep1 [d1 p1] (Hd1 & Hf1 & Hs1 & Hk1 & Ha1). simpl in *. subst d1.
    eapply wp_mono; [by apply IH| |done].
    intros keep2 s (H1 & H2 & H3 & H4 & H5). split_and!; [done|congruence|auto| |done].
    intros b' Hb'%H4. destruct Hk1 as [->| ->]; set_solver.
Qed.

Lemma okw_flush_loop d l held : ∀ todo p done_,
  free_lists p = done_ ++ todo → PInv d p held →
  okw (forM_ todo (λ kv,
    if bool_decide (kv.1.1 = l) then
      keep ← flush_stack [] kv.2;
      on_pool (λ p, set_free (assoc_set (free_lists p) kv.1 keep) p)
    else mret tt)) (d, p)
    (λ _ s, s.1 = d ∧ (∀ r, is_Some (slab_at r p) → is_Some (slab_at r s.2)) ∧ PInv d s.2 held).
Proof.
  induction todo as [|[key stack] todo IH]; intros p done_ Hfl Hi; cbn [forM_]; [by apply wp_ret|].
  eapply (okw_bind _ _ _ (λ _ s, s.1 = d ∧ (∀ r, is_Some (slab_at r p) → is_Some (slab_at r s.2)) ∧
    PInv d s.2 held ∧ ∃ done', free_lists s.2 = done' ++ todo)).
  - cbn [fst snd]. destruct (bool_decide (key.1 = l)).
    2:{ apply wp_ret. split_and!; [done..|]. exists (done_ ++ [(key, stack)]). by rewrite <-(assoc_L (++)). }
    destruct Hi as [Ha Hk Hn]. pose proof Hn as Hn'. rewrite Hfl, fmap_app, fmap_cons in Hn'.
    apply NoDup_app in Hn' as (_ & Hnk & _).
    assert (key ∉ done_.*1) as Hkey by (intros Hin; by apply (Hnk key Hin), list_elem_of_here).
    set (rest := mjoin done_.*2 ++ mjoin todo.*2).
    assert (∀ st, Permutation (mjoin (done_ ++ (key, st) :: todo).*2) (rest ++ st)) as Hjoin.
    { intros st. rewrite fmap_app, fmap_cons, join_app. simpl. subst rest.
      rewrite <-(assoc_L (++)). by rewrite (comm (++) st). }
    eapply okw_bind; [apply (okw_flush_stack d stack p [] (held ++ rest))|].
    { unfold free_bufs in Ha. rewrite Hfl, Hjoin in Ha. simpl. by rewrite (assoc_L (++)) in Ha. }
    intros keep [d1 p1] (Hd1 & Hf1 & Hs1 & Hin & Ha1). simpl in *. subst d1.
    apply okw_on_pool. simpl. rewrite Hf1, Hfl, assoc_set_middle by done.
    split_and!; [done|done| |by exists (done_ ++ [(key, keep)]); rewrite <-(assoc_L (++))].
    split; unfold free_bufs; simpl.
    + rewrite Hjoin, (assoc_L (++)). eapply Arena_pool_frame; [|exact Ha1]. by split.
    + intros key' st' b. rewrite elem_of_app, elem_of_cons. intros Hst Hb. destruct Hst as [Hst|[[= -> ->]|Hst]].
      * apply (Hk key' st' b); [|done]. rewrite Hfl. set_solver.
      * apply (Hk key stack b); [rewrite Hfl; set_solver|auto].
      * apply (Hk key' st' b); [|done]. rewrite Hfl. set_solver.
    + rewrite fmap_app, fmap_cons. by rewrite Hfl, fmap_app, fmap_cons in Hn.
  - intros [] [d1 p1] (Hd1 & Hs1 & Hi1 & done' & Hf1). simpl in *. subst d1.
    eapply wp_mono; [by eapply IH| |done]. intros [] s (H1 & H2 & H3). split_and!; [done|auto|done].
Qed.

Lemma okw_flush d p held l :
  PInv d p held → okw (flush l) (d, p)
    (λ _ s, s.1 = d ∧ (∀ r, is_Some (slab_at r p) → is_Some (slab_at r s.2)) ∧ PInv d s.2 held).
Proof. intros Hi. unfold flush. apply wp_gets_bind. by apply (okw_flush_loop d l held _ p []). Qed.

Lemma okw_carve_buffer d p held l n :
  PInv d p held → 0 < n → okw (carve_buffer l n) (d, p) (got_dyn d held l n).
Proof.
  intros Hi Hn. unfold carve_buffer.
  eapply okw_bind; [apply (okw_slab_allocate d p (held ++ free_bufs p)); [apply Hi|done]|].
  intros off [d1 p1] (Hd1 & Hf1 & _ & Hres). simpl in *. subst d1.
  eapply (okw_bind _ _ _ (λ off s, ∃ p0, s.1 = d ∧ PInv d p0 held ∧
    carve_attempt d p0 (held ++ free_bufs p0) (MainSlab l) n off s)).
  - destruct off as [off|].
    + apply wp_ret. exists p. split_and!; [done..|]. simpl. split; [done|]. split; [done|]. split; [|done].
      destruct Hres as (sa & s1 & Hsa & Hal & ->). intros r' Hr'. destruct (slab_at_set (MainSlab l) s1 p sa Hsa) as [-> _].
      by destruct (decide (r' = MainSlab l)).
    + assert (PInv d p1 held) as Hi1 by (by eapply (PoolInv_same F d p)).
      eapply okw_bind; [by apply okw_flush|]. intros [] [d2 p2] (Hd2 & _ & Hi2). simpl in *. subst d2.
      eapply wp_mono; [apply (okw_slab_allocate d p2 (held ++ free_bufs p2)); [apply Hi2|done]| |done].
      intros off s Hs. exists p2. split_and!; [|done..]. by destruct Hs.
  - clear dependent p1. clear off. intros off [d1 p1] (p0 & Hd1 & Hi0 & (_ & Hf1 & _ & Hres)). simpl in *. subst d1.
    destruct off as [off|].
    + destruct Hres as (sa & s1 & Hsa & Hal & ->).
      apply okw_on_pool_bind. apply wp_gets_bind.
      eapply (okw_make_buffer d p0 _ held (MainSlab l)); eauto. by split.
    + apply okw_carve_overflow; [|done]. by eapply (PoolInv_same F d p0).
Qed.

(** ** Handing out *)
Lemma py_pop_spec {A} (l : list A) x r : py_pop l = Some (x, r) → l = r ++ [x].
Proof.
  unfold py_pop. destruct (rev l) as [|y r'] eqn:Hr; [done|]. intros [= <- <-].
  rewrite <-(rev_involutive l), Hr. done.
Qed.

Lemma okw_get_dynamic d p held l n :
  PInv d p held → 0 < n → okw (get_dynamic l n) (d, p) (got_dyn d held l n).
Proof.
  intros Hi Hn. unfold get_dynamic. apply wp_gets_bind. simpl.
  destruct (assoc_get (free_lists p) (l, n) ≫= py_pop) as [[b stack]|] eqn:Hpop.
  - apply bind_Some in Hpop as (st & Hst & ->%py_pop_spec).
    apply okw_on_pool_bind, okw_on_pool_bind, wp_ret. simpl. destruct Hi as [Ha Hk Hnd].
    destruct (assoc_get_split _ _ _ Hst) as (d1 & d2 & Hfl & Hkey).
    assert ((l, n, stack ++ [b]) ∈ free_lists p) as Hin by (rewrite Hfl; set_solver).
    destruct (Hk _ _ b Hin) as [[= -> ->] Hraw]; [set_solver|].
    split; [split_and!; [|done|done|done]|done]. split; simpl.
    + apply (Arena_pool_frame F d p); [by split|]. destruct (assoc_set_join (free_lists p) (b_location b, b_size_bytes b)) as (rest & H1 & H2).
      unfold free_bufs in *. simpl. rewrite H2. rewrite H1, Hst in Ha. simpl in Ha.
      rewrite (Permutation_app_comm stack [b]) in Ha. simpl in Ha. by rewrite <-Permutation_middle in Ha.
    + intros key st' b' [[= -> ->]|Hst']%elem_of_assoc_set Hb'; [|by eapply Hk].
      apply (Hk _ _ b' Hin). set_solver.
    + by apply assoc_set_keys.
  - apply okw_on_pool_bind.
    assert (PInv d (count_alloc (l, n) p) held) as Hi'.
    { eapply (PoolInv_same F d p); [done|done|]. eapply Arena_pool_frame; [|apply Hi]. by split. }
    destruct (assoc_get (slabs p) l); [by apply okw_carve_buffer|].
    rewrite (ar_ext _ _ _ _ (pi_arena _ _ _ _ Hi)). simpl. by apply okw_alloc.
Qed.

Lemma PInv_frame d p p' held :
  PInv d p held → pool_frame p p' → free_lists p' = free_lists p → PInv d p' held.
Proof.
  intros Hi Hf Hfl. eapply (PoolInv_same F d p); [done|done|]. eapply Arena_pool_frame; [exact Hf|apply Hi].
Qed.

Lemma okw_get_escaped d p held l n tag :
  PInv d p held → 0 < n → okw (get_escaped l n tag) (d, p) (got d held l n).
Proof.
  intros Hi Hn. unfold get_escaped. apply wp_gets_bind, okw_on_pool_bind, okw_on_pool_bind.
  eapply wp_mono; [apply okw_get_dynamic; [|done]|by intros b s [? _]|done].
  eapply PInv_frame; [exact Hi|by split|done].
Qed.

(** Tags matter to placed buffers only. *)
Lemma Arena_with_tag d p b key bufs :
  b_raw b ≠ RawPlaced → ArenaF d p (b :: bufs) → ArenaF d p (with_tag key b :: bufs).
Proof.
  intros Hraw [H1 H2 H3 H4 H5 H6 H7 H8 H9 H10 H11 H12 H13].
  apply Forall_cons in H1 as [Hb1 H1], H3 as [Hb3 H3], H10 as [Hb10 H10].
  inversion H2 as [|? ? Hs Ha]; subst. split; try done.
  - by apply Forall_cons.
  - by constructor.
  - apply Forall_cons. split; [|done]. unfold homed in *. cbn [b_raw with_tag]. by destruct (b_raw b).
  - cbn [omap list_omap] in *. unfold placed_key in H7 |- * at 1. cbn [b_raw with_tag]. by destruct (b_raw b).
  - by apply Forall_cons.
Qed.

Lemma okw_inherit_guards d p b : okw (inherit_guards b) (d, p) (λ _ s, dev_frame d s.1 ∧
  pool_frame p s.2 ∧ free_lists s.2 = free_lists p).
Proof.
  unfold inherit_guards. apply wp_get_bind. destruct (placed_pending_guards p) as [|g gs] eqn:Hg; [by apply wp_ret|].
  apply okw_on_pool_bind.
  destruct (filter _ (filter _ _)) as [|m [|m' ms]]; [by apply wp_ret; simpl; split_and!|..];
    apply okw_on_dev, wp_modify; simpl; split_and!; done || by split.
Qed.

Lemma okw_get_placed d p held key pl offset n :
  PInv d p held → 0 < n → placement p = Some pl → pl_offsets pl !! key = Some offset →
  okw (get_placed key pl offset n) (d, p) (got d held Fast n).
Proof.
  intros Hi Hn Hpl Hoff. unfold get_placed.
  destruct (pl_sizes pl !! key) as [z|] eqn:Hsz; [apply wp_ret_bind|by apply wp_raise_bind].
  apply wp_check_bind; [|done]. intros ->%Z.eqb_eq. apply wp_gets_bind. cbn [snd].
  apply wp_check_bind; [|done]. intros Hbusy%negb_true_iff.
  apply okw_on_pool_bind, okw_on_pool_bind, okw_on_pool_bind.
  destruct (placement_base p) as [base|] eqn:Hbase; [|by apply wp_raise].
  eapply (okw_bind _ _ _ (λ r s, r = next_ref d ∧ s.1 = bump_ref d ∧ s.2 = bump_pool_seq
    (set_live_ranges (<[key := (offset, offset + z)]> (live_ranges p)) (advance_incarnation key p)))); [done|].
  intros r [d1 p1]. cbn [fst snd]. intros (-> & -> & ->). set (b := mkBuffer _ _ _ _ _ _ _).
  destruct Hi as [Ha Hk Hnd].
  assert (next_ref d ∉ F) as HF.
  { intros Hin. pose proof (ar_clients _ _ _ _ Ha) as Hc. rewrite Forall_forall in Hc. specialize (Hc _ Hin). simpl in Hc. lia. }
  pose proof (Arena_placed F d p _ key pl offset z base b Ha Hpl Hoff Hsz Hn Hbusy Hbase eq_refl eq_refl eq_refl eq_refl HF) as Ha'.
  eapply okw_bind; [apply okw_inherit_guards|]. intros [] [d1 p1] (Hd & Hp & Hfl). simpl in *. apply wp_ret.
  assert (dev_frame d d1) as Hd1 by (trans (bump_ref d); [split; simpl; done || lia|done]).
  split_and!; [|done|done|done]. simpl. eapply (PoolInv_same F d p); [by split|done|].
  eapply Arena_frame; [exact Hd1|]. eapply Arena_pool_frame; [|exact Ha']. by destruct Hp; split.
Qed.

Lemma okw_pool_get d p held l n tag :
  PInv d p held → 0 < n → okw (pool_get l n tag) (d, p) (got d held l n).
Proof.
  intros Hi Hn. unfold pool_get. apply wp_gets_bind. cbn [snd].
  assert (∀ l, okw (get_dynamic l n) (d, p) (got d held l n)) as Hdyn.
  { intros l'. eapply wp_mono; [by apply okw_get_dynamic|by intros b s [? _]|done]. }
  assert (okw (match assigned_offset l tag p with
               | Some (key, pl, offset) => get_placed key pl offset n
               | None => get_dynamic l n end) (d, p) (got d held l n)) as Hrest.
  { unfold assigned_offset. destruct (placement p) as [pl|] eqn:Hpl; [|apply Hdyn].
    destruct l; [|apply Hdyn..]. destruct tag as [tag|]; [|apply Hdyn].
    destruct (pl_offsets pl !! next_key tag p) as [off|] eqn:Hoff; simpl; [by apply okw_get_placed|apply Hdyn]. }
  destruct (recorder p) as [rc|]; [|done]. destruct l; try done. destruct tag as [tag|]; [|done].
  apply okw_on_pool_bind, okw_on_pool_bind.
  eapply okw_bind; [apply okw_get_dynamic; [|done]; eapply PInv_frame; [exact Hi|by split|done]|].
  intros b [d1 p1] [([Ha Hk Hnd] & Hs & Hl & Hd) Hraw]. apply wp_ret. split_and!; [|done..].
  split; [|done..]. by apply Arena_with_tag.
Qed.

(** ** Taking back *)
Lemma okw_put d p held b :
  PInv d p (b :: held) →
  okw (put b) (d, p) (λ _ s, s.1 = d ∧ PInv d s.2 held).
Proof.
  intros Hi. unfold put. eapply (okw_bind _ _ _ (λ _ s, s.1 = d ∧ PInv d s.2 (b :: held))).
  { unfold record_put. apply wp_gets_bind. cbn [snd].
    destruct (recorder p); [|by apply wp_ret]. destruct (b_tag b); [|by apply wp_ret].
    apply okw_on_pool. split; [done|]. eapply PInv_frame; [exact Hi|by split|done]. }
  clear dependent p. intros [] [d1 p] [Hd1 Hi]. cbn [fst snd] in *. subst d1.
  assert (b_raw b ≠ RawPlaced →
    okw (on_pool (λ p, set_free (assoc_set (free_lists p) (b_location b, b_size_bytes b)
          (default [] (assoc_get (free_lists p) (b_location b, b_size_bytes b)) ++ [b])) p)) (d, p)
      (λ _ s, s.1 = d ∧ PInv d s.2 held)) as Hput.
  { intros Hraw. apply okw_on_pool. split; [done|]. cbn [snd]. destruct Hi as [Ha Hk Hnd]. split.
    - apply (Arena_pool_frame F d p); [by split|].
      destruct (assoc_set_join (free_lists p) (b_location b, b_size_bytes b)) as (rest & H1 & H2).
      unfold free_bufs in *. cbn [free_lists set_free]. rewrite H2. rewrite H1 in Ha.
      rewrite <-(assoc_L (++)). rewrite (Permutation_app_comm _ ([b] ++ rest)). simpl.
      rewrite <-Permutation_middle. by rewrite (Permutation_app_comm rest).
    - intros key st b' [[= -> ->]|Hst]%elem_of_assoc_set Hb'; [|by eapply Hk].
      apply elem_of_app in Hb' as [Hb'|Hb'%list_elem_of_singleton]; [|by subst].
      destruct (assoc_get (free_lists p) _) as [st|] eqn:Hst; simpl in Hb'; [|by apply elem_of_nil in Hb'].
      apply assoc_get_split in Hst as (d1 & d2 & Hfl & _). apply (Hk _ st b'); [rewrite Hfl; set_solver|done].
    - by apply assoc_set_keys. }
  destruct (b_raw b) as [|off r| |] eqn:Hraw; [by apply Hput..|]. clear Hput.
  destruct Hi as [Ha Hk Hnd]. pose proof (ar_homed _ _ _ _ Ha) as Hh. apply Forall_cons in Hh as [Hh _].
  unfold homed in Hh. rewrite Hraw in Hh. destruct Hh as (key & o & base & Htag & _). rewrite Htag.
  apply okw_on_pool_bind. apply wp_gets_bind. cbn [fst].
  eapply (okw_bind _ _ _ (λ _ s, s = (d, set_live_ranges (delete key (live_ranges p)) p))).
  { unfold wp, on_dev, lift. simpl. by destruct (guard_pending b d). }
  intros pend s ->.
  assert (PInv d (set_live_ranges (delete key (live_ranges p)) p) held) as Hi'.
  { eapply (PoolInv_same F d p); [by split|done|]. by apply (Arena_unplace F d p _ key b). }
  destruct pend; simpl; [|by apply wp_ret]. destruct (guard_event b d); [by apply wp_ret| |by apply wp_ret].
  apply okw_on_pool. split; [done|]. eapply PInv_frame; [exact Hi'|by split|done].
Qed.

(** ** Set-up *)

(** A new division of a fresh allocation. *)
Lemma Arena_new_base d d' p p' bufs root base l n :
  ArenaF d p bufs → base_of root p = None → allocated d l n base d' →
  (∀ root', base_of root' p' = if decide (root' = root) then Some base else base_of root' p) →
  (∀ r sa, slab_at r p' = Some sa → slab_ok bufs r sa) →
  (∀ pl, placement p' = Some pl →
    WellPlaced pl ∧ ∃ base, placement_base p' = Some base ∧ b_size_bytes base = pl_extent_bytes pl) →
  (∀ k lo hi, live_ranges p' !! k = Some (lo, hi) → lo < hi ∧ ∃ pl, placement p' = Some pl ∧ pl_offsets pl !! k = Some lo) →
  (omap placed_key bufs = [] ∨ live_ranges p' = live_ranges p) → external_alloc p' = [] →
  ArenaF d' p' bufs.
Proof.
  intros Ha Hnone Hal Hbase Hslabs Hplace Hranges Hlive Hext.
  pose proof Hal as (_ & _ & _ & _ & _ & Hd & _).
  pose proof (Arena_frame _ _ _ _ _ Hd Ha) as [H1 H2 H3 H4 H5 H6 H7 H8 H9 H10 H11 H12 H13].
  split; try done.
  - rewrite Forall_forall in H3 |- *. intros b Hb. specialize (H3 b Hb). unfold homed in *.
    destruct (b_raw b) as [|off r| |] eqn:Hraw; [|..|done|].
    + destruct H3 as [Hw Hap]. split; [done|]. intros root' base'. rewrite Hbase.
      destruct (decide (root' = root)); [|by apply Hap]. intros [= <-]. symmetry.
      eapply allocated_apart; [done|]. by eapply bufs_within.
    + destruct H3 as (base' & Hb' & Hin). exists base'. rewrite Hbase. split; [|done].
      rewrite decide_False; [done|]. intros <-. congruence.
    + destruct Hlive as [Hlive|Hlive].
      { destruct H3 as (k & o & base' & Ht & _). assert (k ∈ omap placed_key bufs) as Hk by by eapply placed_in.
        rewrite Hlive in Hk. by apply elem_of_nil in Hk. }
      destruct H3 as (k & o & base' & Ht & Hk & Hb' & Hin). exists k, o, base'. rewrite Hlive, Hbase.
      split_and!; [done|done| |done..]. rewrite decide_False; [done|]. intros <-. congruence.
  - intros r1 r2 b1 b2 Hne. rewrite !Hbase.
    destruct (decide (r1 = root)) as [->|], (decide (r2 = root)) as [->|]; try done.
    + intros [= <-] Hb2. symmetry. eapply allocated_apart; [done|]. by eapply (ar_based _ _ _ _ Ha).
    + intros Hb1 [= <-]. eapply allocated_apart; [done|]. by eapply (ar_based _ _ _ _ Ha).
    + by apply H4.
  - intros r b. rewrite Hbase. destruct (decide (r = root)); [|by apply H5].
    intros [= <-]. eapply allocated_within; [apply (ar_next _ _ _ _ Ha)|done].
Qed.

Definition put_slab (r : SlabRef) (sa : SlabAllocator) p : Pool T Tok :=
  match r with
  | MainSlab l => set_slabs (assoc_set (slabs p) l sa) p
  | OverflowSlab l => set_overflow (assoc_set (overflow_slabs p) l sa) p
  end.

Lemma slab_at_put r sa p r' :
  slab_at r' (put_slab r sa p) = if decide (r' = r) then Some sa else slab_at r' p.
Proof.
  destruct (decide (r' = r)) as [->|Hne]; [destruct r; apply assoc_get_set|].
  destruct r as [l|l], r' as [l'|l']; simpl; try done; apply assoc_get_set_ne; congruence.
Qed.

Lemma okw_new_slab d p held r capacity scaled :
  PInv d p held → slab_at r p = None → 0 < capacity → 0 ≤ scaled →
  okw (sa ← make_slab (ref_location r) capacity scaled; on_pool (put_slab r sa)) (d, p)
    (λ _ s, PInv s.1 s.2 held ∧ dev_frame d s.1 ∧ ∃ sa, s.2 = put_slab r sa p).
Proof.
  intros Hi Hr Hc Hs. unfold make_slab. apply wp_bind_assoc.
  eapply okw_bind; [apply okw_alloc_raw|].
  intros base [d' p0]. cbn [fst snd]. intros [Hal ->]. apply wp_ret_bind, okw_on_pool. set (sa := mkSlabAllocator _ _ _).
  pose proof Hal as (_ & _ & Hsize & _ & _ & Hd & _). split_and!; [|done|by exists sa]. cbn [fst snd].
  assert (free_lists (put_slab r sa p) = free_lists p) as Hfl by by destruct r.
  eapply (PoolInv_same F d p); [done|done|]. pose proof (pi_arena _ _ _ _ Hi) as Ha.
  assert (base_of (RSlab r) p = None) as Hnone by (simpl; by rewrite Hr).
  eapply (Arena_new_base d d' p (put_slab r sa p) _ (RSlab r) base); try done.
  - intros [r'|]; simpl; [|by destruct r]. rewrite slab_at_put.
    destruct (decide (r' = r)) as [->|]; [by rewrite decide_True|by rewrite decide_False by congruence].
  - intros r' sa'. rewrite slab_at_put. destruct (decide (r' = r)) as [->|]; [|by apply Ha].
    intros [= <-]. split_and!; [|done|by exists base].
    assert (omap (carved r) (held ++ free_bufs p) = []) as ->; [|by apply post_init_refines].
    apply elem_of_nil_inv. intros rg (b & Hb & Hrg)%list_elem_of_omap.
    pose proof (ar_homed _ _ _ _ Ha) as Hh. rewrite Forall_forall in Hh. specialize (Hh b Hb).
    unfold homed, carved in *. destruct (b_raw b); try done. destruct (decide (r = owner)) as [<-|]; [|done].
    destruct Hh as (base' & Hb' & _). congruence.
  - destruct r; apply Ha.
  - destruct r; apply Ha.
  - right. by destruct r.
  - destruct r; apply Ha.
Qed.

(** Only the slabs of [l] may differ. *)
Definition slab_frame (l : Location) p p' : Prop :=
  placement p' = placement p ∧ placement_base p' = placement_base p ∧ external_alloc p' = external_alloc p ∧
  ∀ r, ref_location r ≠ l → slab_at r p' = slab_at r p.

Lemma put_slab_frame r sa p : slab_frame (ref_location r) p (put_slab r sa p).
Proof.
  split_and!; [by destruct r..|]. intros r' Hne. rewrite slab_at_put. rewrite decide_False; [done|congruence].
Qed.

Lemma okw_add_slab d p held l capacity overflow :
  PInv d p held → slab_at (MainSlab l) p = None → slab_at (OverflowSlab l) p = None → 0 < capacity →
  okw (add_slab l capacity overflow) (d, p) (λ _ s, PInv s.1 s.2 held ∧ dev_frame d s.1 ∧ slab_frame l p s.2).
Proof.
  intros Hi H1 H2 Hc. unfold add_slab.
  pose proof (okw_new_slab d p held (MainSlab l) capacity (Z.quot capacity 8) Hi H1 Hc) as Hn.
  assert (0 ≤ Z.quot capacity 8) as Hq by (apply Z.quot_pos; lia). specialize (Hn Hq). revert Hn.
  unfold wp, mbind, M_bind. cbn [ref_location]. destruct (make_slab l capacity _ (d, p)) as [[sa|e] s1]; [|done].
  simpl. intros (Hi' & Hd & sa' & Hsa').
  assert (slab_frame l p (set_slabs (assoc_set (slabs s1.2) l sa) s1.2)) as Hf by (rewrite Hsa'; apply (put_slab_frame (MainSlab l))).
  destruct (0 <? overflow) eqn:Hov; simpl; [|done].
  assert (slab_at (OverflowSlab l) (set_slabs (assoc_set (slabs s1.2) l sa) s1.2) = None) as Hno by (by rewrite Hsa').
  pose proof (okw_new_slab s1.1 _ held (OverflowSlab l) overflow 0 Hi' Hno ltac:(lia) ltac:(lia)) as Ho. revert Ho.
  unfold wp, mbind, M_bind. simpl. destruct (make_slab l overflow 0 _) as [[sb|e] s2]; [|done]. simpl.
  intros (Hi2 & Hd2 & sb' & Hsb'). split_and!; [done|by trans s1.1|]. rewrite Hsb'.
  pose proof (put_slab_frame (OverflowSlab l) sb' (set_slabs (assoc_set (slabs s1.2) l sa) s1.2)) as (F1 & F2 & F3 & F4).
  destruct Hf as (G1 & G2 & G3 & G4). split_and!;
    [exact (eq_trans F1 G1)|exact (eq_trans F2 G2)|exact (eq_trans F3 G3)|].
  intros r Hr. exact (eq_trans (F4 r Hr) (G4 r Hr)).
Qed.

Lemma okw_reset_placement_epoch d p held :
  PInv d p held → omap placed_key held = [] →
  okw reset_placement_epoch (d, p) (λ _ s, PInv s.1 s.2 held).
Proof.
  intros Hi Hnone. apply okw_on_pool. cbn [fst snd]. eapply (PoolInv_same F d p); [done|done|].
  assert (∀ b, b ∈ held ++ free_bufs p → b_raw b ≠ RawPlaced) as Hnp.
  { destruct Hi as [Ha Hk _]. intros b Hb Hraw. pose proof (ar_homed _ _ _ _ Ha) as Hh. rewrite Forall_forall in Hh.
    specialize (Hh b Hb). unfold homed in Hh. rewrite Hraw in Hh. destruct Hh as (k & o & base & Ht & _).
    apply elem_of_app in Hb as [Hb|Hb].
    - assert (k ∈ omap placed_key held) as Hin by by eapply placed_in. rewrite Hnone in Hin. by apply elem_of_nil in Hin.
    - unfold free_bufs in Hb. apply list_elem_of_join in Hb as (st & Hb & Hst).
      apply list_elem_of_fmap in Hst as ([key st'] & -> & Hst). by destruct (Hk key st' b Hst Hb). }
  destruct (pi_arena _ _ _ _ Hi) as [H1 H2 H3 H4 H5 H6 H7 H8 H9 H10 H11 H12 H13]. split; try done.
  rewrite Forall_forall in H3 |- *. intros b Hb. specialize (H3 b Hb). specialize (Hnp b Hb). unfold homed in *.
  by destruct (b_raw b).
Qed.

Lemma okw_enable_placement d p held pl :
  PInv d p held → placement_base p = None → WellPlaced pl →
  okw (enable_placement pl) (d, p) (λ _ s, PInv s.1 s.2 held ∧ dev_frame d s.1).
Proof.
  intros Hi Hnone Hwell. unfold enable_placement. eapply okw_bind; [apply okw_alloc_raw|].
  intros base [d' p0]. cbn [fst snd]. intros [Hal ->]. apply okw_on_pool_bind, okw_on_pool. cbn [fst snd].
  pose proof Hal as (_ & _ & Hsize & _ & _ & Hd & _). split; [|done]. eapply (PoolInv_same F d p); [done|done|].
  pose proof (pi_arena _ _ _ _ Hi) as Ha.
  eapply (Arena_new_base d d' p _ _ RPlacement base); try done.
  - by intros [r|].
  - apply Ha.
  - simpl. intros pl' [= <-]. split; [done|]. by exists base.
  - left. apply elem_of_nil_inv. intros k (b & Hb & Hk)%list_elem_of_omap.
    pose proof (ar_homed _ _ _ _ Ha) as Hh. rewrite Forall_forall in Hh. specialize (Hh b Hb).
    unfold homed, placed_key in *. destruct (b_raw b); try done.
    destruct Hh as (? & ? & base' & _ & _ & Hb' & _). simpl in Hb'. congruence.
  - apply Ha.
Qed.

Lemma okw_prewarm_stack key held : 0 < key.2 → ∀ n d p, PInv d p held →
  okw (prewarm_stack n key) (d, p) (λ _ s, PInv s.1 s.2 held ∧ dev_frame d s.1).
Proof.
  intros Hpos. induction n as [|n IH]; intros d p Hi; cbn [prewarm_stack]; [by apply wp_ret|].
  apply okw_on_pool_bind. eapply okw_bind; [apply (okw_alloc d _ held key.1 key.2); [|done]|].
  { eapply PInv_frame; [exact Hi|by split|done]. }
  intros b [d1 p1] [(Hi1 & Hs & Hl & Hd) Hraw]. cbn [fst snd] in *.
  assert (key = (b_location b, b_size_bytes b)) as -> by (destruct key; simpl in *; congruence).
  pose proof (okw_put d1 (set_recorder None p1) held b) as Hput. unfold put, record_put, wp, mbind, M_bind in Hput.
  simpl in Hput. apply okw_on_pool_bind. destruct (b_raw b) eqn:Hr; try done.
  all: destruct Hput as [_ Hi2]; [eapply PInv_frame; [exact Hi1|by split|done]|].
  all: simpl in Hi2; eapply wp_mono; [apply IH; eapply (PInv_frame d1 _ _ held Hi2); [by split|done]| |done].
  all: intros [] s [H1 H2]; split; [done|by trans d1].
Qed.

Lemma okw_prewarm d p held demand :
  PInv d p held → Forall (λ kv, 0 < kv.1.2) demand →
  okw (prewarm demand) (d, p) (λ _ s, PInv s.1 s.2 held ∧ dev_frame d s.1).
Proof.
  intros Hi Hpos. unfold prewarm. apply wp_gets_bind.
  assert (∀ kv, kv ∈ py_sorted demand_leb (filter (λ kv, assoc_get (external_alloc p) kv.1.1 = None) demand) →
    0 < kv.1.2) as Hpos'.
  { intros kv. rewrite elem_of_py_sorted, list_elem_of_filter. rewrite Forall_forall in Hpos. intros [_ ?]. by apply Hpos. }
  cbn [snd]. revert Hpos'. generalize (py_sorted demand_leb (filter (λ kv, assoc_get (external_alloc p) kv.1.1 = None) demand)).
  intros l Hl. apply (triple_forM (λ s, PInv s.1 s.2 held ∧ dev_frame d s.1)); [|done].
  intros kv Hkv [d1 p1] [Hi1 Hd1]. cbn [fst snd] in *. apply wp_gets_bind. cbn [snd].
  destruct (bool_decide _); [by apply wp_ret|]. destruct (_ && _); [by apply wp_ret|].
  apply okw_on_pool_bind. eapply wp_mono; [apply (okw_prewarm_stack _ held); [by apply Hl|]|intros [] s [? ?]; split; [done|by trans d1]|done].
  destruct Hi1 as [Ha Hk Hn]. split.
  - apply (Arena_pool_frame F d1 p1); [by split|]. destruct (assoc_set_join (free_lists p1) kv.1) as (rest & H1 & H2).
    unfold free_bufs in *. cbn [free_lists set_free]. rewrite H2. by rewrite H1 in Ha.
  - intros key st b [[= -> ->]|Hst]%elem_of_assoc_set Hb; [|by eapply Hk].
    destruct (assoc_get (free_lists p1) kv.1) as [st|] eqn:Hst; simpl in Hb; [|by apply elem_of_nil in Hb].
    apply assoc_get_split in Hst as (e1 & e2 & Hfl & _). apply (Hk _ st b); [rewrite Hfl; set_solver|done].
  - by apply assoc_set_keys.
Qed.

(** A pool starts with no buffer. *)
Lemma new_pool_inv d : 0 < next_ptr d → Forall (λ r, (r < next_ref d)%nat) F → PInv d new_pool [].
Proof.
  intros Hn Hf. split; [|by intros ? ? ? ?%elem_of_nil|constructor].
  split; try done; try by constructor.
  - by intros [[|]|].
  - by intros [[|]|].
  - by intros [|].
Qed.
End PoolSafe.

(** ** Sequences of operations

    States a pool reaches, with the buffers its clients hold.  Clients put
    back what they hold; an epoch starts with no assigned buffer held; the
    backend moves on in between ([pr_device]). *)
Section Reach.
Context {T Tok : Type} `{Num T}.

Inductive pool_reach : Fake T Tok → Pool T Tok → list Buffer → Prop :=
| pr_new phys scale : pool_reach (new_fake phys scale) new_pool []
| pr_slab d p held l capacity overflow u d' p' :
    pool_reach d p held → slab_at (MainSlab l) p = None → slab_at (OverflowSlab l) p = None → 0 < capacity →
    add_slab l capacity overflow (d, p) = (Ok u, (d', p')) → pool_reach d' p' held
| pr_placement d p held pl u d' p' :
    pool_reach d p held → placement_base p = None → WellPlaced pl →
    enable_placement pl (d, p) = (Ok u, (d', p')) → pool_reach d' p' held
| pr_epoch d p held u d' p' :
    pool_reach d p held → omap placed_key held = [] →
    reset_placement_epoch (d, p) = (Ok u, (d', p')) → pool_reach d' p' held
| pr_record d p held rc : pool_reach d p held → pool_reach d (set_recorder rc p) held
| pr_prewarm d p held demand u d' p' :
    pool_reach d p held → Forall (λ kv, 0 < kv.1.2) demand →
    prewarm demand (d, p) = (Ok u, (d', p')) → pool_reach d' p' held
| pr_get d p held l n tag b d' p' :
    pool_reach d p held → 0 < n → pool_get l n tag (d, p) = (Ok b, (d', p')) → pool_reach d' p' (b :: held)
| pr_escape d p held l n tag b d' p' :
    pool_reach d p held → 0 < n → get_escaped l n tag (d, p) = (Ok b, (d', p')) → pool_reach d' p' (b :: held)
| pr_put d p held held' b u d' p' :
    pool_reach d p held → Permutation held (b :: held') →
    put b (d, p) = (Ok u, (d', p')) → pool_reach d' p' held'
| pr_device d p held d' : pool_reach d p held → dev_mono d d' → pool_reach d' p held.

Lemma okw_run {A} (m : M (PS T Tok) PoolError A) s a d' p' Q :
  okw m s Q → m s = (Ok a, (d', p')) → Q a (d', p').
Proof. unfold wp. intros Hm Hr. by rewrite Hr in Hm. Qed.

Lemma pool_reach_inv d p held : pool_reach d p held → PoolInv [] d p held.
Proof.
  induction 1 as [phys scale|d p held l cap ov u d' p' _ IH H1 H2 H3 Hr|d p held pl u d' p' _ IH H1 H2 Hr
    |d p held u d' p' _ IH H1 Hr|d p held rc _ IH|d p held dem u d' p' _ IH H1 Hr|d p held l n tag b d' p' _ IH Hn Hr
    |d p held l n tag b d' p' _ IH Hn Hr|d p held held' b u d' p' _ IH Hp Hr|d p held d' _ IH Hd].
  - by apply new_pool_inv.
  - exact (proj1 (okw_run _ _ _ _ _ _ (okw_add_slab [] d p held l cap ov IH H1 H2 H3) Hr)).
  - exact (proj1 (okw_run _ _ _ _ _ _ (okw_enable_placement [] d p held pl IH H1 H2) Hr)).
  - exact (okw_run _ _ _ _ _ _ (okw_reset_placement_epoch [] d p held IH H1) Hr).
  - eapply PInv_frame; [exact IH|by split|done].
  - exact (proj1 (okw_run _ _ _ _ _ _ (okw_prewarm [] d p held dem IH H1) Hr)).
  - by destruct (okw_run _ _ _ _ _ _ (okw_pool_get [] d p held l n tag IH Hn) Hr).
  - by destruct (okw_run _ _ _ _ _ _ (okw_get_escaped [] d p held l n tag IH Hn) Hr).
  - rewrite Hp in IH. destruct (okw_run _ _ _ _ _ _ (okw_put [] d p held' b IH) Hr) as [Hd ?]. simpl in Hd. by subst d'.
  - eapply (PoolInv_same [] d p); [done|done|]. eapply Arena_mono; [done|apply IH].
Qed.
End Reach.


(** A buffer handed out has the size and the location asked for, and overlaps
    none that is held. *)
Theorem pool_get_delivers {T Tok} `{Num T} (d : Fake T Tok) (p : Pool T Tok) held l n tag b d' p' :
  pool_reach d p held → 0 < n → pool_get l n tag (d, p) = (Ok b, (d', p')) →
  b_size_bytes b = n ∧ b_location b = l ∧ Forall (apart_b b) held.
Proof.
  intros Hr Hn Hg. pose proof (pool_reach_inv _ _ _ Hr) as Hi.
  destruct (okw_run _ _ _ _ _ _ (okw_pool_get [] d p held l n tag Hi Hn) Hg) as (Hi' & Hs & Hl & _).
  split_and!; [done..|]. pose proof (PoolInv_apart _ _ _ _ Hi') as Ha. by inversion Ha.
Qed.

(** A pool with a fast slab and its arena, and a placement of two objects. *)
Definition sample_placement : Placement :=
  mkPlacement {[("x"%string, 0) := 0; ("y"%string, 0) := 512; ("z"%string, 0) := 0]}
    {[("x"%string, 0) := 512; ("y"%string, 0) := 512; ("z"%string, 0) := 1024]} 1024 1024 4096.

Lemma sample_placement_ok : WellPlaced sample_placement.
Proof.
  split; [done|]. intros k off n Ho Hs. unfold sample_placement in *. simpl in *.
  repeat (apply lookup_insert_Some in Ho as [[<- <-]|[_ Ho]];
    [vm_compute in Hs; injection Hs as <-; lia|]). apply lookup_singleton_Some in Ho as [<- <-].
  vm_compute in Hs. injection Hs as <-. lia.
Qed.

Definition st0 : PS Z nat := (new_fake false None, new_pool).
Definition st1 : PS Z nat := snd (add_slab Backing 1024 0 st0).
Definition st2 : PS Z nat := snd (enable_placement sample_placement st1).
Definition st3 : PS Z nat := snd (pool_get Fast 512 (Some "x"%string) st2).
Definition st4 : PS Z nat := snd (pool_get Backing 600 None st3).
Definition buf_x : Buffer := mkBuffer 2 "placed:x:0" Fast 512 1552 RawPlaced (Some ("x"%string, 0)).
Definition buf_y : Buffer := mkBuffer 3 "slab:backing:2" Backing 600 16 (RawSlab 0 (MainSlab Backing)) None.

Lemma sample_reach : pool_reach st3.1 st3.2 [buf_x].
Proof.
  eapply (pr_get st2.1 st2.2 [] Fast 512 (Some "x"%string)); [|done|vm_compute; reflexivity].
  eapply (pr_placement st1.1 st1.2 [] sample_placement tt); [|vm_compute; reflexivity|apply sample_placement_ok|vm_compute; reflexivity].
  eapply (pr_slab st0.1 st0.2 [] Backing 1024 0 tt); [apply pr_new|done..|vm_compute; reflexivity].
Qed.

Lemma pool_get_delivers_witness :
  fst (pool_get Backing 600 None st3) = Ok buf_y ∧
  b_size_bytes buf_y = 600 ∧ b_location buf_y = Backing ∧ Forall (apart_b buf_y) [buf_x].
Proof.
  split; [vm_compute; reflexivity|].
  apply (pool_get_delivers st3.1 st3.2 [buf_x] Backing 600 None buf_y st4.1 st4.2 sample_reach);
    [reflexivity|vm_compute; reflexivity].
Defined.


(** A client of the assigned mode: [x] and [y] are put back while their poison
    memsets are queued (until time 5, the host being at 0); the instance [z]
    over both ranges inherits the two guards, and is put back in its turn. *)
Definition two_guards : M (PS Z nat) PoolError unit :=
  enable_placement sample_placement ;;
  x ← pool_get Fast 512 (Some "x"%string);
  y ← pool_get Fast 512 (Some "y"%string);
  on_dev (modify (set_guard x (OneGuard (mkEvent "ev1" 5 false)))) ;;
  on_dev (modify (set_guard y (OneGuard (mkEvent "ev2" 5 false)))) ;;
  put x ;; put y ;;
  z ← pool_get Fast 1024 (Some "z"%string);
  put z.

(** [get] attaches a tuple of guards to a buffer placed over several pending
    ranges, and [put] asks [event_complete] of that tuple, which has no time:
    the last [put] of [two_guards] raises, after releasing the range. *)
Theorem put_of_inherited_guards_raises :
  fst (two_guards st0) = Err (PoolDevice TupleHasNoTime) ∧ live_ranges (snd (two_guards st0)).2 = ∅.
Proof. split; vm_compute; reflexivity. Qed.
