(* ===== verification/RunState.v ===== *)
(** * The state of a run ([dataflow/runtime/trace.py], [transfers.py],
    [executable.py] and the shared objects of [engine.py])

    The engine's components share the backend, the ledger, the pool, the
    object table and the trace: [Run] is that store.  A computation of the
    engine is [RM A], over the whole store; the operations of a component are
    lifted to it ([on_device], [on_ledger], [on_pools]). *)
From S2P Require Import Prelude SimSchema CoreProgram Ledger Placement Device Objects Pool.
From S2P Require Import CoreValidate.
From stdpp Require Import base tactics option list gmap strings pretty.
From Stdlib Require Import ZArith Lia.
Open Scope Z_scope.

(** ** Transfer jobs and completion tokens *)
Record TransferJob (T : Type) := mkJob {
  tj_object_id : string;
  tj_size_bytes : Z;
  tj_runtime_override : option T;
  tj_anchor_event : Event T;
  tj_fired_by_task : string;
  tj_start_event : option (Event T);
  tj_done_event : option (Event T);
  tj_interval_name : string;
  tj_version : Z;
}.
Arguments mkJob {T}.
Arguments tj_object_id {T}.
Arguments tj_size_bytes {T}.
Arguments tj_runtime_override {T}.
Arguments tj_anchor_event {T}.
Arguments tj_fired_by_task {T}.
Arguments tj_start_event {T}.
Arguments tj_done_event {T}.
Arguments tj_interval_name {T}.
Arguments tj_version {T}.

(** [_TaskDone] and [TransferDone]. *)
Inductive Token (T : Type) :=
| TaskDone (task : TaskSpec T) (start_event done_event : Event T)
| TransferDone (direction : TransferDirection) (job : TransferJob T).
Arguments TaskDone {T}.
Arguments TransferDone {T}.

(** ** Trace: intervals are the simulator's *)
Record TraceEvent (T : Type) := mkTraceEvent {
  te_t : T;
  te_kind : string;
  te_object_id : option string;
  te_task_id : option string;
  te_detail : string;
}.
Arguments mkTraceEvent {T}.
Arguments te_t {T}.
Arguments te_kind {T}.
Arguments te_object_id {T}.
Arguments te_task_id {T}.
Arguments te_detail {T}.

Record RunTrace (T : Type) := mkTrace {
  raw_intervals : list (TaskInterval T);
  raw_events : list (TraceEvent T);
  fast_trace : list (T * Z);
  trace_peak_fast : Z;
}.
Arguments mkTrace {T}.
Arguments raw_intervals {T}.
Arguments raw_events {T}.
Arguments fast_trace {T}.
Arguments trace_peak_fast {T}.

(** ** Executables *)
Record TaskContext (T : Type) := mkContext {
  tc_task : TaskSpec T;
  tc_stream : Stream;
  tc_inputs : list (string * Buffer);
  tc_outputs : list (string * Buffer);
  tc_mutates : list (string * Buffer);
}.
Arguments mkContext {T}.
Arguments tc_task {T}.
Arguments tc_stream {T}.
Arguments tc_inputs {T}.
Arguments tc_outputs {T}.
Arguments tc_mutates {T}.

(** ** Errors *)
Inductive ExecReason :=
| HostTask (task : string)
| BackingFull (task : string) (bytes : Z)
| OutputCollides (task oid : string) (l : Location)
| CannotRelease (task oid : string) (st : option SlotState)
| CannotOffload (task oid : string) (st : option SlotState)
| OffloadOntoNonLive (task oid : string) (st : SlotState)
| OffloadSizeMismatch (task oid : string)
| PrefetchOntoCopy (task oid : string) (st : SlotState)
| NoBackingSource (task oid : string) (st : option SlotState)
| DuplicateInitial (oid : string) (l : Location)
| InitialTooSmall (oid : string) (have need : Z)
| FinalViolated (oids : list string)
| Unrecoverable.

Inductive RunError :=
| ExecutionError (r : ExecReason)
| DeadlockError
| TransferError (d : TransferDirection) (oid : string)
| LedgerFailure (e : LedgerError)
| CancelledRun (task : string) (pos : nat)
| InvalidProgram (e : ProgramError)
| SessionMismatch
| UnknownObject (oid : string)
| NotResident (oid : string)
| Assertion (what : string)
| PoolFailure (e : PoolError)
| DeviceFailure (e : DeviceError)
| TaskRaised (message : string)
| OutOfFuel.

(** ** The store *)

(** A [TransferEngine]'s own fields. *)
Record Lane (T : Type) := mkLane {
  ln_queue : list (TransferJob T);
  ln_inflight : option (TransferJob T);
  ln_name_seq : gmap string nat;
}.
Arguments mkLane {T}.
Arguments ln_queue {T}.
Arguments ln_inflight {T}.
Arguments ln_name_seq {T}.

Record Run (T : Type) := mkRun {
  rn_dev : Fake T (Token T);
  rn_ledger : Ledger;
  rn_pool : Pool T (Token T);
  rn_table : Table T;
  rn_trace : RunTrace T;
  rn_h2d : Lane T;
  rn_d2h : Lane T;
  rn_deferred : list (string * list (TransferJob T));
  rn_intervals : list (string * Event T * Event T * Track);
  rn_outstanding : option string;
  rn_cursor : nat;
  rn_current : option string;
  rn_evictions : nat;
  rn_override : gmap string (option T);
}.
Arguments mkRun {T}.
Arguments rn_dev {T}.
Arguments rn_ledger {T}.
Arguments rn_pool {T}.
Arguments rn_table {T}.
Arguments rn_trace {T}.
Arguments rn_h2d {T}.
Arguments rn_d2h {T}.
Arguments rn_deferred {T}.
Arguments rn_intervals {T}.
Arguments rn_outstanding {T}.
Arguments rn_cursor {T}.
Arguments rn_current {T}.
Arguments rn_evictions {T}.
Arguments rn_override {T}.

Section Store.
Context {T : Type} `{Num T}.
Implicit Types s : Run T.

Abbreviation RM := (M (Run T) RunError).

Definition with_dev x s := mkRun x (rn_ledger s) (rn_pool s) (rn_table s) (rn_trace s) (rn_h2d s) (rn_d2h s)
  (rn_deferred s) (rn_intervals s) (rn_outstanding s) (rn_cursor s) (rn_current s) (rn_evictions s) (rn_override s).
Definition with_ledger x s := mkRun (rn_dev s) x (rn_pool s) (rn_table s) (rn_trace s) (rn_h2d s) (rn_d2h s)
  (rn_deferred s) (rn_intervals s) (rn_outstanding s) (rn_cursor s) (rn_current s) (rn_evictions s) (rn_override s).
Definition with_pool x s := mkRun (rn_dev s) (rn_ledger s) x (rn_table s) (rn_trace s) (rn_h2d s) (rn_d2h s)
  (rn_deferred s) (rn_intervals s) (rn_outstanding s) (rn_cursor s) (rn_current s) (rn_evictions s) (rn_override s).
Definition with_table x s := mkRun (rn_dev s) (rn_ledger s) (rn_pool s) x (rn_trace s) (rn_h2d s) (rn_d2h s)
  (rn_deferred s) (rn_intervals s) (rn_outstanding s) (rn_cursor s) (rn_current s) (rn_evictions s) (rn_override s).
Definition with_trace x s := mkRun (rn_dev s) (rn_ledger s) (rn_pool s) (rn_table s) x (rn_h2d s) (rn_d2h s)
  (rn_deferred s) (rn_intervals s) (rn_outstanding s) (rn_cursor s) (rn_current s) (rn_evictions s) (rn_override s).
Definition with_lane (d : TransferDirection) x s :=
  match d with
  | from_slow => mkRun (rn_dev s) (rn_ledger s) (rn_pool s) (rn_table s) (rn_trace s) x (rn_d2h s)
      (rn_deferred s) (rn_intervals s) (rn_outstanding s) (rn_cursor s) (rn_current s) (rn_evictions s) (rn_override s)
  | to_slow => mkRun (rn_dev s) (rn_ledger s) (rn_pool s) (rn_table s) (rn_trace s) (rn_h2d s) x
      (rn_deferred s) (rn_intervals s) (rn_outstanding s) (rn_cursor s) (rn_current s) (rn_evictions s) (rn_override s)
  end.
Definition with_deferred x s := mkRun (rn_dev s) (rn_ledger s) (rn_pool s) (rn_table s) (rn_trace s) (rn_h2d s) (rn_d2h s)
  x (rn_intervals s) (rn_outstanding s) (rn_cursor s) (rn_current s) (rn_evictions s) (rn_override s).
Definition with_intervals x s := mkRun (rn_dev s) (rn_ledger s) (rn_pool s) (rn_table s) (rn_trace s) (rn_h2d s) (rn_d2h s)
  (rn_deferred s) x (rn_outstanding s) (rn_cursor s) (rn_current s) (rn_evictions s) (rn_override s).
Definition with_outstanding x s := mkRun (rn_dev s) (rn_ledger s) (rn_pool s) (rn_table s) (rn_trace s) (rn_h2d s) (rn_d2h s)
  (rn_deferred s) (rn_intervals s) x (rn_cursor s) (rn_current s) (rn_evictions s) (rn_override s).
Definition with_cursor pos tid s := mkRun (rn_dev s) (rn_ledger s) (rn_pool s) (rn_table s) (rn_trace s) (rn_h2d s) (rn_d2h s)
  (rn_deferred s) (rn_intervals s) (rn_outstanding s) pos tid (rn_evictions s) (rn_override s).
Definition count_eviction s := mkRun (rn_dev s) (rn_ledger s) (rn_pool s) (rn_table s) (rn_trace s) (rn_h2d s) (rn_d2h s)
  (rn_deferred s) (rn_intervals s) (rn_outstanding s) (rn_cursor s) (rn_current s) (S (rn_evictions s)) (rn_override s).
Definition with_override x s := mkRun (rn_dev s) (rn_ledger s) (rn_pool s) (rn_table s) (rn_trace s) (rn_h2d s) (rn_d2h s)
  (rn_deferred s) (rn_intervals s) (rn_outstanding s) (rn_cursor s) (rn_current s) (rn_evictions s) x.

Definition lane (d : TransferDirection) s : Lane T := match d with from_slow => rn_h2d s | to_slow => rn_d2h s end.

(** ** Lifting *)
Definition on_device {A} (m : M (Fake T (Token T)) DeviceError A) : RM A := λ s,
  match m (rn_dev s) with
  | (Ok a, d) => (Ok a, with_dev d s)
  | (Err e, d) => (Err (DeviceFailure e), with_dev d s)
  end.

Definition on_pools {A} (m : M (PS T (Token T)) PoolError A) : RM A := λ s,
  match m (rn_dev s, rn_pool s) with
  | (Ok a, (d, p)) => (Ok a, with_pool p (with_dev d s))
  | (Err e, (d, p)) => (Err (PoolFailure e), with_pool p (with_dev d s))
  end.

(** [_on_ledger_change]: the fast usage goes to the memory trace. *)
Definition traced_calls (t : T) (l : Ledger) : list (T * Z) :=
  omap (λ c : Location * Z, match c.1 with Fast => Some (t, c.2) | _ => None end) (calls l).
Definition forget_calls (l : Ledger) : Ledger :=
  mkLedger (fast_capacity l) (backing_capacity l) (used_fast l) (used_backing l)
    (peak_fast_bytes l) (peak_backing_bytes l) (observed l) [].

Definition on_ledger {A} (m : M Ledger LedgerError A) : RM A := λ s,
  let '(r, l) := m (rn_ledger s) in
  let tr := rn_trace s in
  let s := with_trace (mkTrace (raw_intervals tr) (raw_events tr)
             (fast_trace tr ++ traced_calls (host_us (rn_dev s)) l) (trace_peak_fast tr))
             (with_ledger (forget_calls l) s) in
  match r with Ok a => (Ok a, s) | Err e => (Err (LedgerFailure e), s) end.

Definition ask_ledger {A} (f : Ledger → result LedgerError A) : RM A := λ s,
  (match f (rn_ledger s) with Ok a => Ok a | Err e => Err (LedgerFailure e) end, s).

(** [trace.add_event(backend.host_now_us(), kind, object_id, task_id, detail)]. *)
Definition add_event (kind : string) (oid tid : option string) (detail : string) : RM unit :=
  modify (λ s, let tr := rn_trace s in
    with_trace (mkTrace (raw_intervals tr)
      (raw_events tr ++ [mkTraceEvent (host_us (rn_dev s)) kind oid tid detail])
      (fast_trace tr) (trace_peak_fast tr)) s).

Definition add_interval (iv : TaskInterval T) : RM unit :=
  modify (λ s, let tr := rn_trace s in
    with_trace (mkTrace (raw_intervals tr ++ [iv]) (raw_events tr) (fast_trace tr) (trace_peak_fast tr)) s).

(** [max((r[2] for r in raw_intervals), default=0.0)]. *)
Definition makespan_us (tr : RunTrace T) : T :=
  match iv_end <$> raw_intervals tr with
  | [] => num_zero
  | t :: ts => foldl num_max t ts
  end.

(** [table.get(oid)]. *)
Definition get_rec (oid : string) : RM (ObjectRecord T) :=
  s ← get;
  match table_get (rn_table s) oid with Some r => mret r | None => raise (UnknownObject oid) end.

(** The record of [oid], changed in place. *)
Definition put_rec (oid : string) (r : ObjectRecord T) : RM unit :=
  modify (λ s, with_table (assoc_set (rn_table s) oid r) s).

Definition set_lane (d : TransferDirection) (f : Lane T → Lane T) : RM unit :=
  modify (λ s, with_lane d (f (lane d s)) s).
End Store.
