(* ===== verification/Transfers.v ===== *)
(** * The transfer engines ([dataflow/runtime/transfers.py])

    One lane per direction over the shared store: a FIFO queue and at most one
    transfer in flight.  A queued job owns no destination bytes until
    [try_start] starts it. *)
From S2P Require Import Prelude SimSchema CoreProgram Ledger Placement Device Objects Pool RunState.
From stdpp Require Import base tactics option list gmap strings pretty.
From Stdlib Require Import ZArith Lia.
Open Scope Z_scope.

(** The fields of the two engines that a run does not change, and the debug
    switch of the engine. *)
Record Config := mkConfig {
  cf_compute : Stream;
  cf_h2d_stream : Stream;
  cf_d2h_stream : Stream;
  cf_bandwidth_from_slow : option Z;
  cf_bandwidth_to_slow : option Z;
  cf_poison_on_free : bool;
}.

Definition cf_stream (d : TransferDirection) (c : Config) : Stream :=
  match d with from_slow => cf_h2d_stream c | to_slow => cf_d2h_stream c end.
Definition cf_bandwidth (d : TransferDirection) (c : Config) : option Z :=
  match d with from_slow => cf_bandwidth_from_slow c | to_slow => cf_bandwidth_to_slow c end.

Section Transfers.
Context {T : Type} `{Num T} (cfg : Config).

Abbreviation RM := (M (Run T) RunError).

Definition transfer_runtime_us (d : TransferDirection) (oid : string) (size : Z) (override : option T) :
    result RunError T :=
  match override with
  | Some r => Ok (num_max r num_zero)
  | None =>
      match cf_bandwidth d cfg with
      | None => Err (TransferError d oid)
      | Some bw => if bw <=? 0 then Err (TransferError d oid)
                   else Ok (num_of_Z (Z.max ((size + bw - 1) / bw) 1))
      end
  end.

(** The debug hook [poison(buffer)]. *)
Definition poison (b : Buffer) : RM unit :=
  if cf_poison_on_free cfg then
    match b_location b with
    | Fast =>
        on_device (memset_async b 255 (cf_compute cfg)) ;;
        e ← on_device (record_event (cf_compute cfg));
        on_device (modify (set_guard b (OneGuard e)))
    | _ => mret tt
    end
  else mret tt.

Definition enqueue (d : TransferDirection) (job : TransferJob T) : RM unit :=
  set_lane d (λ l, mkLane (ln_queue l ++ [job]) (ln_inflight l) (ln_name_seq l)) ;;
  add_event "transfer_enqueue" (Some (tj_object_id job)) (Some (tj_fired_by_task job)) (dir_name d).

Definition pop_head (d : TransferDirection) : RM unit :=
  set_lane d (λ l, mkLane (tail (ln_queue l)) (ln_inflight l) (ln_name_seq l)).

Definition set_inflight (d : TransferDirection) (j : option (TransferJob T)) : RM unit :=
  set_lane d (λ l, mkLane (ln_queue l) j (ln_name_seq l)).

Definition interval_name (d : TransferDirection) (oid : string) : RM string :=
  s ← get;
  let seq := default 0%nat (ln_name_seq (lane d s) !! oid) in
  set_lane d (λ l, mkLane (ln_queue l) (ln_inflight l) (<[oid := S seq]> (ln_name_seq l))) ;;
  let base := dir_name d +:+ ":" +:+ oid in
  mret (if (seq =? 0)%nat then base else base +:+ "#" +:+ pretty seq).

(** Future work on the lane's stream waits for each guard of the buffer. *)
Definition wait_guards (d : TransferDirection) (b : Buffer) : RM unit :=
  s ← get;
  match guard_event b (rn_dev s) with
  | NoGuard => mret tt
  | OneGuard e => on_device (stream_wait_event (cf_stream d cfg) e) ;; on_device (modify (set_guard b NoGuard))
  | GuardTuple es =>
      forM_ es (λ e, on_device (stream_wait_event (cf_stream d cfg) e)) ;;
      on_device (modify (set_guard b NoGuard))
  end.

(** The common end of [try_start]: enqueue the copy and its completion token. *)
Definition launch_copy (d : TransferDirection) (job : TransferJob T) (dst src : Buffer)
    (src_ready : option (Event T)) : RM unit :=
  let st := cf_stream d cfg in
  on_device (stream_wait_event st (tj_anchor_event job)) ;;
  (match src_ready with Some e => on_device (stream_wait_event st e) | None => mret tt end) ;;
  wait_guards d dst ;;
  on_device (align_stream_to_host st) ;;
  start ← on_device (record_event st);
  duration ← lift (transfer_runtime_us d (tj_object_id job) (tj_size_bytes job) (tj_runtime_override job));
  on_device (memcpy_async dst src (tj_size_bytes job) st (Some duration)) ;;
  done ← on_device (record_event st);
  name ← interval_name d (tj_object_id job);
  let job := mkJob (tj_object_id job) (tj_size_bytes job) (tj_runtime_override job) (tj_anchor_event job)
               (tj_fired_by_task job) (Some start) (Some done) name (tj_version job) in
  let priority := match d with from_slow => PRIORITY_H2D_DONE | to_slow => PRIORITY_D2H_DONE end in
  on_device (notify_after st done (TransferDone d job) priority) ;;
  set_inflight d (Some job).

Definition with_job_version (v : Z) (job : TransferJob T) : TransferJob T :=
  mkJob (tj_object_id job) (tj_size_bytes job) (tj_runtime_override job) (tj_anchor_event job)
    (tj_fired_by_task job) (tj_start_event job) (tj_done_event job) (tj_interval_name job) v.

(** A prefetch: the fast copy is reserved, charged and filled. *)
Definition start_prefetch (job : TransferJob T) (r : ObjectRecord T) (src : Slot T) (escape : bool) : RM unit :=
  let oid := tj_object_id job in
  let size := tj_size_bytes job in
  ok ← ask_ledger (can_reserve Fast size);
  if negb ok then mret tt
  else
    p ← gets rn_pool;
    let blocked := negb (can_get Fast size (Some oid) p) in
    if blocked && negb escape then mret tt
    else
      pop_head from_slow ;;
      on_ledger (charge Fast size) ;;
      add_event "transfer_reserve" (Some oid) None (dir_name from_slow) ;;
      dst ← (if blocked then on_pools (get_escaped Fast size oid)
             else on_pools (pool_get Fast size (Some oid)));
      put_rec oid (set_slot Fast (Some (mkSlot dst Inbound (sl_version src) None)) r) ;;
      launch_copy from_slow (with_job_version (sl_version src) job) dst (sl_buffer src) (sl_ready_event src).

(** An offload: onto the existing backing copy, or onto a new one. *)
Definition start_offload (job : TransferJob T) (r : ObjectRecord T) (src : Slot T) : RM unit :=
  let oid := tj_object_id job in
  let size := tj_size_bytes job in
  ok ← ask_ledger (can_reserve Backing (match or_backing r with Some _ => 0 | None => size end));
  if negb ok then mret tt
  else
    pop_head to_slow ;;
    dst ← (match or_backing r with
           | None =>
               on_ledger (charge Backing size) ;;
               dst ← on_pools (pool_get Backing size None);
               put_rec oid (set_slot Backing (Some (mkSlot dst Inbound (sl_version src) None)) r) ;;
               mret dst
           | Some existing =>
               put_rec oid (set_slot Backing
                 (Some (with_version (sl_version src) (with_state Inbound existing))) r) ;;
               mret (sl_buffer existing)
           end);
    r ← get_rec oid;
    put_rec oid (set_slot Fast (Some (with_state Outbound src)) r) ;;
    launch_copy to_slow (with_job_version (sl_version src) job) dst (sl_buffer src) (sl_ready_event src).

Definition try_start_with (escape : bool) (d : TransferDirection) : RM unit :=
  s ← get;
  match ln_inflight (lane d s), ln_queue (lane d s) with
  | None, job :: _ =>
      r ← get_rec (tj_object_id job);
      match d with
      | from_slow =>
          match or_backing r with
          | None => raise (TransferError from_slow (tj_object_id job))
          | Some src => start_prefetch job r src escape
          end
      | to_slow =>
          match or_fast r with
          | None => raise (TransferError to_slow (tj_object_id job))
          | Some src => start_offload job r src
          end
      end
  | _, _ => mret tt
  end.
Definition try_start : TransferDirection → RM unit := try_start_with false.

(** [h2d.escape_blocked_head()]. *)
Definition escape_blocked_head : RM bool :=
  s ← get;
  match ln_inflight (rn_h2d s), ln_queue (rn_h2d s) with
  | None, job :: _ =>
      ok ← ask_ledger (can_reserve Fast (tj_size_bytes job));
      if negb ok then mret false
      else if can_get Fast (tj_size_bytes job) (Some (tj_object_id job)) (rn_pool s) then mret false
      else
        try_start_with true from_slow ;;
        s ← get;
        mret (bool_decide (is_Some (ln_inflight (rn_h2d s))))
  | _, _ => mret false
  end.

(** [self.inflight is job]: a job in flight is known by its done event, whose
    id no other event has. *)
Definition is_inflight (d : TransferDirection) (job : TransferJob T) (s : Run T) : bool :=
  match ln_inflight (lane d s) with
  | Some j => bool_decide (ev_id <$> tj_done_event j = ev_id <$> tj_done_event job)
  | None => false
  end.

Definition complete (d : TransferDirection) (job : TransferJob T) : RM unit :=
  let oid := tj_object_id job in
  s ← get;
  check (is_inflight d job s) (Assertion "completion for a job that is not in flight") ;;
  r ← get_rec oid;
  (match d with
   | from_slow =>
       match or_fast r with
       | None => raise (Assertion "slot is not None")
       | Some sl => put_rec oid (set_slot Fast (Some (with_ready (tj_done_event job) (with_state Live sl))) r)
       end
   | to_slow =>
       match or_fast r with
       | Some fast =>
           check (bool_decide (sl_state fast = Outbound)) (Assertion "fast.state == outbound") ;;
           on_ledger (ledger_release Fast (tj_size_bytes job)) ;;
           poison (sl_buffer fast) ;;
           on_pools (put (sl_buffer fast)) ;;
           put_rec oid (set_slot Fast None r) ;;
           match or_backing r with
           | None => raise (Assertion "backing is not None")
           | Some b =>
               put_rec oid (set_slot Backing
                 (Some (with_ready (tj_done_event job) (with_state Live b))) (set_slot Fast None r))
           end
       | None => raise (Assertion "fast is not None")
       end
   end) ;;
  set_inflight d None ;;
  match tj_start_event job, tj_done_event job with
  | Some se, Some de =>
      modify (λ s, with_intervals (rn_intervals s ++ [(tj_interval_name job, se, de, track_of d)]) s) ;;
      add_event "transfer_end" (Some oid) None (dir_name d)
  | _, _ => raise (Assertion "events recorded")
  end.
End Transfers.
