(* ===== verification/Engine.v ===== *)
(** * The dataflow engine ([dataflow/runtime/engine.py])

    The dispatcher, the token handlers, the eviction valve, the run boundary
    and the session, over the virtual-clock backend.  Left out are the
    profilers and statistics (off unless an environment variable asks for
    them), the annotator and the VMM arena.  [resolver] gives a task's
    executable; [cancelled] is what [cancel_event.is_set()] answers before
    each task. *)
From S2P Require Import Prelude SimSchema CoreProgram CoreValidate Ledger Placement Device Objects Pool RunState.
From S2P Require Import Transfers.
From stdpp Require Import base tactics option list gmap strings pretty.
From Stdlib Require Import ZArith Lia.
Open Scope Z_scope.

(** ** Dispatch indices *)
Record ChainIndex := mkChainIndex {
  ci_last_ref : gmap string Z;
  ci_task_index : gmap string Z;
  ci_uses : gmap string (list Z);
  ci_directives : gmap string (list Z);
}.

(** [d.setdefault(k, []).append(i)]. *)
Definition push_pos (i : Z) (m : gmap string (list Z)) (k : string) : gmap string (list Z) :=
  <[k := default [] (m !! k) ++ [i]]> m.
Definition mark_pos (i : Z) (m : gmap string Z) (k : string) : gmap string Z := <[k := i]> m.

Definition index_task {T} (c : ChainIndex) (i : Z) (t : TaskSpec T) : ChainIndex :=
  let offs := td_object_id <$> ts_offload_after t in
  let pres := td_object_id <$> ts_prefetch_after t in
  mkChainIndex
    (foldl (mark_pos i) (ci_last_ref c) (ts_inputs t ++ offs ++ pres))
    (<[ts_id t := i]> (ci_task_index c))
    (foldl (push_pos i) (ci_uses c) (ts_inputs t))
    (foldl (push_pos i) (ci_directives c) (ts_releases_after t ++ offs ++ pres)).

Fixpoint index_tasks {T} (c : ChainIndex) (i : Z) (ts : list (TaskSpec T)) : ChainIndex :=
  match ts with [] => c | t :: ts => index_tasks (index_task c i t) (i + 1) ts end.

Definition build_chain_index {T} (p : Program T) : ChainIndex :=
  index_tasks (mkChainIndex ∅ ∅ ∅ ∅) 0 (p_tasks p).

Section Engine.
Context {T : Type} `{Num T}.

Abbreviation RM := (M (Run T) RunError).

(** An executable enqueues the work of a task, or raises. *)
Definition Launch : Type := TaskContext T → M (Fake T (Token T)) string unit.

Definition on_launch (m : M (Fake T (Token T)) string unit) : RM unit := λ s,
  match m (rn_dev s) with
  | (Ok a, d) => (Ok a, with_dev d s)
  | (Err e, d) => (Err (TaskRaised e), with_dev d s)
  end.

(** [synthetic_resolver]: a task of its planned runtime. *)
Definition synthetic_resolver (task : TaskSpec T) : Launch := λ ctx d,
  match advance_stream (tc_stream ctx) (ts_runtime_us task) d with
  | (Ok _, d) => (Ok tt, d)
  | (Err _, d) => (Err ""%string, d)
  end.

Context (cfg : Config) (chain : ChainIndex) (ntasks : nat)
  (final_locations : list (string * Location)) (provided : list nat).

(** ** Token handlers ([_RunState]) *)

(** Outputs become live. *)
Definition output_live (done_ : Event T) (out : OutputSpec) : RM unit :=
  r ← get_rec (ous_id out);
  match slot (ous_location out) r with
  | Some sl =>
      check (bool_decide (sl_state sl = Reserved)) (Assertion "slot.state == reserved") ;;
      put_rec (ous_id out) (set_slot (ous_location out)
        (Some (with_ready (Some done_) (with_state Live sl))) r)
  | None => raise (Assertion "slot is not None")
  end.

(** Mutations advance the version. *)
Definition mutate_one (task : TaskSpec T) (done_ : Event T) (oid : string) : RM unit :=
  r ← get_rec oid;
  let v := or_version r + 1 in
  put_rec oid (set_version v r) ;;
  match or_fast r with
  | None => raise (Assertion "rec.fast is not None")
  | Some sl =>
      put_rec oid (set_slot Fast (Some (with_ready (Some done_) (with_version v sl))) (set_version v r)) ;;
      add_event "mutate" (Some oid) (Some (ts_id task)) ""
  end.

(** [task_index[task.id] >= last_ref.get(obj, -1) and obj not in final_locations]. *)
Definition dead_everywhere (tid oid : string) : result RunError bool :=
  match ci_task_index chain !! tid with
  | None => Err (UnknownObject tid)
  | Some i => Ok ((default (-1) (ci_last_ref chain !! oid) <=? i) &&
                  negb (bool_decide (oid ∈ fst <$> final_locations)))
  end.

(** The backing copy of a dead object. *)
Definition release_backing (oid : string) (r : ObjectRecord T) (sl : Slot T) : RM unit :=
  on_ledger (ledger_release Backing (or_size_bytes r)) ;;
  put_rec oid (set_slot Backing None r) ;;
  when (negb (bool_decide (b_ref (sl_buffer sl) ∈ provided))) (on_pools (put (sl_buffer sl))).

Definition release_one (task : TaskSpec T) (oid : string) : RM unit :=
  r ← get_rec oid;
  match or_fast r with
  | Some sl =>
      check (bool_decide (sl_state sl = Live)) (ExecutionError (CannotRelease (ts_id task) oid (Some (sl_state sl)))) ;;
      on_ledger (ledger_release Fast (or_size_bytes r)) ;;
      poison cfg (sl_buffer sl) ;;
      on_pools (put (sl_buffer sl)) ;;
      let r := set_slot Fast None r in
      put_rec oid r ;;
      dead ← lift (dead_everywhere (ts_id task) oid);
      (match or_backing r with
       | Some bs => when (dead && bool_decide (sl_state bs = Live)) (release_backing oid r bs)
       | None => mret tt
       end) ;;
      add_event "release" (Some oid) (Some (ts_id task)) ""
  | None => raise (ExecutionError (CannotRelease (ts_id task) oid None))
  end.

Definition make_job (task : TaskSpec T) (trig : TransferDirective T) (size : Z) (anchor : Event T) : TransferJob T :=
  mkJob (td_object_id trig) size (td_runtime_us trig) anchor (ts_id task) None None "" 0.

Definition offload_one (task : TaskSpec T) (done_ : Event T) (trig : TransferDirective T) : RM unit :=
  let oid := td_object_id trig in
  let tid := ts_id task in
  r ← get_rec oid;
  match or_fast r with
  | Some src =>
      check (bool_decide (sl_state src = Live)) (ExecutionError (CannotOffload tid oid (Some (sl_state src)))) ;;
      (match or_backing r with
       | Some existing =>
           check (bool_decide (sl_state existing = Live))
             (ExecutionError (OffloadOntoNonLive tid oid (sl_state existing))) ;;
           check (b_size_bytes (sl_buffer existing) =? or_size_bytes r)
             (ExecutionError (OffloadSizeMismatch tid oid))
       | None => mret tt
       end) ;;
      put_rec oid (set_slot Fast (Some (with_state PendingOutbound src)) r) ;;
      enqueue to_slow (make_job task trig (or_size_bytes r) done_)
  | None => raise (ExecutionError (CannotOffload tid oid None))
  end.

Definition slot_in (sts : list SlotState) (o : option (Slot T)) : bool :=
  match o with Some sl => bool_decide (sl_state sl ∈ sts) | None => false end.

Definition prefetch_one (task : TaskSpec T) (done_ : Event T) (trig : TransferDirective T) : RM unit :=
  let oid := td_object_id trig in
  let tid := ts_id task in
  r ← get_rec oid;
  (match or_fast r with
   | Some dev => check (negb (bool_decide (sl_state dev ∈ [Live; Inbound])))
                   (ExecutionError (PrefetchOntoCopy tid oid (sl_state dev)))
   | None => mret tt
   end) ;;
  let offload_in_flight := slot_in [PendingOutbound; Outbound] (or_fast r) ||
                           slot_in [PendingInbound; Inbound] (or_backing r) in
  let job := make_job task trig (or_size_bytes r) done_ in
  modify (λ s, with_override (<[oid := td_runtime_us trig]> (rn_override s)) s) ;;
  if offload_in_flight then
    modify (λ s, with_deferred (assoc_set (rn_deferred s) oid
      (default [] (assoc_get (rn_deferred s) oid) ++ [job])) s) ;;
    add_event "transfer_deferred" (Some oid) (Some tid) ""
  else
    check (slot_in [Live] (or_backing r)) (ExecutionError (NoBackingSource tid oid (sl_state <$> or_backing r))) ;;
    enqueue from_slow job.

Definition on_task_done (task : TaskSpec T) (start_ done_ : Event T) : RM unit :=
  modify (λ s, if bool_decide (rn_outstanding s = Some (ts_id task)) then with_outstanding None s else s) ;;
  forM_ (ts_outputs task) (output_live done_) ;;
  forM_ (ts_mutates task) (mutate_one task done_) ;;
  modify (λ s, with_intervals (rn_intervals s ++ [(ts_id task, start_, done_, track_compute)]) s) ;;
  forM_ (ts_releases_after task) (release_one task) ;;
  forM_ (ts_offload_after task) (offload_one task done_) ;;
  forM_ (ts_prefetch_after task) (prefetch_one task done_) ;;
  try_start cfg from_slow ;;
  try_start cfg to_slow.

Definition on_transfer_done (d : TransferDirection) (job : TransferJob T) : RM unit :=
  complete cfg d job ;;
  match d with
  | from_slow => try_start cfg from_slow
  | to_slow =>
      s ← get;
      modify (λ s, with_deferred (assoc_del (rn_deferred s) (tj_object_id job)) s) ;;
      forM_ (default [] (assoc_get (rn_deferred s) (tj_object_id job))) (enqueue from_slow) ;;
      try_start cfg to_slow ;;
      try_start cfg from_slow
  end.

Definition handle (token : Token T) : RM unit :=
  match token with
  | TaskDone task s d => on_task_done task s d
  | TransferDone d job => on_transfer_done d job
  end.

(** ** The eviction valve *)

(** The position of the next use of a clean resident that the plan does not
    touch before that use. *)
Definition next_use (exclude : list string) (cursor : Z) (oid : string) (r : ObjectRecord T) :
    option Z :=
  match or_fast r, or_backing r with
  | Some fast, Some backing =>
      if bool_decide (oid ∈ exclude) || negb (bool_decide (sl_state fast = Live)) ||
         negb (bool_decide (sl_state backing = Live)) ||
         negb (sl_version fast =? or_version r) || negb (sl_version backing =? or_version r)
      then None
      else
        match ci_uses chain !! oid with
        | None => None
        | Some uses =>
            match last uses with
            | None => None
            | Some u =>
                if u <? cursor then None
                else
                  nxt ← uses !! bisect_left uses cursor;
                  let dirs := default [] (ci_directives chain !! oid) in
                  if (bisect_left dirs cursor <? bisect_left dirs nxt)%nat then None else Some nxt
            end
        end
  | _, _ => None
  end.

(** The farthest next use, the larger object on ties, the first on equal keys. *)
Definition better_victim (best : option (Z * Z * string * ObjectRecord T)) (nxt : Z) (oid : string)
    (r : ObjectRecord T) : option (Z * Z * string * ObjectRecord T) :=
  let here := Some (nxt, or_size_bytes r, oid, r) in
  match best with
  | None => here
  | Some (n, sz, _, _) =>
      if (n <? nxt) || ((n =? nxt) && (sz <? or_size_bytes r)) then here else best
  end.

Definition find_victim (exclude : list string) (cursor : Z) (tb : Table T) :
    option (Z * Z * string * ObjectRecord T) :=
  foldl (λ best kv, match next_use exclude cursor kv.1 kv.2 with
                    | Some nxt => better_victim best nxt kv.1 kv.2
                    | None => best
                    end) None tb.

(** [_evict_for_pressure]: was a victim evicted? *)
Definition evict_for_pressure (exclude : list string) : RM bool :=
  s ← get;
  if (10 * ntasks <=? rn_evictions s)%nat then mret false
  else
    match find_victim exclude (Z.of_nat (rn_cursor s)) (rn_table s) with
    | None => mret false
    | Some (nxt, size, oid, r) =>
        match or_fast r with
        | None => mret false (* a victim is resident *)
        | Some sl =>
            on_ledger (ledger_release Fast size) ;;
            poison cfg (sl_buffer sl) ;;
            on_pools (put (sl_buffer sl)) ;;
            put_rec oid (set_slot Fast None r) ;;
            modify count_eviction ;;
            add_event "pressure_evict" (Some oid) (rn_current s) ("next_use_task=" +:+ pretty nxt) ;;
            anchor ← on_device (record_event (cf_h2d_stream cfg));
            enqueue from_slow (mkJob oid size (default None (rn_override s !! oid)) anchor
              (match rn_current s with Some "" | None => "pressure_evict" | Some t => t end)
              None None "" 0) ;;
            mret true
        end
    end.

Definition no_token (exclude : list string) (pump_h2d : bool) : RM unit :=
  s ← get;
  let pump := pump_h2d && negb (bool_decide (is_Some (ln_inflight (rn_h2d s)))) &&
              negb (bool_decide (length (ln_queue (rn_h2d s)) = 0%nat)) in
  started ← (if pump then try_start cfg from_slow ;; gets (λ s, bool_decide (is_Some (ln_inflight (rn_h2d s))))
             else mret false);
  if (started : bool) then mret tt
  else
    escaped ← escape_blocked_head cfg;
    if (escaped : bool) then
      s ← get;
      add_event "placement_escape" (tj_object_id <$> ln_inflight (rn_h2d s)) None "from_slow head"
    else
      evicted ← evict_for_pressure exclude;
      if (evicted : bool) then mret tt else raise DeadlockError.

Definition step (exclude : list string) (pump_h2d : bool) : RM unit :=
  token ← on_device next_completion;
  match token with
  | Some token => handle token
  | None => no_token exclude pump_h2d
  end.

(** ** Progress measure: the fuel of the loops below *)
Definition token_weight (token : Token T) : nat :=
  match token with
  | TaskDone task _ _ => 1 + 2 * (length (ts_offload_after task) + length (ts_prefetch_after task))
  | TransferDone _ _ => 1
  end.

Definition measure (s : Run T) : nat :=
  sum_list (token_weight ∘ snd <$> pending (rn_dev s)) +
  2 * (length (ln_queue (rn_h2d s)) + length (ln_queue (rn_d2h s))) +
  2 * length (mjoin (rn_deferred s).*2) +
  3 * (10 * ntasks - rn_evictions s).

(** ** Dispatch *)

(** 0. retire the previous task. *)
Fixpoint wait_retired (fuel : nat) (exclude : list string) : RM unit :=
  match fuel with
  | O => raise OutOfFuel
  | S fuel =>
      o ← gets rn_outstanding;
      match o with
      | None => mret tt
      | Some _ => step exclude true ;; wait_retired fuel exclude
      end
  end.

(** 1. inputs host-observed live in fast memory. *)
Definition inputs_waiting (task : TaskSpec T) (s : Run T) : list string :=
  filter (λ oid, fast_state (rn_table s) oid ≠ Some Live) (ts_inputs task).

Fixpoint wait_inputs (fuel : nat) (task : TaskSpec T) : RM unit :=
  match fuel with
  | O => raise OutOfFuel
  | S fuel =>
      s ← get;
      match inputs_waiting task s with
      | [] => mret tt
      | _ => step (ts_inputs task) true ;; wait_inputs fuel task
      end
  end.

(** 2. fast capacity, and in assigned mode the offsets, for the outputs. *)
Definition out_total (l : Location) (task : TaskSpec T) : Z :=
  sumZ (ous_size_bytes <$> filter (λ o, ous_location o = l) (ts_outputs task)).

Definition busy_outputs (task : TaskSpec T) (escaped : list string) (p : Pool T (Token T)) : list string :=
  ous_id <$> filter (λ o, ous_location o = Fast ∧ ous_id o ∉ escaped ∧
                          can_get (ous_location o) (ous_size_bytes o) (Some (ous_id o)) p = false) (ts_outputs task).

(** The escaped outputs, and whether the reserve was ever blocked. *)
Fixpoint wait_reserve (fuel : nat) (task : TaskSpec T) (escaped : list string) (blocked : bool) :
    RM (list string * bool) :=
  match fuel with
  | O => raise OutOfFuel
  | S fuel =>
      can_res ← ask_ledger (can_reserve Fast (out_total Fast task));
      s ← get;
      let busy := busy_outputs task escaped (rn_pool s) in
      if can_res && bool_decide (busy = []) then mret (escaped, blocked)
      else
        token ← on_device next_completion;
        match token with
        | Some token => handle token ;; wait_reserve fuel task escaped blocked
        | None =>
            if (can_res : bool) then
              forM_ busy (λ oid, add_event "placement_escape" (Some oid) (Some (ts_id task)) "") ;;
              wait_reserve fuel task (escaped ++ busy) blocked
            else
              step (ts_inputs task) false ;;
              wait_reserve fuel task escaped true
        end
  end.

(** 4. reserve an output. *)
Definition reserve_output (task : TaskSpec T) (escaped : list string) (out : OutputSpec) : RM (string * Buffer) :=
  let l := ous_location out in
  on_ledger (charge l (ous_size_bytes out)) ;;
  b ← (if bool_decide (ous_id out ∈ escaped) then on_pools (get_escaped l (ous_size_bytes out) (ous_id out))
       else on_pools (pool_get l (ous_size_bytes out) (Some (ous_id out))));
  s ← get;
  let '(r, tb) := table_add (new_record (ous_id out) (ous_size_bytes out) (ous_role out) (ous_tensor out)) (rn_table s) in
  modify (with_table tb) ;;
  check (negb (bool_decide (is_Some (slot l r)))) (ExecutionError (OutputCollides (ts_id task) (ous_id out) l)) ;;
  put_rec (ous_id out) (set_slot l (Some (mkSlot b Reserved (or_version r) None)) r) ;;
  add_event "reserve" (Some (ous_id out)) (Some (ts_id task)) "" ;;
  mret (ous_id out, b).

Fixpoint reserve_outputs (task : TaskSpec T) (escaped : list string) (outs : list OutputSpec)
    (acc : list (string * Buffer)) : RM (list (string * Buffer)) :=
  match outs with
  | [] => mret acc
  | out :: outs =>
      kb ← reserve_output task escaped out;
      reserve_outputs task escaped outs (assoc_set acc kb.1 kb.2)
  end.

(** 5. launch. *)
Definition input_buffer (tb : Table T) (oid : string) : result RunError (string * Buffer) :=
  match table_get tb oid with
  | None => Err (UnknownObject oid)
  | Some r => match or_fast r with Some sl => Ok (oid, sl_buffer sl) | None => Err (NotResident oid) end
  end.

Fixpoint mapR {E A B} (f : A → result E B) (l : list A) : result E (list B) :=
  match l with [] => Ok [] | x :: l => y ← f x; ys ← mapR f l; Ok (y :: ys) end.

(** A dict from its items: a later item replaces an earlier one of its key. *)
Definition dict_of {A} (items : list (string * A)) : list (string * A) :=
  foldl (λ d kv, assoc_set d kv.1 kv.2) [] items.

Definition launch_task (resolver : TaskSpec T → Launch) (task : TaskSpec T)
    (outs : list (string * Buffer)) : RM unit :=
  s ← get;
  items ← lift (mapR (input_buffer (rn_table s)) (ts_inputs task));
  let ins := dict_of items in
  muts ← lift (mapR (λ oid, match assoc_get ins oid with Some b => Ok (oid, b) | None => Err (UnknownObject oid) end)
                 (ts_mutates task));
  on_device (align_stream_to_host (cf_compute cfg)) ;;
  start ← on_device (record_event (cf_compute cfg));
  on_launch (resolver task (mkContext task (cf_compute cfg) ins outs (dict_of muts))) ;;
  done ← on_device (record_event (cf_compute cfg));
  on_device (notify_after (cf_compute cfg) done (TaskDone task start done) PRIORITY_TASK_DONE) ;;
  modify (with_outstanding (Some (ts_id task))).

Definition dispatch_task (resolver : TaskSpec T → Launch) (cancelled : nat → bool)
    (pos : nat) (task : TaskSpec T) : RM unit :=
  check (negb (cancelled pos)) (CancelledRun (ts_id task) pos) ;;
  check (negb (ts_host task)) (ExecutionError (HostTask (ts_id task))) ;;
  modify (with_cursor pos (Some (ts_id task))) ;;
  n ← gets measure; wait_retired (S n) (ts_inputs task) ;;
  n ← gets measure; wait_inputs (S n) task ;;
  n ← gets measure;
  eb ← wait_reserve (S n + length (ts_outputs task)) task [] false;
  ok ← ask_ledger (can_reserve Backing (out_total Backing task));
  check ok (ExecutionError (BackingFull (ts_id task) (out_total Backing task))) ;;
  outs ← reserve_outputs task eb.1 (ts_outputs task) [];
  when eb.2 (try_start cfg from_slow) ;;
  launch_task resolver task outs.

(** ** Drain and terminal checks *)
Fixpoint drain_tokens (fuel : nat) : RM unit :=
  match fuel with
  | O => raise OutOfFuel
  | S fuel =>
      token ← on_device next_completion;
      match token with
      | None => mret tt
      | Some token => handle token ;; drain_tokens fuel
      end
  end.

Definition materialize : RM unit :=
  ivs ← gets rn_intervals;
  forM_ ivs (λ '(name, se, de, track),
    add_interval (mkInterval name (event_time_us se) (event_time_us de) track)) ;;
  modify (with_intervals []).

(** Not live at its final location, or stale there. *)
Definition violated (tb : Table T) (kv : string * Location) : bool :=
  match assoc_get tb kv.1 ≫= slot kv.2, assoc_get tb kv.1 with
  | Some sl, Some r => negb (bool_decide (sl_state sl = Live) && (sl_version sl =? or_version r))
  | _, _ => true
  end.
Definition final_violations (tb : Table T) : list string :=
  fst <$> filter (λ kv, violated tb kv = true) final_locations.

(** [pool.put] of every buffer still held that the caller did not provide. *)
Definition reclaim_slot (o : option (Slot T)) : RM unit :=
  match o with
  | Some sl => when (negb (bool_decide (b_ref (sl_buffer sl) ∈ provided))) (on_pools (put (sl_buffer sl)))
  | None => mret tt
  end.
Definition reclaim : RM unit :=
  tb ← gets rn_table;
  forM_ tb (λ kv, reclaim_slot (or_fast kv.2) ;; reclaim_slot (or_backing kv.2)).

(** The dispatch loop and everything after it, up to the result. *)
Definition run_tasks (resolver : TaskSpec T → Launch) (cancelled : nat → bool)
    (strict_final_locations : bool) (tasks : list (TaskSpec T)) : RM (list string) :=
  forI_ 0 tasks (dispatch_task resolver cancelled) ;;
  n ← gets measure; drain_tokens (S n) ;;
  materialize ;;
  s ← get;
  check (bool_decide (length (ln_queue (rn_h2d s)) = 0%nat) && bool_decide (length (ln_queue (rn_d2h s)) = 0%nat) &&
         bool_decide (length (rn_deferred s) = 0%nat)) DeadlockError ;;
  let violations := final_violations (rn_table s) in
  check (negb (strict_final_locations && negb (bool_decide (violations = []))))
    (ExecutionError (FinalViolated violations)) ;;
  reclaim ;;
  modify (λ s, let tr := rn_trace s in
    with_trace (mkTrace (raw_intervals tr) (raw_events tr) (fast_trace tr) (peak_fast_bytes (rn_ledger s))) s) ;;
  mret violations.
End Engine.
Arguments Launch : clear implicits.
