(* ===== verification/Execute.v ===== *)
(** * The run boundary ([Session], [RunScope] and [Engine.execute] of
    [dataflow/runtime/engine.py])

    Set-up of a run, its terminal cleanup, and the conversion of its failure
    into an outcome.  The world outlives runs: the backend, and the session
    with its pool and streams if there is one. *)
From S2P Require Import Prelude SimSchema CoreProgram CoreValidate Ledger Placement Device Objects Pool RunState.
From S2P Require Import Transfers Engine.
From stdpp Require Import base tactics option list gmap strings pretty.
From Stdlib Require Import ZArith Lia.
Open Scope Z_scope.

Section Execute.
Context {T : Type} `{Num T}.

Abbreviation RM := (M (Run T) RunError).
Abbreviation PoolT := (Pool T (Token T)).

Record Session := mkSession {
  se_pool : option PoolT;
  se_external_backing : option ((Z → M (Fake T (Token T)) DeviceError Buffer) *
                                (Buffer → M (Fake T (Token T)) DeviceError unit));
  se_slab_caps : list (Location * Z);
  se_streams : option (Stream * Stream * Stream);
  se_unrecoverable : bool;
}.

Record World := mkWorld {
  w_dev : Fake T (Token T);
  w_session : option Session;
}.

Abbreviation WM := (M World RunError).

(** The fields of an [Engine]. *)
Record EngineOpts := mkOpts {
  eo_validate : bool;
  eo_strict_final_locations : bool;
  eo_poison_on_free : bool;
}.

(** The arguments of [execute]. *)
Record ExecArgs := mkArgs {
  ea_resolver : TaskSpec T → Launch T;
  ea_initial_buffers : list (string * Buffer);
  ea_pool_prewarm : list ((Location * Z) * Z);
  ea_placement : option Placement;
  ea_record_placement : option PlacementRecorder;
  ea_cancelled : nat → bool;
  ea_chain : option ChainIndex;
}.

Inductive RunOutcome :=
| Succeeded
| Failed (e : RunError) (task_id : option string)
| Cancelled (e : RunError) (task_id : option string).

Record RunResult := mkResult {
  rr_trace : RunTrace T;
  rr_makespan_us : T;
  rr_peak_fast_bytes : Z;
  rr_peak_backing_bytes : Z;
  rr_final_location_violations : list string;
  rr_buffers_allocated : Z;
  rr_buffers_reused : Z;
  rr_slab_overflows : Z;
  rr_placement_escapes : Z;
  rr_pressure_evictions : nat;
  rr_pool_demand : gmap (Location * Z) Z;
  rr_objects : option (Table T);
  rr_owned_pool : option PoolT;
  rr_outcome : RunOutcome;
}.

(** ** Streams and pools *)
Definition in_world {A} (m : M (Fake T (Token T)) DeviceError A) : WM A := λ w,
  match m (w_dev w) with
  | (Ok a, d) => (Ok a, mkWorld d (w_session w))
  | (Err e, d) => (Err (DeviceFailure e), mkWorld d (w_session w))
  end.

Definition create_streams : WM (Stream * Stream * Stream) :=
  c ← in_world (create_stream Compute);
  h ← in_world (create_stream H2D);
  d ← in_world (create_stream D2H);
  mret (c, h, d).

Definition set_session (f : Session → Session) : WM unit :=
  modify (λ w, mkWorld (w_dev w) (f <$> w_session w)).

(** [Session.ensure_streams], or new streams without a session. *)
Definition run_streams : WM (Stream * Stream * Stream) :=
  w ← get;
  match w_session w ≫= se_streams with
  | Some sts => mret sts
  | None =>
      sts ← create_streams;
      set_session (λ se, mkSession (se_pool se) (se_external_backing se) (se_slab_caps se) (Some sts) (se_unrecoverable se)) ;;
      mret sts
  end.

(** The capacities the pool's slabs are made for: [caps] of [ensure_pool]. *)
Definition slab_caps (p : Program T) (placed : bool) : list (Location * Z) :=
  (match p_fast_memory_capacity p with Some c => if placed then [] else [(Fast, c)] | None => [] end) ++
  (match p_backing_memory_capacity p with Some c => [(Backing, c)] | None => [] end).

(** Slabs for the bounded locations that no external owner serves. *)
Definition add_slabs (caps : list (Location * Z)) (p : PoolT) : M (PS T (Token T)) PoolError unit :=
  forM_ caps (λ lc,
    if bool_decide (is_Some (assoc_get (external_alloc p) lc.1)) then mret tt
    else add_slab lc.1 lc.2 (match lc.1 with Fast => Z.min (3 * 1024 ^ 3) lc.2 | _ => 0 end)).

Definition on_world_pool {A} (p : PoolT) (m : M (PS T (Token T)) PoolError A) : WM PoolT := λ w,
  match m (w_dev w, p) with
  | (Ok _, (d, p)) => (Ok p, mkWorld d (w_session w))
  | (Err e, (d, _)) => (Err (PoolFailure e), mkWorld d (w_session w))
  end.

Definition fresh_pool (caps : list (Location * Z)) (p : PoolT) : WM PoolT :=
  w ← get;
  on_world_pool p (if physical (w_dev w) then add_slabs caps p else mret tt).

(** [Session.ensure_pool]. *)
Definition ensure_pool (se : Session) (program : Program T) (placed : bool) : WM PoolT :=
  let caps := slab_caps program placed in
  match se_pool se with
  | Some p => if bool_decide (caps = se_slab_caps se) then mret p else raise SessionMismatch
  | None =>
      p ← fresh_pool caps (match se_external_backing se with
                           | Some ext => set_external [(Backing, ext)] new_pool
                           | None => new_pool
                           end);
      set_session (λ se, mkSession (Some p) (se_external_backing se) caps (se_streams se) (se_unrecoverable se)) ;;
      mret p
  end.

Definition run_pool (program : Program T) (args : ExecArgs) : WM PoolT :=
  w ← get;
  let placed := bool_decide (is_Some (ea_placement args)) in
  p ← (match w_session w with
       | Some se => ensure_pool se program placed
       | None => fresh_pool (slab_caps program placed) new_pool
       end);
  on_world_pool (set_recorder (ea_record_placement args) p)
    (match placement p, ea_placement args with
     | None, Some pl => enable_placement pl
     | Some _, _ => reset_placement_epoch
     | None, None => mret tt
     end).

(** ** Initial objects *)

(** [_load_initial]; the copies to upload are returned. *)
Definition load_initial (initial_buffers : list (string * Buffer))
    (copies : list (Buffer * Buffer * Z)) (spec : ObjectSpec) : RM (list (Buffer * Buffer * Z)) :=
  let l := os_location spec in
  let size := os_size_bytes spec in
  s ← get;
  let '(r, tb) := table_add (new_record (os_id spec) size (os_role spec) (os_tensor spec)) (rn_table s) in
  modify (with_table tb) ;;
  check (negb (bool_decide (is_Some (slot l r)))) (ExecutionError (DuplicateInitial (os_id spec) l)) ;;
  on_ledger (charge l size) ;;
  let given := assoc_get initial_buffers (os_id spec) in
  (match given with
   | Some b => check (size <=? b_size_bytes b) (ExecutionError (InitialTooSmall (os_id spec) (b_size_bytes b) size))
   | None => mret tt
   end) ;;
  bc ← (match given with
        | Some b =>
            if bool_decide (b_location b = l) then mret (b, copies)
            else
              buf ← on_pools (pool_get l size (Some (os_id spec)));
              mret (buf, match l, b_location b with Fast, Backing => copies ++ [(buf, b, size)] | _, _ => copies end)
        | None =>
            buf ← on_pools (pool_get l size (Some (os_id spec)));
            mret (buf, copies)
        end);
  put_rec (os_id spec) (set_slot l (Some (mkSlot bc.1 Live 0 None)) r) ;;
  mret bc.2.

Fixpoint load_all (initial_buffers : list (string * Buffer)) (copies : list (Buffer * Buffer * Z))
    (specs : list ObjectSpec) : RM (list (Buffer * Buffer * Z)) :=
  match specs with
  | [] => mret copies
  | spec :: specs => copies ← load_initial initial_buffers copies spec; load_all initial_buffers copies specs
  end.

Definition setup_run (cfg : Config) (program : Program T) (args : ExecArgs) : RM unit :=
  (match ea_pool_prewarm args with [] => mret tt | demand => on_pools (prewarm demand) end) ;;
  copies ← load_all (ea_initial_buffers args) [] (p_initial_objects program);
  s ← get;
  when (negb (bool_decide (length copies = 0%nat)) && physical (rn_dev s))
    (forM_ copies (λ c, on_device (memcpy_async c.1.1 c.1.2 c.2 (cf_h2d_stream cfg) None) ;; mret tt) ;;
     on_device sync_all) ;;
  on_device mark_origin.

Definition empty_lane : Lane T := mkLane [] None ∅.

Definition initial_run (d : Fake T (Token T)) (program : Program T) (p : PoolT) : Run T :=
  mkRun d (new_ledger (p_fast_memory_capacity program) (p_backing_memory_capacity program) true) p []
    (mkTrace [] [] [] 0) empty_lane empty_lane [] [] None 0 None 0 ∅.

(** ** Outcomes *)

(** [ENGINE_INVARIANT_ERRORS]. *)
Definition is_invariant (e : RunError) : bool :=
  match e with
  | ExecutionError _ | DeadlockError | TransferError _ _ => true
  | LedgerFailure (OverCommit _ _ _ _) | LedgerFailure (NegativeUsage _ _) => true
  | _ => false
  end.

(** The fuel of the model is not an exception of the program. *)
Definition is_fuel (e : RunError) : bool := match e with OutOfFuel => true | _ => false end.

(** [make_failed_result]: the statistics are not filled in. *)
Definition failed_result (session : bool) (s : option (Run T)) (o : RunOutcome) : RunResult :=
  let tr := default (mkTrace [] [] [] 0) (rn_trace <$> s) in
  mkResult tr (makespan_us tr) 0 0 [] 0 0 0 0 0 ∅ (rn_table <$> s)
    (if session then None else rn_pool <$> s) o.

(** The [except] clauses of [execute]: cancelled, re-raised, or failed. *)
Definition conclude (session : bool) (s : option (Run T)) (e : RunError) : result RunError RunResult :=
  let task := s ≫= rn_current in
  match e with
  | CancelledRun _ _ => Ok (failed_result session s (Cancelled e task))
  | _ => if is_invariant e || is_fuel e then Err e else Ok (failed_result session s (Failed e task))
  end.

Definition success_result (session : bool) (s : Run T) (violations : list string) : RunResult :=
  let p := rn_pool s in
  mkResult (rn_trace s) (makespan_us (rn_trace s)) (peak_fast_bytes (rn_ledger s)) (peak_backing_bytes (rn_ledger s))
    violations (allocated_count p) (reused_count p) (slab_overflows p) (placement_escapes p) (rn_evictions s)
    (allocated_by_key p) (Some (rn_table s)) (if session then None else Some p) Succeeded.

(** [finish_failed]: drain, then reclaim ([invalidate] does nothing). *)
Definition finish_failed (provided : list nat) : RM unit :=
  on_device drain_aborted ;; reclaim provided.

(** The world after a run: the session keeps the pool. *)
Definition after_run (w : World) (s : Run T) : World :=
  mkWorld (rn_dev s) ((λ se, mkSession (Some (rn_pool s)) (se_external_backing se) (se_slab_caps se)
                         (se_streams se) (se_unrecoverable se)) <$> w_session w).

Definition prepare (opts : EngineOpts) (program : Program T) (args : ExecArgs) : WM (Config * PoolT) :=
  when (eo_validate opts)
    (λ w, (match validate_program program with Ok u => Ok u | Err e => Err (InvalidProgram e) end, w)) ;;
  sts ← run_streams;
  p ← run_pool program args;
  mret (mkConfig sts.1.1 sts.1.2 sts.2 (p_bandwidth_from_slow program) (p_bandwidth_to_slow program)
          (eo_poison_on_free opts), p).

(** The run proper: set-up, dispatch, and the cleanup of a failed dispatch. *)
Definition run_program (opts : EngineOpts) (program : Program T) (args : ExecArgs) (session : bool) (cfg : Config)
    (s0 : Run T) : result RunError RunResult * Run T :=
  let provided := b_ref <$> (ea_initial_buffers args).*2 in
  let chain := default (build_chain_index program) (ea_chain args) in
  match setup_run cfg program args s0 with
  | (Err e, s1) => (conclude session None e, s1)
  | (Ok _, s1) =>
      match run_tasks cfg chain (size (ci_task_index chain)) (p_final_locations program) provided
              (ea_resolver args) (ea_cancelled args) (eo_strict_final_locations opts) (p_tasks program) s1 with
      | (Ok violations, s2) => (Ok (success_result session s2 violations), s2)
      | (Err e, s2) =>
          match finish_failed provided s2 with
          | (Ok _, s3) => (conclude session (Some s3) e, s3)
          | (Err e', s3) => (Err e', s3)
          end
      end
  end.

Definition execute (opts : EngineOpts) (program : Program T) (args : ExecArgs) : WM RunResult := λ w,
  let session := bool_decide (is_Some (w_session w)) in
  if match w_session w with Some se => se_unrecoverable se | None => false end
  then (Err (ExecutionError Unrecoverable), w)
  else
    match prepare opts program args w with
    | (Err e, w1) => (conclude session None e, w1)
    | (Ok (cfg, p), w1) =>
        let '(r, s) := run_program opts program args session cfg (initial_run (w_dev w1) program p) in
        (r, after_run w1 s)
    end.
End Execute.
Arguments Session : clear implicits.
Arguments World : clear implicits.
Arguments ExecArgs : clear implicits.
Arguments RunResult : clear implicits.

(** ** A small run

    [x] is offloaded while [t1] runs and fetched back for [t2], which mutates
    it. *)
Definition sample_task (id : string) (ins : list string) (outs : list OutputSpec) (muts rel off pre : list string)
    (rt : Z) : TaskSpec Z :=
  mkTaskSpec id ins outs muts rt 0 "compute" None [] [] rel ((λ o, mkDirective o None) <$> off)
    ((λ o, mkDirective o None) <$> pre) None [] false.

Definition sample_program : Program Z :=
  mkProgram "sample" [mkObjectSpec "x" 100 Fast "other" None false; mkObjectSpec "w" 60 Backing "other" None false]
    [sample_task "t0" ["x"]%string [mkOutputSpec "a" 50 Fast "other" None] [] [] ["x"]%string ["w"]%string 5;
     sample_task "t1" ["a"]%string [mkOutputSpec "b" 100 Fast "other" None] [] ["a"]%string [] ["x"]%string 20;
     sample_task "t2" ["x"; "b"; "w"]%string [] ["x"]%string ["b"; "w"]%string ["x"]%string [] 7]
    [("x"%string, Backing)] (Some 270) (Some 400) (Some 10) (Some 10) [] [] SCHEMA_VERSION.

Definition sample_args : ExecArgs Z := mkArgs synthetic_resolver [] [] None None (λ _, false) None.
Definition sample_opts : EngineOpts := mkOpts true true true.
Definition sample_world : World Z := mkWorld (new_fake false None) None.

Example sample_run :
  (λ r, (rr_outcome r, rr_peak_fast_bytes r, (λ iv, (iv_id iv, iv_start iv, iv_end iv)) <$> raw_intervals (rr_trace r)))
    <$> fst (execute sample_opts sample_program sample_args sample_world)
  = Ok (Succeeded, 260,
        [("t0", 0, 5); ("from_slow:w", 5, 11); ("to_slow:x", 5, 15); ("t1", 15, 35); ("from_slow:x", 35, 45);
         ("t2", 45, 52); ("to_slow:x#1", 52, 62)])%string.
Proof. vm_compute. reflexivity. Qed.
