(* ===== verification/EngineTerm.v ===== *)
(** * Termination of the engine

    Every wait of the dispatcher ends: a round of [step] delivers a completion,
    starts a transfer, escapes a blocked one or evicts an object, and each
    takes from [measure].  A token weighs one more than what its handler can
    queue, a queued or deferred transfer two (its start registers a token of
    weight one), an eviction left three (it queues a reload).  So the fuel of the
    loops is never used up, and [execute] returns or raises for a reason of the
    program's own. *)
From S2P Require Import Prelude SimSchema CoreProgram CoreValidate Ledger Placement Device Objects Pool RunState.
From S2P Require Import Transfers Engine Execute.
From stdpp Require Import base tactics option list gmap strings pretty.
From Stdlib Require Import ZArith Lia.
Open Scope Z_scope.

(** ** The pool registers no completion *)
Section PoolQuiet.
Context {T Tok : Type} `{Num T}.
Implicit Types p : Pool T Tok.

(** An external allocator makes buffers; it does not touch the completions. *)
Definition quiet_external (ext : list (Location * ((Z → M (Fake T Tok) DeviceError Buffer) *
    (Buffer → M (Fake T Tok) DeviceError unit)))) : Prop :=
  ∀ l f, assoc_get ext l = Some f → ∀ n d b d', f.1 n d = (Ok b, d') → pending d' = pending d.

Context (w : list (Entry (T := T) (Tok := Tok)))
  (ext : list (Location * ((Z → M (Fake T Tok) DeviceError Buffer) * (Buffer → M (Fake T Tok) DeviceError unit)))).

Definition PQ (sp : PS T Tok) : Prop := pending sp.1 = w ∧ external_alloc sp.2 = ext.

Lemma keeps_on_pool f : (∀ p, external_alloc (f p) = external_alloc p) → keeps PQ (on_pool f).
Proof. intros Hf. apply keeps_modify. intros [d p] [H1 H2]. split; [done|]. simpl in *. by rewrite Hf. Qed.
Lemma keeps_on_dev {A} (m : M (Fake T Tok) DeviceError A) :
  (∀ d a d', m d = (Ok a, d') → pending d' = pending d) → keeps PQ (on_dev m).
Proof.
  intros Hm [d p] [H1 H2]. unfold wp, on_dev. simpl in *. destruct (m d) as [[a|e] d'] eqn:He; [|done].
  split; simpl; [|done]. by rewrite (Hm _ _ _ He).
Qed.
Lemma keeps_dev_lift {A} (r : result DeviceError A) : keeps PQ (on_dev (lift r)).
Proof. apply keeps_on_dev. unfold lift. intros d a d' Hr. by simplify_eq. Qed.
Lemma keeps_alloc l n : keeps PQ (on_dev (alloc l n)).
Proof.
  apply keeps_on_dev. intros d a d'. unfold alloc, add_alloc, new_ref, gets, get, modify, mbind, M_bind, mret, M_ret.
  simpl. destruct (alloc_bytes d !! l); simpl; [|done]. by intros [= <- <-].
Qed.
Lemma keeps_new_ref : keeps PQ (on_dev new_ref).
Proof. apply keeps_on_dev. intros d a d'. unfold new_ref, gets, modify, mbind, M_bind, mret, M_ret. by intros [= <- <-]. Qed.
Lemma keeps_dev_guard b g : keeps PQ (on_dev (modify (set_guard b g))).
Proof. apply keeps_on_dev. intros d a d'. unfold modify. by intros [= <- <-]. Qed.

Lemma external_set_slab r s p : external_alloc (set_slab_at r s p) = external_alloc p.
Proof. unfold set_slab_at. by destruct (slab_at r p), r. Qed.
End PoolQuiet.

#[export] Hint Resolve keeps_dev_lift keeps_alloc keeps_new_ref keeps_dev_guard : keeps.
#[export] Hint Extern 2 (keeps (PQ _ _) (on_pool _)) =>
  apply keeps_on_pool; intros; rewrite ?external_set_slab; repeat case_match; reflexivity : keeps.
#[export] Hint Extern 2 (keeps (PQ _ _) (the_pool _)) => apply keeps_gets : keeps.

Section PoolOps.
Context {T Tok : Type} `{Num T}.
Context (w : list (Entry (T := T) (Tok := Tok)))
  (ext : list (Location * ((Z → M (Fake T Tok) DeviceError Buffer) * (Buffer → M (Fake T Tok) DeviceError unit)))).
Hypothesis Hext : quiet_external ext.
Abbreviation calm m := (keeps (PQ (T:=T) (Tok:=Tok) w ext) m).

Lemma calm_slab_allocate r n : calm (slab_allocate r n).
Proof. unfold slab_allocate. keeps_tac. Qed.
Lemma calm_slab_free r o n : calm (slab_free r o n).
Proof. unfold slab_free. keeps_tac. Qed.
Lemma calm_make_buffer r o n q : calm (make_buffer r o n q).
Proof. unfold make_buffer. keeps_tac. Qed.
Hint Resolve calm_slab_allocate calm_slab_free calm_make_buffer : keeps.

Lemma calm_flush l : calm (flush l).
Proof.
  unfold flush. keeps_tac. generalize (@nil Buffer). match goal with kv : _ * list Buffer |- _ => generalize kv.2 end.
  intros stack. induction stack as [|b stack IH]; intros keep; simpl; [keeps_tac|].
  apply keeps_bind; [unfold flush_buffer; keeps_tac|auto].
Qed.
Hint Resolve calm_flush : keeps.

Lemma calm_get_dynamic l n : calm (get_dynamic l n).
Proof.
  apply keeps_gets_bind. intros [d p] [_ He]. simpl in *. unfold carve_buffer, carve_overflow.
  keeps_tac. apply keeps_on_dev. subst ext. eauto.
Qed.
Hint Resolve calm_get_dynamic : keeps.

Lemma calm_get_escaped l n tag : calm (get_escaped l n tag).
Proof. unfold get_escaped. keeps_tac. Qed.
Lemma calm_pool_get l n tag : calm (pool_get l n tag).
Proof. unfold pool_get, get_placed, inherit_guards. keeps_tac. Qed.
Lemma calm_put b : calm (put b).
Proof. unfold put, record_put. keeps_tac. Qed.
End PoolOps.

(** ** Computations that neither add nor take work *)
Definition not_fuel (e : RunError) : Prop := e ≠ OutOfFuel.

Definition steady {S A} (I : S → Prop) (m : M S RunError A) : Prop :=
  triple I m (λ _, I) (λ e _, not_fuel e).

Section Steady.
Context {S : Type} (I : S → Prop).
Implicit Types m : M S RunError unit.

Lemma steady_ret {A} (a : A) : steady I (mret a).
Proof. by intros s Hs. Qed.
Lemma steady_raise {A} e : not_fuel e → steady (A:=A) I (raise e).
Proof. by intros He s Hs. Qed.
Lemma steady_gets {A} (f : S → A) : steady I (gets f).
Proof. by intros s Hs. Qed.
Lemma steady_get : steady I get.
Proof. by intros s Hs. Qed.
Lemma steady_modify f : (∀ s, I s → I (f s)) → steady I (modify f).
Proof. intros Hf s Hs. by apply (Hf s). Qed.
Lemma steady_check c e : not_fuel e → steady I (check c e).
Proof. intros He s Hs. by destruct c. Qed.
Lemma steady_lift {A} (r : result RunError A) : (∀ e, r = Err e → not_fuel e) → steady I (lift r).
Proof. intros Hr s Hs. unfold wp, lift. destruct r; [done|by apply Hr]. Qed.
Lemma steady_when c m : steady I m → steady I (when c m).
Proof. by destruct c; [|intros _ s Hs]. Qed.
Lemma steady_bind {A B} (m : M S RunError A) (f : A → M S RunError B) :
  steady I m → (∀ a, steady I (f a)) → steady I (m ≫= f).
Proof. intros Hm Hf. by eapply triple_bind. Qed.
Lemma steady_get_bind {B} (f : S → M S RunError B) : (∀ s, I s → steady I (f s)) → steady I (get ≫= f).
Proof. intros Hf s Hs. exact (Hf s Hs s Hs). Qed.
Lemma steady_gets_bind {A B} (g : S → A) (f : A → M S RunError B) :
  (∀ s, I s → steady I (f (g s))) → steady I (gets g ≫= f).
Proof. intros Hf s Hs. exact (Hf s Hs s Hs). Qed.
Lemma steady_forM {A} (l : list A) f : (∀ x, steady I (f x)) → steady I (forM_ l f).
Proof. intros Hf. apply triple_forM. intros x _. apply Hf. Qed.
End Steady.

Create HintDb steady discriminated.
#[export] Hint Resolve steady_ret steady_gets steady_get : steady.
#[export] Hint Extern 1 (steady _ (raise _)) => apply steady_raise; discriminate : steady.
#[export] Hint Extern 1 (steady _ (check _ _)) => apply steady_check; discriminate : steady.

Ltac steady_tac :=
  repeat match goal with
  | |- steady _ (get ≫= _) => apply steady_get_bind
  | |- steady _ (gets _ ≫= _) => apply steady_gets_bind
  | |- steady _ (_ ≫= _) => apply steady_bind
  | |- steady _ (when _ _) => apply steady_when
  | |- steady _ (forM_ _ _) => apply steady_forM
  | |- steady _ (if ?c then _ else _) => destruct c eqn:?
  | |- steady _ (match ?c with _ => _ end) => destruct c eqn:?
  | |- ∀ _, _ => intros ?
  | |- steady _ _ => solve [auto with steady nocore]
  end.

Section Term.
Context {T : Type} `{Num T}.
Context (cfg : Config) (chain : ChainIndex) (ntasks : nat) (finals : list (string * Location)) (provided : list nat).
Context (ext : list (Location * ((Z → M (Fake T (Token T)) DeviceError Buffer) *
                                 (Buffer → M (Fake T (Token T)) DeviceError unit)))).
Hypothesis Hext : quiet_external ext.
Implicit Types s : Run T.

Abbreviation RM := (M (Run T) RunError).

(** The same work is left. *)
Definition same_work s s' : Prop :=
  pending (rn_dev s') = pending (rn_dev s) ∧
  (∀ d, ln_queue (lane d s') = ln_queue (lane d s) ∧ ln_inflight (lane d s') = ln_inflight (lane d s)) ∧
  rn_deferred s' = rn_deferred s ∧ rn_evictions s' = rn_evictions s.

(** The state of the run [s0] as to work, with the pool's external allocators. *)
Definition W s0 s : Prop := same_work s0 s ∧ external_alloc (rn_pool s) = ext.

Abbreviation quiet m := (∀ s0, steady (W s0) m).

Lemma W_work s0 s s' : W s0 s → same_work s s' → external_alloc (rn_pool s') = external_alloc (rn_pool s) → W s0 s'.
Proof.
  intros [(H1 & H2 & H3 & H4) He] (H1' & H2' & H3' & H4') He'. split; [|congruence].
  split_and!; [congruence| |congruence..]. intros d. destruct (H2 d), (H2' d). split; congruence.
Qed.

Lemma quiet_modify f : (∀ s, same_work s (f s) ∧ external_alloc (rn_pool (f s)) = external_alloc (rn_pool s)) →
  quiet (modify f).
Proof. intros Hf s0. apply steady_modify. intros s Hs. destruct (Hf s). by eapply W_work. Qed.

Lemma quiet_on_device {A} (m : M (Fake T (Token T)) DeviceError A) :
  (∀ d a d', m d = (Ok a, d') → pending d' = pending d) → quiet (on_device m).
Proof.
  intros Hm s0 s Hs. unfold wp, on_device. destruct (m (rn_dev s)) as [[a|e] d'] eqn:He; [|done].
  eapply W_work; [done| |done]. split_and!; [by apply (Hm _ _ _ He)|by intros []|done..].
Qed.

Lemma quiet_on_pools {A} (m : M (PS T (Token T)) PoolError A) :
  (∀ w, keeps (PQ w ext) m) → quiet (on_pools m).
Proof.
  intros Hm s0 s Hs. unfold wp, on_pools. specialize (Hm (pending (rn_dev s)) (rn_dev s, rn_pool s)).
  unfold wp in Hm. destruct (m _) as [[a|e] [d p]]; [|done].
  destruct Hm as [H1 H2]; [split; [done|apply Hs]|]. simpl in *.
  eapply W_work; [done| |]; [split_and!; [done|by intros []|done..]|]. simpl. rewrite H2. symmetry. apply Hs.
Qed.

Ltac dev_quiet := apply quiet_on_device; intros d ? d' He;
  unfold record_event, stream_wait_event, align_stream_to_host, memset_async, modify, mbind, M_bind, mret, M_ret in He;
  simpl in He; by simplify_eq.

Lemma quiet_record_event st : quiet (on_device (record_event st)).
Proof. dev_quiet. Qed.
Lemma quiet_stream_wait st e : quiet (on_device (stream_wait_event st e)).
Proof. dev_quiet. Qed.
Lemma quiet_align st : quiet (on_device (align_stream_to_host st)).
Proof. dev_quiet. Qed.
Lemma quiet_memset b v st : quiet (on_device (memset_async b v st)).
Proof. dev_quiet. Qed.
Lemma quiet_set_guard b g : quiet (on_device (modify (set_guard b g))).
Proof. dev_quiet. Qed.
Lemma quiet_memcpy dst src n st dur : quiet (on_device (memcpy_async dst src n st dur)).
Proof.
  apply quiet_on_device. intros d a d' He. unfold memcpy_async in He. destruct dur; [|done].
  unfold advance_stream, mbind, M_bind in He. simpl in He. by injection He as <- <-.
Qed.
Lemma quiet_pool_get l n tag : quiet (on_pools (pool_get l n tag)).
Proof. apply quiet_on_pools. intros w. by apply calm_pool_get. Qed.
Lemma quiet_get_escaped l n tag : quiet (on_pools (get_escaped l n tag)).
Proof. apply quiet_on_pools. intros w. by apply calm_get_escaped. Qed.
Lemma quiet_put b : quiet (on_pools (put b)).
Proof. apply quiet_on_pools. intros w. by apply calm_put. Qed.
Lemma quiet_on_ledger {A} (m : M Ledger LedgerError A) : quiet (on_ledger m).
Proof.
  intros s0 s Hs. unfold wp, on_ledger. destruct (m (rn_ledger s)) as [[a|e] l]; [|done].
  eapply W_work; [done| |done]. split_and!; [done|by intros []|done..].
Qed.
Lemma quiet_ask_ledger {A} (f : Ledger → result LedgerError A) : quiet (ask_ledger f).
Proof. intros s0 s Hs. unfold wp, ask_ledger. by destruct (f (rn_ledger s)). Qed.
Lemma quiet_add_event kind oid tid detail : quiet (add_event kind oid tid detail).
Proof. apply quiet_modify. intros s. split; [|done]. split_and!; [done|by intros []|done..]. Qed.
Lemma quiet_add_interval iv : quiet (add_interval iv).
Proof. apply quiet_modify. intros s. split; [|done]. split_and!; [done|by intros []|done..]. Qed.
Lemma quiet_put_rec oid r : quiet (put_rec oid r).
Proof. apply quiet_modify. intros s. split; [|done]. split_and!; [done|by intros []|done..]. Qed.
Lemma quiet_get_rec oid : quiet (get_rec oid).
Proof. unfold get_rec. intros s0. steady_tac. Qed.
Hint Resolve quiet_record_event quiet_stream_wait quiet_align quiet_memset quiet_set_guard quiet_memcpy
  quiet_pool_get quiet_get_escaped quiet_put quiet_on_ledger quiet_ask_ledger quiet_add_event quiet_add_interval
  quiet_put_rec quiet_get_rec : steady.

Lemma quiet_poison b : quiet (poison cfg b).
Proof. unfold poison. intros s0. steady_tac. Qed.
Lemma quiet_wait_guards d b : quiet (wait_guards cfg d b).
Proof. unfold wait_guards. intros s0. steady_tac. Qed.
Lemma quiet_interval_name d oid : quiet (interval_name d oid).
Proof.
  unfold interval_name, set_lane. intros s0. steady_tac. apply quiet_modify. intros s1. split; [|by destruct d].
  split_and!; [by destruct d| |by destruct d..]. by intros d'; destruct d, d'.
Qed.
Lemma quiet_runtime d oid n o : quiet (lift (transfer_runtime_us cfg d oid n o)).
Proof. intros s0. apply steady_lift. unfold transfer_runtime_us. intros e He. repeat case_match; by simplify_eq. Qed.
Hint Resolve quiet_poison quiet_wait_guards quiet_interval_name quiet_runtime : steady.

(** ** What a computation adds to the work left *)
Abbreviation meas := (measure ntasks).
Abbreviation calm s := (external_alloc (rn_pool s) = ext).

Definition costs {A} (k : nat) (m : RM A) : Prop :=
  ∀ s, calm s → wp m s (λ _ s', (meas s' ≤ meas s + k)%nat ∧ calm s') (λ e _, not_fuel e).

Lemma measure_same s s' : same_work s s' → meas s' = meas s.
Proof.
  intros (H1 & H2 & H3 & H4). unfold measure. destruct (H2 from_slow) as [Hq _], (H2 to_slow) as [Hq' _].
  simpl in *. congruence.
Qed.

Lemma W_refl s : calm s → W s s.
Proof. intros Hs. split; [|done]. by split_and!. Qed.

Lemma quiet_run {A B} (m : RM A) (f : A → RM B) s Q :
  quiet m → calm s → (∀ a s', same_work s s' → calm s' → wp (f a) s' Q (λ e _, not_fuel e)) →
  wp (m ≫= f) s Q (λ e _, not_fuel e).
Proof.
  intros Hm Hs Hf. apply wp_bind. eapply wp_mono; [apply (Hm s), W_refl, Hs| |done].
  intros a s' [H1 H2]. by apply Hf.
Qed.

Lemma costs_quiet {A} (m : RM A) : quiet m → costs 0 m.
Proof.
  intros Hm s Hs. eapply wp_mono; [apply (Hm s), W_refl, Hs| |done].
  intros a s' [H1 H2]. rewrite (measure_same _ _ H1). split; [lia|done].
Qed.
Lemma costs_weaken {A} j k (m : RM A) : costs j m → (j ≤ k)%nat → costs k m.
Proof. intros Hm Hk s Hs. eapply wp_mono; [by apply Hm| |done]. intros a s' [H1 H2]. split; [lia|done]. Qed.
Lemma costs_bind {A B} j k (m : RM A) (f : A → RM B) : costs j m → (∀ a, costs k (f a)) → costs (j + k) (m ≫= f).
Proof.
  intros Hm Hf s Hs. apply wp_bind. eapply wp_mono; [by apply Hm| |done]. intros a s1 [H1 H2].
  eapply wp_mono; [by apply Hf| |done]. intros b s2 [H3 H4]. split; [lia|done].
Qed.
Lemma costs_seq {A B} k (m : RM A) (f : A → RM B) : quiet m → (∀ a, costs k (f a)) → costs k (m ≫= f).
Proof. intros Hm Hf. by apply (costs_bind 0 k); [apply costs_quiet|]. Qed.
Lemma costs_forM {A} k (l : list A) (f : A → RM unit) : (∀ x, costs k (f x)) → costs (k * length l) (forM_ l f).
Proof.
  intros Hf. induction l as [|x l IH]; simpl.
  - apply (costs_weaken 0); [|lia]. apply costs_quiet. intros s0. apply steady_ret.
  - apply (costs_weaken (k + k * length l)); [|lia]. by apply costs_bind.
Qed.

Lemma costs_enqueue d job : costs 2 (enqueue d job).
Proof.
  apply (costs_bind 2 0); [|intros []; apply costs_quiet; auto with steady].
  intros s Hs. apply wp_modify. split; [|by destruct d]. unfold measure. destruct d; simpl; rewrite length_app; simpl; lia.
Qed.

Lemma costs_set_inflight d j : costs 0 (set_inflight (T:=T) d j).
Proof. intros s Hs. apply wp_modify. split; [|by destruct d]. unfold measure. destruct d; simpl; lia. Qed.

Lemma sum_list_perm (l l' : list nat) : Permutation l l' → sum_list l = sum_list l'.
Proof. induction 1; simpl; lia. Qed.

Lemma costs_notify st e tok prio : costs (token_weight tok) (on_device (notify_after st e tok prio)).
Proof.
  intros s Hs. unfold wp, on_device, notify_after, mbind, M_bind. simpl. split; [|done].
  unfold measure. simpl. rewrite (sum_list_perm _ (token_weight tok :: (token_weight ∘ snd <$> pending (rn_dev s)))).
  - simpl. lia.
  - by rewrite <-insert_sorted_perm.
Qed.

Ltac costs_tac :=
  repeat match goal with
  | |- costs _ (_ ≫= _) => apply costs_seq; [intros ?; solve [steady_tac]|intros ?]
  | |- costs _ (match ?c with _ => _ end) => destruct c eqn:?
  end.

Lemma costs_launch_copy d job dst src ready : costs 1 (launch_copy cfg d job dst src ready).
Proof.
  unfold launch_copy. costs_tac.
  apply (costs_bind 1 0); [apply (costs_notify _ _ (TransferDone _ _))|intros []; apply costs_set_inflight].
Qed.

(** ** Starting a transfer *)

(** Nothing changed, or there is less work. *)
Definition less_or_same s s' : Prop := calm s' ∧ (same_work s s' ∨ (meas s' < meas s)%nat).

Lemma same_work_refl s : same_work s s.
Proof. by split_and!. Qed.
Lemma same_work_trans s1 s2 s3 : same_work s1 s2 → same_work s2 s3 → same_work s1 s3.
Proof.
  intros (H1 & H2 & H3 & H4) (H1' & H2' & H3' & H4'). split_and!; [congruence| |congruence..].
  intros d. destruct (H2 d), (H2' d). split; congruence.
Qed.

(** The head leaves the queue, and its start costs less than it weighed. *)
Lemma wp_pop_head s0 s d (f : unit → RM unit) :
  same_work s0 s → calm s → ln_queue (lane d s) ≠ [] → costs 1 (f tt) →
  wp (pop_head d ≫= f) s (λ _, less_or_same s0) (λ e _, not_fuel e).
Proof.
  intros Hw Hs Hq Hf. apply wp_modify_bind. eapply wp_mono; [apply Hf; by destruct d| |done].
  intros a s' [Hm Hc]. split; [done|]. right. rewrite <-(measure_same _ _ Hw).
  cut (meas (with_lane d (mkLane (tail (ln_queue (lane d s))) (ln_inflight (lane d s)) (ln_name_seq (lane d s))) s) + 2
       = meas s)%nat; [lia|].
  unfold measure. destruct d; simpl in *; destruct (ln_queue _); simpl; try done; lia.
Qed.

Ltac quiet_step := eapply quiet_run; [intros ?; solve [steady_tac]|done|intros ? ? ? ?].

Lemma start_prefetch_less s0 s job r src escape :
  same_work s0 s → calm s → ln_queue (lane from_slow s) ≠ [] →
  wp (start_prefetch cfg job r src escape) s (λ _, less_or_same s0) (λ e _, not_fuel e).
Proof.
  intros Hw Hs Hq. unfold start_prefetch. quiet_step. destruct (negb a).
  { apply wp_ret. split; [done|]. left. by eapply same_work_trans. }
  apply wp_gets_bind. destruct (negb (can_get _ _ _ _) && negb escape).
  { apply wp_ret. split; [done|]. left. by eapply same_work_trans. }
  apply wp_pop_head; [by eapply same_work_trans|done| |].
  - destruct H0 as (_ & Hl & _). by destruct (Hl from_slow) as [-> _].
  - costs_tac. apply costs_launch_copy.
Qed.

Lemma start_offload_less s0 s job r src :
  same_work s0 s → calm s → ln_queue (lane to_slow s) ≠ [] →
  wp (start_offload cfg job r src) s (λ _, less_or_same s0) (λ e _, not_fuel e).
Proof.
  intros Hw Hs Hq. unfold start_offload. quiet_step. destruct (negb a).
  { apply wp_ret. split; [done|]. left. by eapply same_work_trans. }
  apply wp_pop_head; [by eapply same_work_trans|done| |].
  - destruct H0 as (_ & Hl & _). by destruct (Hl to_slow) as [-> _].
  - costs_tac; apply costs_launch_copy.
Qed.

Lemma try_start_less e d s :
  calm s → wp (try_start_with cfg e d) s (λ _, less_or_same s) (λ e _, not_fuel e).
Proof.
  intros Hs. unfold try_start_with. apply wp_get_bind.
  destruct (ln_inflight (lane d s)); [apply wp_ret; split; [done|left; apply same_work_refl]|].
  destruct (ln_queue (lane d s)) as [|job q] eqn:Hq; [apply wp_ret; split; [done|left; apply same_work_refl]|].
  quiet_step.
  assert (ln_queue (lane d s') ≠ []) as Hne by (destruct H0 as (_ & Hl & _); destruct (Hl d) as [-> _]; by rewrite Hq).
  destruct d; wp_auto; try done; [by apply start_prefetch_less|by apply start_offload_less].
Qed.

Lemma costs_try_start e d : costs 0 (try_start_with cfg e d).
Proof.
  intros s Hs. eapply wp_mono; [by apply try_start_less| |done].
  intros a s' [Hc [Hw|Hm]]; split; try done; [rewrite (measure_same _ _ Hw)|]; lia.
Qed.

(** ** The token handlers *)
Lemma quiet_output_live done_ out : quiet (output_live (T:=T) done_ out).
Proof. unfold output_live. intros s0. steady_tac. Qed.
Lemma quiet_mutate_one task done_ oid : quiet (mutate_one (T:=T) task done_ oid).
Proof. unfold mutate_one. intros s0. steady_tac. Qed.
Lemma quiet_dead tid oid : quiet (lift (dead_everywhere chain finals tid oid)).
Proof. intros s0. apply steady_lift. unfold dead_everywhere. intros e He. case_match; by simplify_eq. Qed.
Hint Resolve quiet_output_live quiet_mutate_one quiet_dead : steady.
Lemma quiet_release_one task oid : quiet (release_one cfg chain finals provided task oid).
Proof. unfold release_one, release_backing. intros s0. steady_tac. Qed.
Lemma quiet_add_pending iv : quiet (modify (λ s, with_intervals (rn_intervals s ++ [iv]) s)).
Proof. apply quiet_modify. intros s. split; [|done]. split_and!; [done|by intros []|done..]. Qed.
Hint Resolve quiet_release_one quiet_add_pending : steady.

Lemma costs_offload_one task done_ trig : costs 2 (offload_one (T:=T) task done_ trig).
Proof. unfold offload_one. costs_tac; try apply costs_enqueue. by intros s Hs. Qed.

Lemma costs_defer oid job :
  costs 2 (modify (λ s, with_deferred (assoc_set (rn_deferred s) oid
    (default [] (assoc_get (rn_deferred s) oid) ++ [job])) s)).
Proof.
  intros s Hs. apply wp_modify. split; [|done]. unfold measure. simpl.
  destruct (assoc_set_join (rn_deferred s) oid) as (rest & H1 & H2).
  rewrite H2. rewrite H1. rewrite !length_app. simpl. lia.
Qed.

Lemma costs_prefetch_one task done_ trig : costs 2 (prefetch_one (T:=T) task done_ trig).
Proof.
  unfold prefetch_one. apply costs_seq; [intros ?; steady_tac|intros r]. apply costs_seq; [intros ?; steady_tac|intros []].
  apply costs_seq; [|intros []].
  { apply quiet_modify. intros s. split; [|done]. split_and!; [done|by intros []|done..]. }
  destruct (_ || _).
  - apply (costs_bind 2 0); [apply costs_defer|intros []; apply costs_quiet; auto with steady].
  - costs_tac. apply costs_enqueue.
Qed.

Lemma costs_on_task_done task start_ done_ :
  costs (2 * (length (ts_offload_after task) + length (ts_prefetch_after task)))
    (on_task_done cfg chain finals provided task start_ done_).
Proof.
  unfold on_task_done. apply costs_seq; [|intros []].
  { apply quiet_modify. intros s. case_bool_decide; split; try done; split_and!; try done; by intros []. }
  costs_tac.
  eapply (costs_weaken _ _ _ (costs_bind _ _ _ _ (costs_forM 2 _ _ (costs_offload_one task done_)) (λ _,
    costs_bind _ _ _ _ (costs_forM 2 _ _ (costs_prefetch_one task done_)) (λ _,
    costs_bind _ _ _ _ (costs_try_start false from_slow) (λ _, costs_try_start false to_slow))))). lia.
Qed.

Lemma costs_complete d job : costs 0 (complete cfg d job).
Proof.
  unfold complete. costs_tac.
  apply (costs_bind 0 0); [apply costs_set_inflight|intros []]. costs_tac; apply costs_quiet; intros ?; steady_tac.
Qed.

(** The transfers that waited on an offload move to the queue. *)
Lemma costs_activate oid (k : unit → RM unit) :
  costs 0 (k tt) →
  costs 0 (s ← get; modify (λ s, with_deferred (assoc_del (rn_deferred s) oid) s) ;;
           forM_ (default [] (assoc_get (rn_deferred s) oid)) (enqueue from_slow) ;; k tt).
Proof.
  intros Hk s Hs. apply wp_get_bind, wp_modify_bind.
  set (ws := default [] (assoc_get (rn_deferred s) oid)). set (s1 := with_deferred _ s).
  assert (meas s1 + 2 * length ws = meas s)%nat as Hm.
  { unfold measure, s1, ws. simpl. destruct (assoc_get (rn_deferred s) oid) as [w|] eqn:Hg; simpl.
    - apply assoc_get_split in Hg as (d1 & d2 & -> & Hk'). rewrite assoc_del_middle by done.
      rewrite !fmap_app, fmap_cons, !join_app. simpl. rewrite !length_app. lia.
    - apply assoc_get_none in Hg. rewrite assoc_del_absent by done. lia. }
  eapply wp_mono; [apply (costs_bind (2 * length ws) 0); [apply costs_forM, costs_enqueue|by intros []|done]| |done].
  intros a s' [Hm' Hc]. split; [lia|done].
Qed.

Lemma costs_on_transfer_done d job : costs 0 (on_transfer_done cfg d job).
Proof.
  unfold on_transfer_done. apply (costs_bind 0 0); [apply costs_complete|intros []].
  destruct d; [apply costs_try_start|].
  apply (costs_activate (tj_object_id job) (λ _, try_start cfg to_slow ;; try_start cfg from_slow)).
  apply (costs_bind 0 0); [apply costs_try_start|intros []; apply costs_try_start].
Qed.

(** A handler adds less than its token weighs. *)
Lemma costs_handle token : costs (token_weight token - 1) (handle cfg chain finals provided token).
Proof.
  destruct token as [task start_ done_|d job]; simpl.
  - eapply costs_weaken; [apply costs_on_task_done|simpl; lia].
  - apply costs_on_transfer_done.
Qed.

Lemma token_weight_pos (token : Token T) : (1 ≤ token_weight token)%nat.
Proof. destruct token; simpl; lia. Qed.

(** Delivering a completion takes its token, or finds none. *)
Lemma next_completion_spec s (Q : option (Token T) → Run T → Prop) :
  calm s →
  (∀ token s', calm s' → meas s = (token_weight token + meas s')%nat → Q (Some token) s') →
  (same_work s s → pending (rn_dev s) = [] → Q None s) →
  wp (on_device next_completion) s Q (λ e _, not_fuel e).
Proof.
  intros Hs Hsome Hnone. unfold wp, on_device, next_completion, mbind, M_bind. simpl.
  destruct (pending (rn_dev s)) as [|[[[t p] q] token] rest] eqn:Hp; simpl.
  - replace (with_dev (rn_dev s) s) with s by (by destruct s). apply Hnone; [apply same_work_refl|done].
  - apply Hsome; [done|]. unfold measure. cbn -[Nat.mul Nat.sub]. rewrite Hp, fmap_cons. cbn -[Nat.mul Nat.sub]. lia.
Qed.

Lemma handle_less token n s :
  calm s → n = (token_weight token + meas s)%nat →
  wp (handle cfg chain finals provided token) s (λ _ s', calm s' ∧ (meas s' < n)%nat) (λ e _, not_fuel e).
Proof.
  intros Hs ->. eapply wp_mono; [by apply costs_handle| |done]. intros a s' [Hm Hc]. split; [done|].
  pose proof (token_weight_pos token). lia.
Qed.

(** ** Rounds of a wait *)
Lemma evict_less exclude s :
  calm s → wp (evict_for_pressure cfg chain ntasks exclude) s
    (λ b s', calm s' ∧ if b then (meas s' < meas s)%nat else True) (λ e _, not_fuel e).
Proof.
  intros Hs. unfold evict_for_pressure. apply wp_get_bind.
  destruct (10 * ntasks <=? rn_evictions s)%nat eqn:Hn; [by apply wp_ret|]. apply Nat.leb_gt in Hn.
  destruct (find_victim _ _ _ _) as [[[[nxt size] oid] r]|]; [|by apply wp_ret].
  destruct (or_fast r) as [sl|]; [|by apply wp_ret].
  quiet_step. quiet_step. quiet_step. quiet_step. apply wp_modify_bind.
  assert (same_work s s'2) as Hw by eauto using same_work_trans.
  assert (meas (count_eviction s'2) + 3 = meas s)%nat as Hm.
  { rewrite <-(measure_same _ _ Hw). unfold measure. simpl. destruct Hw as (_ & _ & _ & ->). lia. }
  set (s1 := count_eviction s'2) in *. assert (calm s1) as Hs1 by done. clearbody s1.
  eapply wp_mono; [eapply (costs_bind 0 2); [by apply costs_quiet; auto with steady| |exact Hs1]| |done].
  - intros []. costs_tac. apply (costs_bind 2 0); [apply costs_enqueue|]. intros []. by apply costs_quiet; auto with steady.
  - simpl. intros b s6 [Hm' Hc]. split; [done|]. destruct b; [lia|done].
Qed.

(** A lane that was idle and is busy has started a transfer. *)
Lemma started_less s s' d :
  less_or_same s s' → ln_inflight (lane d s) = None → is_Some (ln_inflight (lane d s')) → (meas s' < meas s)%nat.
Proof.
  intros [_ [(_ & Hl & _)|Hm]] Hi [j Hj]; [|done]. destruct (Hl d) as [_ Hd]. congruence.
Qed.

Definition less_than n s : Prop := calm s ∧ (meas s < n)%nat.

Lemma escape_less s :
  calm s → wp (escape_blocked_head cfg) s
    (λ b s', calm s' ∧ if b then (meas s' < meas s)%nat else (meas s' ≤ meas s)%nat) (λ e _, not_fuel e).
Proof.
  intros Hs. unfold escape_blocked_head. apply wp_get_bind.
  destruct (ln_inflight (rn_h2d s)) eqn:Hi; [by apply wp_ret|].
  destruct (ln_queue (rn_h2d s)) as [|job q]; [by apply wp_ret|].
  quiet_step. rename H0 into Hw. apply measure_same in Hw as Hm. rewrite <-Hm.
  destruct (negb a); [by apply wp_ret|]. destruct (can_get _ _ _ _); [by apply wp_ret|].
  apply wp_bind. eapply wp_mono; [by apply try_start_less| |done]. intros [] s2 Hl. wp_auto.
  split; [apply Hl|]. case_bool_decide as Hb.
  - apply (started_less _ _ from_slow Hl); [|done]. destruct Hw as (_ & Hd & _). by destruct (Hd from_slow) as [_ ->].
  - destruct Hl as [_ [Hl|Hl]]; [by rewrite (measure_same _ _ Hl)|lia].
Qed.

Lemma no_token_less exclude pump s :
  calm s → wp (no_token cfg chain ntasks exclude pump) s (λ _, less_than (meas s)) (λ e _, not_fuel e).
Proof.
  intros Hs. unfold no_token. apply wp_get_bind. set (c := pump && _ && _).
  assert (c = true → ln_inflight (rn_h2d s) = None) as Hc.
  { subst c. rewrite !andb_true_iff, !negb_true_iff. intros [[_ Hb] _]. apply bool_decide_eq_false in Hb.
    by apply eq_None_not_Some. }
  clearbody c. apply wp_bind.
  eapply (wp_mono _ _ (λ b s', calm s' ∧ if b : bool then (meas s' < meas s)%nat else (meas s' ≤ meas s)%nat)
    _ (λ e _, not_fuel e)); [|clear c Hc|done].
  { destruct c; [|by apply wp_ret]. apply wp_bind. eapply wp_mono; [by apply try_start_less| |done].
    intros [] s1 Hl. split; [apply Hl|]. case_bool_decide as Hb.
    - by apply (started_less _ _ from_slow Hl); [apply Hc|].
    - destruct Hl as [_ [Hl|Hl]]; [by rewrite (measure_same _ _ Hl)|lia]. }
  intros started s1 [Hs1 Hm1]. destruct started; [by apply wp_ret|].
  apply wp_bind. eapply wp_mono; [by apply escape_less| |done]. intros escaped s2 [Hs2 Hm2]. destruct escaped.
  - apply wp_get_bind. eapply wp_mono; [apply (costs_quiet _ (quiet_add_event _ _ _ _) s2 Hs2)| |done].
    intros [] s3 [Hm3 Hs3]. split; [done|lia].
  - apply wp_bind. eapply wp_mono; [by apply evict_less| |done]. intros evicted s3 [Hs3 Hm3].
    destruct evicted; [apply wp_ret; split; [done|lia]|done].
Qed.

Lemma step_less exclude pump s :
  calm s → wp (step cfg chain ntasks finals provided exclude pump) s (λ _, less_than (meas s)) (λ e _, not_fuel e).
Proof.
  intros Hs. apply wp_bind. apply next_completion_spec; [done| |].
  - intros token s' Hs' Hm. by apply handle_less.
  - intros _ _. by apply no_token_less.
Qed.

(** ** The waits end *)
Definition calmly {A} (m : RM A) : Prop := ∀ s, calm s → wp m s (λ _ s', calm s') (λ e _, not_fuel e).

Lemma calmly_wait_retired fuel exclude s :
  calm s → (meas s < fuel)%nat →
  wp (wait_retired cfg chain ntasks finals provided fuel exclude) s (λ _ s', calm s') (λ e _, not_fuel e).
Proof.
  revert s. induction fuel as [|fuel IH]; intros s Hs Hf; [lia|]. simpl. apply wp_gets_bind.
  destruct (rn_outstanding s); [|by apply wp_ret]. apply wp_bind.
  eapply wp_mono; [by apply step_less| |done]. intros [] s' [Hs' Hm]. apply IH; [done|lia].
Qed.

Lemma calmly_wait_inputs fuel task s :
  calm s → (meas s < fuel)%nat →
  wp (wait_inputs cfg chain ntasks finals provided fuel task) s (λ _ s', calm s') (λ e _, not_fuel e).
Proof.
  revert s. induction fuel as [|fuel IH]; intros s Hs Hf; [lia|]. simpl. apply wp_get_bind.
  destruct (inputs_waiting task s); [by apply wp_ret|]. apply wp_bind.
  eapply wp_mono; [by apply step_less| |done]. intros [] s' [Hs' Hm]. apply IH; [done|lia].
Qed.

Lemma calmly_drain_tokens fuel s :
  calm s → (meas s < fuel)%nat →
  wp (drain_tokens cfg chain finals provided fuel) s (λ _ s', calm s') (λ e _, not_fuel e).
Proof.
  revert s. induction fuel as [|fuel IH]; intros s Hs Hf; [lia|]. simpl. apply wp_bind.
  apply next_completion_spec; [done| |intros _ _; by apply wp_ret].
  intros token s' Hs' Hm. apply wp_bind. eapply wp_mono; [by apply handle_less| |done].
  intros [] s2 [Hs2 Hm2]. apply IH; [done|lia].
Qed.

(** The outputs that may still escape. *)
Definition unescaped (task : TaskSpec T) (escaped : list string) : nat :=
  length (filter (λ o, ous_id o ∉ escaped) (ts_outputs task)).

Lemma length_filter_le {A} (P Q : A → Prop) `{∀ x, Decision (P x), ∀ x, Decision (Q x)} (l : list A) :
  (∀ x, Q x → P x) → (length (filter Q l) ≤ length (filter P l))%nat.
Proof.
  intros HQ. induction l as [|x l IH]; [done|]. rewrite !filter_cons.
  destruct (decide (Q x)); destruct (decide (P x)); simpl; try lia. naive_solver.
Qed.
Lemma length_filter_lt {A} (P Q : A → Prop) `{∀ x, Decision (P x), ∀ x, Decision (Q x)} (l : list A) x :
  (∀ x, Q x → P x) → x ∈ l → P x → ¬ Q x → (length (filter Q l) < length (filter P l))%nat.
Proof.
  intros HQ Hx HP HnQ. induction Hx as [x l|x y l Hx IH]; rewrite !filter_cons.
  - rewrite decide_False, decide_True by done. simpl. pose proof (length_filter_le P Q l HQ). lia.
  - specialize (IH HP HnQ). destruct (decide (Q y)); destruct (decide (P y)); simpl; try lia. exfalso; auto.
Qed.

Lemma unescaped_less task escaped (p : Pool T (Token T)) :
  busy_outputs task escaped p ≠ [] →
  (unescaped task (escaped ++ busy_outputs task escaped p) < unescaped task escaped)%nat.
Proof.
  unfold unescaped. set (busy := busy_outputs _ _ _). intros Hne.
  destruct busy as [|oid busy'] eqn:Hb; [done|]. subst busy.
  assert (oid ∈ busy_outputs task escaped p) as Hin by (rewrite Hb; apply list_elem_of_here).
  apply list_elem_of_fmap in Hin as (o & -> & (Ho & Hin)%list_elem_of_filter).
  apply (length_filter_lt _ _ _ o); [|done|apply Ho|].
  - intros o'. rewrite not_elem_of_app. naive_solver.
  - rewrite not_elem_of_app, not_elem_of_cons. naive_solver.
Qed.

Lemma calmly_wait_reserve fuel task escaped blocked s :
  calm s → (meas s + unescaped task escaped < fuel)%nat →
  wp (wait_reserve cfg chain ntasks finals provided fuel task escaped blocked) s (λ _ s', calm s') (λ e _, not_fuel e).
Proof.
  revert escaped blocked s. induction fuel as [|fuel IH]; intros escaped blocked s Hs Hf; [lia|]. simpl.
  quiet_step. apply measure_same in H0 as Hm. apply wp_get_bind.
  destruct (a && bool_decide _) eqn:Ha; [by apply wp_ret|]. apply wp_bind.
  apply next_completion_spec; [done| |].
  - intros token s2 Hs2 Hm2. apply wp_bind. eapply wp_mono; [by apply handle_less| |done].
    intros [] s3 [Hs3 Hm3]. apply IH; [done|lia].
  - intros _ _. destruct a.
    + quiet_step. apply measure_same in H2. apply IH; [done|].
      enough (unescaped task (escaped ++ busy_outputs task escaped (rn_pool s')) < unescaped task escaped)%nat by lia.
      apply unescaped_less. apply andb_false_iff in Ha as [|Ha]; [done|]. by apply bool_decide_eq_false in Ha.
    + apply wp_bind. eapply wp_mono; [by apply step_less| |done]. intros [] s2 [Hs2 Hm2]. apply IH; [done|lia].
Qed.

(** ** Dispatch and drain *)
Lemma calmly_costs {A} k (m : RM A) : costs k m → calmly m.
Proof. intros Hm s Hs. eapply wp_mono; [by apply Hm| |done]. by intros a s' [_ Hc]. Qed.
Lemma calmly_quiet {A} (m : RM A) : quiet m → calmly m.
Proof. intros Hm. by apply (calmly_costs 0), costs_quiet. Qed.
Lemma calmly_bind {A B} (m : RM A) (f : A → RM B) : calmly m → (∀ a, calmly (f a)) → calmly (m ≫= f).
Proof. intros Hm Hf s Hs. apply wp_bind. eapply wp_mono; [by apply Hm| |done]. intros a s' Hs'. by apply Hf. Qed.
Lemma calmly_modify f : (∀ s, external_alloc (rn_pool (f s)) = external_alloc (rn_pool s)) → calmly (modify f).
Proof. intros Hf s Hs. apply wp_modify. by rewrite Hf. Qed.

Lemma calmly_on_launch m : calmly (on_launch (T:=T) m).
Proof. intros s Hs. unfold wp, on_launch. by destruct (m (rn_dev s)) as [[]]. Qed.

Lemma quiet_with_table tb : quiet (modify (with_table (T:=T) tb)).
Proof. apply quiet_modify. intros s. split; [|done]. split_and!; [done|by intros []|done..]. Qed.
Hint Resolve quiet_with_table : steady.

Lemma quiet_reserve_outputs task escaped outs acc : quiet (reserve_outputs (T:=T) task escaped outs acc).
Proof.
  intros s0. revert acc. induction outs as [|out outs IH]; intros acc; simpl; [steady_tac|].
  apply steady_bind; [unfold reserve_output; steady_tac|auto].
Qed.

Lemma quiet_mapR {A B} (f : A → result RunError B) l :
  (∀ x e, f x = Err e → not_fuel e) → quiet (lift (S := Run T) (mapR f l)).
Proof.
  intros Hf s0. apply steady_lift. induction l as [|x l IH]; intros e He; [done|]. simpl in He.
  apply result_bind_err in He as [He|(y & _ & He)]; [by eapply Hf|].
  apply result_bind_err in He as [He|(ys & _ & He)]; [by apply IH|done].
Qed.

Lemma calmly_launch_task resolver task outs : calmly (launch_task cfg resolver task outs).
Proof.
  intros s Hs. unfold launch_task. apply wp_get_bind.
  eapply quiet_run; [apply quiet_mapR; unfold input_buffer; intros; repeat case_match; by simplify_eq|done|intros ? ? ? ?].
  eapply quiet_run; [apply quiet_mapR; intros; case_match; by simplify_eq|done|intros ? ? ? ?].
  quiet_step. quiet_step. apply wp_bind. eapply wp_mono; [by apply calmly_on_launch| |done]. intros [] s5 Hs5.
  quiet_step. apply wp_bind. eapply wp_mono; [by apply costs_notify| |done]. intros [] s7 [_ Hs7]. done.
Qed.

Lemma calmly_dispatch_task resolver cancelled pos task :
  calmly (dispatch_task cfg chain ntasks finals provided resolver cancelled pos task).
Proof.
  intros s Hs. unfold dispatch_task. do 2 quiet_step. apply wp_modify_bind.
  apply wp_gets_bind, wp_bind. eapply wp_mono; [apply calmly_wait_retired; [done|lia]| |done]. intros [] s2 Hs2.
  apply wp_gets_bind, wp_bind. eapply wp_mono; [apply calmly_wait_inputs; [done|lia]| |done]. intros [] s3 Hs3.
  apply wp_gets_bind, wp_bind. eapply wp_mono; [apply calmly_wait_reserve; [done|]| |done].
  { unfold unescaped. pose proof (length_filter (λ o, ous_id o ∉ []) (ts_outputs task)). lia. }
  intros eb s4 Hs4. do 2 quiet_step.
  eapply quiet_run; [intros ?; apply quiet_reserve_outputs|done|intros ? ? ? ?].
  apply wp_bind. eapply (wp_mono _ _ (λ _ s', calm s') _ (λ e _, not_fuel e)); [| |done].
  - destruct eb.2; simpl; [|by apply wp_ret].
    by apply (calmly_costs 0 _ (costs_try_start false from_slow)).
  - intros [] s8 Hs8. by apply calmly_launch_task.
Qed.

Lemma quiet_reclaim : quiet (reclaim (T:=T) provided).
Proof. unfold reclaim, reclaim_slot. intros s0. steady_tac. Qed.

Lemma quiet_materialize : quiet (materialize (T:=T)).
Proof.
  unfold materialize. intros s0. steady_tac. apply quiet_modify. intros s1. split; [|done].
  split_and!; [done|by intros []|done..].
Qed.

Lemma calmly_run_tasks resolver cancelled strict tasks :
  calmly (run_tasks cfg chain ntasks finals provided resolver cancelled strict tasks).
Proof.
  unfold run_tasks. apply calmly_bind; [|intros []].
  { intros s Hs. apply (triple_forI (λ s, calm s)); [|done]. intros j x _ s1 Hs1. by apply calmly_dispatch_task. }
  intros s Hs. apply wp_gets_bind, wp_bind. eapply wp_mono; [apply calmly_drain_tokens; [done|lia]| |done].
  intros [] s1 Hs1. eapply quiet_run; [intros ?; apply quiet_materialize|done|intros [] s2 _ Hs2].
  apply wp_get_bind. do 2 quiet_step. eapply quiet_run; [intros ?; apply quiet_reclaim|done|intros ? ? ? ?]. by wp_auto.
Qed.
End Term.

(** ** The whole run *)
Section Exec.
Context {T : Type} `{Num T}.
Implicit Types (w : World T) (p : Pool T (Token T)).

Lemma calm_prewarm_stack (wl : list (Entry (T := T) (Tok := Token T))) ext n key :
  keeps (PQ wl ext) (prewarm_stack (T := T) (Tok := Token T) n key).
Proof. induction n as [|n IH]; simpl; keeps_tac; auto. Qed.

Lemma calm_prewarm (wl : list (Entry (T := T) (Tok := Token T))) ext demand :
  keeps (PQ wl ext) (prewarm (T := T) (Tok := Token T) demand).
Proof. unfold prewarm. keeps_tac. apply calm_prewarm_stack. Qed.

Lemma calmly_on_device {A} ext (m : M (Fake T (Token T)) DeviceError A) : calmly ext (on_device m).
Proof. intros s Hs. unfold wp, on_device. by destruct (m (rn_dev s)) as [[]]. Qed.

Lemma calmly_steady {A} ext (m : M (Run T) RunError A) :
  calmly ext m ↔ steady (λ s, external_alloc (rn_pool s) = ext) m.
Proof. done. Qed.

Section Setup.
Context (ext : list (Location * ((Z → M (Fake T (Token T)) DeviceError Buffer) *
                                 (Buffer → M (Fake T (Token T)) DeviceError unit)))).
Hypothesis Hext : quiet_external ext.
Abbreviation calmly := (calmly ext).

Lemma calmly_load_initial bufs copies spec : calmly (load_initial bufs copies spec).
Proof.
  assert (∀ l n tag, calmly (on_pools (pool_get l n tag))) as Hget.
  { intros. apply (calmly_quiet 0). by apply quiet_pool_get. }
  unfold load_initial. rewrite calmly_steady. steady_tac; try apply steady_modify; try done.
  all: try (apply Hget). all: try (apply (calmly_quiet 0 ext); by auto using quiet_on_ledger, quiet_put_rec).
Qed.

Lemma calmly_load_all bufs copies specs : calmly (load_all bufs copies specs).
Proof.
  revert copies. induction specs as [|spec specs IH]; intros copies; simpl; [by intros s Hs|].
  apply calmly_bind; [apply calmly_load_initial|auto].
Qed.

Lemma calmly_setup_run cfg program args : calmly (setup_run cfg program args).
Proof.
  unfold setup_run. apply calmly_bind; [|intros []; apply calmly_bind; [apply calmly_load_all|intros copies]].
  - destruct (ea_pool_prewarm args); [by intros s Hs|]. apply (calmly_quiet 0), quiet_on_pools.
    intros wl. apply calm_prewarm.
  - rewrite calmly_steady. steady_tac; apply calmly_on_device.
Qed.
End Setup.

Lemma add_slabs_external (wl : list (Entry (T := T) (Tok := Token T))) ext caps p : keeps (PQ wl ext) (add_slabs caps p).
Proof. unfold add_slabs, add_slab, make_slab. keeps_tac. Qed.

Lemma on_world_pool_external {A} w p (m : M (PS T (Token T)) PoolError A) :
  (∀ wl, keeps (PQ wl (external_alloc p)) m) →
  wp (on_world_pool p m) w (λ p' w', external_alloc p' = external_alloc p ∧ w_session w' = w_session w) (λ e _, not_fuel e).
Proof.
  intros Hm. unfold wp, on_world_pool. specialize (Hm (pending (w_dev w)) (w_dev w, p)). unfold wp in Hm.
  destruct (m _) as [[a|e] [d p']]; [|done]. by destruct Hm.
Qed.

Lemma fresh_pool_external caps w p :
  wp (fresh_pool caps p) w (λ p' _, external_alloc p' = external_alloc p) (λ e _, not_fuel e).
Proof.
  unfold fresh_pool. apply wp_get_bind. eapply wp_mono; [apply on_world_pool_external| |done].
  - intros wl. destruct (physical _); [apply add_slabs_external|apply keeps_ret].
  - by intros p' w' [].
Qed.

(** The external allocators the session hands to the pool are quiet. *)
Definition quiet_session (se : Session T) : Prop :=
  (∀ p, se_pool se = Some p → quiet_external (external_alloc p)) ∧
  (∀ ext, se_external_backing se = Some ext → quiet_external [(Backing, ext)]).
Definition quiet_world w : Prop := ∀ se, w_session w = Some se → quiet_session se.

Lemma ensure_pool_external se program placed w :
  quiet_session se →
  wp (ensure_pool se program placed) w (λ p _, quiet_external (external_alloc p)) (λ e _, not_fuel e).
Proof.
  intros [Hp He]. unfold ensure_pool. destruct (se_pool se) as [p|].
  - case_bool_decide; [apply wp_ret; auto|done].
  - apply wp_bind. eapply wp_mono; [apply fresh_pool_external| |done]. intros p w' Hx.
    apply wp_bind, wp_modify, wp_ret. rewrite Hx. destruct (se_external_backing se); [by apply He|done].
Qed.

Lemma run_pool_external program args w :
  quiet_world w → wp (run_pool program args) w (λ p _, quiet_external (external_alloc p)) (λ e _, not_fuel e).
Proof.
  intros Hw. unfold run_pool. apply wp_get_bind, wp_bind.
  eapply (wp_mono _ _ (λ p _, quiet_external (external_alloc p)) _ (λ e _, not_fuel e)); [| |done].
  - destruct (w_session w) as [se|] eqn:Hse; [by apply ensure_pool_external, Hw|].
    eapply wp_mono; [apply fresh_pool_external| |done]. by intros p w' ->.
  - intros p w' Hp. eapply wp_mono; [apply on_world_pool_external| |done].
    + intros wl. destruct (placement p), (ea_placement args); unfold enable_placement, reset_placement_epoch; keeps_tac.
    + intros p' w'' [-> _]. done.
Qed.

Lemma run_streams_session w :
  quiet_world w → wp run_streams w (λ _ w', quiet_world w') (λ e _, not_fuel e).
Proof.
  intros Hw. unfold run_streams. apply wp_get_bind. destruct (w_session w ≫= se_streams); [by apply wp_ret|].
  apply wp_bind. eapply (wp_mono _ _ (λ _ w', quiet_world w') _ (λ e _, not_fuel e)); [exact Hw| |done].
  intros sts w1 Hw1. apply wp_modify_bind, wp_ret. intros se. simpl.
  intros (se' & Hse & ->)%fmap_Some. by apply (Hw1 se').
Qed.

Lemma prepare_external opts program args w :
  quiet_world w → wp (prepare opts program args) w (λ cp _, quiet_external (external_alloc cp.2)) (λ e _, not_fuel e).
Proof.
  intros Hw. unfold prepare. apply wp_bind.
  eapply (wp_mono _ _ (λ _ w', quiet_world w') _ (λ e _, not_fuel e)); [| |done].
  { destruct (eo_validate opts); [|by apply wp_ret]. unfold when, wp. by destruct (validate_program program). }
  intros [] w1 Hw1. apply wp_bind. eapply wp_mono; [by apply run_streams_session| |done].
  intros sts w2 Hw2. apply wp_bind. eapply wp_mono; [by apply run_pool_external| |done]. done.
Qed.

Lemma conclude_nf session (s : option (Run T)) e : not_fuel e → conclude session s e ≠ Err OutOfFuel.
Proof. intros He. unfold conclude. destruct e; simpl; try done. by destruct e. Qed.

Lemma finish_failed_nf provided (s : Run T) e s' : finish_failed provided s = (Err e, s') → not_fuel e.
Proof.
  assert (steady (λ _ : Run T, True) (finish_failed (T:=T) provided)) as Hf.
  { unfold finish_failed, reclaim, reclaim_slot. steady_tac; intros s3 _.
    - unfold wp, on_device. by destruct (drain_aborted _) as [[]].
    - unfold wp, on_pools. by destruct (put _ _) as [[] []].
    - unfold wp, on_pools. by destruct (put _ _) as [[] []]. }
  intros Hr. specialize (Hf s I). unfold wp in Hf. by rewrite Hr in Hf.
Qed.

Lemma run_program_nf opts program args session cfg s :
  quiet_external (external_alloc (rn_pool s)) → fst (run_program opts program args session cfg s) ≠ Err OutOfFuel.
Proof.
  intros Hx. unfold run_program. pose proof (calmly_setup_run _ Hx cfg program args s eq_refl) as Hs. unfold wp in Hs.
  destruct (setup_run _ _ _ _) as [[[]|e] s1]; [|by apply conclude_nf].
  set (chain := default _ _). set (prov := b_ref <$> _).
  pose proof (calmly_run_tasks cfg chain (size (ci_task_index chain)) (p_final_locations program) prov _ Hx
    (ea_resolver args) (ea_cancelled args) (eo_strict_final_locations opts) (p_tasks program) s1 Hs) as Ht.
  unfold wp in Ht. destruct (run_tasks _ _ _ _ _ _ _ _ _ _) as [[violations|e] s2]; [done|].
  destruct (finish_failed prov s2) as [[u|e'] s3] eqn:Hf; simpl; [by apply conclude_nf|].
  apply finish_failed_nf in Hf. by intros [= ->].
Qed.

(** A result of the program: a [RunResult] or an exception of its own. *)
Definition run_ends (r : result RunError (RunResult T)) : Prop :=
  match r with Ok _ => True | Err e => not_fuel e end.

(** C3: Every run of the engine ends: whatever the program, the placement, the
    timing of the backend, the executables and the session, [execute] returns a
    result or raises one of the engine's errors.  The waits of the dispatcher never
    run out of the fuel [measure] gives them, provided the external
    allocators of the session only allocate. *)
Theorem execute_terminates opts (program : Program T) args w :
  quiet_world w → run_ends (fst (execute opts program args w)).
Proof.
  intros Hw. unfold execute, run_ends. destruct (match w_session w with Some se => _ | None => _ end); [done|].
  pose proof (prepare_external opts program args w Hw) as Hp. unfold wp in Hp.
  destruct (prepare _ _ _ _) as [[[cfg p]|e] w1]; simpl.
  - pose proof (run_program_nf opts program args (bool_decide (is_Some (w_session w))) cfg
      (initial_run (w_dev w1) program p) Hp) as Hr.
    destruct (run_program _ _ _ _ _ _) as [[r|e] s]; simpl in *; [done|]. by intros ->.
  - pose proof (conclude_nf (bool_decide (is_Some (w_session w))) None e Hp) as Hc.
    destruct (conclude _ _ _); [done|]. by intros ->.
Qed.
End Exec.

Lemma execute_terminates_witness :
  quiet_world sample_world ∧ run_ends (fst (execute sample_opts sample_program sample_args sample_world)).
Proof.
  assert (quiet_world sample_world) as Hq by (intros se; discriminate).
  split; [exact Hq|]. apply (execute_terminates sample_opts sample_program sample_args sample_world Hq).
Defined.
