(* ===== verification/EngineInv.v ===== *)
(** * Memory invariants of the engine

    [Core tx tb db df dk s]: the object table is [tx], and counted against the
    table [tb] the ledger holds exactly the bytes of the objects resident at
    each location, up to [df] and [dk] bytes, and the pool has handed out exactly
    the buffers of the slots, up to [db].  Within an operation the tables
    differ where the code has changed the accounts before the table, and the
    differences are what is charged or taken but in no slot yet.  Between
    operations the tables agree, and the differences are what prefetches onto
    an existing fast copy leave behind ([Inv]). *)
From S2P Require Import Prelude SimSchema CoreProgram CoreValidate Ledger Slab Placement Device Objects Pool.
From S2P Require Import PoolInv PoolSafe RunState Transfers Engine.
From stdpp Require Import base tactics option list gmap strings pretty sorting.
From Stdlib Require Import ZArith Lia.
Open Scope Z_scope.

Section Table.
Context {T : Type}.
Implicit Types (r : ObjectRecord T) (tb : Table T).

Definition opt_buf (o : option (Slot T)) : list Buffer :=
  match o with Some sl => [sl_buffer sl] | None => [] end.
Definition rec_bufs r : list Buffer := opt_buf (or_fast r) ++ opt_buf (or_backing r).
Definition fast_cost r : list Z := match or_fast r with Some _ => [or_size_bytes r] | None => [] end.
Definition back_cost r : list Z := match or_backing r with Some _ => [or_size_bytes r] | None => [] end.

(** What every record contributes, in the order of the table. *)
Definition over {A} (f : ObjectRecord T → list A) tb : list A := mjoin (f <$> tb.*2).

Lemma over_values {A} (f : ObjectRecord T → list A) tb :
  over f tb = mjoin ((λ kv : string * ObjectRecord T, (kv.1, f kv.2)) <$> tb).*2.
Proof. unfold over. f_equal. rewrite <-!list_fmap_compose. done. Qed.

Lemma assoc_get_fmap {A} (f : ObjectRecord T → A) tb k :
  assoc_get ((λ kv, (kv.1, f kv.2)) <$> tb) k = f <$> assoc_get tb k.
Proof. induction tb as [|[k' v] tb IH]; simpl; [done|]. by destruct (decide (k = k')). Qed.

Lemma assoc_set_fmap {A} (f : ObjectRecord T → A) tb k r :
  assoc_set ((λ kv, (kv.1, f kv.2)) <$> tb) k (f r) = (λ kv, (kv.1, f kv.2)) <$> assoc_set tb k r.
Proof.
  induction tb as [|[k' v] tb IH]; simpl; [done|]. destruct (decide (k = k')); simpl; [done|].
  f_equal. apply IH.
Qed.

(** Updating the record of [k] exchanges its contribution. *)
Lemma over_set {A} (f : ObjectRecord T → list A) tb k : ∃ rest,
  Permutation (over f tb) (default [] (f <$> assoc_get tb k) ++ rest) ∧
  ∀ r, Permutation (over f (assoc_set tb k r)) (f r ++ rest).
Proof.
  destruct (assoc_set_join ((λ kv : string * ObjectRecord T, (kv.1, f kv.2)) <$> tb) k) as (rest & H1 & H2).
  exists rest. rewrite over_values, H1, assoc_get_fmap. split; [done|].
  intros r. rewrite over_values, <-assoc_set_fmap. apply H2.
Qed.

(** The contribution of one record, and a table of the others. *)
Lemma over_split {A} (f : ObjectRecord T → list A) tb k r :
  assoc_get tb k = Some r →
  ∃ tb', Permutation (over f tb) (f r ++ over f tb') ∧ ∀ k', k' ≠ k → assoc_get tb' k' = assoc_get tb k'.
Proof.
  intros (d1 & d2 & -> & Hk)%assoc_get_split. exists (d1 ++ d2). unfold over. split.
  - rewrite !fmap_app, !fmap_cons, !join_app. simpl. apply Permutation_app_swap_app.
  - intros k' Hne. clear Hk. induction d1 as [|[k1 r1] d1 IH]; simpl; [by rewrite decide_False|].
    by destruct (decide (k' = k1)).
Qed.

Definition fast_sum tb : Z := sumZ (over fast_cost tb).
Definition back_sum tb : Z := sumZ (over back_cost tb).

Lemma over_sum_set (f : ObjectRecord T → list Z) tb k r :
  sumZ (over f (assoc_set tb k r)) = sumZ (over f tb) - sumZ (default [] (f <$> assoc_get tb k)) + sumZ (f r).
Proof.
  destruct (over_set f tb k) as (rest & H1 & H2).
  rewrite (sumZ_perm _ _ (H2 r)), (sumZ_perm _ _ H1), !sumZ_app. lia.
Qed.
End Table.

Section Core.
Context {T : Type} `{Num T}.
Context (cfg : Config).
(** The caller's buffers, the objects' sizes and the capacities. *)
Context (F : list nat) (size_of : string → Z) (FC BC : option Z).
Implicit Types (s : Run T) (r : ObjectRecord T) (db : list Buffer) (tx tb : Table T).

Abbreviation RM := (M (Run T) RunError).

Definition owned (bs : list Buffer) : list Buffer := filter (λ b, b_ref b ∉ F) bs.

(** A slot's buffer can hold the object; one of the pool's has its size. *)
Definition slot_sized (oid : string) (o : option (Slot T)) : Prop :=
  ∀ sl, o = Some sl → size_of oid ≤ b_size_bytes (sl_buffer sl) ∧
    (b_ref (sl_buffer sl) ∉ F → b_size_bytes (sl_buffer sl) = size_of oid).

(** Fast buffers are the pool's. *)
Definition fast_owned (o : option (Slot T)) : Prop := ∀ sl, o = Some sl → b_ref (sl_buffer sl) ∉ F.

Record rec_ok (oid : string) r : Prop := {
  ro_size : or_size_bytes r = size_of oid;
  ro_pos : 0 < size_of oid;
  ro_fast : slot_sized oid (or_fast r);
  ro_back : slot_sized oid (or_backing r);
  ro_owned : fast_owned (or_fast r);
}.

Definition job_ok (j : TransferJob T) : Prop :=
  tj_size_bytes j = size_of (tj_object_id j) ∧ 0 < size_of (tj_object_id j).

Definition token_ok (t : Token T) : Prop :=
  match t with TransferDone _ j => job_ok j | TaskDone _ _ _ => True end.

Definition all_jobs s : list (TransferJob T) :=
  ln_queue (rn_h2d s) ++ ln_queue (rn_d2h s) ++ mjoin (rn_deferred s).*2.

Record Core tx tb db (df dk : Z) s : Prop := {
  co_table : rn_table s = tx;
  co_keys : NoDup tb.*1;
  co_pool : PoolInv F (rn_dev s) (rn_pool s) (owned (over rec_bufs tb) ++ db);
  co_fast : used_fast (rn_ledger s) = fast_sum tb + df;
  co_back : used_backing (rn_ledger s) = back_sum tb + dk;
  co_ledger : LedgerInv (rn_ledger s);
  co_calls : calls (rn_ledger s) = [] ∧ observed (rn_ledger s) = true;
  co_caps : fast_capacity (rn_ledger s) = FC ∧ backing_capacity (rn_ledger s) = BC;
  co_trace : Forall (λ p, 0 ≤ p.2 ∧ within FC p.2) (fast_trace (rn_trace s));
  co_recs : ∀ oid r, assoc_get tb oid = Some r → rec_ok oid r;
  co_jobs : Forall job_ok (all_jobs s);
  co_tokens : Forall (λ e : T * Z * Z * Token T, token_ok e.2) (pending (rn_dev s));
}.

(** The operations preserve it with differences [db], [df], [dk]. *)
Abbreviation stays tx tb db df dk m := (keeps (E := RunError) (Core tx tb db df dk) m).

(** ** Changes outside the accounted state *)
Lemma Core_dev tx tb db df dk s d' :
  Core tx tb db df dk s → next_ptr (rn_dev s) ≤ next_ptr d' → (next_ref (rn_dev s) ≤ next_ref d')%nat →
  Forall (λ e : T * Z * Z * Token T, token_ok e.2) (pending d') → Core tx tb db df dk (with_dev d' s).
Proof.
  intros [H0 HK H1 H2 H3 H4 H5 H6 H7 H8 H9 H10] Hp Hr Ht. split; try done. simpl.
  eapply (PoolInv_same F (rn_dev s) (rn_pool s)); [done|done|]. eapply Arena_mono; [by split|apply H1].
Qed.

Lemma keeps_on_device {A} tx tb db df dk (m : M (Fake T (Token T)) DeviceError A) :
  (∀ d a d', m d = (Ok a, d') → next_ptr d ≤ next_ptr d' ∧ (next_ref d ≤ next_ref d')%nat ∧
    ∀ e, e ∈ pending d' → e ∈ pending d) → stays tx tb db df dk (on_device m).
Proof.
  intros Hm s Hs. unfold wp, on_device. destruct (m (rn_dev s)) as [[a|e] d'] eqn:He; [|done].
  destruct (Hm _ _ _ He) as (Hp & Hr & Hin). apply Core_dev; [done..|].
  pose proof (co_tokens _ _ _ _ _ _ Hs) as Ht. rewrite Forall_forall in Ht |- *. auto.
Qed.

(** Fields no condition reads. *)
Lemma Core_fields tx tb db df dk s s' :
  Core tx tb db df dk s → rn_dev s' = rn_dev s → rn_pool s' = rn_pool s → rn_ledger s' = rn_ledger s →
  rn_table s' = rn_table s → fast_trace (rn_trace s') = fast_trace (rn_trace s) →
  Forall job_ok (all_jobs s') → Core tx tb db df dk s'.
Proof. intros [] Hd Hp Hl Ht Hf Hj. split; try congruence; by rewrite ?Hd, ?Hp, ?Hl, ?Ht, ?Hf. Qed.

Lemma keeps_plain tx tb db df dk f :
  (∀ s, rn_dev (f s) = rn_dev s ∧ rn_pool (f s) = rn_pool s ∧ rn_ledger (f s) = rn_ledger s ∧
    rn_table (f s) = rn_table s ∧ fast_trace (rn_trace (f s)) = fast_trace (rn_trace s) ∧
    all_jobs (f s) = all_jobs s) → stays tx tb db df dk (modify f).
Proof.
  intros Hf. apply keeps_modify. intros s Hs. destruct (Hf s) as (H1 & H2 & H3 & H4 & H5 & H6).
  eapply Core_fields; [done..|]. rewrite H6. apply Hs.
Qed.

Lemma keeps_add_event tx tb db df dk kind oid tid detail : stays tx tb db df dk (add_event kind oid tid detail).
Proof. by apply keeps_plain. Qed.
Lemma keeps_add_interval tx tb db df dk iv : stays tx tb db df dk (add_interval iv).
Proof. by apply keeps_plain. Qed.

(** ** The backend's operations *)
Ltac dev_op := apply keeps_on_device; intros d ? d' He;
  unfold record_event, stream_wait_event, align_stream_to_host, memset_async, modify, mbind, M_bind, mret, M_ret in He;
  simpl in He; simplify_eq; simpl; split_and!; try done; lia.

Lemma keeps_record_event tx tb db df dk st : stays tx tb db df dk (on_device (record_event st)).
Proof. dev_op. Qed.
Lemma keeps_stream_wait tx tb db df dk st e : stays tx tb db df dk (on_device (stream_wait_event st e)).
Proof. dev_op. Qed.
Lemma keeps_align tx tb db df dk st : stays tx tb db df dk (on_device (align_stream_to_host st)).
Proof. dev_op. Qed.
Lemma keeps_memset tx tb db df dk b v st : stays tx tb db df dk (on_device (memset_async b v st)).
Proof. dev_op. Qed.
Lemma keeps_set_guard tx tb db df dk b g : stays tx tb db df dk (on_device (modify (set_guard b g))).
Proof. dev_op. Qed.
Lemma keeps_memcpy tx tb db df dk dst src n st dur : stays tx tb db df dk (on_device (memcpy_async dst src n st dur)).
Proof.
  apply keeps_on_device. intros d a d' He. unfold memcpy_async in He. destruct dur; [|done].
  unfold advance_stream, mbind, M_bind in He. simpl in He. injection He as <- <-. simpl. split_and!; done || lia.
Qed.

(** A delivered token is one that was registered. *)
Lemma okw_next_completion tx tb db df dk s :
  Core tx tb db df dk s → okw (on_device next_completion) s
    (λ o s', Core tx tb db df dk s' ∧ ∀ token, o = Some token → token_ok token).
Proof.
  intros Hs. unfold wp, on_device, next_completion, mbind, M_bind. simpl.
  pose proof (co_tokens _ _ _ _ _ _ Hs) as Ht.
  destruct (pending (rn_dev s)) as [|[[[t p] q] tok] rest] eqn:Hp; simpl.
  - split; [|done]. by replace (with_dev (rn_dev s) s) with s by (by destruct s).
  - apply Forall_cons in Ht as [Htok Hrest]. split; [|by intros ? [= <-]]. by apply Core_dev.
Qed.

Lemma keeps_notify tx tb db df dk st e tok prio :
  token_ok tok → stays tx tb db df dk (on_device (notify_after st e tok prio)).
Proof.
  intros Htok s Hs. unfold wp, on_device, notify_after, mbind, M_bind. simpl. apply Core_dev; simpl; [done|lia..|].
  rewrite <-insert_sorted_perm. apply Forall_cons. split; [done|apply Hs].
Qed.
Hint Resolve keeps_add_event keeps_add_interval keeps_record_event keeps_stream_wait keeps_align
  keeps_memset keeps_set_guard keeps_memcpy : keeps.

Lemma keeps_ask_ledger {A} tx tb db df dk (f : Ledger → result LedgerError A) : stays tx tb db df dk (ask_ledger f).
Proof. intros s Hs. unfold wp, ask_ledger. by destruct (f (rn_ledger s)). Qed.
Lemma keeps_poison tx tb db df dk b : stays tx tb db df dk (poison cfg b).
Proof. unfold poison. keeps_tac. Qed.
Lemma keeps_wait_guards tx tb db df dk d b : stays tx tb db df dk (wait_guards cfg d b).
Proof. unfold wait_guards. keeps_tac. Qed.
Lemma keeps_interval_name tx tb db df dk d oid : stays tx tb db df dk (interval_name d oid).
Proof. unfold interval_name, set_lane. keeps_tac. apply keeps_plain. intros s1. by destruct d. Qed.
Lemma keeps_set_inflight tx tb db df dk d j : stays tx tb db df dk (set_inflight (T:=T) d j).
Proof. apply keeps_plain. intros s1. by destruct d. Qed.
Hint Resolve keeps_ask_ledger keeps_poison keeps_wait_guards keeps_interval_name keeps_set_inflight : keeps.

Lemma keeps_launch_copy tx tb db df dk d job dst src ready :
  job_ok job → stays tx tb db df dk (launch_copy cfg d job dst src ready).
Proof. intros Hj. unfold launch_copy. keeps_tac. by apply keeps_notify. Qed.

(** ** The ledger *)
Definition at_fast (l : Location) (n : Z) : Z := match l with Fast => n | _ => 0 end.
Definition at_back (l : Location) (n : Z) : Z := match l with Backing => n | _ => 0 end.

(** The ledger moved by [n] bytes at [l], and its observer was told. *)
Definition moved (l : Location) (n : Z) (l0 l1 : Ledger) : Prop :=
  used_fast l1 = used_fast l0 + at_fast l n ∧ used_backing l1 = used_backing l0 + at_back l n ∧
  fast_capacity l1 = fast_capacity l0 ∧ backing_capacity l1 = backing_capacity l0 ∧
  observed l1 = observed l0 ∧
  (calls l0 = [] → ∃ u, calls l1 = [(l, u)] ∧ (l = Fast → u = used_fast l1)).

Lemma charge_moved l n l0 : 0 < n → observed l0 = true → okw (charge l n) l0 (λ _, moved l n l0).
Proof.
  intros Hn Ho. unfold charge. rewrite (proj2 (Z.leb_gt n 0)) by done. destruct l; simpl; wp_auto; try done.
  all: simplify_eq; unfold notify, moved; simpl; rewrite Ho; simpl; split_and!; try done; try lia.
  all: intros ->; by eexists.
Qed.

Lemma release_moved l n l0 : 0 < n → observed l0 = true → okw (ledger_release l n) l0 (λ _, moved l (- n) l0).
Proof.
  intros Hn Ho. unfold ledger_release. rewrite (proj2 (Z.leb_gt n 0)) by done. destruct l; simpl; wp_auto; try done.
  all: simplify_eq; unfold notify, moved; simpl; rewrite Ho; simpl; split_and!; try done; try lia.
  all: intros ->; by eexists.
Qed.

Lemma okw_on_ledger tx tb db df dk s l n (m : M Ledger LedgerError unit) :
  Core tx tb db df dk s → keeps LedgerInv m → okw m (rn_ledger s) (λ _, moved l n (rn_ledger s)) →
  okw (on_ledger m) s (λ _, Core tx tb db (df + at_fast l n) (dk + at_back l n)).
Proof.
  intros [H0 HK H1 H2 H3 H4 H5 H6 H7 H8 H9 H10] Hk Hm. specialize (Hk _ H4). unfold wp, on_ledger in *.
  destruct (m (rn_ledger s)) as [[[]|e] l1]; [|done].
  destruct Hm as (E1 & E2 & E3 & E4 & E5 & E6). destruct H5 as [Hc Ho], H6 as [Hf Hb]. destruct (E6 Hc) as (u & Hcalls & Hu).
  split; simpl; try done; try lia; try (split; congruence).
  - by destruct Hk.
  - apply Forall_app. split; [done|]. unfold traced_calls. rewrite Hcalls. simpl. destruct l; try done.
    apply Forall_singleton. simpl. rewrite Hu by done. destruct Hk as [K1 _ K3 _]. split; [lia|].
    intros c Hc'. rewrite <-Hf, <-E3 in Hc'. specialize (K3 c Hc'). lia.
Qed.

Lemma okw_charge tx tb db df dk s l n :
  Core tx tb db df dk s → 0 < n →
  okw (on_ledger (charge l n)) s (λ _, Core tx tb db (df + at_fast l n) (dk + at_back l n)).
Proof. intros Hs Hn. apply okw_on_ledger; [done|apply keeps_charge|apply charge_moved; [done|apply Hs]]. Qed.

Lemma okw_release tx tb db df dk s l n :
  Core tx tb db df dk s → 0 < n →
  okw (on_ledger (ledger_release l n)) s (λ _, Core tx tb db (df - at_fast l n) (dk - at_back l n)).
Proof.
  intros Hs Hn. eapply wp_mono; [apply (okw_on_ledger tx tb db df dk s l (-n)); [done|apply keeps_ledger_release|]| |done].
  - apply release_moved; [done|apply Hs].
  - intros [] s'. by destruct l; simpl; rewrite ?Z.add_0_r, ?Z.sub_0_r, ?Z.add_opp_r.
Qed.

(** ** The pool *)
Lemma Core_pools tx tb db db' df dk s d p :
  Core tx tb db df dk s → pending d = pending (rn_dev s) → PoolInv F d p (owned (over rec_bufs tb) ++ db') →
  Core tx tb db' df dk (with_pool p (with_dev d s)).
Proof. intros [] Hp Hi. split; try done. simpl. by rewrite Hp. Qed.

(** A buffer was taken from the pool. *)
Definition taken tx tb db df dk (l : Location) (n : Z) (b : Buffer) s : Prop :=
  Core tx tb (b :: db) df dk s ∧ b_size_bytes b = n ∧ b_location b = l ∧ b_ref b ∉ F.

Lemma okw_take tx tb db df dk s l n (m : M (PS T (Token T)) PoolError Buffer) :
  Core tx tb db df dk s →
  okw m (rn_dev s, rn_pool s) (got F (rn_dev s) (owned (over rec_bufs tb) ++ db) l n) →
  okw (on_pools m) s (taken tx tb db df dk l n).
Proof.
  intros Hs Hm. unfold wp, on_pools in *. destruct (m _) as [[b|e] [d p]]; [|done].
  destruct Hm as (Hi & Hsz & Hl & Hd). simpl in *.
  split; [|split_and!; [done|done|]].
  - apply (Core_pools _ _ db); [done|apply Hd|]. by rewrite <-Permutation_middle.
  - pose proof (ar_refs _ _ _ _ (pi_arena _ _ _ _ Hi)) as Hr. by apply Forall_cons in Hr as [? _].
Qed.

Lemma okw_pool_take tx tb db df dk s l n tag :
  Core tx tb db df dk s → 0 < n → okw (on_pools (pool_get l n tag)) s (taken tx tb db df dk l n).
Proof. intros Hs Hn. apply okw_take; [done|]. apply okw_pool_get; [apply Hs|done]. Qed.
Lemma okw_escaped_take tx tb db df dk s l n tag :
  Core tx tb db df dk s → 0 < n → okw (on_pools (get_escaped l n tag)) s (taken tx tb db df dk l n).
Proof. intros Hs Hn. apply okw_take; [done|]. apply okw_get_escaped; [apply Hs|done]. Qed.

Lemma okw_give tx tb db df dk s b :
  Core tx tb (b :: db) df dk s → okw (on_pools (put b)) s (λ _, Core tx tb db df dk).
Proof.
  intros Hs. pose proof (co_pool _ _ _ _ _ _ Hs) as Hi. rewrite <-Permutation_middle in Hi.
  pose proof (okw_put F _ _ _ _ Hi) as Hp. unfold wp, on_pools in *. destruct (put b _) as [[[]|e] [d p]]; [|done].
  destruct Hp as [Hd Hi']. simpl in *. subst d. by apply (Core_pools _ _ (b :: db)).
Qed.

(** ** Records *)
Lemma owned_app bs bs' : owned (bs ++ bs') = owned bs ++ owned bs'.
Proof. apply filter_app. Qed.

(** The table counted against is exchanged for one with another record: what
    is in its slots no more is in the differences, and conversely. *)
Lemma Core_count tx tb db db' df df' dk dk' s oid r r' :
  Core tx tb db df dk s → assoc_get tb oid = Some r → rec_ok oid r' →
  Permutation (owned (rec_bufs r) ++ db) (owned (rec_bufs r') ++ db') →
  df' = df + sumZ (fast_cost r) - sumZ (fast_cost r') → dk' = dk + sumZ (back_cost r) - sumZ (back_cost r') →
  Core tx (assoc_set tb oid r') db' df' dk' s.
Proof.
  intros [H0 HK H1 H2 H3 H4 H5 H6 H7 H8 H9 H10] Hg Hr Hp -> ->. split; try done.
  - by apply assoc_set_keys.
  - destruct (over_set rec_bufs tb oid) as (rest & E1 & E2). rewrite Hg in E1. simpl in E1.
    assert (Permutation (owned (over rec_bufs (assoc_set tb oid r')) ++ db') (owned (over rec_bufs tb) ++ db)) as Hperm.
    { unfold owned in *. rewrite (E2 r'), E1, !filter_app, <-!(assoc (++)), !(Permutation_app_comm (filter _ rest)).
      rewrite !(assoc (++)). by rewrite Hp. }
    by rewrite Hperm.
  - unfold fast_sum. rewrite over_sum_set, Hg. unfold fast_sum in H2. simpl. lia.
  - unfold back_sum. rewrite over_sum_set, Hg. unfold back_sum in H3. simpl. lia.
  - intros oid' r1. destruct (decide (oid = oid')) as [<-|Hne].
    + rewrite assoc_get_set. by intros [= <-].
    + rewrite assoc_get_set_ne by done. apply H8.
Qed.

(** The buffers in the slots, before and after a record changes. *)
Lemma owned_set tb oid r' :
  Permutation (owned (over rec_bufs (assoc_set tb oid r')) ++ owned (default [] (rec_bufs <$> assoc_get tb oid)))
    (owned (rec_bufs r') ++ owned (over rec_bufs tb)).
Proof.
  destruct (over_set rec_bufs tb oid) as (rest & E1 & E2). unfold owned. rewrite (E2 r'), E1, !filter_app.
  rewrite <-(assoc (++)). f_equiv. apply Permutation_app_comm.
Qed.

(** A record without copies is added. *)
Lemma Core_add tx tb db df dk s oid r :
  Core tx tb db df dk s → assoc_get tb oid = None → rec_ok oid r → or_fast r = None → or_backing r = None →
  Core tx (assoc_set tb oid r) db df dk s.
Proof.
  intros [H0 HK H1 H2 H3 H4 H5 H6 H7 H8 H9 H10] Hg Hr Hf Hb. split; try done.
  - by apply assoc_set_keys.
  - pose proof (owned_set tb oid r) as Hp. rewrite Hg in Hp. unfold rec_bufs at 3 in Hp. rewrite Hf, Hb, app_nil_r in Hp.
    simpl in Hp. by rewrite Hp.
  - unfold fast_sum in *. rewrite over_sum_set, Hg. unfold fast_cost at 3. rewrite Hf. simpl. lia.
  - unfold back_sum in *. rewrite over_sum_set, Hg. unfold back_cost at 3. rewrite Hb. simpl. lia.
  - intros oid' r1. destruct (decide (oid = oid')) as [<-|Hne].
    + rewrite assoc_get_set. by intros [= <-].
    + rewrite assoc_get_set_ne by done. apply H8.
Qed.

Lemma okw_put_rec tx tb db df dk s oid r :
  Core tx tb db df dk s → okw (put_rec oid r) s (λ _, Core (assoc_set tx oid r) tb db df dk).
Proof. intros [H0 HK H1 H2 H3 H4 H5 H6 H7 H8 H9 H10]. apply wp_modify. split; try done. simpl. by rewrite H0. Qed.

(** The record of an object, as found in the table. *)
Lemma okw_get_rec {A} tb db df dk s oid (k : ObjectRecord T → RM A) Q :
  Core tb tb db df dk s → (∀ r, assoc_get tb oid = Some r → rec_ok oid r → okw (k r) s Q) →
  okw (get_rec oid ≫= k) s Q.
Proof.
  intros Hs Hk. unfold get_rec. apply wp_bind_assoc, wp_get_bind. unfold table_get. rewrite (co_table _ _ _ _ _ _ Hs).
  destruct (assoc_get tb oid) as [r|] eqn:Hg; [|done]. apply Hk; [done|]. by apply (co_recs _ _ _ _ _ _ Hs).
Qed.

(** The state, version or event of a slot changes: the buffers stay. *)
Definition same_buffers r r' : Prop :=
  or_size_bytes r' = or_size_bytes r ∧ opt_buf (or_fast r') = opt_buf (or_fast r) ∧
  opt_buf (or_backing r') = opt_buf (or_backing r).

Lemma slot_sized_buf oid o o' : opt_buf o' = opt_buf o → slot_sized oid o → slot_sized oid o'.
Proof. intros He Hs sl ->. destruct o as [sl'|]; simpl in He; [|done]. injection He as ->. by apply Hs. Qed.
Lemma fast_owned_buf o o' : opt_buf o' = opt_buf o → fast_owned o → fast_owned o'.
Proof. intros He Hs sl ->. destruct o as [sl'|]; simpl in He; [|done]. injection He as ->. by apply Hs. Qed.

Lemma rec_ok_same oid r r' : same_buffers r r' → rec_ok oid r → rec_ok oid r'.
Proof.
  intros (H1 & H2 & H3) []. split; [congruence|done|..];
    [by eapply slot_sized_buf|by eapply slot_sized_buf|by eapply fast_owned_buf].
Qed.

Lemma okw_put_same tb db df dk s oid r r' :
  Core tb tb db df dk s → assoc_get tb oid = Some r → same_buffers r r' →
  okw (put_rec oid r') s (λ _, Core (assoc_set tb oid r') (assoc_set tb oid r') db df dk).
Proof.
  intros Hs Hg Hsame. pose proof Hsame as (E1 & E2 & E3). eapply wp_mono; [by apply okw_put_rec| |done].
  intros [] s' Hs'. pose proof (co_recs _ _ _ _ _ _ Hs oid r Hg) as Hok.
  assert (fast_cost r' = fast_cost r ∧ back_cost r' = back_cost r ∧ rec_bufs r' = rec_bufs r) as (Ef & Eb & Er).
  { unfold fast_cost, back_cost, rec_bufs. rewrite E1, E2, E3.
    destruct (or_fast r), (or_fast r'), (or_backing r), (or_backing r'); by simplify_eq/=. }
  eapply Core_count; [done|done|by eapply rec_ok_same|by rewrite Er|rewrite Ef; lia|rewrite Eb; lia].
Qed.

Lemma slot_sized_none oid : slot_sized oid None.
Proof. by intros sl. Qed.
Lemma fast_owned_none : fast_owned None.
Proof. by intros sl. Qed.
Hint Resolve slot_sized_none fast_owned_none : core.

Lemma owned_cons b bs : b_ref b ∉ F → owned (b :: bs) = b :: owned bs.
Proof. intros Hb. unfold owned. rewrite filter_cons. by rewrite decide_True. Qed.
Lemma owned_in b : b_ref b ∉ F → owned [b] = [b].
Proof. intros Hb. unfold owned. rewrite filter_cons. by rewrite decide_True. Qed.
Lemma owned_out b : b_ref b ∈ F → owned [b] = [].
Proof. intros Hb. unfold owned. rewrite filter_cons. by rewrite decide_False by (intros Hx; by apply Hx). Qed.
Lemma owned_fast r : fast_owned (or_fast r) → owned (opt_buf (or_fast r)) = opt_buf (or_fast r).
Proof. intros Ho. destruct (or_fast r) as [sl|]; simpl; [|done]. by apply owned_in, Ho. Qed.

Lemma Core_drop_fast tx tb db df dk s oid r sl :
  Core tx tb db df dk s → assoc_get tb oid = Some r → or_fast r = Some sl →
  Core tx (assoc_set tb oid (set_slot Fast None r)) (sl_buffer sl :: db) (df + size_of oid) dk s.
Proof.
  intros Hs Hg Hf. pose proof (co_recs _ _ _ _ _ _ Hs oid r Hg) as [R1 R2 R3 R4 R5].
  eapply Core_count; [done|done|by split; simpl; auto|..];
    unfold rec_bufs, fast_cost, back_cost; simpl; rewrite ?Hf; simpl; try lia.
  rewrite owned_cons by (by apply R5). simpl. by rewrite Permutation_middle.
Qed.

Lemma Core_drop_back tx tb db df dk s oid r sl :
  Core tx tb db df dk s → assoc_get tb oid = Some r → or_backing r = Some sl →
  Core tx (assoc_set tb oid (set_slot Backing None r)) (owned [sl_buffer sl] ++ db) df (dk + size_of oid) s.
Proof.
  intros Hs Hg Hf. pose proof (co_recs _ _ _ _ _ _ Hs oid r Hg) as [R1 R2 R3 R4 R5].
  eapply Core_count; [done|done|by split; simpl; auto|..];
    unfold rec_bufs, fast_cost, back_cost; simpl; rewrite ?Hf; simpl; try lia.
  by rewrite !owned_app, app_nil_r, <-(assoc (++)).
Qed.

Lemma Core_fill_fast tx tb b db df dk s oid r sl :
  Core tx tb (b :: db) df dk s → assoc_get tb oid = Some r → sl_buffer sl = b →
  b_size_bytes b = size_of oid → b_ref b ∉ F →
  Core tx (assoc_set tb oid (set_slot Fast (Some sl) r)) (opt_buf (or_fast r) ++ db)
    (df + sumZ (fast_cost r) - size_of oid) dk s.
Proof.
  intros Hs Hg <- Hsz Hn. pose proof (co_recs _ _ _ _ _ _ Hs oid r Hg) as [R1 R2 R3 R4 R5].
  eapply Core_count; [done|done| |..].
  - split; simpl; auto; intros ? [= <-]; [|done]. split; [lia|done].
  - unfold rec_bufs. simpl. rewrite owned_cons, owned_app by done.
    rewrite (owned_fast r R5). cbn [app]. rewrite <-!Permutation_middle. constructor.
    rewrite <-(assoc (++)). apply Permutation_app_swap_app.
  - unfold fast_cost at 3. simpl. lia.
  - unfold back_cost. simpl. lia.
Qed.

Lemma Core_fill_back tx tb b db df dk s oid r sl :
  Core tx tb (b :: db) df dk s → assoc_get tb oid = Some r → or_backing r = None → sl_buffer sl = b →
  b_size_bytes b = size_of oid → b_ref b ∉ F →
  Core tx (assoc_set tb oid (set_slot Backing (Some sl) r)) db df (dk - size_of oid) s.
Proof.
  intros Hs Hg Hb <- Hsz Hn. pose proof (co_recs _ _ _ _ _ _ Hs oid r Hg) as [R1 R2 R3 R4 R5].
  eapply Core_count; [done|done| |..].
  - split; simpl; auto; intros ? [= <-]. split; [lia|done].
  - unfold rec_bufs. simpl. rewrite Hb. simpl. rewrite app_nil_r, owned_app, (owned_in (sl_buffer sl)) by done.
    by rewrite <-(assoc (++)).
  - unfold fast_cost. simpl. lia.
  - unfold back_cost. simpl. rewrite Hb. simpl. lia.
Qed.

(** A fast copy is given up: the common steps of a release, an eviction and
    the end of an offload. *)
Lemma okw_give_fast {A} tb db df dk s oid r sl n (f : unit → RM A) Q :
  Core tb tb db df dk s → assoc_get tb oid = Some r → or_fast r = Some sl → n = size_of oid →
  (∀ s', Core (assoc_set tb oid (set_slot Fast None r)) (assoc_set tb oid (set_slot Fast None r)) db df dk s' →
    okw (f tt) s' Q) →
  okw (on_ledger (ledger_release Fast n) ≫= λ _, poison cfg (sl_buffer sl) ≫= λ _,
       on_pools (put (sl_buffer sl)) ≫= λ _, put_rec oid (set_slot Fast None r) ≫= f) s Q.
Proof.
  intros Hs Hg Hf -> Hk. pose proof (co_recs _ _ _ _ _ _ Hs oid r Hg) as Hok.
  apply (Core_drop_fast _ _ _ _ _ _ oid r sl) in Hs; [|done..].
  eapply okw_bind; [by apply okw_release; [exact Hs|apply Hok]|]. intros [] s1 Hs1. simpl in Hs1.
  replace (df + size_of oid - size_of oid) with df in Hs1 by lia. rewrite Z.sub_0_r in Hs1.
  eapply okw_bind; [by apply keeps_poison|]. intros [] s2 Hs2.
  eapply okw_bind; [by apply okw_give|]. intros [] s3 Hs3.
  eapply okw_bind; [by apply okw_put_rec|]. intros [] s4 Hs4. by apply Hk.
Qed.

(** ** The transfer lanes *)
Definition Inv s : Prop := ∃ tb db df, 0 ≤ df ∧ Core tb tb db df 0 s.

Lemma all_jobs_queue d s (f : list (TransferJob T) → list (TransferJob T)) (l : Lane T) :
  ln_queue l = f (ln_queue (lane d s)) → (∀ q, Forall job_ok q → Forall job_ok (f q)) →
  Forall job_ok (all_jobs s) → Forall job_ok (all_jobs (with_lane d l s)).
Proof.
  unfold all_jobs. rewrite !Forall_app. intros Hl Hf (H1 & H2 & H3).
  destruct d; simpl in *; rewrite Hl; split_and!; auto.
Qed.

Lemma keeps_set_queue tx tb db df dk d (g : Lane T → Lane T) f :
  (∀ l, ln_queue (g l) = f (ln_queue l)) → (∀ q, Forall job_ok q → Forall job_ok (f q)) →
  stays tx tb db df dk (set_lane d g).
Proof.
  intros Hg Hf. apply keeps_modify. intros s Hs.
  eapply Core_fields; [exact Hs|by destruct d..|]. eapply all_jobs_queue; [apply Hg|done|apply Hs].
Qed.

Lemma keeps_pop_head tx tb db df dk d : stays tx tb db df dk (pop_head d).
Proof. apply (keeps_set_queue _ _ _ _ _ _ _ tail); [done|]. intros [|j q]; [done|]. by intros [_ ?]%Forall_cons. Qed.

Lemma stays_enqueue tx tb db df dk d job : job_ok job → stays tx tb db df dk (enqueue d job).
Proof.
  intros Hj. apply keeps_bind; [|intros []; apply keeps_add_event].
  apply (keeps_set_queue _ _ _ _ _ _ _ (λ q, q ++ [job])); [done|]. intros q Hq. by rewrite Forall_app, Forall_singleton.
Qed.

Lemma Inv_head s d job q :
  Inv s → ln_queue (lane d s) = job :: q → job_ok job.
Proof.
  intros (tb & db & df & _ & Hs) Hq. pose proof (co_jobs _ _ _ _ _ _ Hs) as Hj. unfold all_jobs in Hj.
  rewrite !Forall_app in Hj. destruct Hj as (H1 & H2 & _).
  destruct d; simpl in Hq; rewrite Hq in *; by apply Forall_cons in H1 as [? _] || apply Forall_cons in H2 as [? _].
Qed.

(** A test that leaves the state alone. *)
Lemma okw_ask {A B} s (f : Ledger → result LedgerError A) (k : A → RM B) Q :
  (∀ a, okw (k a) s Q) → okw (ask_ledger f ≫= k) s Q.
Proof. intros Hk. apply wp_bind. unfold wp at 1, ask_ledger. destruct (f (rn_ledger s)); [apply Hk|done]. Qed.

(** A transfer to fast memory may have taken a buffer and filled a slot: every
    buffer held is still held, and at most one object has another fast copy. *)
Definition grown tb db s : Prop :=
  ∃ tb' db' df' new, 0 ≤ df' ∧ Core tb' tb' db' df' 0 s ∧
    Permutation (owned (over rec_bufs tb') ++ db') (new ++ owned (over rec_bufs tb) ++ db) ∧
    ∃ o, ∀ oid r, assoc_get tb' oid = Some r →
      assoc_get tb oid = Some r ∨ oid = o ∧ ∃ sl, or_fast r = Some sl ∧ new = [sl_buffer sl].

Lemma grown_refl tb db df s : Core tb tb db df 0 s → 0 ≤ df → grown tb db s.
Proof. intros Hs Hdf. exists tb, db, df, []. split_and!; try done. exists ""%string. by left. Qed.

Lemma okw_start_prefetch tb db df s job r src escape :
  Core tb tb db df 0 s → 0 ≤ df → assoc_get tb (tj_object_id job) = Some r → job_ok job →
  okw (start_prefetch cfg job r src escape) s (λ _, grown tb db).
Proof.
  intros Hs Hdf Hg [Hj Hpos]. unfold start_prefetch. set (oid := tj_object_id job) in *. rewrite Hj. fold oid. fold oid in Hpos.
  assert (grown tb db s) as HI by (by eapply grown_refl).
  apply okw_ask. intros ok. destruct (negb ok); [by apply wp_ret|]. apply wp_gets_bind.
  set (blocked := negb _). destruct (blocked && negb escape); [by apply wp_ret|].
  eapply okw_bind; [by apply keeps_pop_head|]. intros [] s1 Hs1.
  eapply okw_bind; [by apply okw_charge|]. intros [] s2 Hs2. simpl in Hs2. rewrite Z.add_0_r in Hs2.
  eapply okw_bind; [by apply keeps_add_event|]. intros [] s3 Hs3.
  eapply (okw_bind _ _ _ (taken tb tb db (df + size_of oid) 0 Fast (size_of oid))).
  { destruct blocked; [by apply okw_escaped_take|by apply okw_pool_take]. }
  intros dst s4 (Hs4 & Hsz & _ & Hn). eapply okw_bind; [by apply okw_put_rec|]. intros [] s5 Hs5.
  apply (Core_fill_fast _ _ dst _ _ _ _ oid r (mkSlot dst Inbound (sl_version src) None)) in Hs5; [|done..].
  eapply wp_mono; [eapply keeps_launch_copy; [|exact Hs5]; by split| |done].
  intros [] s6 Hs6. pose proof (co_recs _ _ _ _ _ _ Hs oid r Hg) as [R1 R2 R3 R4 R5].
  eexists _, _, _, [dst]. split_and!; [|exact Hs6| |].
  - unfold fast_cost. destruct (or_fast r); simpl; lia.
  - pose proof (owned_set tb oid (set_slot Fast (Some (mkSlot dst Inbound (sl_version src) None)) r)) as Hp.
    rewrite Hg in Hp. unfold rec_bufs at 2 3 in Hp. cbn [default from_option fmap option_fmap option_map id] in Hp.
    simpl in Hp. rewrite owned_cons, owned_app, (owned_fast r R5) in Hp by done.
    apply (Permutation_app_inv_r (owned (opt_buf (or_backing r)))).
    rewrite <-!(assoc (++)). rewrite (Permutation_app_comm db).
    rewrite (assoc (++) (opt_buf _)), (assoc (++) (owned (over _ _))), Hp. simpl. constructor.
    rewrite !(assoc (++)). f_equiv. apply Permutation_app_comm.
  - exists oid. intros oid' r1. destruct (decide (oid = oid')) as [<-|Hne].
    + rewrite assoc_get_set. intros [= <-]. right. split; [done|]. by eexists.
    + rewrite assoc_get_set_ne by done. by left.
Qed.

Lemma grown_Inv tb db s : grown tb db s → Inv s.
Proof. intros (tb' & db' & df' & new & Hdf & Hs & _). by exists tb', db', df'. Qed.

Lemma okw_start_offload tb db df s job r src :
  Core tb tb db df 0 s → 0 ≤ df → assoc_get tb (tj_object_id job) = Some r → or_fast r = Some src → job_ok job →
  okw (start_offload cfg job r src) s (λ _, Inv).
Proof.
  intros Hs Hdf Hg Hsrc [Hj Hpos]. unfold start_offload. set (oid := tj_object_id job) in *. rewrite Hj. fold oid. fold oid in Hpos.
  assert (Inv s) as HI by (by exists tb, db, df).
  apply okw_ask. intros ok. destruct (negb ok); [by apply wp_ret|].
  eapply okw_bind; [by apply keeps_pop_head|]. intros [] s1 Hs1.
  eapply (okw_bind _ _ _ (λ _ s', ∃ tb' r', Core tb' tb' db df 0 s' ∧ assoc_get tb' oid = Some r' ∧ or_fast r' = Some src)).
  { destruct (or_backing r) as [existing|] eqn:Hb.
    - eapply okw_bind; [eapply okw_put_same; [exact Hs1|exact Hg|]|].
      + split_and!; [done|done|]. simpl. by rewrite Hb.
      + intros [] s2 Hs2. apply wp_ret. do 2 eexists. split; [exact Hs2|]. by rewrite assoc_get_set.
    - eapply okw_bind; [by apply okw_charge|]. intros [] s2 Hs2. simpl in Hs2. rewrite Z.add_0_r in Hs2.
      eapply okw_bind; [by apply okw_pool_take|]. intros dst s3 (Hs3 & Hsz & _ & Hn).
      eapply okw_bind; [by apply okw_put_rec|]. intros [] s4 Hs4. apply wp_ret.
      apply (Core_fill_back _ _ dst _ _ _ _ oid r (mkSlot dst Inbound (sl_version src) None)) in Hs4; [|done..].
      rewrite Z.add_0_l, Z.sub_diag in Hs4. do 2 eexists. split; [exact Hs4|]. by rewrite assoc_get_set. }
  intros dst s2 (tb' & r' & Hs2 & Hg' & Hf').
  eapply okw_get_rec; [exact Hs2|]. intros r2 Hr2 _. assert (r2 = r') as -> by congruence.
  eapply okw_bind; [eapply okw_put_same; [exact Hs2|exact Hg'|]|].
  - split_and!; [done| |done]. simpl. by rewrite Hf'.
  - intros [] s4 Hs4. eapply wp_mono; [eapply keeps_launch_copy; [|exact Hs4]; by split| |done].
    intros [] s5 Hs5. do 3 eexists. split; [exact Hdf|exact Hs5].
Qed.

(** A start on the lane to fast memory. *)
Lemma okw_try_prefetch tb db df s :
  Core tb tb db df 0 s → 0 ≤ df → okw (try_start cfg from_slow) s (λ _, grown tb db).
Proof.
  intros Hs Hdf. unfold try_start, try_start_with. apply wp_get_bind.
  destruct (ln_inflight (lane from_slow s)); [by apply wp_ret; eapply grown_refl|].
  destruct (ln_queue (lane from_slow s)) as [|job q] eqn:Hq; [by apply wp_ret; eapply grown_refl|].
  assert (job_ok job) as Hj by (eapply Inv_head; [by exists tb, db, df|exact Hq]).
  eapply okw_get_rec; [exact Hs|]. intros r Hg _.
  destruct (or_backing r) as [src|]; [|done]. by eapply okw_start_prefetch.
Qed.

Lemma stays_try_start e d : keeps Inv (try_start_with cfg e d).
Proof.
  intros s Hs. unfold try_start_with. apply wp_get_bind.
  destruct (ln_inflight (lane d s)); [by apply wp_ret|].
  destruct (ln_queue (lane d s)) as [|job q] eqn:Hq; [by apply wp_ret|].
  pose proof (Inv_head _ _ _ _ Hs Hq) as Hj. destruct Hs as (tb & db & df & Hdf & Hs).
  eapply okw_get_rec; [exact Hs|]. intros r Hg _. destruct d.
  - destruct (or_backing r) as [src|]; [|done].
    eapply wp_mono; [by eapply okw_start_prefetch|intros [] s'; apply grown_Inv|done].
  - destruct (or_fast r) as [src|] eqn:Hf; [|done]. by eapply okw_start_offload.
Qed.
End Core.
