(* ===== verification/EngineSafe.v ===== *)
(** * The engine keeps its memory invariant

    Every token handler, every round of a wait and every dispatch re-establishes
    [Inv], so at each launch the buffers of the task are the pool's, of the
    objects' sizes and apart, and the ledger covers what is resident. *)
From S2P Require Import Prelude SimSchema CoreProgram CoreValidate Ledger Slab Placement Device Objects Pool.
From S2P Require Import PoolInv PoolSafe RunState Transfers Engine Execute EngineInv.
From stdpp Require Import base tactics option list gmap strings pretty sorting.
From Stdlib Require Import ZArith Lia.
Open Scope Z_scope.

Section Safe.
Context {T : Type} `{Num T}.
Context (cfg : Config) (chain : ChainIndex) (ntasks : nat) (finals : list (string * Location)).
Context (F : list nat) (size_of : string → Z) (FC BC : option Z).
Implicit Types (s : Run T) (r : ObjectRecord T) (db : list Buffer) (tx tb : Table T).

Abbreviation RM := (M (Run T) RunError).
Abbreviation Core := (Core F size_of FC BC).
Abbreviation Inv := (Inv (T := T) F size_of FC BC).
Abbreviation job_ok := (job_ok size_of).

Lemma Inv_intro tb db df s : Core tb tb db df 0 s → 0 ≤ df → Inv s.
Proof. intros Hs Hdf. by exists tb, db, df. Qed.

Lemma Inv_post {A} tb db df (m : RM A) s :
  okw m s (λ _, Core tb tb db df 0) → 0 ≤ df → okw m s (λ _, Inv).
Proof. intros Hm Hdf. eapply wp_mono; [exact Hm| |done]. intros a s' Hs'. by exists tb, db, df. Qed.

(** A computation that keeps every [Core] keeps [Inv]. *)
Lemma Inv_keeps {A} (m : RM A) : (∀ tb db df, keeps (Core tb tb db df 0) m) → keeps Inv m.
Proof.
  intros Hm s (tb & db & df & Hdf & Hs). eapply wp_mono; [by apply Hm| |done].
  intros a s' Hs'. by exists tb, db, df.
Qed.

(** ** Completion of a transfer *)
Lemma stays_complete d job : job_ok job → keeps Inv (complete cfg d job).
Proof.
  intros [Hj Hpos] s (tb & db & df & Hdf & Hs). unfold complete. set (oid := tj_object_id job) in *. apply wp_get_bind.
  apply wp_check_bind; [intros _|done]. eapply okw_get_rec; [exact Hs|]. intros r Hg Hok.
  eapply (okw_bind _ _ _ (λ _, Inv)).
  { destruct d.
    - destruct (or_fast r) as [sl|] eqn:Hf; [|done].
      eapply Inv_post; [eapply okw_put_same; [exact Hs|exact Hg|]|done].
      split_and!; [done| |done]. simpl. by rewrite Hf.
    - destruct (or_fast r) as [sl|] eqn:Hf; [|done]. apply wp_check_bind; [intros _|done].
      eapply okw_give_fast; [exact Hs|exact Hg|exact Hf|exact Hj|]. intros s1 Hs1.
      destruct (or_backing r) as [bk|] eqn:Hb; [|done].
      eapply Inv_post; [eapply okw_put_same; [exact Hs1|apply assoc_get_set|]|done].
      split_and!; [done|done|]. simpl. by rewrite Hb. }
  intros [] s1 Hs1. eapply okw_bind; [apply Inv_keeps; [|exact Hs1]; intros; apply keeps_set_inflight|]. intros [] s2 Hs2.
  destruct (tj_start_event job), (tj_done_event job); try done.
  eapply okw_bind; [apply Inv_keeps; [|exact Hs2]; intros; by apply keeps_plain|]. intros [] s3 Hs3.
  apply Inv_keeps; [|exact Hs3]. intros; apply keeps_add_event.
Qed.

(** ** The end of a task *)
Lemma keeps_output_live done_ out : keeps Inv (output_live (T:=T) done_ out).
Proof.
  intros s (tb & db & df & Hdf & Hs). unfold output_live. eapply okw_get_rec; [exact Hs|]. intros r Hg Hok.
  destruct (slot (ous_location out) r) as [sl|] eqn:Hl; [|done]. apply wp_check_bind; [intros _|done].
  eapply Inv_post; [eapply okw_put_same; [exact Hs|exact Hg|]|done].
  destruct (ous_location out); simpl in *; split_and!; simpl; by rewrite ?Hl.
Qed.

Lemma keeps_mutate_one task done_ oid : keeps Inv (mutate_one (T:=T) task done_ oid).
Proof.
  intros s (tb & db & df & Hdf & Hs). unfold mutate_one. eapply okw_get_rec; [exact Hs|]. intros r Hg Hok.
  eapply okw_bind; [eapply okw_put_same; [exact Hs|exact Hg|done]|]. intros [] s1 Hs1.
  destruct (or_fast r) as [sl|] eqn:Hf; [|done].
  eapply okw_bind; [eapply okw_put_same; [exact Hs1|apply assoc_get_set|]|].
  - split_and!; [done| |done]. simpl. by rewrite Hf.
  - intros [] s2 Hs2. eapply Inv_post; [by apply keeps_add_event|done].
Qed.

Lemma okw_release_backing tb db df s oid r sl :
  Core tb tb db df 0 s → assoc_get tb oid = Some r → or_backing r = Some sl →
  okw (release_backing F oid r sl) s (λ _ s', ∃ tb', Core tb' tb' db df 0 s').
Proof.
  intros Hs Hg Hb. pose proof (co_recs _ _ _ _ _ _ _ _ _ _ Hs oid r Hg) as Hok. unfold release_backing.
  apply (Core_drop_back _ _ _ _ _ _ _ _ _ _ oid r sl) in Hs; [|done..].
  rewrite (ro_size _ _ _ _ Hok).
  eapply okw_bind; [apply okw_release; [exact Hs|apply Hok]|]. intros [] s1 Hs1. cbn [at_fast at_back] in Hs1.
  rewrite Z.sub_0_r, Z.add_0_l, Z.sub_diag in Hs1.
  eapply okw_bind; [by apply okw_put_rec|]. intros [] s2 Hs2. unfold when. case_bool_decide as Hp; simpl.
  - apply wp_ret. rewrite owned_out in Hs2 by done. by eexists.
  - rewrite owned_in in Hs2 by done. eapply wp_mono; [by apply okw_give| |done]. intros [] s3 Hs3. by eexists.
Qed.

Lemma stays_release_one task oid : keeps Inv (release_one cfg chain finals F task oid).
Proof.
  intros s (tb & db & df & Hdf & Hs). unfold release_one. eapply okw_get_rec; [exact Hs|]. intros r Hg Hok.
  destruct (or_fast r) as [sl|] eqn:Hf; [|done]. apply wp_check_bind; [intros _|done].
  eapply okw_give_fast; [exact Hs|exact Hg|exact Hf|apply Hok|]. intros s1 Hs1.
  apply wp_lift_bind; [intros dead _|done].
  eapply (okw_bind _ _ _ (λ _ s', ∃ tb', Core tb' tb' db df 0 s')).
  { destruct (or_backing _) as [bs|] eqn:Hb; [|apply wp_ret; by eexists].
    unfold when. destruct (_ && _); [|apply wp_ret; by eexists].
    eapply okw_release_backing; [exact Hs1|apply assoc_get_set|done]. }
  intros [] s2 [tb' Hs2]. eapply Inv_post; [by apply keeps_add_event|done].
Qed.

Lemma make_job_ok task trig r done_ :
  rec_ok F size_of (td_object_id trig) r → job_ok (make_job (T:=T) task trig (or_size_bytes r) done_).
Proof. intros []. by split. Qed.

Lemma stays_offload_one task done_ trig : keeps Inv (offload_one (T:=T) task done_ trig).
Proof.
  intros s (tb & db & df & Hdf & Hs). unfold offload_one. eapply okw_get_rec; [exact Hs|]. intros r Hg Hok.
  destruct (or_fast r) as [src|] eqn:Hf; [|done]. apply wp_check_bind; [intros _|done].
  eapply (okw_bind _ _ _ (λ _ s', s' = s)); [by wp_auto|]. intros [] s1 ->.
  eapply okw_bind; [eapply okw_put_same; [exact Hs|exact Hg|]|].
  - split_and!; [done| |done]. simpl. by rewrite Hf.
  - intros [] s2 Hs2. eapply Inv_post; [|done]. apply stays_enqueue; [by apply make_job_ok|exact Hs2].
Qed.

(** Deferred transfers are the transfers of their keys' lists. *)
Lemma keeps_set_deferred tx tb db df dk f :
  (∀ q, Forall job_ok (mjoin q.*2) → Forall job_ok (mjoin (f q).*2)) →
  keeps (E := RunError) (Core tx tb db df dk) (modify (λ s, with_deferred (f (rn_deferred s)) s)).
Proof.
  intros Hf. apply keeps_modify. intros s Hs. eapply Core_fields; [exact Hs|done..|].
  pose proof (co_jobs _ _ _ _ _ _ _ _ _ _ Hs) as Hj. unfold all_jobs in *. rewrite !Forall_app in *. simpl.
  destruct Hj as (H1 & H2 & H3). split_and!; auto.
Qed.

Lemma stays_defer tx tb db df dk oid job :
  job_ok job → keeps (E := RunError) (Core tx tb db df dk) (modify (λ s, with_deferred (assoc_set (rn_deferred s) oid
    (default [] (assoc_get (rn_deferred s) oid) ++ [job])) s)).
Proof.
  intros Hj. apply (keeps_set_deferred _ _ _ _ _ (λ q, assoc_set q oid (default [] (assoc_get q oid) ++ [job]))).
  intros q Hq. destruct (assoc_set_join q oid) as (rest & H1 & H2). rewrite H1 in Hq. rewrite H2.
  rewrite !Forall_app in *. rewrite Forall_singleton. tauto.
Qed.

Lemma stays_prefetch_one task done_ trig : keeps Inv (prefetch_one (T:=T) task done_ trig).
Proof.
  intros s (tb & db & df & Hdf & Hs). unfold prefetch_one. eapply okw_get_rec; [exact Hs|]. intros r Hg Hok.
  pose proof (make_job_ok task trig r done_ Hok) as Hj.
  eapply (okw_bind _ _ _ (λ _ s', s' = s)); [by wp_auto|]. intros [] s1 ->.
  eapply okw_bind; [by apply keeps_plain|]. intros [] s2 Hs2. eapply Inv_post; [|exact Hdf]. destruct (_ || _).
  - eapply okw_bind; [by apply stays_defer|]. intros [] s3 Hs3. by apply keeps_add_event.
  - apply wp_check_bind; [intros _|done]. by apply stays_enqueue.
Qed.

Lemma keeps_on_task_done task start_ done_ : keeps Inv (on_task_done cfg chain finals F task start_ done_).
Proof.
  unfold on_task_done. apply keeps_bind; [|intros []].
  { apply Inv_keeps. intros. apply keeps_plain. intros s. by case_bool_decide. }
  keeps_tac.
  all: eauto using keeps_output_live, keeps_mutate_one, stays_release_one, stays_offload_one, stays_prefetch_one,
    stays_try_start.
  apply Inv_keeps. intros. by apply keeps_plain.
Qed.

Lemma deferred_ok s oid : Inv s → Forall job_ok (default [] (assoc_get (rn_deferred s) oid)).
Proof.
  intros (tb & db & df & _ & Hs). pose proof (co_jobs _ _ _ _ _ _ _ _ _ _ Hs) as Hj. unfold all_jobs in Hj.
  rewrite !Forall_app in Hj. destruct Hj as (_ & _ & Hj).
  destruct (assoc_set_join (rn_deferred s) oid) as (rest & H1 & _). rewrite H1, Forall_app in Hj. apply Hj.
Qed.

Lemma keeps_on_transfer_done d job : job_ok job → keeps Inv (on_transfer_done cfg d job).
Proof.
  intros Hj. unfold on_transfer_done. apply keeps_bind; [by apply stays_complete|intros []].
  destruct d; [apply stays_try_start|]. apply keeps_get_bind. intros s Hs.
  pose proof (deferred_ok s (tj_object_id job) Hs) as Hd. rewrite Forall_forall in Hd.
  apply keeps_bind; [|intros []; apply keeps_bind; [|intros []; apply keeps_bind; [|intros []]]].
  - apply Inv_keeps. intros tb db df. apply (keeps_set_deferred _ _ _ _ _ (λ q, assoc_del q (tj_object_id job))).
    intros q Hq. destruct (assoc_get q (tj_object_id job)) as [w|] eqn:Hg.
    + apply assoc_get_split in Hg as (d1 & d2 & -> & Hk). rewrite assoc_del_middle by done.
      rewrite fmap_app, fmap_cons, join_app in Hq. rewrite fmap_app, join_app. simpl in Hq. rewrite !Forall_app in *. tauto.
    + apply assoc_get_none in Hg. by rewrite assoc_del_absent.
  - apply keeps_forM. intros j Hin. apply Inv_keeps. intros. apply stays_enqueue. by apply Hd.
  - apply stays_try_start.
  - apply stays_try_start.
Qed.

Lemma keeps_handle token : token_ok size_of token → keeps Inv (handle cfg chain finals F token).
Proof. destruct token as [task st dn|d job]; simpl; [intros _; apply keeps_on_task_done|by apply keeps_on_transfer_done]. Qed.

(** ** The eviction valve *)
Lemma find_victim_spec exclude cursor tb nxt size oid r :
  find_victim chain exclude cursor tb = Some (nxt, size, oid, r) →
  (oid, r) ∈ tb ∧ size = or_size_bytes r ∧ is_Some (or_fast r).
Proof.
  intros Hv.
  cut (match find_victim chain exclude cursor tb with
       | Some (_, size, oid, r) => (oid, r) ∈ tb ∧ size = or_size_bytes r ∧ is_Some (or_fast r)
       | None => True end); [by rewrite Hv|]. clear Hv. unfold find_victim.
  apply (foldl_ind (λ best, match best with
    | Some (_, size, oid, r) => (oid, r) ∈ tb ∧ size = or_size_bytes r ∧ is_Some (or_fast r)
    | None => True end)); [done|]. intros [o r1] best Hin Hb. cbn [fst snd].
  destruct (next_use chain exclude cursor o r1) as [n|] eqn:Hn; [|done].
  assert (is_Some (or_fast r1)) as Hf by (unfold next_use in Hn; destruct (or_fast r1); [by eexists|done]).
  unfold better_victim. destruct best as [[[[n0 z0] o0] r0]|]; [|done]. by destruct (_ || _).
Qed.

Lemma assoc_get_in tb oid r : NoDup tb.*1 → (oid, r) ∈ tb → assoc_get tb oid = Some r.
Proof.
  intros Hk Hin. destruct (assoc_get tb oid) as [r'|] eqn:Hg.
  - apply assoc_get_split in Hg as (d1 & d2 & -> & Hn). f_equal.
    rewrite fmap_app, fmap_cons in Hk. apply NoDup_app in Hk as (_ & _ & [Hn2 _]%NoDup_cons).
    apply elem_of_app in Hin as [Hin|[Hin|Hin]%elem_of_cons]; [|by simplify_eq|].
    + destruct Hn. apply list_elem_of_fmap. by exists (oid, r).
    + destruct Hn2. apply list_elem_of_fmap. by exists (oid, r).
  - apply assoc_get_none in Hg. destruct Hg. apply list_elem_of_fmap. by exists (oid, r).
Qed.

Lemma keeps_evict exclude : keeps Inv (evict_for_pressure cfg chain ntasks exclude).
Proof.
  intros s Hs0. unfold evict_for_pressure. apply wp_get_bind.
  destruct (_ <=? _)%nat; [by apply wp_ret|]. destruct Hs0 as (tb & db & df & Hdf & Hs).
  destruct (find_victim _ _ _ _) as [[[[nxt size] oid] r]|] eqn:Hv; [|by eapply Inv_post; [apply wp_ret|]].
  apply find_victim_spec in Hv as (Hin & -> & [sl Hf]). rewrite Hf.
  rewrite (co_table _ _ _ _ _ _ _ _ _ _ Hs) in Hin.
  apply assoc_get_in in Hin; [|apply Hs]. pose proof (co_recs _ _ _ _ _ _ _ _ _ _ Hs oid r Hin) as Hok.
  eapply okw_give_fast; [exact Hs|exact Hin|exact Hf|apply Hok|]. intros s1 Hs1.
  eapply okw_bind; [by apply keeps_plain|]. intros [] s2 Hs2.
  eapply okw_bind; [by apply keeps_add_event|]. intros [] s3 Hs3.
  eapply okw_bind; [by apply keeps_record_event|]. intros anchor s4 Hs4.
  eapply okw_bind; [apply stays_enqueue; [|exact Hs4]; by destruct Hok|]. intros [] s5 Hs5. by eapply Inv_post; [apply wp_ret|].
Qed.

(** ** Rounds and waits *)
Lemma keeps_no_token exclude pump : keeps Inv (no_token cfg chain ntasks exclude pump).
Proof.
  unfold no_token, escape_blocked_head. keeps_tac; eauto using stays_try_start, keeps_evict.
  all: apply Inv_keeps; intros; apply keeps_ask_ledger || apply keeps_add_event.
Qed.

Lemma keeps_next {A} (k : option (Token T) → RM A) :
  (∀ token, token_ok size_of token → keeps Inv (k (Some token))) → keeps Inv (k None) →
  keeps Inv (on_device next_completion ≫= k).
Proof.
  intros Hs Hn s (tb & db & df & Hdf & Hi). eapply okw_bind; [by apply okw_next_completion|].
  intros [token|] s' [Hs' Ht]; [|by apply Hn; eexists _, _, _]. apply Hs; [by apply Ht|by eexists _, _, _].
Qed.

Lemma keeps_step exclude pump : keeps Inv (step cfg chain ntasks finals F exclude pump).
Proof. apply keeps_next; [apply keeps_handle|apply keeps_no_token]. Qed.

Lemma keeps_wait_retired fuel exclude : keeps Inv (wait_retired cfg chain ntasks finals F fuel exclude).
Proof. induction fuel as [|fuel IH]; simpl; keeps_tac; eauto using keeps_step. Qed.
Lemma keeps_wait_inputs fuel task : keeps Inv (wait_inputs cfg chain ntasks finals F fuel task).
Proof. induction fuel as [|fuel IH]; simpl; keeps_tac; eauto using keeps_step. Qed.
Lemma keeps_drain_tokens fuel : keeps Inv (drain_tokens cfg chain finals F fuel).
Proof.
  induction fuel as [|fuel IH]; simpl; [keeps_tac|]. apply keeps_next; [|keeps_tac].
  intros token Ht. apply keeps_bind; [by apply keeps_handle|done].
Qed.
Lemma keeps_wait_reserve fuel task escaped blocked :
  keeps Inv (wait_reserve cfg chain ntasks finals F fuel task escaped blocked).
Proof.
  revert escaped blocked. induction fuel as [|fuel IH]; intros escaped blocked; simpl; [keeps_tac|].
  apply keeps_bind; [apply Inv_keeps; intros; apply keeps_ask_ledger|intros can_res]. apply keeps_get_bind. intros s _.
  destruct (_ && _); [keeps_tac|]. apply keeps_next.
  - intros token Ht. apply keeps_bind; [by apply keeps_handle|auto].
  - destruct can_res; keeps_tac; eauto using keeps_step. apply Inv_keeps; intros; apply keeps_add_event.
Qed.

(** ** Reserving the outputs of a task *)
Abbreviation owned := (owned F).

Definition output_sized (out : OutputSpec) : Prop :=
  ous_size_bytes out = size_of (ous_id out) ∧ 0 < size_of (ous_id out).

(** Bytes are charged at the two locations only. *)
Lemma charge_std l n s : 0 < n → okw (on_ledger (charge l n)) s (λ _ _, l = Fast ∨ l = Backing).
Proof.
  intros Hn. unfold wp, on_ledger, charge. rewrite (proj2 (Z.leb_gt n 0)) by done.
  destruct l; unfold mbind, M_bind, get, lift; simpl; try done;
    destruct (_ : result LedgerError unit * Ledger) as [[[]|e] l1]; auto.
Qed.

(** An empty slot takes a buffer that was charged and got for it. *)
Lemma Core_fill tx tb b db df s oid r l sl :
  Core tx tb (b :: db) (df + at_fast l (size_of oid)) (at_back l (size_of oid)) s → l = Fast ∨ l = Backing →
  assoc_get tb oid = Some r → slot l r = None → sl_buffer sl = b → b_size_bytes b = size_of oid → b_ref b ∉ F →
  Core tx (assoc_set tb oid (set_slot l (Some sl) r)) db df 0 s.
Proof.
  intros Hs Hl Hg Hnone Hb Hsz Hn. destruct Hl as [->| ->]; simpl in *.
  - apply (Core_fill_fast _ _ _ _ _ _ b _ _ _ _ oid r sl) in Hs; [|done..].
    unfold fast_cost in Hs. rewrite Hnone in Hs. simpl in Hs.
    by replace (df + size_of oid + 0 - size_of oid) with df in Hs by lia.
  - apply (Core_fill_back _ _ _ _ _ _ b _ _ _ _ oid r sl) in Hs; [|done..].
    by rewrite Z.add_0_r, Z.sub_diag in Hs.
Qed.

(** A buffer that holds the object [kb.1]. *)
Definition holds (kb : string * Buffer) : Prop := b_size_bytes kb.2 = size_of kb.1 ∧ b_ref kb.2 ∉ F.

(** [table.add]: the object's record, which the table now has. *)
Lemma Core_table_add tb db df dk s oid rec :
  Core tb tb db df dk s → or_id rec = oid → or_size_bytes rec = size_of oid → 0 < size_of oid →
  or_fast rec = None → or_backing rec = None →
  ∃ r tb1, table_add rec tb = (r, tb1) ∧ assoc_get tb1 oid = Some r ∧
    Permutation (owned (over rec_bufs tb1)) (owned (over rec_bufs tb)) ∧
    (∀ o, o ≠ oid → assoc_get tb1 o = assoc_get tb o) ∧ Core tb1 tb1 db df dk (with_table tb1 s).
Proof.
  intros Hs Hid Hsz Hpos Hf Hb. unfold table_add. rewrite Hid.
  destruct (assoc_get tb oid) as [r|] eqn:Hg; [exists r, tb; split_and!; try done; by destruct Hs|].
  eexists _, _. split; [done|]. split_and!; [apply assoc_get_set| | |].
  - pose proof (owned_set F tb oid rec) as Hp. rewrite Hg in Hp. unfold rec_bufs at 3 in Hp. rewrite Hf, Hb in Hp.
    simpl in Hp. by rewrite app_nil_r in Hp.
  - intros o Ho. by rewrite assoc_get_set_ne.
  - assert (Core (assoc_set tb oid rec) tb db df dk (with_table (assoc_set tb oid rec) s)) as Hs' by (by destruct Hs).
    apply Core_add; [done|done| |done|done]. split; [done|done|by rewrite Hf|by rewrite Hb|by rewrite Hf].
Qed.

Lemma okw_reserve_output tb db df s task escaped out :
  Core tb tb db df 0 s → output_sized out →
  okw (reserve_output (T:=T) task escaped out) s (λ kb s', ∃ tb', Core tb' tb' db df 0 s' ∧ kb.1 = ous_id out ∧ holds kb ∧
    Permutation (owned (over rec_bufs tb')) (kb.2 :: owned (over rec_bufs tb)) ∧
    ∀ oid, oid ≠ ous_id out → assoc_get tb' oid = assoc_get tb oid).
Proof.
  intros Hs [Hsz Hpos]. unfold reserve_output. rewrite Hsz. set (oid := ous_id out) in *. set (l := ous_location out).
  eapply okw_bind; [apply (wp_and _ _ _ _ _ _ (okw_charge _ _ _ _ _ _ _ _ _ _ l (size_of oid) Hs Hpos) (charge_std l _ s Hpos))|].
  intros [] s1 [Hs1 Hl]. rewrite Z.add_0_l in Hs1.
  eapply (okw_bind _ _ _ (taken F size_of FC BC tb tb db (df + at_fast l (size_of oid)) (at_back l (size_of oid)) l (size_of oid))).
  { case_bool_decide; [by apply okw_escaped_take|by apply okw_pool_take]. }
  intros b s2 (Hs2 & Hbs & _ & Hbn). apply wp_get_bind. rewrite (co_table _ _ _ _ _ _ _ _ _ _ Hs2).
  destruct (Core_table_add _ _ _ _ _ oid (new_record oid (size_of oid) (ous_role out) (ous_tensor out)) Hs2)
    as (r & tb1 & -> & Hg & Hperm & Hoth & Hs3); [done|done|done|done|done|]. apply wp_modify_bind.
  revert Hs3. generalize (with_table tb1 s2). intros s3 Hs3. clear Hs2 Hs1. apply wp_check_bind; [intros Hslot|done].
  rewrite negb_true_iff, bool_decide_eq_false in Hslot.
  assert (slot l r = None) as Hnone by (by apply eq_None_not_Some). clear Hslot.
  eapply okw_bind; [by apply okw_put_rec|]. intros [] s4 Hs4. set (sl := mkSlot b Reserved (or_version r) None) in *.
  eapply (okw_bind _ _ _ (λ _, Core (assoc_set tb1 oid (set_slot l (Some sl) r)) (assoc_set tb1 oid (set_slot l (Some sl) r)) db df 0)).
  { apply keeps_add_event. by eapply Core_fill. }
  intros [] s5 Hs5. apply wp_ret. eexists. split; [exact Hs5|]. split_and!; [done|done| |].
  - pose proof (owned_set F tb1 oid (set_slot l (Some sl) r)) as Hp. rewrite Hg in Hp. simpl in Hp.
    apply (Permutation_app_inv_r (owned (rec_bufs r))). rewrite Hp. simpl. rewrite Hperm.
    destruct Hl as [El|El]; rewrite El in *; simpl in *; unfold rec_bufs; simpl; rewrite Hnone; simpl;
      rewrite ?app_nil_r, ?owned_app, ?owned_cons, ?owned_in by done; simpl.
    + constructor. apply Permutation_app_comm.
    + rewrite <-(assoc (++)). simpl. rewrite <-Permutation_middle. constructor. apply Permutation_app_comm.
  - intros o Ho. by rewrite assoc_get_set_ne, Hoth.
Qed.
End Safe.
