(* ===== verification/EngineLaunch.v ===== *)
(** * Set-up and launch

    At every launch the buffers of the inputs and of the outputs have their
    objects' sizes and do not overlap: the engine behaves the same when each
    launch is guarded by a check of its context ([checked]).  From a world whose
    session's pool is in order ([world_ok]) and admissible arguments, the pool of
    the run, the initial objects and the prewarmed buffers satisfy [Inv]. *)
From S2P Require Import Prelude SimSchema CoreProgram CoreValidate Ledger Slab Placement Device Objects Pool.
From S2P Require Import PoolInv PoolSafe RunState Transfers Engine Execute EngineInv EngineSafe.
From stdpp Require Import base tactics option list gmap strings pretty sorting.
From Stdlib Require Import ZArith Lia.
Open Scope Z_scope.

(** ** Contexts *)
Definition apartb (a b : Buffer) : bool :=
  (b_ptr a + b_size_bytes a <=? b_ptr b) || (b_ptr b + b_size_bytes b <=? b_ptr a).

Fixpoint all_apart (bs : list Buffer) : bool :=
  match bs with [] => true | b :: bs => forallb (apartb b) bs && all_apart bs end.

(** The buffers have the sizes of their objects and no two overlap. *)
Definition bufs_safe (size_of : string → Z) (bufs : list (string * Buffer)) : bool :=
  all_apart bufs.*2 && forallb (λ kb : string * Buffer, b_size_bytes kb.2 =? size_of kb.1) bufs.

Definition ctx_safe {T} (size_of : string → Z) (ctx : TaskContext T) : bool :=
  bufs_safe size_of (tc_inputs ctx ++ tc_outputs ctx).

(** The resolver with every launch guarded. *)
Definition checked {T} (size_of : string → Z) (resolver : TaskSpec T → Launch T) (task : TaskSpec T) : Launch T :=
  λ ctx d, if ctx_safe size_of ctx then resolver task ctx d else (Err "unsafe launch"%string, d).

Lemma all_apart_sorted bs : StronglySorted apart_b bs → all_apart bs = true.
Proof.
  induction 1 as [|b bs _ IH Hb]; [done|]. simpl. rewrite IH, andb_true_r. apply forallb_forall.
  intros x Hx. rewrite Forall_forall in Hb. specialize (Hb x (proj2 (list_elem_of_In _ _) Hx)).
  unfold apartb, apart_b in *. rewrite orb_true_iff, !Z.leb_le. done.
Qed.

Lemma sorted_submseteq {A} (R : A → A → Prop) `{!Symmetric R} (l1 l2 : list A) :
  l1 ⊆+ l2 → StronglySorted R l2 → StronglySorted R l1.
Proof.
  intros [k Hk]%submseteq_Permutation Hs. apply (StronglySorted_perm R _ _ Hk) in Hs.
  by apply StronglySorted_app_iff in Hs as (? & _).
Qed.

(** ** Dicts of buffers *)
Lemma assoc_set_values (d : list (string * Buffer)) k b : (assoc_set d k b).*2 ⊆+ b :: d.*2.
Proof.
  destruct (assoc_get d k) as [w|] eqn:Hg.
  - apply assoc_get_split in Hg as (d1 & d2 & -> & Hk). rewrite assoc_set_middle by done.
    rewrite !fmap_app, !fmap_cons. simpl. rewrite <-!Permutation_middle. by apply submseteq_skip, submseteq_cons.
  - apply assoc_get_none in Hg. rewrite assoc_set_absent by done. rewrite fmap_app. simpl. by rewrite Permutation_app_comm.
Qed.

Lemma dict_of_spec {A} (items : list (string * A)) :
  NoDup (dict_of items).*1 ∧ ∀ kv, kv ∈ dict_of items → kv ∈ items.
Proof.
  unfold dict_of. apply (foldl_ind (λ d : list (string * A), NoDup d.*1 ∧ ∀ kv, kv ∈ d → kv ∈ items)).
  - split; [constructor|]. by intros kv ?%elem_of_nil.
  - intros [k v] d Hin [Hn Hd]. split; [by apply assoc_set_keys|].
    intros [k' v'] [->|?]%elem_of_assoc_set; auto.
Qed.

Lemma mapR_spec {E A B} (f : A → result E B) l ys :
  mapR f l = Ok ys → ∀ y, y ∈ ys → ∃ x, x ∈ l ∧ f x = Ok y.
Proof.
  revert ys. induction l as [|x l IH]; intros ys; simpl; [by intros [= <-] y ?%elem_of_nil|].
  intros (y0 & Hy0 & Hys)%result_bind_ok. apply result_bind_ok in Hys as (ys' & Hys & [= <-]).
  intros y [->|Hy]%elem_of_cons; [exists x; set_solver|]. destruct (IH _ Hys _ Hy) as (x' & ? & ?). exists x'. set_solver.
Qed.

(** Computations that agree after a common prefix. *)
Lemma bind_same {S E A B} (m : M S E A) (f g : A → M S E B) s :
  okw m s (λ a s', f a s' = g a s') → (m ≫= f) s = (m ≫= g) s.
Proof. unfold wp, mbind, M_bind. by destruct (m s) as [[a|e] s']. Qed.

Lemma bind_same_all {S E A B} (m : M S E A) (f g : A → M S E B) s :
  (∀ a s', f a s' = g a s') → (m ≫= f) s = (m ≫= g) s.
Proof. intros Hf. apply bind_same. unfold wp. by destruct (m s) as [[a|e] s']. Qed.

Lemma bind_same_inv {S E A B} (I : S → Prop) (m : M S E A) (f g : A → M S E B) s :
  keeps I m → I s → (∀ a s', I s' → f a s' = g a s') → (m ≫= f) s = (m ≫= g) s.
Proof. intros Hm Hs Hf. apply bind_same. eapply wp_mono; [by apply Hm|auto|done]. Qed.

(** Executables may allocate and move the streams; they neither deliver nor
    register completions. *)
Definition launch_ok {T} (resolver : TaskSpec T → Launch T) : Prop :=
  ∀ task ctx d a d', resolver task ctx d = (Ok a, d') →
    next_ptr d ≤ next_ptr d' ∧ (next_ref d ≤ next_ref d')%nat ∧ pending d' = pending d.

Section Launch.
Context {T : Type} `{Num T}.
Context (cfg : Config) (chain : ChainIndex) (ntasks : nat) (finals : list (string * Location)).
Context (F : list nat) (size_of : string → Z) (FC BC : option Z).
Implicit Types (s : Run T) (r : ObjectRecord T) (db : list Buffer) (tx tb : Table T).

Abbreviation RM := (M (Run T) RunError).
Abbreviation Core := (Core F size_of FC BC).
Abbreviation Inv := (Inv (T := T) F size_of FC BC).
Abbreviation owned := (owned F).
Abbreviation holds := (holds F size_of).

(** ** The outputs of a task *)

(** The outputs were reserved: their buffers are new among those held. *)
Definition reserved tb db df (ids : list string) (acc outs : list (string * Buffer)) s : Prop :=
  ∃ tb' new, Core tb' tb' db df 0 s ∧ Permutation (owned (over rec_bufs tb')) (new ++ owned (over rec_bufs tb)) ∧
    outs.*2 ⊆+ new ++ acc.*2 ∧ (∀ kb, kb ∈ outs → kb ∈ acc ∨ holds kb) ∧
    ∀ oid, oid ∉ ids → assoc_get tb' oid = assoc_get tb oid.

Lemma okw_reserve_outputs task escaped db df : ∀ outs tb acc s,
  Core tb tb db df 0 s → Forall (output_sized size_of) outs →
  okw (reserve_outputs (T:=T) task escaped outs acc) s (reserved tb db df (ous_id <$> outs) acc).
Proof.
  induction outs as [|out outs IH]; intros tb acc s Hs Ho; cbn [reserve_outputs].
  - apply wp_ret. exists tb, []. split_and!; try done. by left.
  - apply Forall_cons in Ho as [Ho Hos].
    eapply okw_bind; [by eapply (okw_reserve_output F size_of FC BC)|].
    intros kb s1 (tb1 & Hs1 & Hid & Hh & Hp & Hoth).
    eapply wp_mono; [by apply (IH tb1)| |done].
    intros res s2 (tb2 & new & Hs2 & Hp2 & Hsub & Hin & Hoth2). exists tb2, (new ++ [kb.2]). split_and!; [done| | | |].
    + rewrite Hp2, Hp. by rewrite <-(assoc (++)).
    + rewrite Hsub, <-(assoc (++)). apply submseteq_skips_l, assoc_set_values.
    + intros x Hx. destruct (Hin x Hx) as [Ha|]; [|by right]. destruct x as [k b].
      apply elem_of_assoc_set in Ha as [[= -> ->]|]; [right; by destruct kb|by left].
    + intros oid. rewrite fmap_cons, not_elem_of_cons. intros [Hn1 Hn2]. rewrite Hoth2 by done. by apply Hoth.
Qed.

(** ** The inputs of a task *)

(** Distinct fast copies of a table, at most one of them the new buffer. *)
Lemma inputs_held (ins : list (string * Buffer)) : ∀ tb new o,
  NoDup ins.*1 → (∀ kb, kb ∈ ins → b_ref kb.2 ∉ F ∧
    ((∃ r sl, assoc_get tb kb.1 = Some r ∧ or_fast r = Some sl ∧ sl_buffer sl = kb.2) ∨ kb.1 = o ∧ new = [kb.2])) →
  ins.*2 ⊆+ new ++ owned (over rec_bufs tb).
Proof.
  induction ins as [|[k b] ins IH]; intros tb new o Hn Hin; [apply submseteq_nil_l|].
  rewrite fmap_cons in *. cbn [fst snd] in *. apply NoDup_cons in Hn as [Hk Hn].
  assert (∀ kb, kb ∈ ins → kb.1 ≠ k) as Hne.
  { intros kb Hkb <-. apply Hk, list_elem_of_fmap. by exists kb. }
  destruct (Hin (k, b) (list_elem_of_here _ _)) as [HbF [(r & sl & Hg & Hf & Hb)|[Ho Hnew]]]; cbn [fst snd] in *.
  - destruct (over_split rec_bufs tb k r Hg) as (tb' & Hp & Hoth).
    unfold owned, EngineInv.owned. rewrite Hp, filter_app. unfold rec_bufs at 1. rewrite Hf. simpl.
    rewrite Hb, filter_cons, decide_True by done. simpl. rewrite <-Permutation_middle. apply submseteq_skip.
    rewrite (Permutation_app_swap_app new).
    apply submseteq_inserts_l, (IH tb' new o); [done|].
    intros kb Hkb. destruct (Hin kb (list_elem_of_further _ _ _ Hkb)) as [Hr [(r' & sl' & Hg' & ?)|?]]; (split; [done|]); [left|by right].
    exists r', sl'. rewrite Hoth by (by apply Hne). done.
  - subst new. simpl. apply submseteq_skip, (IH tb [] o); [done|].
    intros kb Hkb. destruct (Hin kb (list_elem_of_further _ _ _ Hkb)) as [Hr [?|[Hko _]]]; (split; [done|]); [by left|].
    exfalso. apply (Hne kb Hkb). congruence.
Qed.

(** ** A launch *)
Definition launch_safe (task : TaskSpec T) outs s : Prop :=
  ∀ items, mapR (input_buffer (rn_table s)) (ts_inputs task) = Ok items →
    bufs_safe size_of (dict_of items ++ outs) = true.

Lemma reserved_launch_safe tb db df (task : TaskSpec T) outs s1 s2 :
  reserved tb db df (output_ids task) [] outs s1 →
  (∀ tb', Core tb' tb' db df 0 s1 → grown F size_of FC BC tb' db s2) →
  (∀ i, i ∈ ts_inputs task → i ∉ output_ids task) → launch_safe task outs s2.
Proof.
  intros (tb1 & new & Hs1 & Hp1 & Hsub & Hh & Hoth) Hg Hdisj items Hitems.
  destruct (Hg tb1 Hs1) as (tb2 & db2 & df2 & new2 & _ & Hs2 & Hp2 & o & Hrec). clear Hg.
  destruct (dict_of_spec items) as [Hn Hin]. set (ins := dict_of items) in *.
  assert (∀ kb, kb ∈ ins → kb.1 ∈ ts_inputs task ∧ ∃ r sl, assoc_get tb2 kb.1 = Some r ∧ or_fast r = Some sl ∧
    sl_buffer sl = kb.2 ∧ holds kb) as Hins.
  { intros kb Hkb. destruct (mapR_spec _ _ _ Hitems kb (Hin kb Hkb)) as (oid & Hoid & Hb). unfold input_buffer, table_get in Hb.
    rewrite (co_table _ _ _ _ _ _ _ _ _ _ Hs2) in Hb. destruct (assoc_get tb2 oid) as [r|] eqn:Hr; [|done].
    destruct (or_fast r) as [sl|] eqn:Hf; [|done]. injection Hb as <-. split; [done|]. exists r, sl. split_and!; try done.
    destruct (co_recs _ _ _ _ _ _ _ _ _ _ Hs2 oid r Hr) as [_ _ Hsz _ Hown].
    destruct (Hsz sl Hf) as [_ Heq]. split; [apply Heq|]; by apply Hown. }
  unfold bufs_safe. apply andb_true_iff. split.
  - apply all_apart_sorted. pose proof (PoolInv_apart _ _ _ _ (co_pool _ _ _ _ _ _ _ _ _ _ Hs2)) as Ha.
    eapply sorted_submseteq; [apply _| |exact Ha]. rewrite Hp2, Hp1, fmap_app, app_nil_r in *.
    rewrite <-(assoc (++)), (Permutation_app_swap_app new2 new), (Permutation_app_comm ins.*2).
    apply submseteq_app; [done|]. rewrite (assoc (++)). apply submseteq_inserts_r, (inputs_held ins tb new2 o); [done|].
    intros kb Hkb. destruct (Hins kb Hkb) as (Hk & r & sl & Hr & Hf & Hb & _ & HF). split; [done|].
    destruct (Hrec _ _ Hr) as [Hr1|(-> & sl' & Hf' & ->)].
    + left. exists r, sl. rewrite <-Hoth by (by apply Hdisj). done.
    + right. split; [done|]. congruence.
  - apply forallb_forall. intros kb Hkb%list_elem_of_In. apply Z.eqb_eq.
    apply elem_of_app in Hkb as [Hkb|Hkb].
    + destruct (Hins kb Hkb) as (_ & r & sl & _ & _ & _ & [? _]). done.
    + destruct (Hh kb Hkb) as [?%elem_of_nil|[? _]]; done.
Qed.

Context (resolver : TaskSpec T → Launch T) (Hres : launch_ok resolver).

Lemma keeps_on_launch task ctx : keeps Inv (on_launch (resolver task ctx)).
Proof.
  apply Inv_keeps. intros tb db df s Hs. unfold wp, on_launch.
  destruct (resolver task ctx (rn_dev s)) as [[a|e] d'] eqn:He; [|done].
  destruct (Hres _ _ _ _ _ He) as (Hp & Hr & Hpend). apply Core_dev; [done..|]. rewrite Hpend. apply Hs.
Qed.

Lemma keeps_launch_task task outs : keeps Inv (launch_task cfg resolver task outs).
Proof.
  unfold launch_task. keeps_tac; auto using keeps_on_launch; apply Inv_keeps; intros tb db df.
  - apply keeps_align.
  - apply keeps_record_event.
  - apply keeps_record_event.
  - by apply keeps_notify.
  - by apply keeps_plain.
Qed.

Lemma launch_task_checked task outs s :
  launch_safe task outs s → launch_task cfg (checked size_of resolver) task outs s = launch_task cfg resolver task outs s.
Proof.
  intros Hsafe. unfold launch_task. apply bind_same. unfold wp, get. apply bind_same.
  unfold wp, lift. destruct (mapR (input_buffer _) _) as [items|e] eqn:Hi; [|done].
  specialize (Hsafe items Hi). do 3 (apply bind_same_all; intros ? ?).
  unfold checked, ctx_safe. cbn [tc_inputs tc_outputs]. by rewrite Hsafe.
Qed.

(** Everything a dispatch does up to the reservation of its outputs. *)
Definition dispatchable (task : TaskSpec T) : Prop :=
  Forall (output_sized size_of) (ts_outputs task) ∧ ∀ i, i ∈ ts_inputs task → i ∉ output_ids task.

(** From the reservation of the outputs to the launch. *)
Lemma okw_reserve_and_pump task escaped (blocked : bool) s :
  dispatchable task → Inv s →
  okw (outs ← reserve_outputs task escaped (ts_outputs task) [];
       when blocked (try_start cfg from_slow) ;; mret outs) s (λ outs s', Inv s' ∧ launch_safe task outs s').
Proof.
  intros [Hsz Hdisj] (tb & db & df & Hdf & Hs). eapply okw_bind; [by apply okw_reserve_outputs|].
  intros outs s1 Hr. pose proof Hr as (tb1 & new & Hs1 & _).
  eapply (okw_bind _ _ _ (λ _ s', ∀ tb', Core tb' tb' db df 0 s1 → grown F size_of FC BC tb' db s')).
  - unfold when. destruct blocked.
    + assert (∀ tb', Core tb' tb' db df 0 s1 → tb' = tb1) as Huniq.
      { intros tb' Hs'. by rewrite <-(co_table _ _ _ _ _ _ _ _ _ _ Hs'), (co_table _ _ _ _ _ _ _ _ _ _ Hs1). }
      eapply wp_mono; [by eapply okw_try_prefetch| |done]. intros [] s2 Hg tb' ->%Huniq. done.
    + apply wp_ret. intros tb' Hs'. by eapply grown_refl.
  - intros [] s2 Hg. apply wp_ret. split; [by eapply grown_Inv, Hg|]. by eapply reserved_launch_safe.
Qed.

Lemma reserve_pump_bind {A} task escaped (blocked : bool) (k : list (string * Buffer) → RM A) s :
  (outs ← reserve_outputs task escaped (ts_outputs task) []; when blocked (try_start cfg from_slow) ;; k outs) s =
  ((outs ← reserve_outputs task escaped (ts_outputs task) []; when blocked (try_start cfg from_slow) ;; mret outs) ≫= k) s.
Proof.
  unfold mbind, M_bind. destruct (reserve_outputs _ _ _ _ s) as [[outs|e] s1]; [|done].
  by destruct (when _ _ s1) as [[[]|e] s2].
Qed.

Lemma keeps_with_cursor pos tid : keeps Inv (modify (E := RunError) (with_cursor pos tid)).
Proof. apply Inv_keeps. intros. by apply keeps_plain. Qed.
Lemma keeps_ask {A} (f : Ledger → result LedgerError A) : keeps Inv (ask_ledger f).
Proof. apply Inv_keeps. intros. apply keeps_ask_ledger. Qed.
Hint Resolve keeps_with_cursor keeps_ask keeps_wait_retired keeps_wait_inputs keeps_wait_reserve : keeps.

Lemma keeps_reserve_and_launch task escaped blocked :
  dispatchable task →
  keeps Inv (outs ← reserve_outputs task escaped (ts_outputs task) [];
             when blocked (try_start cfg from_slow) ;; launch_task cfg resolver task outs).
Proof.
  intros Hd s Hs. unfold wp. rewrite reserve_pump_bind.
  apply (okw_bind _ _ _ _ _ (okw_reserve_and_pump task escaped blocked s Hd Hs)).
  intros outs s' [Hs' _]. by apply keeps_launch_task.
Qed.

Lemma keeps_dispatch cancelled pos task :
  dispatchable task → keeps Inv (dispatch_task cfg chain ntasks finals F resolver cancelled pos task).
Proof.
  intros Hd. unfold dispatch_task. do 11 (apply keeps_bind; [by auto with keeps|intros ?]).
  by apply keeps_reserve_and_launch.
Qed.

Lemma dispatch_checked cancelled pos task s :
  dispatchable task → Inv s →
  dispatch_task cfg chain ntasks finals F (checked size_of resolver) cancelled pos task s =
  dispatch_task cfg chain ntasks finals F resolver cancelled pos task s.
Proof.
  intros Hd Hs. unfold dispatch_task. revert s Hs.
  do 11 (intros ? ?; apply (bind_same_inv Inv); [by auto with keeps|done|intros ?; cbv beta]).
  intros s0 Hs0. rewrite !reserve_pump_bind. apply bind_same.
  eapply wp_mono; [by apply okw_reserve_and_pump| |done].
  intros outs s1 [_ Hl]. by apply launch_task_checked.
Qed.
End Launch.

(** ** Sizes of the objects of a program *)
Section Sizes.
Context {T : Type} `{Num T}.
Implicit Types p : Program T.

Definition sizes p : list (string * Z) :=
  ((λ o, (os_id o, os_size_bytes o)) <$> p_initial_objects p) ++
  (p_tasks p ≫= λ t, (λ o, (ous_id o, ous_size_bytes o)) <$> ts_outputs t).

(** The first declaration of an object gives its size. *)
Definition size_in p (oid : string) : Z := default 0 (assoc_get (sizes p) oid).

Lemma assoc_get_same {K V} `{EqDecision K} (d : list (K * V)) k v :
  (k, v) ∈ d → (∀ v', (k, v') ∈ d → v' = v) → assoc_get d k = Some v.
Proof.
  intros Hin Hsame. destruct (assoc_get d k) as [w|] eqn:Hg.
  - apply assoc_get_split in Hg as (d1 & d2 & -> & _). f_equal. apply Hsame. set_solver.
  - apply assoc_get_none in Hg. destruct Hg. apply list_elem_of_fmap. by exists (k, v).
Qed.

Lemma in_initial p oid z :
  (oid, z) ∈ (λ o, (os_id o, os_size_bytes o)) <$> p_initial_objects p ↔
  ∃ o, o ∈ p_initial_objects p ∧ os_id o = oid ∧ os_size_bytes o = z.
Proof. rewrite list_elem_of_fmap. naive_solver. Qed.

Lemma in_outputs p oid z :
  (oid, z) ∈ (p_tasks p ≫= λ t, (λ o, (ous_id o, ous_size_bytes o)) <$> ts_outputs t) ↔
  ∃ i t o, p_tasks p !! i = Some t ∧ o ∈ ts_outputs t ∧ ous_id o = oid ∧ ous_size_bytes o = z.
Proof.
  rewrite list_elem_of_bind. split.
  - intros (t & (o & [= -> ->] & Ho)%list_elem_of_fmap & (i & Hi)%list_elem_of_lookup). by exists i, t, o.
  - intros (i & t & o & Hi & Ho & <- & <-). exists t. split; [|by eapply list_elem_of_lookup_2].
    apply list_elem_of_fmap. by exists o.
Qed.

(** Objects made before task [i]. *)
Lemma made_before p i j t o :
  p_tasks p !! j = Some t → (j < i)%nat → o ∈ ts_outputs t → ous_id o ∈ objects_before p i.
Proof.
  intros Hj Hlt Ho. unfold objects_before. apply elem_of_union_r, elem_of_list_to_set, list_elem_of_bind.
  exists t. split; [apply list_elem_of_fmap; by exists o|]. apply list_elem_of_lookup. exists j. by rewrite lookup_take_lt.
Qed.

Lemma initial_before p i o : o ∈ p_initial_objects p → os_id o ∈ objects_before p i.
Proof.
  intros Ho. apply elem_of_union_l, elem_of_list_to_set, list_elem_of_fmap. by exists o.
Qed.

Lemma output_fresh p i t o :
  well_formed p → p_tasks p !! i = Some t → o ∈ ts_outputs t → ous_id o ∉ objects_before p i.
Proof.
  intros Hw Hi Ho. apply (tk_outputs_fresh _ _ (wf_tasks _ Hw i t Hi)), list_elem_of_fmap. by exists o.
Qed.

(** An output is made by one task, as one output of it. *)
Lemma output_unique p i j t t' o o' :
  well_formed p → p_tasks p !! i = Some t → p_tasks p !! j = Some t' → o ∈ ts_outputs t → o' ∈ ts_outputs t' →
  ous_id o = ous_id o' → o = o'.
Proof.
  intros Hw Hi Hj Ho Ho' He. destruct (Nat.lt_trichotomy i j) as [Hlt|[<-|Hlt]].
  - destruct (output_fresh p j t' o' Hw Hj Ho'). rewrite <-He. by apply (made_before p j i t o).
  - assert (t' = t) as -> by congruence. pose proof (tk_outputs_nodup _ _ (wf_tasks _ Hw i t Hi)) as Hn.
    apply list_elem_of_lookup in Ho as [a Ha], Ho' as [b Hb].
    assert (a = b) as ->; [|congruence].
    apply (NoDup_lookup (output_ids t) a b (ous_id o)); [done|..]; unfold output_ids; rewrite list_lookup_fmap.
    + by rewrite Ha.
    + by rewrite Hb, He.
  - destruct (output_fresh p i t o Hw Hi Ho). rewrite He. by apply (made_before p i j t' o').
Qed.

Lemma size_in_initial p o : well_formed p → o ∈ p_initial_objects p → size_in p (os_id o) = os_size_bytes o.
Proof.
  intros Hw Ho. unfold size_in. rewrite (assoc_get_same (sizes p) _ (os_size_bytes o)); [done|..].
  - apply elem_of_app. left. apply in_initial. by exists o.
  - intros z [(o' & Ho' & Hid & <-)%in_initial|(i & t & x & Hi & Hx & Hid & _)%in_outputs]%elem_of_app.
    + by injection (wf_initial_consistent _ Hw o' o Ho' Ho Hid).
    + destruct (output_fresh p i t x Hw Hi Hx). rewrite Hid. by apply initial_before.
Qed.

Lemma size_in_output p i t o :
  well_formed p → p_tasks p !! i = Some t → o ∈ ts_outputs t → size_in p (ous_id o) = ous_size_bytes o.
Proof.
  intros Hw Hi Ho. unfold size_in. rewrite (assoc_get_same (sizes p) _ (ous_size_bytes o)); [done|..].
  - apply elem_of_app. right. apply in_outputs. by exists i, t, o.
  - intros z [(o' & Ho' & Hid & _)%in_initial|(j & t' & x & Hj & Hx & Hid & <-)%in_outputs]%elem_of_app.
    + destruct (output_fresh p i t o Hw Hi Ho). rewrite <-Hid. by apply initial_before.
    + by rewrite (output_unique p j i t' t x o Hw Hj Hi Hx Ho Hid).
Qed.

Lemma tasks_dispatchable p : well_formed p → Forall (dispatchable (size_in p)) (p_tasks p).
Proof.
  intros Hw. apply Forall_lookup. intros i t Hi. pose proof (wf_tasks _ Hw i t Hi) as Ht. split.
  - apply Forall_forall. intros o Ho. pose proof (size_in_output p i t o Hw Hi Ho) as Hs. split; [done|].
    rewrite Hs. pose proof (ok_size _ _ _ _ (tk_outputs _ _ Ht o Ho)). lia.
  - intros x Hx Ho. apply (tk_outputs_fresh _ _ Ht x Ho). by apply (tk_inputs _ _ Ht).
Qed.
End Sizes.

(** ** Initial objects *)
Section Load.
Context {T : Type} `{Num T}.
Context (F : list nat) (size_of : string → Z) (FC BC : option Z).
Implicit Types (s : Run T) (db : list Buffer) (tb : Table T).

Abbreviation Core := (Core F size_of FC BC).
Abbreviation Inv := (Inv (T := T) F size_of FC BC).

(** The caller provides backing buffers. *)
Definition given_ok (given : list (string * Buffer)) : Prop :=
  ∀ oid b, assoc_get given oid = Some b → b_ref b ∈ F ∧ b_location b ≠ Fast.

Definition spec_sized (spec : ObjectSpec) : Prop :=
  os_size_bytes spec = size_of (os_id spec) ∧ 0 < size_of (os_id spec).

(** A provided buffer fills an empty backing slot. *)
Lemma Core_fill_given tx tb db df s oid r b :
  Core tx tb db df (size_of oid) s → assoc_get tb oid = Some r → or_backing r = None →
  size_of oid ≤ b_size_bytes b → b_ref b ∈ F →
  Core tx (assoc_set tb oid (set_slot Backing (Some (mkSlot b Live 0 None)) r)) db df 0 s.
Proof.
  intros Hs Hg Hb Hsz Hin. pose proof (co_recs _ _ _ _ _ _ _ _ _ _ Hs oid r Hg) as [R1 R2 R3 R4 R5].
  eapply Core_count; [done|done| |..].
  - split; simpl; auto. intros ? [= <-]. simpl. by split.
  - unfold rec_bufs. simpl. rewrite Hb. simpl. by rewrite !owned_app, (owned_out F b Hin).
  - unfold fast_cost. simpl. lia.
  - unfold back_cost. simpl. rewrite Hb. simpl. lia.
Qed.

Lemma okw_load_initial given copies spec tb s :
  given_ok given → spec_sized spec → Core tb tb [] 0 0 s →
  okw (load_initial given copies spec) s (λ _ s', ∃ tb', Core tb' tb' [] 0 0 s').
Proof.
  intros Hgiven [Hsz Hpos] Hs. unfold load_initial. rewrite Hsz. set (oid := os_id spec) in *. set (l := os_location spec).
  apply wp_get_bind. rewrite (co_table _ _ _ _ _ _ _ _ _ _ Hs).
  destruct (Core_table_add _ _ _ _ _ _ _ _ _ oid (new_record oid (size_of oid) (os_role spec) (os_tensor spec)) Hs)
    as (r & tb1 & -> & Hg & _ & _ & Hs1); [done|done|done|done|done|]. apply wp_modify_bind.
  revert Hs1. generalize (with_table tb1 s). clear Hs. intros s1 Hs1.
  apply wp_check_bind; [intros Hslot|done]. rewrite negb_true_iff, bool_decide_eq_false in Hslot.
  assert (slot l r = None) as Hnone by (by apply eq_None_not_Some). clear Hslot.
  eapply okw_bind; [apply (wp_and _ _ _ _ _ _ (okw_charge _ _ _ _ _ _ _ _ _ _ l (size_of oid) Hs1 Hpos) (charge_std l _ s1 Hpos))|].
  intros [] s2 [Hs2 Hl]. rewrite Z.add_0_l in Hs2.
  assert (okw (on_pools (pool_get l (size_of oid) (Some oid))) s2
    (taken F size_of FC BC tb1 tb1 [] (0 + at_fast l (size_of oid)) (at_back l (size_of oid)) l (size_of oid))) as Hget
    by (by apply okw_pool_take).
  eapply (okw_bind _ _ _ (λ _ s', s' = s2 ∧ ∀ b, assoc_get given oid = Some b → size_of oid ≤ b_size_bytes b)).
  { destruct (assoc_get given oid) as [b|]; [|by apply wp_ret]. apply wp_check; [intros Hle|done].
    split; [done|]. intros ? [= <-]. lia. }
  intros [] ? [-> Hle].
  eapply (okw_bind _ _ _ (λ bc s', taken F size_of FC BC tb1 tb1 [] (0 + at_fast l (size_of oid)) (at_back l (size_of oid)) l (size_of oid) bc.1 s'
    ∨ l = Backing ∧ Core tb1 tb1 [] 0 (size_of oid) s' ∧ b_ref bc.1 ∈ F ∧ size_of oid ≤ b_size_bytes bc.1)).
  { destruct (assoc_get given oid) as [b|] eqn:Hb.
    - destruct (Hgiven oid b Hb) as [HbF HbL]. case_bool_decide as Heq.
      + apply wp_ret. right. rewrite Heq in HbL. destruct Hl as [El|El]; [done|]. rewrite El in *. auto.
      + eapply okw_bind; [exact Hget|]. intros buf s3 Hs3. apply wp_ret. by left.
    - eapply okw_bind; [exact Hget|]. intros buf s3 Hs3. apply wp_ret. by left. }
  intros bc s3 Hbc. cbv beta in Hbc.
  assert (okw (put_rec oid (set_slot l (Some (mkSlot bc.1 Live 0 None)) r)) s3 (λ _ s', ∃ tb', Core tb' tb' [] 0 0 s')) as Hput.
  { destruct Hbc as [(Hs3 & Hbs & _ & Hbn)|(El & Hs3 & HbF & Hbs)];
      (eapply wp_mono; [by apply okw_put_rec| |done]); intros [] s4 Hs4; eexists.
    - by eapply Core_fill.
    - rewrite El in *. by eapply Core_fill_given. }
  eapply okw_bind; [exact Hput|]. intros [] s4 Hs4. by apply wp_ret.
Qed.

Lemma okw_load_all given specs : ∀ copies tb s,
  given_ok given → Forall spec_sized specs → Core tb tb [] 0 0 s →
  okw (load_all given copies specs) s (λ _, Inv).
Proof.
  induction specs as [|spec specs IH]; intros copies tb s Hg Hsp Hs; simpl.
  - apply wp_ret. by exists tb, [], 0.
  - apply Forall_cons in Hsp as [Hsp Hsps]. eapply okw_bind; [by apply (okw_load_initial given copies spec tb)|].
    intros copies' s' [tb' Hs']. by eapply IH.
Qed.

(** ** The set-up of a run *)
Lemma keeps_sync_all : keeps Inv (on_device (T:=T) sync_all).
Proof.
  apply Inv_keeps. intros tb db df. apply keeps_on_device. intros d a d'. unfold sync_all, gets, mbind at 1, M_bind at 1.
  generalize (length (pending d)). intros n. revert d.
  induction n as [|n IH]; intros d; cbn [sync_loop]; [by intros [=]; subst|].
  unfold next_completion, mbind, M_bind. simpl.
  destruct (pending d) as [|[[[u pr] q] tok] rest] eqn:Hp; simpl; [intros [=]; subst; by rewrite Hp|].
  intros (H1 & H2 & H3)%IH. simpl in *. split_and!; [done|done|]. intros e He. right. by apply H3.
Qed.

Definition start_ok (d : Fake T (Token T)) (p : Pool T (Token T)) : Prop := PoolInv F d p [] ∧ pending d = [].

Lemma initial_run_core program d p :
  well_formed program → FC = p_fast_memory_capacity program → BC = p_backing_memory_capacity program →
  start_ok d p → Core [] [] [] 0 0 (initial_run d program p).
Proof.
  intros Hw Hf Hb [Hi Hp]. destruct (wf_settings _ Hw) as (Pf & Pb & _). split; try done; simpl.
  - constructor.
  - apply new_ledger_inv; intros c Hc; [specialize (Pf c Hc)|specialize (Pb c Hc)]; lia.
  - by rewrite Hp.
Qed.

Lemma okw_setup_run cfg program args s :
  Forall spec_sized (p_initial_objects program) → given_ok (ea_initial_buffers args) →
  Forall (λ kv, 0 < kv.1.2) (ea_pool_prewarm args) → Core [] [] [] 0 0 s →
  okw (setup_run cfg program args) s (λ _, Inv).
Proof.
  intros Hsp Hg Hpre Hs. unfold setup_run.
  eapply (okw_bind _ _ _ (λ _ s', Core [] [] [] 0 0 s')).
  { destruct (ea_pool_prewarm args) as [|kv dem]; [by apply wp_ret|].
    pose proof (okw_prewarm F _ _ [] _ (co_pool _ _ _ _ _ _ _ _ _ _ Hs) Hpre) as Hw. revert Hw.
    unfold wp, on_pools. destruct (prewarm _ _) as [[[]|e] [d p]]; [|done]. intros [Hi Hd]. simpl in *.
    eapply Core_pools; [exact Hs|apply Hd|exact Hi]. }
  intros [] s1 Hs1. eapply okw_bind; [by apply (okw_load_all _ _ [] [])|]. intros copies s2 Hs2. cbv beta in Hs2.
  revert s2 Hs2. change (keeps Inv (s ← get;
    when (negb (bool_decide (length copies = 0%nat)) && physical (rn_dev s))
      (forM_ copies (λ c, on_device (memcpy_async c.1.1 c.1.2 c.2 (cf_h2d_stream cfg) None) ;; mret tt) ;; on_device sync_all) ;;
    on_device mark_origin)).
  keeps_tac; [|apply keeps_sync_all|]; apply Inv_keeps; intros tb db df; [apply keeps_memcpy|].
  apply keeps_on_device. intros d u d'. by intros [=]; subst.
Qed.
End Load.

Lemma specs_sized {T} `{Num T} (program : Program T) :
  well_formed program → Forall (spec_sized (size_in program)) (p_initial_objects program).
Proof.
  intros Hw. apply Forall_forall. intros o Ho. unfold spec_sized. rewrite (size_in_initial program o Hw Ho).
  split; [done|]. pose proof (ok_size _ _ _ _ (wf_initial_ok _ Hw o Ho)). lia.
Qed.

(** ** The pool of a run *)
Section Prepare.
Context {T : Type} `{Num T}.
Context (F : list nat).
Implicit Types (w : World T) (d : Fake T (Token T)) (p : Pool T (Token T)).

Abbreviation start_ok := (start_ok (T := T) F).

(** An idle backend, and a session whose pool has every buffer back. *)
Record world_ok w : Prop := {
  wo_idle : pending (w_dev w) = [];
  wo_ptr : 0 < next_ptr (w_dev w);
  wo_given : Forall (λ r, (r < next_ref (w_dev w))%nat) F;
  wo_session : ∀ se, w_session w = Some se →
    se_external_backing se = None ∧
    ∀ p, se_pool se = Some p → PoolInv F (w_dev w) p [] ∧ (placement p = None → placement_base p = None);
}.

Definition same_frame p p' : Prop := placement p' = placement p ∧ placement_base p' = placement_base p.

Lemma okw_add_slabs p0 : external_alloc p0 = [] → ∀ caps d p,
  PoolInv F d p [] → NoDup caps.*1 → Forall (λ lc, 0 < lc.2) caps →
  (∀ l, l ∈ caps.*1 → slab_at (MainSlab l) p = None ∧ slab_at (OverflowSlab l) p = None) →
  okw (add_slabs caps p0) (d, p) (λ _ s, PoolInv F s.1 s.2 [] ∧ dev_frame d s.1 ∧ same_frame p s.2).
Proof.
  intros Hx. unfold add_slabs. rewrite Hx. cbn [assoc_get]. rewrite bool_decide_eq_false_2 by (by intros [? ?]).
  induction caps as [|[l c] caps IH]; intros d p Hi Hn Hpos Hfree; [by apply wp_ret|].
  rewrite fmap_cons in Hn. apply NoDup_cons in Hn as [Hl Hn]. apply Forall_cons in Hpos as [Hc Hpos]. simpl in Hc.
  destruct (Hfree l) as [Hm Ho]; [rewrite fmap_cons; set_solver|].
  cbn [forM_ fst snd].
  eapply okw_bind; [by apply okw_add_slab|]. intros [] [d1 p1] (Hi1 & Hd1 & F1 & F2 & _ & F4). cbn [fst snd] in *.
  eapply wp_mono; [apply (IH d1 p1 Hi1 Hn Hpos)| |done].
  - intros l' Hl'. assert (l' ≠ l) by congruence. rewrite !F4 by done. apply Hfree. rewrite fmap_cons. set_solver.
  - intros [] [d2 p2] (Hi2 & Hd2 & G1 & G2). cbn [fst snd] in *. split_and!; [done|by trans d1|]. split; congruence.
Qed.

Lemma slab_caps_ok (program : Program T) placed :
  well_formed program → NoDup (slab_caps program placed).*1 ∧ Forall (λ lc, 0 < lc.2) (slab_caps program placed).
Proof.
  intros Hw. destruct (wf_settings _ Hw) as (Pf & Pb & _). unfold slab_caps.
  destruct (p_fast_memory_capacity program) as [c|], placed, (p_backing_memory_capacity program) as [c'|]; simpl;
    (split; [repeat (apply NoDup_cons; split; [set_solver|]); by apply NoDup_nil|]);
    rewrite ?Forall_cons, Forall_nil; simpl; auto.
Qed.

(** The pool in the world [w]. *)
Definition pool_in w p : Prop := PoolInv F (w_dev w) p [] ∧ pending (w_dev w) = [].

Lemma okw_on_world_pool {A} p (m : M (PS T (Token T)) PoolError A) w :
  pending (w_dev w) = [] →
  okw m (w_dev w, p) (λ _ s, PoolInv F s.1 s.2 [] ∧ dev_frame (w_dev w) s.1) →
  okw (on_world_pool p m) w (λ p' w', pool_in w' p').
Proof.
  intros Hp. unfold wp, on_world_pool. destruct (m (w_dev w, p)) as [[a|e] [d p']]; [|done].
  intros [Hi Hd]. simpl in *. split; simpl; [done|]. by rewrite (df_pending _ _ Hd).
Qed.

(** A new pool has no placement yet. *)
Lemma okw_fresh_pool (program : Program T) placed w :
  well_formed program → pending (w_dev w) = [] → 0 < next_ptr (w_dev w) →
  Forall (λ r, (r < next_ref (w_dev w))%nat) F →
  okw (fresh_pool (slab_caps program placed) new_pool) w
    (λ p' w', pool_in w' p' ∧ placement p' = None ∧ placement_base p' = None).
Proof.
  intros Hw Hp Hn HF. pose proof (new_pool_inv F _ Hn HF) as Hi. unfold fresh_pool. apply wp_get_bind.
  assert (okw (if physical (w_dev w) then add_slabs (slab_caps program placed) new_pool else mret tt) (w_dev w, new_pool)
    (λ _ s, PoolInv F s.1 s.2 [] ∧ dev_frame (w_dev w) s.1 ∧ same_frame (new_pool (T:=T) (Tok:=Token T)) s.2)) as Hm.
  { destruct (physical (w_dev w)); [|by apply wp_ret]. destruct (slab_caps_ok program placed Hw). by apply okw_add_slabs. }
  revert Hm. generalize (if physical (w_dev w) then add_slabs (slab_caps program placed) (new_pool (T:=T) (Tok:=Token T)) else mret tt).
  intros m. unfold wp, on_world_pool. destruct (m _) as [[a|e] [d p']]; [|done]. intros (Hi' & Hd & E1 & E2). simpl in *.
  split; [|done]. split; simpl; [done|]. by rewrite (df_pending _ _ Hd).
Qed.

Lemma PoolInv_mono d d' p : dev_mono d d' → PoolInv F d p [] → PoolInv F d' p [].
Proof. intros Hd Hi. eapply (PoolInv_same F d p); [done|done|]. eapply Arena_mono; [done|apply Hi]. Qed.

(** A world in which the backend moved on. *)
Lemma world_ok_dev w d f :
  world_ok w → dev_mono (w_dev w) d → pending d = [] →
  (∀ se, se_external_backing (f se) = se_external_backing se ∧ se_pool (f se) = se_pool se) →
  world_ok (mkWorld d (f <$> w_session w)).
Proof.
  intros [H1 H2 H3 H4] Hd Hp Hf. pose proof Hd as [Hd1 Hd2]. split; simpl; [done|lia| |].
  - eapply Forall_impl; [exact H3|]. simpl. intros r Hr. lia.
  - intros se (se0 & Hse & ->)%fmap_Some. destruct (Hf se0) as [-> ->]. destruct (H4 se0 Hse) as [Hx Hpool].
    split; [done|]. intros p Hpp. destruct (Hpool p Hpp). split; [by eapply PoolInv_mono|done].
Qed.

Lemma okw_run_streams w : world_ok w → okw run_streams w (λ _, world_ok).
Proof.
  intros Hw. unfold run_streams. apply wp_get_bind. destruct (w_session w ≫= se_streams); [by apply wp_ret|].
  unfold create_streams, in_world, wp, mbind, M_bind. simpl.
  apply (world_ok_dev w _ (λ se, mkSession (se_pool se) (se_external_backing se) (se_slab_caps se) _ (se_unrecoverable se)));
    [done| |apply Hw|done]. split; simpl; lia.
Qed.

Lemma okw_ensure_pool se (program : Program T) placed w :
  well_formed program → world_ok w → w_session w = Some se →
  okw (ensure_pool se program placed) w (λ p w', pool_in w' p ∧ (placement p = None → placement_base p = None)).
Proof.
  intros Hwf [H1 H2 H3 H4] Hse. destruct (H4 se Hse) as [Hx Hpool]. unfold ensure_pool.
  destruct (se_pool se) as [p|].
  - destruct (Hpool p eq_refl). case_bool_decide; [|done]. by apply wp_ret.
  - rewrite Hx. eapply okw_bind; [by apply okw_fresh_pool|]. intros p w1 (Hi & Hn & Hb). by apply wp_modify_bind, wp_ret.
Qed.

Lemma okw_run_pool (program : Program T) args w :
  well_formed program → world_ok w → (∀ pl, ea_placement args = Some pl → WellPlaced pl) →
  okw (run_pool program args) w (λ p w', pool_in w' p).
Proof.
  intros Hwf Hw Hpl. unfold run_pool. apply wp_get_bind.
  eapply (okw_bind _ _ _ (λ p w', pool_in w' p ∧ (placement p = None → placement_base p = None))).
  { destruct (w_session w) as [se|] eqn:Hse; [by apply okw_ensure_pool|]. destruct Hw.
    eapply wp_mono; [by apply okw_fresh_pool| |done]. intros p w1 (? & ? & ?). auto. }
  intros p w1 [[Hi Hp] Hb]. apply okw_on_world_pool; [done|].
  assert (PoolInv F (w_dev w1) (set_recorder (ea_record_placement args) p) []) as Hi'.
  { eapply PInv_frame; [exact Hi|by split|done]. }
  destruct (placement p) as [q|] eqn:Hq; [|destruct (ea_placement args) as [pl|]; [|by apply wp_ret]].
  - by split; [apply (okw_reset_placement_epoch F _ _ [] Hi')|].
  - apply okw_enable_placement; [done|by apply Hb|by apply Hpl].
Qed.

Lemma okw_prepare opts (program : Program T) args w :
  well_formed program → world_ok w → (∀ pl, ea_placement args = Some pl → WellPlaced pl) →
  okw (prepare opts program args) w (λ cp w', pool_in w' cp.2).
Proof.
  intros Hwf Hw Hpl. unfold prepare. eapply (okw_bind _ _ _ (λ _, world_ok)).
  { destruct (eo_validate opts); [|by apply wp_ret]. unfold when, wp. by destruct (validate_program program). }
  intros [] w1 Hw1. eapply okw_bind; [by apply okw_run_streams|]. intros sts w2 Hw2.
  eapply okw_bind; [by apply okw_run_pool|]. intros p w3 Hp. by apply wp_ret.
Qed.
End Prepare.
