(* ===== verification/EngineRun.v ===== *)
(** * Whole runs: memory safety of the launches, memory budget of the run

    The composition of the run set-up of [EngineLaunch] (it establishes the memory
    invariant), [EngineSafe] (every step keeps it) and [EngineLaunch] (it makes
    a launch safe), for [Engine.execute]. *)
From S2P Require Import Prelude SimSchema CoreProgram CoreValidate Ledger Slab Placement Device Objects Pool.
From S2P Require Import PoolInv PoolSafe RunState Transfers Engine Execute EngineInv EngineSafe EngineLaunch.
From S2P Require Import SimValidate CoreConvert.
From stdpp Require Import base tactics option list gmap strings pretty sorting.
From Stdlib Require Import ZArith Lia.
Open Scope Z_scope.

Section Tasks.
Context {T : Type} `{Num T}.
Context (cfg : Config) (chain : ChainIndex) (ntasks : nat) (finals : list (string * Location)).
Context (F : list nat) (size_of : string → Z) (FC BC : option Z).
Context (resolver : TaskSpec T → Launch T) (Hres : launch_ok resolver).

Abbreviation Inv := (Inv (T := T) F size_of FC BC).

Lemma keeps_tasks cancelled tasks : ∀ i, Forall (dispatchable size_of) tasks →
  keeps Inv (forI_ i tasks (dispatch_task cfg chain ntasks finals F resolver cancelled)).
Proof.
  induction tasks as [|t tasks IH]; intros i Hd; simpl; [apply keeps_ret|].
  apply Forall_cons in Hd as [Ht Hd]. apply keeps_bind; [by apply keeps_dispatch|intros []; auto].
Qed.

Lemma tasks_checked cancelled tasks : ∀ i s, Forall (dispatchable size_of) tasks → Inv s →
  forI_ i tasks (dispatch_task cfg chain ntasks finals F (checked size_of resolver) cancelled) s =
  forI_ i tasks (dispatch_task cfg chain ntasks finals F resolver cancelled) s.
Proof.
  induction tasks as [|t tasks IH]; intros i s Hd Hs; simpl; [done|].
  apply Forall_cons in Hd as [Ht Hd]. unfold mbind at 1, M_bind at 1. erewrite dispatch_checked by done.
  apply (bind_same_inv Inv); [by apply keeps_dispatch|done|]. intros [] s' Hs'. by apply IH.
Qed.

Lemma run_tasks_checked cancelled strict tasks s : Forall (dispatchable size_of) tasks → Inv s →
  run_tasks cfg chain ntasks finals F (checked size_of resolver) cancelled strict tasks s =
  run_tasks cfg chain ntasks finals F resolver cancelled strict tasks s.
Proof. intros Hd Hs. unfold run_tasks. unfold mbind at 1 5, M_bind at 1 5. by rewrite tasks_checked. Qed.

(** ** The end of a run *)

(** The usage recorded at every change of the fast memory is in the budget. *)
Definition in_budget (s : Run T) : Prop :=
  Forall (λ p : T * Z, 0 ≤ p.2 ∧ within FC p.2) (fast_trace (rn_trace s)) ∧
  within FC (peak_fast_bytes (rn_ledger s)) ∧ within BC (peak_backing_bytes (rn_ledger s)) ∧
  fast_sum (rn_table s) ≤ peak_fast_bytes (rn_ledger s).

Lemma Inv_budget s : Inv s → in_budget s.
Proof.
  intros (tb & db & df & Hdf & [H0 HK H1 H2 H3 H4 H5 H6 H7 H8 H9 H10]). destruct H4 as [L1 L2 L3 L4], H6 as [C1 C2].
  rewrite C1 in L3. rewrite C2 in L4. split_and!; try done. rewrite H0. lia.
Qed.

(** Returning the buffers leaves the accounts alone. *)
Lemma keeps_reclaim s0 :
  keeps (λ s, rn_trace s = rn_trace s0 ∧ rn_ledger s = rn_ledger s0 ∧ rn_table s = rn_table s0) (reclaim (T:=T) F).
Proof.
  unfold reclaim, reclaim_slot. keeps_tac; intros s1 Hs1; unfold wp, on_pools; by destruct (put _ _) as [[[]|e] [d p]].
Qed.

Lemma okw_run_tasks cancelled strict tasks s : Forall (dispatchable size_of) tasks → Inv s →
  okw (run_tasks cfg chain ntasks finals F resolver cancelled strict tasks) s (λ _, in_budget).
Proof.
  intros Hd Hs. unfold run_tasks. eapply okw_bind; [by apply keeps_tasks|]. intros [] s1 Hs1. apply wp_gets_bind.
  eapply okw_bind; [by apply keeps_drain_tokens|]. intros [] s2 Hs2.
  eapply (okw_bind _ _ _ (λ _, Inv)).
  { revert s2 Hs2. change (keeps Inv (materialize (T:=T))). unfold materialize.
    keeps_tac; apply Inv_keeps; intros; [apply keeps_add_interval|by apply keeps_plain]. }
  intros [] s3 Hs3. apply wp_get_bind. apply wp_check_bind; [intros _|done]. apply wp_check_bind; [intros _|done].
  eapply okw_bind; [by apply (keeps_reclaim s3)|]. intros [] s4 (E1 & E2 & E3). apply wp_modify_bind, wp_ret.
  destruct (Inv_budget s3 Hs3) as (B1 & B2 & B3 & B4). unfold in_budget. simpl. by rewrite E1, E2, E3.
Qed.
End Tasks.

Section Exec.
Context {T : Type} `{Num T}.
Implicit Types (program : Program T) (args : ExecArgs T) (w : World T).

Definition given_refs args : list nat := b_ref <$> (ea_initial_buffers args).*2.

(** A validated program, executables that keep to their streams, a placement
    in its extent, and backing buffers the pool does not own. *)
Record run_ok program args w : Prop := {
  rk_valid : validate_program program = Ok tt;
  rk_world : world_ok (given_refs args) w;
  rk_given : ∀ oid b, (oid, b) ∈ ea_initial_buffers args → b_location b ≠ Fast;
  rk_placement : ∀ pl, ea_placement args = Some pl → WellPlaced pl;
  rk_prewarm : Forall (λ kv, 0 < kv.1.2) (ea_pool_prewarm args);
  rk_resolver : launch_ok (ea_resolver args);
}.

Lemma run_given program args w : run_ok program args w → given_ok (given_refs args) (ea_initial_buffers args).
Proof.
  intros Hr oid b (d1 & d2 & He & _)%assoc_get_split.
  assert ((oid, b) ∈ ea_initial_buffers args) as Hin by (rewrite He; set_solver).
  split; [|by eapply rk_given]. apply list_elem_of_fmap. exists b. split; [done|]. apply list_elem_of_fmap. by exists (oid, b).
Qed.

(** The state in which the tasks are dispatched. *)
Lemma run_set_up opts program args w cfg p w1 u s1 :
  run_ok program args w → prepare opts program args w = (Ok (cfg, p), w1) →
  setup_run cfg program args (initial_run (w_dev w1) program p) = (Ok u, s1) →
  Inv (given_refs args) (size_in program) (p_fast_memory_capacity program) (p_backing_memory_capacity program) s1.
Proof.
  intros Hr Hp Hs. pose proof (proj1 (validate_program_decides program) (rk_valid _ _ _ Hr)) as Hwf.
  pose proof (okw_prepare (given_refs args) opts program args w Hwf (rk_world _ _ _ Hr) (rk_placement _ _ _ Hr)) as Hprep.
  unfold wp in Hprep. rewrite Hp in Hprep. simpl in Hprep.
  pose proof (okw_setup_run (given_refs args) (size_in program) (p_fast_memory_capacity program)
    (p_backing_memory_capacity program) cfg program args (initial_run (w_dev w1) program p)) as Hset.
  unfold wp in Hset. rewrite Hs in Hset. apply Hset; [by apply specs_sized|by eapply run_given|by eapply rk_prewarm|].
  by apply initial_run_core.
Qed.

(** The run in which every launch is guarded by a check of its buffers. *)
Definition guarded program args : ExecArgs T :=
  mkArgs (checked (size_in program) (ea_resolver args)) (ea_initial_buffers args) (ea_pool_prewarm args) (ea_placement args)
    (ea_record_placement args) (ea_cancelled args) (ea_chain args).

(** C1: Every task of a run is launched on sound memory: each input and output
    buffer has exactly the size of its object and no two of them overlap,
    whatever the pool served them from, however tasks, transfers and evictions interleave,
    and with any placement, escape or prewarming.  A run with all its launches
    guarded by that check is the run itself. *)
Theorem launches_are_sound opts program args w :
  run_ok program args w → execute opts program (guarded program args) w = execute opts program args w.
Proof.
  intros Hr. unfold execute. destruct (match w_session w with Some se => _ | None => _ end); [done|].
  change (prepare opts program (guarded program args) w) with (prepare opts program args w).
  destruct (prepare opts program args w) as [[[cfg p]|e] w1] eqn:Hp; [|done].
  enough (run_program opts program (guarded program args) (bool_decide (is_Some (w_session w))) cfg (initial_run (w_dev w1) program p) =
    run_program opts program args (bool_decide (is_Some (w_session w))) cfg (initial_run (w_dev w1) program p)) as -> by done.
  unfold run_program. change (setup_run cfg program (guarded program args)) with (setup_run cfg program args).
  destruct (setup_run cfg program args _) as [[u|e] s1] eqn:Hs; [|done].
  pose proof (run_set_up _ _ _ _ _ _ _ _ _ Hr Hp Hs) as Hi.
  pose proof (proj1 (validate_program_decides program) (rk_valid _ _ _ Hr)) as Hwf.
  simpl. by rewrite (run_tasks_checked _ _ _ _ _ _ _ _ (ea_resolver args) (rk_resolver _ _ _ Hr) _ _ _ _
    (tasks_dispatchable _ Hwf) Hi).
Qed.

Lemma conclude_fails session (s : option (Run T)) e res :
  conclude session s e = Ok res → rr_outcome res = Succeeded → False.
Proof.
  unfold conclude. destruct e; simpl; try done; repeat case_match; intros Hr; try discriminate Hr; injection Hr as <-; done.
Qed.

(** C2: A run that succeeds stayed in its memory budget throughout: the fast usage
    recorded at every change is between zero and the capacity, so are both peaks, and the
    objects resident in fast memory at the end are covered by the peak. *)
Theorem run_within_budget opts program args w res w' :
  run_ok program args w → execute opts program args w = (Ok res, w') → rr_outcome res = Succeeded →
  Forall (λ p : T * Z, 0 ≤ p.2 ∧ within (p_fast_memory_capacity program) p.2) (fast_trace (rr_trace res)) ∧
  within (p_fast_memory_capacity program) (rr_peak_fast_bytes res) ∧
  within (p_backing_memory_capacity program) (rr_peak_backing_bytes res) ∧
  ∃ tb, rr_objects res = Some tb ∧ fast_sum tb ≤ rr_peak_fast_bytes res.
Proof.
  intros Hr. unfold execute. destruct (match w_session w with Some se => _ | None => _ end); [done|].
  destruct (prepare opts program args w) as [[[cfg p]|e] w1] eqn:Hp.
  2: { intros [= He _] Ho. exfalso. revert He Ho. apply conclude_fails. }
  unfold run_program. destruct (setup_run cfg program args _) as [[u|e] s1] eqn:Hs.
  2: { intros [= He _] Ho. exfalso. revert He Ho. apply conclude_fails. }
  pose proof (run_set_up _ _ _ _ _ _ _ _ _ Hr Hp Hs) as Hi.
  pose proof (proj1 (validate_program_decides program) (rk_valid _ _ _ Hr)) as Hwf.
  pose proof (okw_run_tasks cfg (default (build_chain_index program) (ea_chain args))
    (size (ci_task_index (default (build_chain_index program) (ea_chain args)))) (p_final_locations program) _ _ _ _
    (ea_resolver args) (rk_resolver _ _ _ Hr) (ea_cancelled args) (eo_strict_final_locations opts) _ _
    (tasks_dispatchable _ Hwf) Hi) as Ht. unfold wp in Ht.
  destruct (run_tasks _ _ _ _ _ _ _ _ _ _) as [[v|e] s2].
  - intros [= <- _] _. destruct Ht as (B1 & B2 & B3 & B4). simpl. eauto 10.
  - destruct (finish_failed _ s2) as [[u'|e'] s3]; [|done]. intros [= He _] Ho. exfalso. revert He Ho. apply conclude_fails.
Qed.
End Exec.

(** ** Witnesses *)
Lemma synthetic_ok {T} `{Num T} : launch_ok (synthetic_resolver (T := T)).
Proof.
  intros task ctx d a d'. unfold synthetic_resolver. destruct (advance_stream _ _ d) as [[u|e] d1] eqn:He; [|done].
  intros [= _ <-]. unfold advance_stream, mbind, M_bind in He. simpl in He. injection He as _ <-. simpl. split_and!; lia || done.
Qed.

Lemma sample_run_ok : run_ok sample_program sample_args sample_world.
Proof.
  split; [vm_compute; reflexivity| |intros oid b Hin; by apply elem_of_nil in Hin|done|by apply Forall_nil|apply synthetic_ok].
  by split; [done|done|apply Forall_nil|].
Qed.

Lemma launches_are_sound_witness :
  execute sample_opts sample_program (guarded sample_program sample_args) sample_world =
  execute sample_opts sample_program sample_args sample_world.
Proof. apply (launches_are_sound sample_opts sample_program sample_args sample_world sample_run_ok). Defined.

Lemma run_within_budget_witness :
  ∃ res, fst (execute sample_opts sample_program sample_args sample_world) = Ok res ∧
    within (Some 270) (rr_peak_fast_bytes res).
Proof.
  assert (match fst (execute sample_opts sample_program sample_args sample_world) with
          | Ok res => match rr_outcome res with Succeeded => true | _ => false end | Err _ => false end = true) as Hok by (vm_compute; reflexivity).
  destruct (execute sample_opts sample_program sample_args sample_world) as [[res|e] w'] eqn:He; [|discriminate Hok].
  assert (rr_outcome res = Succeeded) as Ho by (simpl in Hok; destruct (rr_outcome res); [reflexivity|discriminate Hok..]). exists res. split; [reflexivity|].
  exact (proj1 (proj2 (run_within_budget sample_opts sample_program sample_args sample_world res w' sample_run_ok He Ho))).
Defined.

(** ** Two programs outside the guarantees

    [t1] prefetches [x] again while the prefetch of [t0] is still queued. *)
Definition redundant_prefetch : Program Z :=
  mkProgram "redundant" [mkObjectSpec "x" 100 Backing "other" None false; mkObjectSpec "y" 50 Backing "other" None false]
    [sample_task "t0" [] [mkOutputSpec "a" 150 Fast "other" None] [] [] [] ["y"; "x"]%string 5;
     sample_task "t1" ["a"]%string [] [] [] ["a"]%string ["x"]%string 3;
     sample_task "t2" ["x"; "y"]%string [mkOutputSpec "c" 95 Fast "other" None] [] [] [] [] 7]
    [] (Some 390) None (Some 10) (Some 10) [] [] SCHEMA_VERSION.

(** The engine accepts a second prefetch of an object whose first one is still
    queued (the simulator's validator rejects the chain).  The second copy replaces
    the live one after the wait for the inputs, so [t2] runs while the
    buffer of its input [x] is being filled, and the first buffer of [x] stays charged. *)
Theorem input_read_in_flight :
  validate_program redundant_prefetch = Ok tt ∧
  validate_chain (to_sim_chain redundant_prefetch) = Err (prefetch_already_on_compute "t1" "x") ∧
  (λ r, (rr_outcome r, (λ iv, (iv_id iv, iv_start iv, iv_end iv)) <$> raw_intervals (rr_trace r), fast_sum <$> rr_objects r,
         last (fast_trace (rr_trace r))))
    <$> fst (execute sample_opts redundant_prefetch sample_args sample_world)
  = Ok (Succeeded,
        [("t0", 0, 5); ("t1", 5, 8); ("from_slow:y", 5, 10); ("from_slow:x", 10, 20); ("to_slow:a", 8, 23);
         ("t2", 23, 30); ("from_slow:x#1", 23, 33)], Some 245, Some (23, 345))%string.
Proof. split_and!; vm_compute; reflexivity. Qed.

(** [t0] is the last use of [x], [t1] makes an object of its size. *)
Definition released_initial : Program Z :=
  mkProgram "released" [mkObjectSpec "x" 100 Fast "other" None false]
    [sample_task "t0" ["x"]%string [] [] ["x"]%string [] [] 5;
     sample_task "t1" [] [mkOutputSpec "c" 100 Fast "other" None] [] [] [] [] 5]
    [] None None (Some 10) (Some 10) [] [] SCHEMA_VERSION.

(** The caller's own fast buffer for [x], and the backend it came from. *)
Definition caller_buffer : Buffer := mkBuffer 0 "buf1" Fast 100 16 RawNone None.
Definition caller_world : World Z := mkWorld (snd (alloc Fast 100 (new_fake false None))) None.
Definition caller_args : ExecArgs Z :=
  mkArgs synthetic_resolver [("x"%string, caller_buffer)] [] None None (λ _, false) None.

(** A fast buffer that the caller provides for an initial object goes to the pool
    when the object is released, and the next output of its size is
    written to it; backing buffers of the caller are left alone. *)
Theorem provided_fast_buffer_reused :
  fst (alloc Fast 100 (new_fake (T:=Z) (Tok:=Token Z) false None)) = Ok caller_buffer ∧
  (λ r, (rr_outcome r, (λ tb : Table Z, sl_buffer <$> (assoc_get tb "c"%string ≫= or_fast)) <$> rr_objects r))
    <$> fst (execute sample_opts released_initial caller_args caller_world)
  = Ok (Succeeded, Some (Some caller_buffer)).
Proof. split; vm_compute; reflexivity. Qed.
