(* ===== verification/PfCore.v ===== *)
(** * PressureFit: facts, anchors and the boundary model
    ([dataflow_sim/policies/pressurefit_aux/core.py], [types.py], [seeds.py]
    and the helpers of [dataflow_sim/policies/_common.py])

    A boundary is an int: [-1] before task 0, [i] after task [i].  Boundary [b]
    has index [b + 1] in the arrays of the model.  An interval set is a dict
    from objects to the spans in which they are to be resident.  The sizes of
    the objects of an interval set are always known ([initial_residency_sized]),
    so the model reads them with [size_of]. *)
From S2P Require Import Prelude SimSchema.
From stdpp Require Import base tactics option list gmap strings sorting.
From Stdlib Require Import ZArith Lia.
Open Scope Z_scope.

(** ** Searches in sorted lists *)

(** [bisect_left(a, x, lo, hi)]. *)
Definition bisect_left_in (a : list Z) (x : Z) (lo hi : nat) : nat := bisect_loop (hi - lo) a x lo hi.
(** [bisect_right] goes right on [v <= x], that is [v < x + 1]. *)
Definition bisect_right_in (a : list Z) (x : Z) (lo hi : nat) : nat := bisect_loop (hi - lo) a (x + 1) lo hi.
Definition bisect_right (a : list Z) (x : Z) : nat := bisect_right_in a x 0 (length a).

(** ** Division of ints

    [ceil(a / b)]: true division rounds the quotient to a double (53 bits,
    half to even) before [math.ceil].  [quot_bits] is the number of fractional
    bits of that double. *)
Definition floor_log2_quot (a b : Z) : Z :=
  let g := Z.log2 a - Z.log2 b in
  if (if 0 <=? g then b * 2 ^ g <=? a else b <=? a * 2 ^ (- g)) then g else g - 1.

Definition round_half_even (n d : Z) : Z :=
  let q := n / d in
  let r := n mod d in
  if 2 * r <? d then q else if d <? 2 * r then q + 1 else if Z.even q then q else q + 1.

Definition ceil_pos (a b : Z) : Z :=
  let k := 52 - floor_log2_quot a b in
  if 0 <=? k then - ((- round_half_even (a * 2 ^ k) b) / 2 ^ k)
  else round_half_even a (b * 2 ^ (- k)) * 2 ^ (- k).

(** For a positive divisor; a negative quotient rounds like its opposite. *)
Definition ceil_truediv (a b : Z) : Z :=
  if a =? 0 then 0
  else if 0 <? a then ceil_pos a b
  else let k := 52 - floor_log2_quot (- a) b in
       if 0 <=? k then - (round_half_even (- a * 2 ^ k) b / 2 ^ k)
       else - (round_half_even (- a) (b * 2 ^ (- k)) * 2 ^ (- k)).

(** [_transfer_time]. *)
Definition transfer_time (size : Z) (bandwidth : option Z) : Z :=
  match bandwidth with
  | Some bw => if bw <=? 0 then 0 else Z.max 1 (ceil_truediv size bw)
  | None => 0
  end.

(** ** Types *)
Record Span := mkSpan { sp_start : Z; sp_end : Z }.

Inductive AnchorKind := AFinalFast | AInitial | AProducer | AUse.
Record Anchor := mkAnchor { an_boundary : Z; an_kind : AnchorKind; an_task : option Z }.

Abbreviation IntervalSet := (list (string * list Span)).

Record Facts (T : Type) := mkFacts {
  f_n : Z;
  f_sizes : gmap string Z;
  f_producer : gmap string Z;
  f_uses : gmap string (list Z);
  f_mutators : gmap string (list Z);
  f_backing_ids : gset string;
  f_compute_ids : gset string;
  f_final_locations : list (string * Location);
  f_task_index : gmap string Z;
  f_task_start : list T;
  f_task_end : list T;
  f_next_reservations : list Z;
  f_inbound_bandwidth : option Z;
  f_outbound_bandwidth : option Z;
}.
Arguments mkFacts {T}.
Arguments f_n {T}.
Arguments f_sizes {T}.
Arguments f_producer {T}.
Arguments f_uses {T}.
Arguments f_mutators {T}.
Arguments f_backing_ids {T}.
Arguments f_compute_ids {T}.
Arguments f_final_locations {T}.
Arguments f_task_index {T}.
Arguments f_task_start {T}.
Arguments f_task_end {T}.
Arguments f_next_reservations {T}.
Arguments f_inbound_bandwidth {T}.
Arguments f_outbound_bandwidth {T}.

(** ** Arrays indexed by ints *)
Definition at_ (l : list Z) (i : Z) : Z := default 0 (l !! Z.to_nat i).
Definition add_at (l : list Z) (i v : Z) : list Z := alter (λ x, x + v) (Z.to_nat i) l.
(** [range(lo, hi)]. *)
Definition range (lo hi : Z) : list Z := seqZ lo (hi - lo).

Section Core.
Context {T : Type} `{Num T}.
Implicit Types (chain : TaskChain T) (f : Facts T).

(** [_compute_ideal_starts], as a list in task order, and the ends. *)
Fixpoint ideal_times (t : T) (ts : list (Task T)) : list (T * T) :=
  match ts with [] => [] | task :: ts => let e := (t + runtime task)%num in (t, e) :: ideal_times e ts end.

(** [_object_sizes]. *)
Definition object_sizes chain : gmap string Z :=
  foldl (λ m (o : OutputAlloc), match m !! out_id o with Some _ => m | None => <[out_id o := out_size o]> m end)
    (foldl (λ m o, <[obj_id o := obj_size o]> m) ∅ (initial_memory chain))
    (tasks chain ≫= outputs).

(** [_build_facts]. *)
Definition producers chain : gmap string Z :=
  foldl (λ m (it : Z * Task T), foldl (λ m o, <[out_id o := it.1]> m) m (outputs it.2))
    (foldl (λ m o, <[obj_id o := -1]> m) ∅ (initial_memory chain))
    (zip (range 0 (Z.of_nat (length (tasks chain)))) (tasks chain)).

Definition push_event (i : Z) (m : gmap string (list Z)) (k : string) : gmap string (list Z) :=
  <[k := default [] (m !! k) ++ [i]]> m.

Definition events_of (sel : Task T → list string) chain : gmap string (list Z) :=
  foldl (λ m (it : Z * Task T), foldl (push_event it.1) m (sel it.2)) ∅
    (zip (range 0 (Z.of_nat (length (tasks chain)))) (tasks chain)).

Definition fast_output_bytes (task : Task T) : Z :=
  sumZ (out_size <$> filter (λ o, out_location o = Fast) (outputs task)).

Definition build_facts chain : Facts T :=
  let n := Z.of_nat (length (tasks chain)) in
  let times := ideal_times num_zero (tasks chain) in
  mkFacts n (object_sizes chain) (producers chain)
    (py_sorted Z.leb <$> events_of inputs chain)
    ((λ l, py_sorted Z.leb (remove_dups l)) <$> events_of mutates_inputs chain)
    (list_to_set (obj_id <$> filter (λ o, obj_location o = Backing) (initial_memory chain)))
    (list_to_set (obj_id <$> filter (λ o, obj_location o = Fast) (initial_memory chain)))
    (final_locations chain)
    (foldl (λ m (it : Z * Task T), <[task_id it.2 := it.1]> m) ∅ (zip (range 0 n) (tasks chain)))
    times.*1 times.*2
    ((fast_output_bytes <$> tasks chain) ++ [0])
    (bandwidth_from_slow chain) (bandwidth_to_slow chain).

Definition size_of f oid : Z := default 0 (f_sizes f !! oid).
Definition producer_of f oid : Z := default (-1) (f_producer f !! oid).
Definition uses_of f oid : list Z := default [] (f_uses f !! oid).
Definition mutators_of f oid : list Z := default [] (f_mutators f !! oid).
Definition final_of f oid : option Location := assoc_get (f_final_locations f) oid.

(** ** Anchors *)

(** [_anchor_records]: the set's members (the code then sorts them). *)
Definition anchor_records oid f : list Anchor :=
  (if bool_decide (oid ∈ f_compute_ids f) then [mkAnchor (-1) AInitial None] else []) ++
  (if 0 <=? producer_of f oid then [mkAnchor (producer_of f oid) AProducer (Some (producer_of f oid))] else []) ++
  ((λ u, mkAnchor (u - 1) AUse (Some u)) <$> uses_of f oid) ++
  (if bool_decide (final_of f oid = Some Fast) then [mkAnchor (Z.max (-1) (f_n f - 1)) AFinalFast None] else []).

(** [_anchors]: the boundaries, sorted and without repetition. *)
Definition anchors oid f : list Z := py_sorted Z.leb (remove_dups (an_boundary <$> anchor_records oid f)).

(** ** The boundary model *)
Definition pressure_start oid (start : Z) f (headroom : bool) : Z :=
  if headroom && (-1 <? start) && negb (start =? producer_of f oid) then start - 1 else start.

(** The indices a span covers, [start..end], in the array of boundaries. *)
Definition span_first oid (sp : Span) f (headroom : bool) : Z :=
  Z.max (-1) (pressure_start oid (sp_start sp) f headroom) + 1.
Definition span_last (sp : Span) f : Z := Z.min (f_n f - 1) (sp_end sp) + 1.

Definition add_span f (headroom : bool) (oid : string) (delta : list Z) (sp : Span) : list Z :=
  let start := span_first oid sp f headroom in
  let end_ := span_last sp f in
  if end_ <? start then delta
  else add_at (add_at delta start (size_of f oid)) (end_ + 1) (- size_of f oid).

(** [running += delta[index]]: prefix sums. *)
Fixpoint running_sums (acc : Z) (delta : list Z) : list Z :=
  match delta with [] => [] | x :: delta => (acc + x) :: running_sums (acc + x) delta end.

(** [_pool_size]: a difference array over [n + 2] entries, summed up. *)
Definition pool_size f (intervals : IntervalSet) (headroom : bool) : list Z :=
  let delta := foldl (λ d (kv : string * list Span), foldl (add_span f headroom kv.1) d kv.2)
                 (replicate (Z.to_nat (f_n f) + 2) 0) intervals in
  running_sums 0 (take (Z.to_nat (f_n f) + 1) delta).

(** [_fire_task_for_interval]. *)
Definition fire_task oid (a b : Z) f : option Z :=
  let p := producer_of f oid in
  let uses := uses_of f oid in
  let hi := bisect_right uses (b + 1) in
  let c := if (0 <=? p) && (a <=? p) && (p <=? b) then p else -1 in
  let c := match uses !! pred hi with
           | Some u => if (0 <? hi)%nat && (a + 1 <=? u) then Z.max c u else c
           | None => c
           end in
  if 0 <=? c then Some (Z.min (f_n f - 1) c)
  else if (a =? -1) && negb (f_n f =? 0) then Some 0 else None.

(** [_first_use_in_interval]; [transitions._first_use] is the same. *)
Definition first_use oid (a b : Z) f : option Z :=
  let uses := uses_of f oid in
  match uses !! bisect_left uses (a + 1) with
  | Some u => if u <=? b + 1 then Some u else None
  | None => None
  end.

(** [for oid, ivs in intervals.items(): for iv in ivs: total += term]. *)
Definition span_total (term : string → Span → Z) (intervals : IntervalSet) : Z :=
  sumZ ((λ kv : string * list Span, sumZ (term kv.1 <$> kv.2)) <$> intervals).

(** [_departing_before_next]. *)
Definition departing_before_next f (intervals : IntervalSet) (idx : Z) (headroom : bool) : Z :=
  let boundary := idx - 1 in
  if (boundary <? 0) || (f_n f - 1 <=? boundary) then 0
  else span_total (λ oid sp,
    if (pressure_start oid (sp_start sp) f headroom <=? boundary) && (boundary <=? sp_end sp) &&
       bool_decide (fire_task oid (sp_start sp) (sp_end sp) f = Some boundary)
    then size_of f oid else 0) intervals.

(** [_nonblocking_arrivals_before_next]. *)
Definition nonblocking_arrivals f (intervals : IntervalSet) (idx : Z) (headroom : bool) : Z :=
  let boundary := idx - 1 in
  if (boundary <? 0) || (f_n f - 1 <=? boundary) then 0
  else span_total (λ oid sp,
    if (sp_start sp <=? -1) || (sp_start sp =? producer_of f oid) ||
       negb (pressure_start oid (sp_start sp) f headroom =? boundary) then 0
    else match first_use oid (sp_start sp) (sp_end sp) f with
         | Some u => if boundary + 1 <? u then size_of f oid else 0
         | None => size_of f oid
         end) intervals.

(** [_modeled_boundary_need], with [pool] computed. *)
Definition modeled_boundary_need f (intervals : IntervalSet) (idx : Z) (headroom : bool) : Z :=
  at_ (pool_size f intervals headroom) idx - departing_before_next f intervals idx headroom
  - nonblocking_arrivals f intervals idx headroom + at_ (f_next_reservations f) idx.

(** ** The seed ([_initial_residency]) *)

(** A final-fast object stays to the last boundary. *)
Definition extend_final f oid (b : Z) : Z :=
  if bool_decide (final_of f oid = Some Fast) then Z.max b (Z.max (-1) (f_n f - 1)) else b.

Definition seed_span f (initial_compute : gset string) oid : option Span :=
  let uses := uses_of f oid in
  let final_fast := bool_decide (final_of f oid = Some Fast) in
  let final_boundary := Z.max (-1) (f_n f - 1) in
  if bool_decide (oid ∈ f_backing_ids f) then
    match uses, final_fast with
    | [], false => None
    | _, _ =>
        let a := if bool_decide (oid ∈ initial_compute) then -1
                 else match uses with u :: _ => u - 1 | [] => final_boundary end in
        Some (mkSpan a (extend_final f oid (match last uses with Some u => u - 1 | None => a end)))
    end
  else if bool_decide (oid ∈ f_compute_ids f) then
    Some (mkSpan (-1) (extend_final f oid (match last uses with Some u => u - 1 | None => -1 end)))
  else
    let p := producer_of f oid in
    if p <? 0 then None else Some (mkSpan p (extend_final f oid (match last uses with Some u => u - 1 | None => p end))).

Definition all_ids f : list string :=
  py_sorted String.leb (elements (dom (f_sizes f) ∪ dom (f_uses f) ∪ dom (f_producer f))).

Definition initial_residency f (initial_compute : gset string) : IntervalSet :=
  omap (λ oid, (λ sp, (oid, [sp])) <$> seed_span f initial_compute oid) (all_ids f).
End Core.
