(* ===== verification/PfFacts.v ===== *)
(** * PressureFit: the boundary model, the facts and the seed

    The pool of [_pool_size] is, at every boundary, the sum of the sizes of the
    spans that cover it; the transfer times are exact for sizes below [2^53] and
    then those of the simulator.  The facts built from a chain whose sizes are not
    negative have sorted uses within the chain ([FactsOk]); every object of the
    initial residency has a size, one span within the chain that covers the object's
    anchors.  The searches of the event lists ([fire_task], [first_use]) are specified on
    sorted lists. *)
From S2P Require Import Prelude SimSchema SimValidate Simulator SimulatorInv PfCore.
From stdpp Require Import base tactics option list gmap strings sorting.
From Stdlib Require Import ZArith Lia.
Open Scope Z_scope.

(** ** Prefix sums *)
Lemma length_add_at l i v : length (add_at l i v) = length l.
Proof. apply length_alter. Qed.

Lemma sum_take_add_at l i v (k : nat) :
  0 ≤ i < Z.of_nat (length l) →
  sumZ (take k (add_at l i v)) = sumZ (take k l) + (if i <? Z.of_nat k then v else 0).
Proof.
  revert i k. induction l as [|x l IH]; intros i k Hi; simpl in Hi; [lia|].
  destruct k as [|k]; [rewrite (proj2 (Z.ltb_ge _ _)); simpl; lia|]. unfold add_at.
  destruct (Z.to_nat i) as [|j] eqn:Hj; simpl.
  - destruct (Z.ltb_spec i (Z.of_nat (S k))); lia.
  - specialize (IH (i - 1) k ltac:(lia)). unfold add_at in IH. replace (Z.to_nat (i - 1)) with j in IH by lia.
    change (list_alter (λ x0, x0 + v) j l) with (alter (λ x0, x0 + v) j l).
    rewrite IH. destruct (Z.ltb_spec (i - 1) (Z.of_nat k)), (Z.ltb_spec i (Z.of_nat (S k))); lia.
Qed.

Lemma running_sums_at acc l (i : nat) :
  (i < length l)%nat → running_sums acc l !! i = Some (acc + sumZ (take (S i) l)).
Proof.
  revert acc i. induction l as [|x l IH]; intros acc i Hi; simpl in Hi; [lia|].
  destruct i as [|i]; simpl; [f_equal; lia|]. rewrite IH by lia. f_equal. simpl. lia.
Qed.

Lemma length_running_sums acc l : length (running_sums acc l) = length l.
Proof. revert acc. induction l as [|x l IH]; intros acc; simpl; [done|]. by rewrite IH. Qed.

Lemma at_add_at l i v j : 0 ≤ i < Z.of_nat (length l) → 0 ≤ j →
  at_ (add_at l i v) j = at_ l j + (if j =? i then v else 0).
Proof.
  intros Hi Hj. unfold at_, add_at. destruct (Z.eqb_spec j i) as [->|Hne].
  - rewrite list_lookup_alter_eq. destruct (lookup_lt_is_Some_2 l (Z.to_nat i)) as [x ->]; [lia|]. done.
  - rewrite list_lookup_alter_ne by lia. lia.
Qed.

Section Pool.
Context {T : Type} `{Num T}.
Implicit Types (f : Facts T) (ivs : IntervalSet).

(** The span counts at index [idx]. *)
Definition cover f (headroom : bool) (idx : Z) (oid : string) (sp : Span) : Z :=
  if (span_first oid sp f headroom <=? idx) && (idx <=? span_last sp f) then size_of f oid else 0.

Lemma span_total_cons term oid sps ivs : span_total term ((oid, sps) :: ivs) = sumZ (term oid <$> sps) + span_total term ivs.
Proof. done. Qed.

Definition delta_len f : nat := (Z.to_nat (f_n f) + 2)%nat.

Lemma add_span_len f h oid d sp : length (add_span f h oid d sp) = length d.
Proof. unfold add_span. case_match; [done|]. by rewrite !length_add_at. Qed.

Lemma add_span_sum f h oid d sp (k : nat) :
  0 ≤ f_n f → length d = delta_len f →
  sumZ (take (S k) (add_span f h oid d sp)) = sumZ (take (S k) d) + cover f h (Z.of_nat k) oid sp.
Proof.
  intros Hn Hlen. unfold add_span, cover, delta_len in *.
  assert (0 ≤ span_first oid sp f h) by (unfold span_first; lia).
  assert (span_last sp f ≤ f_n f) by (unfold span_last; lia).
  destruct (Z.ltb_spec (span_last sp f) (span_first oid sp f h)).
  - destruct (Z.leb_spec (span_first oid sp f h) (Z.of_nat k)), (Z.leb_spec (Z.of_nat k) (span_last sp f)); simpl; lia.
  - rewrite !sum_take_add_at by (rewrite ?length_add_at; lia).
    destruct (Z.leb_spec (span_first oid sp f h) (Z.of_nat k)), (Z.leb_spec (Z.of_nat k) (span_last sp f)),
      (Z.ltb_spec (span_first oid sp f h) (Z.of_nat (S k))), (Z.ltb_spec (span_last sp f + 1) (Z.of_nat (S k))); simpl; lia.
Qed.

Lemma add_spans_sum f h oid sps : 0 ≤ f_n f → ∀ d (k : nat), length d = delta_len f →
  length (foldl (add_span f h oid) d sps) = delta_len f ∧
  sumZ (take (S k) (foldl (add_span f h oid) d sps)) = sumZ (take (S k) d) + sumZ (cover f h (Z.of_nat k) oid <$> sps).
Proof.
  intros Hn. induction sps as [|sp sps IH]; intros d k Hlen; cbn [foldl]; [simpl; split; [done|lia]|].
  destruct (IH (add_span f h oid d sp) k) as [H1 H2]; [by rewrite add_span_len|]. split; [done|].
  rewrite H2, add_span_sum by done. rewrite fmap_cons, sumZ_cons. lia.
Qed.

Lemma all_spans_sum f h ivs : 0 ≤ f_n f → ∀ d (k : nat), length d = delta_len f →
  length (foldl (λ d (kv : string * list Span), foldl (add_span f h kv.1) d kv.2) d ivs) = delta_len f ∧
  sumZ (take (S k) (foldl (λ d (kv : string * list Span), foldl (add_span f h kv.1) d kv.2) d ivs)) =
    sumZ (take (S k) d) + span_total (cover f h (Z.of_nat k)) ivs.
Proof.
  intros Hn. induction ivs as [|[oid sps] ivs IH]; intros d k Hlen; cbn [foldl fst snd]; [unfold span_total; simpl; split; [done|lia]|].
  destruct (add_spans_sum f h oid sps Hn d k Hlen) as [L1 S1]. destruct (IH _ k L1) as [L2 S2]. split; [done|].
  rewrite S2, S1, span_total_cons. lia.
Qed.

Lemma sum_replicate_0 n k : sumZ (take k (replicate n 0)) = 0.
Proof. rewrite take_replicate. induction (k `min` n)%nat; simpl; [done|]. lia. Qed.

Lemma pool_size_len f ivs h : 0 ≤ f_n f → length (pool_size f ivs h) = (Z.to_nat (f_n f) + 1)%nat.
Proof.
  intros Hn. unfold pool_size. rewrite length_running_sums, length_take.
  destruct (all_spans_sum f h ivs Hn (replicate (Z.to_nat (f_n f) + 2) 0) 0) as [-> _]; [by rewrite length_replicate|].
  unfold delta_len. lia.
Qed.

(** The difference array of [_pool_size] gives the exact totals: the pool at
    a boundary is the sum of the sizes of all spans that cover the boundary, the lead
    boundary of a prefetched span included. *)
Lemma pool_size_at f ivs headroom idx :
  0 ≤ idx ≤ f_n f → at_ (pool_size f ivs headroom) idx = span_total (cover f headroom idx) ivs.
Proof.
  intros Hi. unfold pool_size, at_. set (d := foldl _ _ ivs).
  destruct (all_spans_sum f headroom ivs ltac:(lia) (replicate (Z.to_nat (f_n f) + 2) 0) (Z.to_nat idx)) as [Hl Hs];
    [by rewrite length_replicate|]. fold d in Hl, Hs.
  rewrite running_sums_at by (rewrite length_take, Hl; unfold delta_len; lia). simpl.
  rewrite take_take, Nat.min_l by lia. rewrite Hs, sum_replicate_0. rewrite Z2Nat.id by lia. lia.
Qed.
End Pool.

(** ** Transfer times *)
Lemma round_half_even_spec n d : 0 < d → 2 * n - d ≤ 2 * round_half_even n d * d ≤ 2 * n + d.
Proof.
  intros Hd. unfold round_half_even. pose proof (Z.div_mod n d ltac:(lia)) as Hn. pose proof (Z.mod_pos_bound n d Hd).
  set (q := n / d) in *. set (r := n mod d) in *.
  destruct (Z.ltb_spec (2 * r) d); [nia|]. destruct (Z.ltb_spec d (2 * r)); [nia|]. destruct (Z.even q); nia.
Qed.

(** The quotient scaled to 53 bits. *)
Lemma floor_log2_quot_spec a b :
  0 < a → 0 < b → floor_log2_quot a b ≤ 52 →
  b * 2 ^ 52 ≤ a * 2 ^ (52 - floor_log2_quot a b).
Proof.
  intros Ha Hb. unfold floor_log2_quot. destruct (Z.log2_spec a Ha) as [A1 A2], (Z.log2_spec b Hb) as [B1 B2].
  pose proof (Z.log2_nonneg a). pose proof (Z.log2_nonneg b).
  set (la := Z.log2 a) in *. set (lb := Z.log2 b) in *. set (g := la - lb).
  destruct (if 0 <=? g then b * 2 ^ g <=? a else b <=? a * 2 ^ (- g)) eqn:Ht; intros Hl.
  - destruct (Z.leb_spec 0 g).
    + replace 52 with (g + (52 - g)) at 1 by lia. rewrite Z.pow_add_r by lia. nia.
    + replace (52 - g) with (52 + - g) by lia. rewrite Z.pow_add_r by lia. nia.
  - replace (52 - (g - 1)) with (53 - g) by lia.
    assert (2 ^ la * 2 ^ (53 - g) = 2 ^ (lb + 1) * 2 ^ 52) as E by (rewrite <-!Z.pow_add_r by lia; f_equal; lia).
    assert (0 < 2 ^ (53 - g)) by (apply Z.pow_pos_nonneg; lia). replace (Z.succ lb) with (lb + 1) in B2 by lia. nia.
Qed.

Lemma floor_log2_quot_small a b : 0 < a < 2 ^ 53 → 0 < b → floor_log2_quot a b ≤ 52.
Proof.
  intros Ha Hb. unfold floor_log2_quot. pose proof (Z.log2_nonneg b).
  assert (Z.log2 a < 53) by (apply Z.log2_lt_pow2; lia). case_match; lia.
Qed.

Lemma ceil_pos_exact a b : 0 < a < 2 ^ 53 → 0 < b → ceil_pos a b = (a + b - 1) / b.
Proof.
  intros Ha Hb. unfold ceil_pos. pose proof (floor_log2_quot_small a b Ha Hb) as Hl.
  pose proof (floor_log2_quot_spec a b ltac:(lia) Hb Hl) as Hq. set (k := 52 - floor_log2_quot a b) in *.
  rewrite (proj2 (Z.leb_le 0 k)) by lia. assert (0 < 2 ^ k) as Hk by (apply Z.pow_pos_nonneg; lia).
  pose proof (round_half_even_spec (a * 2 ^ k) b Hb) as Hr. set (m := round_half_even (a * 2 ^ k) b) in *.
  set (P := 2 ^ k) in *. set (c := (a + b - 1) / b).
  assert ((c - 1) * b < a ≤ c * b) as Hc.
  { pose proof (Z.div_mod (a + b - 1) b ltac:(lia)). pose proof (Z.mod_pos_bound (a + b - 1) b Hb). fold c in H. nia. }
  assert (b < 2 * P) as HbP by nia.
  assert (m ≤ c * P) by nia. assert ((c - 1) * P < m) by nia.
  assert ((- m) / P = - c) as ->; [|lia].
  symmetry. apply (Z.div_unique _ _ _ (c * P - m)); nia.
Qed.

Section Times.
Context {T : Type} `{Num T}.

(** Up to [2^53] bytes the planner predicts the very transfer times the simulator
    charges, although it divides in floating point: the double nearest to the
    quotient never crosses an integer. *)
Theorem transfer_time_matches (chain : TaskChain T) d size bw :
  0 ≤ size < 2 ^ 53 → 0 < bw →
  match d with from_slow => bandwidth_from_slow chain | to_slow => bandwidth_to_slow chain end = Some bw →
  transfer_runtime chain d size None = Ok (num_of_Z (transfer_time size (Some bw))).
Proof.
  intros Hs Hb Hd. unfold transfer_runtime. rewrite Hd. rewrite (proj2 (Z.eqb_neq bw 0)) by lia. do 2 f_equal.
  unfold transfer_time, ceil_truediv. rewrite (proj2 (Z.leb_gt bw 0)) by done.
  destruct (Z.eqb_spec size 0) as [->|Hne].
  - rewrite Z.max_comm. f_equal. apply Z.div_small. lia.
  - rewrite (proj2 (Z.ltb_lt 0 size)) by lia. rewrite ceil_pos_exact by lia. lia.
Qed.
End Times.

Lemma transfer_time_matches_witness :
  transfer_runtime (mkChain (T:=Z) [] [] [] None None (Some 7) None) from_slow 50 None = Ok (num_of_Z (transfer_time 50 (Some 7))).
Proof. apply (transfer_time_matches (mkChain (T:=Z) [] [] [] None None (Some 7) None) from_slow 50 7); [lia|lia|reflexivity]. Defined.

(** One byte more than a double can count. *)
Example transfer_time_rounds : transfer_time (2 ^ 53 + 1) (Some 1) = 2 ^ 53.
Proof. vm_compute. reflexivity. Qed.

(** ** Searches between two positions *)
Lemma bisect_in_spec fuel a x lo hi :
  StronglySorted Z.le a → (lo ≤ hi ≤ length a)%nat → (hi - lo ≤ fuel)%nat →
  let r := bisect_loop fuel a x lo hi in
  (lo ≤ r ≤ hi)%nat ∧
  (∀ i v, (lo ≤ i < r)%nat → a !! i = Some v → v < x) ∧ (∀ i v, (r ≤ i < hi)%nat → a !! i = Some v → x ≤ v).
Proof.
  intros Hs. revert lo hi. induction fuel as [|fuel IH]; intros lo hi Hb Hf; cbn [bisect_loop].
  { split_and!; intros; lia. }
  destruct (Nat.ltb_spec lo hi); [|split_and!; intros; lia].
  set (mid := ((lo + hi) / 2)%nat). cbv zeta.
  assert (lo ≤ mid < hi)%nat as Hmid.
  { unfold mid. pose proof (Nat.div_mod_eq (lo + hi) 2). pose proof (Nat.mod_upper_bound (lo + hi) 2). lia. }
  destruct (lookup_lt_is_Some_2 a mid) as [v Hv]; [lia|]. rewrite Hv.
  assert (∀ i j vi vj, (i ≤ j)%nat → a !! i = Some vi → a !! j = Some vj → vi ≤ vj) as Hmono.
  { intros i j vi vj Hij Hi Hj. destruct (decide (i = j)) as [->|]; [simplify_eq; lia|].
    apply (StronglySorted_lookup _ _ i j _ _ Hs); [lia|done..]. }
  destruct (Z.ltb_spec v x).
  - destruct (IH (S mid) hi) as (H1 & H2 & H3); [lia..|]. split_and!; [lia|lia| |done].
    intros i w Hi Hw. destruct (decide (S mid ≤ i)%nat); [by apply (H2 i); [lia|]|].
    assert (w ≤ v) by (eapply Hmono; [|exact Hw|exact Hv]; lia). lia.
  - destruct (IH lo mid) as (H1 & H2 & H3); [lia..|]. split_and!; [lia|lia|done|].
    intros i w Hi Hw. destruct (decide (i < mid)%nat); [by apply (H3 i); [lia|]|].
    assert (v ≤ w) by (eapply Hmono; [|exact Hv|exact Hw]; lia). lia.
Qed.

Lemma bisect_in a x lo hi :
  StronglySorted Z.le a → (lo ≤ hi ≤ length a)%nat →
  let r := bisect_left_in a x lo hi in
  (lo ≤ r ≤ hi)%nat ∧
  (∀ i v, (lo ≤ i < r)%nat → a !! i = Some v → v < x) ∧ (∀ i v, (r ≤ i < hi)%nat → a !! i = Some v → x ≤ v).
Proof. intros Hs Hb. apply bisect_in_spec; [done|done|lia]. Qed.

Lemma bisect_left_eq a x : bisect_left a x = bisect_left_in a x 0 (length a).
Proof. unfold bisect_left, bisect_left_in. by rewrite Nat.sub_0_r. Qed.

(** The positions [lo..hi) of a sorted list are those of the values in [a..b]. *)
Lemma bisect_range l a b : StronglySorted Z.le l → a ≤ b + 1 →
  let lo := bisect_left l a in let hi := bisect_right l b in
  (lo ≤ hi ≤ length l)%nat ∧ ∀ i v, l !! i = Some v → ((lo ≤ i < hi)%nat ↔ a ≤ v ≤ b).
Proof.
  intros Hs Hab lo hi. unfold lo, hi. rewrite bisect_left_eq. unfold bisect_right.
  destruct (bisect_in l a 0 (length l) Hs) as (A1 & A2 & A3); [lia|].
  destruct (bisect_in l (b + 1) 0 (length l) Hs) as (B1 & B2 & B3); [lia|].
  change (bisect_left_in l (b + 1) 0 (length l)) with (bisect_right_in l b 0 (length l)) in *.
  set (p := bisect_left_in l a 0 (length l)) in *. set (q := bisect_right_in l b 0 (length l)) in *.
  split.
  - split; [|lia]. destruct (decide (p ≤ q)%nat) as [|Hn]; [done|].
    destruct (lookup_lt_is_Some_2 l q) as [v Hv]; [lia|].
    assert (v < a) by (apply (A2 q v); [lia|done]). assert (b + 1 ≤ v) by (apply (B3 q v); [lia|done]). lia.
  - intros i v Hv. pose proof (lookup_lt_Some _ _ _ Hv). split.
    + intros Hi. split; [apply (A3 i v); [lia|done]|]. assert (v < b + 1) by (apply (B2 i v); [lia|done]). lia.
    + intros Hv'. split.
      * destruct (decide (p ≤ i)%nat); [done|]. assert (v < a) by (apply (A2 i v); [lia|done]). lia.
      * destruct (decide (i < q)%nat); [done|]. assert (b + 1 ≤ v) by (apply (B3 i v); [lia|done]). lia.
Qed.

Lemma anchors_sorted {T} `{Num T} oid (f : Facts T) : StronglySorted Z.le (anchors oid f).
Proof.
  assert (StronglySorted (λ a b, (a <=? b) = true) (anchors oid f)) as Hs.
  { apply py_sorted_sorted; [intros a b; lia|intros a b c; rewrite !Z.leb_le; lia]. }
  induction Hs as [|a l _ IH Ha]; constructor; [done|]. eapply Forall_impl; [exact Ha|]. intros b. by rewrite Z.leb_le.
Qed.

Lemma bisect_right_bounds l b : StronglySorted Z.le l →
  (∀ i v, (i < bisect_right l b)%nat → l !! i = Some v → v ≤ b) ∧ (∀ i v, (bisect_right l b ≤ i)%nat → l !! i = Some v → b < v).
Proof.
  intros Hs. unfold bisect_right. change (bisect_right_in l b 0 (length l)) with (bisect_left_in l (b + 1) 0 (length l)).
  destruct (bisect_in l (b + 1) 0 (length l) Hs) as (A1 & A2 & A3); [lia|]. split; intros i v Hi Hv.
  - assert (v < b + 1) by (apply (A2 i); [lia|done]). lia.
  - apply lookup_lt_Some in Hv as Hl. assert (b + 1 ≤ v) by (apply (A3 i); [lia|done]). lia.
Qed.

Lemma bisect_left_bounds l a : StronglySorted Z.le l →
  (∀ i v, (i < bisect_left l a)%nat → l !! i = Some v → v < a) ∧ (∀ i v, (bisect_left l a ≤ i)%nat → l !! i = Some v → a ≤ v).
Proof.
  intros Hs. rewrite bisect_left_eq. destruct (bisect_in l a 0 (length l) Hs) as (A1 & A2 & A3); [lia|].
  split; intros i v Hi Hv; [apply (A2 i); [lia|done]|]. apply lookup_lt_Some in Hv as Hl. apply (A3 i); [lia|done].
Qed.

(** ** Facts *)
Record FactsOk {T} `{Num T} (f : Facts T) : Prop := {
  fo_n : 0 ≤ f_n f;
  fo_sizes : ∀ oid, 0 ≤ size_of f oid;
  fo_sorted : ∀ oid, StronglySorted Z.le (uses_of f oid);
  fo_uses : ∀ oid u, u ∈ uses_of f oid → 0 ≤ u < f_n f;
  fo_producer : ∀ oid, -1 ≤ producer_of f oid < Z.max 0 (f_n f);
  fo_order : ∀ oid u, u ∈ uses_of f oid → producer_of f oid < u;
  fo_initial : ∀ oid, oid ∈ f_backing_ids f ∪ f_compute_ids f → producer_of f oid = -1;
  fo_known : ∀ oid, uses_of f oid ≠ [] ∨ is_Some (final_of f oid) →
    oid ∈ f_backing_ids f ∪ f_compute_ids f ∨ 0 ≤ producer_of f oid;
  fo_sized : ∀ oid, oid ∈ f_backing_ids f ∪ f_compute_ids f ∨ 0 ≤ producer_of f oid → is_Some (f_sizes f !! oid);
}.

Section Facts.
Context {T : Type} `{Num T}.
Implicit Types (f : Facts T) (chain : TaskChain T).

(** The last event of the span [a..b] fires its departure. *)
Lemma fire_task_last oid a b f d : FactsOk f → -1 ≤ a ≤ b → fire_task oid a b f = Some d → d ≤ b + 1.
Proof.
  intros Hf Hab. unfold fire_task. set (p := producer_of f oid). set (uses := uses_of f oid).
  destruct (bisect_right_bounds uses (b + 1) (fo_sorted f Hf oid)) as [Hr _].
  set (hi := bisect_right uses (b + 1)) in *. set (c0 := if _ && _ && _ then p else -1).
  assert (c0 ≤ b + 1) by (unfold c0; destruct (Z.leb_spec 0 p), (Z.leb_spec a p), (Z.leb_spec p b); simpl; lia).
  set (c := match uses !! pred hi with Some _ => _ | None => _ end).
  assert (c ≤ b + 1).
  { unfold c. destruct (uses !! pred hi) as [u|] eqn:Hu; [|done].
    destruct (Nat.ltb_spec 0 hi); [|done]. simpl. specialize (Hr (pred hi) u ltac:(lia) Hu). case_match; lia. }
  case_match; [intros [= <-]; lia|]. case_match; [intros [= <-]; lia|done].
Qed.

(** A span with an event, or from the start, has a departure. *)
Lemma fire_task_some oid a b f :
  FactsOk f → (∃ u, u ∈ uses_of f oid ∧ a + 1 ≤ u ≤ b + 1) ∨ (0 ≤ producer_of f oid ∧ a ≤ producer_of f oid ≤ b) ∨ (a = -1 ∧ f_n f ≠ 0) →
  is_Some (fire_task oid a b f).
Proof.
  intros Hf Hev. unfold fire_task. set (p := producer_of f oid) in *. set (uses := uses_of f oid) in *.
  destruct (bisect_right_bounds uses (b + 1) (fo_sorted f Hf oid)) as [Hr Hr'].
  set (hi := bisect_right uses (b + 1)) in *. set (c0 := if _ && _ && _ then p else -1).
  set (c := match uses !! pred hi with Some _ => _ | None => _ end).
  destruct (Z.leb_spec 0 c) as [|Hc]; [by eexists|].
  destruct Hev as [(u & Hu & Hau)|[Hp|[-> Hn]]].
  - exfalso. apply list_elem_of_lookup in Hu as [i Hi].
    assert (i < hi)%nat as Hihi by (destruct (decide (hi ≤ i)%nat) as [Hle|]; [specialize (Hr' i u Hle Hi)|]; lia).
    assert (is_Some (uses !! pred hi)) as [v Hv].
    { apply lookup_lt_is_Some_2. pose proof (lookup_lt_Some _ _ _ Hi). unfold hi, bisect_right, bisect_right_in in *.
      destruct (bisect_in uses (b + 1 + 1) 0 (length uses) (fo_sorted f Hf oid)) as [? _]; [lia|]. unfold bisect_left_in in *. lia. }
    assert (u ≤ v).
    { destruct (decide (i = pred hi)) as [->|]; [simplify_eq; lia|]. eapply (StronglySorted_lookup _ _ i (pred hi) _ _ (fo_sorted f Hf oid)); [lia|done..]. }
    unfold c in Hc. rewrite Hv in Hc. rewrite (proj2 (Nat.ltb_lt 0 hi)) in Hc by lia. rewrite (proj2 (Z.leb_le (a + 1) v)) in Hc by lia.
    simpl in Hc. assert (0 ≤ v) by (apply (fo_uses f Hf oid); by eapply list_elem_of_lookup_2). lia.
  - exfalso. assert (c0 = p) as Hc0 by (unfold c0; rewrite !(proj2 (Z.leb_le _ _)) by lia; done).
    unfold c in Hc. repeat case_match; lia.
  - rewrite (proj2 (Z.eqb_neq _ _) Hn). by eexists.
Qed.

Lemma first_use_bounds oid a b f u : FactsOk f → first_use oid a b f = Some u → a + 1 ≤ u ≤ b + 1.
Proof.
  intros Hf. unfold first_use. destruct (uses_of f oid !! _) as [v|] eqn:Hv; [|done].
  destruct (Z.leb_spec v (b + 1)); [|done]. intros [= <-].
  pose proof (proj2 (bisect_left_bounds _ (a + 1) (fo_sorted f Hf oid)) _ _ ltac:(reflexivity) Hv). lia.
Qed.

(** ** Anchors *)
Lemma elem_of_anchors oid f x : x ∈ anchors oid f ↔ ∃ r, r ∈ anchor_records oid f ∧ x = an_boundary r.
Proof. unfold anchors. rewrite elem_of_py_sorted, elem_of_remove_dups, list_elem_of_fmap. naive_solver. Qed.

Lemma anchor_cases oid f x : x ∈ anchors oid f ↔
  (oid ∈ f_compute_ids f ∧ x = -1) ∨ (0 ≤ producer_of f oid ∧ x = producer_of f oid) ∨
  (x + 1 ∈ uses_of f oid) ∨ (final_of f oid = Some Fast ∧ x = Z.max (-1) (f_n f - 1)).
Proof.
  rewrite elem_of_anchors. unfold anchor_records. split.
  - intros (r & Hr & ->). rewrite !elem_of_app, list_elem_of_fmap in Hr.
    destruct Hr as [Hr|[Hr|[(u & -> & Hu)|Hr]]].
    + case_bool_decide; [|by apply elem_of_nil in Hr]. apply list_elem_of_singleton in Hr as ->. by left.
    + destruct (Z.leb_spec 0 (producer_of f oid)); [|by apply elem_of_nil in Hr]. apply list_elem_of_singleton in Hr as ->. auto.
    + right; right; left. simpl. by replace (u - 1 + 1) with u by lia.
    + case_bool_decide; [|by apply elem_of_nil in Hr]. apply list_elem_of_singleton in Hr as ->. auto.
  - intros [[Hc ->]|[[Hp ->]|[Hu|[Hfin ->]]]].
    + exists (mkAnchor (-1) AInitial None). rewrite bool_decide_eq_true_2 by done. set_solver.
    + exists (mkAnchor (producer_of f oid) AProducer (Some (producer_of f oid))). rewrite (proj2 (Z.leb_le _ _) Hp). set_solver.
    + exists (mkAnchor x AUse (Some (x + 1))). rewrite !elem_of_app, list_elem_of_fmap. split; [|done]. right; right; left.
      exists (x + 1). split; [by replace (x + 1 - 1) with x by lia|done].
    + exists (mkAnchor (Z.max (-1) (f_n f - 1)) AFinalFast None). rewrite (bool_decide_eq_true_2 (final_of f oid = Some Fast)) by done. set_solver.
Qed.

(** ** The facts of a chain *)
Lemma object_sizes_nonneg chain oid : sizes_nonneg chain → 0 ≤ default 0 (object_sizes chain !! oid).
Proof.
  intros [Hi Ho]. rewrite Forall_forall in Hi. rewrite Forall_forall in Ho. unfold object_sizes. revert oid.
  apply (foldl_ind (λ m : gmap string Z, ∀ oid, 0 ≤ default 0 (m !! oid))).
  - apply (foldl_ind (λ m : gmap string Z, ∀ oid, 0 ≤ default 0 (m !! oid))); [intros oid; by rewrite lookup_empty|].
    intros o m Hin IH oid. destruct (decide (obj_id o = oid)) as [<-|].
    + rewrite lookup_insert_eq. simpl. by apply Hi.
    + by rewrite lookup_insert_ne.
  - intros o m (t & Ht & Hin)%list_elem_of_bind IH oid. destruct (m !! out_id o); [done|].
    destruct (decide (out_id o = oid)) as [<-|]; [|by rewrite lookup_insert_ne].
    rewrite lookup_insert_eq. simpl. destruct (Ho t Hin) as [_ Hall]. rewrite Forall_forall in Hall. by apply Hall.
Qed.

Lemma object_sizes_dom chain oid :
  oid ∈ (obj_id <$> initial_memory chain) ∨ oid ∈ (tasks chain ≫= out_ids) → is_Some (object_sizes chain !! oid).
Proof.
  unfold object_sizes. set (m0 := foldl _ ∅ _). intros Hin.
  assert (∀ l (m : gmap string Z), is_Some (m !! oid) ∨ oid ∈ out_id <$> l →
    is_Some (foldl (λ m (o : OutputAlloc), match m !! out_id o with Some _ => m | None => <[out_id o := out_size o]> m end) m l !! oid)) as Hout.
  { intros l. induction l as [|o l IH]; intros m [Hm|Hl]; cbn [foldl]; [done|by apply elem_of_nil in Hl|..]; apply IH.
    - left. destruct (m !! out_id o); [done|]. rewrite lookup_insert_is_Some'. auto.
    - rewrite fmap_cons in Hl. apply elem_of_cons in Hl as [->|]; [|by right]. left.
      destruct (m !! out_id o) eqn:Ho; [by rewrite Ho|]. rewrite lookup_insert_eq. done. }
  apply Hout. destruct Hin as [Hin|Hin].
  - left. assert (∀ l (m : gmap string Z), is_Some (m !! oid) ∨ oid ∈ obj_id <$> l →
      is_Some (foldl (λ m o, <[obj_id o := obj_size o]> m) m l !! oid)) as Hini; [|by apply Hini; right].
    intros l. induction l as [|o l IH]; intros m [Hm|Hl]; cbn [foldl]; [done|by apply elem_of_nil in Hl|..]; apply IH.
    + left. rewrite lookup_insert_is_Some'. auto.
    + rewrite fmap_cons in Hl. apply elem_of_cons in Hl as [->|]; [|by right]. left. rewrite lookup_insert_eq. done.
  - right. apply list_elem_of_bind in Hin as (t & (o & -> & Ho)%list_elem_of_fmap & Ht). apply list_elem_of_fmap. exists o.
    split; [done|]. apply list_elem_of_bind. by exists t.
Qed.

(** Tasks paired with their indices. *)
Lemma elem_of_indexed {A} (l : list A) (k : Z) i x :
  (i, x) ∈ zip (range k (k + Z.of_nat (length l))) l ↔ ∃ j : nat, i = k + Z.of_nat j ∧ l !! j = Some x.
Proof.
  unfold range. replace (k + Z.of_nat (length l) - k) with (Z.of_nat (length l)) by lia.
  rewrite list_elem_of_lookup. setoid_rewrite lookup_zip_with_Some. split.
  - intros (j & i' & x' & [= <- <-] & Hi & Hx). exists j. split; [|done]. apply lookup_seqZ in Hi. lia.
  - intros (j & -> & Hx). exists j. eexists _, _. split_and!; [done| |done]. apply lookup_seqZ.
    apply lookup_lt_Some in Hx. lia.
Qed.

Lemma elem_of_indexed_tasks (ts : list (Task T)) i t :
  (i, t) ∈ zip (range 0 (Z.of_nat (length ts))) ts ↔ 0 ≤ i ∧ ts !! Z.to_nat i = Some t.
Proof.
  change (Z.of_nat (length ts)) with (0 + Z.of_nat (length ts)). rewrite elem_of_indexed. split.
  - intros (j & -> & Hj). rewrite Z.add_0_l, Nat2Z.id. split; [lia|done].
  - intros [Hi Ht]. exists (Z.to_nat i). split; [lia|done].
Qed.

Lemma events_spec (sel : Task T → list string) chain oid u :
  u ∈ default [] (events_of sel chain !! oid) → 0 ≤ u ∧ ∃ t, tasks chain !! Z.to_nat u = Some t ∧ oid ∈ sel t.
Proof.
  unfold events_of. revert oid u.
  apply (foldl_ind (λ m : gmap string (list Z), ∀ oid u, u ∈ default [] (m !! oid) →
    0 ≤ u ∧ ∃ t, tasks chain !! Z.to_nat u = Some t ∧ oid ∈ sel t)).
  - intros oid u. rewrite lookup_empty. by intros ?%elem_of_nil.
  - intros [i t] m [Hi Ht]%elem_of_indexed_tasks IH. cbn [fst snd].
    apply (foldl_ind (λ m : gmap string (list Z), ∀ oid u, u ∈ default [] (m !! oid) →
      0 ≤ u ∧ ∃ t, tasks chain !! Z.to_nat u = Some t ∧ oid ∈ sel t)); [done|].
    intros k m' Hk IH' oid u. unfold push_event. destruct (decide (k = oid)) as [<-|].
    + rewrite lookup_insert_eq. cbn [default from_option id]. rewrite elem_of_app, list_elem_of_singleton.
      intros [Hu| ->]; [by apply IH'|]. split; [done|]. by exists t.
    + rewrite lookup_insert_ne by done. apply IH'.
Qed.

Lemma producers_spec chain oid p : producers chain !! oid = Some p →
  (p = -1 ∧ oid ∈ (obj_id <$> initial_memory chain)) ∨ (0 ≤ p ∧ ∃ t, tasks chain !! Z.to_nat p = Some t ∧ oid ∈ out_ids t).
Proof.
  unfold producers. revert oid p. set (P := λ m : gmap string Z, ∀ oid p, m !! oid = Some p →
    (p = -1 ∧ oid ∈ (obj_id <$> initial_memory chain)) ∨ (0 ≤ p ∧ ∃ t, tasks chain !! Z.to_nat p = Some t ∧ oid ∈ out_ids t)).
  apply (foldl_ind P).
  - apply (foldl_ind P); [by intros oid p|]. intros o m Ho IH oid p [[<- <-]|[_ Hp]]%lookup_insert_Some; [|by apply IH].
    left. split; [done|]. by apply list_elem_of_fmap_2.
  - intros [i t] m [Hi Ht]%elem_of_indexed_tasks IH. cbn [fst snd]. apply (foldl_ind P); [done|].
    intros o m' Ho IH' oid p [[<- <-]|[_ Hp]]%lookup_insert_Some; [|by apply IH'].
    right. split; [done|]. exists t. split; [done|]. by apply list_elem_of_fmap_2.
Qed.

Lemma producers_dom chain oid :
  oid ∈ (tasks chain ≫= out_ids) → ∃ p, producers chain !! oid = Some p ∧ 0 ≤ p.
Proof.
  intros (t & Ho & Ht)%list_elem_of_bind. unfold producers. set (m0 := foldl _ ∅ _).
  apply list_elem_of_lookup in Ht as [j Hj].
  assert (∀ l (m : gmap string Z), (∀ i t', (i, t') ∈ l → 0 ≤ i) → (∃ p, m !! oid = Some p ∧ 0 ≤ p) ∨ (∃ i, (i, t) ∈ l) →
    ∃ p, foldl (λ m (it : Z * Task T), foldl (λ m o, <[out_id o := it.1]> m) m (outputs it.2)) m l !! oid = Some p ∧ 0 ≤ p) as Hout.
  { intros l. induction l as [|[i t'] l IH]; intros m Hl Hm; cbn [foldl].
    { destruct Hm as [|[i Hi]]; [done|by apply elem_of_nil in Hi]. }
    apply IH; [set_solver|]. assert (0 ≤ i) as Hi0 by (apply (Hl i t'); by left).
    assert (∀ os (m' : gmap string Z), (∃ p, m' !! oid = Some p ∧ 0 ≤ p) ∨ oid ∈ out_id <$> os →
      ∃ p, foldl (λ m o, <[out_id o := i]> m) m' os !! oid = Some p ∧ 0 ≤ p) as Hin.
    { intros os. induction os as [|o os IH']; intros m' Hm'; cbn [foldl].
      { destruct Hm' as [|Hn]; [done|by apply elem_of_nil in Hn]. }
      apply IH'. destruct (decide (out_id o = oid)) as [<-|Hne].
      - left. rewrite lookup_insert_eq. eauto.
      - rewrite lookup_insert_ne by done. destruct Hm' as [|Hn]; [by left|right].
        rewrite fmap_cons in Hn. apply elem_of_cons in Hn as [->|]; done. }
    destruct Hm as [Hm|[i' Hi']]; [left; apply Hin; by left|]. apply elem_of_cons in Hi' as [[= -> ->]|Hi']; [|by right; exists i'].
    left. apply Hin. right. done. }
  apply Hout.
  - intros i t' [? _]%elem_of_indexed_tasks. done.
  - right. exists (Z.of_nat j). apply elem_of_indexed_tasks. rewrite Nat2Z.id. split; [lia|done].
Qed.

Lemma py_sorted_Zle (l : list Z) : StronglySorted Z.le (py_sorted Z.leb l).
Proof.
  assert (StronglySorted (λ a b, (a <=? b) = true) (py_sorted Z.leb l)) as Hs.
  { apply py_sorted_sorted; [intros a b; lia|intros a b c; rewrite !Z.leb_le; lia]. }
  induction Hs as [|a l' _ IH Ha]; constructor; [done|]. eapply Forall_impl; [exact Ha|]. intros b. by rewrite Z.leb_le.
Qed.

Lemma uses_of_facts chain oid : uses_of (build_facts chain) oid = py_sorted Z.leb (default [] (events_of inputs chain !! oid)).
Proof. unfold uses_of. cbn [f_uses build_facts]. rewrite lookup_fmap. by destruct (events_of inputs chain !! oid). Qed.

Lemma facts_initial chain oid : oid ∈ f_backing_ids (build_facts chain) ∪ f_compute_ids (build_facts chain) →
  oid ∈ (obj_id <$> initial_memory chain).
Proof.
  cbn [f_backing_ids f_compute_ids build_facts]. rewrite elem_of_union, !elem_of_list_to_set, !list_elem_of_fmap.
  intros [(o & -> & Ho)|(o & -> & Ho)]; apply list_elem_of_filter in Ho as [_ Ho]; eauto.
Qed.

Lemma known_mono chain i j oid : (i ≤ j)%nat → oid ∈ known_before chain i → oid ∈ known_before chain j.
Proof.
  intros Hij. unfold known_before. rewrite !elem_of_union, !elem_of_list_to_set. intros [|Hk]; [by left|right].
  apply list_elem_of_bind in Hk as (t & Ho & Ht). apply list_elem_of_bind. exists t. split; [done|].
  apply elem_of_take in Ht as (k & Hk & Hlt). apply elem_of_take. exists k. split; [done|lia].
Qed.

Lemma produced_known chain p t oid i :
  tasks chain !! p = Some t → oid ∈ out_ids t → (p < i)%nat → oid ∈ known_before chain i.
Proof.
  intros Ht Ho Hp. unfold known_before. rewrite elem_of_union, !elem_of_list_to_set. right. apply list_elem_of_bind.
  exists t. split; [done|]. apply elem_of_take. eauto.
Qed.

Lemma build_facts_ok chain : ids_resolve chain → (∀ o, o ∈ initial_memory chain → loc_known (obj_location o) = true) →
  sizes_nonneg chain → FactsOk (build_facts chain).
Proof.
  intros [_ Hts Hfin] Hloc Hsz.
  assert (∀ oid, oid ∈ (obj_id <$> initial_memory chain) → oid ∈ f_backing_ids (build_facts chain) ∪ f_compute_ids (build_facts chain)) as Hini.
  { intros oid (o & -> & Ho)%list_elem_of_fmap. cbn [f_backing_ids f_compute_ids build_facts].
    rewrite elem_of_union, !elem_of_list_to_set, !list_elem_of_fmap. specialize (Hloc o Ho).
    destruct (obj_location o) eqn:Hl; [right|left|done]; exists o; by rewrite list_elem_of_filter. }
  assert (∀ oid i, 0 ≤ i → oid ∈ known_before chain (Z.to_nat i) → ∀ p t, producers chain !! oid = Some p →
    tasks chain !! Z.to_nat p = Some t → oid ∈ out_ids t → p < i) as Hfresh.
  { intros oid i Hi Hk p t Hp Ht Ho. destruct (decide (p < i)); [done|].
    destruct (tr_outputs_fresh _ _ (Hts _ _ Ht) oid Ho). eapply known_mono; [|exact Hk]. lia. }
  assert (∀ oid, oid ∈ known_before chain (length (tasks chain)) →
    oid ∈ (obj_id <$> initial_memory chain) ∨ 0 ≤ producer_of (build_facts chain) oid) as Hknown.
  { intros oid. unfold known_before. rewrite elem_of_union, !elem_of_list_to_set, firstn_all. intros [|Hk]; [by left|right].
    destruct (producers_dom chain oid Hk) as (p & Hp & Hp0). unfold producer_of. cbn [f_producer build_facts]. by rewrite Hp. }
  split.
  - simpl. lia.
  - intros oid. by apply object_sizes_nonneg.
  - intros oid. rewrite uses_of_facts. apply py_sorted_Zle.
  - intros oid u. rewrite uses_of_facts, elem_of_py_sorted. intros (Hu & t & Ht & _)%events_spec. apply lookup_lt_Some in Ht. simpl. lia.
  - intros oid. unfold producer_of. cbn [f_producer f_n build_facts]. destruct (producers chain !! oid) as [p|] eqn:Hp; simpl; [|lia].
    apply producers_spec in Hp as [[-> _]|(Hp & t & Ht & _)]; [lia|]. apply lookup_lt_Some in Ht. lia.
  - intros oid u. rewrite uses_of_facts, elem_of_py_sorted. intros (Hu & t & Ht & Hin)%events_spec.
    unfold producer_of. cbn [f_producer build_facts]. destruct (producers chain !! oid) as [p|] eqn:Hp; simpl; [|lia].
    destruct (producers_spec _ _ _ Hp) as [[-> _]|(Hp0 & t' & Ht' & Ho)]; [lia|].
    eapply Hfresh; [exact Hu| |exact Hp|exact Ht'|done]. by apply (tr_inputs _ _ (Hts _ _ Ht)).
  - intros oid Hin%facts_initial. unfold producer_of. cbn [f_producer build_facts].
    destruct (producers chain !! oid) as [p|] eqn:Hp; simpl; [|lia].
    destruct (producers_spec _ _ _ Hp) as [[-> _]|(Hp0 & t' & Ht' & Ho)]; [lia|].
    assert (p < 0); [|lia]. eapply Hfresh; [done| |exact Hp|exact Ht'|done].
    unfold known_before. rewrite elem_of_union, elem_of_list_to_set. by left.
  - intros oid Hev. destruct (Hknown oid) as [?|]; [|left; by apply Hini|by right]. destruct Hev as [Hu|[loc Hl]].
    + rewrite uses_of_facts in Hu. destruct (py_sorted Z.leb _) as [|u l] eqn:Hus; [done|].
      assert (u ∈ py_sorted Z.leb (default [] (events_of inputs chain !! oid))) as Hin by (rewrite Hus; by left).
      rewrite elem_of_py_sorted in Hin. apply events_spec in Hin as (Hu0 & t & Ht & Hin).
      eapply known_mono; [|by apply (tr_inputs _ _ (Hts _ _ Ht))]. apply lookup_lt_Some in Ht. lia.
    + eapply Hfin. unfold final_of in Hl. apply assoc_get_split in Hl as (d1 & d2 & Hd & _).
      cbn [f_final_locations build_facts] in Hd. rewrite Hd. apply elem_of_app. right. by left.
  - intros oid [Hi%facts_initial|Hp]; cbn [f_sizes build_facts]; apply object_sizes_dom; [by left|right].
    unfold producer_of in Hp. cbn [f_producer build_facts] in Hp. destruct (producers chain !! oid) as [p|] eqn:Hpr; simpl in Hp; [|lia].
    destruct (producers_spec _ _ _ Hpr) as [[-> _]|(Hp0 & t' & Ht' & Ho)]; [lia|]. apply list_elem_of_bind.
    exists t'. split; [done|]. by eapply list_elem_of_lookup_2.
Qed.

Lemma initial_alloc_known objs : ∀ acc r, foldR (λ '(f, b) o,
    match obj_location o with
    | Fast => Ok (f + obj_size o, b)
    | Backing => Ok (f, b + obj_size o)
    | l => Err (location_key_error l)
    end) acc objs = Ok r → ∀ o, o ∈ objs → loc_known (obj_location o) = true.
Proof.
  induction objs as [|x objs IH]; intros [a b] r Hr o Ho; [by apply elem_of_nil in Ho|].
  cbn [foldR] in Hr. apply result_bind_ok in Hr as (acc & Hx & Hr).
  apply elem_of_cons in Ho as [->|Ho]; [by destruct (obj_location x)|by eapply IH].
Qed.

Lemma planning_facts chain : validate_planning_input chain = Ok tt → sizes_nonneg chain → FactsOk (build_facts chain).
Proof.
  intros Hv Hsz. unfold validate_planning_input in Hv. apply result_bind_ok in Hv as (u & Hid & Hcap).
  apply validate_id_resolution_ok in Hid. apply build_facts_ok; [done| |done].
  unfold validate_capacity in Hcap. apply result_bind_ok in Hcap as (r & Ha & _). by eapply initial_alloc_known.
Qed.

(** ** The seed *)
Section Seed.
Context (f : Facts T) (Hf : FactsOk f) (ic : gset string).

Lemma uses_ends oid u0 us : uses_of f oid = u0 :: us → ∃ u1, last (uses_of f oid) = Some u1 ∧
  u1 ∈ uses_of f oid ∧ ∀ u, u ∈ uses_of f oid → u0 ≤ u ≤ u1.
Proof.
  intros Hu. destruct (last (uses_of f oid)) as [u1|] eqn:Hl; [|by rewrite last_None, Hu in Hl].
  exists u1. split; [done|]. pose proof (fo_sorted f Hf oid) as Hs. split.
  - by apply last_Some_elem_of.
  - intros u Hin. split.
    + rewrite Hu in Hs, Hin. inversion Hs as [|? ? _ Hall]; subst. apply elem_of_cons in Hin as [->|Hin]; [lia|].
      rewrite Forall_forall in Hall. by apply Hall.
    + apply last_Some in Hl as [l Hl]. rewrite Hl in Hs, Hin. apply StronglySorted_app_iff in Hs as (_ & _ & Hs).
      apply elem_of_app in Hin as [Hin|Hin]; [|apply list_elem_of_singleton in Hin; lia]. apply (Hs u u1 Hin). by left.
Qed.

(** A seed span is within the chain and, unless the object starts in both
    memories, covers its anchors. *)
Lemma seed_span_spec oid sp : seed_span f ic oid = Some sp →
  -1 ≤ sp_start sp ≤ sp_end sp ∧ sp_end sp ≤ f_n f - 1 ∧
  (oid ∉ f_backing_ids f ∨ oid ∉ f_compute_ids f ∨ oid ∈ ic → ∀ x, x ∈ anchors oid f → sp_start sp ≤ x ≤ sp_end sp).
Proof.
  intros Hsp. pose proof (fo_n f Hf) as Hn. unfold seed_span in Hsp.
  replace (Z.max (-1) (f_n f - 1)) with (f_n f - 1) in Hsp by lia.
  assert (∀ b, -1 ≤ b ≤ f_n f - 1 → b ≤ extend_final f oid b ≤ f_n f - 1 ∧
    (final_of f oid = Some Fast → extend_final f oid b = f_n f - 1)) as Hext.
  { clear Hsp. intros b Hb. unfold extend_final. case_bool_decide; split; [lia|intros _; lia|lia|done]. }
  set (ext := extend_final f oid) in *.
  pose proof (fo_producer f Hf oid) as Hp. pose proof (fo_order f Hf oid) as Hord.
  pose proof (fo_initial f Hf oid) as Hini. pose proof (fo_uses f Hf oid) as Hus.
  assert (∀ a b, -1 ≤ a ≤ b → b ≤ f_n f - 1 → sp = mkSpan a (ext b) →
    (∀ u, u ∈ uses_of f oid → a ≤ u - 1 ≤ b) →
    (oid ∉ f_backing_ids f ∨ oid ∉ f_compute_ids f ∨ oid ∈ ic → oid ∈ f_compute_ids f → a = -1) →
    (0 ≤ producer_of f oid → a = producer_of f oid) →
    -1 ≤ sp_start sp ≤ sp_end sp ∧ sp_end sp ≤ f_n f - 1 ∧
    (oid ∉ f_backing_ids f ∨ oid ∉ f_compute_ids f ∨ oid ∈ ic → ∀ x, x ∈ anchors oid f → sp_start sp ≤ x ≤ sp_end sp)) as Hgoal.
  { intros a b Hab Hb -> Hu Hc Hpr. simpl. destruct (Hext b) as [He Hfast]; [lia|]. split_and!; [lia..|].
    intros Hboth x [[Hcx ->]|[[Hp0 ->]|[Hx|[Hfx ->]]]]%anchor_cases.
    - specialize (Hc Hboth Hcx). lia.
    - specialize (Hpr Hp0). lia.
    - specialize (Hu _ Hx). lia.
    - specialize (Hfast Hfx). lia. }
  destruct (uses_of f oid) as [|u0 us] eqn:Hu.
  - cbn [last] in Hsp. assert (∀ a, ∀ u, u ∈ @nil Z → a ≤ u - 1 ≤ a) as Hnil by (by intros a u ?%elem_of_nil).
    case_bool_decide as Hb.
    + specialize (Hini ltac:(set_solver)). case_bool_decide as Hff; [|done]. case_bool_decide as Hic; simplify_eq.
      * apply (Hgoal (-1) (-1)); [lia|lia|done|by auto|done|lia].
      * apply (Hgoal (f_n f - 1) (f_n f - 1)); [lia|lia|done|by auto|naive_solver|lia].
    + case_bool_decide as Hc; simplify_eq.
      * specialize (Hini ltac:(set_solver)). apply (Hgoal (-1) (-1)); [lia|lia|done|by auto|done|lia].
      * destruct (Z.ltb_spec (producer_of f oid) 0); [done|]. simplify_eq.
        apply (Hgoal (producer_of f oid) (producer_of f oid)); [lia|lia|done|by auto|done|done].
  - destruct (uses_ends oid u0 us Hu) as (u1 & Hl & Hin1 & Hr). rewrite Hu in Hl, Hin1, Hr. rewrite Hl in Hsp.
    pose proof (Hr u0 ltac:(by left)) as Hu01. pose proof (Hus u0 ltac:(by left)). pose proof (Hus u1 Hin1).
    pose proof (Hord u0 ltac:(by left)). assert (∀ u, u ∈ u0 :: us → u0 - 1 ≤ u - 1 ≤ u1 - 1) as Hr' by (intros u Hx; specialize (Hr u Hx); lia).
    assert (∀ a, a ≤ u0 - 1 → ∀ u, u ∈ u0 :: us → a ≤ u - 1 ≤ u1 - 1) as Hra by (intros a Ha u Hx; specialize (Hr u Hx); lia).
    case_bool_decide as Hb.
    + specialize (Hini ltac:(set_solver)). case_bool_decide as Hic; simplify_eq.
      * apply (Hgoal (-1) (u1 - 1)); [lia|lia|done|apply Hra; lia|done|lia].
      * apply (Hgoal (u0 - 1) (u1 - 1)); [lia|lia|done|done|naive_solver|lia].
    + case_bool_decide as Hc; simplify_eq.
      * specialize (Hini ltac:(set_solver)). apply (Hgoal (-1) (u1 - 1)); [lia|lia|done|apply Hra; lia|done|lia].
      * destruct (Z.ltb_spec (producer_of f oid) 0); [done|]. simplify_eq.
        apply (Hgoal (producer_of f oid) (u1 - 1)); [lia|lia|done|apply Hra; lia|done|done].
Qed.

Lemma seed_span_sized oid sp : seed_span f ic oid = Some sp → is_Some (f_sizes f !! oid).
Proof.
  intros Hsp. apply (fo_sized f Hf). rewrite elem_of_union. unfold seed_span in Hsp.
  destruct (bool_decide_reflect (oid ∈ f_backing_ids f)); [by left; left|].
  destruct (bool_decide_reflect (oid ∈ f_compute_ids f)); [by left; right|].
  destruct (Z.ltb_spec (producer_of f oid) 0); [done|]. by right.
Qed.

Lemma seed_keys : (initial_residency f ic).*1 = filter (λ oid, is_Some (seed_span f ic oid)) (all_ids f).
Proof.
  unfold initial_residency. induction (all_ids f) as [|oid l IH]; [done|]. rewrite filter_cons. cbn [omap list_omap].
  case_decide as Hd; destruct (seed_span f ic oid) as [sp|]; simpl; [by f_equal|by destruct Hd|by destruct Hd|done].
Qed.

Lemma seed_keys_nodup : NoDup (initial_residency f ic).*1.
Proof. rewrite seed_keys. apply NoDup_filter. unfold all_ids. rewrite <-py_sorted_perm. apply NoDup_elements. Qed.

Lemma initial_residency_sized oid : oid ∈ (initial_residency f ic).*1 → is_Some (f_sizes f !! oid).
Proof. rewrite seed_keys, list_elem_of_filter. intros [[sp Hsp] _]. by eapply seed_span_sized. Qed.

Lemma seed_get oid spans : assoc_get (initial_residency f ic) oid = Some spans → ∃ sp, spans = [sp] ∧ seed_span f ic oid = Some sp.
Proof.
  intros (d1 & d2 & Hd & _)%assoc_get_split. assert ((oid, spans) ∈ initial_residency f ic) as Hin by (rewrite Hd; set_solver).
  unfold initial_residency in Hin. apply list_elem_of_omap in Hin as (x & _ & Hx). destruct (seed_span f ic x) as [sp|] eqn:Hs; [|done].
  simplify_eq/=. eauto.
Qed.

Lemma seed_has oid sp : seed_span f ic oid = Some sp → assoc_get (initial_residency f ic) oid = Some [sp].
Proof.
  intros Hsp. destruct (assoc_get (initial_residency f ic) oid) as [spans|] eqn:Hg.
  - destruct (seed_get _ _ Hg) as (sp' & -> & Hsp'). congruence.
  - apply assoc_get_none in Hg. destruct Hg. rewrite seed_keys. apply list_elem_of_filter. split; [by rewrite Hsp|].
    unfold all_ids. rewrite elem_of_py_sorted, elem_of_elements, !elem_of_union, !elem_of_dom.
    left; left. by eapply seed_span_sized.
Qed.

(** Every object with a mandatory point is in the seed. *)
Lemma seed_some oid x : x ∈ anchors oid f → oid ∉ f_backing_ids f ∨ oid ∉ f_compute_ids f → is_Some (seed_span f ic oid).
Proof.
  intros Hx Hboth. assert (oid ∈ f_backing_ids f ∪ f_compute_ids f ∨ 0 ≤ producer_of f oid) as Hk.
  { apply anchor_cases in Hx as [[Hc ->]|[[Hp ->]|[Hu|[Hfin ->]]]]; [left; set_solver|by right|..]; apply (fo_known f Hf).
    - left. intros Hnil. rewrite Hnil in Hu. by apply elem_of_nil in Hu.
    - right. by rewrite Hfin. }
  unfold seed_span. case_bool_decide as Hb.
  - destruct (uses_of f oid) as [|u us] eqn:Hu; [|done]. case_bool_decide as Hff; [done|]. exfalso.
    pose proof (fo_initial f Hf oid ltac:(set_solver)) as Hp.
    apply anchor_cases in Hx as [[Hc ->]|[[Hp0 ->]|[Hux|[Hfin ->]]]]; [|lia|by rewrite Hu in Hux; apply elem_of_nil in Hux|done].
    naive_solver.
  - case_bool_decide as Hc; [done|]. destruct (Z.ltb_spec (producer_of f oid) 0); [|done]. destruct Hk as [Hk|]; [set_solver|lia].
Qed.
End Seed.
End Facts.
