(* ===== verification/PfTransitions.v ===== *)
(** * PressureFit: executable transitions
    ([dataflow_sim/policies/pressurefit_aux/transitions.py])

    How each span of an object begins (placed, produced, prefetched) and ends
    (retained, released, offloaded), with the window in which its prefetch may
    be triggered. *)
From S2P Require Import Prelude SimSchema PfCore.
From stdpp Require Import base tactics option list gmap strings sorting.
From Stdlib Require Import ZArith Lia.
Open Scope Z_scope.

Inductive ArrivalKind := Initial | Preplaced | Produced | Prefetch.
Inductive DepartureAction := Retain | Release | Offload.

#[export] Instance ArrivalKind_eq_dec : EqDecision ArrivalKind.
Proof. solve_decision. Defined.
#[export] Instance DepartureAction_eq_dec : EqDecision DepartureAction.
Proof. solve_decision. Defined.

Record PrefetchWindow := mkWindow {
  pw_earliest : Z;
  pw_latest : Z;
  pw_first_use : option Z;
  pw_entry : Z;
}.

Record Transition := mkTransition {
  tr_span : Span;
  tr_arrival : ArrivalKind;
  tr_prefetch : option PrefetchWindow;
  tr_departure : option Z;
  tr_action : DepartureAction;
  tr_mutated : bool;
}.

Record TransitionPlan := mkTransitionPlan {
  tp_preplaced : list string;
  tp_prefetches : list (string * Transition);
  tp_departures : list (string * Transition);
}.

(** What the planner raises. *)
Inductive PlanError :=
| NoPrefetchWindow (oid : string) (sp : Span)
| NoDepartureTask (oid : string) (sp : Span)
| NonProgressingSplit
| CannotReduce (boundary : Z)
| TooManySplits (n : Z)
| EmptyHeap
| SplitWithoutTransition (oid : string)
| SplitCostDisagrees (oid : string).

Definition span_leb (a b : Span) : bool :=
  if sp_start a =? sp_start b then sp_end a <=? sp_end b else sp_start a <=? sp_start b.

Section Transitions.
Context {T : Type} `{Num T}.
Implicit Types (f : Facts T) (sp : Span).

(** [_has_event_in_span]. *)
Definition has_event (events : list Z) sp : bool :=
  match events !! bisect_left events (sp_start sp + 1) with
  | Some e => e <=? sp_end sp + 1
  | None => false
  end.

(** The state of the walk over an object's spans. *)
Record Walk := mkWalk {
  wk_backing : bool;
  wk_departed : option Z;
  wk_was_release : bool;
}.

Definition span_arrival oid f (coalesce : bool) (index : nat) (is_last : bool) (w : Walk) sp :
    result PlanError (ArrivalKind * option PrefetchWindow * bool) :=
  if bool_decide (index = 0%nat) && (sp_start sp =? -1) then
    Ok (if bool_decide (oid ∈ f_backing_ids f) && negb (bool_decide (oid ∈ f_compute_ids f)) then Preplaced else Initial,
        None, wk_backing w)
  else if bool_decide (index = 0%nat) && (0 <=? producer_of f oid) && (sp_start sp =? producer_of f oid) then
    Ok (Produced, None, false)
  else
    let fu := first_use oid (sp_start sp) (sp_end sp) f in
    let earliest := match wk_departed w with
                    | None => 0
                    | Some d => if coalesce && wk_was_release w then d else d + 1
                    end in
    let latest := match fu with
                  | Some u => u - 1
                  | None => if is_last && bool_decide (final_of f oid = Some Fast) then Z.max 0 (sp_start sp)
                            else Z.max 0 (Z.min (f_n f - 1) (sp_start sp))
                  end in
    if (f_n f =? 0) || (latest <? earliest) then Err (NoPrefetchWindow oid sp)
    else Ok (Prefetch, Some (mkWindow earliest latest fu (sp_start sp)), wk_backing w).

Definition span_departure oid f (is_last : bool) (backing_current : bool) sp :
    result PlanError (option Z * DepartureAction) :=
  let departure := fire_task oid (sp_start sp) (sp_end sp) f in
  if is_last && bool_decide (final_of f oid = Some Fast) then Ok (None, Retain)
  else match departure with
       | None => Err (NoDepartureTask oid sp)
       | Some d =>
           Ok (Some d, if negb is_last || bool_decide (final_of f oid = Some Backing)
                       then (if backing_current then Release else Offload) else Release)
       end.

Fixpoint walk_spans oid f (coalesce : bool) (index : nat) (w : Walk) (spans : list Span) :
    result PlanError (list Transition) :=
  match spans with
  | [] => Ok []
  | sp :: spans =>
      let is_last := bool_decide (spans = []) in
      '(arrival, prefetch, bc) ← span_arrival oid f coalesce index is_last w sp;
      let mutated := has_event (mutators_of f oid) sp in
      let bc := if mutated then false else bc in
      '(departure, action) ← span_departure oid f is_last bc sp;
      let bc := if bool_decide (action = Offload) then true else bc in
      rest ← walk_spans oid f coalesce (S index) (mkWalk bc departure (bool_decide (action = Release))) spans;
      Ok (mkTransition sp arrival prefetch departure action mutated :: rest)
  end.

(** [_build_object_transitions]. *)
Definition build_object_transitions oid (spans : list Span) f (coalesce : bool) : result PlanError (list Transition) :=
  walk_spans oid f coalesce 0 (mkWalk (bool_decide (oid ∈ f_backing_ids f)) None false) (py_sorted span_leb spans).

(** [_backing_state_before_spans]. *)
Fixpoint backing_walk oid f (index : nat) (bc : bool) (departed : option Z) (spans : list Span) : list (bool * option Z) :=
  match spans with
  | [] => []
  | sp :: spans =>
      let bc := if bool_decide (index = 0%nat) && (0 <=? producer_of f oid) && (sp_start sp =? producer_of f oid)
                then false else bc in
      let after := if has_event (mutators_of f oid) sp then false else bc in
      let after := if negb (bool_decide (spans = [])) && negb after then true else after in
      (bc, departed) :: backing_walk oid f (S index) after (fire_task oid (sp_start sp) (sp_end sp) f) spans
  end.

Definition backing_state_before_spans oid (spans : list Span) f : list (bool * option Z) :=
  backing_walk oid f 0 (bool_decide (oid ∈ f_backing_ids f)) None spans.

(** [_split_transition_cost], given the backing state before the span. *)
Definition split_transition_cost oid (spans : list Span) (index : nat) (left_end right_start : option Z) f
    (before : bool * option Z) : option Z :=
  match spans !! index with
  | None => None (* the index is that of a span *)
  | Some original =>
      let left :=
        match left_end with
        | Some le =>
            let l := mkSpan (sp_start original) le in
            let bc := if bool_decide (index = 0%nat) && (0 <=? producer_of f oid) && (sp_start l =? producer_of f oid)
                      then false else before.1 in
            let bc := if has_event (mutators_of f oid) l then false else bc in
            match fire_task oid (sp_start l) (sp_end l) f with
            | None => None
            | Some d => Some (if bc then 0 else 1, Some d)
            end
        | None => if before.1 then Some (0, before.2) else None
        end in
      match left, right_start with
      | None, _ => None
      | Some (cost, _), None => Some cost
      | Some (cost, departed), Some rs =>
          let fu := first_use oid rs (sp_end original) f in
          let earliest := match departed with None => 0 | Some d => d + 1 end in
          let is_final := bool_decide (index = pred (length spans)) in
          let latest := match fu with
                        | Some u => u - 1
                        | None => if is_final && bool_decide (final_of f oid = Some Fast) then Z.max 0 rs
                                  else Z.max 0 (Z.min (f_n f - 1) rs)
                        end in
          if (f_n f =? 0) || (latest <? earliest) then None else Some cost
      end
  end.

(** [_build_transitions]. *)
Definition add_transition oid (plan : TransitionPlan) (tr : Transition) : TransitionPlan :=
  mkTransitionPlan
    (if bool_decide (tr_arrival tr = Preplaced) then tp_preplaced plan ++ [oid] else tp_preplaced plan)
    (if bool_decide (tr_arrival tr = Prefetch) then tp_prefetches plan ++ [(oid, tr)] else tp_prefetches plan)
    (if bool_decide (tr_action tr = Retain) then tp_departures plan else tp_departures plan ++ [(oid, tr)]).

Definition build_transitions (intervals : IntervalSet) f (coalesce : bool) : result PlanError TransitionPlan :=
  foldR (λ plan oid,
      trs ← build_object_transitions oid (default [] (assoc_get intervals oid)) f coalesce;
      Ok (foldl (add_transition oid) plan trs))
    (mkTransitionPlan [] [] []) (py_sorted String.leb intervals.*1).
End Transitions.
