(* ===== verification/PfReducer.v ===== *)
(** * PressureFit: the pressure reducer
    ([dataflow_sim/policies/pressurefit_aux/reducer.py])

    [_PressureReducer] as a computation over its mutable fields ([Red]): the
    interval set, the incremental arrays, the lazy heap of strict overflows and
    the split cache.  The heap is the list of its entries in the order [heappop]
    takes them.  [anchors_by_oid] caches [anchors], which does not change, and
    is left out. *)
From S2P Require Import Prelude SimSchema PfCore PfTransitions.
From stdpp Require Import base tactics option list gmap strings sorting.
From Stdlib Require Import ZArith Lia.
Open Scope Z_scope.

Inductive CutScore := MinStall | MinTransfer.

(** A float that may be [inf]. *)
Inductive XNum (T : Type) := Fin (t : T) | Inf.
Arguments Fin {T} t.
Arguments Inf {T}.

(** [_SplitRank]: [(float, int, int, int, int, int)]. *)
Record Rank (T : Type) := mkRank {
  rk_time : XNum T;
  rk_rest : list Z;
}.
Arguments mkRank {T}.
Arguments rk_time {T}.
Arguments rk_rest {T}.

Record SplitOption (T : Type) := mkSplit {
  so_rank : Rank T;
  so_oid : string;
  so_index : nat;
  so_left : option Z;
  so_right : option Z;
  so_cost : Z;
}.
Arguments mkSplit {T}.
Arguments so_rank {T}.
Arguments so_oid {T}.
Arguments so_index {T}.
Arguments so_left {T}.
Arguments so_right {T}.
Arguments so_cost {T}.

(** ** Order of tuples *)
Section Order.
Context {T : Type} `{Num T}.

Definition xnum_eqb (a b : XNum T) : bool :=
  match a, b with Fin a, Fin b => (a =? b)%num | Inf, Inf => true | _, _ => false end.
Definition xnum_ltb (a b : XNum T) : bool :=
  match a, b with Fin a, Fin b => (a <? b)%num | Fin _, Inf => true | Inf, _ => false end.

Fixpoint zs_ltb (a b : list Z) : bool :=
  match a, b with
  | x :: a, y :: b => if x =? y then zs_ltb a b else x <? y
  | [], _ :: _ => true
  | _, [] => false
  end.

(** [a < b] on ranks: the first component that differs decides. *)
Definition rank_ltb (a b : Rank T) : bool :=
  if xnum_eqb (rk_time a) (rk_time b) then zs_ltb (rk_rest a) (rk_rest b) else xnum_ltb (rk_time a) (rk_time b).

Definition rank_eqb (a b : Rank T) : bool :=
  xnum_eqb (rk_time a) (rk_time b) && bool_decide (rk_rest a = rk_rest b).

(** [a <= b] on pairs of a rank and an object id. *)
Definition ranked_leb (a b : Rank T * string) : bool :=
  if rank_eqb a.1 b.1 then String.leb a.2 b.2 else rank_ltb a.1 b.1.

(** [heapq.merge] of two sorted lists: the first wins ties. *)
Fixpoint merge (a : list (Rank T * string)) : list (Rank T * string) → list (Rank T * string) :=
  fix merge_b b :=
    match a, b with
    | [], _ => b
    | _, [] => a
    | x :: a', y :: b' => if ranked_leb x y then x :: merge a' b else y :: merge_b b'
    end.
End Order.

Definition heap_leb (a b : Z * Z) : bool := if a.1 =? b.1 then a.2 <=? b.2 else a.1 <=? b.1.

(** ** State *)
Record Red (T : Type) := mkRed {
  rd_intervals : IntervalSet;
  rd_backing : list (string * list (bool * option Z));
  rd_pool : list Z;
  rd_departing : list Z;
  rd_nonblocking : list Z;
  rd_heap : list (Z * Z);
  rd_cache_key : option (Z * bool);
  rd_cache : gmap string (option (SplitOption T));
}.
Arguments mkRed {T}.
Arguments rd_intervals {T}.
Arguments rd_backing {T}.
Arguments rd_pool {T}.
Arguments rd_departing {T}.
Arguments rd_nonblocking {T}.
Arguments rd_heap {T}.
Arguments rd_cache_key {T}.
Arguments rd_cache {T}.

Section Reducer.
Context {T : Type} `{Num T}.
Context (f : Facts T) (cap : Z) (extra : list Z) (cut_score : CutScore) (headroom continue_headroom_cuts : bool).
Implicit Types (s : Red T) (sp : Span).

Abbreviation RdM := (M (Red T) PlanError).

Definition with_heap h s : Red T := mkRed (rd_intervals s) (rd_backing s) (rd_pool s) (rd_departing s)
  (rd_nonblocking s) h (rd_cache_key s) (rd_cache s).
Definition with_cache k c s : Red T := mkRed (rd_intervals s) (rd_backing s) (rd_pool s) (rd_departing s)
  (rd_nonblocking s) (rd_heap s) k c.
Definition with_terms d nb s : Red T := mkRed (rd_intervals s) (rd_backing s) (rd_pool s) d nb
  (rd_heap s) (rd_cache_key s) (rd_cache s).
Definition with_pool_array p s : Red T := mkRed (rd_intervals s) (rd_backing s) p (rd_departing s)
  (rd_nonblocking s) (rd_heap s) (rd_cache_key s) (rd_cache s).
Definition with_spans ivs bk s : Red T := mkRed ivs bk (rd_pool s) (rd_departing s)
  (rd_nonblocking s) (rd_heap s) (rd_cache_key s) (rd_cache s).

(** ** Incremental terms ([_relaxed_terms_add]) *)
Definition departing_add (oid : string) sp (sign : Z) (d : list Z) : list Z :=
  match fire_task oid (sp_start sp) (sp_end sp) f with
  | Some fire =>
      if (0 <=? fire) && (fire <? f_n f - 1) && (pressure_start oid (sp_start sp) f headroom <=? fire) && (fire <=? sp_end sp)
      then add_at d (fire + 1) (sign * size_of f oid) else d
  | None => d
  end.

Definition nonblocking_add (oid : string) sp (sign : Z) (d : list Z) : list Z :=
  let boundary := pressure_start oid (sp_start sp) f headroom in
  if (-1 <? sp_start sp) && negb (sp_start sp =? producer_of f oid) && (0 <=? boundary) && (boundary <? f_n f - 1)
  then match first_use oid (sp_start sp) (sp_end sp) f with
       | Some u => if boundary + 1 <? u then add_at d (boundary + 1) (sign * size_of f oid) else d
       | None => add_at d (boundary + 1) (sign * size_of f oid)
       end
  else d.

Definition relaxed_terms_add (oid : string) (sign : Z) s sp : Red T :=
  with_terms (departing_add oid sp sign (rd_departing s)) (nonblocking_add oid sp sign (rd_nonblocking s)) s.

(** ** Overflows *)
Definition strict_overflow s (idx : Z) : Z :=
  at_ (rd_pool s) idx + at_ (f_next_reservations f) idx + at_ extra idx - cap.

Definition relaxed_overflow s (idx : Z) : Z :=
  at_ (rd_pool s) idx - at_ (rd_departing s) idx - at_ (rd_nonblocking s) idx + at_ (f_next_reservations f) idx
  + at_ extra idx - cap.

(** [_worst_strict_overflow]: stale entries are popped. *)
Fixpoint drop_stale s (heap : list (Z * Z)) : list (Z * Z) :=
  match heap with
  | [] => []
  | (neg, idx) :: rest => if - neg =? strict_overflow s idx then heap else drop_stale s rest
  end.

Definition worst_strict_overflow : RdM (Z * Z) :=
  s ← get;
  let heap := drop_stale s (rd_heap s) in
  modify (with_heap heap) ;;
  match heap with
  | (_, idx) :: _ => mret (idx, strict_overflow s idx)
  | [] => raise EmptyHeap
  end.

(** [max(range(len(pool)), key=relaxed_overflow)]: the first maximum. *)
Definition worst_relaxed_boundary s : Z :=
  foldl (λ best i, if relaxed_overflow s best <? relaxed_overflow s i then i else best) 0
    (range 1 (Z.of_nat (length (rd_pool s)))).

(** ** Split options *)
Definition split_edges (oid : string) (a b boundary : Z) (allow_timing : bool) : option (option Z * option Z) :=
  let ans := anchors oid f in
  let lo := bisect_left ans a in
  let hi := bisect_right ans b in
  let exact_pos := bisect_left_in ans boundary lo hi in
  let right_pos := bisect_left_in ans (boundary + 1) lo hi in
  if (exact_pos <? hi)%nat && bool_decide (ans !! exact_pos = Some boundary) then
    if negb allow_timing || (hi <=? right_pos)%nat then None
    else if bool_decide (fire_task oid a boundary f = Some boundary) then Some (Some boundary, ans !! right_pos)
    else None
  else
    (* left_pos + 1, which is [lo] when there is no anchor to the left *)
    let left_pos := bisect_right_in ans (boundary - 1) lo hi in
    Some (if (lo <? left_pos)%nat then ans !! pred left_pos else None,
          if (right_pos <? hi)%nat then ans !! right_pos else None).

Definition timing_penalty s (oid : string) (index : nat) (start : Z) (left_end right_start : option Z) (cost : Z) : XNum T :=
  match right_start with
  | None => Fin num_zero
  | Some rs =>
      if f_n f =? 0 then Fin num_zero
      else
        let spans := default [] (assoc_get (rd_intervals s) oid) in
        let right_end := default 0 (sp_end <$> spans !! index) in
        let fu := first_use oid rs right_end f in
        let departed := match left_end with
                        | None => Some (assoc_get (rd_backing s) oid ≫= λ st, st !! index ≫= snd)
                        | Some le => Some <$> fire_task oid start le f
                        end in
        match departed with
        | None => Inf
        | Some departure =>
            let earliest := match departure with None => 0 | Some d => d + 1 end in
            let earliest := match fu with None => Z.max earliest (Z.max 0 rs) | Some _ => earliest end in
            if f_n f <=? earliest then Inf
            else
              let end_of i := default num_zero (f_task_end f !! Z.to_nat i) in
              let trigger := end_of earliest in
              let ready := match departure with
                           | Some d => if cost =? 0 then num_zero
                                       else (end_of d + num_of_Z (transfer_time (size_of f oid) (f_outbound_bandwidth f)))%num
                           | None => num_zero
                           end in
              let completion := (num_max trigger ready + num_of_Z (transfer_time (size_of f oid) (f_inbound_bandwidth f)))%num in
              let deadline := match fu with
                              | Some u => default num_zero (f_task_start f !! Z.to_nat u)
                              | None => default num_zero (last (f_task_end f))
                              end in
              Fin (num_max num_zero (completion - deadline)%num)
        end
  end.

Definition first_use_of (oid : string) : Z :=
  match f_uses f !! oid with Some (u :: _) => u | _ => f_n f end.

Definition ranked_split_option s (oid : string) (index : nat) (a b : Z) (left_end right_start : option Z) :
    option (SplitOption T) :=
  let gap_len := default (b + 1) right_start - default (a - 1) left_end - 1 in
  if gap_len <=? 0 then None
  else
    let drops_init := bool_decide (left_end = None) && (a =? -1) in
    let backing_current := default false (fst <$> (assoc_get (rd_backing s) oid ≫= λ st, st !! index)) in
    let cost :=
      if drops_init then (if backing_current then Some 0 else None)
      else match left_end with
           | Some le => Some (if backing_current && negb (has_event (mutators_of f oid) (mkSpan a le)) then 0 else 1)
           | None => None
           end in
    match cost with
    | None => None
    | Some cost =>
        let tail := [if drops_init then 0 else 1; - first_use_of oid; - size_of f oid; - gap_len] in
        let rank := match cut_score with
                    | MinStall => mkRank (timing_penalty s oid index a left_end right_start cost) (cost :: tail)
                    | MinTransfer => mkRank (Fin (num_of_Z cost)) (0 :: tail)
                    end in
        Some (mkSplit rank oid index left_end right_start cost)
    end.

(** The last span that starts at or before [boundary + 1]. *)
Definition split_option_for_oid s (oid : string) (boundary : Z) (allow_timing : bool) : option (SplitOption T) :=
  let ivs := default [] (assoc_get (rd_intervals s) oid) in
  let pos := bisect_right (sp_start <$> ivs) (boundary + 1) in
  if (pos =? 0)%nat then None
  else
    sp ← ivs !! pred pos;
    if (pressure_start oid (sp_start sp) f headroom <=? boundary) && (boundary <=? sp_end sp) then
      edges ← split_edges oid (sp_start sp) (sp_end sp) boundary allow_timing;
      ranked_split_option s oid (pred pos) (sp_start sp) (sp_end sp) edges.1 edges.2
    else None.

(** ** Candidate indices *)
Definition rank_floor (oid : string) (a b : Z) (left_end right_start : option Z) : Rank T :=
  let gap_len := default (b + 1) right_start - default (a - 1) left_end - 1 in
  let drops_init := bool_decide (left_end = None) && (a =? -1) in
  mkRank (Fin num_zero) [0; if drops_init then 0 else 1; - first_use_of oid; - size_of f oid; - gap_len].

Abbreviation Ranked := (Rank T * string)%type.

(** The anchors of a span, [anchors[lo:hi]]. *)
Definition span_anchors (oid : string) sp : list Z :=
  let ans := anchors oid f in
  let lo := bisect_left ans (sp_start sp) in
  let hi := bisect_right ans (sp_end sp) in
  take (hi - lo) (drop lo ans).

Definition put_candidates (rank : Rank T) (oid : string) (by_boundary : list (list Ranked)) (bs : list Z) : list (list Ranked) :=
  foldl (λ l b, alter (λ c, c ++ [(rank, oid)]) (Z.to_nat (b + 1)) l) by_boundary bs.

Fixpoint gap_candidates (oid : string) sp (left_end : option Z) (cursor : Z) (ans : list Z)
    (by_boundary : list (list Ranked)) : list (list Ranked) :=
  match ans with
  | [] => if cursor <=? sp_end sp
          then put_candidates (rank_floor oid (sp_start sp) (sp_end sp) left_end None) oid by_boundary (range cursor (sp_end sp + 1))
          else by_boundary
  | r :: ans =>
      gap_candidates oid sp (Some r) (r + 1) ans
        (put_candidates (rank_floor oid (sp_start sp) (sp_end sp) left_end (Some r)) oid by_boundary (range cursor r))
  end.

Fixpoint timing_pairs (oid : string) sp (ans : list Z) (by_boundary : list (list Ranked)) : list (list Ranked) :=
  match ans with
  | b :: ((r :: _) as rest) =>
      timing_pairs oid sp rest
        (if (r - b <=? 1) || negb (bool_decide (fire_task oid (sp_start sp) b f = Some b)) then by_boundary
         else put_candidates (rank_floor oid (sp_start sp) (sp_end sp) (Some b) (Some r)) oid by_boundary [b])
  | _ => by_boundary
  end.

Definition over_spans (g : string → Span → list (list Ranked) → list (list Ranked)) (intervals : IntervalSet) : list (list Ranked) :=
  py_sorted ranked_leb <$>
    foldl (λ l (kv : string * list Span), foldl (λ l sp, g kv.1 sp l) l kv.2) (replicate (Z.to_nat (f_n f) + 1) []) intervals.

Definition boundary_candidates (intervals : IntervalSet) : list (list Ranked) :=
  over_spans (λ oid sp, gap_candidates oid sp None (pressure_start oid (sp_start sp) f headroom) (span_anchors oid sp)) intervals.
Definition timing_candidates (intervals : IntervalSet) : list (list Ranked) :=
  over_spans (λ oid sp, timing_pairs oid sp (span_anchors oid sp)) intervals.

(** The indices are built once, from the seed. *)
Context (bcs tcs : list (list Ranked)).

(** ** The best split at a boundary *)

(** The cached option of an object, or the option computed and cached. *)
Definition cached_option (boundary : Z) (allow_timing : bool) (oid : string) : RdM (option (SplitOption T)) :=
  s ← get;
  match rd_cache s !! oid with
  | Some option => mret option
  | None =>
      let option := split_option_for_oid s oid boundary allow_timing in
      modify (with_cache (rd_cache_key s) (<[oid := option]> (rd_cache s))) ;;
      mret option
  end.

Fixpoint scan_candidates (boundary : Z) (allow_timing : bool) (best : option (SplitOption T)) (cands : list Ranked) :
    RdM (option (SplitOption T)) :=
  match cands with
  | [] => mret best
  | (floor, oid) :: cands =>
      if match best with Some o => negb (rank_ltb floor (so_rank o)) | None => false end then mret best
      else
        option ← cached_option boundary allow_timing oid;
        scan_candidates boundary allow_timing
          (match option, best with
           | Some o, Some o' => if rank_ltb (so_rank o) (so_rank o') then Some o else best
           | Some o, None => Some o
           | None, _ => best
           end) cands
  end.

Definition best_split_at (idx : Z) (allow_timing : bool) : RdM (option (SplitOption T)) :=
  let boundary := idx - 1 in
  modify (λ s, if bool_decide (rd_cache_key s = Some (idx, allow_timing)) then s else with_cache (Some (idx, allow_timing)) ∅ s) ;;
  let cands := default [] (bcs !! Z.to_nat idx) in
  let cands := if allow_timing then merge cands (default [] (tcs !! Z.to_nat idx)) else cands in
  best ← scan_candidates boundary allow_timing None cands;
  match best with
  | None => mret None
  | Some o =>
      s ← get;
      let spans := default [] (assoc_get (rd_intervals s) (so_oid o)) in
      let before := default (false, None) (assoc_get (rd_backing s) (so_oid o) ≫= λ st, st !! so_index o) in
      match split_transition_cost (so_oid o) spans (so_index o) (so_left o) (so_right o) f before with
      | None => raise (SplitWithoutTransition (so_oid o))
      | Some cost => check (cost =? so_cost o) (SplitCostDisagrees (so_oid o)) ;; mret (Some o)
      end
  end.

(** ** Applying a split *)

(** The uncovered boundaries of [_subtract_removed_interval_pressure]. *)
Fixpoint uncovered (cursor old_end : Z) (pieces : list (Z * Z)) : list Z :=
  match pieces with
  | [] => range cursor (old_end + 1)
  | (start, end_) :: pieces => range cursor start ++ uncovered (Z.max cursor (end_ + 1)) old_end pieces
  end.

Definition pair_leb (a b : Z * Z) : bool := if a.1 =? b.1 then a.2 <=? b.2 else a.1 <=? b.1.

Definition removed_indices (oid : string) (old : Span) (pieces : list Span) : list Z :=
  let old_start := Z.max (-1) (pressure_start oid (sp_start old) f headroom) in
  let old_end := Z.min (f_n f - 1) (sp_end old) in
  if old_end <? old_start then []
  else
    let norm := omap (λ sp, let start := Z.max (-1) (pressure_start oid (sp_start sp) f headroom) in
                            let end_ := Z.min (f_n f - 1) (sp_end sp) in
                            if start <=? end_ then Some (start, end_) else None) pieces in
    (λ b, b + 1) <$> uncovered old_start old_end (py_sorted pair_leb norm).

Definition split_pieces (old : Span) (left_end right_start : option Z) : list Span :=
  (match left_end with Some le => [mkSpan (sp_start old) le] | None => [] end) ++
  (match right_start with Some rs => [mkSpan rs (sp_end old)] | None => [] end).

(** [l[i:i+1] = pieces]. *)
Definition splice {A} (l : list A) (i : nat) (pieces : list A) : list A := take i l ++ pieces ++ drop (S i) l.

Definition push_overflow (s : Red T) (idx : Z) : Red T :=
  with_heap (insert_sorted heap_leb (- strict_overflow s idx, idx) (rd_heap s)) s.

Definition apply_split (o : SplitOption T) : RdM unit :=
  let oid := so_oid o in
  modify (λ s, with_cache (rd_cache_key s) (delete oid (rd_cache s)) s) ;;
  s ← get;
  let spans := default [] (assoc_get (rd_intervals s) oid) in
  match spans !! so_index o with
  | None => mret tt (* the option is of a span of the object *)
  | Some old =>
      let pieces := split_pieces old (so_left o) (so_right o) in
      check (negb (bool_decide ((λ sp, (sp_start sp, sp_end sp)) <$> pieces = [(sp_start old, sp_end old)]))) NonProgressingSplit ;;
      modify (λ s, foldl (relaxed_terms_add oid 1) (relaxed_terms_add oid (-1) s old) pieces) ;;
      let changed := removed_indices oid old pieces in
      modify (λ s, with_pool_array (foldl (λ p i, add_at p i (- size_of f oid)) (rd_pool s) changed) s) ;;
      modify (λ s, foldl push_overflow s changed) ;;
      let spans := splice spans (so_index o) pieces in
      modify (λ s,
        if bool_decide (spans = [])
        then with_spans (assoc_del (rd_intervals s) oid) (assoc_del (rd_backing s) oid) s
        else with_spans (assoc_set (rd_intervals s) oid spans)
               (assoc_set (rd_backing s) oid (backing_state_before_spans oid spans f)) s)
  end.

(** ** The reduction loop *)
Definition reduce_step : RdM bool :=
  '(worst, overflow) ← worst_strict_overflow;
  if overflow <=? 0 then mret true
  else
    s ← get;
    if negb continue_headroom_cuts && (relaxed_overflow s (worst_relaxed_boundary s) <=? 0) then mret true
    else
      split ← best_split_at worst false;
      match split with
      | Some o => apply_split o ;; mret false
      | None =>
          s ← get;
          let worst := worst_relaxed_boundary s in
          if relaxed_overflow s worst <=? 0 then mret true
          else
            split ← best_split_at worst true;
            match split with
            | Some o => apply_split o ;; mret false
            | None => raise (CannotReduce (worst - 1))
            end
      end.

Fixpoint reduce_loop (n : nat) : RdM unit :=
  match n with
  | O => raise (TooManySplits (Z.max 1 (2 * (f_n f + 2) * Z.max 1 (Z.of_nat (size (f_sizes f))))))
  | S n =>
      finished ← reduce_step;
      if (finished : bool) then mret tt else reduce_loop n
  end.

Definition max_splits : Z := Z.max 1 (2 * (f_n f + 2) * Z.max 1 (Z.of_nat (size (f_sizes f)))).
End Reducer.

Section Reduce.
Context {T : Type} `{Num T}.

(** [_PressureReducer.__init__]. *)
Definition new_reducer (f : Facts T) (cap : Z) (extra : list Z) (headroom : bool) (intervals : IntervalSet) : Red T :=
  let backing := (λ kv : string * list Span, (kv.1, backing_state_before_spans kv.1 kv.2 f)) <$> intervals in
  let zeros := replicate (Z.to_nat (f_n f) + 1) 0 in
  let s := mkRed intervals backing (pool_size f intervals headroom) zeros zeros [] None ∅ in
  let s := foldl (λ s (kv : string * list Span), foldl (relaxed_terms_add f headroom kv.1 1) s kv.2) s intervals in
  with_heap (py_sorted heap_leb
    ((λ i, (- strict_overflow f cap extra s i, i)) <$> range 0 (Z.of_nat (length (rd_pool s))))) s.

(** [_reduce_to_fit]: the interval set it leaves. *)
Definition reduce_to_fit (f : Facts T) (intervals : IntervalSet) (cap : option Z) (extra : list Z)
    (cut_score : CutScore) (headroom continue_headroom_cuts : bool) : result PlanError IntervalSet :=
  match cap with
  | None => Ok intervals
  | Some cap =>
      let bcs := boundary_candidates f headroom intervals in
      let tcs := timing_candidates f intervals in
      match reduce_loop f cap extra cut_score headroom continue_headroom_cuts bcs tcs
              (Z.to_nat (max_splits f)) (new_reducer f cap extra headroom intervals) with
      | (Ok _, s) => Ok (rd_intervals s)
      | (Err e, _) => Err e
      end
  end.
End Reduce.
