(* ===== verification/PfReducerInv.v ===== *)
(** * PressureFit: the reducer is exact and keeps every anchor

    The incremental arrays of [_PressureReducer] are those of the boundary
    model computed from scratch, the lazy heap always holds the current overflow
    of every boundary, and a split never uncovers an anchor.  So the interval
    set the reduction returns fits the capacity in the boundary model and still
    covers every mandatory point. *)
From S2P Require Import Prelude SimSchema PfCore PfFacts PfTransitions PfReducer.
From stdpp Require Import base tactics option list gmap strings sorting.
From Stdlib Require Import ZArith Lia.
Open Scope Z_scope.

(** ** Sums over the spans of an interval set *)
Lemma span_total_set term (ivs : IntervalSet) oid spans spans' :
  assoc_get ivs oid = Some spans →
  span_total term (assoc_set ivs oid spans') = span_total term ivs - sumZ (term oid <$> spans) + sumZ (term oid <$> spans').
Proof.
  intros (d1 & d2 & -> & Hk)%assoc_get_split. rewrite assoc_set_middle by done. unfold span_total.
  rewrite !fmap_app, !fmap_cons, !sumZ_app, !sumZ_cons. cbn [fst snd]. lia.
Qed.

Lemma span_total_del term (ivs : IntervalSet) oid spans :
  assoc_get ivs oid = Some spans →
  span_total term (assoc_del ivs oid) = span_total term ivs - sumZ (term oid <$> spans).
Proof.
  intros (d1 & d2 & -> & Hk)%assoc_get_split. rewrite assoc_del_middle by done. unfold span_total.
  rewrite !fmap_app, !fmap_cons, !sumZ_app, !sumZ_cons. cbn [fst snd]. lia.
Qed.

Lemma splice_sum (g : Span → Z) spans i old pieces :
  spans !! i = Some old → sumZ (g <$> splice spans i pieces) = sumZ (g <$> spans) - g old + sumZ (g <$> pieces).
Proof.
  intros Hi. unfold splice. rewrite <-(take_drop_middle spans i old Hi) at 3.
  rewrite !fmap_app, fmap_cons, !sumZ_app, sumZ_cons. lia.
Qed.

Lemma span_total_ext t1 t2 (ivs : IntervalSet) :
  (∀ oid sp, t1 oid sp = t2 oid sp) → span_total t1 ivs = span_total t2 ivs.
Proof.
  intros He. unfold span_total. f_equal. apply list_fmap_ext. intros i [oid sps] _. f_equal. apply list_fmap_ext. auto.
Qed.

Lemma span_total_zero t (ivs : IntervalSet) : (∀ oid sp, t oid sp = 0) → span_total t ivs = 0.
Proof.
  intros He. unfold span_total. induction ivs as [|[oid sps] ivs IH]; [done|]. rewrite fmap_cons, sumZ_cons, IH. cbn [fst snd].
  induction sps as [|sp sps IHs]; [done|]. rewrite fmap_cons, sumZ_cons, He. lia.
Qed.

Lemma span_total_nonneg t (ivs : IntervalSet) : (∀ oid sp, 0 ≤ t oid sp) → 0 ≤ span_total t ivs.
Proof.
  intros Ht. apply sumZ_nonneg, Forall_fmap, Forall_true. intros [oid sps]. apply sumZ_nonneg, Forall_fmap, Forall_true.
  intros sp. apply Ht.
Qed.

(** Occurrences of an index in a list of changes. *)
Definition occurs (l : list Z) (i : Z) : Z := sumZ ((λ j, if i =? j then 1 else 0) <$> l).

Lemma occurs_app l1 l2 i : occurs (l1 ++ l2) i = occurs l1 i + occurs l2 i.
Proof. unfold occurs. by rewrite fmap_app, sumZ_app. Qed.

Lemma occurs_range lo hi i : occurs (range lo hi) i = if (lo <=? i) && (i <? hi) then 1 else 0.
Proof.
  unfold range. remember (Z.to_nat (hi - lo)) as n eqn:Hn. revert lo Hn.
  induction n as [|n IH]; intros lo Hn.
  - rewrite seqZ_nil by lia. destruct (Z.leb_spec lo i), (Z.ltb_spec i hi); simpl; try done; lia.
  - rewrite seqZ_cons by lia. replace (Z.pred (hi - lo)) with (hi - Z.succ lo) by lia. unfold occurs in *.
    rewrite fmap_cons, sumZ_cons, (IH (Z.succ lo)) by lia.
    destruct (Z.eqb_spec i lo), (Z.leb_spec (Z.succ lo) i), (Z.leb_spec lo i), (Z.ltb_spec i hi); simpl; lia.
Qed.

Lemma occurs_succ l i : occurs ((λ b, b + 1) <$> l) i = occurs l (i - 1).
Proof.
  unfold occurs. rewrite <-list_fmap_compose. f_equal. apply list_fmap_ext. intros _ b _. simpl.
  destruct (Z.eqb_spec i (b + 1)), (Z.eqb_spec (i - 1) b); lia.
Qed.

Lemma occurs_elem l i : i ∉ l → occurs l i = 0.
Proof.
  induction l as [|x l IH]; intros Hi; [done|]. apply not_elem_of_cons in Hi as [Hne Hi].
  unfold occurs in *. rewrite fmap_cons, sumZ_cons, (IH Hi). destruct (Z.eqb_spec i x); [done|lia].
Qed.

Lemma at_changes v l : ∀ p i, 0 ≤ i → Forall (λ j, 0 ≤ j < Z.of_nat (length p)) l →
  at_ (foldl (λ p j, add_at p j v) p l) i = at_ p i + v * occurs l i ∧ length (foldl (λ p j, add_at p j v) p l) = length p.
Proof.
  induction l as [|x l IH]; intros p i Hi Hl; cbn [foldl]; [unfold occurs; simpl; split; lia|].
  apply Forall_cons in Hl as [Hx Hl]. destruct (IH (add_at p x v) i Hi) as [-> ->]; [by rewrite length_add_at|].
  rewrite at_add_at by lia. rewrite length_add_at. split; [|done]. unfold occurs. rewrite fmap_cons, sumZ_cons.
  destruct (i =? x); lia.
Qed.

(** [_subtract_removed_interval_pressure] on disjoint pieces in order. *)
Fixpoint pieces_in (cursor old_end : Z) (pieces : list (Z * Z)) : Prop :=
  match pieces with
  | [] => True
  | (start, end_) :: pieces => cursor ≤ start ≤ end_ ∧ end_ ≤ old_end ∧ pieces_in (end_ + 1) old_end pieces
  end.

Definition in_pair (b : Z) (se : Z * Z) : Z := if (se.1 <=? b) && (b <=? se.2) then 1 else 0.

Lemma uncovered_occurs pieces : ∀ cursor old_end b, pieces_in cursor old_end pieces →
  occurs (uncovered cursor old_end pieces) b =
    (if (cursor <=? b) && (b <=? old_end) then 1 else 0) - sumZ (in_pair b <$> pieces).
Proof.
  induction pieces as [|[start end_] pieces IH]; intros cursor old_end b Hp; cbn [uncovered].
  - rewrite occurs_range. simpl. destruct (Z.leb_spec cursor b), (Z.ltb_spec b (old_end + 1)), (Z.leb_spec b old_end); simpl; lia.
  - destruct Hp as (H1 & H2 & H3). rewrite occurs_app, occurs_range, Z.max_r by lia. rewrite IH by done.
    rewrite fmap_cons, sumZ_cons. unfold in_pair at 2. cbn [fst snd].
    destruct (Z.leb_spec cursor b), (Z.ltb_spec b start), (Z.leb_spec (end_ + 1) b), (Z.leb_spec b old_end),
      (Z.leb_spec start b), (Z.leb_spec b end_); simpl; lia.
Qed.

Section Terms.
Context {T : Type} `{Num T}.
Context (f : Facts T) (h : bool).
Implicit Types (s : Red T) (sp : Span) (ivs : IntervalSet).

Definition inner (idx : Z) : bool := (0 <=? idx - 1) && (idx - 1 <? f_n f - 1).

(** What one span departs with, or arrives with unneeded, at an index. *)
Definition dep_term (idx : Z) (oid : string) sp : Z :=
  if inner idx && (pressure_start oid (sp_start sp) f h <=? idx - 1) && (idx - 1 <=? sp_end sp) &&
     bool_decide (fire_task oid (sp_start sp) (sp_end sp) f = Some (idx - 1))
  then size_of f oid else 0.
Definition nb_term (idx : Z) (oid : string) sp : Z :=
  if inner idx && negb ((sp_start sp <=? -1) || (sp_start sp =? producer_of f oid) ||
     negb (pressure_start oid (sp_start sp) f h =? idx - 1))
  then match first_use oid (sp_start sp) (sp_end sp) f with
       | Some u => if idx - 1 + 1 <? u then size_of f oid else 0
       | None => size_of f oid
       end
  else 0.

Lemma inner_guard idx : ((idx - 1 <? 0) || (f_n f - 1 <=? idx - 1)) = negb (inner idx).
Proof. unfold inner. destruct (Z.ltb_spec (idx - 1) 0), (Z.leb_spec (f_n f - 1) (idx - 1)), (Z.leb_spec 0 (idx - 1)), (Z.ltb_spec (idx - 1) (f_n f - 1)); done || lia. Qed.

Lemma departing_is_total ivs idx : departing_before_next f ivs idx h = span_total (dep_term idx) ivs.
Proof.
  unfold departing_before_next. rewrite inner_guard. destruct (inner idx) eqn:Hi; simpl.
  - apply span_total_ext. intros oid sp. unfold dep_term. by rewrite Hi.
  - symmetry. apply span_total_zero. intros oid sp. unfold dep_term. by rewrite Hi.
Qed.

Lemma nonblocking_is_total ivs idx : nonblocking_arrivals f ivs idx h = span_total (nb_term idx) ivs.
Proof.
  unfold nonblocking_arrivals. rewrite inner_guard. destruct (inner idx) eqn:Hi; simpl.
  - apply span_total_ext. intros oid sp. unfold nb_term. rewrite Hi. simpl. by destruct (_ || _ || _).
  - symmetry. apply span_total_zero. intros oid sp. unfold nb_term. by rewrite Hi.
Qed.

(** An array of the boundaries. *)
Definition boundary_array (d : list Z) : Prop := 0 ≤ f_n f ∧ length d = (Z.to_nat (f_n f) + 1)%nat.

Lemma departing_add_at oid sp sign d idx :
  boundary_array d → 0 ≤ idx →
  boundary_array (departing_add f h oid sp sign d) ∧
  at_ (departing_add f h oid sp sign d) idx = at_ d idx + sign * dep_term idx oid sp.
Proof.
  intros [Hn Hd] Hi. unfold departing_add, dep_term, inner.
  destruct (fire_task oid (sp_start sp) (sp_end sp) f) as [fire|] eqn:Hf.
  2: { rewrite bool_decide_eq_false_2 by done. rewrite andb_false_r. split; [by split|lia]. }
  destruct ((0 <=? fire) && (fire <? f_n f - 1) && (pressure_start oid (sp_start sp) f h <=? fire) && (fire <=? sp_end sp)) eqn:Hg.
  - rewrite !andb_true_iff, !Z.leb_le, Z.ltb_lt in Hg. destruct Hg as [[[G1 G2] G3] G4].
    split; [split; [done|by rewrite length_add_at]|]. rewrite at_add_at by lia.
    destruct (Z.eqb_spec idx (fire + 1)) as [->|Hne].
    + replace (fire + 1 - 1) with fire by lia. rewrite bool_decide_eq_true_2 by done.
      rewrite (proj2 (Z.leb_le 0 fire)), (proj2 (Z.ltb_lt fire _)), (proj2 (Z.leb_le _ fire)), (proj2 (Z.leb_le fire _)) by done.
      simpl. lia.
    + rewrite bool_decide_eq_false_2 by (intros [= ->]; lia). rewrite andb_false_r. lia.
  - split; [by split|]. case_bool_decide as He; [|rewrite andb_false_r; lia]. injection He as ->.
    rewrite Hg. simpl. lia.
Qed.

Lemma nonblocking_add_at oid sp sign d idx :
  boundary_array d → 0 ≤ idx →
  boundary_array (nonblocking_add f h oid sp sign d) ∧
  at_ (nonblocking_add f h oid sp sign d) idx = at_ d idx + sign * nb_term idx oid sp.
Proof.
  intros [Hn Hd] Hi. unfold nonblocking_add, nb_term, inner. set (b := pressure_start oid (sp_start sp) f h).
  destruct ((-1 <? sp_start sp) && negb (sp_start sp =? producer_of f oid) && (0 <=? b) && (b <? f_n f - 1)) eqn:Hg.
  - rewrite !andb_true_iff, Z.leb_le, !Z.ltb_lt, negb_true_iff, Z.eqb_neq in Hg. destruct Hg as [[[G1 G2] G3] G4].
    rewrite (proj2 (Z.leb_gt (sp_start sp) (-1))), (proj2 (Z.eqb_neq (sp_start sp) _)) by done. simpl.
    destruct (Z.eqb_spec b (idx - 1)) as [Eb|Nb]; simpl.
    + rewrite <-Eb. rewrite (proj2 (Z.leb_le 0 b)), (proj2 (Z.ltb_lt b _)) by done. simpl.
      destruct (first_use oid (sp_start sp) (sp_end sp) f) as [u|]; [destruct (Z.ltb_spec (b + 1) u)|].
      * split; [split; [done|by rewrite length_add_at]|]. rewrite at_add_at by lia.
        rewrite (proj2 (Z.eqb_eq idx (b + 1))) by lia. lia.
      * split; [by split|lia].
      * split; [split; [done|by rewrite length_add_at]|]. rewrite at_add_at by lia.
        rewrite (proj2 (Z.eqb_eq idx (b + 1))) by lia. lia.
    + rewrite andb_false_r.
      destruct (first_use oid (sp_start sp) (sp_end sp) f) as [u|]; [destruct (Z.ltb_spec (b + 1) u)|];
        (split; [split; [done|by rewrite ?length_add_at]|]); rewrite ?at_add_at by lia;
        rewrite ?(proj2 (Z.eqb_neq idx (b + 1))) by lia; lia.
  - split; [by split|].
    destruct (Z.eqb_spec b (idx - 1)) as [Eb|Nb]; [|rewrite orb_true_r, andb_false_r; lia].
    rewrite Eb in Hg. rewrite orb_false_r.
    destruct (Z.ltb_spec (-1) (sp_start sp)), (Z.leb_spec (sp_start sp) (-1)), (sp_start sp =? producer_of f oid), (0 <=? idx - 1),
      (idx - 1 <? f_n f - 1); simpl in *; try done; lia.
Qed.
End Terms.

(** ** Splits *)
Section Splits.
Context {T : Type} `{Num T}.
Context (f : Facts T) (cs : CutScore) (h : bool).
Implicit Types (s : Red T) (sp : Span) (ivs : IntervalSet).

(** The edges leave both pieces in the span, remove something, and remove no
    anchor. *)
Record edges_ok (oid : string) (old : Span) (l r : option Z) : Prop := {
  eg_left : ∀ le, l = Some le → sp_start old ≤ le ≤ sp_end old;
  eg_right : ∀ rs, r = Some rs → sp_start old ≤ rs ≤ sp_end old;
  eg_gap : 0 < default (sp_end old + 1) r - default (sp_start old - 1) l - 1;
  eg_anchors : ∀ x, x ∈ anchors oid f → sp_start old ≤ x ≤ sp_end old →
    (∃ le, l = Some le ∧ x ≤ le) ∨ (∃ rs, r = Some rs ∧ rs ≤ x);
}.

Lemma sorted_le (l : list Z) i j x y : StronglySorted Z.le l → (i ≤ j)%nat → l !! i = Some x → l !! j = Some y → x ≤ y.
Proof.
  intros Hs Hij Hi Hj. destruct (decide (i = j)) as [->|]; [simplify_eq; lia|].
  apply (StronglySorted_lookup _ _ i j _ _ Hs); [lia|done..].
Qed.

Lemma split_edges_spec oid a b boundary allow l r :
  a ≤ boundary + 1 → boundary ≤ b → split_edges f oid a b boundary allow = Some (l, r) →
  (∀ le, l = Some le → a ≤ le ≤ b) ∧ (∀ rs, r = Some rs → a ≤ rs ≤ b) ∧
  ∀ x, x ∈ anchors oid f → a ≤ x ≤ b → (∃ le, l = Some le ∧ x ≤ le) ∨ (∃ rs, r = Some rs ∧ rs ≤ x).
Proof.
  intros Ha Hb. unfold split_edges. pose proof (anchors_sorted oid f) as Hs. set (ans := anchors oid f) in *.
  destruct (bisect_range ans a b Hs) as [Hbd Hrange]; [lia|]. set (lo := bisect_left ans a) in *. set (hi := bisect_right ans b) in *.
  destruct (bisect_in ans boundary lo hi Hs Hbd) as (E1 & E2 & E3).
  destruct (bisect_in ans (boundary + 1) lo hi Hs Hbd) as (R1 & R2 & R3).
  set (ep := bisect_left_in ans boundary lo hi) in *. set (rp := bisect_left_in ans (boundary + 1) lo hi) in *.
  assert (∀ i, (lo ≤ i < hi)%nat → ∀ v, ans !! i = Some v → a ≤ v ≤ b) as Hin by (intros i Hi v Hv; by apply (Hrange i v Hv)).
  assert (∀ x, x ∈ ans → a ≤ x ≤ b → ∃ i, (lo ≤ i < hi)%nat ∧ ans !! i = Some x) as Hpos.
  { intros x [i Hi]%list_elem_of_lookup Hx. exists i. split; [by apply (Hrange i x Hi)|done]. }
  assert (∀ x i, ans !! i = Some x → (rp ≤ i < hi)%nat → ∃ rs, ans !! rp = Some rs ∧ rs ≤ x) as Hright.
  { intros x i Hx Hi. destruct (lookup_lt_is_Some_2 ans rp) as [rs Hrs]; [lia|]. exists rs. split; [done|].
    apply (sorted_le ans rp i); [done|lia|done|done]. }
  destruct ((ep <? hi)%nat && bool_decide (ans !! ep = Some boundary)) eqn:Hex.
  - rewrite andb_true_iff, Nat.ltb_lt, bool_decide_eq_true in Hex. destruct Hex as [Hep Hbnd].
    destruct (negb allow || (hi <=? rp)%nat) eqn:Hal; [done|]. apply orb_false_iff in Hal as [_ Hrp%Nat.leb_gt].
    case_bool_decide; [|done]. intros [= <- <-]. split_and!.
    + intros le [= <-]. apply (Hin ep); [lia|done].
    + intros rs Hrs. apply (Hin rp); [lia|done].
    + intros x Hx Hxr. destruct (Hpos x Hx Hxr) as (i & Hi & Hxi). destruct (decide (i < rp)%nat) as [Hlt|Hge].
      * left. exists boundary. split; [done|]. specialize (R2 i x ltac:(lia) Hxi). lia.
      * right. destruct (Hright x i Hxi) as (rs & Hrs & Hle); [lia|]. by exists rs.
  - replace (bisect_right_in ans (boundary - 1) lo hi) with ep.
    2: { unfold ep, bisect_left_in, bisect_right_in. by replace (boundary - 1 + 1) with boundary by lia. }
    intros [= <- <-]. split_and!.
    + intros le. destruct (Nat.ltb_spec lo ep); [|done]. apply (Hin (pred ep)). lia.
    + intros rs. destruct (Nat.ltb_spec rp hi); [|done]. apply (Hin rp). lia.
    + intros x Hx Hxr. destruct (Hpos x Hx Hxr) as (i & Hi & Hxi). destruct (decide (i < ep)%nat) as [Hlt|Hge].
      * left. rewrite (proj2 (Nat.ltb_lt lo ep)) by lia. destruct (lookup_lt_is_Some_2 ans (pred ep)) as [le Hle]; [lia|].
        exists le. split; [done|]. apply (sorted_le ans i (pred ep)); [done|lia|done|done].
      * right. assert (rp ≤ i)%nat as Hri.
        { destruct (decide (i < rp)%nat) as [Hlt|]; [|lia]. specialize (R2 i x ltac:(lia) Hxi).
          destruct (lookup_lt_is_Some_2 ans ep) as [v Hv]; [lia|].
          assert (boundary ≤ v) by (apply (E3 ep v); [lia|done]).
          assert (v ≤ x) by (apply (sorted_le ans ep i); [done|lia|done|done]).
          assert (v = boundary) as -> by lia.
          rewrite (proj2 (Nat.ltb_lt ep hi)), bool_decide_eq_true_2 in Hex by (done || lia). done. }
        rewrite (proj2 (Nat.ltb_lt rp hi)) by lia. destruct (Hright x i Hxi) as (rs & Hrs & Hle); [lia|]. by exists rs.
Qed.

Definition split_ok s (o : SplitOption T) : Prop :=
  ∃ spans old, assoc_get (rd_intervals s) (so_oid o) = Some spans ∧ spans !! so_index o = Some old ∧
    edges_ok (so_oid o) old (so_left o) (so_right o).

Lemma pressure_start_bounds oid a : a - 1 ≤ pressure_start oid a f h ≤ a.
Proof. unfold pressure_start. case_match; lia. Qed.

Lemma ranked_option_fields s oid index a b l r o :
  ranked_split_option f cs s oid index a b l r = Some o →
  so_oid o = oid ∧ so_index o = index ∧ so_left o = l ∧ so_right o = r ∧
  0 < default (b + 1) r - default (a - 1) l - 1.
Proof.
  unfold ranked_split_option. destruct (Z.leb_spec (default (b + 1) r - default (a - 1) l - 1) 0); [done|].
  case_match; [|done]. intros [= <-]. done.
Qed.

Lemma split_option_ok s oid boundary allow o :
  split_option_for_oid f cs h s oid boundary allow = Some o → so_oid o = oid ∧ split_ok s o.
Proof.
  unfold split_option_for_oid. case_match; [done|]. intros (sp & Hsp & Ho)%bind_Some.
  destruct ((pressure_start oid (sp_start sp) f h <=? boundary) && (boundary <=? sp_end sp)) eqn:Hin; [|done].
  rewrite andb_true_iff, !Z.leb_le in Hin. apply bind_Some in Ho as ([l r] & He & Ho). cbn [fst snd] in Ho.
  pose proof (pressure_start_bounds oid (sp_start sp)) as Hps.
  destruct (split_edges_spec oid (sp_start sp) (sp_end sp) boundary allow l r) as (S1 & S2 & S3); [lia|lia|done|].
  destruct (ranked_option_fields _ _ _ _ _ _ _ _ Ho) as (O1 & O2 & O3 & O4 & O5). split; [done|].
  destruct (assoc_get (rd_intervals s) oid) as [spans|] eqn:Hg; [|done].
  exists spans, sp. rewrite O1, O2, O3, O4. split_and!; [done|done|by split].
Qed.

(** An option depends on the object's own spans only. *)
Lemma split_option_same s s' oid boundary allow :
  assoc_get (rd_intervals s') oid = assoc_get (rd_intervals s) oid →
  assoc_get (rd_backing s') oid = assoc_get (rd_backing s) oid →
  split_option_for_oid f cs h s' oid boundary allow = split_option_for_oid f cs h s oid boundary allow.
Proof.
  intros H1 H2. unfold split_option_for_oid, ranked_split_option, timing_penalty. rewrite H1, H2. done.
Qed.
End Splits.

(** ** The cost of a split

    The ranking computes the cost of an option from the backing state; the
    transition builder's [_split_transition_cost] agrees. *)
Definition spans_ok (spans : list Span) : Prop :=
  Forall (λ sp, -1 ≤ sp_start sp ≤ sp_end sp) spans ∧ StronglySorted (λ a b, sp_end a < sp_start b) spans.

Lemma spans_first spans i sp : spans_ok spans → spans !! i = Some sp → sp_start sp = -1 → i = 0%nat.
Proof.
  intros [Hb Hs] Hi Hst. destruct i as [|i]; [done|]. exfalso.
  destruct (lookup_lt_is_Some_2 spans 0) as [sp0 H0]; [apply lookup_lt_Some in Hi; lia|].
  pose proof (StronglySorted_lookup _ _ 0 (S i) _ _ Hs ltac:(lia) H0 Hi) as Hlt. simpl in Hlt.
  rewrite Forall_lookup in Hb. specialize (Hb 0%nat sp0 H0). simpl in Hb. lia.
Qed.

Section Cost.
Context {T : Type} `{Num T}.
Context (f : Facts T) (Hf : FactsOk f) (cs : CutScore) (h : bool).
Implicit Types (s : Red T) (sp : Span).

Lemma backing_walk_lookup oid spans : ∀ index bc dep i sp, spans !! i = Some sp →
  ∃ c d, backing_walk oid f index bc dep spans !! i = Some (c, d) ∧
    (i = 0%nat → d = dep ∧ (index = 0%nat → 0 ≤ producer_of f oid → sp_start sp = producer_of f oid → c = false)).
Proof.
  induction spans as [|x spans IH]; intros index bc dep i sp Hi; [done|]. cbn [backing_walk]. destruct i as [|i]; simpl in Hi.
  - injection Hi as ->. eexists _, _. split; [done|]. intros _. split; [done|]. intros -> Hp Hst.
    rewrite Hst, Z.eqb_refl, (proj2 (Z.leb_le _ _) Hp). done.
  - destruct (IH (S index) (let after := if has_event (mutators_of f oid) x then false else
      if bool_decide (index = 0%nat) && (0 <=? producer_of f oid) && (sp_start x =? producer_of f oid) then false else bc in
      if negb (bool_decide (spans = [])) && negb after then true else after)
      (fire_task oid (sp_start x) (sp_end x) f) i sp Hi) as (c & d & Hc & _). exists c, d. split; [exact Hc|done].
Qed.

Lemma ranked_option_cost s oid index a b l r o : ranked_split_option f cs s oid index a b l r = Some o →
  let bc := default false (fst <$> (assoc_get (rd_backing s) oid ≫= λ st, st !! index)) in
  match l with
  | Some le => so_cost o = if bc && negb (has_event (mutators_of f oid) (mkSpan a le)) then 0 else 1
  | None => a = -1 ∧ bc = true ∧ so_cost o = 0
  end.
Proof.
  unfold ranked_split_option. case_match; [done|]. destruct l as [le|].
  - rewrite bool_decide_eq_false_2 by done. simpl. intros [= <-]. done.
  - rewrite bool_decide_eq_true_2 by done. simpl. destruct (Z.eqb_spec a (-1)); [|done].
    destruct (default false _); [|done]. intros [= <-]. done.
Qed.

(** The left edge is an event of the span and the right edge comes after it. *)
Lemma split_edges_order oid a b boundary allow l r : -1 ≤ a ≤ boundary + 1 → boundary ≤ b → boundary ≤ f_n f - 1 →
  split_edges f oid a b boundary allow = Some (l, r) →
  (∀ le, l = Some le → a ≤ le ≤ boundary ∧ is_Some (fire_task oid a le f)) ∧ (∀ rs, r = Some rs → boundary < rs ∧ rs ≤ f_n f - 1).
Proof.
  intros Ha Hb Hn Hed.
  destruct (split_edges_spec f oid a b boundary allow l r) as (S1 & S2 & _); [lia|lia|done|]. revert Hed. unfold split_edges.
  pose proof (anchors_sorted oid f) as Hs. set (ans := anchors oid f) in *.
  destruct (bisect_range ans a b Hs) as [Hbd Hrange]; [lia|]. set (lo := bisect_left ans a) in *. set (hi := bisect_right ans b) in *.
  destruct (bisect_in ans boundary lo hi Hs Hbd) as (E1 & E2 & E3).
  destruct (bisect_in ans (boundary + 1) lo hi Hs Hbd) as (R1 & R2 & R3).
  set (ep := bisect_left_in ans boundary lo hi) in *. set (rp := bisect_left_in ans (boundary + 1) lo hi) in *.
  assert (∀ rs, ans !! rp = Some rs → (rp < hi)%nat → boundary < rs ≤ f_n f - 1) as Hrs.
  { intros rs Hrs Hlt. split; [specialize (R3 rp rs ltac:(lia) Hrs); lia|].
    apply list_elem_of_lookup_2 in Hrs. apply anchor_cases in Hrs. pose proof (fo_n f Hf). pose proof (fo_producer f Hf oid).
    destruct Hrs as [[_ ->]|[[? ->]|[Hu|[_ ->]]]]; [lia|lia|apply (fo_uses f Hf) in Hu; lia|lia]. }
  destruct ((ep <? hi)%nat && bool_decide (ans !! ep = Some boundary)) eqn:Hex.
  - destruct (negb allow || (hi <=? rp)%nat) eqn:Hal; [done|]. apply orb_false_iff in Hal as [_ Hrp%Nat.leb_gt].
    destruct (bool_decide_reflect (fire_task oid a boundary f = Some boundary)) as [Hfire|]; [|done]. intros [= <- <-]. split.
    + intros le [= <-]. split; [split; [by apply S1|lia]|by rewrite Hfire].
    + intros rs Hr. by apply Hrs.
  - replace (bisect_right_in ans (boundary - 1) lo hi) with ep.
    2: { unfold ep, bisect_left_in, bisect_right_in. by replace (boundary - 1 + 1) with boundary by lia. }
    intros [= <- <-]. split.
    + intros le Hle. pose proof (S1 le Hle) as Hin. destruct (Nat.ltb_spec lo ep); [|done].
      assert (le < boundary) as Hlt by (apply (E2 (pred ep)); [lia|done]). split; [lia|].
      apply (fire_task_some oid a le f Hf). apply list_elem_of_lookup_2, anchor_cases in Hle.
      destruct Hle as [[_ ->]|[[? ->]|[Hu|[_ ->]]]]; [right; right; lia|right; left; lia|left; eexists; split; [exact Hu|lia]|lia].
    + intros rs Hr. destruct (Nat.ltb_spec rp hi); [|done]. by apply Hrs.
Qed.

Lemma chosen_cost s oid boundary allow o spans :
  split_option_for_oid f cs h s oid boundary allow = Some o → -1 ≤ boundary ≤ f_n f - 1 →
  assoc_get (rd_intervals s) oid = Some spans → spans_ok spans →
  assoc_get (rd_backing s) oid = Some (backing_state_before_spans oid spans f) →
  split_transition_cost oid spans (so_index o) (so_left o) (so_right o) f
    (default (false, None) (assoc_get (rd_backing s) oid ≫= λ st, st !! so_index o)) = Some (so_cost o).
Proof.
  intros Ho Hbound Hg Hok Hbk. unfold split_option_for_oid in Ho. rewrite Hg in Ho. cbn [default from_option id] in Ho.
  case_match; [done|]. apply bind_Some in Ho as (sp & Hsp & Ho).
  destruct ((pressure_start oid (sp_start sp) f h <=? boundary) && (boundary <=? sp_end sp)) eqn:Hin; [|done].
  rewrite andb_true_iff, !Z.leb_le in Hin. apply bind_Some in Ho as ([l r] & He & Ho). cbn [fst snd] in Ho.
  pose proof (pressure_start_bounds f h oid (sp_start sp)) as Hps.
  assert (-1 ≤ sp_start sp ≤ sp_end sp) as Hse by (destruct Hok as [Hall _]; rewrite Forall_lookup in Hall; by apply (Hall _ _ Hsp)).
  destruct (split_edges_order oid (sp_start sp) (sp_end sp) boundary allow l r) as (HL & HR); [lia|lia|lia|done|].
  destruct (ranked_option_fields _ _ _ _ _ _ _ _ _ _ Ho) as (O1 & -> & -> & -> & Hgap).
  pose proof (ranked_option_cost _ _ _ _ _ _ _ _ Ho) as Hcost. cbv zeta in Hcost.
  set (i := pred _) in *. unfold split_transition_cost. rewrite Hsp, Hbk in *. cbn [mbind option_bind] in *.
  destruct (backing_walk_lookup oid spans 0 (bool_decide (oid ∈ f_backing_ids f)) None i sp Hsp) as (c & d & Hlk & Hz).
  unfold backing_state_before_spans in *. rewrite Hlk in *. cbn [default from_option id fmap option_fmap option_map fst snd] in *.
  assert (f_n f = 0 → r = None) as Hn0 by (intros Hn; destruct r as [rs|]; [|done]; destruct (HR rs eq_refl); lia).
  destruct l as [le|].
  - destruct (HL le eq_refl) as [Hle [dep Hfire]]. cbn [sp_start sp_end]. rewrite Hfire.
    replace (if bool_decide (i = 0%nat) && (0 <=? producer_of f oid) && (sp_start sp =? producer_of f oid) then false else c) with c.
    2: { destruct (bool_decide_reflect (i = 0%nat)), (Z.leb_spec 0 (producer_of f oid)), (Z.eqb_spec (sp_start sp) (producer_of f oid)); simpl; try done.
         by apply Hz. }
    assert ((if (if has_event (mutators_of f oid) (mkSpan (sp_start sp) le) then false else c) then 0 else 1) = so_cost o) as ->.
    { rewrite Hcost. by destruct c, (has_event (mutators_of f oid) (mkSpan (sp_start sp) le)). }
    destruct r as [rs|]; [|done]. destruct (HR rs eq_refl) as [HR1 HR2]. simpl in Hgap.
    pose proof (fire_task_last oid (sp_start sp) le f dep Hf ltac:(lia) Hfire) as Hdep.
    destruct (Z.eqb_spec (f_n f) 0) as [Hn|Hn]; [by specialize (Hn0 Hn)|]. cbn [orb].
    destruct (first_use oid rs (sp_end sp) f) as [u|] eqn:Hfu.
    + apply first_use_bounds in Hfu; [|done]. rewrite (proj2 (Z.ltb_ge _ _)) by lia. done.
    + rewrite (proj2 (Z.ltb_ge _ _)); [done|]. match goal with |- _ <= (if ?c then _ else _) => destruct c end; lia.
  - destruct Hcost as (Ha & -> & ->). pose proof (spans_first spans i sp Hok Hsp Ha) as Hi0.
    destruct (Hz Hi0) as [-> _]. destruct r as [rs|]; [|done]. destruct (HR rs eq_refl) as [HR1 HR2].
    destruct (Z.eqb_spec (f_n f) 0) as [Hn|Hn]; [by specialize (Hn0 Hn)|]. cbn [orb].
    destruct (first_use oid rs (sp_end sp) f) as [u|] eqn:Hfu.
    + apply first_use_bounds in Hfu; [|done]. rewrite (proj2 (Z.ltb_ge _ _)) by lia. done.
    + rewrite (proj2 (Z.ltb_ge _ _)); [done|]. match goal with |- _ <= (if ?c then _ else _) => destruct c end; lia.
Qed.
End Cost.

(** ** The pressure a split removes *)
Section Removed.
Context {T : Type} `{Num T}.
Context (f : Facts T) (h : bool).
Implicit Types (sp : Span).

Definition bounds_of (oid : string) sp : Z * Z :=
  (Z.max (-1) (pressure_start oid (sp_start sp) f h), Z.min (f_n f - 1) (sp_end sp)).

Definition norm_piece (oid : string) sp : option (Z * Z) :=
  let se := bounds_of oid sp in if se.1 <=? se.2 then Some se else None.

Lemma cover_pair idx oid sp : cover f h idx oid sp = size_of f oid * in_pair (idx - 1) (bounds_of oid sp).
Proof.
  unfold cover, in_pair, bounds_of, span_first, span_last. simpl.
  set (a := Z.max (-1) _). set (b := Z.min _ _).
  destruct (Z.leb_spec (a + 1) idx), (Z.leb_spec idx (b + 1)), (Z.leb_spec a (idx - 1)), (Z.leb_spec (idx - 1) b); simpl; lia.
Qed.

Lemma norm_sum oid pieces b :
  sumZ (in_pair b <$> omap (norm_piece oid) pieces) = sumZ (in_pair b <$> (bounds_of oid <$> pieces)).
Proof.
  induction pieces as [|sp pieces IH]; [done|]. rewrite !fmap_cons, sumZ_cons, <-IH. cbn [omap list_omap].
  unfold norm_piece at 1. destruct (bounds_of oid sp) as [x y] eqn:Hb. cbn [fst snd].
  destruct (Z.leb_spec x y); [by rewrite fmap_cons, sumZ_cons|]. unfold in_pair at 2. cbn [fst snd].
  destruct (Z.leb_spec x b), (Z.leb_spec b y); simpl; lia.
Qed.

(** The two pieces are in order and in the old bounds. *)
Lemma pieces_ordered oid old l r :
  edges_ok f oid old l r →
  pieces_in (bounds_of oid old).1 (bounds_of oid old).2
    (py_sorted pair_leb (omap (norm_piece oid) (split_pieces old l r))).
Proof.
  intros [H1 H2 H3 _]. unfold split_pieces.
  pose proof (pressure_start_bounds f h oid (sp_start old)) as Pa.
  destruct l as [le|], r as [rs|]; cbn [default from_option id] in H3; cbn [app].
  - specialize (H1 le eq_refl). specialize (H2 rs eq_refl). pose proof (pressure_start_bounds f h oid rs) as Pr.
    unfold norm_piece, bounds_of. cbn [omap list_omap sp_start sp_end fst snd].
    set (A := pressure_start oid (sp_start old) f h) in *. set (R := pressure_start oid rs f h) in *.
    destruct (Z.leb_spec (Z.max (-1) A) (Z.min (f_n f - 1) le)), (Z.leb_spec (Z.max (-1) R) (Z.min (f_n f - 1) (sp_end old)));
      cbn [py_sorted foldr insert_sorted]; try (simpl; lia).
    assert (pair_leb (Z.max (-1) A, Z.min (f_n f - 1) le) (Z.max (-1) R, Z.min (f_n f - 1) (sp_end old)) = true) as ->.
    { unfold pair_leb. cbn [fst snd]. destruct (Z.eqb_spec (Z.max (-1) A) (Z.max (-1) R)); apply Z.leb_le; lia. }
    simpl. lia.
  - specialize (H1 le eq_refl). unfold norm_piece, bounds_of. cbn [omap list_omap sp_start sp_end fst snd].
    set (A := pressure_start oid (sp_start old) f h) in *.
    destruct (Z.leb_spec (Z.max (-1) A) (Z.min (f_n f - 1) le)); cbn [py_sorted foldr insert_sorted]; simpl; lia.
  - specialize (H2 rs eq_refl). pose proof (pressure_start_bounds f h oid rs) as Pr.
    unfold norm_piece, bounds_of. cbn [omap list_omap sp_start sp_end fst snd].
    set (A := pressure_start oid (sp_start old) f h) in *. set (R := pressure_start oid rs f h) in *.
    destruct (Z.leb_spec (Z.max (-1) R) (Z.min (f_n f - 1) (sp_end old))); cbn [py_sorted foldr insert_sorted]; simpl; lia.
  - done.
Qed.

Lemma uncovered_bounds pieces : ∀ cursor old_end b, pieces_in cursor old_end pieces →
  b ∈ uncovered cursor old_end pieces → cursor ≤ b ≤ old_end.
Proof.
  induction pieces as [|[st en] pieces IH]; intros cursor old_end b Hp; cbn [uncovered]; unfold range.
  - rewrite elem_of_seqZ. lia.
  - destruct Hp as (H1 & H2 & H3). rewrite elem_of_app, elem_of_seqZ, Z.max_r by lia.
    intros [Hb|Hb]; [lia|]. specialize (IH _ _ _ H3 Hb). lia.
Qed.

Lemma pieces_in_le pieces : ∀ cursor old_end, pieces_in cursor old_end pieces → old_end < cursor → pieces = [].
Proof. destruct pieces as [|[st en] pieces]; intros cursor old_end; [done|]. intros (H1 & H2 & _) ?. lia. Qed.

Lemma removed_spec oid old l r idx :
  edges_ok f oid old l r →
  size_of f oid * occurs (removed_indices f h oid old (split_pieces old l r)) idx =
    cover f h idx oid old - sumZ (cover f h idx oid <$> split_pieces old l r).
Proof.
  intros He. pose proof (pieces_ordered oid old l r He) as Hp. unfold removed_indices.
  change (Z.max (-1) (pressure_start oid (sp_start old) f h)) with (bounds_of oid old).1.
  change (Z.min (f_n f - 1) (sp_end old)) with (bounds_of oid old).2.
  change (omap _ (split_pieces old l r)) with (omap (norm_piece oid) (split_pieces old l r)).
  assert (sumZ (cover f h idx oid <$> split_pieces old l r) =
    size_of f oid * sumZ (in_pair (idx - 1) <$> py_sorted pair_leb (omap (norm_piece oid) (split_pieces old l r)))) as ->.
  { rewrite (sumZ_perm (in_pair (idx - 1) <$> py_sorted _ _) (in_pair (idx - 1) <$> omap (norm_piece oid) (split_pieces old l r)))
      by (by rewrite <-py_sorted_perm).
    rewrite norm_sum. clear Hp. induction (split_pieces old l r) as [|sp l' IH]; [simpl; lia|].
    rewrite !fmap_cons, !sumZ_cons, IH, cover_pair. lia. }
  rewrite cover_pair. set (P := py_sorted _ _) in *.
  destruct (Z.ltb_spec (bounds_of oid old).2 (bounds_of oid old).1) as [Hlt|Hge].
  - rewrite (pieces_in_le _ _ _ Hp Hlt). unfold in_pair, occurs. simpl.
    destruct (Z.leb_spec (Z.max (-1) (pressure_start oid (sp_start old) f h)) (idx - 1)),
      (Z.leb_spec (idx - 1) (Z.min (f_n f - 1) (sp_end old))); simpl in *; lia.
  - rewrite occurs_succ, uncovered_occurs by done. by rewrite Z.mul_sub_distr_l.
Qed.

Lemma removed_in_range oid old l r :
  edges_ok f oid old l r → 0 ≤ f_n f →
  Forall (λ j, 0 ≤ j ≤ f_n f) (removed_indices f h oid old (split_pieces old l r)).
Proof.
  intros He Hn. pose proof (pieces_ordered oid old l r He) as Hp. unfold removed_indices.
  case_match; [by apply Forall_nil|]. apply Forall_fmap, Forall_forall. intros b Hb.
  apply (uncovered_bounds _ _ _ _ Hp) in Hb. unfold bounds_of in Hb. simpl in *. lia.
Qed.
End Removed.

(** ** The invariant *)
Section Inv.
Context {T : Type} `{Num T}.
Context (f : Facts T) (cap : Z) (extra : list Z) (cs : CutScore) (h cont : bool) (bcs tcs : list (list (Rank T * string))).
Context (Hf : FactsOk f) (seed : IntervalSet).
Implicit Types (s : Red T) (sp : Span) (ivs : IntervalSet) (o : SplitOption T).

Abbreviation RdM := (M (Red T) PlanError).

(** The errors the reducer may raise on a state that satisfies its invariant. *)
Definition red_error (e : PlanError) : Prop :=
  match e with CannotReduce _ => True | _ => False end.
Abbreviation redw m s Q := (wp m s Q (λ e _, red_error e)).

Lemma redw_bind {A B} (m : RdM A) (k : A → RdM B) s Q Q' :
  redw m s Q → (∀ a s', Q a s' → redw (k a) s' Q') → redw (m ≫= k) s Q'.
Proof. intros Hm Hk. apply wp_bind. eapply wp_mono; [exact Hm|exact Hk|done]. Qed.
Abbreviation strict := (strict_overflow f cap extra).
Abbreviation option_of := (split_option_for_oid f cs h).

(** An object is resident at a boundary. *)
Definition covered ivs (oid : string) (x : Z) : Prop :=
  ∃ spans sp, assoc_get ivs oid = Some spans ∧ sp ∈ spans ∧ sp_start sp ≤ x ≤ sp_end sp.

Definition array_is (d : list Z) (term : Z → string → Span → Z) ivs : Prop :=
  boundary_array f d ∧ ∀ idx, 0 ≤ idx ≤ f_n f → at_ d idx = span_total (term idx) ivs.

Record RedInv s : Prop := {
  ri_pool : array_is (rd_pool s) (cover f h) (rd_intervals s);
  ri_dep : array_is (rd_departing s) (dep_term f h) (rd_intervals s);
  ri_nb : array_is (rd_nonblocking s) (nb_term f h) (rd_intervals s);
  ri_sorted : StronglySorted (λ a b, heap_leb a b = true) (rd_heap s);
  ri_range : Forall (λ e : Z * Z, 0 ≤ e.2 ≤ f_n f) (rd_heap s);
  ri_heap : ∀ idx, 0 ≤ idx ≤ f_n f → (- strict s idx, idx) ∈ rd_heap s;
  ri_cache : ∀ idx allow oid c, rd_cache_key s = Some (idx, allow) → rd_cache s !! oid = Some c →
    c = option_of s oid (idx - 1) allow;
  ri_anchors : ∀ oid x, x ∈ anchors oid f → covered seed oid x → covered (rd_intervals s) oid x;
  ri_backing : ∀ oid spans, assoc_get (rd_intervals s) oid = Some spans →
    assoc_get (rd_backing s) oid = Some (backing_state_before_spans oid spans f);
  ri_spans : ∀ oid spans, assoc_get (rd_intervals s) oid = Some spans → spans_ok spans;
  ri_keys : NoDup (rd_intervals s).*1;
}.

(** The relaxed overflow is the boundary model's. *)
Lemma relaxed_is_modeled s idx : RedInv s → 0 ≤ idx ≤ f_n f →
  relaxed_overflow f cap extra s idx = modeled_boundary_need f (rd_intervals s) idx h + at_ extra idx - cap.
Proof.
  intros Hs Hi. unfold relaxed_overflow, modeled_boundary_need.
  rewrite pool_size_at, departing_is_total, nonblocking_is_total by done.
  rewrite (proj2 (ri_pool s Hs) idx Hi), (proj2 (ri_dep s Hs) idx Hi), (proj2 (ri_nb s Hs) idx Hi). lia.
Qed.

(** ** Reading the state *)
Lemma RedInv_cache s k c :
  RedInv s → (∀ idx allow oid x, k = Some (idx, allow) → c !! oid = Some x → x = option_of s oid (idx - 1) allow) →
  RedInv (with_cache k c s).
Proof.
  intros [H1 H2 H3 H4 H5 H6 H7 H8 H9 H10 H11] Hc. by split.
Qed.

Lemma drop_stale_suffix s heap : ∃ gone, heap = gone ++ drop_stale f cap extra s heap ∧
  ∀ e, e ∈ gone → - e.1 ≠ strict s e.2.
Proof.
  induction heap as [|[neg idx] heap IH]; simpl; [exists []; split; [done|]; by intros e ?%elem_of_nil|].
  destruct (Z.eqb_spec (- neg) (strict s idx)) as [|Hne].
  - exists []. split; [done|]. by intros e0 ?%elem_of_nil.
  - destruct IH as (gone & He & Hg). exists ((neg, idx) :: gone). split; [by rewrite He at 1|].
    intros e0 [->|He']%elem_of_cons; [done|auto].
Qed.

Lemma drop_stale_head s heap neg idx rest :
  drop_stale f cap extra s heap = (neg, idx) :: rest → - neg = strict s idx.
Proof.
  induction heap as [|[n i] heap IH]; simpl; [done|]. destruct (Z.eqb_spec (- n) (strict s i)); [by intros [= -> ->]|done].
Qed.

Lemma redw_worst s : RedInv s → redw (worst_strict_overflow f cap extra) s
  (λ wo s', RedInv s' ∧ (rd_intervals s' = rd_intervals s ∧ rd_backing s' = rd_backing s) ∧ 0 ≤ wo.1 ≤ f_n f ∧ wo.2 = strict s' wo.1 ∧
    ∀ idx, 0 ≤ idx ≤ f_n f → strict s' idx ≤ wo.2).
Proof.
  intros Hs. pose proof Hs as [H1 H2 H3 H4 H5 H6 H7 H8 H9 H10 H11]. unfold worst_strict_overflow. apply wp_get_bind, wp_modify_bind.
  destruct (drop_stale_suffix s (rd_heap s)) as (gone & Hh & Hgone).
  destruct (drop_stale f cap extra s (rd_heap s)) as [|[neg idx] rest] eqn:Hd.
  { specialize (H6 0 ltac:(destruct H1 as [[? ?] ?]; lia)). rewrite Hh, app_nil_r in H6. destruct (Hgone _ H6). simpl. lia. }
  apply wp_ret.
  pose proof (drop_stale_head _ _ _ _ _ Hd) as Hneg. rewrite Hh in H4, H5.
  apply StronglySorted_app_iff in H4 as (_ & Hrest & _). apply Forall_app in H5 as [_ Hr].
  assert (∀ j, 0 ≤ j ≤ f_n f → (- strict s j, j) ∈ (neg, idx) :: rest) as Hin.
  { intros j Hj. specialize (H6 j Hj). rewrite Hh in H6. apply elem_of_app in H6 as [Hg|]; [|done].
    destruct (Hgone _ Hg). simpl. lia. }
  split_and!; [|done|done|..].
  - by split.
  - apply Forall_cons in Hr as [Hx _]. simpl in *. lia.
  - apply Forall_cons in Hr as [Hx _]. simpl in *. lia.
  - done.
  - cbn [snd]. intros j Hj. change (strict (with_heap ((neg, idx) :: rest) s) j) with (strict s j).
    specialize (Hin j Hj). apply elem_of_cons in Hin as [[= He ->]|Hin]; [lia|].
    inversion Hrest as [|? ? _ Hall]; subst. rewrite Forall_forall in Hall. specialize (Hall _ Hin).
    unfold heap_leb in Hall. simpl in Hall. destruct (Z.eqb_spec neg (- strict s j)); [lia|]. apply Z.leb_le in Hall. lia.
Qed.

Lemma foldl_max (g : Z → Z) l : ∀ b,
  let m := foldl (λ best i, if g best <? g i then i else best) b l in
  (m = b ∨ m ∈ l) ∧ g b ≤ g m ∧ ∀ i, i ∈ l → g i ≤ g m.
Proof.
  induction l as [|x l IH]; intros b; cbn [foldl]; [split_and!; [by left|lia|by intros i ?%elem_of_nil]|].
  destruct (IH (if g b <? g x then x else b)) as (I1 & I2 & I3). destruct (Z.ltb_spec (g b) (g x)); split_and!.
  - right. destruct I1 as [->|]; set_solver.
  - lia.
  - intros i [->|Hi]%elem_of_cons; [lia|auto].
  - destruct I1 as [->|]; [by left|right; set_solver].
  - lia.
  - intros i [->|Hi]%elem_of_cons; [lia|auto].
Qed.

Lemma worst_relaxed_spec s idx : RedInv s → 0 ≤ idx ≤ f_n f →
  relaxed_overflow f cap extra s idx ≤ relaxed_overflow f cap extra s (worst_relaxed_boundary f cap extra s).
Proof.
  intros Hs Hi. unfold worst_relaxed_boundary. destruct (ri_pool s Hs) as [[Hn Hlen] _]. rewrite Hlen.
  destruct (foldl_max (relaxed_overflow f cap extra s) (range 1 (Z.of_nat (Z.to_nat (f_n f) + 1))) 0) as (_ & M1 & M2).
  destruct (decide (idx = 0)) as [->|]; [done|]. apply M2. unfold range. apply elem_of_seqZ. lia.
Qed.

Lemma worst_relaxed_range s : RedInv s → 0 ≤ worst_relaxed_boundary f cap extra s ≤ f_n f.
Proof.
  intros Hs. unfold worst_relaxed_boundary. destruct (ri_pool s Hs) as [[Hn Hlen] _]. rewrite Hlen.
  destruct (foldl_max (relaxed_overflow f cap extra s) (range 1 (Z.of_nat (Z.to_nat (f_n f) + 1))) 0) as (M & _).
  set (m := foldl _ 0 _) in *. destruct M as [->|Hin]; [lia|]. unfold range in Hin. apply elem_of_seqZ in Hin. lia.
Qed.

(** ** Choosing a split *)
Definition same_spans s s' : Prop := rd_intervals s' = rd_intervals s ∧ rd_backing s' = rd_backing s.

Lemma same_trans s1 s2 s3 : same_spans s1 s2 → same_spans s2 s3 → same_spans s1 s3.
Proof. unfold same_spans. intuition congruence. Qed.

(** The option of an object at the boundary. *)
Definition chosen (idx : Z) (allow : bool) s o : Prop := option_of s (so_oid o) (idx - 1) allow = Some o.

Lemma chosen_same idx allow s s' o : same_spans s s' → chosen idx allow s o → chosen idx allow s' o.
Proof. intros [H1 H2] Hc. unfold chosen. rewrite <-Hc. apply split_option_same; by rewrite ?H1, ?H2. Qed.

Definition keyed (idx : Z) (allow : bool) s : Prop := rd_cache_key s = Some (idx, allow).

Lemma redw_cached_option s idx allow oid :
  RedInv s → keyed idx allow s →
  redw (cached_option f cs h (idx - 1) allow oid) s (λ c s', RedInv s' ∧ keyed idx allow s' ∧ same_spans s s' ∧
    ∀ o, c = Some o → chosen idx allow s' o).
Proof.
  intros Hs Hk. unfold cached_option. apply wp_get_bind. destruct (rd_cache s !! oid) as [c|] eqn:Hc.
  - apply wp_ret. split_and!; [done..|]. intros o ->. pose proof (ri_cache s Hs _ _ _ _ Hk Hc) as He. symmetry in He.
    unfold chosen. by destruct (split_option_ok _ _ _ _ _ _ _ _ He) as [-> _].
  - apply wp_modify_bind, wp_ret. split_and!; [|done|done|].
    + apply RedInv_cache; [done|]. rewrite Hk. intros idx' allow' oid' x [= <- <-].
      destruct (decide (oid = oid')) as [<-|Hne].
      * rewrite lookup_insert_eq. by intros [= <-].
      * rewrite lookup_insert_ne by done. by apply (ri_cache s Hs).
    + intros o Ho. eapply chosen_same; [|unfold chosen; by destruct (split_option_ok _ _ _ _ _ _ _ _ Ho) as [-> _]]. done.
Qed.

Lemma redw_scan idx allow cands : ∀ best s,
  RedInv s → keyed idx allow s → (∀ o, best = Some o → chosen idx allow s o) →
  redw (scan_candidates f cs h (idx - 1) allow best cands) s (λ r s', RedInv s' ∧ same_spans s s' ∧
    ∀ o, r = Some o → chosen idx allow s' o).
Proof.
  induction cands as [|[floor oid] cands IH]; intros best s Hs Hk Hb; cbn [scan_candidates]; [by apply wp_ret|].
  case_match; [by apply wp_ret|].
  eapply redw_bind; [by apply redw_cached_option|]. intros c s1 (Hs1 & Hk1 & Hsame & Hc).
  eapply wp_mono; [apply IH; [done|done|]| |done].
  - intros o Ho. repeat case_match; simplify_eq; auto; eapply chosen_same; eauto.
  - intros r s2 (Hs2 & Hsame2 & Hr). split_and!; [done|by eapply same_trans|done].
Qed.

(** The consistency checks of [_best_split_at] never fire. *)
Lemma redw_best_split s idx allow : RedInv s → 0 ≤ idx ≤ f_n f →
  redw (best_split_at f cs h bcs tcs idx allow) s (λ r s', RedInv s' ∧ same_spans s s' ∧ ∀ o, r = Some o → split_ok f s' o).
Proof.
  intros Hs Hidx. unfold best_split_at. apply wp_modify_bind. set (s1 := if bool_decide _ then s else _).
  assert (RedInv s1 ∧ keyed idx allow s1 ∧ same_spans s s1) as (Hs1 & Hk1 & Hsame1).
  { unfold s1. case_bool_decide; [done|]. split_and!; [|done|done]. by apply RedInv_cache. }
  eapply redw_bind; [by apply redw_scan|]. intros best s2 (Hs2 & Hsame2 & Hb).
  pose proof (same_trans _ _ _ Hsame1 Hsame2). destruct best as [o|]; [|by apply wp_ret]. apply wp_get_bind.
  specialize (Hb o eq_refl). destruct (split_option_ok _ _ _ _ _ _ _ _ Hb) as [_ Hok]. pose proof Hok as (spans & old & Hg & _).
  rewrite Hg. cbn [default from_option id].
  rewrite (chosen_cost f Hf cs h s2 (so_oid o) (idx - 1) allow o spans);
    [|done|lia|done|by eapply ri_spans|by eapply ri_backing].
  apply wp_check_bind; [intros _|by rewrite Z.eqb_refl].
  apply wp_ret. split_and!; [done|done|]. by intros ? [= <-].
Qed.

(** ** Applying a split *)
Lemma terms_add_is oid sign s sp :
  boundary_array f (rd_departing s) → boundary_array f (rd_nonblocking s) →
  let s' := relaxed_terms_add f h oid sign s sp in
  boundary_array f (rd_departing s') ∧ boundary_array f (rd_nonblocking s') ∧
  (∀ idx, 0 ≤ idx → at_ (rd_departing s') idx = at_ (rd_departing s) idx + sign * dep_term f h idx oid sp) ∧
  (∀ idx, 0 ≤ idx → at_ (rd_nonblocking s') idx = at_ (rd_nonblocking s) idx + sign * nb_term f h idx oid sp).
Proof.
  intros Hd Hn s'. unfold s', relaxed_terms_add. cbn [rd_departing rd_nonblocking with_terms]. split_and!.
  - by apply (departing_add_at f h oid sp sign _ 0).
  - by apply (nonblocking_add_at f h oid sp sign _ 0).
  - intros idx Hi. by apply departing_add_at.
  - intros idx Hi. by apply nonblocking_add_at.
Qed.

Lemma terms_add_all oid pieces : ∀ s,
  boundary_array f (rd_departing s) → boundary_array f (rd_nonblocking s) →
  let s' := foldl (relaxed_terms_add f h oid 1) s pieces in
  boundary_array f (rd_departing s') ∧ boundary_array f (rd_nonblocking s') ∧
  (∀ idx, 0 ≤ idx → at_ (rd_departing s') idx = at_ (rd_departing s) idx + sumZ (dep_term f h idx oid <$> pieces)) ∧
  (∀ idx, 0 ≤ idx → at_ (rd_nonblocking s') idx = at_ (rd_nonblocking s) idx + sumZ (nb_term f h idx oid <$> pieces)) ∧
  s' = with_terms (rd_departing s') (rd_nonblocking s') s.
Proof.
  induction pieces as [|sp pieces IH]; intros s Hd Hn; cbn [foldl].
  - split_and!; [done|done|intros; simpl; lia|intros; simpl; lia|by destruct s].
  - destruct (terms_add_is oid 1 s sp Hd Hn) as (A1 & A2 & A3 & A4).
    destruct (IH _ A1 A2) as (B1 & B2 & B3 & B4 & B5). split_and!; [done|done| | |exact B5].
    + intros idx Hi. rewrite B3, A3, fmap_cons, sumZ_cons by done. lia.
    + intros idx Hi. rewrite B4, A4, fmap_cons, sumZ_cons by done. lia.
Qed.

Lemma heap_pushes changed : ∀ s, Forall (λ j, 0 ≤ j ≤ f_n f) changed →
  StronglySorted (λ a b, heap_leb a b = true) (rd_heap s) → Forall (λ e : Z * Z, 0 ≤ e.2 ≤ f_n f) (rd_heap s) →
  let s' := foldl (push_overflow f cap extra) s changed in
  s' = with_heap (rd_heap s') s ∧ StronglySorted (λ a b, heap_leb a b = true) (rd_heap s') ∧
  Forall (λ e : Z * Z, 0 ≤ e.2 ≤ f_n f) (rd_heap s') ∧
  (∀ e, e ∈ rd_heap s → e ∈ rd_heap s') ∧ ∀ j, j ∈ changed → (- strict s j, j) ∈ rd_heap s'.
Proof.
  induction changed as [|x changed IH]; intros s Hc Hs Hr; cbn [foldl].
  - split_and!; [by destruct s|done|done|done|by intros j ?%elem_of_nil].
  - apply Forall_cons in Hc as [Hx Hc].
    destruct (IH (push_overflow f cap extra s x)) as (I1 & I2 & I3 & I4 & I5); [done|..].
    + apply insert_sorted_sorted; [| |done]; unfold heap_leb.
      * intros [a b] [c d]. simpl. destruct (Z.eqb_spec a c), (Z.eqb_spec c a); rewrite ?Z.leb_le; lia.
      * intros [a b] [c d] [e g]. simpl. destruct (Z.eqb_spec a c), (Z.eqb_spec c e), (Z.eqb_spec a e); rewrite ?Z.leb_le; lia.
    + simpl. rewrite <-insert_sorted_perm. by apply Forall_cons.
    + split_and!; [exact I1|done|done|..].
      * intros e He. apply I4. simpl. rewrite <-insert_sorted_perm. by right.
      * intros j [->|Hj]%elem_of_cons; [|by apply (I5 j)]. apply I4. simpl. rewrite <-insert_sorted_perm. by left.
Qed.

Lemma assoc_del_ne {V} (d : list (string * V)) k k' : k' ≠ k → assoc_get (assoc_del d k) k' = assoc_get d k'.
Proof.
  intros Hne. induction d as [|[k1 v] d IH]; simpl; [done|]. destruct (decide (k = k1)) as [<-|]; simpl.
  - by rewrite decide_False.
  - by destruct (decide (k' = k1)).
Qed.

Lemma assoc_del_keys {V} (d : list (string * V)) k : NoDup d.*1 → NoDup (assoc_del d k).*1 ∧ assoc_get (assoc_del d k) k = None.
Proof.
  intros Hn. destruct (assoc_get d k) as [v|] eqn:Hg.
  - apply assoc_get_split in Hg as (d1 & d2 & -> & Hk). rewrite assoc_del_middle by done.
    rewrite fmap_app, fmap_cons in Hn. apply NoDup_app in Hn as (N1 & N2 & N3). apply NoDup_cons in N3 as [N3 N4].
    rewrite assoc_get_none, fmap_app. split; [apply NoDup_app; split_and!; [done|set_solver|done]|set_solver].
  - apply assoc_get_none in Hg as Hk. by rewrite assoc_del_absent.
Qed.

(** The interval set after a split. *)
Definition split_intervals ivs (oid : string) (spans' : list Span) : IntervalSet :=
  if bool_decide (spans' = []) then assoc_del ivs oid else assoc_set ivs oid spans'.

Lemma split_total term ivs oid spans i old pieces :
  assoc_get ivs oid = Some spans → spans !! i = Some old →
  span_total term (split_intervals ivs oid (splice spans i pieces)) =
    span_total term ivs - term oid old + sumZ (term oid <$> pieces).
Proof.
  intros Hg Hi. pose proof (splice_sum (term oid) spans i old pieces Hi) as Hsum. unfold split_intervals.
  case_bool_decide as He.
  - rewrite (span_total_del term ivs oid spans Hg). rewrite He in Hsum. simpl in Hsum. lia.
  - rewrite (span_total_set term ivs oid spans _ Hg), Hsum. lia.
Qed.

Lemma split_get_ne ivs oid spans' oid' : oid' ≠ oid → assoc_get (split_intervals ivs oid spans') oid' = assoc_get ivs oid'.
Proof.
  intros Hne. unfold split_intervals. case_bool_decide; [|by rewrite assoc_get_set_ne by done].
  destruct (assoc_get ivs oid) as [v|] eqn:Hg.
  - apply assoc_get_split in Hg as (d1 & d2 & -> & Hk). rewrite assoc_del_middle by done.
    clear Hk. induction d1 as [|[k w] d1 IH]; simpl; [by rewrite decide_False|]. by destruct (decide (oid' = k)).
  - apply assoc_get_none in Hg. by rewrite assoc_del_absent.
Qed.

Lemma split_keys ivs oid spans' : NoDup ivs.*1 → NoDup (split_intervals ivs oid spans').*1.
Proof. intros Hn. unfold split_intervals. case_bool_decide; [by apply assoc_del_keys|by apply assoc_set_keys]. Qed.

Lemma split_get ivs oid spans' v : NoDup ivs.*1 → assoc_get (split_intervals ivs oid spans') oid = Some v → v = spans' ∧ spans' ≠ [].
Proof.
  intros Hn. unfold split_intervals. case_bool_decide; [by rewrite (proj2 (assoc_del_keys _ _ Hn))|].
  rewrite assoc_get_set. by intros [= <-].
Qed.

Lemma splice_spans_ok spans i old oid l r :
  spans_ok spans → spans !! i = Some old → edges_ok f oid old l r → spans_ok (splice spans i (split_pieces old l r)).
Proof.
  intros [Hb Hs] Hi He. apply take_drop_middle in Hi as Hsp. rewrite <-Hsp in Hb, Hs.
  apply Forall_app in Hb as [B1 B2]. apply Forall_cons in B2 as [B2 B3].
  apply StronglySorted_app_iff in Hs as (S1 & S2 & S3). inversion S2 as [|? ? S4 S5]; subst. rewrite Forall_forall in S5.
  assert (∀ p, p ∈ split_pieces old l r → sp_start old ≤ sp_start p ≤ sp_end p ∧ sp_end p ≤ sp_end old) as Hp.
  { intros p. unfold split_pieces. destruct He as [E1 E2 _ _]. rewrite elem_of_app.
    destruct l as [le|], r as [rs|]; intros [Hp|Hp]; try (by apply elem_of_nil in Hp); apply list_elem_of_singleton in Hp as ->; simpl;
      try specialize (E1 _ eq_refl); try specialize (E2 _ eq_refl); lia. }
  unfold splice. split.
  - rewrite !Forall_app. split_and!; [done| |done]. apply Forall_forall. intros p Hin. specialize (Hp p Hin). lia.
  - apply StronglySorted_app_iff. split_and!; [done| |].
    + apply StronglySorted_app_iff. split_and!; [|done|].
      * unfold split_pieces. destruct He as [E1 E2 E3 _]. destruct l as [le|], r as [rs|]; simpl in *; repeat constructor.
        simpl. lia.
      * intros p q Hin Hq. specialize (Hp p Hin). specialize (S5 q Hq). lia.
    + intros p q Hin [Hq|Hq]%elem_of_app.
      * specialize (Hp q Hq). specialize (S3 p old Hin ltac:(by left)). lia.
      * apply S3; [done|by right].
Qed.

Lemma splice_elem (spans : list Span) i old pieces sp :
  spans !! i = Some old → sp ∈ spans → sp = old ∨ sp ∈ splice spans i pieces.
Proof.
  intros Hi Hsp. unfold splice. rewrite <-(take_drop_middle spans i old Hi) in Hsp.
  rewrite elem_of_app, elem_of_cons in Hsp. rewrite !elem_of_app. tauto.
Qed.

Lemma split_covered ivs oid spans i old l r :
  assoc_get ivs oid = Some spans → spans !! i = Some old → edges_ok f oid old l r →
  ∀ oid' x, x ∈ anchors oid' f → covered ivs oid' x →
    covered (split_intervals ivs oid (splice spans i (split_pieces old l r))) oid' x.
Proof.
  intros Hg Hi He oid' x Hx (spans' & sp & Hg' & Hsp & Hin). destruct (decide (oid' = oid)) as [->|Hne].
  2: { exists spans', sp. by rewrite split_get_ne. }
  assert (spans' = spans) as -> by congruence.
  assert (∃ sp', sp' ∈ splice spans i (split_pieces old l r) ∧ sp_start sp' ≤ x ≤ sp_end sp') as (sp' & Hsp' & Hin').
  { destruct (splice_elem spans i old (split_pieces old l r) sp Hi Hsp) as [->|?]; [|by exists sp].
    unfold splice, split_pieces. destruct (eg_anchors _ _ _ _ _ He x Hx Hin) as [(le & -> & Hle)|(rs & -> & Hle)].
    - exists (mkSpan (sp_start old) le). split; [set_solver|simpl; lia].
    - exists (mkSpan rs (sp_end old)). split; [set_solver|simpl; lia]. }
  exists (splice spans i (split_pieces old l r)), sp'. split_and!; [|done|lia|lia]. unfold split_intervals.
  rewrite bool_decide_eq_false_2; [apply assoc_get_set|]. intros Hnil. rewrite Hnil in Hsp'. by apply elem_of_nil in Hsp'.
Qed.

(** The state a split leaves. *)
Lemma split_state s oid spans i old l r (bk : list (string * list (bool * option Z))) :
  RedInv s → assoc_get (rd_intervals s) oid = Some spans → spans !! i = Some old → edges_ok f oid old l r →
  (∀ oid', oid' ≠ oid → assoc_get bk oid' = assoc_get (rd_backing s) oid') →
  (splice spans i (split_pieces old l r) ≠ [] →
    assoc_get bk oid = Some (backing_state_before_spans oid (splice spans i (split_pieces old l r)) f)) →
  let pieces := split_pieces old l r in
  let changed := removed_indices f h oid old pieces in
  let s0 := with_cache (rd_cache_key s) (delete oid (rd_cache s)) s in
  let s1 := foldl (relaxed_terms_add f h oid 1) (relaxed_terms_add f h oid (-1) s0 old) pieces in
  let s2 := with_pool_array (foldl (λ p j, add_at p j (- size_of f oid)) (rd_pool s1) changed) s1 in
  let s3 := foldl (push_overflow f cap extra) s2 changed in
  RedInv (with_spans (split_intervals (rd_intervals s) oid (splice spans i pieces)) bk s3).
Proof.
  intros [[P0 P1] [D0 D1] [N0 N1] H4 H5 H6 H7 H8 H9 H10 H11] Hg Hi He Hbk Hbk' pieces changed s0 s1 s2 s3.
  destruct (terms_add_is oid (-1) s0 old D0 N0) as (A1 & A2 & A3 & A4).
  destruct (terms_add_all oid pieces _ A1 A2) as (B1 & B2 & B3 & B4 & B5). fold s1 in B1, B2, B3, B4, B5.
  assert (rd_pool s1 = rd_pool s ∧ rd_heap s1 = rd_heap s) as [E1 E2] by (by rewrite B5).
  pose proof (removed_in_range f h oid old l r He (proj1 P0)) as Hch. fold pieces changed in Hch.
  assert (Forall (λ j, 0 ≤ j < Z.of_nat (length (rd_pool s1))) changed) as Hch'.
  { rewrite E1. destruct P0 as [Hn ->]. eapply Forall_impl; [exact Hch|]. simpl. intros j Hj. lia. }
  assert (∀ idx, 0 ≤ idx → at_ (rd_pool s2) idx = at_ (rd_pool s) idx - size_of f oid * occurs changed idx) as Hpool.
  { intros idx Hidx. unfold s2. cbn [rd_pool with_pool_array]. rewrite (proj1 (at_changes _ _ _ idx Hidx Hch')), E1. lia. }
  destruct (heap_pushes changed s2 Hch) as (C1 & C2 & C3 & C4 & C5); [simpl; by rewrite E2|simpl; by rewrite E2|]. fold s3 in C1, C2, C3, C4, C5.
  assert (∀ j, 0 ≤ j → strict s3 j = strict s j - size_of f oid * occurs changed j) as Hstrict.
  { intros j Hj. unfold strict_overflow. rewrite C1. cbn [rd_pool with_heap]. rewrite Hpool by done. lia. }
  assert (rd_pool s3 = rd_pool s2 ∧ rd_departing s3 = rd_departing s1 ∧ rd_nonblocking s3 = rd_nonblocking s1 ∧
    rd_cache_key s3 = rd_cache_key s ∧ rd_cache s3 = delete oid (rd_cache s)) as (F1 & F2 & F3 & F4 & F5).
  { rewrite C1. unfold s2. rewrite B5. done. }
  split; cbn [rd_pool rd_departing rd_nonblocking rd_heap rd_cache_key rd_cache rd_intervals rd_backing with_spans];
    rewrite ?F1, ?F2, ?F3, ?F4, ?F5.
  - split.
    + destruct P0 as [Hn Hl]. split; [done|]. unfold s2. cbn [rd_pool with_pool_array].
      by rewrite (proj2 (at_changes _ _ _ 0 ltac:(lia) Hch')), E1.
    + intros idx Hidx. rewrite Hpool, P1 by lia. rewrite (split_total _ _ _ _ _ _ _ Hg Hi).
      pose proof (removed_spec f h oid old l r idx He) as Hrem. fold pieces changed in Hrem. rewrite Hrem. lia.
  - split; [done|]. intros idx Hidx. rewrite B3, A3 by lia. rewrite (split_total _ _ _ _ _ _ _ Hg Hi).
    cbn [rd_departing with_cache s0]. rewrite D1 by done. lia.
  - split; [done|]. intros idx Hidx. rewrite B4, A4 by lia. rewrite (split_total _ _ _ _ _ _ _ Hg Hi).
    cbn [rd_nonblocking with_cache s0]. rewrite N1 by done. lia.
  - done.
  - done.
  - intros idx Hidx. change (strict (with_spans _ _ s3) idx) with (strict s3 idx). destruct (decide (idx ∈ changed)) as [Hin|Hout].
    + specialize (C5 idx Hin). rewrite C1 at 1. exact C5.
    + apply C4. rewrite (Hstrict idx) by lia. rewrite occurs_elem by done. rewrite Z.mul_0_r, Z.sub_0_r.
      simpl. rewrite E2. by apply H6.
  - intros idx allow oid' c Hk Hc. apply lookup_delete_Some in Hc as [Hne Hc]. rewrite (H7 _ _ _ _ Hk Hc). symmetry.
    apply split_option_same; [by apply split_get_ne|by apply Hbk].
  - intros oid' x Hx Hcov. apply split_covered; auto.
  - intros oid' v Hv. destruct (decide (oid' = oid)) as [->|Hne].
    + apply split_get in Hv as [-> Hnn]; [|done]. by apply Hbk'.
    + rewrite split_get_ne in Hv by done. rewrite Hbk by done. by apply H9.
  - intros oid' v Hv. destruct (decide (oid' = oid)) as [->|Hne].
    + apply split_get in Hv as [-> Hnn]; [|done]. by eapply splice_spans_ok; [by eapply H10| |].
    + rewrite split_get_ne in Hv by done. by apply (H10 oid').
  - by apply split_keys.
Qed.

(** The folds of a split leave the spans alone. *)
Lemma fold_frame {A} (g : Red T → A → Red T) l :
  (∀ s a, rd_intervals (g s a) = rd_intervals s ∧ rd_backing (g s a) = rd_backing s) →
  ∀ s, rd_intervals (foldl g s l) = rd_intervals s ∧ rd_backing (foldl g s l) = rd_backing s.
Proof.
  intros Hg. induction l as [|a l IH]; intros s; cbn [foldl]; [done|].
  destruct (IH (g s a)) as [-> ->]. apply Hg.
Qed.

(** What is left to cut: the boundaries the spans cover. *)
Definition span_len (_ : string) sp : Z := Z.max 0 (sp_end sp - sp_start sp + 1).
Definition to_cut s : Z := span_total span_len (rd_intervals s).

Lemma pieces_shorter oid old l r : edges_ok f oid old l r → sumZ (span_len oid <$> split_pieces old l r) < span_len oid old.
Proof.
  intros [H1 H2 H3 _]. unfold split_pieces, span_len. rewrite fmap_app, sumZ_app.
  destruct l as [le|], r as [rs|]; simpl in *; try specialize (H1 _ eq_refl); try specialize (H2 _ eq_refl); lia.
Qed.

Lemma redw_apply_split s o : RedInv s → split_ok f s o →
  redw (apply_split f cap extra h o) s (λ _ s', RedInv s' ∧ to_cut s' < to_cut s).
Proof.
  intros Hs (spans & old & Hg & Hi & He). unfold apply_split. apply wp_modify_bind, wp_get_bind.
  cbn [rd_intervals with_cache]. rewrite Hg. cbn [default from_option id]. rewrite Hi.
  pose proof (pieces_shorter _ _ _ _ He) as Hless. apply wp_check_bind; [intros _|].
  2: { intros Hsame. apply negb_false_iff, bool_decide_eq_true in Hsame.
    destruct (split_pieces old (so_left o) (so_right o)) as [|[a b] [|]] eqn:Hp; try done. simpl in Hsame.
    destruct old. simplify_eq. rewrite fmap_cons, sumZ_cons in Hless. simpl in Hless. lia. }
  do 3 apply wp_modify_bind. apply wp_modify.
  set (s3 := foldl (push_overflow f cap extra) _ _).
  assert (rd_intervals s3 = rd_intervals s ∧ rd_backing s3 = rd_backing s) as [E1 E2].
  { pose proof (λ s l, fold_frame (push_overflow f cap extra) l ltac:(done) s) as FP.
    pose proof (λ s l, fold_frame (relaxed_terms_add f h (so_oid o) 1) l ltac:(done) s) as FT.
    unfold s3. rewrite (proj1 (FP _ _)), (proj2 (FP _ _)). cbn [rd_intervals rd_backing with_pool_array].
    rewrite (proj1 (FT _ _)), (proj2 (FT _ _)). done. }
  rewrite E1, E2. pose proof (λ bk, split_state s _ spans _ old _ _ bk Hs Hg Hi He) as Hst. unfold split_intervals in Hst.
  assert (∀ bk, to_cut (with_spans (split_intervals (rd_intervals s) (so_oid o) (splice spans (so_index o)
    (split_pieces old (so_left o) (so_right o)))) bk s3) < to_cut s) as Hcut.
  { intros bk. unfold to_cut. cbn [rd_intervals with_spans]. rewrite (split_total _ _ _ _ _ _ _ Hg Hi). lia. }
  unfold split_intervals in Hcut.
  case_bool_decide as Hnil; (split; [apply Hst|apply Hcut]).
  - intros oid' Hne. by apply assoc_del_ne.
  - by intros [].
  - intros oid' Hne. by apply assoc_get_set_ne.
  - intros _. by rewrite assoc_get_set.
Qed.

(** ** The loop *)
Definition fits s : Prop := ∀ idx, 0 ≤ idx ≤ f_n f → relaxed_overflow f cap extra s idx ≤ 0.

Lemma strict_bounds_relaxed s idx : RedInv s → 0 ≤ idx ≤ f_n f → relaxed_overflow f cap extra s idx ≤ strict s idx.
Proof.
  intros Hs Hi. unfold relaxed_overflow, strict_overflow.
  rewrite (proj2 (ri_dep s Hs) idx Hi), (proj2 (ri_nb s Hs) idx Hi).
  assert (0 ≤ span_total (dep_term f h idx) (rd_intervals s) ∧ 0 ≤ span_total (nb_term f h idx) (rd_intervals s)) as [? ?]; [|lia].
  split; apply span_total_nonneg; intros oid sp; pose proof (fo_sizes f Hf oid); unfold dep_term, nb_term; repeat case_match; lia.
Qed.

Lemma redw_reduce_step s : RedInv s → redw (reduce_step f cap extra cs h cont bcs tcs) s
  (λ (finished : bool) s', RedInv s' ∧ (if finished then fits s' else to_cut s' < to_cut s)).
Proof.
  intros Hs. unfold reduce_step. eapply redw_bind; [by apply redw_worst|].
  intros [worst overflow] s1 (Hs1 & Hi1 & Hw & Ho & Hmax). cbn [fst snd] in *.
  destruct (Z.leb_spec overflow 0).
  { apply wp_ret. split; [done|]. intros idx Hi. pose proof (strict_bounds_relaxed s1 idx Hs1 Hi). specialize (Hmax idx Hi). lia. }
  apply wp_get_bind. destruct (negb cont && _) eqn:Hr.
  { apply wp_ret. split; [done|]. intros idx Hi. apply andb_true_iff in Hr as [_ Hr%Z.leb_le].
    pose proof (worst_relaxed_spec s1 idx Hs1 Hi). lia. }
  assert (∀ s2, same_spans s1 s2 → to_cut s2 = to_cut s) as Hsame.
  { intros s2 [Hss _]. unfold to_cut. by rewrite Hss, (proj1 Hi1). }
  assert (∀ s2 o, RedInv s2 → split_ok f s2 o → same_spans s1 s2 → redw (apply_split f cap extra h o ;; mret false) s2
    (λ (finished : bool) s', RedInv s' ∧ (if finished then fits s' else to_cut s' < to_cut s))) as Happly.
  { intros s2 o Hs2 Hok Hss. eapply redw_bind; [by apply redw_apply_split; auto|]. intros u s3 [Hs3 Hlt]. apply wp_ret.
    split; [done|]. rewrite (Hsame s2 Hss) in Hlt. lia. }
  eapply redw_bind; [by apply redw_best_split|]. intros [o|] s2 (Hs2 & Hss2 & Hok); [by apply Happly; auto|].
  apply wp_get_bind. case_match eqn:Hr2.
  { apply wp_ret. split; [done|]. intros idx Hi. apply Z.leb_le in Hr2. pose proof (worst_relaxed_spec s2 idx Hs2 Hi). lia. }
  eapply redw_bind; [apply redw_best_split; [done|by apply worst_relaxed_range]|]. intros [o|] s3 (Hs3 & Hss3 & Hok3); [|done].
  apply Happly; [done|by apply Hok3|by eapply same_trans].
Qed.

Lemma to_cut_nonneg s : 0 ≤ to_cut s.
Proof. apply span_total_nonneg. unfold span_len. lia. Qed.

Lemma redw_reduce_loop n : ∀ s, RedInv s → to_cut s < Z.of_nat n →
  redw (reduce_loop f cap extra cs h cont bcs tcs n) s (λ _ s', RedInv s' ∧ fits s').
Proof.
  induction n as [|n IH]; intros s Hs Hn; cbn [reduce_loop]; [pose proof (to_cut_nonneg s); lia|].
  eapply redw_bind; [by apply redw_reduce_step|]. intros [] s1 [Hs1 Hfit]; [by apply wp_ret|apply IH; [done|lia]].
Qed.
End Inv.
