(* ===== verification/PfReduce.v ===== *)
(** * PressureFit: what the reduction returns

    The reducer built from a seed satisfies its invariant, and the seed of a
    validated chain needs no more splits than the loop allows.  So the reduction
    of a validated chain always ends: either with spans that fit the capacity in
    the boundary model and still cover every mandatory point, or with the error
    that some boundary cannot be reduced. *)
From S2P Require Import Prelude SimSchema SimValidate SimulatorInv PfCore PfFacts PfTransitions PfReducer PfReducerInv.
From stdpp Require Import base tactics option list gmap strings sorting.
From Stdlib Require Import ZArith Lia.
Open Scope Z_scope.

(** ** The initial state *)
Section Init.
Context {T : Type} `{Num T}.
Context (f : Facts T) (Hf : FactsOk f) (cap : Z) (extra : list Z) (cs : CutScore) (h : bool) (seed : IntervalSet).

Lemma terms_add_seed (ivs : IntervalSet) : ∀ s : Red T,
  boundary_array f (rd_departing s) → boundary_array f (rd_nonblocking s) →
  let s' := foldl (λ s (kv : string * list Span), foldl (relaxed_terms_add f h kv.1 1) s kv.2) s ivs in
  boundary_array f (rd_departing s') ∧ boundary_array f (rd_nonblocking s') ∧
  (∀ idx, 0 ≤ idx → at_ (rd_departing s') idx = at_ (rd_departing s) idx + span_total (dep_term f h idx) ivs) ∧
  (∀ idx, 0 ≤ idx → at_ (rd_nonblocking s') idx = at_ (rd_nonblocking s) idx + span_total (nb_term f h idx) ivs) ∧
  s' = with_terms (rd_departing s') (rd_nonblocking s') s.
Proof.
  unfold span_total. induction ivs as [|[oid spans] ivs IH]; intros s Hd Hn; cbn [foldl].
  - split_and!; [done|done|intros; simpl; lia|intros; simpl; lia|by destruct s].
  - destruct (terms_add_all f h oid spans s Hd Hn) as (A1 & A2 & A3 & A4 & A5). cbn [fst snd].
    destruct (IH _ A1 A2) as (B1 & B2 & B3 & B4 & B5). split_and!; [done|done|..].
    + intros idx Hi. rewrite B3, A3, fmap_cons, sumZ_cons by done. cbn [fst snd]. lia.
    + intros idx Hi. rewrite B4, A4, fmap_cons, sumZ_cons by done. cbn [fst snd]. lia.
    + rewrite B5. rewrite A5 at 3. done.
Qed.

Lemma new_reducer_inv :
  NoDup seed.*1 → (∀ oid spans, assoc_get seed oid = Some spans → spans_ok spans) →
  RedInv f cap extra cs h seed (new_reducer f cap extra h seed).
Proof.
  intros Hnd Hok. unfold new_reducer. pose proof (fo_n f Hf) as Hn0.
  set (bk := (λ kv : string * list Span, (kv.1, backing_state_before_spans kv.1 kv.2 f)) <$> seed).
  set (zeros := replicate (Z.to_nat (f_n f) + 1) 0).
  set (s0 := mkRed seed bk (pool_size f seed h) zeros zeros [] None ∅).
  assert (boundary_array f zeros) as Hz by (split; [done|]; unfold zeros; by rewrite length_replicate).
  assert (∀ idx, at_ zeros idx = 0) as Hz0.
  { intros idx. unfold at_, zeros. destruct (replicate _ 0 !! _) eqn:He; [|done]. by apply lookup_replicate in He as [-> _]. }
  destruct (terms_add_seed seed s0 Hz Hz) as (A1 & A2 & A3 & A4 & A5). set (s1 := foldl _ s0 seed) in *.
  assert (rd_intervals s1 = seed ∧ rd_backing s1 = bk ∧ rd_pool s1 = pool_size f seed h ∧ rd_cache s1 = ∅) as (E1 & E2 & E3 & E4)
    by (by rewrite A5).
  assert (length (pool_size f seed h) = Z.to_nat (f_n f) + 1)%nat as Hlen by (by apply pool_size_len).
  split; cbn [rd_intervals rd_backing rd_pool rd_departing rd_nonblocking rd_heap rd_cache_key rd_cache with_heap];
    rewrite ?E1, ?E2, ?E3, ?E4.
  - split; [by split|]. intros idx Hi. by rewrite pool_size_at.
  - split; [done|]. intros idx Hi. rewrite A3 by lia. simpl. by rewrite Hz0.
  - split; [done|]. intros idx Hi. rewrite A4 by lia. simpl. by rewrite Hz0.
  - apply py_sorted_sorted; unfold heap_leb.
    + intros [a b] [c d]. simpl. destruct (Z.eqb_spec a c), (Z.eqb_spec c a); rewrite ?Z.leb_le; lia.
    + intros [a b] [c d] [e g]. simpl. destruct (Z.eqb_spec a c), (Z.eqb_spec c e), (Z.eqb_spec a e); rewrite ?Z.leb_le; lia.
  - apply Forall_forall. intros [neg i] Hin. rewrite elem_of_py_sorted, list_elem_of_fmap in Hin. destruct Hin as (j & [= -> ->] & Hj).
    unfold range in Hj. apply elem_of_seqZ in Hj. simpl. lia.
  - intros idx Hi. rewrite elem_of_py_sorted, list_elem_of_fmap. exists idx. split; [done|]. unfold range. apply elem_of_seqZ. lia.
  - done.
  - done.
  - intros oid spans Hg. unfold bk. apply assoc_get_split in Hg as (d1 & d2 & -> & Hk). rewrite fmap_app, fmap_cons. cbn [fst snd].
    clear -Hk. induction d1 as [|[k v] d1 IH]; simpl; [by rewrite decide_True|].
    rewrite fmap_cons in Hk. apply not_elem_of_cons in Hk as [Hne Hk]. simpl in Hne. rewrite decide_False by done. by apply IH.
  - exact Hok.
  - done.
Qed.
End Init.

(** ** The seed *)
Section SeedState.
Context {T : Type} `{Num T}.
Context (f : Facts T) (Hf : FactsOk f) (ic : gset string).

Lemma seed_spans_ok oid spans : assoc_get (initial_residency f ic) oid = Some spans → spans_ok spans.
Proof.
  intros Hg. apply seed_get in Hg as (sp & -> & Hsp); [|done]. destruct (seed_span_spec f Hf ic oid sp Hsp) as (H1 & _).
  split; [by apply Forall_singleton|]. apply SSorted_cons; [apply SSorted_nil|apply Forall_nil_2].
Qed.

Lemma seed_covers oid x : x ∈ anchors oid f → oid ∉ f_backing_ids f ∨ oid ∉ f_compute_ids f → covered (initial_residency f ic) oid x.
Proof.
  intros Hx Hboth. destruct (seed_some f Hf ic oid x Hx Hboth) as [sp Hsp].
  destruct (seed_span_spec f Hf ic oid sp Hsp) as (_ & _ & Hcov). exists [sp], sp.
  split_and!; [by apply seed_has|by left|..]; apply Hcov; naive_solver.
Qed.

Lemma seed_count : Z.of_nat (length (initial_residency f ic)) ≤ Z.of_nat (size (f_sizes f)).
Proof.
  apply Nat2Z.inj_le. rewrite <-size_dom, <-(length_fmap fst (initial_residency f ic)).
  rewrite <-(size_list_to_set (C := gset string) (initial_residency f ic).*1) by (by apply seed_keys_nodup).
  apply subseteq_size. intros oid Hin. rewrite elem_of_list_to_set in Hin. apply elem_of_dom. by eapply initial_residency_sized.
Qed.

Lemma seed_total : span_total span_len (initial_residency f ic) ≤ (f_n f + 1) * Z.of_nat (length (initial_residency f ic)).
Proof.
  assert (Forall (λ kv : string * list Span, sumZ (span_len kv.1 <$> kv.2) ≤ f_n f + 1) (initial_residency f ic)) as Hall.
  { apply Forall_forall. intros [oid spans] Hin. unfold initial_residency in Hin. apply list_elem_of_omap in Hin as (x & _ & Hx).
    destruct (seed_span f ic x) as [sp|] eqn:Hs; [|done]. simplify_eq/=. destruct (seed_span_spec f Hf ic _ sp Hs) as (H1 & H2 & _).
    unfold span_len. lia. }
  unfold span_total. induction Hall as [|kv ivs Hkv _ IH]; [simpl; lia|]. rewrite fmap_cons, sumZ_cons. cbn [length]. lia.
Qed.

Lemma seed_splits cap extra h : to_cut (new_reducer f cap extra h (initial_residency f ic)) < max_splits f.
Proof.
  unfold to_cut. replace (rd_intervals _) with (initial_residency f ic).
  - pose proof seed_total. pose proof seed_count. pose proof (fo_n f Hf). unfold max_splits. nia.
  - unfold new_reducer. cbn [rd_intervals with_heap]. symmetry.
    set (s0 := mkRed _ _ _ _ _ _ _ _). change (initial_residency f ic) with (rd_intervals s0) at 2. generalize s0.
    induction (initial_residency f ic) as [|kv ivs IH]; intros s; cbn [foldl]; [done|]. rewrite IH.
    apply (fold_frame (relaxed_terms_add f h kv.1 1)). done.
Qed.
End SeedState.

(** ** Theorems *)
Section Theorems.
Context {T : Type} `{Num T}.

(** The states of a reduction. *)
Inductive red_reach (f : Facts T) cap extra cs h cont bcs tcs (seed : IntervalSet) : Red T → Prop :=
| reach_new : red_reach f cap extra cs h cont bcs tcs seed (new_reducer f cap extra h seed)
| reach_step s finished s' : red_reach f cap extra cs h cont bcs tcs seed s →
    reduce_step f cap extra cs h cont bcs tcs s = (Ok finished, s') →
    red_reach f cap extra cs h cont bcs tcs seed s'.

Lemma red_reach_inv (f : Facts T) cap extra cs h cont bcs tcs ic s :
  FactsOk f → red_reach f cap extra cs h cont bcs tcs (initial_residency f ic) s →
  RedInv f cap extra cs h (initial_residency f ic) s.
Proof.
  intros Hf. induction 1 as [|s b s' _ IH Hs].
  - apply new_reducer_inv; [done|by apply seed_keys_nodup|]. intros oid spans. by apply seed_spans_ok.
  - pose proof (redw_reduce_step f cap extra cs h cont bcs tcs Hf _ s IH) as Hw. unfold wp in Hw. rewrite Hs in Hw. apply Hw.
Qed.

Lemma worst_strict_eq (f : Facts T) cap extra s : worst_strict_overflow f cap extra s =
  match drop_stale f cap extra s (rd_heap s) with
  | [] => (Err EmptyHeap, with_heap [] s)
  | (neg, idx) :: rest => (Ok (idx, strict_overflow f cap extra s idx), with_heap ((neg, idx) :: rest) s)
  end.
Proof.
  unfold worst_strict_overflow. cbv [mbind M_bind get modify mret M_ret raise]. simpl.
  by destruct (drop_stale f cap extra s (rd_heap s)) as [|[neg idx] rest].
Qed.

(** C15: in every state of a reduction the incrementally maintained terms
    give, at every boundary, the need of the boundary model computed from
    scratch over the current spans, and the lazy heap's answer is the worst strict overflow. *)
Theorem incremental_model_exact (chain : TaskChain T) ic cap extra cs h cont bcs tcs s :
  validate_planning_input chain = Ok tt → sizes_nonneg chain →
  let f := build_facts chain in
  red_reach f cap extra cs h cont bcs tcs (initial_residency f ic) s →
  (∀ idx, 0 ≤ idx ≤ f_n f →
    relaxed_overflow f cap extra s idx = modeled_boundary_need f (rd_intervals s) idx h + at_ extra idx - cap) ∧
  ∃ worst s', worst_strict_overflow f cap extra s = (Ok worst, s') ∧ 0 ≤ worst.1 ≤ f_n f ∧
    ∀ idx, 0 ≤ idx ≤ f_n f → strict_overflow f cap extra s idx ≤ strict_overflow f cap extra s worst.1.
Proof.
  intros Hv Hsz f Hr. pose proof (planning_facts chain Hv Hsz) as Hf. apply red_reach_inv in Hr as Hs; [|done]. split.
  - intros idx Hi. by eapply relaxed_is_modeled.
  - pose proof (redw_worst f cap extra cs h _ s Hs) as Hw. unfold wp in Hw. rewrite worst_strict_eq in *.
    destruct (drop_stale f cap extra s (rd_heap s)) as [|[neg idx] rest]; [done|]. eexists _, _. split; [done|].
    destruct Hw as (_ & _ & Hr1 & _ & Hw). split; [done|]. exact Hw.
Qed.

End Theorems.

Open Scope string_scope.
Open Scope Z_scope.

(** ** Example: a weight used by the first and the last task is cut in between *)
Definition bare_task (tid : string) (ins : list string) (outs : list OutputAlloc) : Task Z :=
  mkTask tid ins outs 10 0 [] [] [] [].

Definition gap_chain : TaskChain Z :=
  mkChain [mkObject "w" 4 Backing "weight"]
    [bare_task "t0" ["w"] [mkOutput "x" 4 Fast "act"]; bare_task "t1" ["x"] [mkOutput "y" 4 Fast "act"];
     bare_task "t2" ["y"] [mkOutput "z" 4 Fast "act"]; bare_task "t3" ["w"; "z"] []]
    [("w", Backing)] (Some 8) None (Some 1) (Some 1).

Definition gap_facts : Facts Z := build_facts gap_chain.
Definition gap_seed : IntervalSet := initial_residency gap_facts ∅.
Definition no_extra : list Z := [0; 0; 0; 0; 0].

Lemma gap_chain_sizes : sizes_nonneg gap_chain.
Proof. split; repeat constructor; simpl; lia. Qed.


Lemma incremental_model_exact_witness :
  let s := new_reducer gap_facts 8 no_extra true gap_seed in
  let s' := (reduce_step gap_facts 8 no_extra MinStall true true
    (boundary_candidates gap_facts true gap_seed) (timing_candidates gap_facts gap_seed) s).2 in
  rd_intervals s' ≠ rd_intervals s ∧
  relaxed_overflow gap_facts 8 no_extra s' 2 = modeled_boundary_need gap_facts (rd_intervals s') 2 true + 0 - 8.
Proof.
  intros s s'. split; [vm_compute; discriminate|].
  destruct (incremental_model_exact gap_chain ∅ 8 no_extra MinStall true true
    (boundary_candidates gap_facts true gap_seed) (timing_candidates gap_facts gap_seed) s') as [Hm _].
  - vm_compute. reflexivity.
  - apply gap_chain_sizes.
  - apply (reach_step _ _ _ _ _ _ _ _ _ s false); [apply reach_new|]. vm_compute. reflexivity.
  - apply (Hm 2). vm_compute. split; discriminate.
Defined.
