(* ===== verification/PfPrefetch.v ===== *)
(** * PressureFit: prefetch rules and lead-time refinement
    ([dataflow_sim/policies/pressurefit_aux/prefetch_rules.py],
    [residency_refinement.py])

    A rule chooses, for every prefetch transition, the task after which its
    trigger fires.  The packed rules walk the jobs backwards from their deadlines
    as one FIFO queue; [math.inf] is [Inf].  Task indices are within the windows
    of the transitions, so the lists are read and written in range. *)
From S2P Require Import Prelude SimSchema PfCore PfTransitions PfReducer.
From stdpp Require Import base tactics option list gmap strings sorting.
From Stdlib Require Import ZArith Lia.
Open Scope Z_scope.

Inductive RuleKind := PackedFifo | PackedFit | IntervalEntry | LatestSafe.
#[export] Instance RuleKind_eq_dec : EqDecision RuleKind.
Proof. solve_decision. Defined.

(** [list(dict.fromkeys(l))]: the first occurrences. *)
Definition dedup (l : list string) : list string :=
  foldl (λ acc x, if bool_decide (x ∈ acc) then acc else acc ++ [x]) [] l.

(** [range(hi, lo - 1, -1)]. *)
Definition range_down (hi lo : Z) : list Z := reverse (range lo (hi + 1)).

Record PrefetchJob (T : Type) := mkJob {
  pj_oid : string;
  pj_earliest : Z;
  pj_latest : Z;
  pj_deadline : T;
  pj_tau : Z;
  pj_first_use : Z;
  pj_entry : Z;
  pj_size : Z;
}.
Arguments mkJob {T}.
Arguments pj_oid {T}.
Arguments pj_earliest {T}.
Arguments pj_latest {T}.
Arguments pj_deadline {T}.
Arguments pj_tau {T}.
Arguments pj_first_use {T}.
Arguments pj_entry {T}.
Arguments pj_size {T}.

Section Rules.
Context {T : Type} `{Num T}.
Implicit Types (f : Facts T) (job : PrefetchJob T).

Definition end_at f (i : Z) : T := default num_zero (f_task_end f !! Z.to_nat i).
Definition start_at f (i : Z) : T := default num_zero (f_task_start f !! Z.to_nat i).

(** [_prefetch_job]: [None] when the window has no use. *)
Definition prefetch_job (oid : string) (w : PrefetchWindow) f (inbound_bw : option Z) (rule : RuleKind) : option (PrefetchJob T) :=
  match pw_first_use w with
  | None => None
  | Some fu =>
      let earliest := pw_earliest w in
      let latest := if bool_decide (rule = IntervalEntry)
                    then Z.max earliest (Z.min (pw_latest w) (Z.max 0 (pw_entry w - 1)))
                    else pw_latest w in
      Some (mkJob oid earliest latest (start_at f fu) (transfer_time (size_of f oid) inbound_bw) fu (pw_entry w) (size_of f oid))
  end.

(** [_latest_safe_fire]. *)
Definition latest_safe_fire job f : Z :=
  default (pj_latest job)
    (List.find (λ t, (end_at f t + num_of_Z (pj_tau job) <=? pj_deadline job)%num) (range_down (pj_latest job) (pj_earliest job))).

(** [_pressure_clamped_fire]: the trigger and the pool with the committed
    coverage. *)
Definition pressure_clamped_fire job (fire : Z) (pool : list Z) (cap : Z) (extra : list Z) f (headroom : bool) : Z * list Z :=
  let model_entry := pressure_start (pj_oid job) (pj_entry job) f headroom in
  if model_entry <=? fire then (fire, pool)
  else
    let over x := cap <? at_ pool (x + 1) + pj_size job + at_ (f_next_reservations f) (x + 1) + at_ extra (x + 1) in
    let clamped := match List.find over (range_down (model_entry - 1) fire) with Some x => x + 1 | None => fire end in
    (clamped, foldl (λ p x, add_at p (x + 1) (pj_size job)) pool (range clamped model_entry)).

(** The order of [sorted(jobs, key=(deadline, latest, oid), reverse=True)]. *)
Definition job_geb (a b : PrefetchJob T) : bool :=
  if (pj_deadline a =? pj_deadline b)%num then
    (if pj_latest a =? pj_latest b then String.leb (pj_oid b) (pj_oid a) else pj_latest b <? pj_latest a)
  else (pj_deadline b <? pj_deadline a)%num.

(** The loop of [_assign_prefetch_jobs]: the pool, the start of the transfer
    packed last and the assignments. *)
Record Packing := mkPacking {
  pk_pool : option (list Z);
  pk_next : XNum T;
  pk_done : list (Z * PrefetchJob T);
}.

Definition pack_job f (cap : option Z) (extra : list Z) (headroom : bool) (st : Packing) job : Packing :=
  let latest_finish := match pk_next st with Inf => pj_deadline job | Fin t => num_min (pj_deadline job) t end in
  let desired := (latest_finish - num_of_Z (pj_tau job))%num in
  let fire := default (pj_earliest job)
    (List.find (λ t, (end_at f t <=? desired)%num) (range_down (pj_latest job) (pj_earliest job))) in
  let '(fire, pool) :=
    match pk_pool st, cap with
    | Some pool, Some cap =>
        let '(fire, pool) := pressure_clamped_fire job fire pool cap extra f headroom in (fire, Some pool)
    | pool, _ => (fire, pool)
    end in
  mkPacking pool (Fin (num_max (end_at f fire) desired)) (pk_done st ++ [(fire, job)]).

Definition pack_jobs f (jobs : list (PrefetchJob T)) (pool : option (list Z)) (cap : option Z) (extra : list Z)
    (headroom : bool) : list (Z * PrefetchJob T) :=
  pk_done (foldl (pack_job f cap extra headroom) (mkPacking pool Inf []) (py_sorted job_geb jobs)).

(** [prefetches] and [prefetch_order], a list and a dict for every task. *)
Abbreviation Slots := (list (list string * gmap string Z)).

Definition put_slot (oid : string) (key : Z) (fire : Z) (slots : Slots) : Slots :=
  alter (λ c, (c.1 ++ [oid], <[oid := key]> c.2)) (Z.to_nat fire) slots.

Definition empty_slots f : Slots := replicate (Z.to_nat (f_n f)) ([], ∅).

(** [_assign_prefetch_jobs]. *)
Definition assign_prefetch_jobs f (jobs : list (PrefetchJob T)) (pool : option (list Z)) (cap : option Z) (extra : list Z)
    (headroom : bool) : Slots :=
  foldl (λ slots (fj : Z * PrefetchJob T), put_slot (pj_oid fj.2) (pj_first_use fj.2) fj.1 slots) (empty_slots f)
    (pack_jobs f jobs pool cap extra headroom).

(** One prefetch transition: packed, or placed directly. *)
Definition place_transition f (inbound_bw : option Z) (rule : RuleKind) (acc : Slots * list (PrefetchJob T))
    (bt : string * Transition) : Slots * list (PrefetchJob T) :=
  match tr_prefetch bt.2 with
  | None => acc (* a prefetch transition has a window *)
  | Some w =>
      let job := prefetch_job bt.1 w f inbound_bw rule in
      match job with
      | Some j =>
          if bool_decide (rule = PackedFifo ∨ rule = PackedFit) then (acc.1, acc.2 ++ [j])
          else (put_slot bt.1 (pj_first_use j) (latest_safe_fire j f) acc.1, acc.2)
      | None => (put_slot bt.1 (f_n f) (pw_latest w) acc.1, acc.2)
      end
  end.

Definition slot_leb f (order : gmap string Z) (a b : string) : bool :=
  let ka := default (f_n f) (order !! a) in
  let kb := default (f_n f) (order !! b) in
  if ka =? kb then String.leb a b else ka <? kb.

(** The packed and the direct triggers of a task, merged and sorted. *)
Definition merge_slot f (packed direct : list string * gmap string Z) : list string :=
  let order := direct.2 ∪ packed.2 in
  py_sorted (slot_leb f order) (dedup (packed.1 ++ direct.1)).

(** [_apply_prefetch_rule]. *)
Definition apply_prefetch_rule f (plan : TransitionPlan) (inbound_bw : option Z) (rule : RuleKind) (pool : option (list Z))
    (cap : option Z) (extra : list Z) (headroom : bool) : list (list string) :=
  let '(direct, packed) := foldl (place_transition f inbound_bw rule) (empty_slots f, []) (tp_prefetches plan) in
  zip_with (merge_slot f) (assign_prefetch_jobs f packed pool cap extra headroom) direct.
End Rules.

(** ** Lead-time refinement *)
Record LeadRequest (T : Type) := mkRequest {
  lr_deadline : T;
  lr_oid : string;
  lr_index : nat;
  lr_time : Z;
  lr_current : Z;
  lr_earliest : Z;
}.
Arguments mkRequest {T}.
Arguments lr_deadline {T}.
Arguments lr_oid {T}.
Arguments lr_index {T}.
Arguments lr_time {T}.
Arguments lr_current {T}.
Arguments lr_earliest {T}.

Section Refine.
Context {T : Type} `{Num T}.
Implicit Types (f : Facts T) (r : LeadRequest T).

(** [_lead_time_requests]. *)
Definition request_of f (inbound_bw : Z) (oid : string) (index : nat) (tr : Transition) : option (LeadRequest T) :=
  match tr_prefetch tr with
  | None => None
  | Some w =>
      let start := sp_start (tr_span tr) in
      match pw_first_use w with
      | None => None
      | Some fu =>
          if (start <=? 0) || (start <=? pw_earliest w) then None
          else Some (mkRequest (start_at f fu) oid index (transfer_time (size_of f oid) (Some inbound_bw)) start (pw_earliest w))
      end
  end.

Definition lead_time_requests f (intervals : IntervalSet) (inbound_bw : Z) (coalesce : bool) : result PlanError (list (LeadRequest T)) :=
  foldR (λ acc (kv : string * list Span),
      trs ← build_object_transitions kv.1 kv.2 f coalesce;
      Ok (acc ++ omap (λ it : nat * Transition, request_of f inbound_bw kv.1 it.1 it.2) (zip (seq 0 (length trs)) trs)))
    [] intervals.

(** The tasks that end by [t], up to the first that does not. *)
Fixpoint last_ended (t : T) (i : Z) (ends : list T) : Z :=
  match ends with
  | [] => i
  | e :: ends => if (t <? e)%num then i else last_ended t (i + 1) ends
  end.

(** [_ideal_entry]. *)
Definition ideal_entry r (next_start : XNum T) f : Z :=
  let bound := match next_start with Inf => lr_deadline r | Fin t => num_min (lr_deadline r) t end in
  let ideal := num_max num_zero (bound - num_of_Z (lr_time r))%num in
  Z.max (last_ended ideal (-1) (f_task_end f) + 1) (lr_earliest r).

(** [_first_fitting_entry]. *)
Definition fits_from r f (pool extra : list Z) (cap : Z) (headroom : bool) (entry : Z) : bool :=
  forallb (λ b, at_ pool (b + 1) + size_of f (lr_oid r) + at_ (f_next_reservations f) (b + 1) + at_ extra (b + 1) <=? cap)
    (range (pressure_start (lr_oid r) entry f headroom) (pressure_start (lr_oid r) (lr_current r) f headroom)).

Definition first_fitting_entry r (ideal : Z) f (pool extra : list Z) (cap : Z) (headroom : bool) : Z :=
  default (lr_current r) (List.find (fits_from r f pool extra cap headroom) (range ideal (lr_current r))).

Record Refine := mkRefine {
  rf_intervals : IntervalSet;
  rf_pool : list Z;
  rf_next : XNum T;
}.

(** One request of [_extend_inbound_lead_time]. *)
Definition extend_one f (cap : Z) (extra : list Z) (headroom : bool) (st : Refine) r : Refine :=
  match assoc_get (rf_intervals st) (lr_oid r) with
  | None => st
  | Some spans =>
      match spans !! lr_index r with
      | None => st
      | Some sp =>
          if negb (sp_start sp =? lr_current r) then st
          else
            let stays := mkRefine (rf_intervals st) (rf_pool st) (Fin (end_at f (lr_current r - 1))) in
            let ideal := ideal_entry r (rf_next st) f in
            if lr_current r <=? ideal then stays
            else
              let entry := first_fitting_entry r ideal f (rf_pool st) extra cap headroom in
              if lr_current r <=? entry then stays
              else
                mkRefine (assoc_set (rf_intervals st) (lr_oid r) (<[lr_index r := mkSpan entry (sp_end sp)]> spans))
                  (foldl (λ p b, add_at p (b + 1) (size_of f (lr_oid r))) (rf_pool st)
                     (range (pressure_start (lr_oid r) entry f headroom) (pressure_start (lr_oid r) (lr_current r) f headroom)))
                  (Fin (end_at f (entry - 1)))
      end
  end.

(** The order of [key=(-deadline, oid, span_index)]. *)
Definition request_leb (a b : LeadRequest T) : bool :=
  if (lr_deadline a =? lr_deadline b)%num then
    (if bool_decide (lr_oid a = lr_oid b) then (lr_index a <=? lr_index b)%nat else String.leb (lr_oid a) (lr_oid b))
  else (lr_deadline b <? lr_deadline a)%num.

(** [_extend_inbound_lead_time]: the interval set it leaves. *)
Definition extend_inbound_lead_time f (intervals : IntervalSet) (cap inbound_bw : option Z) (extra : list Z)
    (headroom coalesce : bool) : result PlanError IntervalSet :=
  match cap, inbound_bw with
  | Some cap, Some bw =>
      if bw <=? 0 then Ok intervals
      else
        reqs ← lead_time_requests f intervals bw coalesce;
        Ok (rf_intervals (foldl (extend_one f cap extra headroom)
              (mkRefine intervals (pool_size f intervals headroom) Inf) (py_sorted request_leb reqs)))
  | _, _ => Ok intervals
  end.
End Refine.
