(* ===== verification/PfPlan.v ===== *)
(** * PressureFit: emission, verification, repair and the portfolio
    ([dataflow_sim/policies/pressurefit_aux/emit.py], [candidate.py],
    [physical_repair.py], [seeds.py] and [dataflow_sim/policies/pressurefit.py])

    A candidate is realized as an annotated chain, replayed in the simulator,
    and repaired on a capacity contradiction; the planner returns the valid
    candidate with the smallest makespan.  Wall-clock times of the diagnostics
    are left out. *)
From S2P Require Import Prelude SimSchema SimValidate Simulator PfCore PfTransitions PfReducer PfPrefetch.
From stdpp Require Import base tactics option list gmap strings sorting.
From Stdlib Require Import ZArith Lia.
Open Scope Z_scope.

(** What planning raises. *)
Inductive PfError :=
| PlanFailed (e : PlanError)
| SimFailed (e : SimError)
| InvalidInput (e : ValidationError)
| EmitConflict (oids : gset string) (task : nat)
| PlanKeyError (oid : string)
| EmptyMax
| NegativeLeeway
| WorkspaceExceeds (capacity workspace leeway : Z)
| BadPreplace (mode : string)
| Task0Infeasible (initial must outputs cap : Z)
| NoKnownRules
| FirstErrorMissing.

Definition of_plan {A} (r : result PlanError A) : result PfError A :=
  match r with Ok a => Ok a | Err e => Err (PlanFailed e) end.
Definition of_sim {A} (r : result SimError A) : result PfError A :=
  match r with Ok a => Ok a | Err e => Err (SimFailed e) end.

(** [_ResidencySpec] and [_PrefetchRuleSpec]. *)
Record ResidencySpec := mkResidency {
  rs_name : string;
  rs_headroom : bool;
  rs_cut_score : CutScore;
  rs_continue : bool;
}.
Record RuleSpec := mkRule {
  ru_name : string;
  ru_kind : RuleKind;
  ru_coalesce : bool;
}.

Section Plan.
Context {T : Type} `{Num T}.
Implicit Types (chain bare : TaskChain T) (f : Facts T) (task : Task T) (ivs : IntervalSet).

(** ** Emission ([_emit_chain]) *)

(** The releases and the offloads of every task. *)
Abbreviation Departures := (list (list string * list string)).

Definition put_departure (acc : Departures) (bt : string * Transition) : Departures :=
  match tr_departure bt.2 with
  | None => acc (* a departure has a task *)
  | Some d =>
      alter (λ c, match tr_action bt.2 with
                  | Offload => (c.1, c.2 ++ [bt.1])
                  | Release => (c.1 ++ [bt.1], c.2)
                  | Retain => c
                  end) (Z.to_nat d) acc
  end.

Definition departures_of (n : nat) (plan : TransitionPlan) : Departures :=
  foldl put_departure (replicate n ([], [])) (tp_departures plan).

(** The triggers of one task: releases, offloads and prefetches. *)
Definition emit_task (coalesce : bool) (i : nat) task (dep : list string * list string) (pre : list string) :
    result PfError (Task T) :=
  let releases := dedup dep.1 in
  let offloads := dedup dep.2 in
  let noops := if coalesce then list_to_set releases ∩ list_to_set pre else (∅ : gset string) in
  let releases := filter (λ o, o ∉ noops) releases in
  let pre := filter (λ o, o ∉ noops) pre in
  let conflicts : gset string := list_to_set offloads ∩ list_to_set pre in
  if bool_decide (conflicts = ∅) then
    Ok (mkTask (task_id task) (inputs task) (outputs task) (runtime task) (workspace_bytes task)
          releases ((λ o, mkTrigger o None) <$> offloads) ((λ o, mkTrigger o None) <$> pre) (mutates_inputs task))
  else Err (EmitConflict conflicts i).

(** [zip] of the tasks with their departures and prefetches. *)
Fixpoint emit_tasks (coalesce : bool) (i : nat) (ts : list (Task T)) (deps : Departures) (pres : list (list string)) :
    result PfError (list (Task T)) :=
  match ts with
  | [] => Ok []
  | t :: ts =>
      t ← emit_task coalesce i t (default ([], []) (head deps)) (default [] (head pres));
      ts ← emit_tasks coalesce (S i) ts (tail deps) (tail pres);
      Ok (t :: ts)
  end.

(** [backing_objs[oid]]. *)
Definition backing_object bare (oid : string) : option Object :=
  last (filter (λ o, obj_location o = Backing ∧ obj_id o = oid) (initial_memory bare)).

(** [sorted(set(l))]. *)
Definition sorted_set (l : list string) : list string := py_sorted String.leb (remove_dups l).

Definition place_initial bare (acc : list Object) (oid : string) : result PfError (list Object) :=
  match backing_object bare oid with
  | Some src => Ok (acc ++ [mkObject (obj_id src) (obj_size src) Fast (obj_type src)])
  | None => Err (PlanKeyError oid)
  end.

Definition emit_chain bare (plan : TransitionPlan) (prefetches : list (list string)) (coalesce : bool) :
    result PfError (TaskChain T) :=
  ts ← emit_tasks coalesce 0 (tasks bare) (departures_of (length (tasks bare)) plan) prefetches;
  initial ← foldR (place_initial bare) (initial_memory bare) (sorted_set (tp_preplaced plan));
  Ok (mkChain initial ts (final_locations bare) (fast_memory_capacity bare) (backing_memory_capacity bare)
        (bandwidth_from_slow bare) (bandwidth_to_slow bare)).

(** ** Candidates *)
Context (r : ResidencySpec) (u : RuleSpec).

(** [_refine_residency]. *)
Definition refine_residency bare f ivs (extra : list Z) : result PfError IntervalSet :=
  if bool_decide (ru_kind u = IntervalEntry) then
    of_plan (extend_inbound_lead_time f ivs (fast_memory_capacity bare) (bandwidth_from_slow bare) extra
               (rs_headroom r) (ru_coalesce u))
  else Ok ivs.

(** [_reduce_residency]. *)
Definition reduce_residency bare f ivs (extra : list Z) : result PfError IntervalSet :=
  ivs ← of_plan (reduce_to_fit f ivs (fast_memory_capacity bare) extra (rs_cut_score r) (rs_headroom r) (rs_continue r));
  refine_residency bare f ivs extra.

(** [_realize_plan]. *)
Definition realize_plan bare f ivs (extra : list Z) : result PfError (TaskChain T) :=
  plan ← of_plan (build_transitions ivs f (ru_coalesce u));
  let pool := if bool_decide (ru_kind u = PackedFit ∧ is_Some (fast_memory_capacity bare))
              then Some (pool_size f ivs (rs_headroom r)) else None in
  let prefetches := apply_prefetch_rule f plan (bandwidth_from_slow bare) (ru_kind u) pool (fast_memory_capacity bare)
                      extra (rs_headroom r) in
  emit_chain bare plan prefetches (ru_coalesce u).

(** [max] of the ends; [max] of nothing raises. *)
Definition makespan_of (log : EventLog T) : result PfError T :=
  match task_intervals log with
  | [] => Err EmptyMax
  | iv :: rest => Ok (foldl (λ m iv, num_max m (iv_end iv)) (iv_end iv) rest)
  end.

(** [_simulated_makespan_us]. *)
Definition simulated_makespan chain : result PfError T :=
  log ← of_sim (run chain true false false);
  makespan_of log.

(** [_physical_pressure_from_error]: the boundary index, the need and the
    overage. *)
Definition physical_pressure (e : SimError) f bare : option (Z * Z * Z) :=
  match fast_memory_capacity bare with
  | None => None
  | Some cap =>
      match e with
      | CapacityOutputReservation tid _ need overage =>
          idx ← f_task_index f !! tid;
          Some (idx, need, Z.max 1 overage)
      | CapacityDeadlock tid _ need overage missing =>
          idx ← f_task_index f !! tid;
          match need with
          | Some need => Some (idx, need, Z.max 1 (default (need - cap) overage))
          | None =>
              let bytes := sumZ ((λ oid, default 0 (f_sizes f !! oid)) <$> missing) in
              if bytes <=? 0 then None else Some (idx, cap + bytes, Z.max 1 bytes)
          end
      | _ => None
      end
  end.

(** [_apply_physical_repair]: the extra pressure it leaves, [None] when the
    error is not repairable. *)
Definition physical_repair (e : SimError) bare f ivs (extra : list Z) : option (list Z) :=
  '(idx, need, overage) ← physical_pressure e f bare;
  let required := need - modeled_boundary_need f ivs idx true in
  let required := if required <=? at_ extra idx then at_ extra idx + overage else required in
  Some (<[Z.to_nat idx := Z.max 1 required]> extra).

(** The repair loop of [_verify_candidate]. *)
Fixpoint verify_loop (n : nat) bare f ivs (extra : list Z) : result PfError (T * TaskChain T) :=
  annotated ← realize_plan bare f ivs extra;
  match simulated_makespan annotated, n with
  | Ok m, _ => Ok (m, annotated)
  | Err (SimFailed e), S n =>
      match physical_repair e bare f ivs extra with
      | None => Err (SimFailed e)
      | Some extra =>
          ivs ← reduce_residency bare f ivs extra;
          verify_loop n bare f ivs extra
      end
  | Err e, _ => Err e
  end.

Definition physical_repair_limit : nat := 12.

(** [_verify_candidate]. *)
Definition verify_candidate bare f ivs : result PfError (T * TaskChain T) :=
  let extra := replicate (Z.to_nat (f_n f) + 1) 0 in
  ivs ← refine_residency bare f ivs extra;
  verify_loop physical_repair_limit bare f ivs extra.
End Plan.

(** ** Initial placement ([_pressure_initial_placement]) *)
Section Placement.
Context {T : Type} `{Num T}.
Implicit Types (bare : TaskChain T) (f : Facts T).

(** [_compute_ideal_starts]. *)
Definition compute_ideal_starts bare : gmap string T :=
  foldl (λ m (tt : Task T * (T * T)), <[task_id tt.1 := tt.2.1]> m) ∅ (zip (tasks bare) (ideal_times num_zero (tasks bare))).

(** [_object_uses_by_task_idx]: one event for every task that uses the object. *)
Definition add_use (i : Z) (t : T) (m : gmap string (list (Z * T))) (inp : string) : gmap string (list (Z * T)) :=
  let evs := default [] (m !! inp) in
  if bool_decide (i ∈ evs.*1) then m else <[inp := evs ++ [(i, t)]]> m.

Definition object_uses bare (ideal : gmap string T) : gmap string (list (Z * T)) :=
  foldl (λ m (it : Z * Task T), foldl (add_use it.1 (default num_zero (ideal !! task_id it.2))) m (inputs it.2)) ∅
    (zip (range 0 (Z.of_nat (length (tasks bare)))) (tasks bare)).

(** [backing_objs]: a dict, so one entry per id, in order of first insertion. *)
Definition backing_ids_in_order bare : list string :=
  dedup (obj_id <$> filter (λ o, obj_location o = Backing) (initial_memory bare)).

Definition backing_size bare (oid : string) : Z := default 0 (obj_size <$> backing_object bare oid).

(** A job of [cold_deadline_misses]. *)
Record ColdJob := mkCold { cj_deadline : T; cj_first : Z; cj_oid : string; cj_tau : Z }.

Definition cold_leb (a b : ColdJob) : bool :=
  if (cj_deadline a =? cj_deadline b)%num then
    (if cj_first a =? cj_first b then String.leb (cj_oid a) (cj_oid b) else cj_first a <? cj_first b)
  else (cj_deadline a <? cj_deadline b)%num.

Definition cold_jobs bare f (uses : gmap string (list (Z * T))) (placement : gset string) : list ColdJob :=
  omap (λ oid,
    if bool_decide (oid ∈ placement) then None
    else match uses !! oid with
         | Some ((first, _) :: _) =>
             if first =? 0 then None
             else Some (mkCold (start_at f first) first oid (transfer_time (backing_size bare oid) (bandwidth_from_slow bare)))
         | _ => None
         end) (backing_ids_in_order bare).

Fixpoint cold_misses (cursor : T) (jobs : list ColdJob) : gmap string T :=
  match jobs with
  | [] => ∅
  | j :: jobs =>
      let e := (cursor + num_of_Z (cj_tau j))%num in
      let miss := num_max num_zero (e - cj_deadline j)%num in
      let rest := cold_misses e jobs in
      if (miss =? num_zero)%num then rest else <[cj_oid j := miss]> rest
  end.

Definition cold_deadline_misses bare f uses placement : gmap string T :=
  match bandwidth_from_slow bare with
  | Some bw => if bw <=? 0 then ∅ else cold_misses (end_at f 0) (py_sorted cold_leb (cold_jobs bare f uses placement))
  | None => ∅
  end.

(** A row of [remaining]: [(task_idx, slack, -miss, -size, oid)]. *)
Record Remaining := mkRemaining { re_first : Z; re_slack : T; re_miss : T; re_size : Z; re_oid : string }.

Definition remaining_leb (a b : Remaining) : bool :=
  if re_first a =? re_first b then
    (if (re_slack a =? re_slack b)%num then
       (if (re_miss a =? re_miss b)%num then
          (if re_size a =? re_size b then String.leb (re_oid a) (re_oid b) else re_size b <? re_size a)
        else (re_miss b <? re_miss a)%num)
     else (re_slack a <? re_slack b)%num)
  else re_first a <? re_first b.

Definition remaining_rows bare f (sizes : gmap string Z) uses (placement : gset string) : list Remaining :=
  let misses := cold_deadline_misses bare f uses placement in
  omap (λ oid,
    if bool_decide (oid ∈ placement) then None
    else match uses !! oid with
         | Some ((first, ideal) :: _) =>
             let tau := transfer_time (backing_size bare oid) (bandwidth_from_slow bare) in
             Some (mkRemaining first (num_max num_zero (ideal - end_at f 0 - num_of_Z tau)%num)
                     (default num_zero (misses !! oid)) (default 0 (sizes !! oid)) oid)
         | _ => None
         end) (backing_ids_in_order bare).

(** The greedy fill: the placement and the bytes used. *)
Definition fill_one (cap task0_outputs : Z) (sizes : gmap string Z) (acc : gset string * Z) (row : Remaining) : gset string * Z :=
  let size := default 0 (sizes !! re_oid row) in
  if acc.2 + size + task0_outputs <=? cap then ({[re_oid row]} ∪ acc.1, acc.2 + size) else acc.

Definition initial_placement bare (cap : option Z) (sizes : gmap string Z) uses (mode : string) : result PfError (gset string) :=
  match tasks bare with
  | [] => Ok ∅
  | task0 :: _ =>
      let backing := backing_ids_in_order bare in
      match cap with
      | None => Ok (list_to_set (filter (λ oid, default [] (uses !! oid) ≠ []) backing))
      | Some cap =>
          let already : gset string := list_to_set (obj_id <$> filter (λ o, obj_location o = Fast) (initial_memory bare)) in
          let must : list string := remove_dups (filter (λ oid, oid ∈ backing ∧ oid ∉ already) (inputs task0)) in
          let placement : gset string := list_to_set must in
          let initial_fast := sumZ (obj_size <$> filter (λ o, obj_location o = Fast) (initial_memory bare)) in
          let outs := fast_output_bytes task0 in
          let must_bytes := sumZ ((λ oid, default 0 (sizes !! oid)) <$> must) in
          if cap <? initial_fast + must_bytes + outs then Err (Task0Infeasible initial_fast must_bytes outs cap)
          else if String.eqb mode "task0" then Ok placement
          else
            let f := build_facts (mkChain (initial_memory bare) (tasks bare) (final_locations bare) (Some cap)
                       (backing_memory_capacity bare) (bandwidth_from_slow bare) (bandwidth_to_slow bare)) in
            Ok (foldl (fill_one cap outs sizes) (placement, initial_fast + must_bytes)
                  (py_sorted remaining_leb (remaining_rows bare f sizes uses placement))).1
      end
  end.
End Placement.

(** ** The portfolio *)
Definition prefetch_rule_specs : list RuleSpec :=
  [mkRule "packed-fifo" PackedFifo false; mkRule "packed-fit" PackedFit false;
   mkRule "interval-entry" IntervalEntry false; mkRule "latest-safe" LatestSafe false;
   mkRule "packed-fifo-coalesced" PackedFifo true; mkRule "packed-fit-coalesced" PackedFit true;
   mkRule "interval-entry-coalesced" IntervalEntry true; mkRule "latest-safe-coalesced" LatestSafe true].

Definition residency_specs : list ResidencySpec :=
  [mkResidency "headroom-stall" true MinStall true; mkResidency "headroom-transfer" true MinTransfer true;
   mkResidency "tight-stall" false MinStall true; mkResidency "tight-transfer" false MinTransfer true;
   mkResidency "relaxed-stall" false MinStall false].

Section Portfolio.
Context {T : Type} `{Num T}.
Implicit Types (bare chain : TaskChain T) (f : Facts T).

(** [_CandidateResult], and the outcome of a candidate in the diagnostics. *)
Record Candidate := mkCandidate { cd_makespan : T; cd_chain : TaskChain T; cd_name : string }.
Inductive Outcome := Valid (makespan : T) | Failed (e : PfError).

Record Search := mkSearch {
  se_results : list Candidate;
  se_diagnostics : list (string * Outcome);
  se_first_error : option PfError;
  se_reached : bool;
}.

Definition first_error (a : option PfError) (e : PfError) : option PfError :=
  match a with None => Some e | Some _ => a end.

(** [_evaluate_prefetch_rules]: the rules left, after the search so far. *)
Fixpoint evaluate_rules bare f (base_fit : IntervalSet) (res : ResidencySpec) (bound : T) (rules : list RuleSpec) (s : Search) : Search :=
  match rules with
  | [] => s
  | rule :: rules =>
      let name := (rs_name res ++ "/" ++ ru_name rule)%string in
      match verify_candidate res rule bare f base_fit with
      | Ok (m, annotated) =>
          let s := mkSearch (se_results s ++ [mkCandidate m annotated name]) (se_diagnostics s ++ [(name, Valid m)])
                     (se_first_error s) (m =? bound)%num in
          if (m =? bound)%num then s else evaluate_rules bare f base_fit res bound rules s
      | Err e =>
          evaluate_rules bare f base_fit res bound rules
            (mkSearch (se_results s) (se_diagnostics s ++ [(name, Failed e)]) (first_error (se_first_error s) e) (se_reached s))
      end
  end.

(** The loop over the residency strategies. *)
Fixpoint search_specs bare f (seed : IntervalSet) (bound : T) (rules : list RuleSpec) (specs : list ResidencySpec) (s : Search) : Search :=
  match specs with
  | [] => s
  | res :: specs =>
      match reduce_to_fit f seed (fast_memory_capacity bare) (replicate (Z.to_nat (f_n f) + 1) 0)
              (rs_cut_score res) (rs_headroom res) (rs_continue res) with
      | Err e =>
          search_specs bare f seed bound rules specs
            (mkSearch (se_results s) (se_diagnostics s) (first_error (se_first_error s) (PlanFailed e)) (se_reached s))
      | Ok base_fit =>
          let s := evaluate_rules bare f base_fit res bound rules s in
          if se_reached s then s else search_specs bare f seed bound rules specs s
      end
  end.

(** [_object_planning_chain]. *)
Definition max_workspace bare : Z :=
  match workspace_bytes <$> tasks bare with [] => 0 | w :: ws => foldl Z.max w ws end.

Definition with_workspace (w : Z) (task : Task T) : Task T :=
  mkTask (task_id task) (inputs task) (outputs task) (runtime task) w (releases_after task) (offload_after task)
    (prefetch_after task) (mutates_inputs task).

Definition with_capacity bare (cap : option Z) (ts : list (Task T)) : TaskChain T :=
  mkChain (initial_memory bare) ts (final_locations bare) cap (backing_memory_capacity bare)
    (bandwidth_from_slow bare) (bandwidth_to_slow bare).

Definition object_planning_chain bare (capacity : option Z) (leeway : Z) : result PfError (TaskChain T) :=
  if leeway <? 0 then Err NegativeLeeway
  else
    let ws := max_workspace bare in
    match capacity with
    | None => Ok (with_capacity bare None (with_workspace 0 <$> tasks bare))
    | Some cap =>
        if cap - ws - leeway <? 0 then Err (WorkspaceExceeds cap ws leeway)
        else Ok (with_capacity bare (Some (cap - ws - leeway)) (with_workspace 0 <$> tasks bare))
    end.

(** [_restore_execution_workspace]: the workspace is looked up by task id. *)
Definition workspace_by_task source : gmap string Z :=
  foldl (λ m (t : Task T), <[task_id t := workspace_bytes t]> m) ∅ (tasks source).

Definition restore_workspace planned source (capacity : option Z) : TaskChain T :=
  with_capacity planned capacity
    ((λ t, with_workspace (default 0 (workspace_by_task source !! task_id t)) t) <$> tasks planned).

(** [compute_lower_bound_us]. *)
Definition compute_lower_bound bare : T := default num_zero (snd <$> last (ideal_times num_zero (tasks bare))).

(** [results.sort(key=makespan)]; the first one. *)
Definition candidate_leb (a b : Candidate) : bool := negb (cd_makespan b <? cd_makespan a)%num.

(** The diagnostics of a plan. *)
Record Diagnostics := mkDiagnostics {
  dg_task_count : Z;
  dg_object_count : nat;
  dg_program_capacity : option Z;
  dg_object_capacity : option Z;
  dg_max_workspace : Z;
  dg_leeway : Z;
  dg_candidate_count : nat;
  dg_valid_count : nat;
  dg_selected : string;
  dg_makespan : T;
  dg_candidates : list (string * Outcome * bool);
}.

Definition is_valid (o : Outcome) : bool := match o with Valid _ => true | Failed _ => false end.

(** [replace(bare, fast_memory_capacity=...)] when a capacity is given. *)
Definition override_capacity bare (cap : option Z) : TaskChain T :=
  match cap with Some c => with_capacity bare (Some c) (tasks bare) | None => bare end.

(** [pressurefit]. *)
Definition pressurefit bare (fast_memory_capacity_ : option Z) (preplace : string) (rule_names : option (list string))
    (leeway : Z) : result PfError (TaskChain T * Diagnostics) :=
  let source := override_capacity bare fast_memory_capacity_ in
  let program_capacity := fast_memory_capacity source in
  bare ← object_planning_chain source program_capacity leeway;
  if negb (String.eqb preplace "greedy" || String.eqb preplace "task0") then Err (BadPreplace preplace)
  else
    match validate_planning_input bare with Err e => Err (InvalidInput e) | Ok _ => Ok tt end ;;
    let bound := compute_lower_bound bare in
    let sizes := object_sizes bare in
    initial_compute ← initial_placement bare (fast_memory_capacity bare) sizes
                        (object_uses bare (compute_ideal_starts bare)) preplace;
    let f := build_facts bare in
    let seed := initial_residency f initial_compute in
    let rules := match rule_names with
                 | None => prefetch_rule_specs
                 | Some names => filter (λ r, ru_name r ∈ names) prefetch_rule_specs
                 end in
    if bool_decide (rules = []) then Err NoKnownRules
    else
      let s := search_specs bare f seed bound rules residency_specs (mkSearch [] [] None false) in
      match py_sorted candidate_leb (se_results s) with
      | [] => Err (default FirstErrorMissing (se_first_error s))
      | selected :: _ =>
          let restored := restore_workspace (cd_chain selected) source ((λ c, c - leeway) <$> program_capacity) in
          (match program_capacity with
           | None => Ok tt
           | Some _ => of_sim (run restored true false false) ;; Ok tt
           end) ;;
          let candidates := (λ d : string * Outcome, (d, bool_decide (d.1 = cd_name selected))) <$> se_diagnostics s in
          Ok (restored,
              mkDiagnostics (f_n f) (size (f_sizes f)) program_capacity (fast_memory_capacity bare) (max_workspace source)
                leeway (length candidates) (length (filter (λ c : string * Outcome * bool, is_valid c.1.2 = true) candidates))
                (cd_name selected) (cd_makespan selected) candidates)
      end.

(** [apply_pressurefit_policy]. *)
Definition apply_pressurefit_policy bare cap preplace rules leeway : result PfError (TaskChain T) :=
  fst <$> pressurefit bare cap preplace rules leeway.
End Portfolio.
