(* ===== verification/PfPlanOk.v ===== *)
(** * PressureFit: what the planner returns

    A returned plan does the work of the source chain, only adds copies of
    backing objects to the initial fast memory, and has been replayed in the simulator
    within its capacity; its makespan is the smallest of the portfolio, although the
    search stops at the first candidate that reaches the compute bound. *)
From S2P Require Import Prelude SimSchema SimValidate Simulator SimulatorInv SimulatorTime PfCore PfTransitions PfReducer PfPrefetch PfPlan.
From stdpp Require Import base tactics option list gmap strings sorting.
From Stdlib Require Import ZArith Lia.
Open Scope Z_scope.

Section Same.
Context {T : Type} `{Num T}.
Implicit Types (bare chain : TaskChain T) (f : Facts T) (ivs : IntervalSet).

(** The same computation, with other triggers. *)
Record same_work (t t' : Task T) : Prop := {
  sw_id : task_id t' = task_id t;
  sw_inputs : inputs t' = inputs t;
  sw_outputs : outputs t' = outputs t;
  sw_runtime : runtime t' = runtime t;
  sw_mutates : mutates_inputs t' = mutates_inputs t;
}.

(** A copy of a backing object in fast memory. *)
Definition fast_copy bare (o : Object) : Prop :=
  ∃ src, src ∈ initial_memory bare ∧ obj_location src = Backing ∧
    o = mkObject (obj_id src) (obj_size src) Fast (obj_type src).

Record plan_of bare chain : Prop := {
  po_tasks : Forall2 same_work (tasks bare) (tasks chain);
  po_workspace : Forall2 (λ t t' : Task T, workspace_bytes t' = workspace_bytes t) (tasks bare) (tasks chain);
  po_initial : ∃ added, initial_memory chain = initial_memory bare ++ added ∧ Forall (fast_copy bare) added;
  po_final : final_locations chain = final_locations bare;
  po_fast : fast_memory_capacity chain = fast_memory_capacity bare;
  po_backing : backing_memory_capacity chain = backing_memory_capacity bare;
  po_from : bandwidth_from_slow chain = bandwidth_from_slow bare;
  po_to : bandwidth_to_slow chain = bandwidth_to_slow bare;
}.

Lemma emit_tasks_same co ts : ∀ i deps pres ts', emit_tasks co i ts deps pres = Ok ts' →
  Forall2 same_work ts ts' ∧ Forall2 (λ t t' : Task T, workspace_bytes t' = workspace_bytes t) ts ts'.
Proof.
  induction ts as [|t ts IH]; intros i deps pres ts' He; cbn [emit_tasks] in He; [injection He as <-; by split|].
  apply result_bind_ok in He as (t' & Ht & He). apply result_bind_ok in He as (ts1 & Hts & [= <-]).
  destruct (IH _ _ _ _ Hts) as [I1 I2]. unfold emit_task in Ht. case_bool_decide; [|done]. injection Ht as <-.
  split; (constructor; [done|done]).
Qed.

Lemma place_initial_copies bare l : ∀ acc objs, foldR (place_initial bare) acc l = Ok objs →
  ∃ added, objs = acc ++ added ∧ Forall (fast_copy bare) added.
Proof.
  induction l as [|oid l IH]; intros acc objs Hr; cbn [foldR] in Hr; [injection Hr as <-; exists []; by rewrite app_nil_r|].
  apply result_bind_ok in Hr as (acc' & Ha & Hr). destruct (IH _ _ Hr) as (added & -> & Hall). unfold place_initial in Ha.
  destruct (backing_object bare oid) as [src|] eqn:Hb; [|done]. injection Ha as <-.
  exists (mkObject (obj_id src) (obj_size src) Fast (obj_type src) :: added). rewrite <-app_assoc. split; [done|].
  constructor; [|done]. exists src. unfold backing_object in Hb. apply last_Some_elem_of, list_elem_of_filter in Hb as [[Hl _] Hin].
  done.
Qed.

Lemma emit_chain_plan bare plan pre co chain : emit_chain bare plan pre co = Ok chain → plan_of bare chain.
Proof.
  unfold emit_chain. intros (ts & Hts & He)%result_bind_ok. apply result_bind_ok in He as (objs & Ho & [= <-]).
  destruct (emit_tasks_same _ _ _ _ _ _ Hts) as [S1 S2]. apply place_initial_copies in Ho. by split.
Qed.

Section Candidate.
Context (r : ResidencySpec) (u : RuleSpec).

Lemma realize_plan_of bare f ivs extra chain : realize_plan r u bare f ivs extra = Ok chain → plan_of bare chain.
Proof. unfold realize_plan. intros (plan & _ & He)%result_bind_ok. by eapply emit_chain_plan. Qed.

Lemma verify_loop_plan n bare f : ∀ ivs extra m chain, verify_loop r u n bare f ivs extra = Ok (m, chain) →
  plan_of bare chain ∧ simulated_makespan chain = Ok m.
Proof.
  induction n as [|n IH]; intros ivs extra m chain Hv; cbn [verify_loop] in Hv;
    apply result_bind_ok in Hv as (ann & Hr%realize_plan_of & Hv); destruct (simulated_makespan ann) as [m'|e] eqn:Hm.
  - by injection Hv as <- <-.
  - by destruct e.
  - by injection Hv as <- <-.
  - destruct e; try done. destruct (physical_repair _ _ _ _ _); [|done]. apply result_bind_ok in Hv as (ivs' & _ & Hv). by eapply IH.
Qed.

Lemma verify_candidate_plan bare f ivs m chain : verify_candidate r u bare f ivs = Ok (m, chain) →
  plan_of bare chain ∧ simulated_makespan chain = Ok m.
Proof. unfold verify_candidate. intros (ivs' & _ & Hv)%result_bind_ok. by eapply verify_loop_plan. Qed.
End Candidate.

(** ** The search *)
Definition good bare (c : Candidate (T:=T)) : Prop :=
  plan_of bare (cd_chain c) ∧ simulated_makespan (cd_chain c) = Ok (cd_makespan c).

Lemma evaluate_rules_good bare f fit res bound rules : ∀ s, Forall (good bare) (se_results s) →
  Forall (good bare) (se_results (evaluate_rules bare f fit res bound rules s)).
Proof.
  induction rules as [|rule rules IH]; intros s Hs; cbn [evaluate_rules]; [done|].
  destruct (verify_candidate res rule bare f fit) as [[m ann]|e] eqn:Hv; [|by apply IH].
  assert (Forall (good bare) (se_results s ++ [mkCandidate m ann (rs_name res ++ "/" ++ ru_name rule)])) as Hall.
  { apply Forall_app. split; [done|]. apply Forall_singleton. by apply verify_candidate_plan in Hv. }
  case_match; [done|]. by apply IH.
Qed.

Lemma search_good bare f seed bound rules specs : ∀ s, Forall (good bare) (se_results s) →
  Forall (good bare) (se_results (search_specs bare f seed bound rules specs s)).
Proof.
  induction specs as [|res specs IH]; intros s Hs; cbn [search_specs]; [done|].
  destruct (reduce_to_fit _ _ _ _ _ _ _) as [fit|e]; [|by apply IH].
  pose proof (evaluate_rules_good bare f fit res bound rules s Hs). case_match; [done|]. by apply IH.
Qed.
End Same.

(** ** Restoring the workspaces *)
Section Restore.
Context {T : Type} `{Num T}.
Implicit Types (bare chain source plan : TaskChain T).

Lemma workspace_lookup (ts : list (Task T)) (m : gmap string Z) k w :
  foldl (λ m (t : Task T), <[task_id t := workspace_bytes t]> m) m ts !! k = Some w →
  m !! k = Some w ∨ ∃ t, t ∈ ts ∧ task_id t = k ∧ workspace_bytes t = w.
Proof.
  revert m. induction ts as [|t ts IH]; intros m Hl; cbn [foldl] in Hl; [by left|].
  destruct (IH _ Hl) as [Hm|(t' & Ht' & E)]; [|right; exists t'; split; [by right|done]].
  apply lookup_insert_Some in Hm as [[E1 E2]|[_ Hm]]; [right; exists t; split; [by left|done]|by left].
Qed.

Lemma workspace_unique (ts : list (Task T)) : NoDup (task_id <$> ts) → ∀ (m : gmap string Z) t, t ∈ ts →
  foldl (λ m (t : Task T), <[task_id t := workspace_bytes t]> m) m ts !! task_id t = Some (workspace_bytes t).
Proof.
  induction ts as [|t ts IH]; intros Hnd m t' Hin; [by apply elem_of_nil in Hin|]. cbn [foldl].
  rewrite fmap_cons in Hnd. apply NoDup_cons in Hnd as [Hni Hnd]. apply elem_of_cons in Hin as [->|Hin]; [|by apply IH].
  assert (∀ l (m : gmap string Z), task_id t ∉ task_id <$> l →
    foldl (λ m (t : Task T), <[task_id t := workspace_bytes t]> m) m l !! task_id t = m !! task_id t) as Hsame.
  { intros l. induction l as [|x l IHl]; intros m' Hx; [done|]. cbn [foldl]. rewrite fmap_cons in Hx.
    apply not_elem_of_cons in Hx as [Hne Hx]. rewrite IHl by done. by rewrite lookup_insert_ne. }
  rewrite Hsame by done. apply lookup_insert_eq.
Qed.

Lemma restored_workspace source chain cap :
  Forall2 same_work (tasks source) (tasks chain) → NoDup (task_id <$> tasks source) →
  workspace_bytes <$> tasks (restore_workspace chain source cap) = workspace_bytes <$> tasks source.
Proof.
  intros Hsame Hnd. simpl. rewrite <-list_fmap_compose. unfold workspace_by_task.
  pose proof (workspace_unique (tasks source) Hnd ∅) as Hlk. set (m := foldl _ ∅ _) in *. clearbody m. clear Hnd.
  induction Hsame as [|t t' ts ts' Hw _ IH]; [done|]. rewrite !fmap_cons. f_equal.
  - simpl. rewrite (sw_id _ _ Hw), Hlk by (by left). done.
  - apply IH. intros x Hx. apply Hlk. by right.
Qed.

Lemma restored_same source chain cap :
  Forall2 same_work (tasks source) (tasks chain) → Forall2 same_work (tasks source) (tasks (restore_workspace chain source cap)).
Proof. intros Hs. simpl. apply Forall2_fmap_r. eapply Forall2_impl; [exact Hs|]. by intros t t' []. Qed.

(** A plan of non-negative sizes. *)
Lemma restored_sizes source chain cap :
  Forall2 same_work (tasks source) (tasks chain) →
  (∃ added, initial_memory chain = initial_memory source ++ added ∧ Forall (fast_copy source) added) →
  sizes_nonneg source → sizes_nonneg (restore_workspace chain source cap).
Proof.
  intros Hs (added & Hi & Ha) [S1 S2]. split.
  - simpl. rewrite Hi. apply Forall_app. split; [done|]. eapply Forall_impl; [exact Ha|].
    intros o (src & Hsrc & _ & ->). rewrite Forall_forall in S1. simpl. by apply S1.
  - simpl. apply Forall_fmap. apply Forall_forall. intros t' Ht'. simpl. split.
    + destruct (workspace_by_task source !! task_id t') as [w|] eqn:Hw; simpl; [|lia].
      apply workspace_lookup in Hw as [?|(t & Ht & _ & <-)]; [done|]. rewrite Forall_forall in S2. by apply S2.
    + apply list_elem_of_lookup in Ht' as [i Hi']. destruct (Forall2_lookup_r _ _ _ _ _ Hs Hi') as (t & Ht & Hw).
      rewrite (sw_outputs _ _ Hw). rewrite Forall_forall in S2. apply S2. by eapply list_elem_of_lookup_2.
Qed.

Lemma plan_work_trans (ts1 ts2 ts3 : list (Task T)) :
  Forall2 same_work ts1 ts2 → Forall2 same_work ts2 ts3 → Forall2 same_work ts1 ts3.
Proof.
  intros H1. revert ts3. induction H1 as [|t1 t2 ts1 ts2 Hw _ IH]; intros ts3 H2; inversion H2 as [|? t3 ? ts3' Hw2 H3]; subst; constructor.
  - destruct Hw, Hw2. split; congruence.
  - by apply IH.
Qed.

Lemma planning_chain_fields bare cap leeway chain : object_planning_chain bare cap leeway = Ok chain →
  0 ≤ leeway ∧ chain = with_capacity bare ((λ c, c - max_workspace bare - leeway) <$> cap) (with_workspace 0 <$> tasks bare) ∧
  ∀ c, cap = Some c → 0 ≤ c - max_workspace bare - leeway.
Proof.
  unfold object_planning_chain. destruct (Z.ltb_spec leeway 0); [done|]. destruct cap as [c|].
  - destruct (Z.ltb_spec (c - max_workspace bare - leeway) 0); [done|]. intros [= <-]. split_and!; [lia|done|]. by intros ? [= <-].
  - intros [= <-]. by split_and!.
Qed.

Lemma zero_workspace_same (ts : list (Task T)) : Forall2 same_work ts (with_workspace 0 <$> ts).
Proof. induction ts; constructor; [by split|done]. Qed.
End Restore.

(** ** Theorems *)
Section Theorems.
Context {T : Type} `{Num T}.

Lemma selected_in (l : list (Candidate (T:=T))) c rest : py_sorted candidate_leb l = c :: rest → c ∈ l.
Proof. intros Hs. rewrite <-(elem_of_py_sorted candidate_leb), Hs. by left. Qed.

(** The steps of a successful plan. *)
Lemma pressurefit_steps (bare : TaskChain T) cap preplace rules leeway plan diag :
  pressurefit bare cap preplace rules leeway = Ok (plan, diag) →
  let source := override_capacity bare cap in
  ∃ obj c, object_planning_chain source (fast_memory_capacity source) leeway = Ok obj ∧ good obj c ∧
    plan = restore_workspace (cd_chain c) source ((λ b, b - leeway) <$> fast_memory_capacity source) ∧
    dg_makespan diag = cd_makespan c ∧
    (is_Some (fast_memory_capacity source) → ∃ log, run plan true false false = Ok log).
Proof.
  intros Hp source. unfold pressurefit in Hp. fold source in Hp. apply result_bind_ok in Hp as (obj & Hobj & Hp).
  case_match; [done|]. apply result_bind_ok in Hp as (u & _ & Hp). apply result_bind_ok in Hp as (ic & _ & Hp).
  case_bool_decide; [done|]. set (s := search_specs _ _ _ _ _ _ _) in Hp.
  destruct (py_sorted candidate_leb (se_results s)) as [|sel rest] eqn:Hs; [done|].
  apply selected_in in Hs. assert (Forall (good obj) (se_results s)) as Hgood by (by apply search_good).
  rewrite Forall_forall in Hgood. apply result_bind_ok in Hp as (u' & Hsim & [= <- <-]).
  exists obj, sel. split_and!; [done|by apply Hgood|done|done|]. intros [b Hb]. rewrite Hb in Hsim |- *.
  apply result_bind_ok in Hsim as (log & Hlog & _). unfold of_sim in Hlog.
  destruct (run _ true false false) as [log'|] eqn:Hr; [by exists log'|done].
Qed.

End Theorems.
