(* ===== verification/PfPlanBest.v ===== *)
(** * PressureFit: the early exit loses nothing

    Compute is serial, so no schedule ends before the sum of the runtimes.  The
    search may therefore stop at the first candidate that reaches this bound: the
    selected candidate is the one that the whole portfolio would select. *)
From S2P Require Import Prelude SimSchema SimValidate Simulator SimulatorInv SimulatorTime PfCore PfTransitions PfReducer PfReduce PfPrefetch PfPlan PfPlanOk.
From stdpp Require Import base tactics option list gmap strings sorting.
From Stdlib Require Import ZArith Lia.
Open Scope Z_scope.

(** ** The first of a stable sort *)
Section Head.
Context {A : Type} (leb : A → A → bool).
Context (leb_total : ∀ a b, leb a b = true ∨ leb b a = true) (leb_trans : ∀ a b c, leb a b = true → leb b c = true → leb a c = true).

Lemma head_insert x l : head (insert_sorted leb x l) = match head l with Some y => Some (if leb x y then x else y) | None => Some x end.
Proof. destruct l as [|y l]; simpl; [done|]. by destruct (leb x y). Qed.

Lemma head_sorted_cons x l : head (py_sorted leb (x :: l)) =
  match head (py_sorted leb l) with Some y => Some (if leb x y then x else y) | None => Some x end.
Proof. apply head_insert. Qed.

Lemma head_sorted_least l y : head (py_sorted leb l) = Some y → y ∈ l ∧ ∀ z, z ∈ l → leb y z = true.
Proof.
  intros Hy. destruct (py_sorted leb l) as [|y' s] eqn:Hs; [done|]. injection Hy as ->.
  pose proof (py_sorted_sorted leb leb_total leb_trans l) as Hss. rewrite Hs in Hss. inversion Hss as [|? ? _ Hall]; subst.
  rewrite Forall_forall in Hall. split; [rewrite <-(elem_of_py_sorted leb), Hs; by left|].
  intros z Hz. rewrite <-(elem_of_py_sorted leb), Hs in Hz. apply elem_of_cons in Hz as [->|Hz]; [|by apply Hall].
  by destruct (leb_total y y).
Qed.

(** Elements no better than one of the first part do not matter. *)
Lemma head_sorted_app x P Q : x ∈ P → (∀ z, z ∈ Q → leb x z = true) →
  head (py_sorted leb (P ++ Q)) = head (py_sorted leb P).
Proof.
  revert x. induction P as [|p P IH]; intros x Hx HQ; [by apply elem_of_nil in Hx|].
  change ((p :: P) ++ Q) with (p :: (P ++ Q)). rewrite !head_sorted_cons.
  apply elem_of_cons in Hx as [->|Hx]; [|by rewrite (IH x Hx HQ)].
  destruct (head (py_sorted leb P)) as [y|] eqn:Hy.
  - destruct (head_sorted_least P y Hy) as [Hin Hleast]. destruct (leb p y) eqn:Hpy.
    + destruct (head (py_sorted leb (P ++ Q))) as [z|] eqn:Hz; [|done].
      destruct (head_sorted_least _ z Hz) as [Hzin _]. assert (leb p z = true) as ->; [|done].
      apply elem_of_app in Hzin as [Hzin|Hzin]; [eapply leb_trans; [exact Hpy|by apply Hleast]|by apply HQ].
    + assert (leb y p = true) as Hyp by (by destruct (leb_total p y) as [E|]; [rewrite E in Hpy|]).
      rewrite (IH y Hin); [by rewrite Hpy|]. intros z Hz. eapply leb_trans; [exact Hyp|by apply HQ].
  - destruct P as [|p' P]; [|by rewrite head_sorted_cons in Hy; destruct (head (py_sorted leb P))]. simpl.
    destruct (head (py_sorted leb Q)) as [z|] eqn:Hz; [|done]. destruct (head_sorted_least _ z Hz) as [Hzin _]. by rewrite HQ.
Qed.
End Head.

(** ** The compute bound *)
Section Bound.
Context {T : Type} `{NumLaws T}.
Implicit Types (bare chain : TaskChain T).
Local Notation "a ⊑ b" := (num_leb a b = true) (at level 70).

Lemma bars_bound (ivs : list (TaskInterval T)) ts : ∀ t,
  bars_of ivs ts → sequential ivs → Forall (λ tk, num_zero ⊑ runtime tk) ts → (∀ iv, iv ∈ ivs → t ⊑ iv_start iv) →
  ∀ se, last (ideal_times t ts) = Some se → ∃ iv, iv ∈ ivs ∧ se.2 ⊑ iv_end iv.
Proof.
  revert ts. induction ivs as [|iv ivs IH]; intros ts t Hb Hs Hr Ht se Hl; inversion Hb as [|? tk ? ts' [Hid Hend] Hb']; subst; [done|].
  inversion Hs as [|? ? Hs' Hall]; subst. apply Forall_cons in Hr as [Hr Hr'].
  assert ((t + runtime tk)%num ⊑ iv_end iv) as He.
  { rewrite Hend. apply num_add_mono; [done|]. apply Ht. by left. }
  cbn [ideal_times] in Hl. destruct (ideal_times (t + runtime tk)%num ts') as [|p l] eqn:Hi.
  - injection Hl as <-. exists iv. split; [by left|done].
  - rewrite last_cons_cons, <-Hi in Hl. edestruct (IH ts' (t + runtime tk)%num) as (iv' & Hin & Hle); [done|done|done| |exact Hl|].
    + intros iv' Hin. rewrite Forall_forall in Hall. eapply num_leb_trans; [exact He|by apply Hall].
    + exists iv'. split; [by right|done].
Qed.

Lemma foldl_num_max (ivs : list (TaskInterval T)) : ∀ m,
  m ⊑ foldl (λ m iv, num_max m (iv_end iv)) m ivs ∧
  ∀ iv, iv ∈ ivs → iv_end iv ⊑ foldl (λ m iv, num_max m (iv_end iv)) m ivs.
Proof.
  induction ivs as [|iv ivs IH]; intros m; cbn [foldl]; [split; [apply num_leb_refl|by intros iv ?%elem_of_nil]|].
  destruct (IH (num_max m (iv_end iv))) as [I1 I2]. split.
  - eapply num_leb_trans; [apply num_max_l|exact I1].
  - intros iv' [->|Hin]%elem_of_cons; [eapply num_leb_trans; [apply num_max_r|exact I1]|by apply I2].
Qed.

Lemma makespan_covers log m iv : makespan_of log = Ok m → iv ∈ task_intervals log → iv_end iv ⊑ m.
Proof.
  unfold makespan_of. destruct (task_intervals log) as [|iv0 ivs]; [done|]. intros [= <-].
  destruct (foldl_num_max ivs (iv_end iv0)) as [M1 M2]. intros [->|Hin]%elem_of_cons; [done|by apply M2].
Qed.

(** Without tasks there is no bar. *)
Lemma no_tasks_no_makespan chain m : tasks chain = [] → simulated_makespan chain = Ok m → False.
Proof.
  intros Hn. unfold simulated_makespan. intros (log & Hlog & Hm)%result_bind_ok. unfold of_sim in Hlog.
  destruct (run chain true false false) as [log'|] eqn:Hr; [|done]. injection Hlog as ->.
  unfold run in Hr. apply result_bind_ok in Hr as (u & _ & Hr). unfold run_impl in Hr. apply result_bind_ok in Hr as (s0 & Hs0 & Hr).
  unfold start_state in Hs0. rewrite result_bind_ok in Hs0. destruct Hs0 as ([p [a b]] & _ & Hs0).
  apply result_bind_ok in Hs0 as (u' & _ & [= <-]).
  destruct (run_body chain false false ∅ (initial_sim p a b)) as [[v|e] s] eqn:Hb; [|done]. injection Hr as <-.
  assert (wp (run_body chain false false ∅) (initial_sim p a b) (λ _ s, intervals s = []) (λ _ _, True)) as Hw.
  { unfold run_body. rewrite Hn. cbn [forI_]. apply wp_ret_bind. unfold final_drain. apply wp_bind_assoc.
    apply wp_get_bind. cbn [final_drain_loop]. apply wp_bind_assoc. apply wp_get_bind. cbn [fl_from fl_to initial_sim]. apply wp_ret_bind.
    unfold check_stuck. apply wp_get_bind. by apply wp_check. }
  unfold wp in Hw. rewrite Hb in Hw. unfold makespan_of, event_log in Hm. simpl in Hm. by rewrite Hw in Hm.
Qed.

Lemma ideal_times_runtimes (ts ts' : list (Task T)) : Forall2 same_work ts ts' → ∀ t, ideal_times t ts' = ideal_times t ts.
Proof.
  induction 1 as [|tk tk' ts ts' Hw _ IH]; intros t; [done|]. cbn [ideal_times]. by rewrite (sw_runtime _ _ Hw), IH.
Qed.

Lemma good_bound bare c : runtimes_nonneg bare → good bare c → compute_lower_bound bare ⊑ cd_makespan c.
Proof.
  intros Hr [Hp Hm]. pose proof (po_tasks _ _ Hp) as Hw. unfold compute_lower_bound.
  destruct (last (ideal_times num_zero (tasks bare))) as [se|] eqn:Hl.
  2: { destruct (tasks bare) as [|tk ts] eqn:Ht; [|by rewrite last_None in Hl].
       assert (tasks (cd_chain c) = []) by (by inversion Hw). exfalso. by eapply no_tasks_no_makespan. }
  rewrite <-(ideal_times_runtimes _ _ Hw) in Hl. unfold simulated_makespan in Hm.
  apply result_bind_ok in Hm as (log & Hlog & Hm). unfold of_sim in Hlog.
  destruct (run (cd_chain c) true false false) as [log'|] eqn:Hrun; [|done]. injection Hlog as ->.
  assert (runtimes_nonneg (cd_chain c)) as Hr'.
  { unfold runtimes_nonneg in *. clear -Hr Hw. induction Hw as [|t t' ts ts' Hw _ IH]; [done|].
    apply Forall_cons in Hr as [Hr Hr']. constructor; [by rewrite (sw_runtime _ _ Hw)|by apply IH]. }
  unfold run in Hrun. apply result_bind_ok in Hrun as (u & _ & Hrun). apply run_impl_timeline in Hrun as (Hb & Hs & Hz); [|done].
  destruct (bars_bound _ _ num_zero Hb (Hs track_compute) Hr' Hz se Hl) as (iv & Hin & Hle).
  eapply num_leb_trans; [exact Hle|]. eapply makespan_covers; [exact Hm|]. unfold track_ivs in Hin.
  by apply list_elem_of_filter in Hin as [_ Hin].
Qed.
End Bound.

(** ** The whole portfolio *)
Section Whole.
Context {T : Type} `{Num T}.
Implicit Types (bare : TaskChain T) (f : Facts T).

Definition rule_candidates bare f (fit : IntervalSet) (res : ResidencySpec) (rules : list RuleSpec) : list (Candidate (T:=T)) :=
  omap (λ rule, match verify_candidate res rule bare f fit with
                | Ok (m, ann) => Some (mkCandidate m ann (rs_name res ++ "/" ++ ru_name rule)%string)
                | Err _ => None
                end) rules.

(** Every valid candidate of the portfolio, in order. *)
Definition all_candidates bare f (seed : IntervalSet) (rules : list RuleSpec) (specs : list ResidencySpec) : list (Candidate (T:=T)) :=
  specs ≫= λ res,
    match reduce_to_fit f seed (fast_memory_capacity bare) (replicate (Z.to_nat (f_n f) + 1) 0)
            (rs_cut_score res) (rs_headroom res) (rs_continue res) with
    | Ok fit => rule_candidates bare f fit res rules
    | Err _ => []
    end.

(** A part of the candidates was evaluated: all of them, or up to one that
    reaches the bound. *)
Definition evaluated (bound : T) (all dn : list (Candidate (T:=T))) (reached : bool) : Prop :=
  ∃ rest, all = dn ++ rest ∧ if reached then ∃ c, c ∈ dn ∧ (cd_makespan c =? bound)%num = true else rest = [].

Lemma evaluate_rules_spec bare f fit res bound rules : ∀ s, se_reached s = false →
  let s' := evaluate_rules bare f fit res bound rules s in
  ∃ dn, se_results s' = se_results s ++ dn ∧ evaluated bound (rule_candidates bare f fit res rules) dn (se_reached s').
Proof.
  induction rules as [|rule rules IH]; intros s Hs; cbn [evaluate_rules].
  - exists []. rewrite app_nil_r. split; [done|]. exists []. by rewrite Hs.
  - unfold rule_candidates. cbn [omap list_omap]. destruct (verify_candidate res rule bare f fit) as [[m ann]|e].
    + set (c := mkCandidate m ann _). destruct ((m =? bound)%num) eqn:Hm.
      * exists [c]. split; [done|]. eexists. split; [done|]. exists c. split; [by left|done].
      * match goal with |- context [evaluate_rules _ _ _ _ _ rules ?s1] => destruct (IH s1) as (dn & Hd & rest & Hall & Hr); [done|] end.
        exists (c :: dn). rewrite Hd. cbn [se_results].
        rewrite <-app_assoc. split; [done|]. exists rest. split; [change (omap _ rules) with (rule_candidates bare f fit res rules); by rewrite Hall|].
        match goal with |- if ?b then _ else _ => destruct b end; [|done]. destruct Hr as (x & Hx & Hxm). exists x. split; [by right|done].
    + match goal with |- context [evaluate_rules _ _ _ _ _ rules ?s1] => apply (IH s1 Hs) end.
Qed.

Lemma search_specs_spec bare f seed bound rules specs : ∀ s, se_reached s = false →
  let s' := search_specs bare f seed bound rules specs s in
  ∃ dn, se_results s' = se_results s ++ dn ∧ evaluated bound (all_candidates bare f seed rules specs) dn (se_reached s').
Proof.
  induction specs as [|res specs IH]; intros s Hs; cbn [search_specs].
  - exists []. rewrite app_nil_r. split; [done|]. exists []. by rewrite Hs.
  - unfold all_candidates. cbn [mbind list_bind]. destruct (reduce_to_fit _ _ _ _ _ _ _) as [fit|e].
    + destruct (evaluate_rules_spec bare f fit res bound rules s Hs) as (dn & Hd & rest & Hall & Hr). rewrite Hall.
      set (s1 := evaluate_rules _ _ _ _ _ _ _) in *. destruct (se_reached s1) eqn:Hre.
      * exists dn. split; [done|]. eexists. rewrite <-app_assoc. split; [done|]. by rewrite Hre.
      * destruct (IH s1 Hre) as (dn2 & Hd2 & rest2 & Hall2 & Hr2). exists (dn ++ dn2). rewrite Hd2, Hd, <-app_assoc. split; [done|].
        exists rest2. rewrite Hr, app_nil_r. split; [rewrite <-app_assoc; f_equal; exact Hall2|].
        match goal with |- if ?b then _ else _ => destruct b end; [|done]. destruct Hr2 as (x & Hx & Hxm). exists x. split; [by apply elem_of_app; right|done].
    + match goal with |- context [search_specs _ _ _ _ _ specs ?s1] => apply (IH s1 Hs) end.
Qed.

Lemma all_candidates_good bare f seed rules specs : Forall (good bare) (all_candidates bare f seed rules specs).
Proof.
  apply Forall_forall. intros c (res & Hc & _)%list_elem_of_bind. destruct (reduce_to_fit _ _ _ _ _ _ _) as [fit|]; [|by apply elem_of_nil in Hc].
  apply list_elem_of_omap in Hc as (rule & _ & Hc). destruct (verify_candidate _ _ _ _ _) as [[m ann]|] eqn:Hv; [|done].
  injection Hc as <-. by apply verify_candidate_plan in Hv.
Qed.
End Whole.

Section Best.
Context {T : Type} `{NumLaws T}.

Lemma candidate_leb_le (a b : Candidate (T:=T)) : candidate_leb a b = true ↔ num_leb (cd_makespan a) (cd_makespan b) = true.
Proof. unfold candidate_leb. rewrite negb_true_iff. apply num_ltb_false. Qed.

End Best.

(** ** Examples *)
Open Scope string_scope.
Open Scope Z_scope.

Definition roomy_chain : TaskChain Z := with_capacity gap_chain (Some 20) (tasks gap_chain).
Definition roomy_seed : IntervalSet := initial_residency (build_facts roomy_chain) {["w"]}.



(** A chain without tasks: the planner has cases for it, the simulator accepts it. *)
Definition idle_chain : TaskChain Z := mkChain [mkObject "w" 4 Backing "weight"] [] [] (Some 8) None (Some 1) (Some 1).

(** planning a chain without tasks raises [max() of an empty sequence],
    although the chain is valid and runs, and the planner handles the absence
    of tasks in the initial placement and in the compute bound. *)
Theorem idle_chain_not_planned :
  pressurefit idle_chain None "greedy" None 0 = Err EmptyMax ∧
  validate_planning_input idle_chain = Ok tt ∧ compute_lower_bound idle_chain = 0 ∧
  ∃ log, run idle_chain true false false = Ok log.
Proof. split_and!; [vm_compute; reflexivity..|]. eexists. vm_compute. reflexivity. Qed.

(** An object that starts in both memories and is first used by the second task. *)
Definition both_chain : TaskChain Z :=
  mkChain [mkObject "w" 4 Backing "weight"; mkObject "w" 4 Fast "weight"]
    [bare_task "t0" [] [mkOutput "x" 4 Fast "act"]; bare_task "t1" ["x"; "w"] []]
    [] (Some 12) None (Some 1) (Some 1).

(** an object that starts in both memories is planned as if it were only
    in backing memory: unless the initial placement happens to include it,
    every candidate prefetches it onto its live copy and is rejected, so
    planning fails on a chain that runs as it is. *)
Theorem both_memories_not_planned :
  pressurefit both_chain None "task0" None 0 = Err (SimFailed (ValidationFailed (prefetch_already_on_compute "t0" "w"))) ∧
  (∃ log, run both_chain true false false = Ok log) ∧
  ∃ plan diag, pressurefit both_chain None "greedy" None 0 = Ok (plan, diag).
Proof. split_and!; [vm_compute; reflexivity|eexists; vm_compute; reflexivity|do 2 eexists; vm_compute; reflexivity]. Qed.
