(* ===== verification/SvcAlloc.v ===== *)
(** * The store's slab allocator ([dataflow/service/store.py], [SlabAllocator])

    First fit over a free list in address order; a release puts the extent back
    and coalesces.  [AllocInv a live]: the free extents and the [live] ones
    tile the slab, each byte belonging to exactly one of them.  [Tight a]: the
    free list is sorted and has no two touching extents; it is kept as long as
    no empty extent is released. *)
From S2P Require Import Prelude.
From stdpp Require Import base tactics option list sets sorting.
From Stdlib Require Import ZArith Lia.
Open Scope Z_scope.

Definition ALIGN : Z := 4096.

Record Extent := mkExtent { offset : Z; size : Z }.
#[export] Instance extent_eq_dec : EqDecision Extent.
Proof. solve_decision. Defined.

Record SlabAllocator := mkAlloc {
  capacity : Z;
  free : list Extent;
  used_bytes : Z;
  peak_bytes : Z;
}.

Definition new_allocator (capacity : Z) : SlabAllocator := mkAlloc capacity [mkExtent 0 capacity] 0 0.

(** [-(-size // ALIGN) * ALIGN]. *)
Definition need_of (size : Z) : Z := - (- size / ALIGN) * ALIGN.

Definition largest_free (l : list Extent) : Z :=
  match l with [] => 0 | e :: l => foldl (λ m e, Z.max m (size e)) (size e) l end.

(** The CAPACITY error of [alloc] with the numbers of its message and detail. *)
Record Exhausted := mkExhausted { ex_need : Z; ex_aligned : Z; ex_largest : Z; ex_free_total : Z }.

(** The scan of [alloc]: the extent carved from the first that is large enough,
    and the free list it leaves. *)
Fixpoint first_fit (need : Z) (l : list Extent) : option (Extent * list Extent) :=
  match l with
  | [] => None
  | ext :: l =>
      if need <=? size ext then
        Some (mkExtent (offset ext) need,
              if size ext =? need then l
              else mkExtent (offset ext + need) (size ext - need) :: l)
      else match first_fit need l with
           | Some (got, l) => Some (got, ext :: l)
           | None => None
           end
  end.

Definition alloc (sz : Z) : M SlabAllocator Exhausted Extent := λ a,
  let need := need_of sz in
  match first_fit need (free a) with
  | Some (got, l) =>
      let u := used_bytes a + need in
      (Ok got, mkAlloc (capacity a) l u (if peak_bytes a <? u then u else peak_bytes a))
  | None =>
      (Err (mkExhausted sz need (largest_free (free a)) (capacity a - used_bytes a)), a)
  end.

(** [self.free.insert(lo, ext)]: before the first extent with a larger offset. *)
Fixpoint insert_extent (ext : Extent) (l : list Extent) : list Extent :=
  match l with
  | [] => [ext]
  | e :: l => if offset ext <? offset e then ext :: e :: l else e :: insert_extent ext l
  end.

(** The coalescing loop; [merged] has its last element first. *)
Definition merge_one (merged : list Extent) (e : Extent) : list Extent :=
  match merged with
  | m :: rest =>
      if offset m + size m =? offset e then mkExtent (offset m) (size m + size e) :: rest
      else e :: merged
  | [] => [e]
  end.
Definition coalesce (l : list Extent) : list Extent := reverse (foldl merge_one [] l).

Definition release (ext : Extent) (a : SlabAllocator) : SlabAllocator :=
  mkAlloc (capacity a) (coalesce (insert_extent ext (free a)))
    (used_bytes a - size ext) (peak_bytes a).

Record Stats := mkStats {
  st_capacity_bytes : Z; st_used_bytes : Z; st_peak_bytes : Z; st_free_bytes : Z;
  st_largest_free_extent : Z; st_free_extents : Z;
}.
Definition stats (a : SlabAllocator) : Stats :=
  mkStats (capacity a) (used_bytes a) (peak_bytes a) (capacity a - used_bytes a)
    (largest_free (free a)) (Z.of_nat (length (free a))).

(** ** The tiling *)

(** How many of the extents hold the byte [x]. *)
Definition holds (e : Extent) (x : Z) : Prop := offset e ≤ x < offset e + size e.
#[export] Instance holds_dec e x : Decision (holds e x).
Proof. unfold holds. apply _. Defined.
Definition hold1 (x : Z) (e : Extent) : Z := if decide (holds e x) then 1 else 0.
Definition covers (l : list Extent) (x : Z) : Z := sumZ (hold1 x <$> l).

Definition within (cap : Z) (e : Extent) : Prop :=
  0 ≤ offset e ∧ 0 ≤ size e ∧ offset e + size e ≤ cap.

Record AllocInv (a : SlabAllocator) (live : list Extent) : Prop := {
  al_within : Forall (within (capacity a)) (free a ++ live);
  al_tiles : ∀ x, 0 ≤ x < capacity a → covers (free a ++ live) x = 1;
  al_used : used_bytes a = sumZ (size <$> live);
  al_total : used_bytes a + sumZ (size <$> free a) = capacity a;
  al_peak : used_bytes a ≤ peak_bytes a ≤ capacity a;
}.

(** Two extents without a common byte. *)
Definition disjoint_extents (e f : Extent) : Prop := ∀ x, ¬ (holds e x ∧ holds f x).

Lemma alloc_covers_app l1 l2 x : covers (l1 ++ l2) x = covers l1 x + covers l2 x.
Proof. unfold covers. by rewrite fmap_app, sumZ_app. Qed.
Lemma alloc_covers_cons e l x : covers (e :: l) x = hold1 x e + covers l x.
Proof. done. Qed.
Lemma covers_perm l1 l2 x : Permutation l1 l2 → covers l1 x = covers l2 x.
Proof. intros Hp. unfold covers. apply sumZ_perm. by rewrite Hp. Qed.
Lemma hold1_nonneg x e : 0 ≤ hold1 x e.
Proof. unfold hold1. destruct (decide _); lia. Qed.
Lemma covers_nonneg l x : 0 ≤ covers l x.
Proof. induction l as [|e l IH]; [done|]. rewrite alloc_covers_cons. pose proof (hold1_nonneg x e). lia. Qed.
Lemma covers_elem l e x : e ∈ l → holds e x → 1 ≤ covers l x.
Proof.
  intros (l1 & l2 & ->)%list_elem_of_split Hx. rewrite alloc_covers_app, alloc_covers_cons.
  unfold hold1. rewrite decide_True by done. pose proof (covers_nonneg l1 x). pose proof (covers_nonneg l2 x). lia.
Qed.
Lemma covers_positive l x : 1 ≤ covers l x → ∃ e, e ∈ l ∧ holds e x.
Proof.
  induction l as [|e l IH]; [done|]. rewrite alloc_covers_cons. unfold hold1.
  destruct (decide (holds e x)) as [Hx|_]; intros Hc; [set_solver|].
  destruct IH as (f & Hf & Hx); [lia|]. set_solver.
Qed.

Lemma sizes_app l1 l2 : sumZ (size <$> l1 ++ l2) = sumZ (size <$> l1) + sumZ (size <$> l2).
Proof. by rewrite fmap_app, sumZ_app. Qed.

(** A byte belongs to one extent only. *)
Lemma tiles_disjoint cap l1 e l2 f l3 :
  Forall (within cap) (l1 ++ e :: l2 ++ f :: l3) →
  (∀ x, 0 ≤ x < cap → covers (l1 ++ e :: l2 ++ f :: l3) x = 1) → disjoint_extents e f.
Proof.
  intros Hw Ht x [He Hf]. rewrite Forall_app, Forall_cons in Hw. destruct Hw as (_ & Hwe & _).
  assert (0 ≤ x < cap) as Hx by (unfold within, holds in *; lia). specialize (Ht x Hx).
  rewrite alloc_covers_app, alloc_covers_cons, alloc_covers_app, alloc_covers_cons in Ht.
  unfold hold1 in Ht. rewrite !decide_True in Ht by done.
  pose proof (covers_nonneg l1 x). pose proof (covers_nonneg l2 x). pose proof (covers_nonneg l3 x). lia.
Qed.

(** *** Sizes *)
Lemma need_of_spec sz : sz ≤ need_of sz < sz + ALIGN ∧ (ALIGN | need_of sz).
Proof.
  unfold need_of, ALIGN. split; [|by exists (- (- sz / 4096))].
  pose proof (Z.div_mod (- sz) 4096). pose proof (Z.mod_pos_bound (- sz) 4096). lia.
Qed.
Lemma need_of_nonneg sz : 0 ≤ sz → 0 ≤ need_of sz.
Proof. intros H. pose proof (need_of_spec sz). lia. Qed.

(** *** First fit *)
Lemma first_fit_spec need l :
  match first_fit need l with
  | Some (got, l') => ∃ l1 ext l2, l = l1 ++ ext :: l2 ∧ Forall (λ e, size e < need) l1 ∧ need ≤ size ext ∧
      got = mkExtent (offset ext) need ∧
      l' = l1 ++ (if size ext =? need then l2 else mkExtent (offset ext + need) (size ext - need) :: l2)
  | None => Forall (λ e, size e < need) l
  end.
Proof.
  induction l as [|ext l IH]; simpl; [constructor|]. destruct (Z.leb_spec need (size ext)) as [Hle|Hlt].
  - exists [], ext, l. done.
  - destruct (first_fit need l) as [[got l']|]; [|by constructor].
    destruct IH as (l1 & e & l2 & -> & Hl1 & Hle & -> & ->). exists (ext :: l1), e, l2.
    split_and!; [done|by constructor|done..].
Qed.

(** *** Merging

    Coalescing changes no byte's count and no total. *)
Lemma merge_one_covers cap m e x :
  Forall (within cap) (e :: m) →
  Forall (within cap) (merge_one m e) ∧ covers (merge_one m e) x = hold1 x e + covers m x ∧
  sumZ (size <$> merge_one m e) = size e + sumZ (size <$> m).
Proof.
  intros Hw. destruct m as [|f m]; cbn [merge_one].
  { rewrite alloc_covers_cons. cbn. split_and!; [done|lia|lia]. }
  destruct (Z.eqb_spec (offset f + size f) (offset e)) as [Heq|Hne]; [|by rewrite !alloc_covers_cons].
  rewrite !Forall_cons in Hw. destruct Hw as (He & Hf & Hm). unfold within in *. split_and!.
  - constructor; simpl; [lia|done].
  - rewrite !alloc_covers_cons. unfold hold1, holds. simpl. repeat destruct (decide _); lia.
  - rewrite !fmap_cons, !sumZ_cons. simpl. lia.
Qed.

Lemma merge_covers cap l m x :
  Forall (within cap) (l ++ m) →
  Forall (within cap) (foldl merge_one m l) ∧ covers (foldl merge_one m l) x = covers l x + covers m x ∧
  sumZ (size <$> foldl merge_one m l) = sumZ (size <$> l) + sumZ (size <$> m).
Proof.
  revert m. induction l as [|e l IH]; intros m Hw; [done|]. cbn [foldl].
  rewrite <-app_comm_cons, Forall_cons, Forall_app in Hw. destruct Hw as (He & Hl & Hm).
  destruct (merge_one_covers cap m e x) as (Hw1 & Hc1 & Hs1); [by constructor|].
  destruct (IH (merge_one m e)) as (Hw2 & Hc2 & Hs2); [by apply Forall_app|].
  split; [done|]. rewrite Hc2, Hs2, Hc1, Hs1, alloc_covers_cons, fmap_cons, sumZ_cons. lia.
Qed.

Lemma insert_extent_perm e l : Permutation (insert_extent e l) (e :: l).
Proof.
  induction l as [|f l IH]; simpl; [done|]. destruct (offset e <? offset f); [done|].
  rewrite IH. apply Permutation_swap.
Qed.

Lemma coalesce_covers cap l x :
  Forall (within cap) l →
  Forall (within cap) (coalesce l) ∧ covers (coalesce l) x = covers l x ∧
  sumZ (size <$> coalesce l) = sumZ (size <$> l).
Proof.
  intros Hw. unfold coalesce. destruct (merge_covers cap l [] x) as (H1 & H2 & H3); [by rewrite app_nil_r|].
  rewrite (covers_perm _ _ x (reverse_Permutation _)), H2. split_and!.
  - by rewrite (reverse_Permutation (foldl _ _ _)).
  - cbn. lia.
  - rewrite (sumZ_perm _ (size <$> foldl merge_one [] l)); [rewrite H3; cbn; lia|].
    by rewrite (reverse_Permutation (foldl _ _ _)).
Qed.

(** *** The operations keep the tiling *)
Lemma alloc_inv_perm a l1 l2 : Permutation l1 l2 → AllocInv a l1 → AllocInv a l2.
Proof.
  intros Hp [H1 H2 H3 H4 H5]. split; [by rewrite <-Hp| |by rewrite <-(sumZ_perm _ _ (fmap_Permutation size _ _ Hp))|done|done].
  intros x Hx. rewrite alloc_covers_app, <-(covers_perm _ _ x Hp), <-alloc_covers_app. by apply H2.
Qed.

Lemma new_allocator_inv cap : 0 ≤ cap → AllocInv (new_allocator cap) [].
Proof.
  intros Hc. split; simpl; [| |lia..].
  - repeat constructor; simpl; lia.
  - intros x Hx. unfold covers, hold1, holds. simpl. rewrite decide_True by lia. done.
Qed.

Lemma alloc_spec a live sz :
  0 ≤ sz → AllocInv a live →
  wp (alloc sz) a
    (λ ext a', AllocInv a' (ext :: live) ∧ ext.(size) = need_of sz ∧ capacity a' = capacity a)
    (λ _ a', a' = a ∧ Forall (λ e, size e < need_of sz) (free a)).
Proof.
  intros Hsz [H1 H2 H3 H4 H5]. pose proof (need_of_nonneg sz Hsz) as Hn.
  unfold wp, alloc. pose proof (first_fit_spec (need_of sz) (free a)) as Hf.
  destruct (first_fit _ _) as [[got l]|]; [|done].
  destruct Hf as (l1 & ext & l2 & Hl & _ & Hle & -> & ->). rewrite Hl in *.
  set (rest := if size ext =? need_of sz then l2 else _ :: l2).
  rewrite <-app_assoc, Forall_app, <-app_comm_cons, Forall_cons, Forall_app in H1.
  destruct H1 as (Hw1 & Hwe & Hw2 & Hwl).
  assert (∀ x, covers rest x + hold1 x (mkExtent (offset ext) (need_of sz)) = hold1 x ext + covers l2 x) as Hc.
  { intros x. unfold rest, within in *. destruct (Z.eqb_spec (size ext) (need_of sz)) as [Heq|Hne];
      rewrite ?alloc_covers_cons; unfold hold1, holds; simpl; repeat destruct (decide _); lia. }
  assert (sumZ (size <$> rest) + need_of sz = size ext + sumZ (size <$> l2)) as Hs.
  { unfold rest. destruct (Z.eqb_spec (size ext) (need_of sz)) as [Heq|Hne];
      rewrite ?fmap_cons, ?sumZ_cons; simpl; lia. }
  assert (Forall (within (capacity a)) rest) as Hwr.
  { unfold rest, within in *. destruct (_ =? _); [done|]. constructor; simpl; [lia|done]. }
  clearbody rest. assert (sumZ (size <$> l1 ++ rest) = capacity a - used_bytes a - need_of sz) as Ht.
  { rewrite sizes_app in *. rewrite fmap_cons, sumZ_cons in H4. lia. }
  split_and!; [|done|done]. split; cbn [capacity free used_bytes peak_bytes].
  - rewrite <-app_assoc, !Forall_app, Forall_cons. unfold within in *. simpl. split_and!; first [done|lia].
  - intros x Hx. specialize (H2 x Hx). specialize (Hc x).
    rewrite !alloc_covers_app, !alloc_covers_cons in *. lia.
  - rewrite fmap_cons, sumZ_cons. simpl. lia.
  - lia.
  - assert (0 ≤ sumZ (size <$> l1 ++ rest)).
    { apply sumZ_nonneg, Forall_fmap. eapply Forall_impl; [by apply Forall_app|]. unfold within. simpl. lia. }
    destruct (Z.ltb_spec (peak_bytes a) (used_bytes a + need_of sz)); lia.
Qed.

Lemma release_inv a ext live : AllocInv a (ext :: live) → AllocInv (release ext a) live.
Proof.
  intros [H1 H2 H3 H4 H5]. rewrite Forall_app, Forall_cons in H1. destruct H1 as (Hwf & Hwe & Hwl).
  rewrite fmap_cons, sumZ_cons in H3.
  assert (Forall (within (capacity a)) (insert_extent ext (free a))) as Hwi.
  { rewrite (insert_extent_perm ext). by constructor. }
  assert (sumZ (size <$> insert_extent ext (free a)) = size ext + sumZ (size <$> free a)) as Hs.
  { rewrite (sumZ_perm _ _ (fmap_Permutation size _ _ (insert_extent_perm ext (free a)))). by rewrite fmap_cons. }
  destruct (coalesce_covers _ _ 0 Hwi) as (Hw & _ & Ht). split; cbn [release capacity free used_bytes peak_bytes].
  - by apply Forall_app.
  - intros x Hx. specialize (H2 x Hx). destruct (coalesce_covers _ _ x Hwi) as (_ & Hc & _).
    rewrite alloc_covers_app, Hc, (covers_perm _ _ x (insert_extent_perm ext (free a))), alloc_covers_cons.
    rewrite alloc_covers_app, alloc_covers_cons in H2. lia.
  - lia.
  - lia.
  - unfold within in Hwe. lia.
Qed.

(** ** Coalescing *)
Definition apart (e f : Extent) : Prop := offset e + size e < offset f.
Definition before (e f : Extent) : Prop := offset e + size e ≤ offset f.

Record Tight (a : SlabAllocator) : Prop := {
  ti_sorted : StronglySorted apart (free a);
  ti_positive : Forall (λ e, 0 < size e) (free a);
}.

Lemma StronglySorted_weaken {A} (R R' : A → A → Prop) (l : list A) :
  (∀ x y, R x y → R' x y) → StronglySorted R l → StronglySorted R' l.
Proof. intros HR. induction 1; constructor; [done|]. eapply Forall_impl; [done|]. auto. Qed.

Lemma StronglySorted_reverse {A} (R : A → A → Prop) (l : list A) :
  StronglySorted (flip R) l → StronglySorted R (reverse l).
Proof.
  induction 1 as [|x l Hl IH Hx]; [constructor|]. rewrite reverse_cons.
  apply StronglySorted_app_iff. split_and!; [done|by repeat constructor|].
  intros y z Hy ->%list_elem_of_singleton. rewrite (reverse_Permutation l) in Hy.
  rewrite Forall_forall in Hx. by apply Hx.
Qed.

Lemma merge_one_tight m e l :
  StronglySorted (flip apart) m → Forall (λ e, 0 < size e) (e :: l ++ m) → StronglySorted before (e :: l) →
  (∀ f g, f ∈ m → g ∈ e :: l → before f g) →
  StronglySorted (flip apart) (merge_one m e) ∧ Forall (λ e, 0 < size e) (l ++ merge_one m e) ∧
  (∀ f g, f ∈ merge_one m e → g ∈ l → before f g).
Proof.
  intros Hm Hp Hl Hb. apply Forall_cons in Hp as [Hpe Hp]. apply Forall_app in Hp as [Hpl Hpm].
  inversion Hl as [|? ? Hs Hel]; subst. rewrite Forall_forall in Hel.
  destruct m as [|f m]; cbn [merge_one].
  { split_and!; [by repeat constructor|apply Forall_app; by repeat constructor|].
    intros ? g ->%list_elem_of_singleton Hg. auto. }
  inversion Hm as [|? ? Hs' Hf]; subst. apply Forall_cons in Hpm as [Hpf Hpm].
  assert (before f e) as Hfe by (apply Hb; set_solver).
  assert (∀ g, g ∈ l → before f g) as Hfl by (intros g Hg; apply Hb; set_solver).
  destruct (Z.eqb_spec (offset f + size f) (offset e)) as [Heq|Hne]; split_and!.
  - constructor; [done|]. eapply Forall_impl; [exact Hf|]. unfold apart. simpl. lia.
  - apply Forall_app. split; [done|]. constructor; simpl; [lia|done].
  - intros g h [->|Hg]%elem_of_cons Hh; [|apply Hb; by apply list_elem_of_further].
    specialize (Hel h Hh). unfold before in *. simpl. lia.
  - constructor; [done|]. constructor; [unfold before, apart in *; simpl; lia|].
    eapply Forall_impl; [exact Hf|]. unfold before, apart in *. simpl. intros g. lia.
  - apply Forall_app. split; [done|]. by repeat constructor.
  - intros g h [->|Hg]%elem_of_cons Hh; [by apply Hel|apply Hb; [done|by apply list_elem_of_further]].
Qed.

Lemma merge_tight l m :
  StronglySorted (flip apart) m → Forall (λ e, 0 < size e) (l ++ m) → StronglySorted before l →
  (∀ f g, f ∈ m → g ∈ l → before f g) →
  StronglySorted (flip apart) (foldl merge_one m l) ∧ Forall (λ e, 0 < size e) (foldl merge_one m l).
Proof.
  revert m. induction l as [|e l IH]; intros m Hm Hp Hl Hb; [done|]. cbn [foldl].
  destruct (merge_one_tight m e l) as (H1 & H2 & H3); [done..|].
  apply IH; [done..| |done]. by inversion Hl.
Qed.

Lemma insert_extent_sorted e l :
  StronglySorted before l → (∀ f, f ∈ l → before e f ∨ before f e) →
  0 < size e → Forall (λ e, 0 < size e) l → StronglySorted before (insert_extent e l).
Proof.
  intros Hl Hd He. induction Hl as [|f l Hl IH Hf]; intros Hp; simpl; [by repeat constructor|].
  apply Forall_cons in Hp as [Hpf Hp]. rewrite Forall_forall in Hf, Hp.
  destruct (Hd f) as [Hef|Hfe]; [set_solver| |]; unfold before in *.
  - rewrite (proj2 (Z.ltb_lt _ _)) by lia. constructor; [by constructor; [|apply Forall_forall]|].
    constructor; [done|]. apply Forall_forall. intros g Hg. specialize (Hf g Hg). lia.
  - rewrite (proj2 (Z.ltb_ge _ _)) by lia. constructor.
    + apply IH; [set_solver|by apply Forall_forall].
    + rewrite (insert_extent_perm e l). constructor; [done|]. by apply Forall_forall.
Qed.

Lemma alloc_tight a sz : 0 ≤ sz → Tight a →
  wp (alloc sz) a (λ _ a', Tight a') (λ _ a', Tight a').
Proof.
  intros Hsz [Hs Hp]. pose proof (need_of_nonneg sz Hsz) as Hn. unfold wp, alloc.
  pose proof (first_fit_spec (need_of sz) (free a)) as Hf.
  destruct (first_fit _ _) as [[got l]|]; [|by split].
  destruct Hf as (l1 & ext & l2 & Hl & _ & Hle & -> & ->). rewrite Hl in *.
  apply StronglySorted_app_iff in Hs as (H1 & H2 & H3). inversion H2 as [|? ? H4 H5]; subst.
  apply Forall_app in Hp as [Hp1 [Hpe Hp2]%Forall_cons].
  assert (∀ x y, x ∈ l1 → y ∈ l2 → apart x y) as H6 by (intros x y Hx Hy; apply H3; set_solver).
  split; simpl; destruct (Z.eqb_spec (size ext) (need_of sz)) as [Heq|Hne].
  - by apply StronglySorted_app_iff.
  - apply StronglySorted_app_iff. split_and!; [done| |].
    + constructor; [done|]. eapply Forall_impl; [exact H5|]. unfold apart. simpl. lia.
    + intros x y Hx [->|Hy]%elem_of_cons; [|auto]. specialize (H3 x ext Hx ltac:(set_solver)).
      unfold apart in *. simpl. lia.
  - by apply Forall_app.
  - apply Forall_app. split; [done|]. constructor; simpl; [lia|done].
Qed.

Lemma release_tight a ext live :
  AllocInv a (ext :: live) → 0 < size ext → Tight a → Tight (release ext a).
Proof.
  intros [Hw Ht _ _ _] Hpe [Hs Hp].
  assert (StronglySorted before (insert_extent ext (free a))) as Hi.
  { apply insert_extent_sorted; [|intros f Hf|done..].
    - eapply StronglySorted_weaken; [|done]. unfold apart, before. lia.
    - pose proof Hf as (l1 & l2 & Hl)%list_elem_of_split. rewrite Hl, <-app_assoc, <-app_comm_cons in Hw, Ht.
      pose proof (tiles_disjoint _ _ _ _ _ _ Hw Ht) as Hd. rewrite Forall_forall in Hp. specialize (Hp f Hf).
      unfold disjoint_extents, holds, before in *.
      destruct (decide (offset ext + size ext ≤ offset f)); [by left|].
      destruct (decide (offset f + size f ≤ offset ext)); [by right|].
      destruct (Hd (Z.max (offset f) (offset ext))). lia. }
  destruct (merge_tight (insert_extent ext (free a)) []) as [H1 H2]; [constructor| |done|set_solver|].
  { rewrite app_nil_r, (insert_extent_perm ext). by constructor. }
  split; simpl; unfold coalesce; [by apply StronglySorted_reverse|].
  by rewrite (reverse_Permutation (foldl _ _ _)).
Qed.

Lemma new_allocator_tight cap : 0 < cap → Tight (new_allocator cap).
Proof. intros Hc. split; simpl; repeat constructor. done. Qed.

(** When nothing is live the whole slab is one free extent again. *)
Lemma drained_whole a :
  0 < capacity a → AllocInv a [] → Tight a → free a = [mkExtent 0 (capacity a)].
Proof.
  intros Hc [Hw Ht Hu Htot _] [Hs Hp]. rewrite app_nil_r in Hw, Ht. cbn in Hu.
  destruct (free a) as [|e l] eqn:Hl.
  { specialize (Ht 0 ltac:(lia)). cbn in Ht. lia. }
  apply Forall_cons in Hw as [Hwe Hwl]. apply Forall_cons in Hp as [Hpe Hpl].
  inversion Hs as [|? ? Hs' Hel]; subst. rewrite Forall_forall in Hel, Hwl. unfold within in *.
  assert (offset e = 0) as He0.
  { destruct (covers_positive (e :: l) 0) as (f & [->|Hf]%elem_of_cons & Hx).
    - rewrite Ht; lia.
    - unfold holds in Hx. lia.
    - specialize (Hel f Hf). unfold holds, apart in *. lia. }
  destruct l as [|f l].
  { rewrite fmap_cons, sumZ_cons in Htot. cbn in Htot. destruct e; simpl in *. repeat f_equal; lia. }
  exfalso. pose proof (Hel f ltac:(set_solver)) as Hef. pose proof (Hwl f ltac:(set_solver)) as Hwf.
  assert (0 < size f) as Hpf by by apply Forall_cons in Hpl as [??].
  unfold apart in Hef.
  destruct (covers_positive (e :: f :: l) (offset e + size e)) as (g & [->|Hg]%elem_of_cons & Hx).
  - rewrite Ht; lia.
  - unfold holds in Hx. lia.
  - inversion Hs' as [|? ? _ Hfl]; subst. rewrite Forall_forall in Hfl.
    apply elem_of_cons in Hg as [->|Hg]; [unfold holds in Hx; lia|].
    specialize (Hfl g Hg). unfold holds, apart in *. lia.
Qed.

(** ** Both together

    [strict]: the requests are all positive, so that no live extent is empty
    and the free list stays coalesced. *)
Section ok.
Context (strict : Prop).

Record AllocOk (a : SlabAllocator) (live : list Extent) : Prop := {
  ok_inv : AllocInv a live;
  ok_tight : strict → Tight a ∧ Forall (λ e, 0 < size e) live;
}.

Lemma alloc_ok_perm a l1 l2 : Permutation l1 l2 → AllocOk a l1 → AllocOk a l2.
Proof.
  intros Hp [H1 H2]. split; [by eapply alloc_inv_perm|]. intros Hs. by rewrite <-Hp; apply H2.
Qed.

Lemma new_allocator_ok cap : 0 < cap → AllocOk (new_allocator cap) [].
Proof. intros Hc. split; [apply new_allocator_inv; lia|]. intros _. by split; [apply new_allocator_tight|]. Qed.

Lemma alloc_ok a live sz :
  0 ≤ sz → (strict → 0 < sz) → AllocOk a live →
  wp (alloc sz) a
    (λ ext a', AllocOk a' (ext :: live) ∧ size ext = need_of sz ∧ capacity a' = capacity a)
    (λ _ a', a' = a ∧ Forall (λ e, size e < need_of sz) (free a)).
Proof.
  intros Hsz Hst [H1 H2]. pose proof (alloc_spec a live sz Hsz H1) as Ha.
  pose proof (λ Hs, alloc_tight a sz Hsz (proj1 (H2 Hs))) as Ht. unfold wp in *.
  destruct (alloc sz a) as [[ext|e] a']; [|done]. destruct Ha as (Ha & Hs & Hc).
  split_and!; [|done|done]. split; [done|]. intros Hst'. split; [by apply Ht|].
  constructor; [|by apply H2]. pose proof (need_of_spec sz). rewrite Hs. specialize (Hst Hst'). lia.
Qed.

Lemma release_ok a ext live : AllocOk a (ext :: live) → AllocOk (release ext a) live.
Proof.
  intros [H1 H2]. split; [by apply release_inv|]. intros Hs. destruct (H2 Hs) as [Ht [He Hl]%Forall_cons].
  split; [by eapply release_tight|done].
Qed.
End ok.
