(* ===== verification/SvcStore.v ===== *)
(** * The resident object store ([dataflow/service/store.py], [Store])

    A catalog of named objects over one slab of bytes, extents reserved for
    inbound peer transfers and scratch, and the transients of runs.  The model is
    the fake boot, whose slab is a bytearray: a pinned slab has the same catalog
    and allocator, and the same bytes as long as every extent lies in the
    slab.  Each method is one step: the dispatcher is the single writer of the
    catalog, and the methods other threads call take [catalog_lock]. *)
From S2P Require Import Prelude SimSchema CoreProgram CoreJson.
From stdpp Require Import base tactics option list gmap strings pretty.
From Stdlib Require Import ZArith Lia Init.Byte.
From S2P Require Import SvcAlloc.
Open Scope Z_scope.

(** [ServiceError] by its code, with the data of its message, and the Python
    exceptions the methods let through. *)
Inductive SvcError :=
| Capacity (e : Exhausted)
| BadRequest
| UnknownObject (oid : string)
| BindingMismatch (oid : string) (resident size : Z)
| Protected (oid : string)
| Leased (oid : string)
| IoError
| UnknownOp (op : string)
| VersionSkew
| Collision (oid : string)
| VerifyFailed (oid : string)
| UnknownSnapshot (id : string)
| UnknownRestore (id : string)
| UnknownProgram (id : string)
| UnknownRun (id : string)
| MissingInputs (oid target : string)
| RunFailed (message : string)
| RunCancelled (message : string)
| InvalidProgramDict
| RuntimeError
| KeyError (k : string)
| ValueError
| TypeError (field : string).

(** ** Byte slices of a bytearray *)
Definition slice_index (len i : Z) : Z := if i <? 0 then Z.max 0 (i + len) else Z.min i len.
Definition slice_bounds (len a b : Z) : Z * Z :=
  let lo := slice_index len a in (lo, Z.max lo (slice_index len b)).

Definition read_slice (a b : Z) (l : list byte) : list byte :=
  let '(lo, hi) := slice_bounds (Z.of_nat (length l)) a b in
  take (Z.to_nat (hi - lo)) (drop (Z.to_nat lo) l).

(** [memoryview(l)[a:b][:] = d] keeps the length. *)
Definition write_slice (a b : Z) (d l : list byte) : option (list byte) :=
  let '(lo, hi) := slice_bounds (Z.of_nat (length l)) a b in
  if Z.of_nat (length d) =? hi - lo
  then Some (take (Z.to_nat lo) l ++ d ++ drop (Z.to_nat hi) l)
  else None.

Section Store.
Context {T : Type} `{Num T}.

Record LastWrite := mkWrite { lw_by : string; lw_t : T }.

Record ObjectRecord := mkRec {
  rec_id : string;
  rec_size_bytes : Z;
  rec_meta : jdict (T := T);
  rec_extent : Extent;
  rec_protected : bool;
  rec_lease_refs : Z;
  rec_version : Z;
  rec_last_write : option LastWrite;
}.

Definition new_record (oid : string) (size : Z) (meta : jdict) (ext : Extent) : ObjectRecord :=
  mkRec oid size meta ext false 0 0 None.

Definition info (r : ObjectRecord) : jdict :=
  [("id", JStr (rec_id r)); ("size_bytes", JInt (rec_size_bytes r)); ("meta", JDict (rec_meta r));
   ("locations", JList [JStr "backing"]); ("protected", JBool (rec_protected r));
   ("last_write", match rec_last_write r with
                  | None => JNull
                  | Some w => JDict [("by", JStr (lw_by w)); ("t", JFloat (lw_t w))]
                  end)]%string.

Definition set_meta (m : jdict) (r : ObjectRecord) : ObjectRecord :=
  mkRec (rec_id r) (rec_size_bytes r) m (rec_extent r) (rec_protected r) (rec_lease_refs r)
    (rec_version r) (rec_last_write r).
Definition set_protected (b : bool) (r : ObjectRecord) : ObjectRecord :=
  mkRec (rec_id r) (rec_size_bytes r) (rec_meta r) (rec_extent r) b (rec_lease_refs r)
    (rec_version r) (rec_last_write r).
Definition add_lease (n : Z) (r : ObjectRecord) : ObjectRecord :=
  mkRec (rec_id r) (rec_size_bytes r) (rec_meta r) (rec_extent r) (rec_protected r)
    (rec_lease_refs r + n) (rec_version r) (rec_last_write r).
Definition set_version (v : Z) (r : ObjectRecord) : ObjectRecord :=
  mkRec (rec_id r) (rec_size_bytes r) (rec_meta r) (rec_extent r) (rec_protected r) (rec_lease_refs r)
    v (rec_last_write r).
Definition set_written (w : LastWrite) (r : ObjectRecord) : ObjectRecord :=
  mkRec (rec_id r) (rec_size_bytes r) (rec_meta r) (rec_extent r) (rec_protected r) (rec_lease_refs r)
    (rec_version r) (Some w).

Record Store := mkStore {
  allocator : SlabAllocator;
  objects : list (string * ObjectRecord);
  mem : list byte;
  transients : list (string * (string * Extent));
}.

Definition new_store (capacity_bytes : Z) : Store :=
  mkStore (new_allocator capacity_bytes) [] (replicate (Z.to_nat capacity_bytes) x00) [].

Definition set_allocator (a : SlabAllocator) (s : Store) : Store :=
  mkStore a (objects s) (mem s) (transients s).
Definition set_objects (o : list (string * ObjectRecord)) (s : Store) : Store :=
  mkStore (allocator s) o (mem s) (transients s).
Definition set_mem (m : list byte) (s : Store) : Store :=
  mkStore (allocator s) (objects s) m (transients s).
Definition set_transients (t : list (string * (string * Extent))) (s : Store) : Store :=
  mkStore (allocator s) (objects s) (mem s) t.

Definition St (A : Type) : Type := M Store SvcError A.

(** ** The allocator and the catalog *)
Definition st_alloc (sz : Z) : St Extent := λ s,
  match alloc sz (allocator s) with
  | (Ok ext, a) => (Ok ext, set_allocator a s)
  | (Err e, a) => (Err (Capacity e), set_allocator a s)
  end.
Definition st_release (ext : Extent) : St unit :=
  modify (λ s, set_allocator (release ext (allocator s)) s).

Definition find_rec (oid : string) (s : Store) : option ObjectRecord := assoc_get (objects s) oid.
Definition set_rec (oid : string) (r : ObjectRecord) : St unit :=
  modify (λ s, set_objects (assoc_set (objects s) oid r) s).
Definition del_rec (oid : string) : St unit :=
  modify (λ s, set_objects (assoc_del (objects s) oid) s).
(** A mutation of the record object that the catalog holds. *)
Definition upd_rec (oid : string) (f : ObjectRecord → ObjectRecord) : St unit :=
  modify (λ s, match find_rec oid s with
               | Some r => set_objects (assoc_set (objects s) oid (f r)) s
               | None => s
               end).

Definition require (oid : string) : St ObjectRecord :=
  s ← get;
  match find_rec oid s with Some r => mret r | None => raise (UnknownObject oid) end.

(** ** Bytes *)
Definition view (ext : Extent) (size : Z) (s : Store) : list byte :=
  read_slice (offset ext) (offset ext + size) (mem s).
Definition view_rec (r : ObjectRecord) (s : Store) : list byte := view (rec_extent r) (rec_size_bytes r) s.

(** [view_extent(ext, size)[:] = data]. *)
Definition fill_extent (ext : Extent) (size : Z) (d : list byte) : St unit :=
  s ← get;
  match write_slice (offset ext) (offset ext + size) d (mem s) with
  | Some m => modify (set_mem m)
  | None => raise ValueError
  end.
Definition write_rec (r : ObjectRecord) (d : list byte) : St unit :=
  fill_extent (rec_extent r) (rec_size_bytes r) d.

(** ** Create and write *)
Definition or_empty (meta : option (jdict (T := T))) : jdict := default [] meta.

(** The record [put] writes to: the resident of that name and size, or a new one. *)
Definition put_target (oid : string) (size : Z) (meta : option jdict) : St ObjectRecord :=
  s ← get;
  match find_rec oid s with
  | Some r =>
      check (rec_lease_refs r =? 0) (Leased oid) ;;
      check (rec_size_bytes r =? size) (BindingMismatch oid (rec_size_bytes r) size) ;;
      mret r
  | None =>
      ext ← st_alloc size;
      let r := new_record oid size (or_empty meta) ext in
      set_rec oid r ;;
      mret r
  end.

Definition put (now : T) (oid : string) (data : option (list byte)) (size_bytes : option Z)
    (meta : option jdict) (writer : string) : St ObjectRecord :=
  let size_bytes := match data with Some d => Some (Z.of_nat (length d)) | None => size_bytes end in
  match size_bytes with
  | None => raise BadRequest
  | Some size =>
      r ← put_target oid size meta;
      when (nonempty (or_empty meta)) (upd_rec oid (set_meta (or_empty meta))) ;;
      (match data with Some d => write_rec r d | None => mret tt end) ;;
      upd_rec oid (λ r, set_written (mkWrite writer now) (set_version (rec_version r + 1) r)) ;;
      require oid
  end.

(** What the file system answers for a path: the size [stat] reports and the
    successive reads of the open file up to its end; [None]: no such file. *)
Definition FileSystem : Type := string → option (Z * list (list byte)).

Definition READ_CHUNK : Z := 2 ^ 26.

(** The read loop of [put_from_file]; a read fills at most the slice it gets. *)
Fixpoint read_loop (ext : Extent) (size off : Z) (reads : list (list byte)) : St unit :=
  if off <? size then
    match reads with
    | [] => raise IoError
    | chunk :: reads =>
        let got := take (Z.to_nat (Z.min READ_CHUNK (size - off))) chunk in
        if nonempty got then
          fill_extent (mkExtent (offset ext + off) (SvcAlloc.size ext)) (Z.of_nat (length got)) got ;;
          read_loop ext size (off + Z.of_nat (length got)) reads
        else raise IoError
    end
  else mret tt.

Definition put_from_file (fs : FileSystem) (now : T) (oid path : string) (meta : option jdict)
    (writer : string) : St ObjectRecord :=
  match fs path with
  | None => raise IoError
  | Some (size, reads) =>
      r ← put now oid None (Some size) meta writer;
      read_loop (rec_extent r) size 0 reads ;;
      mret r
  end.

(** ** Read *)
Definition get_bytes (oid : string) : St (list byte) :=
  r ← require oid;
  gets (view_rec r).

(** [get_to_file]: the count it returns and the bytes it writes to the file. *)
Definition get_to_file (oid : string) : St (Z * list byte) :=
  r ← require oid;
  b ← gets (view_rec r);
  mret (rec_size_bytes r, b).

(** ** Lifecycle *)
Definition st_release_object (oid : string) (force : bool) : St bool :=
  s ← get;
  match find_rec oid s with
  | None => mret false
  | Some r =>
      check (negb (rec_protected r && negb force)) (Protected oid) ;;
      check (rec_lease_refs r =? 0) (Leased oid) ;;
      st_release (rec_extent r) ;;
      del_rec oid ;;
      mret true
  end.

Definition protect (oid : string) (value : bool) : St unit :=
  require oid ;;
  upd_rec oid (set_protected value).

Definition resolve_scope (scope : string) : St (list string) :=
  if String.eqb scope "backing" || String.eqb scope "all" then
    gets (λ s, py_sorted String.leb (objects s).*1)
  else if String.eqb scope "fast" then mret []
  else raise BadRequest.

Record Wiped := mkWiped { freed_bytes : Z; n_objects : Z; skipped : list string }.

Fixpoint wipe_loop (force : bool) (ids : list string) (w : Wiped) : St Wiped :=
  match ids with
  | [] => mret w
  | oid :: ids =>
      s ← get;
      match find_rec oid s with
      | None => wipe_loop force ids w
      | Some r =>
          if rec_protected r && negb force then
            wipe_loop force ids (mkWiped (freed_bytes w) (n_objects w) (skipped w ++ [oid]))
          else
            check (rec_lease_refs r =? 0) (Leased oid) ;;
            st_release (rec_extent r) ;;
            del_rec oid ;;
            wipe_loop force ids (mkWiped (freed_bytes w + rec_size_bytes r) (n_objects w + 1) (skipped w))
      end
  end.

Definition reset_peak (a : SlabAllocator) : SlabAllocator :=
  mkAlloc (capacity a) (free a) (used_bytes a) (used_bytes a).

Definition wipe (scope : string) (force : bool) : St Wiped :=
  ids ← resolve_scope scope;
  w ← wipe_loop force ids (mkWiped 0 0 []);
  modify (λ s, set_allocator (reset_peak (allocator s)) s) ;;
  mret w.

(** ** Inbound transfers *)
Inductive Nack := BUSY | COLLISION | CAPACITY.

Definition reserve_inbound (dest_id : string) (size_bytes : Z) (overwrite : bool) : St (Extent + Nack) :=
  s ← get;
  let reserve : St (Extent + Nack) := λ s,
    match st_alloc size_bytes s with
    | (Ok ext, s) => (Ok (inl ext), s)
    | (Err _, s) => (Ok (inr CAPACITY), s)
    end in
  match find_rec dest_id s with
  | Some r =>
      if negb (rec_lease_refs r =? 0) then mret (inr BUSY)
      else if negb overwrite then mret (inr COLLISION)
      else if negb (rec_size_bytes r =? size_bytes) then mret (inr COLLISION)
      else reserve
  | None => reserve
  end.

Definition release_inbound (ext : Extent) : St unit := st_release ext.

Definition adopt_inbound (now : T) (dest_id : string) (ext : Extent) (size_bytes : Z)
    (meta : option jdict) (from_peer : string) : St ObjectRecord :=
  s ← get;
  let old := find_rec dest_id s in
  (match old with
   | Some o =>
       check (rec_lease_refs o =? 0) (Leased dest_id) ;;
       st_release (rec_extent o)
   | None => mret tt
   end) ;;
  let r := new_record dest_id size_bytes (or_empty meta) ext in
  let r := match old with
           | Some o => set_version (rec_version o) (set_protected (rec_protected o) r)
           | None => r
           end in
  let r := set_written (mkWrite ("peer:" +:+ from_peer) now) (set_version (rec_version r + 1) r) in
  set_rec dest_id r ;;
  mret r.

Definition alloc_scratch (nbytes : Z) : St Extent := st_alloc nbytes.
Definition release_scratch (ext : Extent) : St unit := st_release ext.

(** ** Read leases *)
Fixpoint acquire_leases_check (ids : list string) : St unit :=
  match ids with
  | [] => mret tt
  | oid :: ids => require oid ;; acquire_leases_check ids
  end.

Definition acquire_leases (ids : list string) : St unit :=
  acquire_leases_check ids ;;
  forM_ ids (λ oid, upd_rec oid (add_lease 1)).

(** Without the call of [on_lease_release], which the dispatcher's model makes. *)
Definition release_leases (ids : list string) : St unit :=
  forM_ ids (λ oid, upd_rec oid (λ r, if 0 <? rec_lease_refs r then add_lease (-1) r else r)).

Definition rollback_created (ids : list string) : St unit :=
  forM_ ids (λ oid,
    s ← get;
    match find_rec oid s with
    | Some r => del_rec oid ;; st_release (rec_extent r)
    | None => mret tt
    end).

(** ** Duplicate *)
Definition duplicate (now : T) (src dst : string) : St ObjectRecord :=
  r ← require src;
  s ← get;
  check (negb (bool_decide (is_Some (find_rec dst s)))) BadRequest ;;
  ext ← st_alloc (rec_size_bytes r);
  let d := new_record dst (rec_size_bytes r) (rec_meta r) ext in
  set_rec dst d ;;
  b ← gets (view_rec r);
  write_rec d b ;;
  upd_rec dst (set_written (mkWrite ("duplicate:" +:+ src) now)) ;;
  require dst.

(** ** Transients *)
Definition transient_token (n : nat) (owner : string) (off : Z) : string :=
  "t" +:+ pretty n +:+ "-" +:+ owner +:+ "-" +:+ pretty off.

Definition alloc_transient (owner : string) (size_bytes : Z) : St (Extent * string) :=
  ext ← st_alloc size_bytes;
  s ← get;
  let token := transient_token (length (transients s)) owner (offset ext) in
  modify (λ s, set_transients (assoc_set (transients s) token (owner, ext)) s) ;;
  mret (ext, token).

Definition free_transient (token : string) : St unit :=
  s ← get;
  match assoc_get (transients s) token with
  | None => raise (KeyError token)
  | Some (_, ext) =>
      modify (λ s, set_transients (assoc_del (transients s) token) s) ;;
      st_release ext
  end.

(** ** Queries *)
Definition usage_by_owner (s : Store) : list (string * Z) :=
  foldl (λ d t, assoc_set d t.2.1 (default 0 (assoc_get d t.2.1) + size t.2.2)) [] (transients s).

Record Usage := mkUsage {
  us_stats : Stats; us_n_objects : Z; us_resident_bytes : Z;
  us_transient_bytes : Z; us_by_owner : list (string * Z);
}.

Definition usage (s : Store) : Usage :=
  let by_owner := usage_by_owner s in
  mkUsage (stats (allocator s)) (Z.of_nat (length (objects s)))
    (sumZ (rec_size_bytes <$> (objects s).*2)) (sumZ by_owner.*2) by_owner.

(** [sorted(..., key=lambda kv: -kv[1])[:n]]. *)
Definition largest (n : nat) (s : Store) : list (string * Z) :=
  take n (py_sorted (λ a b, b.2 <=? a.2) ((λ r, (rec_id r, rec_size_bytes r)) <$> (objects s).*2)).
End Store.

Arguments ObjectRecord T : clear implicits.
Arguments Store T : clear implicits.
Arguments LastWrite T : clear implicits.
