(* ===== verification/SvcStoreInv.v ===== *)
(** * The store never overlaps

    The callers of the store are its environment: the dispatcher's handlers, the
    network manager that holds inbound reservations, the runs that hold
    transients and write residents in place.  [step] is one call of any of
    them; [held] are the extents that the store handed out and that no catalog
    of the store names.  [StoreInv]: residents, transients, held and free extents
    tile the slab.  The
    mode of a run is the capacity at boot and whether the calls ask for no
    empty extent. *)
From S2P Require Import Prelude SimSchema CoreProgram CoreJson SvcStore.
From stdpp Require Import base tactics option list gmap strings pretty.
From Stdlib Require Import ZArith Lia Ascii Init.Byte.
From S2P Require Import SvcAlloc.
Open Scope Z_scope.

(** ** Byte slices *)
Definition splice (off : nat) (d l : list byte) : list byte :=
  take off l ++ d ++ drop (off + length d) l.

Lemma splice_length off d l : (off + length d ≤ length l)%nat → length (splice off d l) = length l.
Proof. intros Hl. unfold splice. rewrite !length_app, length_take, length_drop. lia. Qed.

Lemma lookup_splice off d l i : (off + length d ≤ length l)%nat →
  splice off d l !! i =
    if decide (off ≤ i < off + length d)%nat then d !! (i - off)%nat else l !! i.
Proof.
  intros Hl. unfold splice. destruct (decide _) as [Hi|Hi].
  - rewrite lookup_app_r by (rewrite length_take; lia). rewrite length_take, Nat.min_l by lia.
    by rewrite lookup_app_l by lia.
  - destruct (decide (i < off)%nat).
    + rewrite lookup_app_l by (rewrite length_take; lia). by rewrite lookup_take_lt by lia.
    + rewrite !lookup_app_r by (rewrite ?length_take; lia).
      rewrite lookup_drop, length_take. f_equal. lia.
Qed.

Lemma slice_splice_apart off d l a n :
  (off + length d ≤ length l)%nat → (a + n ≤ off ∨ off + length d ≤ a)%nat →
  take n (drop a (splice off d l)) = take n (drop a l).
Proof.
  intros Hl Ha. apply list_eq. intros i.
  destruct (decide (i < n)%nat) as [Hi|Hi]; [|by rewrite !lookup_take_ge by lia].
  rewrite !lookup_take_lt, !lookup_drop, lookup_splice by done. by rewrite decide_False by lia.
Qed.

Lemma slice_splice_inside (a off n : nat) (d l : list byte) :
  (a + n ≤ length l)%nat → (off + length d ≤ n)%nat →
  take n (drop a (splice (a + off) d l)) = splice off d (take n (drop a l)).
Proof.
  intros Hl Hd. apply list_eq. intros i. rewrite lookup_splice by (rewrite length_take, length_drop; lia).
  destruct (decide (i < n)%nat) as [Hi|Hi].
  - rewrite !lookup_take_lt, !lookup_drop, lookup_splice by lia.
    destruct (decide (off ≤ i < off + length d)%nat).
    + rewrite decide_True by lia. f_equal. lia.
    + by rewrite decide_False by lia.
  - rewrite decide_False by lia. by rewrite !lookup_take_ge by lia.
Qed.

Lemma splice_splice off c d l : (off + length c + length d ≤ length l)%nat →
  splice (off + length c) d (splice off c l) = splice off (c ++ d) l.
Proof.
  intros Hl. apply list_eq. intros i.
  rewrite !lookup_splice by (rewrite ?splice_length, ?length_app; lia). rewrite length_app.
  destruct (decide (off + length c ≤ i < off + length c + length d)%nat).
  - rewrite decide_True by lia. rewrite lookup_app_r by lia. f_equal. lia.
  - destruct (decide (off ≤ i < off + length c)%nat).
    + rewrite decide_True by lia. by rewrite lookup_app_l by lia.
    + by rewrite decide_False by lia.
Qed.

Lemma splice_nil off l : splice off [] l = l.
Proof. unfold splice. simpl. by rewrite Nat.add_0_r, take_drop. Qed.

Lemma splice_whole d l : length d = length l → splice 0 d l = d.
Proof. intros Hl. unfold splice. rewrite drop_ge by lia. by rewrite app_nil_r. Qed.

Section slices.
Implicit Types (l d : list byte).

Lemma read_slice_in a n l : 0 ≤ a → 0 ≤ n → a + n ≤ Z.of_nat (length l) →
  read_slice a (a + n) l = take (Z.to_nat n) (drop (Z.to_nat a) l).
Proof.
  intros Ha Hn Hl. unfold read_slice, slice_bounds, slice_index.
  rewrite !(proj2 (Z.ltb_ge _ _)) by lia. rewrite !Z.min_l by lia. rewrite Z.max_r by lia.
  do 2 f_equal. lia.
Qed.

Lemma write_slice_in a n d l : 0 ≤ a → 0 ≤ n → a + n ≤ Z.of_nat (length l) →
  write_slice a (a + n) d l =
    if Z.of_nat (length d) =? n then Some (splice (Z.to_nat a) d l) else None.
Proof.
  intros Ha Hn Hl. unfold write_slice, slice_bounds, slice_index.
  rewrite !(proj2 (Z.ltb_ge _ _)) by lia. rewrite !Z.min_l by lia. rewrite Z.max_r by lia.
  replace (a + n - a) with n by lia.
  destruct (Z.eqb_spec (Z.of_nat (length d)) n) as [<-|Hne]; [|done].
  unfold splice. do 4 f_equal. lia.
Qed.
End slices.

(** ** Names of transients

    A live token is never handed out again: its last part is the offset. *)
Fixpoint no_dash (s : string) : Prop :=
  match s with
  | EmptyString => True
  | String c s => c ≠ "-"%char ∧ no_dash s
  end.

Lemma no_dash_app (a b : string) : no_dash (a +:+ b) ↔ no_dash a ∧ no_dash b.
Proof. induction a as [|c a IH]; simpl; [naive_solver|]. rewrite IH. naive_solver. Qed.

Lemma last_part_inj (a b a' b' : string) :
  a +:+ "-" +:+ b = a' +:+ "-" +:+ b' → no_dash b → no_dash b' → b = b'.
Proof.
  revert a'. induction a as [|c a IH]; intros [|c' a']; simpl; intros Heq Hb Hb'.
  - by injection Heq.
  - injection Heq as _ Heq. change (b = a' +:+ "-" +:+ b') in Heq. rewrite Heq in Hb. apply (no_dash_app a') in Hb as [_ [Hb _]]. done.
  - injection Heq as _ Heq. change (a +:+ "-" +:+ b = b') in Heq. rewrite <-Heq in Hb'. apply (no_dash_app a) in Hb' as [_ [Hb' _]]. done.
  - injection Heq as -> Heq. by apply (IH a').
Qed.

Lemma string_app_assoc (a b c : string) : (a +:+ b) +:+ c = a +:+ b +:+ c.
Proof. induction a as [|x a IH]; [done|]. change (String x ((a +:+ b) +:+ c) = String x (a +:+ b +:+ c)). by rewrite IH. Qed.

Lemma pretty_N_char_dash x : pretty_N_char x ≠ "-"%char.
Proof. unfold pretty_N_char. by repeat case_match. Qed.

Lemma pretty_N_go_dash x s : no_dash s → no_dash (pretty_N_go x s).
Proof.
  revert s. induction (N.lt_wf_0 x) as [x _ IH]; intros s Hs.
  destruct (decide (x = 0%N)) as [->|Hx]; [by rewrite pretty_N_go_0|].
  rewrite pretty_N_go_step by lia. apply IH; [|split; [apply pretty_N_char_dash|done]].
  apply N.div_lt; lia.
Qed.

Lemma pretty_Z_dash (z : Z) : 0 ≤ z → no_dash (pretty z).
Proof.
  intros Hz. destruct z as [|p|p]; [done| |done].
  change (no_dash (pretty (N.pos p))). unfold pretty, pretty_N. case_decide; [done|].
  by apply pretty_N_go_dash.
Qed.

Lemma transient_token_offset n owner off n' owner' off' :
  0 ≤ off → 0 ≤ off' → transient_token n owner off = transient_token n' owner' off' → off = off'.
Proof.
  intros H1 H2 Heq. apply (inj pretty).
  apply (last_part_inj ("t" +:+ pretty n +:+ "-" +:+ owner) _ ("t" +:+ pretty n' +:+ "-" +:+ owner'));
    [|by apply pretty_Z_dash..].
  rewrite !string_app_assoc. exact Heq.
Qed.

(** ** The invariant *)
Record Obj := mkObj {
  o_bytes : list byte;
  o_protected : bool;
  o_leases : Z;
  o_version : Z;
}.
Definition set_bytes (b : list byte) (o : Obj) : Obj := mkObj b (o_protected o) (o_leases o) (o_version o).

(** The capacity at boot; whether no call asks for an empty extent. *)
Record Mode := mkMode { nonempty_only :> Prop; boot_cap : Z }.

Section inv.
Context {T : Type} `{Num T} (md : Mode).
Implicit Types (s : Store T) (held : list Extent) (ext : Extent) (r : ObjectRecord T).

Definition obj_extents s : list Extent := rec_extent <$> (objects s).*2.
Definition trans_extents s : list Extent := (transients s).*2.*2.
Definition live s held : list Extent := obj_extents s ++ trans_extents s ++ held.

Definition rec_ok (oid : string) r : Prop :=
  rec_id r = oid ∧ 0 ≤ rec_size_bytes r ≤ size (rec_extent r) ∧ 0 ≤ rec_lease_refs r ∧
  (md → 0 < rec_size_bytes r).

Record StoreInv s held : Prop := {
  sv_alloc : AllocOk md (allocator s) (live s held);
  sv_keys : NoDup (objects s).*1;
  sv_recs : ∀ oid r, find_rec oid s = Some r → rec_ok oid r;
  sv_tokens : NoDup (transients s).*1;
  sv_named : ∀ k o e, (k, (o, e)) ∈ transients s → 0 < size e ∧ ∃ n, k = transient_token n o (offset e);
  sv_mem : Z.of_nat (length (mem s)) = capacity (allocator s);
  sv_cap : capacity (allocator s) = boot_cap md;
}.

(** The abstract state: what a client sees of every resident. *)
Definition obj_of s r : Obj :=
  mkObj (view_rec r s) (rec_protected r) (rec_lease_refs r) (rec_version r).
Definition abs s : gmap string Obj := list_to_map ((λ o, (o.1, obj_of s o.2)) <$> objects s).

Lemma abs_lookup s oid : abs s !! oid = obj_of s <$> find_rec oid s.
Proof.
  unfold abs, find_rec. induction (objects s) as [|[k r] l IH]; [done|].
  rewrite fmap_cons. simpl. destruct (decide (oid = k)) as [->|Hne].
  - by rewrite lookup_insert_eq.
  - rewrite lookup_insert_ne by done. apply IH.
Qed.

Lemma store_inv_perm s h1 h2 : Permutation h1 h2 → StoreInv s h1 → StoreInv s h2.
Proof.
  intros Hp [H1 H2 H3 H4 H5 H6 H7]. split; [|done..].
  eapply alloc_ok_perm; [|exact H1]. unfold live. by rewrite Hp.
Qed.

Lemma new_store_inv : 0 < boot_cap md → StoreInv (new_store (boot_cap md)) [].
Proof.
  intros Hc. split; simpl;
    [by apply new_allocator_ok|apply NoDup_nil_2|done|apply NoDup_nil_2|set_solver|rewrite length_replicate; lia|done].
Qed.

(** *** Allocation *)
Lemma st_alloc_spec s held sz (Q : Extent → Store T → Prop) R :
  0 ≤ sz → (md → 0 < sz) → StoreInv s held →
  (∀ ext a, StoreInv (set_allocator a s) (ext :: held) → size ext = need_of sz → Q ext (set_allocator a s)) →
  (∀ e, R (Capacity e) s) →
  wp (st_alloc sz) s Q R.
Proof.
  intros Hsz Hst [H1 H2 H3 H4 H5 H6 H7] HQ HR. unfold wp, st_alloc. pose proof (alloc_ok _ _ _ sz Hsz Hst H1) as Ha.
  unfold wp in Ha. destruct (alloc sz (allocator s)) as [[ext|e] a].
  - destruct Ha as (Ha & Hs & Hc). apply HQ; [|done]. split; simpl; [|done..|by rewrite Hc|by rewrite Hc].
    eapply alloc_ok_perm; [|exact Ha]. unfold live. by rewrite <-!(Permutation_middle _ _ ext).
  - destruct Ha as [-> _]. replace (set_allocator (allocator s) s) with s by (by destruct s). apply HR.
Qed.

Lemma st_release_inv s ext held :
  StoreInv s (ext :: held) → StoreInv (set_allocator (release ext (allocator s)) s) held.
Proof.
  intros [H1 H2 H3 H4 H5 H6 H7]. split; simpl; [|done..].
  apply release_ok. eapply alloc_ok_perm; [|exact H1]. unfold live.
  by rewrite <-!(Permutation_middle _ _ ext).
Qed.

Lemma live_within s held ext : StoreInv s held → ext ∈ live s held →
  0 ≤ offset ext ∧ 0 ≤ size ext ∧ offset ext + size ext ≤ Z.of_nat (length (mem s)).
Proof.
  intros HI Hx. rewrite (sv_mem _ _ HI). pose proof (al_within _ _ (ok_inv _ _ _ (sv_alloc _ _ HI))) as Hw.
  rewrite Forall_forall in Hw. apply Hw. set_solver.
Qed.

Lemma live_disjoint s held e f l :
  StoreInv s held → Permutation (live s held) (e :: f :: l) → disjoint_extents e f.
Proof.
  intros [H1 _ _ _ _ _ _] Hp. apply (alloc_ok_perm _ _ _ _ Hp) in H1 as [[Hw Ht _ _ _] _].
  by eapply (tiles_disjoint _ (free (allocator s)) _ []).
Qed.

(** *** The catalog *)
Lemma assoc_perm {K V} `{EqDecision K} (d : list (K * V)) k v :
  assoc_get d k = Some v → Permutation d ((k, v) :: assoc_del d k).
Proof.
  intros (d1 & d2 & -> & Hk)%assoc_get_split. rewrite assoc_del_middle by done. by rewrite Permutation_middle.
Qed.

Lemma assoc_get_del {K V} `{EqDecision K} (d : list (K * V)) k k' :
  NoDup d.*1 → assoc_get (assoc_del d k) k' = if decide (k = k') then None else assoc_get d k'.
Proof.
  induction d as [|[k0 v0] d IH]; simpl; [by destruct (decide _)|]. intros [Hk Hd]%NoDup_cons.
  destruct (decide (k = k0)) as [->|Hne].
  - destruct (decide (k0 = k')) as [<-|Hne]; [|by rewrite decide_False]. by apply assoc_get_none.
  - simpl. rewrite IH by done. destruct (decide (k' = k0)) as [->|Hne']; [|done]. by rewrite decide_False.
Qed.

Lemma assoc_del_nodup {K V} `{EqDecision K} (d : list (K * V)) k : NoDup d.*1 → NoDup (assoc_del d k).*1.
Proof.
  intros Hd. destruct (assoc_get d k) as [v|] eqn:Hg.
  - apply assoc_perm in Hg. rewrite Hg in Hd. by apply NoDup_cons in Hd as [_ ?].
  - by rewrite assoc_del_absent by by apply assoc_get_none.
Qed.

Lemma assoc_set_perm {K V} `{EqDecision K} (d : list (K * V)) k v :
  Permutation (assoc_set d k v) ((k, v) :: assoc_del d k).
Proof.
  destruct (assoc_get d k) as [w|] eqn:Hg.
  - apply assoc_get_split in Hg as (d1 & d2 & -> & Hk).
    rewrite assoc_set_middle, assoc_del_middle by done. by rewrite Permutation_middle.
  - apply assoc_get_none in Hg. rewrite assoc_set_absent, assoc_del_absent by done.
    by rewrite Permutation_app_comm.
Qed.

Lemma find_rec_set s oid r oid' :
  find_rec oid' (set_objects (assoc_set (objects s) oid r) s) = if decide (oid = oid') then Some r else find_rec oid' s.
Proof.
  unfold find_rec. simpl. destruct (decide (oid = oid')) as [<-|Hne]; [apply assoc_get_set|].
  by apply assoc_get_set_ne.
Qed.

Lemma live_objects s held d l :
  Permutation (objects s) (d ++ l) →
  Permutation (live s held) ((rec_extent <$> d.*2) ++ (rec_extent <$> l.*2) ++ trans_extents s ++ held).
Proof. intros Hp. unfold live, obj_extents. rewrite Hp, !fmap_app. by rewrite <-(assoc (++)). Qed.

Lemma del_rec_inv s held oid r :
  find_rec oid s = Some r → StoreInv s held →
  StoreInv (set_objects (assoc_del (objects s) oid) s) (rec_extent r :: held).
Proof.
  intros Hf [H1 H2 H3 H4 H5 H6 H7]. split; simpl; [|by apply assoc_del_nodup| |done..].
  - eapply alloc_ok_perm; [|exact H1]. rewrite (live_objects _ _ [_] _ (assoc_perm _ _ _ Hf)). simpl.
    unfold live. simpl. by rewrite <-!(Permutation_middle _ _ (rec_extent r)).
  - intros oid' r'. unfold find_rec. simpl. rewrite assoc_get_del by done.
    destruct (decide _); [done|]. apply H3.
Qed.

Lemma set_rec_inv s held oid r :
  rec_ok oid r →
  match find_rec oid s with
  | Some r0 => rec_extent r = rec_extent r0 ∧ StoreInv s held
  | None => StoreInv s (rec_extent r :: held)
  end →
  StoreInv (set_objects (assoc_set (objects s) oid r) s) held.
Proof.
  intros Hr Hs. set (s' := set_objects _ s).
  assert (∃ held0, StoreInv s held0 ∧ Permutation (live s held0) (live s' held)) as (held0 & [H1 H2 H3 H4 H5 H6 H7] & Hp).
  { pose proof (assoc_set_perm (objects s) oid r) as Hps.
    pose proof (live_objects s' held [_] _ Hps) as Hl. simpl in Hl.
    destruct (find_rec oid s) as [r0|] eqn:Hf.
    - destruct Hs as [He HI]. exists held. split; [done|]. rewrite Hl, He.
      by rewrite (live_objects s held [_] _ (assoc_perm _ _ _ Hf)).
    - exists (rec_extent r :: held). split; [done|]. rewrite Hl.
      rewrite assoc_del_absent by by apply assoc_get_none.
      unfold live. simpl. by rewrite <-!(Permutation_middle _ _ (rec_extent r)). }
  split; [by eapply alloc_ok_perm|by apply assoc_set_keys| |done..].
  intros oid' r'. unfold s'. rewrite find_rec_set. destruct (decide (oid = oid')) as [<-|Hne]; [|apply H3].
  by intros [= <-].
Qed.

(** The record of a name replaced by one at another place. *)
Lemma set_rec_swap s held oid r r0 :
  rec_ok oid r → find_rec oid s = Some r0 → StoreInv s (rec_extent r :: held) →
  StoreInv (set_objects (assoc_set (objects s) oid r) s) (rec_extent r0 :: held).
Proof.
  intros Hr Hf [H1 H2 H3 H4 H5 H6 H7]. set (s' := set_objects _ s).
  assert (Permutation (live s (rec_extent r :: held)) (live s' (rec_extent r0 :: held))) as Hp.
  { pose proof (live_objects s' (rec_extent r0 :: held) [_] _ (assoc_set_perm (objects s) oid r)) as Hl.
    rewrite Hl, (live_objects s _ [_] _ (assoc_perm _ _ _ Hf)). simpl.
    rewrite <-!(Permutation_middle _ _ (rec_extent r)), <-!(Permutation_middle _ _ (rec_extent r0)).
    apply Permutation_swap. }
  split; [by eapply alloc_ok_perm|by apply assoc_set_keys| |done..].
  intros oid' r'. unfold s'. rewrite find_rec_set. destruct (decide (oid = oid')) as [<-|Hne]; [|apply H3].
  by intros [= <-].
Qed.

(** *** The abstract state *)
Lemma abs_set s oid r :
  abs (set_objects (assoc_set (objects s) oid r) s) = <[oid := obj_of s r]> (abs s).
Proof.
  apply map_eq. intros oid'. rewrite abs_lookup, find_rec_set.
  destruct (decide (oid = oid')) as [<-|Hne]; [by rewrite lookup_insert_eq|].
  by rewrite lookup_insert_ne, abs_lookup.
Qed.

Lemma abs_del s oid : NoDup (objects s).*1 →
  abs (set_objects (assoc_del (objects s) oid) s) = delete oid (abs s).
Proof.
  intros Hd. apply map_eq. intros oid'. rewrite abs_lookup. unfold find_rec. simpl.
  rewrite assoc_get_del by done. destruct (decide (oid = oid')) as [<-|Hne]; [by rewrite lookup_delete_eq|].
  by rewrite lookup_delete_ne, abs_lookup.
Qed.

(** A change of the record that leaves its place alone. *)
Lemma upd_rec_spec s held oid f g (Q : unit → Store T → Prop) R :
  StoreInv s held →
  (∀ r, rec_ok oid r → find_rec oid s = Some r → rec_ok oid (f r) ∧ rec_extent (f r) = rec_extent r ∧
     rec_size_bytes (f r) = rec_size_bytes r ∧ obj_of s (f r) = g (obj_of s r)) →
  (∀ s', StoreInv s' held → abs s' = alter g oid (abs s) → mem s' = mem s →
     (∀ oid', find_rec oid' s' = if decide (oid = oid') then f <$> find_rec oid' s else find_rec oid' s) → Q tt s') →
  wp (upd_rec oid f) s Q R.
Proof.
  intros HI Hf HQ. apply wp_modify. destruct (find_rec oid s) as [r|] eqn:Hr.
  - destruct (Hf r) as (Hok & He & Hs & Ho); [by apply HI|done|]. apply HQ; [|..|done|].
    + apply set_rec_inv; [done|]. by rewrite Hr.
    + rewrite abs_set, Ho. apply map_eq. intros oid'. destruct (decide (oid = oid')) as [<-|Hne].
      * by rewrite lookup_insert_eq, lookup_alter_eq, abs_lookup, Hr.
      * by rewrite lookup_insert_ne, lookup_alter_ne.
    + intros oid'. rewrite find_rec_set. destruct (decide (oid = oid')) as [<-|Hne]; [by rewrite Hr|done].
  - apply HQ; [done| |done|].
    + symmetry. apply map_eq. intros oid'. destruct (decide (oid = oid')) as [<-|Hne]; [|by rewrite lookup_alter_ne].
      by rewrite lookup_alter_eq, abs_lookup, Hr.
    + intros oid'. destruct (decide (oid = oid')) as [<-|Hne]; [by rewrite Hr|done].
Qed.

(** *** Writes *)
Lemma write_inside_inv s held o d :
  StoreInv s held → 0 ≤ o → o + Z.of_nat (length d) ≤ Z.of_nat (length (mem s)) →
  StoreInv (set_mem (splice (Z.to_nat o) d (mem s)) s) held.
Proof. intros [H1 H2 H3 H4 H5 H6 H7] Ho Hl. split; simpl; [done..| |done]. rewrite splice_length by lia. done. Qed.

Lemma write_apart s held e f l o d n :
  StoreInv s held → Permutation (live s held) (e :: f :: l) →
  offset e ≤ o → o + Z.of_nat (length d) ≤ offset e + size e → 0 ≤ n ≤ size f →
  view f n (set_mem (splice (Z.to_nat o) d (mem s)) s) = view f n s.
Proof.
  intros HI Hp Ho Hd Hn. pose proof (live_disjoint _ _ _ _ _ HI Hp) as Hdis.
  destruct (live_within s held e HI) as (H1 & H2 & H3); [rewrite Hp; set_solver|].
  destruct (live_within s held f HI) as (H4 & H5 & H6); [rewrite Hp; set_solver|].
  assert (length (splice (Z.to_nat o) d (mem s)) = length (mem s)) as Hl by (apply splice_length; lia).
  unfold view. simpl. rewrite !read_slice_in by lia.
  destruct (decide (n = 0)) as [->|Hn0]; [by rewrite !take_0|].
  destruct (decide (length d = 0%nat)) as [Hd0|Hd0].
  { unfold splice. rewrite Hd0, Nat.add_0_r. apply nil_length_inv in Hd0 as ->.
    by rewrite app_nil_l, take_drop. }
  apply slice_splice_apart; [lia|].
  destruct (decide (offset f + n ≤ o)); [left; lia|].
  destruct (decide (o + Z.of_nat (length d) ≤ offset f)); [right; lia|].
  destruct (Hdis (Z.max o (offset f))). unfold holds. lia.
Qed.
End inv.
