(* ===== verification/SvcStoreSpec.v ===== *)
(** * The store is a map from names to bytes

    [call] lists what the environment asks of the store, [perform] is the method
    it runs.  [effect] is the specification of a call on the abstract state
    [abs], what a client sees of every resident.  The theorems are about every
    sequence of calls from boot. *)
From S2P Require Import Prelude SimSchema CoreProgram CoreJson SvcStore.
From stdpp Require Import base tactics option list gmap strings.
From Stdlib Require Import ZArith Lia Init.Byte.
From S2P Require Import SvcAlloc SvcStoreInv.
Open Scope Z_scope.

Section spec.
Context {T : Type} `{Num T} (now : T) (md : Mode).
Implicit Types (s : Store T) (held : list Extent) (ext : Extent) (r : ObjectRecord T).

Inductive call :=
| CPut (oid : string) (d : list byte) (meta : option (jdict (T := T))) (writer : string)
| CCreate (oid : string) (n : Z) (meta : option (jdict (T := T))) (writer : string)
| CPutFile (fs : FileSystem) (oid path : string) (meta : option (jdict (T := T))) (writer : string)
| CRelease (oid : string) (force : bool)
| CProtect (oid : string) (value : bool)
| CWipe (scope : string) (force : bool)
| CDuplicate (src dst : string)
| CReserve (dest : string) (n : Z) (overwrite : bool)
| CAdopt (dest : string) (ext : Extent) (n : Z) (meta : option (jdict (T := T))) (peer : string)
| CScratch (n : Z)
| CReturn (ext : Extent)
| CFill (ext : Extent) (d : list byte)
| CAcquire (ids : list string)
| CReleaseLeases (ids : list string)
| CRollback (ids : list string)
| CTransient (owner : string) (n : Z)
| CFreeTransient (token : string)
| CWrite (oid : string) (d : list byte).

(** The method of a call; the extents it hands to the caller. *)
Definition perform (c : call) : St (T := T) (list Extent) :=
  match c with
  | CPut oid d meta w => put now oid (Some d) None meta w ;; mret []
  | CCreate oid n meta w => put now oid None (Some n) meta w ;; mret []
  | CPutFile fs oid path meta w => put_from_file fs now oid path meta w ;; mret []
  | CRelease oid force => st_release_object oid force ;; mret []
  | CProtect oid value => protect oid value ;; mret []
  | CWipe scope force => wipe scope force ;; mret []
  | CDuplicate src dst => duplicate now src dst ;; mret []
  | CReserve dest n overwrite =>
      e ← reserve_inbound dest n overwrite;
      mret (match e with inl ext => [ext] | inr _ => [] end)
  | CAdopt dest ext n meta peer => adopt_inbound now dest ext n meta peer ;; mret []
  | CScratch n => ext ← alloc_scratch n; mret [ext]
  | CReturn ext => release_scratch ext ;; mret []
  | CFill ext d => fill_extent ext (Z.of_nat (length d)) d ;; mret [ext]
  | CAcquire ids => acquire_leases ids ;; mret []
  | CReleaseLeases ids => release_leases ids ;; mret []
  | CRollback ids => rollback_created ids ;; mret []
  | CTransient owner n => alloc_transient owner n ;; mret []
  | CFreeTransient token => free_transient token ;; mret []
  | CWrite oid d => r ← require oid; write_rec r d ;; mret []
  end.

(** The extents the caller gives back or uses. *)
Definition takes (c : call) : list Extent :=
  match c with
  | CAdopt _ ext _ _ _ | CReturn ext | CFill ext _ => [ext]
  | _ => []
  end.

(** What the callers respect: sizes are not negative (nor zero under
    the mode), transients are not empty, a write stays inside its extent, a read
    of a file returns no more than it was asked for. *)
Definition size_ok (n : Z) : Prop := 0 ≤ n ∧ (md → 0 < n).
Definition valid (c : call) : Prop :=
  match c with
  | CPut _ d _ _ => size_ok (Z.of_nat (length d))
  | CCreate _ n _ _ | CReserve _ n _ | CScratch n => size_ok n
  | CPutFile fs _ path _ _ => ∀ n reads, fs path = Some (n, reads) →
      size_ok n ∧ Forall (λ c, Z.of_nat (length c) ≤ READ_CHUNK) reads
  | CAdopt _ ext n _ _ => size_ok n ∧ n ≤ size ext
  | CFill ext d => Z.of_nat (length d) ≤ size ext
  | CTransient _ n => 0 < n
  | _ => True
  end.

(** *** Writes into a resident *)
Lemma view_length s held ext n : StoreInv md s held → ext ∈ live s held → 0 ≤ n ≤ size ext →
  Z.of_nat (length (view ext n s)) = n.
Proof.
  intros HI He Hn. destruct (live_within _ _ _ _ HI He) as (H1 & H2 & H3).
  unfold view. rewrite read_slice_in by lia. rewrite length_take, length_drop. lia.
Qed.

Lemma rec_live s held oid r : find_rec oid s = Some r → rec_extent r ∈ live s held.
Proof. intros Hf. rewrite (live_objects _ _ [_] _ (assoc_perm _ _ _ Hf)). simpl. set_solver. Qed.

Lemma obj_length s held oid r : StoreInv md s held → find_rec oid s = Some r →
  Z.of_nat (length (view_rec r s)) = rec_size_bytes r.
Proof.
  intros HI Hf. pose proof (sv_recs _ _ _ HI _ _ Hf) as (_ & Hs & _).
  eapply view_length; [done|by eapply rec_live|lia].
Qed.

(** Bytes written at [off] inside the resident [oid] change its contents and no
    other's. *)
Lemma write_resident s held oid r off d (Q : unit → Store T → Prop) R :
  StoreInv md s held → find_rec oid s = Some r →
  0 ≤ off → off + Z.of_nat (length d) ≤ rec_size_bytes r →
  (∀ s', StoreInv md s' held → objects s' = objects s →
     abs s' = alter (set_bytes (splice (Z.to_nat off) d (view_rec r s))) oid (abs s) → Q tt s') →
  ∀ sz, wp (fill_extent (mkExtent (offset (rec_extent r) + off) sz) (Z.of_nat (length d)) d) s Q R.
Proof.
  intros HI Hf Ho Hd HQ sz. pose proof (sv_recs _ _ _ HI _ _ Hf) as (_ & Hs & _).
  pose proof (rec_live s held oid r Hf) as Hl. destruct (live_within _ _ _ _ HI Hl) as (H1 & H2 & H3).
  unfold fill_extent. apply wp_get_bind. simpl. rewrite write_slice_in, Z.eqb_refl by lia. apply wp_modify.
  apply HQ; [apply write_inside_inv; [done|lia..]|done|].
  apply map_eq. intros oid'. rewrite abs_lookup. change (find_rec oid' _) with (find_rec oid' s).
  destruct (decide (oid = oid')) as [<-|Hne].
  - rewrite lookup_alter_eq, abs_lookup, Hf. simpl. f_equal. unfold obj_of, set_bytes. simpl. f_equal. unfold view_rec, view. simpl.
    rewrite !read_slice_in by (rewrite ?splice_length; lia). rewrite Z2Nat.inj_add by lia.
    apply slice_splice_inside; lia.
  - rewrite lookup_alter_ne, abs_lookup by done.
    destruct (find_rec oid' s) as [r'|] eqn:Hf'; [|done]. simpl. f_equal. unfold obj_of. f_equal.
    pose proof (sv_recs _ _ _ HI _ _ Hf') as (_ & Hs' & _).
    assert (Permutation (live s held) (rec_extent r :: rec_extent r' :: (live (set_objects (assoc_del (assoc_del (objects s) oid) oid') s) held))) as Hp.
    { rewrite (live_objects s held [_] _ (assoc_perm _ _ _ Hf)). simpl. apply Permutation_skip.
      assert (assoc_get (assoc_del (objects s) oid) oid' = Some r') as Hg.
      { rewrite assoc_get_del by apply HI. by rewrite decide_False. }
      exact (live_objects (set_objects (assoc_del (objects s) oid) s) held [_] _ (assoc_perm _ _ _ Hg)). }
    unfold view_rec. eapply write_apart; [done|exact Hp|lia..].
Qed.

(** ** The specification *)
Implicit Types (m : gmap string Obj).

(** [b] is written under the name [oid]: into a resident of that size that
    nobody leases, or a new one. *)
Definition put_effect (oid : string) (b : list byte) m m' : Prop :=
  match m !! oid with
  | Some o => o_leases o = 0 ∧ length (o_bytes o) = length b ∧
      m' = <[oid := mkObj b (o_protected o) 0 (o_version o + 1)]> m
  | None => m' = <[oid := mkObj b false 0 1]> m
  end.

Definition kept (force : bool) (o : Obj) : Prop := o_protected o = true ∧ force = false.
#[local] Instance kept_dec force o : Decision (kept force o).
Proof. unfold kept. apply _. Defined.

Definition lease (n : Z) (o : Obj) : Obj :=
  mkObj (o_bytes o) (o_protected o) (o_leases o + n) (o_version o).
Definition unlease (o : Obj) : Obj := if 0 <? o_leases o then lease (-1) o else o.

Definition effect (c : call) s m m' : Prop :=
  match c with
  | CPut oid d _ _ => put_effect oid d m m'
  | CCreate oid n _ _ => ∃ b, Z.of_nat (length b) = n ∧ put_effect oid b m m' ∧
      ∀ o, m !! oid = Some o → o_bytes o = b
  | CPutFile fs oid path _ _ => ∃ n reads, fs path = Some (n, reads) ∧
      n ≤ Z.of_nat (length (mjoin reads)) ∧ put_effect oid (take (Z.to_nat n) (mjoin reads)) m m'
  | CRelease oid force =>
      match m !! oid with
      | Some o => o_leases o = 0 ∧ ¬ kept force o ∧ m' = delete oid m
      | None => m' = m
      end
  | CProtect oid b => ∃ o, m !! oid = Some o ∧
      m' = <[oid := mkObj (o_bytes o) b (o_leases o) (o_version o)]> m
  | CWipe scope force =>
      if String.eqb scope "fast" then m' = m
      else (∀ oid o, m !! oid = Some o → kept force o ∨ o_leases o = 0) ∧
           m' = filter (λ p, kept force p.2) m
  | CDuplicate src dst => ∃ o, m !! src = Some o ∧ m !! dst = None ∧
      m' = <[dst := mkObj (o_bytes o) false 0 0]> m
  | CAdopt dest ext n _ _ =>
      match m !! dest with
      | Some o => o_leases o = 0 ∧
          m' = <[dest := mkObj (view ext n s) (o_protected o) 0 (o_version o + 1)]> m
      | None => m' = <[dest := mkObj (view ext n s) false 0 1]> m
      end
  | CAcquire ids => (∀ oid, oid ∈ ids → is_Some (m !! oid)) ∧
      m' = foldl (λ m oid, alter (lease 1) oid m) m ids
  | CReleaseLeases ids => m' = foldl (λ m oid, alter unlease oid m) m ids
  | CRollback ids => m' = foldl (λ m oid, delete oid m) m ids
  | CWrite oid d => ∃ o, m !! oid = Some o ∧ length d = length (o_bytes o) ∧
      m' = <[oid := set_bytes d o]> m
  | CReserve _ _ _ | CScratch _ | CReturn _ | CFill _ _ | CTransient _ _ | CFreeTransient _ => m' = m
  end.

(** What an exception leaves behind. *)
Definition failure (c : call) m m' : Prop :=
  match c with
  | CPutFile _ oid _ _ _ => m' = m ∨ ∃ b, put_effect oid b m m'
  | CWipe _ force => m' ⊆ m ∧ ∀ oid o, m !! oid = Some o → kept force o ∨ o_leases o ≠ 0 → m' !! oid = Some o
  | _ => m' = m
  end.

(** The contract of a call: it keeps the tiling and has its effect. *)
Definition contract (c : call) : Prop := ∀ s held, valid c → StoreInv md s (takes c ++ held) →
  wp (perform c) s
    (λ got s', StoreInv md s' (got ++ held) ∧ effect c s (abs s) (abs s'))
    (λ _ s', StoreInv md s' (takes c ++ held) ∧ failure c (abs s) (abs s')).

Lemma abs_none s oid : find_rec oid s = None → abs s !! oid = None.
Proof. intros Hf. by rewrite abs_lookup, Hf. Qed.
Lemma abs_some s oid r : find_rec oid s = Some r → abs s !! oid = Some (obj_of s r).
Proof. intros Hf. by rewrite abs_lookup, Hf. Qed.

Lemma insert_alter_id {A} (f : A → A) (m : gmap string A) k x :
  m !! k = Some x → alter f k m = <[k := f x]> m.
Proof.
  intros Hk. apply map_eq. intros k'. destruct (decide (k = k')) as [<-|Hne].
  - by rewrite lookup_alter_eq, lookup_insert_eq, Hk.
  - by rewrite lookup_alter_ne, lookup_insert_ne.
Qed.

(** *** Writing *)
Lemma put_target_spec s held oid n meta (Q : ObjectRecord T → Store T → Prop) (R : SvcError → Store T → Prop) :
  size_ok n → StoreInv md s held →
  (∀ r, find_rec oid s = Some r → rec_lease_refs r = 0 → rec_size_bytes r = n → Q r s) →
  (∀ r s' b, find_rec oid s = None → StoreInv md s' held → find_rec oid s' = Some r → rec_size_bytes r = n →
     Z.of_nat (length b) = n → abs s' = <[oid := mkObj b false 0 0]> (abs s) → Q r s') →
  (∀ e, R e s) →
  wp (put_target oid n meta) s Q R.
Proof.
  intros [Hn Hst] HI HQ1 HQ2 HR. unfold put_target. apply wp_get_bind. destruct (find_rec oid s) as [r|] eqn:Hf.
  - apply wp_check_bind; [intros Hl%Z.eqb_eq|by intros]. apply wp_check_bind; [intros Hs%Z.eqb_eq|by intros].
    apply wp_ret. by apply HQ1.
  - apply wp_bind. eapply st_alloc_spec; [done|done|done| |done]. intros ext a HI' He.
    set (s1 := set_allocator a s) in *. set (r := new_record oid n (or_empty meta) ext).
    assert (n ≤ size ext) as Hne by (pose proof (need_of_spec n); lia).
    assert (Z.of_nat (length (view ext n s1)) = n) as Hvl.
    { eapply view_length; [exact HI'| |lia]. unfold live. set_solver. }
    unfold set_rec. apply wp_modify_bind, wp_ret. eapply (HQ2 r _ (view ext n s1)); [done| |..|exact Hvl|].
    + apply set_rec_inv; [done|]. by change (find_rec oid s1) with (find_rec oid s); rewrite Hf.
    + rewrite find_rec_set. by rewrite decide_True.
    + done.
    + exact (abs_set s1 oid r).
Qed.

Lemma require_spec s oid (Q : ObjectRecord T → Store T → Prop) (R : SvcError → Store T → Prop) :
  (∀ r, find_rec oid s = Some r → Q r s) → (find_rec oid s = None → R (UnknownObject oid) s) →
  wp (require oid) s Q R.
Proof.
  intros HQ HR. unfold require. apply wp_get_bind.
  destruct (find_rec oid s) as [r|]; [by apply wp_ret, HQ|by apply wp_raise, HR].
Qed.

Lemma rec_ok_keep (f : ObjectRecord T → ObjectRecord T) oid r :
  rec_ok md oid r → rec_id (f r) = rec_id r → rec_size_bytes (f r) = rec_size_bytes r →
  rec_extent (f r) = rec_extent r → 0 ≤ rec_lease_refs (f r) → rec_ok md oid (f r).
Proof. unfold rec_ok. intros (H1 & H2 & H3 & H4) -> -> -> Hl. done. Qed.

(** The write of a whole resident through a record of it. *)
Lemma write_rec_spec s held oid r r' d (Q : unit → Store T → Prop) R :
  StoreInv md s held → find_rec oid s = Some r →
  rec_extent r' = rec_extent r → rec_size_bytes r' = rec_size_bytes r →
  Z.of_nat (length d) = rec_size_bytes r →
  (∀ s', StoreInv md s' held → objects s' = objects s →
     abs s' = alter (set_bytes d) oid (abs s) → Q tt s') →
  wp (write_rec r' d) s Q R.
Proof.
  intros HI Hf He Hs Hd HQ. unfold write_rec. rewrite He, Hs, <-Hd.
  pose proof (write_resident s held oid r 0 d Q R HI Hf ltac:(lia) ltac:(lia)) as Hw.
  destruct (rec_extent r) as [o z]. simpl in Hw. rewrite Z.add_0_r in Hw. apply Hw. intros s' HI' Ho Ha. apply HQ; [done..|].
  rewrite splice_whole in Ha; [done|]. pose proof (obj_length _ _ _ _ HI Hf). lia.
Qed.

(** [put] after it has found its record. *)
Lemma put_rest_spec s held oid r data meta w (Q : ObjectRecord T → Store T → Prop) R :
  StoreInv md s held → find_rec oid s = Some r →
  (∀ d, data = Some d → Z.of_nat (length d) = rec_size_bytes r) →
  (∀ r' s', StoreInv md s' held → find_rec oid s' = Some r' → rec_size_bytes r' = rec_size_bytes r →
     abs s' = <[oid := mkObj (default (view_rec r s) data) (rec_protected r) (rec_lease_refs r) (rec_version r + 1)]> (abs s) →
     Q r' s') →
  wp (when (nonempty (or_empty meta)) (upd_rec oid (set_meta (or_empty meta))) ;;
      (match data with Some d => write_rec r d | None => mret tt end) ;;
      upd_rec oid (λ r, set_written (mkWrite w now) (set_version (rec_version r + 1) r)) ;;
      require oid) s Q R.
Proof.
  intros HI Hf Hd HQ.
  apply wp_bind. set (K := λ (_ : unit) (s1 : Store T), ∃ r1, StoreInv md s1 held ∧ find_rec oid s1 = Some r1 ∧
    rec_extent r1 = rec_extent r ∧ rec_size_bytes r1 = rec_size_bytes r ∧ obj_of s1 r1 = obj_of s r ∧ abs s1 = abs s).
  apply (wp_mono _ _ K _ R); [| |done].
  { unfold when. destruct (nonempty _); [|by exists r].
    eapply (upd_rec_spec _ _ held _ _ id); [done| |].
    - intros r0 Hr0 _. split_and!; [by apply (rec_ok_keep _ _ _ Hr0); simpl; try done; apply Hr0|done..].
    - intros s1 HI1 Ha Hm Hf1. exists (set_meta (or_empty meta) r). specialize (Hf1 oid).
      rewrite decide_True, Hf in Hf1 by done. split_and!; [done..| |by rewrite Ha; apply alter_id].
      unfold obj_of, view_rec, view. simpl. by rewrite Hm. }
  intros [] s1 (r1 & HI1 & Hf1 & He1 & Hs1 & Ho1 & Ha1). apply wp_bind.
  set (b := default (view_rec r s) data).
  set (K2 := λ (_ : unit) (s2 : Store T), StoreInv md s2 held ∧ find_rec oid s2 = Some r1 ∧
    abs s2 = <[oid := set_bytes b (obj_of s r)]> (abs s)).
  apply (wp_mono _ _ K2 _ R); [| |done].
  { unfold b. destruct data as [d|].
    - eapply write_rec_spec; [done|done|by rewrite He1|by rewrite Hs1|rewrite Hs1; by apply Hd|].
      intros s2 HI2 Ho2 Ha2. split_and!; [done|by unfold find_rec; rewrite Ho2|].
      rewrite Ha2, Ha1. apply insert_alter_id. by apply abs_some.
    - apply wp_ret. split_and!; [done..|]. rewrite Ha1, insert_id; [done|]. by apply abs_some. }
  intros [] s2 (HI2 & Hf2 & Ha2). apply wp_bind.
  eapply (upd_rec_spec _ _ held _ _ (λ o, mkObj (o_bytes o) (o_protected o) (o_leases o) (o_version o + 1))); [done| |].
  { intros r0 Hr0 _. split_and!; [by apply (rec_ok_keep _ _ _ Hr0); simpl; try done; apply Hr0|done..]. }
  intros s3 HI3 Ha3 Hm3 Hf3. specialize (Hf3 oid). rewrite decide_True, Hf2 in Hf3 by done.
  apply require_spec; [|by rewrite Hf3]. intros r3. rewrite Hf3. intros [= <-].
  apply HQ; [done|done|done|].
  rewrite Ha3, Ha2, (insert_alter_id _ _ _ _ (lookup_insert_eq _ _ _)), insert_insert_eq. done.
Qed.

Lemma put_spec s held oid data size_bytes n meta w (Q : ObjectRecord T → Store T → Prop) (R : SvcError → Store T → Prop) :
  match data with Some d => Z.of_nat (length d) = n | None => size_bytes = Some n end →
  size_ok n → StoreInv md s held →
  (∀ r s' b, StoreInv md s' held → find_rec oid s' = Some r → rec_size_bytes r = n → Z.of_nat (length b) = n →
     (∀ d, data = Some d → b = d) →
     (data = None → ∀ o, abs s !! oid = Some o → o_bytes o = b) → abs s' !! oid = Some (obj_of s' r) →
     put_effect oid b (abs s) (abs s') → Q r s') →
  (∀ e, R e s) →
  wp (put now oid data size_bytes meta w) s Q R.
Proof.
  intros Hsz Hok HI HQ HR. unfold put.
  assert ((match data with Some d => Some (Z.of_nat (length d)) | None => size_bytes end) = Some n) as ->.
  { destruct data; [by rewrite Hsz|done]. }
  assert (∀ d, data = Some d → Z.of_nat (length d) = n) as Hd by by intros d ->.
  apply wp_bind. eapply put_target_spec; [exact Hok|exact HI| | |exact HR].
  - intros r Hf Hl Hs. eapply put_rest_spec; [exact HI|exact Hf|by rewrite Hs|].
    intros r' s' HI' Hf' Hs' Ha. pose proof (obj_length _ _ _ _ HI Hf) as Hvl.
    apply (HQ r' s' (default (view_rec r s) data)); [done|done|by rewrite Hs', Hs| |by intros d ->| | |].
    + destruct data; [by apply Hd|by rewrite <-Hs].
    + intros -> o. rewrite (abs_some _ _ _ Hf). by intros [= <-].
    + by apply abs_some.
    + unfold put_effect. rewrite (abs_some _ _ _ Hf). simpl. split_and!; [done| |by rewrite Ha, Hl].
      apply Nat2Z.inj. destruct data; simpl; [|done]. rewrite (Hd _ eq_refl). by rewrite Hvl, Hs.
  - intros r s1 b0 Hn HI1 Hf Hs Hb0 Ha. eapply put_rest_spec; [exact HI1|exact Hf|by rewrite Hs|].
    intros r' s' HI' Hf' Hs' Ha'. pose proof (abs_some _ _ _ Hf) as Hr. rewrite Ha, lookup_insert_eq in Hr.
    injection Hr as Hr1 Hr2 Hr3 Hr4.
    apply (HQ r' s' (default (view_rec r s1) data)); [done|done|by rewrite Hs', Hs| |by intros d ->| | |].
    + destruct data; [by apply Hd|]. simpl. by rewrite <-Hr1.
    + intros _ o. by rewrite (abs_none _ _ Hn).
    + by apply abs_some.
    + unfold put_effect. rewrite (abs_none _ _ Hn), Ha', Ha, insert_insert_eq. by rewrite <-Hr2, <-Hr3, <-Hr4.
Qed.

Ltac done_call := apply wp_ret; split; [done|]; simpl.

Lemma contract_put oid d meta w : contract (CPut oid d meta w).
Proof.
  intros s held Hv HI. apply wp_bind. eapply put_spec; [done|exact Hv|exact HI| |by split].
  intros r s' b HI' _ _ _ Hb _ _ He. done_call. by rewrite <-(Hb d eq_refl).
Qed.

Lemma contract_create oid n meta w : contract (CCreate oid n meta w).
Proof.
  intros s held Hv HI. apply wp_bind. eapply put_spec; [done|exact Hv|exact HI| |by split].
  intros r s' b HI' _ _ Hb _ Ho _ He. done_call. exists b. split_and!; [done..|]. by apply Ho.
Qed.

(** The reads fill the record from [off] on. *)
Lemma read_loop_spec oid r held reads : ∀ s off,
  StoreInv md s held → find_rec oid s = Some r →
  0 ≤ off → off ≤ rec_size_bytes r → Forall (λ c, Z.of_nat (length c) ≤ READ_CHUNK) reads →
  wp (read_loop (rec_extent r) (rec_size_bytes r) off reads) s
    (λ _ s', StoreInv md s' held ∧ rec_size_bytes r - off ≤ Z.of_nat (length (mjoin reads)) ∧
       abs s' = alter (set_bytes (splice (Z.to_nat off)
                   (take (Z.to_nat (rec_size_bytes r - off)) (mjoin reads)) (view_rec r s))) oid (abs s))
    (λ _ s', StoreInv md s' held ∧ ∃ b, length b = length (view_rec r s) ∧
       abs s' = alter (set_bytes b) oid (abs s)).
Proof.
  assert (∀ s, find_rec oid s = Some r → abs s = alter (set_bytes (view_rec r s)) oid (abs s)) as Hid.
  { intros s Hf. rewrite (insert_alter_id _ _ _ _ (abs_some _ _ _ Hf)). symmetry. apply insert_id. by apply abs_some. }
  induction reads as [|c reads IH]; intros s off HI Hf H0 Hoff Hr; cbn [read_loop];
    (destruct (Z.ltb_spec off (rec_size_bytes r)) as [Hlt|Hge];
      [|apply wp_ret; replace (rec_size_bytes r - off) with 0 by lia;
        rewrite take_0, splice_nil; split_and!; [done|lia|by apply Hid]]).
  { apply wp_raise. split; [done|]. exists (view_rec r s). split; [done|by apply Hid]. }
  apply Forall_cons in Hr as [Hc Hr]. pose proof (obj_length _ _ _ _ HI Hf) as Hlen.
  set (n := Z.to_nat (rec_size_bytes r - off)).
  assert (Z.of_nat n = rec_size_bytes r - off) as Hnz by (unfold n; lia).
  replace (take (Z.to_nat (Z.min READ_CHUNK (rec_size_bytes r - off))) c) with (take n c)
    by (unfold n; destruct (decide (READ_CHUNK ≤ rec_size_bytes r - off));
        [rewrite !(take_ge c) by lia; done|by rewrite Z.min_r by lia]).
  assert (Z.of_nat (length (take n c)) ≤ rec_size_bytes r - off) as Hgot by (rewrite length_take; lia).
  assert (off + Z.of_nat (length (take n c)) ≤ rec_size_bytes r) as Hgot' by lia.
  destruct (nonempty (take n c)); [|apply wp_raise; split; [done|]; exists (view_rec r s); split; [done|by apply Hid]].
  apply wp_bind. eapply write_resident; [exact HI|exact Hf|done|lia|]. intros s1 HI1 Ho1 Ha1.
  assert (find_rec oid s1 = Some r) as Hf1 by (unfold find_rec in *; by rewrite Ho1).
  assert (view_rec r s1 = splice (Z.to_nat off) (take n c) (view_rec r s)) as Hv1.
  { pose proof (abs_some _ _ _ Hf1) as Hr1. rewrite Ha1, lookup_alter_eq, (abs_some _ _ _ Hf) in Hr1.
    by injection Hr1. }
  eapply wp_mono; [apply (IH s1); [done..|lia|lia|done]| |].
  - intros _ s' (HI' & Hl & Ha). split_and!; [done| |].
    + change (mjoin (c :: reads)) with (c ++ mjoin reads). rewrite length_app. rewrite length_take in Hl. lia.
    + rewrite Ha, Ha1, alter_alter_eq. apply alter_ext. intros o _. unfold compose, set_bytes. simpl. f_equal.
      rewrite Hv1. replace (Z.to_nat (off + _)) with (Z.to_nat off + length (take n c))%nat by lia.
      rewrite splice_splice by (rewrite !length_take in *; lia). f_equal.
      change (mjoin (c :: reads)) with (c ++ mjoin reads). rewrite take_app. f_equal. f_equal.
      rewrite length_take. lia.
  - intros e s' (HI' & b & Hb & Ha). split; [done|]. exists b. split.
    + rewrite Hb, Hv1. apply splice_length. lia.
    + rewrite Ha, Ha1, alter_alter_eq. by apply alter_ext.
Qed.

Lemma put_effect_bytes oid b b' m m1 :
  put_effect oid b m m1 → length b' = length b → put_effect oid b' m (alter (set_bytes b') oid m1).
Proof.
  unfold put_effect. destruct (m !! oid) as [o|].
  - intros (Hl & Hs & ->) Hb. split_and!; [done|congruence|].
    by rewrite (insert_alter_id _ _ _ _ (lookup_insert_eq _ _ _)), insert_insert_eq.
  - intros -> _. by rewrite (insert_alter_id _ _ _ _ (lookup_insert_eq _ _ _)), insert_insert_eq.
Qed.

Lemma contract_put_file fs oid path meta w : contract (CPutFile fs oid path meta w).
Proof.
  intros s held Hv HI. cbn [perform takes app]. unfold put_from_file.
  destruct (fs path) as [[n reads]|] eqn:Hfs; [|apply wp_bind, wp_raise; split; [done|by left]].
  destruct (Hv n reads Hfs) as [Hn Hr]. apply wp_bind, wp_bind.
  eapply put_spec; [done|exact Hn|exact HI| |split; [done|by left]].
  intros r s1 b HI1 Hf1 Hs1 Hb _ _ _ He. apply wp_bind.
  pose proof (obj_length _ _ _ _ HI1 Hf1) as Hlen. rewrite <-Hs1.
  eapply wp_mono; [eapply read_loop_spec; [exact HI1|exact Hf1|lia|destruct Hn; lia|done]| |].
  - intros _ s' (HI' & Hl & Ha). apply wp_ret. done_call. exists n, reads.
    rewrite Z.sub_0_r, Hs1 in Hl, Ha. split_and!; [done..|].
    rewrite splice_whole in Ha by (rewrite length_take; lia). rewrite Ha.
    eapply put_effect_bytes; [exact He|]. rewrite length_take. lia.
  - intros e s' (HI' & b' & Hb' & Ha). split; [done|]. right. exists b'. rewrite Ha.
    eapply put_effect_bytes; [exact He|]. lia.
Qed.

(** *** Removing *)
Lemma remove_rec s held oid r : find_rec oid s = Some r → StoreInv md s held →
  let s' := set_objects (assoc_del (objects s) oid) (set_allocator (release (rec_extent r) (allocator s)) s) in
  StoreInv md s' held ∧ abs s' = delete oid (abs s).
Proof.
  intros Hf HI. split; [|exact (abs_del _ _ (sv_keys _ _ _ HI))].
  exact (st_release_inv _ _ _ _ (del_rec_inv _ _ _ _ _ Hf HI)).
Qed.

Lemma contract_release oid force : contract (CRelease oid force).
Proof.
  intros s held _ HI. apply wp_bind. unfold st_release_object. apply wp_get_bind.
  destruct (find_rec oid s) as [r|] eqn:Hf.
  - apply wp_check_bind; [intros Hp|by split]. apply wp_check_bind; [intros Hl%Z.eqb_eq|by split].
    apply wp_modify_bind, wp_modify_bind, wp_ret, wp_ret.
    destruct (remove_rec _ _ _ _ Hf HI) as [HI' Ha]. split; [done|]. simpl. rewrite (abs_some _ _ _ Hf).
    split_and!; [done| |done]. intros [Hpr ->]. simpl in Hpr. by rewrite Hpr in Hp.
  - apply wp_ret. done_call. by rewrite (abs_none _ _ Hf).
Qed.

Definition keep (force : bool) (o : option Obj) : option Obj :=
  o ≫= λ o, if decide (kept force o) then Some o else None.

Lemma wipe_loop_spec force held ids : ∀ s w, StoreInv md s held →
  wp (wipe_loop force ids w) s
    (λ _ s', StoreInv md s' held ∧
       (∀ oid o, oid ∈ ids → abs s !! oid = Some o → kept force o ∨ o_leases o = 0) ∧
       ∀ oid, abs s' !! oid = if decide (oid ∈ ids) then keep force (abs s !! oid) else abs s !! oid)
    (λ _ s', StoreInv md s' held ∧ failure (CWipe "all" force) (abs s) (abs s')).
Proof.
  induction ids as [|oid ids IH]; intros s w HI; cbn [wipe_loop].
  { apply wp_ret. split_and!; [done|set_solver|done]. }
  apply wp_get_bind. destruct (find_rec oid s) as [r|] eqn:Hf.
  2: { eapply wp_mono; [by apply IH| |done]. intros _ s' (HI' & Hk & Ha). split_and!; [done| |].
    - intros oid' o' [->|Hin]%elem_of_cons Ho'; [by rewrite (abs_none _ _ Hf) in Ho'|by eapply Hk].
    - intros oid'. rewrite Ha. destruct (decide (oid' = oid)) as [->|Hne].
      + rewrite (abs_none _ _ Hf). by repeat case_decide.
      + repeat case_decide; set_solver. }
  pose proof (abs_some _ _ _ Hf) as Ho.
  destruct (rec_protected r && negb force) eqn:Hpf.
  - apply andb_true_iff in Hpf as [Hp Hfo%negb_true_iff].
    assert (kept force (obj_of s r)) as Hkr by done.
    eapply wp_mono; [by apply IH| |done]. intros _ s' (HI' & Hk & Ha). split_and!; [done| |].
    + intros oid' o' [->|Hin]%elem_of_cons Ho'; [left; congruence|by eapply Hk].
    + intros oid'. rewrite Ha. destruct (decide (oid' = oid)) as [->|Hne]; [|repeat case_decide; set_solver].
      rewrite Ho, (decide_True (P := oid ∈ oid :: ids)) by set_solver.
      assert (keep force (Some (obj_of s r)) = Some (obj_of s r)) as -> by (unfold keep; simpl; by rewrite decide_True).
      by case_decide.
  - apply wp_check_bind; [intros Hl%Z.eqb_eq|].
    2: { intros _. split; [done|]. split; [done|by intros]. }
    apply wp_modify_bind, wp_modify_bind. destruct (remove_rec _ _ _ _ Hf HI) as [HI1 Ha1].
    set (s1 := set_objects _ _) in HI1, Ha1.
    assert (¬ kept force (obj_of s r)) as Hnk.
    { intros [Hp ->]. simpl in Hp. by rewrite Hp in Hpf. }
    eapply wp_mono; [exact (IH s1 _ HI1)| |].
    + intros _ s' (HI' & Hk & Ha). rewrite Ha1 in Hk, Ha. split_and!; [done| |].
      * intros oid' o' Hin Ho'. destruct (decide (oid' = oid)) as [->|Hne]; [right; by rewrite Ho in Ho'; injection Ho' as <-|].
        eapply (Hk oid'); [set_solver|by rewrite lookup_delete_ne].
      * intros oid'. rewrite Ha. destruct (decide (oid' = oid)) as [->|Hne].
        { rewrite lookup_delete_eq, Ho, (decide_True (P := oid ∈ oid :: ids)) by set_solver.
          assert (keep force (Some (obj_of s r)) = None) as -> by (unfold keep; simpl; by rewrite decide_False).
          by case_decide. }
        rewrite lookup_delete_ne by done. repeat case_decide; set_solver.
    + intros e s' (HI' & Hs & Hk). rewrite Ha1 in Hs, Hk. split; [done|]. split.
      * etransitivity; [exact Hs|apply delete_subseteq].
      * intros oid' o' Ho' Hkeep. destruct (decide (oid' = oid)) as [->|Hne].
        { exfalso. rewrite Ho in Ho'. injection Ho' as <-. destruct Hkeep; [done|]. by simpl in *. }
        apply Hk; [by rewrite lookup_delete_ne|done].
Qed.

Lemma reset_peak_inv s held : StoreInv md s held →
  StoreInv md (set_allocator (reset_peak (allocator s)) s) held.
Proof.
  intros [[H1 H1'] H2 H3 H4 H5 H6 H7]. split; simpl; [|done..]. split; [|].
  - destruct H1 as [? ? ? ? ?]. split; simpl; [done..|lia].
  - intros Hs. destruct (H1' Hs) as [[? ?] ?]. split; [by split|done].
Qed.

Lemma contract_wipe scope force : contract (CWipe scope force).
Proof.
  intros s held _ HI. apply wp_bind. unfold wipe, resolve_scope. apply wp_bind.
  assert (∀ ids, (∀ oid, oid ∈ ids ↔ if String.eqb scope "fast" then False else is_Some (abs s !! oid)) →
    wp (w ← wipe_loop force ids (mkWiped 0 0 []); modify (λ s, set_allocator (reset_peak (allocator s)) s) ;; mret w) s
      (λ _ s', wp (E := SvcError) (mret []) s' (λ got s', StoreInv md s' (got ++ held) ∧ effect (CWipe scope force) s (abs s) (abs s'))
         (λ _ s', StoreInv md s' held ∧ failure (CWipe scope force) (abs s) (abs s')))
      (λ _ s', StoreInv md s' held ∧ failure (CWipe scope force) (abs s) (abs s'))) as Hloop.
  { intros ids Hids. apply wp_bind. eapply wp_mono; [by apply (wipe_loop_spec force held)| |done].
    intros w s1 (HI1 & Hk & Ha). apply wp_modify_bind, wp_ret, wp_ret. split; [by apply reset_peak_inv|].
    cbn [effect]. change (abs (set_allocator _ s1)) with (abs s1). destruct (String.eqb scope "fast") eqn:Hsc.
    - apply map_eq. intros oid. rewrite Ha. case_decide as Hin; [|done]. by apply Hids in Hin.
    - split; [intros oid o Ho; eapply Hk; [|done]; apply Hids; by exists o|].
      apply map_eq. intros oid. rewrite Ha, map_lookup_filter. case_decide as Hin.
      + unfold keep. destruct (abs s !! oid); [|done]. simpl. by case_decide; case_guard.
      + destruct (abs s !! oid) as [o|] eqn:Ho; [|done]. destruct Hin. apply Hids. by exists o. }
  destruct (String.eqb scope "backing" || String.eqb scope "all") eqn:Hsc.
  - unfold wp at 1, gets. apply Hloop. intros oid. rewrite elem_of_py_sorted.
    replace (String.eqb scope "fast") with false.
    2: { apply orb_true_iff in Hsc as [Hs%String.eqb_eq|Hs%String.eqb_eq]; subst scope; done. }
    rewrite abs_lookup, fmap_is_Some. unfold find_rec.
    destruct (assoc_get (objects s) oid) eqn:Hg.
    + split; [done|]. intros _. destruct (decide (oid ∈ (objects s).*1)) as [|Hn]; [done|].
      apply assoc_get_none in Hn. congruence.
    + apply assoc_get_none in Hg. split; [done|by intros [? ?]].
  - destruct (String.eqb scope "fast") eqn:Hf; [|apply wp_raise; split; [done|]; split; [done|by intros]].
    apply wp_ret, Hloop. set_solver.
Qed.

Lemma rollback_spec held ids : ∀ s, StoreInv md s held →
  wp (rollback_created ids) s
    (λ _ s', StoreInv md s' held ∧ abs s' = foldl (λ m oid, delete oid m) (abs s) ids) (λ _ _, False).
Proof.
  unfold rollback_created. induction ids as [|oid ids IH]; intros s HI; cbn [forM_ foldl]; [by apply wp_ret|].
  apply wp_bind, wp_get_bind. destruct (find_rec oid s) as [r|] eqn:Hf.
  - apply wp_modify_bind, wp_modify. destruct (remove_rec _ _ _ _ Hf HI) as [HI1 Ha1].
    set (s1 := set_objects _ _) in HI1, Ha1. rewrite <-Ha1. exact (IH s1 HI1).
  - apply wp_ret. rewrite delete_id by by apply abs_none. by apply IH.
Qed.

Lemma contract_rollback ids : contract (CRollback ids).
Proof.
  intros s held _ HI. apply wp_bind. eapply wp_mono; [by apply rollback_spec| |done].
  intros _ s' [HI' Ha]. by done_call.
Qed.

(** *** Records changed in place *)
Lemma contract_protect oid b : contract (CProtect oid b).
Proof.
  intros s held _ HI. apply wp_bind. unfold protect. apply wp_bind, require_spec; [|by split].
  intros r Hf. eapply (upd_rec_spec _ _ held _ _ (λ o, mkObj (o_bytes o) b (o_leases o) (o_version o))); [done| |].
  - intros r0 Hr0 _. split_and!; [by apply (rec_ok_keep _ _ _ Hr0); simpl; try done; apply Hr0|done..].
  - intros s' HI' Ha _ _. done_call. exists (obj_of s r). split; [by apply abs_some|].
    by rewrite Ha, (insert_alter_id _ _ _ _ (abs_some _ _ _ Hf)).
Qed.

Lemma upd_all_spec f g held ids : 
  (∀ s oid r, rec_ok md oid r → rec_ok md oid (f r) ∧ rec_extent (f r) = rec_extent r ∧
     rec_size_bytes (f r) = rec_size_bytes r ∧ obj_of s (f r) = g (obj_of s r)) →
  ∀ s, StoreInv md s held →
  wp (forM_ ids (λ oid, upd_rec oid f)) s
    (λ _ s', StoreInv md s' held ∧ abs s' = foldl (λ m oid, alter g oid m) (abs s) ids) (λ _ _, False).
Proof.
  intros Hf. induction ids as [|oid ids IH]; intros s HI; cbn [forM_ foldl]; [by apply wp_ret|].
  apply wp_bind. eapply (upd_rec_spec _ _ held _ _ g); [done|by intros; apply Hf|].
  intros s1 HI1 Ha _ _. rewrite <-Ha. by apply IH.
Qed.

Lemma lease_ok n s oid r : rec_ok md oid r → 0 ≤ rec_lease_refs r + n →
  rec_ok md oid (add_lease n r) ∧ rec_extent (add_lease n r) = rec_extent r ∧
  rec_size_bytes (add_lease n r) = rec_size_bytes r ∧ obj_of s (add_lease n r) = lease n (obj_of s r).
Proof. intros Hr Hn. split_and!; [by apply (rec_ok_keep _ _ _ Hr)|done..]. Qed.

Lemma acquire_check_spec ids s (Q : unit → Store T → Prop) (R : SvcError → Store T → Prop) :
  ((∀ oid, oid ∈ ids → is_Some (abs s !! oid)) → Q tt s) → (∀ e, R e s) →
  wp (acquire_leases_check ids) s Q R.
Proof.
  induction ids as [|oid ids IH]; intros HQ HR; cbn [acquire_leases_check]; [apply wp_ret, HQ; set_solver|].
  apply wp_bind, require_spec; [|done]. intros r Hf. apply IH; [|done]. intros Hi. apply HQ.
  intros oid' [->|Hin]%elem_of_cons; [rewrite (abs_some _ _ _ Hf); done|by apply Hi].
Qed.

Lemma contract_acquire ids : contract (CAcquire ids).
Proof.
  intros s held _ HI. apply wp_bind. unfold acquire_leases. apply wp_bind, acquire_check_spec; [|by split].
  intros Hin. eapply wp_mono; [apply (upd_all_spec (add_lease 1) (lease 1) held); [|done]| |done].
  - intros s0 oid r Hr. apply lease_ok; [done|]. destruct Hr as (_ & _ & ? & _). lia.
  - intros _ s' [HI' Ha]. by done_call.
Qed.

Lemma contract_release_leases ids : contract (CReleaseLeases ids).
Proof.
  intros s held _ HI. apply wp_bind. unfold release_leases.
  eapply wp_mono; [apply (upd_all_spec _ unlease held); [|done]| |done].
  - intros s0 oid r Hr. unfold unlease. simpl. destruct (Z.ltb_spec 0 (rec_lease_refs r)); [|done].
    apply lease_ok; [done|lia].
  - intros _ s' [HI' Ha]. by done_call.
Qed.

Lemma contract_write oid d : contract (CWrite oid d).
Proof.
  intros s held _ HI. apply wp_bind, require_spec; [|by split]. intros r Hf. apply wp_bind.
  pose proof (obj_length _ _ _ _ HI Hf) as Hl.
  destruct (decide (Z.of_nat (length d) = rec_size_bytes r)) as [Hd|Hd].
  - eapply write_rec_spec; [done|done|done|done|done|]. intros s' HI' _ Ha. done_call.
    exists (obj_of s r). split_and!; [by apply abs_some|simpl; lia|].
    by rewrite Ha, (insert_alter_id _ _ _ _ (abs_some _ _ _ Hf)).
  - unfold write_rec, fill_extent. apply wp_get_bind.
    destruct (live_within _ _ _ _ HI (rec_live _ _ _ _ Hf)) as (H1 & H2 & H3).
    pose proof (sv_recs _ _ _ HI _ _ Hf) as (_ & Hs & _).
    rewrite write_slice_in by lia. rewrite (proj2 (Z.eqb_neq _ _)) by done. by apply wp_raise.
Qed.

(** *** Extents *)
Lemma contract_scratch n : contract (CScratch n).
Proof.
  intros s held [Hn Hst] HI. apply wp_bind. unfold alloc_scratch. eapply st_alloc_spec; [done..| |by split].
  intros ext a HI' _. by done_call.
Qed.

Lemma contract_reserve dest n overwrite : contract (CReserve dest n overwrite).
Proof.
  intros s held [Hn Hst] HI. apply wp_bind. unfold reserve_inbound. apply wp_get_bind.
  set (P := λ (e : Extent + Nack) s', StoreInv md s' ((match e with inl ext => [ext] | inr _ => [] end) ++ held) ∧ abs s' = abs s).
  apply (wp_mono _ _ P _ (λ _ _, False)); [|by intros e s' [HI' Ha]; done_call|done].
  assert (∀ n, wp (E := SvcError) (mret (inr n)) s P (λ _ _, False)) as Hnack by (intros; by apply wp_ret).
  pose proof (st_alloc_spec md s held n
    (λ ext s', StoreInv md s' (ext :: held) ∧ abs s' = abs s) (λ _ s', s' = s) Hn Hst HI
    ltac:(done) ltac:(done)) as Ha.
  destruct (find_rec dest s) as [r|];
    [destruct (negb (rec_lease_refs r =? 0)); [apply Hnack|];
     destruct (negb overwrite); [apply Hnack|];
     destruct (negb (rec_size_bytes r =? n)); [apply Hnack|]|];
    unfold wp in *; (destruct (st_alloc n s) as [[ext|e] s1]; [done|by subst]).
Qed.

Lemma contract_return ext : contract (CReturn ext).
Proof.
  intros s held _ HI. apply wp_bind. unfold release_scratch. apply wp_modify, wp_ret.
  split; [by apply st_release_inv|done].
Qed.

Lemma contract_adopt dest ext n meta peer : contract (CAdopt dest ext n meta peer).
Proof.
  intros s held Hn HI. apply wp_bind. unfold adopt_inbound. apply wp_get_bind, wp_bind.
  assert (∀ p v w, rec_ok md dest (set_written w (set_version v (set_protected p (new_record dest n (or_empty meta) ext))))) as Hok.
  { intros p v w. cbn [valid] in Hn. destruct Hn as [[? ?] ?]. by split_and!. }
  destruct (find_rec dest s) as [o|] eqn:Hf.
  - apply wp_check_bind; [intros Hl%Z.eqb_eq|by split]. apply wp_modify. unfold set_rec.
    apply wp_modify_bind, wp_ret, wp_ret. set (r := set_written _ _). split.
    + apply (st_release_inv _ (set_objects (assoc_set (objects s) dest r) s) (rec_extent o) held).
      apply set_rec_swap; [apply Hok|done|done].
    + cbn [effect]. rewrite (abs_some _ _ _ Hf). split; [done|]. exact (abs_set s dest r).
  - apply wp_ret. unfold set_rec. apply wp_modify_bind, wp_ret, wp_ret. set (r := set_written _ _). split.
    + apply set_rec_inv; [exact (Hok false _ _)|]. by rewrite Hf.
    + cbn [effect]. rewrite (abs_none _ _ Hf). exact (abs_set s dest r).
Qed.

(** What is written into a held extent is what a later view of it reads. *)
Lemma fill_held s held ext d :
  StoreInv md s (ext :: held) → Z.of_nat (length d) ≤ size ext →
  wp (fill_extent ext (Z.of_nat (length d)) d) s
    (λ _ s', StoreInv md s' (ext :: held) ∧ abs s' = abs s ∧ view ext (Z.of_nat (length d)) s' = d)
    (λ _ _, False).
Proof.
  intros HI Hd. assert (ext ∈ live s (ext :: held)) as Hl by (unfold live; set_solver).
  destruct (live_within _ _ _ _ HI Hl) as (H1 & H2 & H3). unfold fill_extent. apply wp_get_bind.
  rewrite write_slice_in, Z.eqb_refl by lia. apply wp_modify. split_and!.
  - apply write_inside_inv; [done|lia..].
  - apply map_eq. intros oid. rewrite !abs_lookup. change (find_rec oid (set_mem _ s)) with (find_rec oid s).
    destruct (find_rec oid s) as [r|] eqn:Hf; [|done]. simpl. f_equal. unfold obj_of. f_equal.
    pose proof (sv_recs _ _ _ HI _ _ Hf) as (_ & Hs & _). unfold view_rec.
    eapply (write_apart md s (ext :: held) ext (rec_extent r)); [exact HI| |lia..].
    rewrite (live_objects s _ [_] _ (assoc_perm _ _ _ Hf)). simpl.
    rewrite <-!(Permutation_middle _ _ ext). apply Permutation_swap.
  - unfold view. simpl. rewrite read_slice_in by (rewrite ?splice_length; lia).
    rewrite Nat2Z.id. replace (Z.to_nat (offset ext)) with (Z.to_nat (offset ext) + 0)%nat at 2 by lia.
    rewrite slice_splice_inside by lia. apply splice_whole. rewrite length_take, length_drop. lia.
Qed.

Lemma contract_fill ext d : contract (CFill ext d).
Proof.
  intros s held Hd HI. apply wp_bind. eapply wp_mono; [exact (fill_held s held ext d HI Hd)| |done].
  intros _ s' (HI' & Ha & _). done_call. done.
Qed.

(** A live token is not handed out again. *)
Lemma fresh_token s held owner ext n :
  StoreInv md s (ext :: held) → 0 < size ext →
  transient_token n owner (offset ext) ∉ (transients s).*1.
Proof.
  intros HI Hs Hin. apply list_elem_of_fmap in Hin as ([k [o e]] & Hk & Hin). simpl in Hk.
  destruct (sv_named _ _ _ HI _ _ _ Hin) as (He & n' & ->).
  apply list_elem_of_split in Hin as (l1 & l2 & Hl).
  assert (Permutation (live s (ext :: held)) (ext :: e :: obj_extents s ++ l1.*2.*2 ++ l2.*2.*2 ++ held)) as Hp.
  { unfold live, trans_extents. rewrite Hl, !fmap_app, !fmap_cons. simpl. rewrite <-!(assoc (++)). simpl.
    rewrite <-!(Permutation_middle _ _ e), <-!(Permutation_middle _ _ ext). apply Permutation_swap. }
  pose proof (live_disjoint _ _ _ _ _ _ HI Hp) as Hd.
  destruct (live_within _ _ _ ext HI) as (H1 & H2 & H3); [rewrite Hp; set_solver|].
  destruct (live_within _ _ _ e HI) as (H4 & H5 & H6); [rewrite Hp; set_solver|].
  apply transient_token_offset in Hk; [|done..]. apply (Hd (offset e)). unfold holds. lia.
Qed.

Lemma contract_transient owner n : contract (CTransient owner n).
Proof.
  intros s held Hn HI. apply wp_bind. unfold alloc_transient. apply wp_bind.
  cbn [valid] in Hn. eapply st_alloc_spec; [lia|by intros _|exact HI| |by split]. intros ext a HI1 Hs.
  apply wp_get_bind, wp_modify_bind, wp_ret, wp_ret. set (s1 := set_allocator a s) in *.
  assert (0 < size ext) as Hpos by (pose proof (need_of_spec n); simpl in Hn; lia).
  pose proof (fresh_token s1 held owner ext (length (transients s1)) HI1 Hpos) as Hfr.
  split; [|done]. destruct HI1 as [H1 H2 H3 H4 H5 H6 H7]. split; simpl; [|done..| | |done|done].
  - eapply alloc_ok_perm; [|exact H1]. unfold live, trans_extents. simpl.
    rewrite assoc_set_absent by done. rewrite !fmap_app. simpl. rewrite <-!(assoc (++)). simpl.
    by rewrite <-!(Permutation_middle _ _ ext).
  - by apply assoc_set_keys.
  - intros k o e [Heq|Hin]%elem_of_assoc_set; [|by apply H5].
    injection Heq as -> -> ->. by split; [|eexists].
Qed.

Lemma contract_free_transient token : contract (CFreeTransient token).
Proof.
  intros s held _ HI. apply wp_bind. unfold free_transient. apply wp_get_bind.
  destruct (assoc_get (transients s) token) as [[o ext]|] eqn:Hg; [|by apply wp_raise].
  apply wp_modify_bind, wp_modify, wp_ret. split; [|done].
  apply (st_release_inv _ (set_transients (assoc_del (transients s) token) s) ext held).
  destruct HI as [H1 H2 H3 H4 H5 H6 H7]. pose proof (assoc_perm _ _ _ Hg) as Hp. split; simpl; [|done..| | |done|done].
  - eapply alloc_ok_perm; [|exact H1]. unfold live, trans_extents. simpl. rewrite Hp at 1. simpl.
    by rewrite <-!(Permutation_middle _ _ ext).
  - by apply assoc_del_nodup.
  - intros k o' e Hin. apply H5 with (o := o'). rewrite Hp. by apply list_elem_of_further.
Qed.

Lemma contract_duplicate src dst : contract (CDuplicate src dst).
Proof.
  intros s held _ HI. apply wp_bind. unfold duplicate. apply wp_bind, require_spec; [|by split].
  intros r Hf. apply wp_get_bind, wp_check_bind; [|by split]. intros Hd.
  assert (find_rec dst s = None) as Hdst.
  { destruct (find_rec dst s); [|done]. by rewrite bool_decide_true in Hd. }
  assert (src ≠ dst) as Hne by congruence. pose proof (sv_recs _ _ _ HI _ _ Hf) as (_ & Hs & _ & Hst).
  pose proof (obj_length _ _ _ _ HI Hf) as Hlen.
  apply wp_bind. eapply st_alloc_spec; [lia|done|exact HI| |by split]. intros ext a HI1 He.
  set (s1 := set_allocator a s) in *. pose proof (need_of_spec (rec_size_bytes r)) as [Hneed _].
  set (d := new_record dst (rec_size_bytes r) (rec_meta r) ext).
  assert (rec_ok md dst d) as Hok by (split_and!; simpl; [done|lia|lia|done|done]).
  unfold set_rec. apply wp_modify_bind. set (s2 := set_objects _ s1).
  assert (StoreInv md s2 held) as HI2.
  { apply set_rec_inv; [done|]. by change (find_rec dst s1) with (find_rec dst s); rewrite Hdst. }
  assert (find_rec dst s2 = Some d) as Hf2 by (unfold s2; by rewrite find_rec_set, decide_True).
  apply wp_gets_bind, wp_bind. eapply write_rec_spec; [exact HI2|exact Hf2|done|done|exact Hlen|].
  intros s3 HI3 Ho3 Ha3. apply wp_bind.
  eapply (upd_rec_spec _ _ held _ _ id); [exact HI3| |].
  { intros r0 Hr0 _. split_and!; [by apply (rec_ok_keep _ _ _ Hr0); simpl; try done; apply Hr0|done..]. }
  intros s4 HI4 Ha4 _ Hf4. specialize (Hf4 dst). rewrite decide_True in Hf4 by done.
  assert (find_rec dst s3 = Some d) as Hf3 by (unfold find_rec in *; by rewrite Ho3).
  rewrite Hf3 in Hf4. apply require_spec; [|by rewrite Hf4]. intros r4 _. done_call.
  exists (obj_of s r). split_and!; [by apply abs_some|by apply abs_none|].
  rewrite Ha4, alter_id by done. rewrite Ha3. unfold s2. rewrite abs_set.
  by rewrite (insert_alter_id _ _ _ _ (lookup_insert_eq _ _ _)), insert_insert_eq.
Qed.

(** ** Every call *)
Lemma every_contract c : contract c.
Proof.
  destruct c; [apply contract_put|apply contract_create|apply contract_put_file|apply contract_release
    |apply contract_protect|apply contract_wipe|apply contract_duplicate|apply contract_reserve
    |apply contract_adopt|apply contract_scratch|apply contract_return|apply contract_fill
    |apply contract_acquire|apply contract_release_leases|apply contract_rollback|apply contract_transient
    |apply contract_free_transient|apply contract_write].
Qed.
End spec.
