(* ===== verification/SvcStoreRun.v ===== *)
(** * What holds of the store from boot on

    Theorems about every sequence of calls: the extents never overlap, the
    store behaves as a map from names to bytes, a leased object stays as it is,
    a drained slab is whole again.  And what the sizes that nobody checks do. *)
From S2P Require Import Prelude SimSchema CoreProgram CoreJson SvcStore.
From stdpp Require Import base tactics option list gmap strings.
From Stdlib Require Import ZArith Lia Init.Byte.
From S2P Require Import SvcAlloc SvcStoreInv SvcStoreSpec.
Open Scope Z_scope.

(** ** Sequences of calls *)
Section runs.
Context {T : Type} `{Num T} (md : Mode).

(** The store and the extents in its callers' hands. *)
Definition system : Type := Store T * list Extent.

(** One call at some time; [ok] tells whether it
    returned. *)
Inductive step (st : system) (c : call) : bool → system → Prop :=
| step_returns now rest got s' :
    valid md c → Permutation st.2 (takes c ++ rest) →
    perform now c st.1 = (Ok got, s') → step st c true (s', got ++ rest)
| step_raises now rest e s' :
    valid md c → Permutation st.2 (takes c ++ rest) →
    perform now c st.1 = (Err e, s') → step st c false (s', takes c ++ rest).

Inductive run (st : system) : list call → system → Prop :=
| run_nil : run st [] st
| run_snoc cs st1 c ok st2 : run st cs st1 → step st1 c ok st2 → run st (cs ++ [c]) st2.

Definition boot : system := (new_store (boot_cap md), []).

Lemma step_inv st c ok st' : StoreInv md st.1 st.2 → step st c ok st' →
  StoreInv md st'.1 st'.2 ∧
  if ok then effect c st.1 (abs st.1) (abs st'.1) else failure c (abs st.1) (abs st'.1).
Proof.
  intros HI Hs. destruct Hs as [now rest got s' Hv Hp Hr|now rest e s' Hv Hp Hr];
    pose proof (every_contract now md c st.1 rest Hv (store_inv_perm _ _ _ _ Hp HI)) as Hc;
    unfold wp in Hc; by rewrite Hr in Hc.
Qed.

Lemma run_inv cs st : 0 < boot_cap md → run boot cs st → StoreInv md st.1 st.2.
Proof.
  intros Hc. induction 1 as [|cs st1 c ok st2 _ IH Hs]; [by apply new_store_inv|].
  by eapply step_inv.
Qed.
End runs.

Section theorems.
Context {T : Type} `{Num T}.

(** C5: From boot on, through every sequence of calls, no two of the extents in use
    share a byte: residents, transients of runs, inbound reservations and
    scratch.  All lie in the slab, every byte of the slab is in exactly one
    free or used extent, and the counters are exact. *)
Theorem store_never_overlaps (cap : Z) (cs : list (call (T := T))) (s : Store T) held :
  0 < cap → run (mkMode False cap) (boot (mkMode False cap)) cs (s, held) →
  (∀ e f l, Permutation (live s held) (e :: f :: l) → disjoint_extents e f) ∧
  (∀ x, 0 ≤ x < cap → covers (free (allocator s) ++ live s held) x = 1) ∧
  (∀ oid r, find_rec oid s = Some r → Z.of_nat (length (view_rec r s)) = rec_size_bytes r) ∧
  used_bytes (allocator s) = sumZ (size <$> live s held) ∧
  used_bytes (allocator s) ≤ peak_bytes (allocator s) ≤ cap.
Proof.
  intros Hc Hr. pose proof (run_inv (mkMode False cap) _ _ Hc Hr) as HI. simpl in HI. pose proof (sv_cap _ _ _ HI) as Hcap. simpl in Hcap.
  destruct (ok_inv _ _ _ (sv_alloc _ _ _ HI)) as [_ Ht Hu _ Hp]. rewrite Hcap in *. split_and!; [|done| |done|lia|lia].
  - intros e f l. by apply (live_disjoint (mkMode False cap)).
  - intros oid r Hf. by eapply (obj_length (mkMode False cap)).
Qed.

(** C4: The store implements a map from names to objects: a call that returns has
    the effect of its specification on the map of bytes, protection, leases
    and versions, whatever the layout of the slab, and a call that raises
    changes nothing, except that a wipe that meets a leased object has
    removed others and a read from a file that ends early has overwritten
    its object. *)
Theorem store_refines_map (cap : Z) (cs : list (call (T := T))) st c ok st' :
  0 < cap → run (mkMode False cap) (boot (mkMode False cap)) cs st → step (mkMode False cap) st c ok st' →
  if ok then effect c st.1 (abs st.1) (abs st'.1) else failure c (abs st.1) (abs st'.1).
Proof. intros Hc Hr Hs. exact (proj2 (step_inv _ _ _ _ _ (run_inv (mkMode False cap) _ _ Hc Hr) Hs)). Qed.

(** *** Leases *)

(** The calls that may touch a leased object: its lease holder's, a run's. *)
Definition releases (oid : string) (c : call (T := T)) : Prop :=
  match c with
  | CReleaseLeases ids | CRollback ids => oid ∈ ids
  | CWrite oid' _ => oid' = oid
  | _ => False
  end.

Definition still (o : Obj) (o' : option Obj) : Prop :=
  ∃ o1, o' = Some o1 ∧ o_bytes o1 = o_bytes o ∧ o_leases o ≤ o_leases o1.

Lemma still_refl o : still o (Some o).
Proof. by exists o. Qed.

Lemma fold_alter_ne g (m : gmap string Obj) ids oid :
  oid ∉ ids → foldl (λ m oid, alter g oid m) m ids !! oid = m !! oid.
Proof.
  revert m. induction ids as [|i ids IH]; intros m Hn; [done|]. cbn [foldl].
  apply not_elem_of_cons in Hn as [Hne Hn]. rewrite IH by done. by rewrite lookup_alter_ne.
Qed.

Lemma fold_delete_ne (m : gmap string Obj) ids oid :
  oid ∉ ids → foldl (λ m oid, delete oid m) m ids !! oid = m !! oid.
Proof.
  revert m. induction ids as [|i ids IH]; intros m Hn; [done|]. cbn [foldl].
  apply not_elem_of_cons in Hn as [Hne Hn]. rewrite IH by done. by rewrite lookup_delete_ne.
Qed.

Lemma fold_lease (m : gmap string Obj) ids oid o :
  m !! oid = Some o → still o (foldl (λ m oid, alter (lease 1) oid m) m ids !! oid).
Proof.
  revert m o. induction ids as [|i ids IH]; intros m o Ho; cbn [foldl]; [rewrite Ho; apply still_refl|].
  destruct (decide (i = oid)) as [->|Hne].
  - destruct (IH (alter (lease 1) oid m) (lease 1 o)) as (o1 & H1 & H2 & H3); [by rewrite lookup_alter_eq, Ho|].
    exists o1. split_and!; [done..|]. simpl in H3. lia.
  - apply IH. by rewrite lookup_alter_ne.
Qed.

Lemma put_effect_leased oid oid' b (m m' : gmap string Obj) o :
  put_effect oid' b m m' → m !! oid = Some o → 0 < o_leases o → m' !! oid = Some o.
Proof.
  unfold put_effect. intros He Ho Hl. destruct (decide (oid' = oid)) as [->|Hne].
  - rewrite Ho in He. destruct He as (He & _). lia.
  - destruct (m !! oid') as [o'|]; [destruct He as (_ & _ & ->)|subst m']; by rewrite lookup_insert_ne.
Qed.

Lemma effect_leased (c : call (T := T)) s oid o (m m' : gmap string Obj) :
  effect c s m m' → ¬ releases oid c → m !! oid = Some o → 0 < o_leases o → still o (m' !! oid).
Proof.
  intros He Hn Ho Hl. assert (m' !! oid = Some o → still o (m' !! oid)) as Hsame by (intros ->; apply still_refl).
  destruct c; cbn [effect releases] in He, Hn; try (subst m'; by apply Hsame).
  - by apply Hsame; eapply put_effect_leased.
  - destruct He as (b & _ & He & _). by apply Hsame; eapply put_effect_leased.
  - destruct He as (n & reads & _ & _ & He). by apply Hsame; eapply put_effect_leased.
  - apply Hsame. destruct (m !! oid0) as [o'|] eqn:Ho'; [|by subst]. destruct He as (He & _ & ->).
    rewrite lookup_delete_ne; [done|]. intros ->. rewrite Ho in Ho'. injection Ho' as <-. lia.
  - destruct He as (o' & Ho' & ->). destruct (decide (oid0 = oid)) as [->|Hne].
    + rewrite Ho in Ho'. injection Ho' as <-. rewrite lookup_insert_eq. by eexists.
    + apply Hsame. by rewrite lookup_insert_ne.
  - destruct (String.eqb scope "fast"); [subst; by apply Hsame|]. destruct He as [Hk ->]. apply Hsame.
    apply map_lookup_filter_Some. split; [done|]. destruct (Hk _ _ Ho); [done|lia].
  - destruct He as (o' & _ & Hd & ->). apply Hsame. rewrite lookup_insert_ne; [done|]. congruence.
  - apply Hsame. destruct (decide (dest = oid)) as [->|Hne].
    + rewrite Ho in He. lia.
    + destruct (m !! dest); [destruct He as [_ ->]|subst m']; by rewrite lookup_insert_ne.
  - destruct He as [_ ->]. by apply fold_lease.
  - subst m'. apply Hsame. by rewrite fold_alter_ne.
  - subst m'. apply Hsame. by rewrite fold_delete_ne.
  - destruct He as (o' & _ & _ & ->). apply Hsame. by rewrite lookup_insert_ne.
Qed.

Lemma failure_leased (c : call (T := T)) oid o (m m' : gmap string Obj) :
  failure c m m' → m !! oid = Some o → 0 < o_leases o → still o (m' !! oid).
Proof.
  intros He Ho Hl. assert (m' !! oid = Some o → still o (m' !! oid)) as Hsame by (intros ->; apply still_refl).
  apply Hsame. destruct c; cbn [failure] in He; try (by subst m').
  - destruct He as [->|[b He]]; [done|]. by eapply put_effect_leased.
  - destruct He as [_ He]. apply (He oid o Ho). right. lia.
Qed.


(** When the requests are not empty, the free list coalesces completely: once
    nothing is resident, reserved or transient any more, the whole slab is one
    free extent again, and every request that fits the slab is served, at offset
    zero. *)
Theorem drained_store_is_whole (cap : Z) (cs : list (call (T := T))) (s : Store T) (n : Z) :
  0 < cap → run (mkMode True cap) (boot (mkMode True cap)) cs (s, []) → objects s = [] → transients s = [] →
  free (allocator s) = [mkExtent 0 cap] ∧
  (0 ≤ n → need_of n ≤ cap → ∃ s', st_alloc n s = (Ok (mkExtent 0 (need_of n)), s')).
Proof.
  intros Hc Hr Ho Ht. pose proof (run_inv (mkMode True cap) _ _ Hc Hr) as HI. simpl in HI.
  assert (live s [] = []) as Hl by (unfold live, obj_extents, trans_extents; by rewrite Ho, Ht).
  pose proof (sv_alloc _ _ _ HI) as Ha. rewrite Hl in Ha. destruct (ok_tight _ _ _ Ha I) as [Hti _].
  pose proof (sv_cap _ _ _ HI) as Hcap. simpl in Hcap.
  assert (free (allocator s) = [mkExtent 0 cap]) as Hf.
  { rewrite <-Hcap. apply drained_whole; [by rewrite Hcap|apply Ha|done]. }
  split; [done|]. intros Hn Hfit. unfold st_alloc, alloc. rewrite Hf. cbn [first_fit size offset].
  rewrite (proj2 (Z.leb_le _ _)) by done. eauto.
Qed.
End theorems.
