(* ===== verification/SvcHandlers.v ===== *)
(** * Store endpoints ([dataflow/service/handlers_store.py])

    The handlers of the queued operations and the fast-path queries.  A
    request is a JSON dict with an optional binary payload; the wire
    format has the argument types of the client, and an argument of another
    type is a [TypeError] of the model.  The file system, the token generator
    of numpy and [fnmatch] are arguments. *)
From S2P Require Import Prelude SimSchema CoreProgram CoreJson SvcStore.
From stdpp Require Import base tactics option list gmap strings.
From Stdlib Require Import ZArith Lia Init.Byte.
From S2P Require Import SvcAlloc.
Open Scope Z_scope.

Section Handlers.
Context {T : Type} `{Num T}.
Notation jdict := (jdict (T := T)).

Record QueuedCall := mkCall {
  qc_ticket : string;
  qc_session_id : string;
  qc_op : string;
  qc_args : jdict;
  qc_payload : option (list byte);
  qc_reply_to : nat;
}.

(** What a handler returns: the result, a binary payload beside it, and the file
    it has written. *)
Record Reply := mkReply {
  rp_result : json T;
  rp_payload : option (list byte);
  rp_file : option (string * list byte);
}.
Definition reply (d : jdict) : Reply := mkReply (JDict d) None None.

(** ** Arguments *)
Definition arg (a : jdict) (k : string) : result SvcError (json T) :=
  match dget a k with Some v => Ok v | None => Err (KeyError k) end.
Definition arg_str (a : jdict) (k : string) : result SvcError string :=
  v ← arg a k; match v with JStr s => Ok s | _ => Err (TypeError k) end.
(** [int(a[k])]. *)
Definition arg_int (a : jdict) (k : string) : result SvcError Z :=
  v ← arg a k; match v with JInt z => Ok z | _ => Err (TypeError k) end.
Definition arg_dict (a : jdict) (k : string) : result SvcError jdict :=
  v ← arg a k; match v with JDict d => Ok d | _ => Err (TypeError k) end.
(** [bool(a.get(k))]. *)
Definition arg_true (a : jdict) (k : string) : bool :=
  match dget a k with Some v => truthy v | None => false end.
(** [a.get(k)] of a dict or nothing. *)
Definition arg_meta (a : jdict) : result SvcError (option jdict) :=
  match dget a "meta" with
  | None | Some JNull => Ok None
  | Some (JDict d) => Ok (Some d)
  | Some _ => Err (TypeError "meta")
  end.

Definition object_reply (r : ObjectRecord T) : Reply := reply [("object", JDict (info r))]%string.

Definition Handler : Type := T → QueuedCall → St (T := T) Reply.

Context (fs : FileSystem) (rng_tokens : Z → Z → Z → list byte) (fnmatch : string → string → bool).

(** ** Queued operations *)
Definition put_object : Handler := λ now call,
  let a := qc_args call in
  if arg_true a "path" then
    oid ← lift (arg_str a "id");
    path ← lift (arg_str a "path");
    meta ← lift (arg_meta a);
    r ← put_from_file fs now oid path meta (qc_session_id call);
    mret (object_reply r)
  else
    match qc_payload call with
    | None => raise BadRequest
    | Some d =>
        oid ← lift (arg_str a "id");
        meta ← lift (arg_meta a);
        r ← put now oid (Some d) None meta (qc_session_id call);
        mret (object_reply r)
    end.

Definition get_object : Handler := λ _ call,
  let a := qc_args call in
  if arg_true a "dest" then
    oid ← lift (arg_str a "id");
    dest ← lift (arg_str a "dest");
    '(n, b) ← get_to_file oid;
    mret (mkReply (JDict [("path", JStr dest); ("bytes", JInt n)]%string) None (Some (dest, b)))
  else
    oid ← lift (arg_str a "id");
    r ← require oid;
    b ← get_bytes oid;
    mret (mkReply (JDict [("object", JDict (info r))]%string) (Some b) None).

Definition create_object : Handler := λ now call,
  let a := qc_args call in
  oid ← lift (arg_str a "id");
  n ← lift (arg_int a "size_bytes");
  meta ← lift (arg_meta a);
  r ← put now oid None (Some n) meta (qc_session_id call);
  mret (object_reply r).

Definition fill_object (now : T) (oid : string) (fill : jdict) (call : QueuedCall) : St Reply :=
  let kind := match dget fill "kind" with Some (JStr k) => k | _ => "" end in
  if String.eqb kind "zeros" then
    n ← lift (arg_int fill "size_bytes");
    r ← put now oid None (Some n) None (qc_session_id call);
    write_rec r (replicate (Z.to_nat (rec_size_bytes r)) x00) ;;
    mret (object_reply r)
  else if String.eqb kind "file" then
    path ← lift (arg_str fill "path");
    r ← put_from_file fs now oid path None (qc_session_id call);
    mret (object_reply r)
  else if String.eqb kind "tokens" then
    seed ← lift (arg_int fill "seed");
    vocab ← lift (arg_int fill "vocab");
    n ← lift (arg_int fill "n");
    r ← put now oid (Some (rng_tokens seed vocab n)) None None (qc_session_id call);
    mret (object_reply r)
  else raise BadRequest.

Definition materialize_object : Handler := λ now call,
  oid ← lift (arg_str (qc_args call) "id");
  fill ← lift (arg_dict (qc_args call) "fill");
  fill_object now oid fill call.

Definition release_object : Handler := λ _ call,
  oid ← lift (arg_str (qc_args call) "id");
  freed ← st_release_object oid (arg_true (qc_args call) "force");
  mret (reply [("freed", JDict [("backing", JBool freed); ("fast", JBool false)])]%string).

Definition set_protect (value : bool) : Handler := λ _ call,
  oid ← lift (arg_str (qc_args call) "id");
  protect oid value ;;
  mret (reply [("ok", JBool true)]%string).
Definition protect_object : Handler := set_protect true.
Definition unprotect_object : Handler := set_protect false.

Definition duplicate_object : Handler := λ now call,
  src ← lift (arg_str (qc_args call) "src");
  dst ← lift (arg_str (qc_args call) "dst");
  r ← duplicate now src dst;
  mret (object_reply r).

Definition wipe_objects : Handler := λ _ call,
  scope ← lift (arg_str (qc_args call) "scope");
  w ← wipe scope (arg_true (qc_args call) "force");
  mret (reply [("freed_bytes", JInt (freed_bytes w)); ("n_objects", JInt (n_objects w));
               ("skipped", JList (JStr <$> skipped w))]%string).

(** [server.dispatcher.handlers.update({...})]. *)
Definition store_handlers : list (string * Handler) :=
  [("put_object", put_object); ("get_object", get_object); ("create_object", create_object);
   ("materialize_object", materialize_object); ("release_object", release_object);
   ("protect_object", protect_object); ("unprotect_object", unprotect_object);
   ("duplicate_object", duplicate_object); ("wipe", wipe_objects)]%string.

(** ** Fast path *)
Definition query_object (a : jdict) (s : Store T) : result SvcError (json T) :=
  oid ← arg_str a "id";
  Ok (match find_rec oid s with Some r => JDict (info r) | None => JNull end).

(** [l[:n]]. *)
Definition py_take {A} (n : Z) (l : list A) : list A :=
  take (Z.to_nat (if n <? 0 then n + Z.of_nat (length l) else n)) l.

Definition list_objects (a : jdict) (s : Store T) : result SvcError (json T) :=
  pat ← match dget a "pattern" with
        | None => Ok "*"%string
        | Some (JStr p) => Ok p
        | Some _ => Err (TypeError "pattern")
        end;
  limit ← match dget a "limit" with None => Ok 1000 | Some _ => arg_int a "limit" end;
  let names := filter (λ k, fnmatch k pat = true) (py_sorted String.leb (objects s).*1) in
  Ok (JList ((λ k, match find_rec k s with Some r => JDict (info r) | None => JNull end)
             <$> py_take limit names)).

Definition stats_to_dict (st : Stats) : jdict :=
  [("capacity_bytes", JInt (st_capacity_bytes st)); ("used_bytes", JInt (st_used_bytes st));
   ("peak_bytes", JInt (st_peak_bytes st)); ("free_bytes", JInt (st_free_bytes st));
   ("largest_free_extent", JInt (st_largest_free_extent st));
   ("free_extents", JInt (st_free_extents st))]%string.

Definition query_backing (s : Store T) : json T :=
  let u := usage s in
  JDict (app (stats_to_dict (us_stats u))
    [("n_objects", JInt (us_n_objects u)); ("resident_bytes", JInt (us_resident_bytes u));
     ("transient_bytes", JInt (us_transient_bytes u));
     ("by_owner", JDict ((λ o, (o.1, JInt o.2)) <$> us_by_owner u));
     ("largest", JList ((λ o, JList [JStr o.1; JInt o.2]) <$> largest 10 s))])%string.

Definition query_fast : json T :=
  JDict [("capacity_bytes", JInt 0); ("used_bytes", JInt 0); ("n_objects", JInt 0);
         ("note", JStr "fast residency across runs lands in S2")]%string.
End Handlers.

Arguments QueuedCall T : clear implicits.
Arguments Reply T : clear implicits.
Arguments Handler T : clear implicits.
