(* ===== verification/SvcDispatch.v ===== *)
(** * The service's dispatcher ([dataflow/service/server.py])

    One thread executes the queued calls in order; connection threads submit,
    and threads that release leases put the parked calls back.  [dstep] is one
    atomic action of one of the threads: the dispatcher's loop is cut where
    others can come between, after the queue's [get], after the handler and
    before a parked call is appended.  What the handlers work on is a parameter:
    the world [W]. *)
From S2P Require Import Prelude SimSchema CoreProgram CoreJson SvcStore SvcHandlers.
From stdpp Require Import base tactics option list gmap strings.
From Stdlib Require Import ZArith Lia.
Open Scope Z_scope.

Section Dispatch.
Context {T : Type} `{Num T}.
Context {W : Type} (handlers : list (string * (T → QueuedCall T → M W SvcError (Reply T)))).

(** ** State *)
Record CallNote := mkNote { cn_ticket : string; cn_op : string; cn_t : T; cn_status : string }.

Record Session := mkSession {
  sess_id : string; sess_client : string; sess_connected : T; sess_calls : Z;
  sess_recent : list CallNote;
}.

Definition RECENT_CAP : nat := 256.

Definition note_call (now : T) (ticket op status : string) (x : Session) : Session :=
  let recent := sess_recent x ++ [mkNote ticket op now status] in
  mkSession (sess_id x) (sess_client x) (sess_connected x) (sess_calls x + 1)
    (drop (length recent - RECENT_CAP) recent).

(** A [call_done] frame: to which connection, for which ticket. *)
Inductive Outcome :=
| Done (r : Reply T)
| Failed (e : SvcError).
Record Push := mkPush { pu_conn : nat; pu_ticket : string; pu_outcome : Outcome }.

(** Where the dispatcher thread is. *)
Inductive Phase :=
| Idle
| Running (c : QueuedCall T)      (* got from the queue, before the handler *)
| Parking (c : QueuedCall T)      (* the handler raised LEASED *)
| Stopped.

Record Disp := mkDisp {
  fifo : list (option (QueuedCall T));
  parked : list (QueuedCall T);
  queue_depth : Z;
  phase : Phase;
  pushes : list Push;
  sessions : list (string * Session);
  world : W;
}.

Definition boot_disp (w : W) : Disp := mkDisp [] [] 0 Idle [] [] w.

(** [ServiceError.code]; Python's exceptions become INTERNAL. *)
Definition code (e : SvcError) : string :=
  match e with
  | Capacity _ => "CAPACITY" | BadRequest => "BAD_REQUEST" | UnknownObject _ => "UNKNOWN_OBJECT"
  | BindingMismatch _ _ _ => "BINDING_MISMATCH" | Protected _ => "PROTECTED" | Leased _ => "LEASED"
  | IoError => "IO_ERROR" | UnknownOp _ => "UNKNOWN_OP"
  | VersionSkew => "VERSION_SKEW" | Collision _ => "COLLISION" | VerifyFailed _ => "VERIFY_FAILED"
  | UnknownSnapshot _ => "UNKNOWN_SNAPSHOT" | UnknownRestore _ => "UNKNOWN_RESTORE"
  | UnknownProgram _ => "UNKNOWN_PROGRAM" | UnknownRun _ => "UNKNOWN_RUN" | MissingInputs _ _ => "MISSING_INPUTS"
  | RunFailed _ => "RUN_FAILED" | RunCancelled _ => "CANCELLED"
  | KeyError _ | ValueError | TypeError _ | InvalidProgramDict | RuntimeError => "INTERNAL"
  end.

Definition is_leased (e : SvcError) : bool := match e with Leased _ => true | _ => false end.

(** ** The threads' actions *)

(** [submit]. *)
Definition submit (c : QueuedCall T) (d : Disp) : Disp :=
  mkDisp (fifo d ++ [Some c]) (parked d) (queue_depth d + 1) (phase d) (pushes d) (sessions d) (world d).

(** [stop]. *)
Definition stop (d : Disp) : Disp :=
  mkDisp (fifo d ++ [None]) (parked d) (queue_depth d) (phase d) (pushes d) (sessions d) (world d).

(** [call = self.fifo.get()]. *)
Definition take_call (d : Disp) : option Disp :=
  match phase d, fifo d with
  | Idle, Some c :: q =>
      Some (mkDisp q (parked d) (queue_depth d - 1) (Running c) (pushes d) (sessions d) (world d))
  | Idle, None :: q => Some (mkDisp q (parked d) (queue_depth d) Stopped (pushes d) (sessions d) (world d))
  | _, _ => None
  end.

Definition call_handler (now : T) (c : QueuedCall T) : M W SvcError (Reply T) :=
  match assoc_get handlers (qc_op c) with
  | Some fn => fn now c
  | None => raise (UnknownOp (qc_op c))
  end.

Definition note_session (now : T) (c : QueuedCall T) (status : string)
    (l : list (string * Session)) : list (string * Session) :=
  match assoc_get l (qc_session_id c) with
  | Some x => assoc_set l (qc_session_id c) (note_call now (qc_ticket c) (qc_op c) status x)
  | None => l
  end.

(** The [try] of the loop body, the reply and [note_call]; LEASED is not
    replied to. *)
Definition execute_call (now : T) (d : Disp) : option Disp :=
  match phase d with
  | Running c =>
      let '(r, w) := call_handler now c (world d) in
      match r with
      | Ok res =>
          Some (mkDisp (fifo d) (parked d) (queue_depth d) Idle
                  (pushes d ++ [mkPush (qc_reply_to c) (qc_ticket c) (Done res)])
                  (note_session now c "ok" (sessions d)) w)
      | Err e =>
          if is_leased e then
            Some (mkDisp (fifo d) (parked d) (queue_depth d) (Parking c) (pushes d) (sessions d) w)
          else
            Some (mkDisp (fifo d) (parked d) (queue_depth d) Idle
                    (pushes d ++ [mkPush (qc_reply_to c) (qc_ticket c) (Failed e)])
                    (note_session now c (code e) (sessions d)) w)
      end
  | _ => None
  end.

(** [self._parked.append(call)]. *)
Definition park (d : Disp) : option Disp :=
  match phase d with
  | Parking c => Some (mkDisp (fifo d) (parked d ++ [c]) (queue_depth d) Idle (pushes d) (sessions d) (world d))
  | _ => None
  end.

(** [unpark_all]. *)
Definition unpark_all (d : Disp) : Disp :=
  foldl (λ d c, submit c d)
    (mkDisp (fifo d) [] (queue_depth d) (phase d) (pushes d) (sessions d) (world d)) (parked d).

(** ** Interleavings *)
Definition set_world (w : W) (d : Disp) : Disp :=
  mkDisp (fifo d) (parked d) (queue_depth d) (phase d) (pushes d) (sessions d) w.

Inductive action :=
| ASubmit (c : QueuedCall T)
| AStop
| ATake
| AExecute (now : T)
| APark
| AWorld (w : W)       (* another thread changes the world *)
| AUnpark.             (* its hook, after it has released leases *)

Definition dstep (a : action) (d : Disp) : option Disp :=
  match a with
  | ASubmit c => Some (submit c d)
  | AStop => Some (stop d)
  | ATake => take_call d
  | AExecute now => execute_call now d
  | APark => park d
  | AWorld w => Some (set_world w d)
  | AUnpark => Some (unpark_all d)
  end.

Fixpoint dsteps (l : list action) (d : Disp) : option Disp :=
  match l with
  | [] => Some d
  | a :: l => d ← dstep a d; dsteps l d
  end.

(** ** Nothing is lost *)
Definition submitted (l : list action) : list (QueuedCall T) :=
  l ≫= λ a, match a with ASubmit c => [c] | _ => [] end.

Definition in_hand (p : Phase) : list (QueuedCall T) :=
  match p with Running c | Parking c => [c] | _ => [] end.

Definition queued (d : Disp) : list (QueuedCall T) := omap id (fifo d).

(** The tickets of the calls that wait somewhere, and of those answered. *)
Definition waiting (d : Disp) : list (QueuedCall T) := queued d ++ in_hand (phase d) ++ parked d.
Definition to_whom (c : QueuedCall T) : nat * string := (qc_reply_to c, qc_ticket c).
Definition answered (d : Disp) : list (nat * string) := (λ p, (pu_conn p, pu_ticket p)) <$> pushes d.
Definition accounted (d : Disp) : list (nat * string) := answered d ++ (to_whom <$> waiting d).

Lemma queued_submit c d : queued (submit c d) = queued d ++ [c].
Proof. unfold queued. simpl. by rewrite omap_app. Qed.

Lemma unpark_spec d :
  queued (unpark_all d) = queued d ++ parked d ∧ parked (unpark_all d) = [] ∧
  queue_depth (unpark_all d) = queue_depth d + Z.of_nat (length (parked d)) ∧
  phase (unpark_all d) = phase d ∧ pushes (unpark_all d) = pushes d ∧ world (unpark_all d) = world d.
Proof.
  unfold unpark_all. set (d0 := mkDisp _ [] _ _ _ _ _).
  assert (∀ l d0, queued (foldl (λ d c, submit c d) d0 l) = queued d0 ++ l ∧
    parked (foldl (λ d c, submit c d) d0 l) = parked d0 ∧
    queue_depth (foldl (λ d c, submit c d) d0 l) = queue_depth d0 + Z.of_nat (length l) ∧
    phase (foldl (λ d c, submit c d) d0 l) = phase d0 ∧ pushes (foldl (λ d c, submit c d) d0 l) = pushes d0 ∧
    world (foldl (λ d c, submit c d) d0 l) = world d0) as Hl.
  { clear. induction l as [|c l IH]; intros d; cbn [foldl].
    - rewrite app_nil_r. cbn [length]. split_and!; try done. lia.
    - destruct (IH (submit c d)) as (H1 & H2 & H3 & H4 & H5 & H6).
      rewrite H1, H2, H3, H4, H5, H6, queued_submit, <-(assoc (++)). simpl. split_and!; try done. lia. }
  exact (Hl (parked d) d0).
Qed.

Lemma execute_cases now d d' : execute_call now d = Some d' → ∃ c,
  phase d = Running c ∧ fifo d' = fifo d ∧ parked d' = parked d ∧ queue_depth d' = queue_depth d ∧
  ((phase d' = Parking c ∧ pushes d' = pushes d ∧ ∃ oid, (call_handler now c (world d)).1 = Err (Leased oid)) ∨
   (phase d' = Idle ∧ ∃ o, pushes d' = pushes d ++ [mkPush (qc_reply_to c) (qc_ticket c) o])).
Proof.
  unfold execute_call. destruct (phase d) as [|c|c|] eqn:Hp; try done.
  destruct (call_handler now c (world d)) as [[r|e] w] eqn:Hr; [intros [= <-]|].
  - exists c. simpl. split_and!; try done. right. eauto.
  - destruct (is_leased e) eqn:Hl; intros [= <-]; exists c; simpl; split_and!; try done.
    + left. split_and!; try done. destruct e; try done. eexists. by rewrite Hr.
    + right. eauto.
Qed.

Lemma take_cases d d' : take_call d = Some d' →
  phase d = Idle ∧ parked d' = parked d ∧ pushes d' = pushes d ∧ world d' = world d ∧
  ((∃ c, phase d' = Running c ∧ queued d = c :: queued d' ∧ queue_depth d' = queue_depth d - 1) ∨
   (phase d' = Stopped ∧ queued d = queued d' ∧ queue_depth d' = queue_depth d)).
Proof.
  unfold take_call, queued. destruct (phase d); [|done..].
  destruct (fifo d) as [|[c|] q]; [done| |]; intros [= <-]; simpl; split_and!; try done; eauto.
Qed.

Lemma park_cases d d' : park d = Some d' → ∃ c,
  phase d = Parking c ∧ phase d' = Idle ∧ fifo d' = fifo d ∧ parked d' = parked d ++ [c] ∧
  queue_depth d' = queue_depth d ∧ pushes d' = pushes d ∧ world d' = world d.
Proof. unfold park. destruct (phase d) as [| |c|]; try done. intros [= <-]. by exists c. Qed.

Lemma accounted_eq d d' l l' :
  answered d' = answered d ++ l → Permutation (l ++ (to_whom <$> waiting d')) ((to_whom <$> waiting d) ++ l') →
  Permutation (accounted d') (accounted d ++ l').
Proof. intros Ha Hp. unfold accounted. rewrite Ha, <-!(assoc (++)). by f_equiv. Qed.

Lemma dstep_accounted a d d' : dstep a d = Some d' →
  Permutation (accounted d') (accounted d ++ (to_whom <$> submitted [a])).
Proof.
  intros Hs. destruct a as [c| | |now| |w|]; simpl in Hs.
  - injection Hs as <-. apply (accounted_eq _ _ []); [by rewrite app_nil_r|].
    unfold waiting. rewrite queued_submit, !fmap_app. simpl. solve_Permutation.
  - injection Hs as <-. apply (accounted_eq _ _ []); [by rewrite app_nil_r|].
    unfold waiting, queued. simpl. rewrite omap_app, !app_nil_r. done.
  - apply take_cases in Hs as (Hp & Hpk & Hpu & _ & [(c & Hp' & Hq & _)|(Hp' & Hq & _)]);
      (apply (accounted_eq _ _ []); [unfold answered; by rewrite Hpu, app_nil_r|]);
      unfold waiting; rewrite Hp, Hpk, Hp', Hq, !fmap_app; simpl; solve_Permutation.
  - apply execute_cases in Hs as (c & Hp & Hf & Hpk & _ & [(Hp' & Hpu & _)|(Hp' & o & Hpu)]).
    + apply (accounted_eq _ _ []); [unfold answered; by rewrite Hpu, app_nil_r|].
      unfold waiting, queued. rewrite Hp, Hp', Hf, Hpk. simpl. by rewrite !app_nil_r.
    + apply (accounted_eq _ _ [to_whom c]); [unfold answered; by rewrite Hpu, fmap_app|].
      unfold waiting, queued. rewrite Hp, Hp', Hf, Hpk, !fmap_app. simpl. solve_Permutation.
  - apply park_cases in Hs as (c & Hp & Hp' & Hf & Hpk & _ & Hpu & _).
    apply (accounted_eq _ _ []); [unfold answered; by rewrite Hpu, app_nil_r|].
    unfold waiting, queued. rewrite Hp, Hp', Hf, Hpk, !fmap_app. simpl. solve_Permutation.
  - injection Hs as <-. by rewrite app_nil_r.
  - injection Hs as <-. destruct (unpark_spec d) as (Hq & Hpk & _ & Hp & Hpu & _).
    apply (accounted_eq _ _ []); [unfold answered; by rewrite Hpu, app_nil_r|].
    unfold waiting. rewrite Hq, Hpk, Hp, !fmap_app. simpl. solve_Permutation.
Qed.

Lemma submitted_cons a l : submitted (a :: l) = submitted [a] ++ submitted l.
Proof. unfold submitted. cbn. by rewrite app_nil_r. Qed.

Lemma dsteps_accounted l d d' : dsteps l d = Some d' →
  Permutation (accounted d') (accounted d ++ (to_whom <$> submitted l)).
Proof.
  revert d. induction l as [|a l IH]; intros d; cbn [dsteps]; [intros [= <-]; by rewrite app_nil_r|].
  intros (d1 & Ha & Hl)%bind_Some. rewrite (IH _ Hl), (dstep_accounted _ _ _ Ha), (submitted_cons a l), fmap_app.
  by rewrite <-(assoc (++)).
Qed.

(** The depth counts the queued calls. *)
Lemma dsteps_depth l d d' : dsteps l d = Some d' →
  queue_depth d = Z.of_nat (length (queued d)) → queue_depth d' = Z.of_nat (length (queued d')).
Proof.
  revert d. induction l as [|a l IH]; intros d; cbn [dsteps]; [by intros [= <-]|].
  intros (d1 & Ha & Hl)%bind_Some Hd. apply (IH d1 Hl). clear IH Hl. destruct a as [c| | |now| |w|]; simpl in Ha.
  - injection Ha as <-. rewrite queued_submit, length_app. simpl. lia.
  - injection Ha as <-. unfold queued. simpl. by rewrite omap_app, app_nil_r.
  - apply take_cases in Ha as (_ & _ & _ & _ & [(c & _ & Hq & ->)|(_ & Hq & ->)]); rewrite Hd, Hq; simpl; lia.
  - apply execute_cases in Ha as (c & _ & Hf & _ & -> & _). unfold queued. by rewrite Hf.
  - apply park_cases in Ha as (c & _ & _ & Hf & _ & -> & _). unfold queued. by rewrite Hf.
  - by injection Ha as <-.
  - injection Ha as <-. destruct (unpark_spec d) as (Hq & _ & -> & _). rewrite Hq, length_app. lia.
Qed.

(** ** Order *)

(** The calls answered or waiting, in order, while none has been parked. *)
Definition in_order (d : Disp) : list (nat * string) :=
  answered d ++ (to_whom <$> in_hand (phase d) ++ queued d).

Lemma dsteps_order l d d' : dsteps l d = Some d' → APark ∉ l → parked d = [] →
  in_order d' = in_order d ++ (to_whom <$> submitted l) ∧ parked d' = [].
Proof.
  revert d. induction l as [|a l IH]; intros d; cbn [dsteps]; [intros [= <-]; by rewrite app_nil_r|].
  intros (d1 & Ha & Hl)%bind_Some [Hna Hn]%not_elem_of_cons Hpk.
  assert (in_order d1 = in_order d ++ (to_whom <$> submitted [a]) ∧ parked d1 = []) as [Ho Hpk1].
  2: { destruct (IH _ Hl Hn Hpk1) as [-> Hpk']. split; [|done].
    by rewrite Ho, (submitted_cons a l), fmap_app, <-(assoc (++)). }
  clear IH Hl. unfold in_order, answered. destruct a as [c| | |now| |w|]; simpl in Ha.
  - injection Ha as <-. rewrite queued_submit, !fmap_app, <-!(assoc (++)). done.
  - injection Ha as <-. unfold queued. simpl. by rewrite omap_app, !app_nil_r.
  - apply take_cases in Ha as (Hp & -> & -> & _ & [(c & -> & -> & _)|(-> & -> & _)]); rewrite Hp; by rewrite app_nil_r.
  - apply execute_cases in Ha as (c & Hp & Hf & -> & _ & [(Hp' & -> & _)|(Hp' & o & ->)]);
      unfold queued; rewrite Hp, Hp', Hf; simpl; rewrite app_nil_r; [done|].
    by rewrite fmap_app, <-(assoc (++)).
  - done.
  - injection Ha as <-. by rewrite app_nil_r.
  - injection Ha as <-. destruct (unpark_spec d) as (-> & -> & _ & -> & -> & _). by rewrite Hpk, !app_nil_r.
Qed.

(** ** Progress *)

(** The dispatcher working alone through what is queued. *)
Definition serve_one (now : T) (d : Disp) : option Disp := d ← take_call d; execute_call now d.
Fixpoint serve (now : T) (n : nat) (d : Disp) : option Disp :=
  match n with
  | O => Some d
  | S n => d ← serve_one now d; serve now n d
  end.

Lemma serve_all (P : W → Prop) now n d :
  phase d = Idle → length (fifo d) = n → None ∉ fifo d → P (world d) →
  (∀ c w, P w → P (call_handler now c w).2 ∧ ∀ e, (call_handler now c w).1 = Err e → is_leased e = false) →
  ∃ d', serve now n d = Some d' ∧ phase d' = Idle ∧ fifo d' = [] ∧ parked d' = parked d ∧
    answered d' = answered d ++ (to_whom <$> queued d) ∧ P (world d').
Proof.
  intros Hp Hn Hs HP Hl. revert d Hp Hn Hs HP. induction n as [|n IH]; intros d Hp Hn Hs HP; cbn [serve].
  { apply nil_length_inv in Hn. exists d. unfold queued. rewrite Hn. simpl. by rewrite app_nil_r. }
  destruct (fifo d) as [|[c|] q] eqn:Hf; [done| |set_solver].
  unfold serve_one, take_call. rewrite Hp, Hf. cbn [mbind option_bind]. unfold execute_call. cbn [phase world].
  destruct (Hl c (world d) HP) as [HPw Hlc].
  destruct (call_handler now c (world d)) as [r w] eqn:Hr. simpl in HPw, Hlc.
  assert (∃ d1, match r with
      | Ok res => Some (mkDisp q (parked d) (queue_depth d - 1) Idle
          (pushes d ++ [mkPush (qc_reply_to c) (qc_ticket c) (Done res)]) (note_session now c "ok" (sessions d)) w)
      | Err e => if is_leased e then Some (mkDisp q (parked d) (queue_depth d - 1) (Parking c) (pushes d) (sessions d) w)
          else Some (mkDisp q (parked d) (queue_depth d - 1) Idle
          (pushes d ++ [mkPush (qc_reply_to c) (qc_ticket c) (Failed e)]) (note_session now c (code e) (sessions d)) w)
      end = Some d1 ∧ phase d1 = Idle ∧ fifo d1 = q ∧ parked d1 = parked d ∧
      answered d1 = answered d ++ [to_whom c] ∧ world d1 = w) as (d1 & Hd1 & Hp1 & Hf1 & Hpk1 & Ha1 & Hw1).
  { destruct r as [res|e].
    - eexists. split_and!; [done..| |done]. unfold answered. cbn [pushes]. by rewrite fmap_app.
    - rewrite (Hlc e eq_refl).
      eexists. split_and!; [done..| |done]. unfold answered. cbn [pushes]. by rewrite fmap_app. }
  cbn [fifo parked queue_depth pushes sessions] in *. rewrite Hd1.
  destruct (IH d1) as (d' & Hd' & H1 & H2 & H3 & H4 & H5);
    [done|by rewrite Hf1; simpl in Hn; lia|rewrite Hf1; set_solver|by rewrite Hw1|].
  exists d'. split_and!; [done..|congruence| |done]. rewrite H4, Ha1. unfold queued. rewrite Hf1, Hf. simpl.
  by rewrite <-(assoc (++)).
Qed.

(** A parked call stays parked until leases are released. *)
Lemma parked_stays l d d' : dsteps l d = Some d' → AUnpark ∉ l → ∃ more, parked d' = parked d ++ more.
Proof.
  revert d. induction l as [|a l IH]; intros d; cbn [dsteps]; [intros [= <-] _; exists []; by rewrite app_nil_r|].
  intros (d1 & Ha & Hl)%bind_Some [Hna Hn]%not_elem_of_cons.
  assert (∃ more, parked d1 = parked d ++ more) as (m1 & H1).
  { clear IH Hl. destruct a as [c| | |now| |w|]; simpl in Ha; [| | | | | |done];
      [exists []; rewrite app_nil_r; by injection Ha as <-..
      |exists []; rewrite app_nil_r; by apply take_cases in Ha as (_ & ? & _)
      |exists []; rewrite app_nil_r; by apply execute_cases in Ha as (? & _ & _ & ? & _)
      | |exists []; rewrite app_nil_r; by injection Ha as <-].
    apply park_cases in Ha as (c & _ & _ & _ & ? & _). by exists [c]. }
  destruct (IH _ Hl Hn) as (m2 & ->). exists (m1 ++ m2). by rewrite H1, <-(assoc (++)).
Qed.
End Dispatch.
