(* ===== verification/SvcSnapshot.v ===== *)
(** * Snapshots and restores ([dataflow/service/handlers_snapshot.py])

    A snapshot saves slices of residents to a directory, a restore places
    them back, possibly through a remap plan.  Each is an admission on the
    dispatcher, which validates and takes leases, and a job on the payload
    thread, which moves the bytes and releases them.  The state is the store
    with the tables of snapshots and restores, the job queue, and the
    directories on disk with their payload and document.  A loop over
    64 MiB chunks of a slice is one read or write of its bytes, and its progress
    counter is left out; [io] tells whether the file system raised in a job; the
    hash is an argument. *)
From S2P Require Import Prelude SimSchema CoreProgram CoreJson SvcStore.
From stdpp Require Import base tactics option list gmap strings pretty.
From Stdlib Require Import ZArith Lia Init.Byte.
From S2P Require Import SvcAlloc.
Open Scope Z_scope.

(** [align_up] of the payload file. *)
Definition payload_align (n : Z) : Z := (n + ALIGN - 1) / ALIGN * ALIGN.

Section Snapshot.
Context {T : Type} `{Num T} (slice_hash : list byte → string).
Notation jdict := (jdict (T := T)).
Notation St := (St (T := T)).

(** ** Slices *)
Record SliceSpec := mkSlice {
  sl_id : option string;   (* [None]: the dict has no id *)
  sl_src : option (Z * Z);
  sl_logical_id : option string;
  sl_dst : option (Z * Z);
  sl_logical_bytes : option Z;
}.
(** [{"id": oid}]. *)
Definition whole (oid : string) : SliceSpec := mkSlice (Some oid) None None None None.

Record Entry := mkEntry {
  en_id : string;
  en_size_bytes : Z;
  en_meta : jdict;
  en_protected : bool;
  en_src : Z * Z;
  en_logical_id : string;
  en_dst : Z * Z;
  en_logical_bytes : Z;
  en_payload : Z * Z;        (* offset and size; set by the admission *)
  en_hash : option string;   (* set by the job *)
}.
Definition set_payload (p : Z * Z) (e : Entry) : Entry :=
  mkEntry (en_id e) (en_size_bytes e) (en_meta e) (en_protected e) (en_src e) (en_logical_id e)
    (en_dst e) (en_logical_bytes e) p (en_hash e).
Definition set_hash (h : string) (e : Entry) : Entry :=
  mkEntry (en_id e) (en_size_bytes e) (en_meta e) (en_protected e) (en_src e) (en_logical_id e)
    (en_dst e) (en_logical_bytes e) (en_payload e) (Some h).

Definition identity_slice (e : Entry) : bool :=
  String.eqb (en_logical_id e) (en_id e) &&
  bool_decide (en_src e = (0, en_size_bytes e)) &&
  bool_decide (en_dst e = en_src e) &&
  (en_logical_bytes e =? en_size_bytes e).

(** [x or d] of a string and of an int. *)
Definition str_or (x : option string) (d : string) : string :=
  match x with Some s => if String.eqb s "" then d else s | None => d end.
Definition int_or (x : option Z) (d : Z) : Z :=
  match x with Some z => if z =? 0 then d else z | None => d end.

(** One turn of [resolve_slices]: the entry and the sizes of the logical objects. *)
Definition resolve_slice (s : Store T) (sizes : list (string * Z)) (sl : SliceSpec) :
    result SvcError (Entry * list (string * Z)) :=
  match sl_id sl ≫= λ oid, (oid,.) <$> find_rec oid s with
  | None => Err BadRequest
  | Some (oid, r) =>
      let size := rec_size_bytes r in
      let src := default (0, size) (sl_src sl) in
      raise_if (negb ((0 <=? src.1) && (src.1 <? src.2) && (src.2 <=? size))) BadRequest ;;
      let logical_id := str_or (sl_logical_id sl) oid in
      let dst := default src (sl_dst sl) in
      raise_if (negb (dst.2 - dst.1 =? src.2 - src.1)) BadRequest ;;
      let logical_bytes := int_or (sl_logical_bytes sl) size in
      raise_if (negb ((0 <=? dst.1) && (dst.1 <? dst.2) && (dst.2 <=? logical_bytes))) BadRequest ;;
      raise_if (match assoc_get sizes logical_id with
                | Some seen => negb (seen =? logical_bytes)
                | None => false
                end) BadRequest ;;
      Ok (mkEntry oid size (rec_meta r) (rec_protected r) src logical_id dst logical_bytes (0, 0) None,
          assoc_set sizes logical_id logical_bytes)
  end.

Fixpoint resolve_slices (s : Store T) (sizes : list (string * Z)) (l : list SliceSpec) :
    result SvcError (list Entry) :=
  match l with
  | [] => Ok []
  | sl :: l =>
      '(e, sizes) ← resolve_slice s sizes sl;
      es ← resolve_slices s sizes l;
      Ok (e :: es)
  end.

(** The payload offsets, each slice on a page of its own; the total. *)
Fixpoint plan_payload (offset : Z) (es : list Entry) : list Entry * Z :=
  match es with
  | [] => ([], offset)
  | e :: es =>
      let n := (en_src e).2 - (en_src e).1 in
      let '(es, total) := plan_payload (payload_align (offset + n)) es in
      (set_payload (offset, n) e :: es, total)
  end.

(** ** Remap plans *)
Record Window := mkWindow { wi_logical : Z * Z; wi_id : string; wi_local : Z * Z; wi_bytes : Z }.
Definition Remap : Type := list (string * list Window).

Fixpoint remap_windows (sizes : list (string * Z)) (ws : list Window) :
    result SvcError (list (Z * Z) * list (string * Z)) :=
  match ws with
  | [] => Ok ([], sizes)
  | w :: ws =>
      let '(llo, lhi) := wi_logical w in
      let '(xlo, xhi) := wi_local w in
      raise_if ((lhi <=? llo) || negb (lhi - llo =? xhi - xlo)) BadRequest ;;
      raise_if (negb ((0 <=? xlo) && (xlo <? xhi) && (xhi <=? wi_bytes w))) BadRequest ;;
      raise_if (match assoc_get sizes (wi_id w) with
                | Some seen => negb (seen =? wi_bytes w)
                | None => false
                end) BadRequest ;;
      '(spans, sizes) ← remap_windows (assoc_set sizes (wi_id w) (wi_bytes w)) ws;
      Ok ((llo, lhi) :: spans, sizes)
  end.

(** Tuples in their lexicographic order. *)
Definition span_leb (a b : Z * Z) : bool := if a.1 =? b.1 then a.2 <=? b.2 else a.1 <? b.1.
Fixpoint spans_overlap (l : list (Z * Z)) : bool :=
  match l with
  | a :: (b :: _) as l' => (b.1 <? a.2) || spans_overlap l'
  | _ => false
  end.

Fixpoint validate_remap (sizes : list (string * Z)) (remap : Remap) : result SvcError unit :=
  match remap with
  | [] => Ok tt
  | (_, ws) :: remap =>
      '(spans, sizes) ← remap_windows sizes ws;
      raise_if (spans_overlap (py_sorted span_leb spans)) BadRequest ;;
      validate_remap sizes remap
  end.

(** ** Placements *)
Record Placement := mkPlacement {
  pl_target : string; pl_lo : Z; pl_hi : Z; pl_file_offset : Z;
}.
(** [required]: every target's size and creation metadata. *)
Definition Required : Type := list (string * (Z * option jdict)).

(** A piece: target, its size, its metadata and where it goes. *)
Record Piece := mkPiece { pc_total : Z; pc_meta : option jdict; pc_place : Placement }.

Definition window_piece (e : Entry) (w : Window) : option Piece :=
  let ilo := Z.max (en_dst e).1 (wi_logical w).1 in
  let ihi := Z.min (en_dst e).2 (wi_logical w).2 in
  if ihi <=? ilo then None
  else
    let tlo := (wi_local w).1 + (ilo - (wi_logical w).1) in
    Some (mkPiece (wi_bytes w) None
            (mkPlacement (wi_id w) tlo (tlo + (ihi - ilo)) ((en_payload e).1 + (ilo - (en_dst e).1)))).

Definition pieces_of (remap : option Remap) (e : Entry) : list Piece :=
  match remap with
  | None =>
      [mkPiece (en_logical_bytes e) (if identity_slice e then Some (en_meta e) else None)
         (mkPlacement (en_logical_id e) (en_dst e).1 (en_dst e).2 (en_payload e).1)]
  | Some m => omap (window_piece e) (default [] (assoc_get m (en_logical_id e)))
  end.

Definition add_piece (req : Required) (p : Piece) : result SvcError Required :=
  match assoc_get req (pl_target (pc_place p)) with
  | Some (size, _) => raise_if (negb (size =? pc_total p)) BadRequest ;; Ok req
  | None => Ok (assoc_set req (pl_target (pc_place p)) (pc_total p, pc_meta p))
  end.

Definition resolve_placements (entries : list Entry) (remap : option Remap) :
    result SvcError (list Placement * Required) :=
  let pieces := entries ≫= pieces_of remap in
  req ← foldR add_piece [] pieces;
  Ok (pc_place <$> pieces, req).

(** ** The engine's state *)
Record Document := mkDoc {
  doc_schema : string;
  doc_snap_id : string;
  doc_client_meta : jdict;
  doc_slices : list Entry;
}.
Definition SNAPSHOT_SCHEMA : string := "dataflow-snapshot/v1".

(** A directory: its payload file and, once complete, its document. *)
Record Directory := mkDir { dir_payload : list byte; dir_doc : option Document }.

Record SnapStatus := mkSnap {
  sn_state : string; sn_bytes_total : Z; sn_n_objects : Z; sn_path : string;
  sn_slices : list (string * string * (Z * Z) * option string);
}.
Record RestoreStatus := mkRestore {
  rs_state : string; rs_path : string; rs_restored : list string; rs_error : option SvcError;
}.

Inductive Job :=
| SnapshotJob (snap_id dest : string) (client_meta : jdict) (entries : list Entry)
    (lease_ids : list string) (bytes_total : Z)
| RestoreJob (restore_id snap_id path : string) (entries : list Entry) (placements : list Placement)
    (targets created lease_ids : list string) (verify : bool) (remap : option Remap).

Record Engine := mkEngine {
  en_store : Store T;
  en_snapshots : list (string * SnapStatus);
  en_restores : list (string * RestoreStatus);
  en_snapshots_in_flight : list string;
  en_restores_in_flight : list string;
  en_jobs : list Job;
  en_disk : list (string * Directory);
  en_seq : list (string * N);
}.

Definition En (A : Type) : Type := M Engine SvcError A.

Definition with_store (st : Store T) (g : Engine) : Engine :=
  mkEngine st (en_snapshots g) (en_restores g) (en_snapshots_in_flight g) (en_restores_in_flight g)
    (en_jobs g) (en_disk g) (en_seq g).
Definition with_snapshot (id : string) (x : SnapStatus) (g : Engine) : Engine :=
  mkEngine (en_store g) (assoc_set (en_snapshots g) id x) (en_restores g) (en_snapshots_in_flight g)
    (en_restores_in_flight g) (en_jobs g) (en_disk g) (en_seq g).
Definition with_restore (id : string) (x : RestoreStatus) (g : Engine) : Engine :=
  mkEngine (en_store g) (en_snapshots g) (assoc_set (en_restores g) id x) (en_snapshots_in_flight g)
    (en_restores_in_flight g) (en_jobs g) (en_disk g) (en_seq g).
Definition with_in_flight (snaps restores : list string) (g : Engine) : Engine :=
  mkEngine (en_store g) (en_snapshots g) (en_restores g) snaps restores (en_jobs g) (en_disk g) (en_seq g).
Definition with_jobs (l : list Job) (g : Engine) : Engine :=
  mkEngine (en_store g) (en_snapshots g) (en_restores g) (en_snapshots_in_flight g)
    (en_restores_in_flight g) l (en_disk g) (en_seq g).
Definition with_disk (d : list (string * Directory)) (g : Engine) : Engine :=
  mkEngine (en_store g) (en_snapshots g) (en_restores g) (en_snapshots_in_flight g)
    (en_restores_in_flight g) (en_jobs g) d (en_seq g).
Definition with_seq (l : list (string * N)) (g : Engine) : Engine :=
  mkEngine (en_store g) (en_snapshots g) (en_restores g) (en_snapshots_in_flight g)
    (en_restores_in_flight g) (en_jobs g) (en_disk g) l.

Definition new_engine (cap : Z) (disk : list (string * Directory)) : Engine :=
  mkEngine (new_store cap) [] [] [] [] [] disk [].

Definition on_store {A} (m : St A) : En A := λ g,
  let '(r, st) := m (en_store g) in (r, with_store st g).

(** [f"{kind}-{n:06d}"]. *)
Definition pad6 (s : string) : string :=
  String.concat "" (replicate (6 - String.length s) "0"%string) +:+ s.
Definition next_id (kind : string) : En string :=
  g ← get;
  let n := N.succ (default 0%N (assoc_get (en_seq g) kind)) in
  modify (with_seq (assoc_set (en_seq g) kind n)) ;;
  mret (kind +:+ "-" +:+ pad6 (pretty n)).

(** [sorted(set(ids))]. *)
Definition sorted_ids (l : list string) : list string := py_sorted String.leb (remove_dups l).

(** ** Snapshot: the admission *)
Record SnapshotReply := mkSnapReply { sr_snap_id : string; sr_bytes_total : Z; sr_n_objects : Z }.

Definition snapshot (dest : string) (client_meta : jdict) (explicit : option (list SliceSpec)) :
    En SnapshotReply :=
  check (match explicit with Some [] => false | _ => true end) BadRequest ;;
  g ← get;
  let ids := py_sorted String.leb (objects (en_store g)).*1 in
  check (match explicit, ids with None, [] => false | _, _ => true end) BadRequest ;;
  es ← lift (resolve_slices (en_store g) [] (default (whole <$> ids) explicit));
  let '(entries, total) := plan_payload 0 es in
  let lease_ids := sorted_ids (en_id <$> entries) in
  snap_id ← next_id "snap";
  on_store (acquire_leases lease_ids) ;;
  modify (λ g, with_in_flight (en_snapshots_in_flight g ++ [snap_id]) (en_restores_in_flight g) g) ;;
  modify (with_snapshot snap_id (mkSnap "writing" total (Z.of_nat (length entries)) dest [])) ;;
  modify (λ g, with_jobs (en_jobs g ++ [SnapshotJob snap_id dest client_meta entries lease_ids total]) g) ;;
  mret (mkSnapReply snap_id total (Z.of_nat (length entries))).

Definition snapshot_status (snap_id : string) (g : Engine) : result SvcError SnapStatus :=
  match assoc_get (en_snapshots g) snap_id with Some x => Ok x | None => Err (UnknownSnapshot snap_id) end.

(** ** Snapshot: the job *)

(** [f.seek(off); f.write(d)]: a gap before [off] is filled with zeros. *)
Definition file_write (off : Z) (d f : list byte) : list byte :=
  let o := Z.to_nat off in
  take o (f ++ replicate (o - length f) x00) ++ d ++ drop (o + length d) f.

Definition slice_bytes (e : Entry) (s : Store T) : result SvcError (list byte) :=
  match find_rec (en_id e) s with
  | None => Err (KeyError (en_id e))
  | Some r => Ok (read_slice (en_src e).1 (en_src e).2 (view_rec r s))
  end.

(** The loop of [snapshot_job] on the open payload file; the hashed entries. *)
Fixpoint write_payload (s : Store T) (es : list Entry) : M (list byte) SvcError (list Entry) :=
  match es with
  | [] => mret []
  | e :: es =>
      b ← lift (slice_bytes e s);
      modify (file_write (en_payload e).1 b) ;;
      es ← write_payload s es;
      mret (set_hash (slice_hash b) e :: es)
  end.

(** [if x in l: l.remove(x)]. *)
Fixpoint remove_first (x : string) (l : list string) : list string :=
  match l with
  | [] => []
  | y :: l => if String.eqb x y then l else y :: remove_first x l
  end.

Definition set_snap_state (snap_id state : string) (slices : list (string * string * (Z * Z) * option string)) : En unit :=
  modify (λ g, match assoc_get (en_snapshots g) snap_id with
               | Some x => with_snapshot snap_id
                   (mkSnap state (sn_bytes_total x) (sn_n_objects x) (sn_path x) slices) g
               | None => g
               end).

Definition set_dir (dest : string) (d : Directory) : En unit :=
  modify (λ g, with_disk (assoc_set (en_disk g) dest d) g).

(** A job that fails leaves its partial payload beside the document that was
    there before. *)
Definition snapshot_job (io : option (list byte)) (snap_id dest : string) (client_meta : jdict)
    (entries : list Entry) (lease_ids : list string) : En unit :=
  g ← get;
  let old := assoc_get (en_disk g) dest ≫= dir_doc in
  (match write_payload (en_store g) entries [], io with
   | (Ok es, f), None =>
       set_dir dest (mkDir f (Some (mkDoc SNAPSHOT_SCHEMA snap_id client_meta es))) ;;
       set_snap_state snap_id "done" ((λ e, (en_id e, en_logical_id e, en_dst e, en_hash e)) <$> es)
   | _, Some f | (Err _, f), None =>
       set_dir dest (mkDir f old) ;;
       set_snap_state snap_id "error" []
   end) ;;
  modify (λ g, with_in_flight (remove_first snap_id (en_snapshots_in_flight g)) (en_restores_in_flight g) g) ;;
  on_store (release_leases lease_ids).

(** ** Restore: the admission *)
Fixpoint admit_targets (overwrite : bool) (s : Store T) (req : Required) : result SvcError unit :=
  match req with
  | [] => Ok tt
  | (target, (size, _)) :: req =>
      (match find_rec target s with
       | None => Ok tt
       | Some r =>
           raise_if (negb (rec_lease_refs r =? 0)) (Leased target) ;;
           raise_if (negb (rec_size_bytes r =? size)) (BindingMismatch target (rec_size_bytes r) size) ;;
           raise_if (negb overwrite) (Collision target)
       end) ;;
      admit_targets overwrite s req
  end.

Fixpoint create_targets (now : T) (req : Required) : En (list string) :=
  match req with
  | [] => mret []
  | (target, (size, meta)) :: req =>
      g ← get;
      match find_rec target (en_store g) with
      | Some _ => create_targets now req
      | None =>
          on_store (put now target None (Some size) meta "restore") ;;
          created ← create_targets now req;
          mret (target :: created)
      end
  end.

(** [try: m except Exception: h(); raise]. *)
Definition on_error {A} (m : En A) (h : En unit) : En A := λ g,
  match m g with
  | (Ok a, g) => (Ok a, g)
  | (Err e, g) => match h g with (Ok _, g) => (Err e, g) | (Err e', g) => (Err e', g) end
  end.

Definition restore_snapshot (now : T) (path : string) (overwrite verify : bool) (remap : option Remap) :
    En string :=
  g ← get;
  let remap := match remap with Some [] => None | r => r end in
  match assoc_get (en_disk g) path ≫= dir_doc with
  | None => raise IoError
  | Some doc =>
      check (String.eqb (doc_schema doc) SNAPSHOT_SCHEMA) VersionSkew ;;
      lift (match remap with Some m => validate_remap [] m | None => Ok tt end) ;;
      '(placements, required) ← lift (resolve_placements (doc_slices doc) remap);
      lift (admit_targets overwrite (en_store g) required) ;;
      created ← create_targets now required;
      rid ← next_id "restore";
      let lease_ids := py_sorted String.leb required.*1 in
      on_error (on_store (acquire_leases lease_ids)) (on_store (rollback_created created)) ;;
      modify (λ g, with_in_flight (en_snapshots_in_flight g) (en_restores_in_flight g ++ [rid]) g) ;;
      modify (with_restore rid (mkRestore "restoring" path [] None)) ;;
      modify (λ g, with_jobs (en_jobs g ++ [RestoreJob rid (doc_snap_id doc) path (doc_slices doc) placements
                (py_sorted String.leb required.*1) created lease_ids verify remap]) g) ;;
      mret rid
  end.

Definition restore_status (rid : string) (g : Engine) : result SvcError RestoreStatus :=
  match assoc_get (en_restores g) rid with Some x => Ok x | None => Err (UnknownRestore rid) end.

(** ** Restore: the job *)
Definition file_read (off n : Z) (f : list byte) : list byte := take (Z.to_nat n) (drop (Z.to_nat off) f).

Fixpoint verify_payload (f : list byte) (es : list Entry) : result SvcError unit :=
  match es with
  | [] => Ok tt
  | e :: es =>
      let '(off, n) := en_payload e in
      let b := file_read off n f in
      raise_if (off <? 0) ValueError ;;
      raise_if ((n <? 0) || (Z.of_nat (length b) <? n)) IoError ;;
      raise_if (negb (bool_decide (Some (slice_hash b) = en_hash e))) (VerifyFailed (en_id e)) ;;
      verify_payload f es
  end.

(** The read loop fills [mv[lo:hi]] of the target's view, whose bounds Python
    clips; what is missing is a short read. *)
Definition place (f : list byte) (p : Placement) : St unit :=
  s ← get;
  match find_rec (pl_target p) s with
  | None => raise (KeyError (pl_target p))
  | Some r =>
      check (0 <=? pl_file_offset p) ValueError ;;
      let '(lo, hi) := slice_bounds (rec_size_bytes r) (pl_lo p) (pl_hi p) in
      let b := file_read (pl_file_offset p) (hi - lo) f in
      fill_extent (mkExtent (offset (rec_extent r) + lo) (SvcAlloc.size (rec_extent r)))
        (Z.of_nat (length b)) b ;;
      check (pl_hi p - pl_lo p <=? Z.of_nat (length b)) IoError
  end.

Definition restore_protection (remap : option Remap) (e : Entry) : St unit :=
  match remap with
  | Some _ => mret tt
  | None => when (identity_slice e) (upd_rec (en_id e) (set_protected (en_protected e)))
  end.

Definition restore_bytes (now : T) (f : list byte) (snap_id : string) (entries : list Entry)
    (placements : list Placement) (targets : list string) (verify : bool) (remap : option Remap) : St unit :=
  lift (if verify then verify_payload f entries else Ok tt) ;;
  forM_ placements (place f) ;;
  forM_ entries (restore_protection remap) ;;
  forM_ targets (λ t,
    s ← get;
    check (bool_decide (is_Some (find_rec t s))) (KeyError t) ;;
    upd_rec t (set_written (mkWrite ("restore:" +:+ snap_id) now))).

(** Python's exceptions of the job are reported as IO_ERROR. *)
Definition job_error (e : SvcError) : SvcError :=
  match e with KeyError _ | ValueError | TypeError _ => IoError | e => e end.

(** [io_ok]: the file system did not raise. *)
Definition restore_job (io_ok : bool) (now : T) (rid snap_id path : string) (entries : list Entry)
    (placements : list Placement) (targets created lease_ids : list string) (verify : bool)
    (remap : option Remap) : En unit :=
  g ← get;
  let attempt : St unit :=
    match assoc_get (en_disk g) path with
    | Some d => if io_ok then restore_bytes now (dir_payload d) snap_id entries placements targets verify remap
                else raise IoError
    | None => raise IoError
    end in
  (λ g, match attempt (en_store g) with
        | (Ok _, st) => (Ok tt, with_restore rid (mkRestore "done" path targets None) (with_store st g))
        | (Err e, st) =>
            (on_store (rollback_created created) ;;
             modify (with_restore rid (mkRestore "error" path [] (Some (job_error e))))) (with_store st g)
        end) ;;
  modify (λ g, with_in_flight (en_snapshots_in_flight g) (remove_first rid (en_restores_in_flight g)) g) ;;
  on_store (release_leases lease_ids).

(** ** The payload thread *)
Definition run_job (io : option (list byte)) (now : T) : En bool :=
  g ← get;
  match en_jobs g with
  | [] => mret false
  | SnapshotJob id dest meta es leases _ :: l =>
      modify (with_jobs l) ;;
      snapshot_job io id dest meta es leases ;;
      mret true
  | RestoreJob rid sid path es ps ts created leases verify remap :: l =>
      modify (with_jobs l) ;;
      restore_job (bool_decide (io = None)) now rid sid path es ps ts created leases verify remap ;;
      mret true
  end.
End Snapshot.
