(* ===== verification/SvcSnapshotOk.v ===== *)
(** * A snapshot restores to what was saved

    The admission gives each slice a segment of its own in the payload file, the
    job fills the segments, and a restore of the directory into any store
    puts the same bytes and protections back. *)
From S2P Require Import Prelude SimSchema CoreProgram CoreJson SvcStore SvcSnapshot.
From stdpp Require Import base tactics option list gmap strings pretty.
From Stdlib Require Import ZArith Lia Init.Byte.
From S2P Require Import SvcAlloc SvcStoreInv SvcStoreSpec SvcStoreRun.
Open Scope Z_scope.

(** ** The payload file *)
Lemma file_write_length off d f : 0 ≤ off → Z.of_nat (length f) ≤ off →
  Z.of_nat (length (file_write off d f)) = off + Z.of_nat (length d).
Proof.
  intros Ho Hf. unfold file_write. rewrite !length_app, length_take, length_app, length_replicate, length_drop. lia.
Qed.

Lemma file_read_written off d f : 0 ≤ off → Z.of_nat (length f) ≤ off →
  file_read off (Z.of_nat (length d)) (file_write off d f) = d.
Proof.
  intros Ho Hf. unfold file_read, file_write. rewrite Nat2Z.id.
  rewrite drop_app_length' by (rewrite length_take, length_app, length_replicate; lia).
  by rewrite take_app_length.
Qed.

Lemma file_read_before off d f a n : 0 ≤ a → 0 ≤ n → a + n ≤ Z.of_nat (length f) → Z.of_nat (length f) ≤ off →
  file_read a n (file_write off d f) = file_read a n f.
Proof.
  intros Ha Hn Hf Ho. unfold file_read, file_write.
  rewrite (take_ge (f ++ _)) by (rewrite length_app, length_replicate; lia).
  rewrite <-(assoc (++)), drop_app_le by lia. rewrite take_app_le by (rewrite length_drop; lia). done.
Qed.

Lemma payload_align_le n : n ≤ payload_align n.
Proof. exact (proj1 (proj1 (align_up_spec ALIGN n ltac:(done)))). Qed.

Section ok.
Context {T : Type} `{Num T} (slice_hash : list byte → string) (md : Mode).
Implicit Types (s : Store T) (e : Entry (T := T)) (held : list Extent) (o : Obj).

(** The segments lie one after the other from [lo] on. *)
Fixpoint segments (lo : Z) (es : list (Entry (T := T))) : Prop :=
  match es with
  | [] => True
  | e :: es => lo ≤ (en_payload e).1 ∧ (en_payload e).2 = (en_src e).2 - (en_src e).1 ∧
      segments ((en_payload e).1 + (en_payload e).2) es
  end.

Lemma segments_weaken lo lo' es : lo ≤ lo' → segments lo' es → segments lo es.
Proof. destruct es as [|e es]; simpl; [done|]. intros Hl (H1 & H2 & H3). split_and!; [lia|done|done]. Qed.

Lemma plan_payload_segments off es es' total : plan_payload off es = (es', total) →
  segments off es' ∧ ∃ ps, es' = zip_with set_payload ps es ∧ length ps = length es.
Proof.
  revert off es' total. induction es as [|e es IH]; intros off es' total; simpl.
  { intros [= <- <-]. split; [done|]. by exists []. }
  destruct (plan_payload _ es) as [es1 t1] eqn:Hp. intros [= <- <-]. destruct (IH _ _ _ Hp) as (Hs & ps & -> & Hl).
  split; [|exists ((off, (en_src e).2 - (en_src e).1) :: ps); simpl; by rewrite Hl].
  cbn [segments set_payload en_payload en_src fst snd]. split_and!; [lia|done|].
  eapply segments_weaken; [|exact Hs]. apply payload_align_le.
Qed.

(** The bytes of each slice are in its segment of the file, under its hash. *)
Lemma write_payload_spec s es : ∀ lo f, segments lo es → 0 ≤ lo → Z.of_nat (length f) ≤ lo →
  (∀ e b, e ∈ es → slice_bytes e s = Ok b → Z.of_nat (length b) = (en_src e).2 - (en_src e).1) →
  ∀ es' f', write_payload slice_hash s es f = (Ok es', f') →
  (∀ a n, 0 ≤ a → 0 ≤ n → a + n ≤ Z.of_nat (length f) → file_read a n f' = file_read a n f) ∧
  Forall2 (λ e e', ∃ b, slice_bytes e s = Ok b ∧ e' = set_hash (slice_hash b) e ∧
    Z.of_nat (length b) = (en_payload e).2 ∧ file_read (en_payload e).1 (en_payload e).2 f' = b ∧
    0 ≤ (en_payload e).1) es es'.
Proof.
  induction es as [|e es IH]; intros lo f Hs Hlo Hf Hlen es' f' Hw; cbn [write_payload] in Hw.
  { injection Hw as <- <-. split; [done|constructor]. }
  destruct Hs as (H1 & H2 & H3). apply bind_ok in Hw as (b & f1 & Hb & Hw).
  unfold lift in Hb. injection Hb as Hb <-.
  apply bind_ok in Hw as (u & f2 & [= <- <-] & Hw). apply bind_ok in Hw as (es2 & f3 & Hw & [= <- <-]).
  assert (Z.of_nat (length b) = (en_payload e).2) as Hbl.
  { rewrite H2. apply Hlen; [set_solver|done]. }
  pose proof (file_write_length (en_payload e).1 b f ltac:(lia) ltac:(lia)) as Hl2.
  destruct (IH ((en_payload e).1 + (en_payload e).2) (file_write (en_payload e).1 b f) H3 ltac:(lia) ltac:(lia)
    (λ e0 b0 He0, Hlen e0 b0 (list_elem_of_further _ _ _ He0)) _ _ Hw) as [Hb4 Hall].
  split.
  - intros a n Ha Hn Han. rewrite Hb4 by lia. apply file_read_before; lia.
  - constructor; [|done]. exists b. split_and!; [done..| |lia].
    rewrite Hb4 by lia. rewrite <-Hbl. apply file_read_written; lia.
Qed.

Lemma write_payload_total s es : (∀ e, e ∈ es → ∃ b, slice_bytes e s = Ok b) →
  ∃ es' f', write_payload slice_hash s es [] = (Ok es', f').
Proof.
  assert (∀ es f, (∀ e, e ∈ es → ∃ b, slice_bytes e s = Ok b) →
    ∃ es' f', write_payload slice_hash s es f = (Ok es', f')) as Hgen; [|by apply Hgen].
  clear. intros es. induction es as [|e es IH]; intros f He; cbn [write_payload]; [by exists [], f|].
  destruct (He e) as (b & Hb); [set_solver|]. destruct (IH (file_write (en_payload e).1 b f)) as (es' & f' & Hw); [set_solver|].
  exists (set_hash (slice_hash b) e :: es'), f'. apply bind_ok. exists b, f. split; [unfold lift; by rewrite Hb|].
  apply bind_ok. exists tt, (file_write (en_payload e).1 b f). split; [done|]. apply bind_ok. by exists es', f'.
Qed.

(** ** The entries of a whole store *)
Definition entry_of (oid : string) (r : ObjectRecord T) : Entry :=
  mkEntry oid (rec_size_bytes r) (rec_meta r) (rec_protected r) (0, rec_size_bytes r) oid
    (0, rec_size_bytes r) (rec_size_bytes r) (0, 0) None.

Lemma resolve_whole s oid sizes e sizes' :
  resolve_slice s sizes (whole oid) = Ok (e, sizes') →
  ∃ r, find_rec oid s = Some r ∧ e = entry_of oid r ∧ 0 < rec_size_bytes r.
Proof.
  unfold resolve_slice. cbn [sl_id whole sl_src sl_logical_id sl_dst sl_logical_bytes default str_or int_or mbind option_bind].
  destruct (find_rec oid s) as [r|]; [|done]. cbn [fmap option_fmap option_map]. unfold raise_if.
  destruct (negb _) eqn:H1; [done|]. cbn [mbind result_bind].
  destruct (negb (_ =? _)); [done|]. cbn [mbind result_bind].
  destruct (negb _) eqn:H3; [done|]. cbn [mbind result_bind].
  destruct (match assoc_get sizes oid with Some _ => _ | None => _ end); [done|]. cbn [mbind result_bind].
  intros [= <- _]. exists r. split_and!; [done..|]. simpl in H1. lia.
Qed.

Lemma resolve_wholes s ids : ∀ sizes es, resolve_slices s sizes (whole <$> ids) = Ok es →
  Forall2 (λ oid e, ∃ r, find_rec oid s = Some r ∧ e = entry_of oid r ∧ 0 < rec_size_bytes r) ids es.
Proof.
  induction ids as [|oid ids IH]; intros sizes es; simpl; [intros [= <-]; constructor|].
  destruct (resolve_slice s sizes (whole oid)) as [[e sizes']|] eqn:He; [|done]. simpl.
  destruct (resolve_slices s sizes' _) as [es'|] eqn:Hes; [|done]. simpl. intros [= <-].
  constructor; [by eapply resolve_whole|by eapply IH].
Qed.

Lemma slice_bytes_whole s held oid r p : StoreInv md s held → find_rec oid s = Some r →
  slice_bytes (set_payload p (entry_of oid r)) s = Ok (view_rec r s).
Proof.
  intros HI Hf. unfold slice_bytes. simpl. rewrite Hf. f_equal.
  pose proof (obj_length _ _ _ _ _ HI Hf) as Hl. pose proof (sv_recs _ _ _ HI _ _ Hf) as (_ & Hs & _).
  rewrite <-(Z.add_0_l (rec_size_bytes r)). rewrite read_slice_in by lia.
  simpl. rewrite drop_0. apply take_ge. lia.
Qed.

Lemma identity_whole oid r p h : identity_slice (set_hash h (set_payload p (entry_of oid r))) = true.
Proof.
  unfold identity_slice. simpl. rewrite String.eqb_refl, Z.eqb_refl. by rewrite !bool_decide_true.
Qed.

(** What a complete directory of a whole-store snapshot holds. *)
Record SavedEntry (f : list byte) (oid : string) o e : Prop := {
  se_id : en_id e = oid;
  se_logical : en_logical_id e = oid;
  se_size : en_logical_bytes e = Z.of_nat (length (o_bytes o));
  se_pos : 0 < en_logical_bytes e;
  se_dst : en_dst e = (0, en_logical_bytes e);
  se_len : (en_payload e).2 = en_logical_bytes e;
  se_off : 0 ≤ (en_payload e).1;
  se_identity : identity_slice e = true;
  se_protected : en_protected e = o_protected o;
  se_bytes : file_read (en_payload e).1 (en_payload e).2 f = o_bytes o;
  se_hash : en_hash e = Some (slice_hash (o_bytes o));
}.

Lemma check_ok {S E} (c : bool) (e : E) (a : S) u a' : check c e a = (Ok u, a') → c = true ∧ a' = a.
Proof. destruct c; simpl; [by intros [= _ <-]|done]. Qed.

Lemma on_store_ok {A} (m : St A) (g : Engine (T := T)) a g' : on_store m g = (Ok a, g') →
  ∃ s', m (en_store g) = (Ok a, s') ∧ g' = with_store s' g.
Proof. unfold on_store. destruct (m (en_store g)) as [r s']. intros [= -> <-]. eauto. Qed.

Definition names s : list string := py_sorted String.leb (objects s).*1.

Lemma next_id_ok kind (g : Engine (T := T)) id g' : next_id kind g = (Ok id, g') →
  en_jobs g' = en_jobs g ∧ en_store g' = en_store g ∧ en_disk g' = en_disk g.
Proof.
  unfold next_id. intros Hid. apply bind_ok in Hid as (? & ? & [= <- <-] & Hid).
  apply bind_ok in Hid as (? & ? & [= <- <-] & Hid). by injection Hid as _ <-.
Qed.

(** Leases leave the bytes alone. *)
Definition same_data o o' : Prop := o_bytes o' = o_bytes o ∧ o_protected o' = o_protected o.

Lemma fold_lease_in (m : gmap string Obj) ids oid o :
  m !! oid = Some o → 0 ≤ o_leases o → oid ∈ ids → ∃ o', foldl (λ m oid, alter (lease 1) oid m) m ids !! oid = Some o' ∧
    same_data o o' ∧ 0 < o_leases o'.
Proof.
  assert (∀ ids (m : gmap string Obj) o, m !! oid = Some o → 0 ≤ o_leases o →
    ∃ o', foldl (λ m oid, alter (lease 1) oid m) m ids !! oid = Some o' ∧ same_data o o' ∧
      o_leases o ≤ o_leases o' ∧ (oid ∈ ids → 0 < o_leases o')) as Hgen.
  2: { intros Ho Hl Hin. destruct (Hgen ids m o Ho Hl) as (o' & H1 & H2 & _ & H4). exists o'. auto. }
  clear. intros ids. induction ids as [|i ids IH]; intros m o Ho Hl; cbn [foldl].
  { exists o. split_and!; [done|done|lia|set_solver]. }
  destruct (decide (i = oid)) as [->|Hne].
  - destruct (IH (alter (lease 1) oid m) (lease 1 o)) as (o' & H1 & [H2 H3] & H4 & H5);
      [by rewrite lookup_alter_eq, Ho|simpl; lia|]. simpl in H4. exists o'. split_and!; [done..|lia|lia].
  - destruct (IH (alter (lease 1) i m) o) as (o' & H1 & H2 & H3 & H4); [by rewrite lookup_alter_ne|done|].
    exists o'. split_and!; [done..|]. intros [->|?]%elem_of_cons; [done|auto].
Qed.

Lemma acquired s held ids s' : StoreInv md s held → acquire_leases ids s = (Ok tt, s') →
  StoreInv md s' held ∧ abs s' = foldl (λ m oid, alter (lease 1) oid m) (abs s) ids.
Proof.
  intros HI Ha.
  assert (∀ now : T, wp (perform now (CAcquire ids)) s
    (λ got s', StoreInv md s' (got ++ held) ∧ effect (T := T) (CAcquire ids) s (abs s) (abs s'))
    (λ _ s', StoreInv md s' held ∧ failure (T := T) (CAcquire ids) (abs s) (abs s'))) as Hc.
  { intros now. by apply (every_contract now md (CAcquire ids)). }
  specialize (Hc num_zero). unfold wp, perform, mbind, M_bind in Hc. rewrite Ha in Hc.
  destruct Hc as [? [_ ?]]. done.
Qed.

Lemma leases_nonneg s held oid o : StoreInv md s held → abs s !! oid = Some o → 0 ≤ o_leases o.
Proof.
  intros HI. rewrite abs_lookup. destruct (find_rec oid s) as [r|] eqn:Hf; [|done]. intros [= <-].
  by destruct (sv_recs _ _ _ HI _ _ Hf) as (_ & _ & ? & _).
Qed.

Lemma snapshot_inv dest meta g rep g1 : snapshot dest meta None g = (Ok rep, g1) →
  ∃ es entries total snap_id, resolve_slices (en_store g) [] (whole <$> names (en_store g)) = Ok es ∧
    plan_payload 0 es = (entries, total) ∧
    en_jobs g1 = en_jobs g ++ [SnapshotJob snap_id dest meta entries (sorted_ids (en_id <$> entries)) total] ∧
    ∃ s', acquire_leases (sorted_ids (en_id <$> entries)) (en_store g) = (Ok tt, s') ∧ en_store g1 = s'.
Proof.
  unfold snapshot. intros Hr. apply bind_ok in Hr as (? & g0 & Hc & Hr). apply check_ok in Hc as [_ ->].
  apply bind_ok in Hr as (? & g0 & [= <- <-] & Hr). apply bind_ok in Hr as (? & g0 & Hc & Hr).
  apply check_ok in Hc as [_ ->]. apply bind_ok in Hr as (es & g0 & Hes & Hr).
  unfold lift in Hes. injection Hes as Hes <-. destruct (plan_payload 0 es) as [entries total] eqn:Hp.
  apply bind_ok in Hr as (snap_id & g0 & Hid & Hr). apply next_id_ok in Hid as (Hj0 & Hst0 & _).
  apply bind_ok in Hr as ([] & g2 & Ha & Hr). apply on_store_ok in Ha as (s' & Ha & ->).
  apply bind_ok in Hr as (? & ? & [= <- <-] & Hr). apply bind_ok in Hr as (? & ? & [= <- <-] & Hr).
  apply bind_ok in Hr as (? & ? & [= <- <-] & Hr). injection Hr as _ <-.
  exists es, entries, total, snap_id. split_and!; [done..| |].
  - simpl. by rewrite Hj0.
  - exists s'. by rewrite <-Hst0.
Qed.

Lemma abs_key s oid o : abs s !! oid = Some o → oid ∈ (objects s).*1.
Proof.
  rewrite abs_lookup. unfold find_rec. destruct (assoc_get (objects s) oid) as [r|] eqn:Hg; [|done]. intros _.
  destruct (decide (oid ∈ (objects s).*1)) as [|Hn]; [done|]. apply assoc_get_none in Hn. congruence.
Qed.

Lemma entry_ids s ids es (ps : list (Z * Z)) :
  Forall2 (λ oid e, ∃ r, find_rec oid s = Some r ∧ e = entry_of oid r ∧ 0 < rec_size_bytes r) ids es →
  length ps = length es → en_id <$> zip_with set_payload ps es = ids.
Proof.
  intros Hes. revert ps. induction Hes as [|oid e ids es (r & _ & -> & _) Hes IH]; intros ps Hl; destruct ps; try done.
  simpl. f_equal. apply IH. simpl in Hl. lia.
Qed.

(** The saved directory of a snapshot whose job runs while the objects stay as
    they were at the admission. *)
Lemma snapshot_saves dest meta g rep g1 g1' held held' now u g2 :
  StoreInv md (en_store g) held → snapshot dest meta None g = (Ok rep, g1) → en_jobs g = [] →
  en_jobs g1' = en_jobs g1 → StoreInv md (en_store g1') held' →
  (∀ oid o, abs (en_store g1) !! oid = Some o → 0 < o_leases o → still o (abs (en_store g1') !! oid)) →
  run_job slice_hash None now g1' = (Ok u, g2) →
  ∃ f doc, assoc_get (en_disk g2) dest = Some (mkDir f (Some doc)) ∧ doc_schema doc = SNAPSHOT_SCHEMA ∧
    Forall2 (λ oid e, ∃ o, abs (en_store g) !! oid = Some o ∧ SavedEntry f oid o e)
      (names (en_store g)) (doc_slices doc).
Proof.
  intros HI Hsn Hj Hj1 HI' Hst0 Hrun.
  destruct (snapshot_inv _ _ _ _ _ Hsn) as (es & entries & total & snap_id & Hes & Hp & Hjobs & s1 & Hacq & Hs1).
  rewrite Hj in Hjobs. simpl in Hjobs. rewrite Hjobs in Hj1.
  destruct (plan_payload_segments _ _ _ _ Hp) as (Hseg & ps & -> & Hlps).
  apply resolve_wholes in Hes. destruct (acquired _ _ _ _ HI Hacq) as [_ Ha1]. rewrite Hs1, Ha1 in Hst0.
  assert (∀ oid o, abs (en_store g) !! oid = Some o →
    ∃ o1, abs (en_store g1') !! oid = Some o1 ∧ o_bytes o1 = o_bytes o) as Hst.
  { intros oid o Ho.
    destruct (fold_lease_in (abs (en_store g)) (sorted_ids (en_id <$> zip_with set_payload ps es)) oid o)
      as (o' & Ho' & [Hb _] & Hl); [done|exact (leases_nonneg _ _ _ _ HI Ho)| |].
    { unfold sorted_ids. rewrite elem_of_py_sorted, elem_of_remove_dups, (entry_ids _ _ _ _ Hes Hlps).
      unfold names. rewrite elem_of_py_sorted. by eapply abs_key. }
    destruct (Hst0 oid o' Ho' Hl) as (o2 & Ho2 & Hb2 & _). exists o2. by rewrite Hb2. }
  set (s' := en_store g1') in *. set (entries := zip_with set_payload ps es) in *.
  (* each entry at the time of the job *)
  assert (Forall2 (λ oid e, ∃ r p, find_rec oid (en_store g) = Some r ∧ e = set_payload p (entry_of oid r) ∧
    0 < rec_size_bytes r ∧ slice_bytes e s' = Ok (view_rec r (en_store g)) ∧
    Z.of_nat (length (view_rec r (en_store g))) = rec_size_bytes r) (names (en_store g)) entries) as Hents.
  { unfold entries. clear -Hes Hlps Hst HI HI'. revert ps Hlps. induction Hes as [|oid e ids es He Hes IH]; intros ps Hl.
    - destruct ps; [constructor|done].
    - destruct ps as [|p ps]; [done|]. simpl. constructor; [|apply IH; simpl in Hl; lia].
      destruct He as (r & Hf & -> & Hpos). exists r, p. pose proof (obj_length _ _ _ _ _ HI Hf) as Hlen.
      destruct (Hst oid _ (abs_some _ _ _ Hf)) as (o1 & Ho1 & Hb1). rewrite abs_lookup in Ho1.
      destruct (find_rec oid s') as [r'|] eqn:Hf'; [|done]. simpl in Ho1. injection Ho1 as <-. simpl in Hb1.
      pose proof (obj_length _ _ _ _ _ HI' Hf') as Hlen'. rewrite Hb1 in Hlen'.
      split_and!; [done..| |done]. pose proof (slice_bytes_whole s' held' oid r' p HI' Hf') as Hsb.
      unfold slice_bytes in *. simpl in *. rewrite Hf' in *. rewrite <-Hb1. by replace (rec_size_bytes r) with (rec_size_bytes r') by lia. }
  (* the job *)
  unfold run_job in Hrun. apply bind_ok in Hrun as (? & ? & [= <- <-] & Hrun). rewrite Hj1 in Hrun.
  apply bind_ok in Hrun as (? & g3 & [= <- <-] & Hrun). apply bind_ok in Hrun as (? & g4 & Hjob & [= <- <-]).
  unfold snapshot_job in Hjob. apply bind_ok in Hjob as (? & ? & [= <- <-] & Hjob). cbv zeta in Hjob.
  change (en_store (with_jobs [] g1')) with s' in Hjob.
  destruct (write_payload_total s' entries) as (es' & f & Hw).
  { intros e (i & Hi)%list_elem_of_lookup. destruct (Forall2_lookup_r _ _ _ _ _ Hents Hi) as (oid & _ & r & p & _ & _ & _ & Hsb & _).
    eauto. }
  rewrite Hw in Hjob. apply bind_ok in Hjob as (? & g5 & Hdir & Hjob).
  apply bind_ok in Hdir as (? & ? & [= <- <-] & [= _ <-]).
  apply bind_ok in Hjob as (? & ? & [= <- <-] & Hjob). apply on_store_ok in Hjob as (st & _ & ->).
  exists f, (mkDoc SNAPSHOT_SCHEMA snap_id meta es'). split_and!; [|done|].
  { simpl. destruct (assoc_get (en_snapshots g1') snap_id); simpl; apply assoc_get_set. }
  simpl. destruct (write_payload_spec s' entries 0 [] Hseg ltac:(done) ltac:(done)) with (es' := es') (f' := f) as [_ Hall]; [|done|].
  { intros e b (i & Hi)%list_elem_of_lookup Hb.
    destruct (Forall2_lookup_r _ _ _ _ _ Hents Hi) as (oid & _ & r & p & _ & -> & _ & Hsb & Hlen).
    rewrite Hb in Hsb. injection Hsb as ->. simpl. lia. }
  clear -Hents Hall. revert es' Hall. induction Hents as [|oid e ids es0 He Hents IH]; intros es' Hall.
  { apply Forall2_nil_inv_l in Hall as ->. constructor. }
  apply Forall2_cons_inv_l in Hall as (e' & es1 & (b & Hb & -> & Hbl & Hread & Hoff) & Hall & ->).
  constructor; [|by apply IH]. destruct He as (r & p & Hf & -> & Hpos & Hsb & Hlen).
  rewrite Hb in Hsb. injection Hsb as ->. exists (obj_of (en_store g) r). split; [by apply abs_some|].
  split; simpl in *; first [done|lia|by apply identity_whole|congruence].
Qed.

(** ** Restoring *)
Section restoring.
Context (f : list byte) (saved : gmap string Obj).

(** The entries of a saved directory, one for each name. *)
Definition Saved (ids : list string) (es : list (Entry (T := T))) : Prop :=
  Forall2 (λ oid e, ∃ o, saved !! oid = Some o ∧ SavedEntry f oid o e) ids es.

Definition target_of (e : Entry (T := T)) : string * (Z * option (jdict (T := T))) :=
  (en_logical_id e, (en_logical_bytes e, Some (en_meta e))).
Definition place_of (e : Entry (T := T)) : Placement :=
  mkPlacement (en_logical_id e) (en_dst e).1 (en_dst e).2 (en_payload e).1.

Definition piece_of (e : Entry (T := T)) : Piece (T := T) :=
  mkPiece (en_logical_bytes e) (Some (en_meta e)) (place_of e).

Lemma resolve_saved ids es : Saved ids es → NoDup ids →
  resolve_placements es None = Ok (place_of <$> es, target_of <$> es).
Proof.
  intros Hs Hn. unfold resolve_placements.
  assert (es ≫= pieces_of None = piece_of <$> es) as ->.
  { clear Hn. induction Hs as [|oid e ids es (o & _ & He) Hs IH]; [done|].
    rewrite bind_cons, IH. unfold pieces_of. by rewrite (se_identity _ _ _ _ He). }
  assert (∀ acc, (∀ oid, oid ∈ ids → oid ∉ acc.*1) → foldR add_piece acc (piece_of <$> es) = Ok (acc ++ (target_of <$> es))) as Hf.
  { induction Hs as [|oid e ids es (o & _ & He) Hs IH]; intros acc Hd; [simpl; by rewrite app_nil_r|].
    apply NoDup_cons in Hn as [Hni Hn]. cbn [fmap list_fmap foldR].
    assert (assoc_get acc (en_logical_id e) = None) as Hg.
    { apply assoc_get_none. rewrite (se_logical _ _ _ _ He). apply Hd. set_solver. }
    assert (add_piece acc (piece_of e) = Ok (acc ++ [target_of e])) as ->.
    { unfold add_piece. simpl. rewrite Hg. by rewrite assoc_set_absent by by apply assoc_get_none. }
    cbn [mbind result_bind]. rewrite IH; [by rewrite <-(assoc (++))|done|].
    intros oid' Hin. rewrite fmap_app. simpl. rewrite (se_logical _ _ _ _ He).
    apply not_elem_of_app. split; [apply Hd; set_solver|]. intros ->%list_elem_of_singleton. done. }
  rewrite (Hf []) by (intros; apply not_elem_of_nil). simpl. f_equal. f_equal.
  clear. induction es as [|e es IH]; [done|]. simpl. by f_equal.
Qed.

Definition sized s (t : string) (n : Z) : Prop := ∃ o, abs s !! t = Some o ∧ Z.of_nat (length (o_bytes o)) = n.

Lemma wp_on_store {A} (m : St A) g (Q : A → Engine → Prop) (R : SvcError → Engine → Prop) :
  wp m (en_store g) (λ a s, Q a (with_store s g)) (λ err s, R err (with_store s g)) → wp (on_store m) g Q R.
Proof. unfold wp, on_store. by destruct (m (en_store g)) as [[a|e] s]. Qed.

(** The admission creates what is absent. *)
Lemma create_targets_spec now held req : ∀ g, StoreInv md (en_store g) held → NoDup req.*1 →
  (∀ t n m, (t, (n, m)) ∈ req → 0 < n ∧ (sized (en_store g) t n ∨ find_rec t (en_store g) = None)) →
  okw (create_targets now req) g (λ _ g', StoreInv md (en_store g') held ∧ en_jobs g' = en_jobs g ∧
    en_disk g' = en_disk g ∧ (∀ t n m, (t, (n, m)) ∈ req → sized (en_store g') t n) ∧
    ∀ t n, sized (en_store g) t n → sized (en_store g') t n).
Proof.
  induction req as [|[t [n m]] req IH]; intros g HI Hn Ht; cbn [create_targets].
  { apply wp_ret. split_and!; [done..|set_solver|done]. }
  rewrite fmap_cons in Hn. apply NoDup_cons in Hn as [Hni Hn]. simpl in Hni. apply wp_get_bind.
  destruct (Ht t n m) as [Hpos Hres]; [set_solver|].
  destruct (find_rec t (en_store g)) as [r|] eqn:Hf.
  - eapply wp_mono; [apply (IH g); [done|done|intros t' n' m' Hin; apply (Ht t' n' m'); by apply list_elem_of_further]| |done].
    intros _ g' (H1 & H2 & H3 & H4 & H5). split_and!; [done..| |done].
    intros t' n' m' [Heq|Hin]%elem_of_cons; [|by eapply H4]. injection Heq as -> -> ->. apply H5.
    by destruct Hres.
  - apply wp_bind, wp_on_store. eapply (put_spec now md); [done|split; [lia|done]|exact HI| |done].
    intros r s1 b HI1 Hf1 Hs1 Hb _ _ Hr1 He. unfold put_effect in He. rewrite (abs_none _ _ Hf) in He.
    assert (∀ t' n', t' ≠ t → sized (en_store g) t' n' → sized s1 t' n') as Hkeep.
    { intros t' n' Hne (o & Ho & Hl). exists o. split; [|done]. by rewrite He, lookup_insert_ne. }
    assert (∀ t' n', sized (en_store g) t' n' → sized s1 t' n') as Hkeep'.
    { intros t' n' Hs. apply Hkeep; [|done]. intros ->. destruct Hs as (o & Ho & _). by rewrite (abs_none _ _ Hf) in Ho. }
    set (g1 := with_store s1 g).
    eapply okw_bind; [apply (IH g1); [exact HI1|done|]|].
    + intros t' n' m' Hin. destruct (Ht t' n' m') as [Hp' Hres']; [by apply list_elem_of_further|]. split; [done|].
      assert (t' ≠ t) as Hne. { intros ->. apply Hni. apply list_elem_of_fmap. by exists (t, (n', m')). }
      destruct Hres' as [Hs|Hnone]; [left; by apply Hkeep|right]. simpl.
      destruct (find_rec t' s1) as [r'|] eqn:Hf'; [|done]. apply abs_some in Hf'.
      rewrite He, lookup_insert_ne in Hf' by done. by rewrite (abs_none _ _ Hnone) in Hf'.
    + intros cr g' (H1 & H2 & H3 & H4 & H5). apply wp_ret. split_and!; [done..| |by intros; apply H5, Hkeep'].
      intros t' n' m' [Heq|Hin]%elem_of_cons; [|by eapply H4]. injection Heq as -> -> ->. apply H5.
      exists (mkObj b false 0 1). split; [|done]. simpl. by rewrite He, lookup_insert_eq.
Qed.

Lemma verify_saved ids es : Saved ids es → verify_payload slice_hash f es = Ok tt.
Proof.
  induction 1 as [|oid e ids es (o & _ & He) Hs IH]; [done|]. cbn [verify_payload].
  destruct (en_payload e) as [off n] eqn:Hp. pose proof (se_bytes _ _ _ _ He) as Hb.
  pose proof (se_len _ _ _ _ He) as Hl. pose proof (se_size _ _ _ _ He) as Hz. rewrite Hp in Hb, Hl. simpl in Hb, Hl.
  pose proof (se_off _ _ _ _ He) as Ho. rewrite Hp in Ho. simpl in Ho. pose proof (se_pos _ _ _ _ He).
  rewrite Hb, !(proj2 (Z.ltb_ge _ _)) by lia. cbn [raise_if mbind result_bind orb].
  rewrite bool_decide_true by by rewrite (se_hash _ _ _ _ He). exact IH.
Qed.

(** Each placement puts the saved bytes of its object in place. *)
Lemma place_saved held oid o e s (Q : unit → Store T → Prop) R :
  StoreInv md s held → SavedEntry f oid o e → sized s oid (en_logical_bytes e) →
  (∀ s', StoreInv md s' held → abs s' = alter (set_bytes (o_bytes o)) oid (abs s) → Q tt s') →
  wp (place f (place_of e)) s Q R.
Proof.
  intros HI [H1 H2 H3 H4 H5 H6 Hoff _ _ H9 _] (o1 & Ho1 & Hl1) HQ. unfold place, place_of. cbn [pl_target pl_lo pl_hi pl_file_offset].
  rewrite H5, H2. cbn [fst snd]. apply wp_get_bind. rewrite abs_lookup in Ho1.
  destruct (find_rec oid s) as [r|] eqn:Hf; [|done]. simpl in Ho1. injection Ho1 as <-. simpl in Hl1.
  apply wp_bind, wp_check; [intros _|intros Hc; lia].
  pose proof (obj_length _ _ _ _ _ HI Hf) as Hlen.
  assert (slice_bounds (rec_size_bytes r) 0 (en_logical_bytes e) = (0, en_logical_bytes e)) as ->.
  { unfold slice_bounds, slice_index. rewrite !(proj2 (Z.ltb_ge _ _)) by lia. f_equal; lia. }
  rewrite Z.sub_0_r, <-H6, H9, H6, H3. apply wp_bind.
  eapply (write_resident md s held oid r 0); [done|done|lia|lia|]. intros s' HI' _ Ha.
  apply wp_check; [intros _|intros Hc; by rewrite Z.leb_refl in Hc]. apply HQ; [done|].
  rewrite Ha. simpl. rewrite splice_whole; [done|lia].
Qed.

Lemma place_all held ids es : Saved ids es → NoDup ids → ∀ s, StoreInv md s held →
  (∀ oid e, (oid, e) ∈ zip ids es → sized s oid (en_logical_bytes e)) →
  wp (forM_ (place_of <$> es) (place f)) s
    (λ _ s', StoreInv md s' held ∧ (∀ t, t ∉ ids → abs s' !! t = abs s !! t) ∧
       ∀ oid o, oid ∈ ids → saved !! oid = Some o → ∃ o', abs s' !! oid = Some o' ∧ o_bytes o' = o_bytes o) (λ _ _, False).
Proof.
  induction 1 as [|oid e ids es (o & Ho & He) Hs IH]; intros Hn s HI Hz; cbn [fmap list_fmap forM_].
  { apply wp_ret. split_and!; [done|done|set_solver]. }
  apply NoDup_cons in Hn as [Hni Hn]. apply wp_bind. pose proof (Hz oid e ltac:(simpl; set_solver)) as Hzo.
  eapply place_saved; [exact HI|exact He|exact Hzo|].
  intros s1 HI1 Ha1. eapply wp_mono; [apply (IH Hn s1 HI1)| |done].
  - intros oid' e' Hin. assert (oid ≠ oid') as Hne.
    { intros ->. apply Hni. by apply elem_of_zip_l in Hin. }
    destruct (Hz oid' e') as (o1 & Ho1 & Hl1); [simpl; by apply list_elem_of_further|].
    exists o1. split; [|done]. by rewrite Ha1, lookup_alter_ne.
  - intros _ s' (HI' & Hkeep & Hall). split_and!; [done| |].
    + intros t [Hne Ht]%not_elem_of_cons. rewrite Hkeep, Ha1, lookup_alter_ne by done. done.
    + intros oid' o' [->|Hin]%elem_of_cons Ho'; [|by apply Hall].
      rewrite Hkeep, Ha1, lookup_alter_eq by done. destruct Hzo as (o1 & -> & _). simpl.
      exists (set_bytes (o_bytes o) o1). split; [done|]. simpl. congruence.
Qed.

(** The loop over the entries restores their protection. *)
Lemma protect_all held ids es : Saved ids es → NoDup ids → ∀ s, StoreInv md s held →
  wp (forM_ es (restore_protection None)) s
    (λ _ s', StoreInv md s' held ∧ (∀ t, t ∉ ids → abs s' !! t = abs s !! t) ∧
       ∀ oid o o1, oid ∈ ids → saved !! oid = Some o → abs s !! oid = Some o1 → ∃ o', abs s' !! oid = Some o' ∧
         o_bytes o' = o_bytes o1 ∧ o_protected o' = o_protected o) (λ _ _, False).
Proof.
  induction 1 as [|oid e ids es (o & Ho & He) Hs IH]; intros Hn s HI; cbn [forM_].
  { apply wp_ret. split_and!; [done|done|set_solver]. }
  apply NoDup_cons in Hn as [Hni Hn]. apply wp_bind. unfold restore_protection at 1.
  rewrite (se_identity _ _ _ _ He). unfold when. rewrite (se_id _ _ _ _ He).
  eapply (upd_rec_spec _ _ held _ _ (λ o, mkObj (o_bytes o) (en_protected e) (o_leases o) (o_version o))); [exact HI| |].
  { intros r0 Hr0 _. split_and!; [by apply (rec_ok_keep md _ _ _ Hr0); simpl; try done; apply Hr0|done..]. }
  intros s1 HI1 Ha1 _ _. eapply wp_mono; [apply (IH Hn s1 HI1)| |done].
  intros _ s' (HI' & Hkeep & Hall). split_and!; [done| |].
  - intros t [Hne Ht]%not_elem_of_cons. by rewrite Hkeep, Ha1, lookup_alter_ne.
  - intros oid' o' o1 [->|Hin]%elem_of_cons Ho' Ho1.
    + rewrite Hkeep, Ha1, lookup_alter_eq, Ho1 by done. simpl. eexists. split; [done|]. simpl.
      split; [done|]. rewrite (se_protected _ _ _ _ He). congruence.
    + apply (Hall oid' o' o1); [done|done|]. rewrite Ha1, lookup_alter_ne; [done|]. by intros ->.
Qed.
Lemma written_all held w ts : ∀ s, StoreInv md s held → (∀ t, t ∈ ts → is_Some (abs s !! t)) →
  wp (forM_ ts (λ t, s ← get; check (bool_decide (is_Some (find_rec t s))) (KeyError t) ;;
        upd_rec t (set_written w))) s
    (λ _ s', StoreInv md s' held ∧ abs s' = abs s) (λ _ _, False).
Proof.
  induction ts as [|t ts IH]; intros s HI Ht; cbn [forM_]; [by apply wp_ret|].
  apply wp_bind, wp_get_bind, wp_check_bind.
  2: { intros Hb. exfalso. apply bool_decide_eq_false in Hb. apply Hb.
    destruct (Ht t ltac:(set_solver)) as [o Ho]. rewrite abs_lookup in Ho. by destruct (find_rec t s). }
  intros _. eapply (upd_rec_spec _ _ held _ _ id); [exact HI| |].
  { intros r0 Hr0 _. split_and!; [by apply (rec_ok_keep md _ _ _ Hr0); simpl; try done; apply Hr0|done..]. }
  intros s1 HI1 Ha1 _ _. rewrite alter_id in Ha1 by done. rewrite <-Ha1 in *. apply (IH s1 HI1).
  intros t' Hin. apply Ht. by apply list_elem_of_further.
Qed.

(** The bytes a job puts back, whatever else the store holds. *)
Lemma restore_bytes_spec held now sid ids es ts s vf : Saved ids es → NoDup ids → StoreInv md s held →
  (∀ oid e, (oid, e) ∈ zip ids es → sized s oid (en_logical_bytes e)) → (∀ t, t ∈ ts → t ∈ ids) →
  wp (restore_bytes slice_hash now f sid es (place_of <$> es) ts vf None) s
    (λ _ s', StoreInv md s' held ∧ ∀ oid o, oid ∈ ids → saved !! oid = Some o →
       ∃ o', abs s' !! oid = Some o' ∧ same_data o o') (λ _ _, False).
Proof.
  intros Hs Hn HI Hz Hts. unfold restore_bytes. apply wp_lift_bind.
  2: { intros err. destruct vf; [by rewrite (verify_saved _ _ Hs)|done]. }
  intros [] _. apply wp_bind. eapply wp_mono; [by apply (place_all held ids es Hs Hn s HI)| |done].
  intros _ s1 (HI1 & _ & Hb1). apply wp_bind. eapply wp_mono; [by apply (protect_all held ids es Hs Hn s1 HI1)| |done].
  intros _ s2 (HI2 & _ & Hp2).
  assert (∀ oid o, oid ∈ ids → saved !! oid = Some o → ∃ o', abs s2 !! oid = Some o' ∧ same_data o o') as Hall.
  { intros oid o Hin Ho. destruct (Hb1 oid o Hin Ho) as (o1 & Ho1 & Hbo).
    destruct (Hp2 oid o o1 Hin Ho Ho1) as (o2 & Ho2 & Hb2 & Hpo). exists o2. split; [done|]. split; congruence. }
  eapply wp_mono; [apply (written_all held _ _ s2 HI2)| |done].
  - intros t Ht%Hts. destruct (list_elem_of_lookup_1 _ _ Ht) as (i & Hi).
    destruct (Forall2_lookup_l _ _ _ _ _ Hs Hi) as (e & _ & o & Ho & _).
    destruct (Hall t o Ht Ho) as (o' & -> & _). by eexists.
  - intros _ s3 [HI3 ->]. done.
Qed.

Lemma admitted ow s held req : StoreInv md s held → admit_targets ow s req = Ok tt →
  ∀ t n m, (t, (n, m)) ∈ req → sized s t n ∨ find_rec t s = None.
Proof.
  intros HI. induction req as [|[t [n m]] req IH]; intros Ha t' n' m'; [set_solver|]. cbn [admit_targets] in Ha.
  destruct (find_rec t s) as [r|] eqn:Hf.
  - destruct (negb (rec_lease_refs r =? 0)); [done|]. simpl in Ha.
    destruct (Z.eqb_spec (rec_size_bytes r) n) as [Hs|]; [|done]. simpl in Ha. destruct (negb ow); [done|]. simpl in Ha.
    intros [Heq|Hin]%elem_of_cons; [|by eapply IH]. injection Heq as -> -> ->. left.
    exists (obj_of s r). split; [by apply abs_some|]. rewrite <-Hs. by eapply obj_length.
  - simpl in Ha. intros [Heq|Hin]%elem_of_cons; [|by eapply IH]. injection Heq as -> -> ->. by right.
Qed.

Lemma saved_targets ids es : Saved ids es → (target_of <$> es).*1 = ids.
Proof.
  induction 1 as [|oid e ids es (o & _ & He) Hs IH]; [done|].
  rewrite !fmap_cons, IH. simpl. by rewrite (se_logical _ _ _ _ He).
Qed.

Lemma saved_target ids es oid e : Saved ids es → (oid, e) ∈ zip ids es →
  (oid, (en_logical_bytes e, Some (en_meta e))) ∈ target_of <$> es.
Proof.
  induction 1 as [|oid' e' ids es (o & _ & He) Hs IH]; simpl; [set_solver|].
  intros [Heq|Hin]%elem_of_cons; [|apply list_elem_of_further; by apply IH].
  injection Heq as -> ->. unfold target_of at 1. rewrite (se_logical _ _ _ _ He). apply list_elem_of_here.
Qed.

(** The admission of a restore of a saved directory. *)
Lemma restore_inv now path ow vf g rid g1 held ids doc :
  StoreInv md (en_store g) held → assoc_get (en_disk g) path = Some (mkDir f (Some doc)) →
  Saved ids (doc_slices doc) → NoDup ids →
  restore_snapshot now path ow vf None g = (Ok rid, g1) →
  StoreInv md (en_store g1) held ∧ en_disk g1 = en_disk g ∧
  (∀ oid e, (oid, e) ∈ zip ids (doc_slices doc) → ∃ o, abs (en_store g1) !! oid = Some o ∧
     Z.of_nat (length (o_bytes o)) = en_logical_bytes e ∧ 0 < o_leases o) ∧
  ∃ sid created leases, en_jobs g1 = en_jobs g ++
    [RestoreJob rid sid path (doc_slices doc) (place_of <$> doc_slices doc) (py_sorted String.leb ids) created leases vf None].
Proof.
  intros HI Hd Hs Hn Hr. set (es := doc_slices doc) in *. unfold restore_snapshot in Hr.
  apply bind_ok in Hr as (? & ? & [= <- <-] & Hr). rewrite Hd in Hr. cbn [mbind option_bind dir_doc] in Hr.
  apply bind_ok in Hr as (? & g0 & Hc & Hr). apply check_ok in Hc as [_ ->].
  apply bind_ok in Hr as (? & ? & [= <- <-] & Hr). fold es in Hr. rewrite (resolve_saved ids es Hs Hn) in Hr.
  apply bind_ok in Hr as ([? ?] & ? & [= <- <- <-] & Hr). apply bind_ok in Hr as ([] & g0 & Ha & Hr).
  unfold lift in Ha. injection Ha as Ha <-. apply bind_ok in Hr as (created & g2 & Hcr & Hr).
  pose proof (saved_targets ids es Hs) as Hkeys.
  assert (StoreInv md (en_store g2) held ∧ en_jobs g2 = en_jobs g ∧ en_disk g2 = en_disk g ∧
    ∀ t n m, (t, (n, m)) ∈ target_of <$> es → sized (en_store g2) t n) as (HI2 & Hj2 & Hd2 & Hsz).
  { pose proof (create_targets_spec now held (target_of <$> es) g HI) as Hct. unfold wp in Hct. rewrite Hcr in Hct.
    destruct Hct as (H1 & H2 & H3 & H4 & _); [by rewrite Hkeys| |done].
    intros t n m Hin. split; [|by eapply admitted]. apply list_elem_of_fmap in Hin as (e & [= -> -> ->] & He).
    apply list_elem_of_lookup in He as (i & Hi). destruct (Forall2_lookup_r _ _ _ _ _ Hs Hi) as (oid & _ & o & _ & Hse).
    by apply Hse. }
  apply bind_ok in Hr as (rid' & g3 & Hid & Hr). apply next_id_ok in Hid as (Hj3 & Hst3 & Hd3).
  apply bind_ok in Hr as (u & g4 & Hac & Hr). rewrite Hkeys in Hac, Hr.
  assert (∃ s4, acquire_leases (py_sorted String.leb ids) (en_store g3) = (Ok tt, s4) ∧ g4 = with_store s4 g3) as (s4 & Hacq & ->).
  { unfold on_error in Hac. destruct (on_store _ g3) as [[[]|err] g5] eqn:Hon.
    - injection Hac as <- <-. by apply on_store_ok in Hon.
    - by destruct (on_store (rollback_created created) g5) as [[?|?] ?]. }
  apply bind_ok in Hr as (? & ? & [= <- <-] & Hr). apply bind_ok in Hr as (? & ? & [= <- <-] & Hr).
  apply bind_ok in Hr as (? & ? & [= <- <-] & Hr). injection Hr as <- <-.
  rewrite Hst3 in Hacq. destruct (acquired _ _ _ _ HI2 Hacq) as [HI4 Ha4].
  split_and!; [done|simpl; congruence| |].
  - intros oid e Hin. destruct (Hsz _ _ _ (saved_target _ _ _ _ Hs Hin)) as (o & Ho & Hl).
    destruct (fold_lease_in (abs (en_store g2)) (py_sorted String.leb ids) oid o) as (o' & Ho' & [Hb _] & Hlp);
      [done|exact (leases_nonneg _ _ _ _ HI2 Ho)| |].
    { rewrite elem_of_py_sorted. by apply elem_of_zip_l in Hin. }
    exists o'. simpl. rewrite Ha4. split_and!; [done|by rewrite Hb|done].
  - exists (doc_snap_id doc), created, (py_sorted String.leb ids). simpl. by rewrite Hj3, Hj2.
Qed.
Lemma fold_unlease (m : gmap string Obj) ids oid o : m !! oid = Some o →
  ∃ o', foldl (λ m oid, alter unlease oid m) m ids !! oid = Some o' ∧ same_data o o'.
Proof.
  revert m o. induction ids as [|i ids IH]; intros m o Ho; cbn [foldl]; [by exists o|].
  destruct (decide (i = oid)) as [->|Hne].
  - destruct (IH (alter unlease oid m) (unlease o)) as (o' & Ho' & Hb & Hp); [by rewrite lookup_alter_eq, Ho|].
    exists o'. split; [done|]. unfold same_data, unlease in *. by destruct (0 <? o_leases o).
  - apply IH. by rewrite lookup_alter_ne.
Qed.

Lemma released s held ids u s' : StoreInv md s held → release_leases ids s = (u, s') →
  u = Ok tt ∧ abs s' = foldl (λ m oid, alter unlease oid m) (abs s) ids.
Proof.
  intros HI Hr.
  assert (wp (release_leases ids) s
    (λ _ s', StoreInv md s' held ∧ abs s' = foldl (λ m oid, alter unlease oid m) (abs s) ids) (λ _ _, False)) as Hc.
  { apply (upd_all_spec md _ unlease held); [|done]. intros s0 oid r Hr0. unfold unlease. simpl.
    destruct (Z.ltb_spec 0 (rec_lease_refs r)); [|done]. apply lease_ok; [done|lia]. }
  unfold wp in Hc. rewrite Hr in Hc. destruct u as [[]|err]; [by destruct Hc|done].
Qed.

(** The job of such a restore, on a store where the leased targets are still
    in place. *)
Lemma restore_job_restores now rid sid path es ids ts created leases vf g u g' held doc :
  StoreInv md (en_store g) held → assoc_get (en_disk g) path = Some (mkDir f (Some doc)) →
  Saved ids es → NoDup ids → (∀ t, t ∈ ts → t ∈ ids) →
  (∀ oid e, (oid, e) ∈ zip ids es → sized (en_store g) oid (en_logical_bytes e)) →
  restore_job slice_hash true now rid sid path es (place_of <$> es) ts created leases vf None g = (Ok u, g') →
  restore_status rid g' = Ok (mkRestore "done" path ts None) ∧
  ∀ oid o, oid ∈ ids → saved !! oid = Some o → ∃ o', abs (en_store g') !! oid = Some o' ∧ same_data o o'.
Proof.
  intros HI Hd Hs Hn Hts Hz Hr. unfold restore_job in Hr. apply bind_ok in Hr as (? & ? & [= <- <-] & Hr).
  rewrite Hd in Hr. cbv zeta in Hr. cbn [dir_payload] in Hr.
  pose proof (restore_bytes_spec held now sid ids es ts (en_store g) vf Hs Hn HI Hz Hts) as Hb. unfold wp in Hb.
  destruct (restore_bytes _ _ _ _ _ _ _ _ _ (en_store g)) as [[w|err] st] eqn:Hrb; [|done]. destruct Hb as [HI' Hall].
  apply bind_ok in Hr as (v & gx & Hx & Hr). cbv beta in Hx. rewrite Hrb in Hx. injection Hx as <- <-.
  apply bind_ok in Hr as (? & ? & [= <- <-] & Hr).
  apply on_store_ok in Hr as (s' & Hrel & ->). simpl in Hrel. apply (released _ held) in Hrel as [_ Ha]; [|done].
  split; [unfold restore_status; simpl; by rewrite assoc_get_set|].
  intros oid o Hin Ho. destruct (Hall oid o Hin Ho) as (o1 & Ho1 & Hb1 & Hp1).
  destruct (fold_unlease (abs st) leases oid o1 Ho1) as (o2 & Ho2 & Hb2 & Hp2).
  exists o2. simpl. rewrite Ha. split; [done|]. split; congruence.
Qed.
End restoring.
End ok.
