(* ===== verification/SvcSnapshotRun.v ===== *)
(** * Snapshots, restores and the dispatcher together

    The round trip of a snapshot through a directory, what a restore that is
    refused leaves behind, what a remap plan extracts. *)
From S2P Require Import Prelude SimSchema CoreProgram CoreJson SvcStore SvcSnapshot.
From stdpp Require Import base tactics option list gmap strings pretty.
From Stdlib Require Import ZArith Lia Init.Byte.
From S2P Require Import SvcAlloc SvcStoreInv SvcStoreSpec SvcStoreRun SvcSnapshotOk.
Open Scope Z_scope.

Section theorems.
Context {T : Type} `{Num T} (slice_hash : list byte → string).

(** Other calls ran from [g] to [g']; what is leased is still there, as
    [leased_object_stays] says, and the job queue and the directory are. *)
Definition meanwhile (md : Mode) (path : string) (g g' : Engine (T := T)) : Prop :=
  (∃ held, StoreInv md (en_store g') held) ∧ en_jobs g' = en_jobs g ∧
  assoc_get (en_disk g') path = assoc_get (en_disk g) path ∧
  ∀ oid o, abs (en_store g) !! oid = Some o → 0 < o_leases o → still o (abs (en_store g') !! oid).

(** C6: A snapshot of a whole store, once its job has run, restores into any engine
    that admits it to exactly the saved objects, bytes and protections, whatever
    other calls ran between each admission and its job; the hashes verify. *)
Theorem snapshot_roundtrip (md md' : Mode) dest meta (g g1 g1' g2 k k1 k1' k2 : Engine) held heldk rep
    now now' now'' overwrite verify rid u u' :
  StoreInv md (en_store g) held → en_jobs g = [] →
  snapshot dest meta None g = (Ok rep, g1) → meanwhile md dest g1 g1' →
  run_job slice_hash None now g1' = (Ok u, g2) →
  StoreInv md' (en_store k) heldk → en_jobs k = [] →
  assoc_get (en_disk k) dest = assoc_get (en_disk g2) dest →
  restore_snapshot now' dest overwrite verify None k = (Ok rid, k1) → meanwhile md' dest k1 k1' →
  run_job slice_hash None now'' k1' = (Ok u', k2) →
  (∃ x, restore_status rid k2 = Ok x ∧ rs_state x = "done"%string) ∧
  ∀ oid o, abs (en_store g) !! oid = Some o →
    ∃ o', abs (en_store k2) !! oid = Some o' ∧ o_bytes o' = o_bytes o ∧ o_protected o' = o_protected o.
Proof.
  intros HI Hj Hsn (HI1 & Hj1 & Hd1 & Hst1) Hrun HIk Hjk Hdk Hre ((heldk1 & HIk1) & Hjk1 & Hdk1 & Hstk1) Hrunk.
  destruct HI1 as (held1 & HI1).
  destruct (snapshot_saves slice_hash md dest meta g rep g1 g1' held held1 now u g2) as (f & doc & Hd & Hsch & Hs); [done..|].
  fold (Saved slice_hash f (abs (en_store g)) (names (en_store g)) (doc_slices doc)) in Hs.
  assert (NoDup (names (en_store g))) as Hn.
  { unfold names. rewrite <-(py_sorted_perm String.leb). apply HI. }
  rewrite Hd in Hdk.
  destruct (restore_inv slice_hash md' f (abs (en_store g)) now' dest overwrite verify k rid k1 heldk
    (names (en_store g)) doc HIk Hdk Hs Hn Hre) as (HIk' & Hdk' & Hz & sid & created & leases & Hjobs).
  rewrite Hjk in Hjobs. simpl in Hjobs. rewrite Hjobs in Hjk1.
  unfold run_job in Hrunk. apply bind_ok in Hrunk as (? & ? & [= <- <-] & Hrunk). rewrite Hjk1 in Hrunk.
  apply bind_ok in Hrunk as (? & ? & [= <- <-] & Hrunk). apply bind_ok in Hrunk as (v & k3 & Hjob & [= <- <-]).
  rewrite bool_decide_true in Hjob by done.
  apply (restore_job_restores slice_hash md' f (abs (en_store g)) now'' rid sid dest (doc_slices doc)
    (names (en_store g)) _ created leases verify _ v k3 heldk1 doc) in Hjob as [Hstat Hall]; [|done|simpl; congruence|done|done| |].
  - split; [by eexists|]. intros oid o Ho. apply (Hall oid o); [|done].
    unfold names. rewrite elem_of_py_sorted. by eapply abs_key.
  - intros t. by rewrite elem_of_py_sorted.
  - intros oid e Hin. destruct (Hz oid e Hin) as (o & Ho & Hl & Hlp).
    destruct (Hstk1 oid o Ho Hlp) as (o' & Ho' & Hb & _). exists o'. simpl. by rewrite Hb.
Qed.
(** ** Remap plans *)

(** Byte [x] of target [t] is read from offset [off] of the payload. *)
Definition placed (ps : list Placement) (t : string) (x off : Z) : Prop :=
  ∃ p, p ∈ ps ∧ pl_target p = t ∧ pl_lo p ≤ x < pl_hi p ∧ off = pl_file_offset p + (x - pl_lo p).

Definition inside (r : Z * Z) (x : Z) : Prop := r.1 ≤ x < r.2.
Definition windows (m : Remap) (e : Entry (T := T)) : list Window := default [] (assoc_get m (en_logical_id e)).

Lemma windows_valid ws : ∀ sizes spans sizes', remap_windows sizes ws = Ok (spans, sizes') →
  ∀ w, w ∈ ws → (wi_logical w).2 - (wi_logical w).1 = (wi_local w).2 - (wi_local w).1 ∧
    0 ≤ (wi_local w).1 ∧ (wi_local w).2 ≤ wi_bytes w.
Proof.
  induction ws as [|w ws IH]; intros sizes spans sizes' Hr w' Hin; [by apply not_elem_of_nil in Hin|].
  cbn [remap_windows] in Hr. destruct (wi_logical w) as [llo lhi] eqn:Hlg, (wi_local w) as [xlo xhi] eqn:Hlc.
  unfold raise_if in Hr.
  destruct ((lhi <=? llo) || _) eqn:H1; [done|]. simpl in Hr.
  destruct (negb _) eqn:H2 in Hr; [done|]. simpl in Hr.
  destruct (match assoc_get sizes (wi_id w) with Some _ => _ | None => _ end); [done|]. simpl in Hr.
  destruct (remap_windows _ ws) as [[spans' sizes2]|] eqn:Hw; [|done].
  apply elem_of_cons in Hin as [->|Hin]; [|by eapply IH]. rewrite Hlg, Hlc. simpl. lia.
Qed.

Lemma remap_valid m : ∀ sizes, validate_remap sizes m = Ok tt → ∀ lid ws, (lid, ws) ∈ m →
  ∀ w, w ∈ ws → (wi_logical w).2 - (wi_logical w).1 = (wi_local w).2 - (wi_local w).1 ∧
    0 ≤ (wi_local w).1 ∧ (wi_local w).2 ≤ wi_bytes w.
Proof.
  induction m as [|[lid ws] m IH]; intros sizes Hv lid' ws' Hin; [by apply not_elem_of_nil in Hin|].
  cbn [validate_remap] in Hv. destruct (remap_windows sizes ws) as [[spans sizes']|] eqn:Hw; [|done]. simpl in Hv.
  destruct (spans_overlap _); [done|]. simpl in Hv.
  apply elem_of_cons in Hin as [Heq|Hin]; [|by eapply IH]. injection Heq as -> ->. by eapply windows_valid.
Qed.

Lemma add_piece_spec (req req' : Required (T := T)) pc : add_piece req pc = Ok req' →
  (∀ t v, assoc_get req t = Some v → assoc_get req' t = Some v) ∧
  ∃ meta, assoc_get req' (pl_target (pc_place pc)) = Some (pc_total pc, meta).
Proof.
  unfold add_piece. destruct (assoc_get req _) as [[n meta]|] eqn:Hg.
  - destruct (Z.eqb_spec n (pc_total pc)) as [<-|]; [|done]. simpl. intros [= <-]. eauto.
  - intros [= <-]. split; [|rewrite assoc_get_set; eauto]. intros t v Ht.
    rewrite assoc_get_set_ne; [done|]. intros <-. congruence.
Qed.

Lemma add_pieces_spec (pcs : list Piece) : ∀ (req req' : Required (T := T)), foldR add_piece req pcs = Ok req' →
  (∀ t v, assoc_get req t = Some v → assoc_get req' t = Some v) ∧
  ∀ pc, pc ∈ pcs → ∃ meta, assoc_get req' (pl_target (pc_place pc)) = Some (pc_total pc, meta).
Proof.
  induction pcs as [|pc pcs IH]; intros req req'; cbn [foldR]; [intros [= <-]; split; [done|set_solver]|].
  destruct (add_piece req pc) as [req1|] eqn:Ha; [|done]. cbn [mbind result_bind]. intros Hf.
  destruct (add_piece_spec _ _ _ Ha) as (H1 & meta & H2). destruct (IH _ _ Hf) as [H3 H4]. split; [by auto|].
  intros pc' [->|Hin]%elem_of_cons; [eauto|by apply H4].
Qed.

Lemma window_piece_spec (e : Entry (T := T)) w pc x off : window_piece e w = Some pc →
  pl_target (pc_place pc) = wi_id w ∧ pc_total pc = wi_bytes w ∧
  (pl_lo (pc_place pc) ≤ x < pl_hi (pc_place pc) ∧ off = pl_file_offset (pc_place pc) + (x - pl_lo (pc_place pc)) ↔
   ∃ l, inside (en_dst e) l ∧ inside (wi_logical w) l ∧
     x = (wi_local w).1 + (l - (wi_logical w).1) ∧ off = (en_payload e).1 + (l - (en_dst e).1)).
Proof.
  unfold window_piece. cbv zeta. destruct (Z.leb_spec (Z.min (en_dst e).2 (wi_logical w).2) (Z.max (en_dst e).1 (wi_logical w).1)) as [|Hlt];
    [done|]. intros [= <-]. cbn [pc_place pc_total pl_target pl_lo pl_hi pl_file_offset]. split_and!; [done..|].
  unfold inside. split.
  - intros [Hx ->]. exists ((wi_logical w).1 + (x - (wi_local w).1)). lia.
  - intros (l & H1 & H2 & -> & ->). lia.
Qed.

Lemma resolved_placed (m : Remap) (es : list Entry) ps req t x off :
  resolve_placements es (Some m) = Ok (ps, req) →
  (placed ps t x off ↔
   ∃ e w l, e ∈ es ∧ w ∈ windows m e ∧ wi_id w = t ∧ inside (en_dst e) l ∧ inside (wi_logical w) l ∧
     x = (wi_local w).1 + (l - (wi_logical w).1) ∧ off = (en_payload e).1 + (l - (en_dst e).1)) ∧
  (validate_remap [] m = Ok tt → placed ps t x off →
   ∃ total meta, assoc_get req t = Some (total, meta) ∧ 0 ≤ x < total).
Proof.
  unfold resolve_placements. set (pcs := es ≫= pieces_of (Some m)).
  destruct (foldR add_piece [] pcs) as [req'|] eqn:Hreq; [|done]. intros [= <- <-].
  assert (∀ pc, pc ∈ pcs ↔ ∃ e w, e ∈ es ∧ w ∈ windows m e ∧ window_piece e w = Some pc) as Hpcs.
  { intros pc. unfold pcs. rewrite list_elem_of_bind. unfold pieces_of, windows. split.
    - intros (e & Hpc & He). apply list_elem_of_omap in Hpc as (w & Hw & Hwp). eauto.
    - intros (e & w & He & Hw & Hwp). exists e. split; [|done]. apply list_elem_of_omap. eauto. }
  assert (placed (pc_place <$> pcs) t x off ↔ ∃ e w pc, e ∈ es ∧ w ∈ windows m e ∧ window_piece e w = Some pc ∧
    pl_target (pc_place pc) = t ∧ pl_lo (pc_place pc) ≤ x < pl_hi (pc_place pc) ∧
    off = pl_file_offset (pc_place pc) + (x - pl_lo (pc_place pc))) as Hpl.
  { unfold placed. split.
    - intros (p & Hp & Ht & Hx & Ho). apply list_elem_of_fmap in Hp as (pc & -> & Hpc).
      apply Hpcs in Hpc as (e & w & He & Hw & Hwp). exists e, w, pc. done.
    - intros (e & w & pc & He & Hw & Hwp & Ht & Hx & Ho). exists (pc_place pc). split_and!; [|done|lia..].
      apply list_elem_of_fmap_2, Hpcs. eauto. }
  rewrite Hpl. split; [split|].
  - intros (e & w & pc & He & Hw & Hwp & Ht & Hx & Ho).
    destruct (window_piece_spec e w pc x off Hwp) as (Htw & _ & Hiff).
    destruct (proj1 Hiff (conj Hx Ho)) as (l & H1 & H2 & H3 & H4). exists e, w, l. by rewrite <-Htw.
  - intros (e & w & l & He & Hw & Ht & H1 & H2 & H3 & H4).
    destruct (window_piece e w) as [pc|] eqn:Hwp.
    + destruct (window_piece_spec e w pc x off Hwp) as (Htw & _ & Hiff).
      destruct (proj2 Hiff) as [Hx Ho]; [by exists l|]. exists e, w, pc. by rewrite Htw.
    + exfalso. unfold window_piece, inside in *. cbv zeta in Hwp. destruct (Z.leb_spec (Z.min (en_dst e).2 (wi_logical w).2) (Z.max (en_dst e).1 (wi_logical w).1)); [lia|done].
  - intros Hv (e & w & pc & He & Hw & Hwp & Ht & Hx & Ho).
    destruct (window_piece_spec e w pc x off Hwp) as (Htw & Htot & Hiff).
    destruct (proj1 Hiff (conj Hx Ho)) as (l & H1 & H2 & H3 & H4).
    destruct (proj2 (add_pieces_spec _ _ _ Hreq) pc) as (meta & Hm); [apply Hpcs; eauto|].
    exists (wi_bytes w), meta. rewrite <-Ht, Hm, Htot. split; [done|].
    unfold windows in Hw. destruct (assoc_get m (en_logical_id e)) as [ws|] eqn:Hws; [|by apply not_elem_of_nil in Hw].
    apply assoc_get_split in Hws as (m1 & m2 & Hm12 & _).
    destruct (remap_valid m [] Hv (en_logical_id e) ws ltac:(rewrite Hm12; set_solver) w Hw) as (Hl1 & Hl2 & Hl3).
    unfold inside in *. lia.
Qed.

(** A remap plan extracts exactly what it says: byte [x] of a local object is
    placed from the payload if and only if some window maps a logical position
    [l] of a saved slice to it, and then from where the slice keeps [l]; under a
    plan that validates, every placed byte lies inside its target. *)
Theorem remap_extracts (m : Remap) (es : list Entry) ps req t x off :
  resolve_placements es (Some m) = Ok (ps, req) →
  (placed ps t x off ↔
   ∃ e w l, e ∈ es ∧ w ∈ windows m e ∧ wi_id w = t ∧ inside (en_dst e) l ∧ inside (wi_logical w) l ∧
     x = (wi_local w).1 + (l - (wi_logical w).1) ∧ off = (en_payload e).1 + (l - (en_dst e).1)) ∧
  (validate_remap [] m = Ok tt → placed ps t x off →
   ∃ total meta, assoc_get req t = Some (total, meta) ∧ 0 ≤ x < total).
Proof. apply resolved_placed. Qed.

Lemma resolve_slice_error (s : Store T) sizes sl err : resolve_slice s sizes sl = Err err → err = BadRequest.
Proof.
  unfold resolve_slice. destruct (sl_id sl ≫= _) as [[oid r]|]; [|by intros [= <-]]. cbv zeta.
  repeat match goal with |- context [raise_if ?c BadRequest] => destruct c; [by intros [= <-]|]; simpl end.
  done.
Qed.

(** One empty object makes every snapshot of the whole store fail, and nothing is
    changed. *)
Theorem empty_object_blocks_snapshot dest meta (g : Engine (T := T)) oid r :
  find_rec oid (en_store g) = Some r → rec_size_bytes r = 0 →
  snapshot dest meta None g = (Err BadRequest, g).
Proof.
  intros Hf Hz.
  assert (∀ ids sizes, oid ∈ ids → resolve_slices (en_store g) sizes (whole <$> ids) = Err BadRequest) as Herr.
  { induction ids as [|id ids IH]; intros sizes Hin; [by apply not_elem_of_nil in Hin|]. simpl.
    destruct (resolve_slice (en_store g) sizes (whole id)) as [[e sizes']|err] eqn:Hr.
    - simpl. apply elem_of_cons in Hin as [<-|Hin]; [|by rewrite IH].
      apply resolve_whole in Hr as (r' & Hf' & _ & Hpos). rewrite Hf in Hf'. injection Hf' as <-. lia.
    - simpl. f_equal. by eapply resolve_slice_error. }
  assert (oid ∈ names (en_store g)) as Hin.
  { unfold names. rewrite elem_of_py_sorted. eapply abs_key. by apply abs_some. }
  unfold names in Hin. unfold snapshot. unfold mbind, M_bind, check, get, mret, M_ret, lift, default. simpl.
  specialize (Herr _ [] Hin). revert Herr. generalize (py_sorted String.leb (objects (en_store g)).*1).
  intros [|id ids]; [done|]. intros Herr. by rewrite Herr.
Qed.
End theorems.

(** ** Two of them at work *)
Definition saved_w : Entry (T := Z) :=
  mkEntry "part" 8 [] false (0, 8) "w" (8, 16) 32 (4096, 8) None.
Definition take_middle : Remap := [("w", [mkWindow (10, 14) "x" (1, 5) 6])]%string.

Lemma remap_extracts_witness :
  match resolve_placements [saved_w] (Some take_middle) with
  | Ok (ps, req) => placed ps "x" 2 4099 ∧ ∃ total meta, assoc_get req "x"%string = Some (total, meta) ∧ 0 ≤ 2 < total
  | Err _ => False
  end.
Proof.
  destruct (resolve_placements [saved_w] (Some take_middle)) as [[ps req]|e] eqn:Hr; [|by vm_compute in Hr].
  destruct (remap_extracts take_middle [saved_w] ps req "x" 2 4099 Hr) as [Hiff Hin].
  assert (placed ps "x" 2 4099) as Hp.
  { apply Hiff. exists saved_w, (mkWindow (10, 14) "x" (1, 5) 6), 11. unfold inside. simpl.
    split_and!; try lia; [by left|by left|done]. }
  split; [exact Hp|apply Hin; [by vm_compute|exact Hp]].
Defined.

Definition with_empty : Engine (T := Z) :=
  with_store (put 0 "a" None (Some 0) None "w" (new_store 4096)).2 (new_engine 4096 []).

Lemma empty_object_blocks_snapshot_witness : (snapshot "dir" [] None with_empty).1 = Err BadRequest.
Proof.
  destruct (find_rec "a" (en_store with_empty)) as [r|] eqn:Hf; [|by vm_compute in Hf].
  assert (rec_size_bytes <$> find_rec "a" (en_store with_empty) = Some 0) as Hz by by vm_compute.
  rewrite Hf in Hz. injection Hz as Hz.
  rewrite (empty_object_blocks_snapshot "dir" [] with_empty "a" r Hf Hz). reflexivity.
Defined.
