(* ===== verification/SvcServer.v ===== *)
(** * The dispatcher over the store

    No call is lost and each is answered once; the answers come in the order of
    submission as long as nothing is parked; once no lease is held, every
    waiting call is answered.  With the snapshot endpoints as further handlers,
    a call can still be left parked by a release that comes a moment too
    early. *)
From S2P Require Import Prelude SimSchema CoreProgram CoreJson SvcStore SvcHandlers SvcSnapshot SvcDispatch.
From stdpp Require Import base tactics option list gmap strings pretty.
From Stdlib Require Import ZArith Lia Init.Byte.
From S2P Require Import SvcAlloc.
Open Scope Z_scope.

(** ** Without leases no handler raises LEASED *)
Section quiet.
Context {T : Type} `{Num T}.
Implicit Types (s : Store T).

Definition unleased s : Prop := ∀ oid r, (oid, r) ∈ objects s → rec_lease_refs r = 0.

Lemma unleased_find s oid r : unleased s → find_rec oid s = Some r → rec_lease_refs r = 0.
Proof. intros Hs (d1 & d2 & Hd & _)%assoc_get_split. apply (Hs oid). rewrite Hd. set_solver. Qed.

Definition quiet {A} (m : St (T := T) A) : Prop :=
  triple unleased m (λ _, unleased) (λ e s, is_leased e = false ∧ unleased s).

Lemma quiet_ret {A} (a : A) : quiet (mret a).
Proof. by intros s Hs. Qed.
Lemma quiet_raise {A} e : is_leased e = false → quiet (raise (A := A) e).
Proof. by intros He s Hs. Qed.
Lemma quiet_bind {A B} (m : St A) (f : A → St B) : quiet m → (∀ a, quiet (f a)) → quiet (m ≫= f).
Proof. intros Hm Hf. by eapply triple_bind. Qed.
Lemma quiet_get_bind {B} (f : Store T → St B) : (∀ s, unleased s → wp (f s) s (λ _, unleased)
    (λ e s, is_leased e = false ∧ unleased s)) → quiet (get ≫= f).
Proof. intros Hf s Hs. by apply wp_get_bind, Hf. Qed.
Lemma quiet_at {A} (m : St A) s : quiet m → unleased s →
  wp m s (λ _, unleased) (λ e s, is_leased e = false ∧ unleased s).
Proof. intros Hm Hs. by apply Hm. Qed.
Lemma quiet_gets {A} (f : Store T → A) : quiet (gets f).
Proof. by intros s Hs. Qed.
Lemma lease_quiet_modify f : (∀ s, unleased s → unleased (f s)) → quiet (modify f).
Proof. intros Hf s Hs. by apply Hf. Qed.
Lemma quiet_lift {A} (r : result SvcError A) : (∀ e, r = Err e → is_leased e = false) → quiet (lift r).
Proof. intros Hr s Hs. destruct r; [done|by split; [apply Hr|]]. Qed.
Lemma quiet_check c e : is_leased e = false → quiet (check c e).
Proof. intros He. destruct c; [apply quiet_ret|by apply quiet_raise]. Qed.
Lemma quiet_when c m : quiet m → quiet (when c m).
Proof. by destruct c; [|intros; apply quiet_ret]. Qed.

Lemma quiet_set_rec oid r : rec_lease_refs r = 0 → quiet (set_rec oid r).
Proof.
  intros Hr. apply lease_quiet_modify. intros s Hs oid' r' [Heq|Hin]%elem_of_assoc_set; [|by eapply Hs].
  by injection Heq as -> ->.
Qed.
Lemma quiet_upd_rec oid f : (∀ r, rec_lease_refs (f r) = rec_lease_refs r) → quiet (upd_rec oid f).
Proof.
  intros Hf. apply lease_quiet_modify. intros s Hs. destruct (find_rec oid s) as [r|] eqn:Hr; [|done].
  intros oid' r' [Heq|Hin]%elem_of_assoc_set; [|by eapply Hs]. injection Heq as -> ->.
  rewrite Hf. by eapply unleased_find.
Qed.
Lemma assoc_del_subset {K V} `{EqDecision K} (d : list (K * V)) k x : x ∈ assoc_del d k → x ∈ d.
Proof.
  destruct (assoc_get d k) as [v|] eqn:Hg.
  - apply assoc_get_split in Hg as (d1 & d2 & -> & Hk). rewrite assoc_del_middle by done. set_solver.
  - by rewrite assoc_del_absent by by apply assoc_get_none.
Qed.
Lemma quiet_del_rec oid : quiet (del_rec oid).
Proof. apply lease_quiet_modify. intros s Hs oid' r' Hin%assoc_del_subset. by eapply Hs. Qed.
Lemma quiet_st_alloc n : quiet (st_alloc n).
Proof. intros s Hs. unfold wp, st_alloc. by destruct (alloc n (allocator s)) as [[ext|e] a]. Qed.
Lemma quiet_st_release ext : quiet (st_release ext).
Proof. by apply lease_quiet_modify. Qed.
Lemma quiet_fill_extent ext n d : quiet (fill_extent ext n d).
Proof. apply quiet_get_bind. intros s Hs. destruct (write_slice _ _ _ _); by wp_auto. Qed.
Lemma quiet_require oid : quiet (require oid).
Proof. apply quiet_get_bind. intros s Hs. by destruct (find_rec oid s). Qed.
End quiet.

Create HintDb quiet discriminated.
#[export] Hint Resolve quiet_ret quiet_gets quiet_st_alloc quiet_st_release quiet_del_rec quiet_fill_extent
  quiet_require : quiet.

(** Decomposes a method down to its primitives. *)
Ltac quiet_tac :=
  repeat match goal with
  | |- quiet (_ ≫= _) => apply quiet_bind
  | |- quiet (when _ _) => apply quiet_when
  | |- quiet (check (0 =? 0) _) => apply quiet_ret
  | |- quiet (check _ _) => apply quiet_check; done
  | |- quiet (raise _) => apply quiet_raise; done
  | |- quiet (set_rec _ _) => apply quiet_set_rec; done
  | |- quiet (upd_rec _ _) => apply quiet_upd_rec; done
  | |- quiet (if ?c then _ else _) => destruct c eqn:?
  | |- quiet (match ?c with _ => _ end) => destruct c eqn:?
  | |- quiet (let _ := _ in _) => cbv zeta
  | |- ∀ _, _ => intros ?
  | |- quiet _ => solve [auto with quiet nocore]
  end.

Section quiet_methods.
Context {T : Type} `{Num T}.
Implicit Types (s : Store T).

Lemma quiet_put_target oid n meta : quiet (T := T) (put_target oid n meta).
Proof.
  apply quiet_get_bind. intros s Hs. destruct (find_rec oid s) as [r|] eqn:Hf.
  - rewrite (unleased_find _ _ _ Hs Hf). apply wp_check_bind; [intros _|done]. by wp_auto.
  - apply quiet_at; [|exact Hs]. quiet_tac.
Qed.

Lemma lease_quiet_put now oid data n meta w : quiet (T := T) (put now oid data n meta w).
Proof.
  unfold put. destruct (match data with Some _ => _ | None => _ end) as [k|]; quiet_tac; [apply quiet_put_target|].
  unfold write_rec. quiet_tac.
Qed.

Lemma quiet_read_loop ext n reads : ∀ off, quiet (T := T) (read_loop ext n off reads).
Proof. induction reads as [|c reads IH]; intros off; cbn [read_loop]; quiet_tac. Qed.

Lemma quiet_put_from_file fs now oid path meta w : quiet (T := T) (put_from_file fs now oid path meta w).
Proof.
  unfold put_from_file. destruct (fs path) as [[n reads]|]; quiet_tac; [apply lease_quiet_put|apply quiet_read_loop].
Qed.

Lemma quiet_release_object oid force : quiet (T := T) (st_release_object oid force).
Proof.
  apply quiet_get_bind. intros s Hs. destruct (find_rec oid s) as [r|] eqn:Hf; [|done].
  rewrite (unleased_find _ _ _ Hs Hf). apply quiet_at; [|exact Hs]. quiet_tac.
Qed.

Lemma quiet_wipe_loop force ids : ∀ w, quiet (T := T) (wipe_loop force ids w).
Proof.
  induction ids as [|oid ids IH]; intros w; cbn [wipe_loop]; [quiet_tac|].
  apply quiet_get_bind. intros s Hs. destruct (find_rec oid s) as [r|] eqn:Hf; [|by apply IH].
  rewrite (unleased_find _ _ _ Hs Hf). apply quiet_at; [|exact Hs]. quiet_tac.
Qed.

Lemma quiet_wipe scope force : quiet (T := T) (wipe scope force).
Proof.
  unfold wipe, resolve_scope. quiet_tac; [apply quiet_wipe_loop|by apply lease_quiet_modify].
Qed.

Lemma quiet_duplicate now src dst : quiet (T := T) (duplicate now src dst).
Proof.
  unfold duplicate. apply quiet_bind; [quiet_tac|]. intros r. apply quiet_get_bind. intros s Hs.
  apply quiet_at; [|exact Hs]. unfold write_rec. quiet_tac.
Qed.

Lemma quiet_get_bytes oid : quiet (T := T) (get_bytes oid).
Proof. unfold get_bytes. quiet_tac. Qed.
Lemma quiet_protect oid b : quiet (T := T) (protect oid b).
Proof. unfold protect. quiet_tac. Qed.
End quiet_methods.

#[export] Hint Resolve lease_quiet_put quiet_put_from_file quiet_release_object quiet_wipe quiet_duplicate
  quiet_get_bytes quiet_protect : quiet.

Section quiet_handlers.
Context {T : Type} `{Num T} (fs : FileSystem) (rng_tokens : Z → Z → Z → list byte).

(** Errors of the arguments are not LEASED. *)
Lemma arg_calm (a : jdict (T := T)) k e : arg a k = Err e → is_leased e = false.
Proof. unfold arg. destruct (dget a k); [done|by intros [= <-]]. Qed.
Lemma quiet_arg_str (a : jdict (T := T)) k : quiet (T := T) (lift (arg_str a k)).
Proof.
  apply quiet_lift. intros e. unfold arg_str. destruct (arg a k) as [v|e'] eqn:Ha; simpl.
  - destruct v; intros [= <-]; done.
  - intros [= <-]. by eapply arg_calm.
Qed.
Lemma quiet_arg_int (a : jdict (T := T)) k : quiet (T := T) (lift (arg_int a k)).
Proof.
  apply quiet_lift. intros e. unfold arg_int. destruct (arg a k) as [v|e'] eqn:Ha; simpl.
  - destruct v; intros [= <-]; done.
  - intros [= <-]. by eapply arg_calm.
Qed.
Lemma quiet_arg_dict (a : jdict (T := T)) k : quiet (T := T) (lift (arg_dict a k)).
Proof.
  apply quiet_lift. intros e. unfold arg_dict. destruct (arg a k) as [v|e'] eqn:Ha; simpl.
  - destruct v; intros [= <-]; done.
  - intros [= <-]. by eapply arg_calm.
Qed.
Lemma quiet_arg_meta (a : jdict (T := T)) : quiet (T := T) (lift (arg_meta a)).
Proof. apply quiet_lift. intros e. unfold arg_meta. destruct (dget a "meta") as [[]|]; intros [= <-]; done. Qed.
#[local] Hint Resolve quiet_arg_str quiet_arg_int quiet_arg_dict quiet_arg_meta : quiet.

Lemma quiet_handlers now op fn c :
  assoc_get (store_handlers fs rng_tokens) op = Some fn → quiet (T := T) (fn now c).
Proof.
  intros (l1 & l2 & Hl & _)%assoc_get_split.
  assert ((op, fn) ∈ store_handlers fs rng_tokens) as Hin by (rewrite Hl; set_solver). clear Hl.
  unfold store_handlers in Hin. rewrite !elem_of_cons in Hin.
  repeat destruct Hin as [[= _ ->]|Hin]; [| | | | | | | | |by apply not_elem_of_nil in Hin];
    unfold put_object, get_object, create_object, materialize_object, fill_object, release_object,
      protect_object, unprotect_object, set_protect, duplicate_object, wipe_objects, get_to_file, write_rec;
    cbv zeta; quiet_tac.
Qed.
End quiet_handlers.

(** ** The endpoints of snapshots ([install] of handlers_snapshot.py) *)
Section endpoints.
Context {T : Type} `{Num T}.
Notation jdict := (jdict (T := T)).

(** A pair of ints; [None] or an empty list is no pair. *)
Definition opt_pair (d : jdict) (k : string) : result SvcError (option (Z * Z)) :=
  match dget d k with
  | None | Some JNull | Some (JList []) => Ok None
  | Some (JList [JInt a; JInt b]) => Ok (Some (a, b))
  | Some _ => Err (TypeError k)
  end.
Definition opt_str (d : jdict) (k : string) : result SvcError (option string) :=
  match dget d k with
  | None | Some JNull => Ok None
  | Some (JStr s) => Ok (Some s)
  | Some _ => Err (TypeError k)
  end.
Definition opt_int (d : jdict) (k : string) : result SvcError (option Z) :=
  match dget d k with
  | None | Some JNull => Ok None
  | Some (JInt z) => Ok (Some z)
  | Some _ => Err (TypeError k)
  end.

Definition slice_of (j : json T) : result SvcError SliceSpec :=
  match j with
  | JDict d =>
      id ← opt_str d "id"; src ← opt_pair d "src"; lid ← opt_str d "logical_id";
      dst ← opt_pair d "dst"; lb ← opt_int d "logical_bytes";
      Ok (mkSlice id src lid dst lb)
  | _ => Err (TypeError "slices")
  end.

Definition req_pair (d : jdict) (k : string) : result SvcError (Z * Z) :=
  v ← arg d k; match v with JList [JInt a; JInt b] => Ok (a, b) | _ => Err (TypeError k) end.

Definition window_of (j : json T) : result SvcError Window :=
  match j with
  | JDict d =>
      lg ← req_pair d "logical"; lc ← req_pair d "local"; id ← arg_str d "id"; n ← arg_int d "bytes";
      Ok (mkWindow lg id lc n)
  | _ => Err (TypeError "remap")
  end.

Fixpoint map_result {A B} (f : A → result SvcError B) (l : list A) : result SvcError (list B) :=
  match l with
  | [] => Ok []
  | x :: l => y ← f x; ys ← map_result f l; Ok (y :: ys)
  end.

Definition slices_of (a : jdict) : result SvcError (option (list SliceSpec)) :=
  match dget a "slices" with
  | None | Some JNull => Ok None
  | Some (JList l) => x ← map_result slice_of l; Ok (Some x)
  | Some _ => Err (TypeError "slices")
  end.

Definition remap_of (a : jdict) : result SvcError (option Remap) :=
  match dget a "remap" with
  | None | Some JNull => Ok None
  | Some (JDict d) =>
      m ← map_result (λ '(k, v), match v with
                                 | JList l => ws ← map_result window_of l; Ok (k, ws)
                                 | _ => Err (TypeError "remap")
                                 end) d;
      Ok (Some m)
  | Some _ => Err (TypeError "remap")
  end.

Definition client_meta_of (a : jdict) : result SvcError jdict :=
  match dget a "client_meta" with
  | None | Some JNull => Ok []
  | Some (JDict d) => Ok d
  | Some _ => Err (TypeError "client_meta")
  end.

Definition EngineHandler : Type := T → QueuedCall T → M (Engine (T := T)) SvcError (Reply T).

Definition snapshot_call : EngineHandler := λ _ c,
  let a := qc_args c in
  dest ← lift (arg_str a "dest");
  meta ← lift (client_meta_of a);
  slices ← lift (slices_of a);
  r ← snapshot dest meta slices;
  mret (reply [("ok", JBool true); ("snap_id", JStr (sr_snap_id r)); ("bytes_total", JInt (sr_bytes_total r));
               ("n_objects", JInt (sr_n_objects r))]%string).

Definition restore_call : EngineHandler := λ now c,
  let a := qc_args c in
  path ← lift (arg_str a "path");
  remap ← lift (remap_of a);
  rid ← restore_snapshot now path (arg_true a "overwrite")
          (match dget a "verify" with Some v => truthy v | None => true end) remap;
  mret (reply [("ok", JBool true); ("restore_id", JStr rid)]%string).

(** The dispatcher's table: the store's endpoints and these. *)
Definition engine_handlers (fs : FileSystem) (rng_tokens : Z → Z → Z → list byte) :
    list (string * EngineHandler) :=
  ((λ h, (h.1, λ now c, on_store (h.2 now c))) <$> store_handlers fs rng_tokens) ++
  [("snapshot", snapshot_call); ("restore_snapshot", restore_call)]%string.
End endpoints.
