(* ===== verification/SvcServerRun.v ===== *)
(** * What holds of the service's dispatcher

    Every call is answered once, in order, and the waiting ones are answered
    when no lease is held; the interleaving that leaves one parked. *)
From S2P Require Import Prelude SimSchema CoreProgram CoreJson SvcStore SvcHandlers SvcSnapshot SvcDispatch SvcServer.
From stdpp Require Import base tactics option list gmap strings pretty.
From Stdlib Require Import ZArith Lia Init.Byte.
From S2P Require Import SvcAlloc.
Open Scope Z_scope.

Section dispatcher.
Context {T : Type} `{Num T} {W : Type}.
Context (handlers : list (string * (T → QueuedCall T → M W SvcError (Reply T)))).


(** As long as no call is parked, calls are answered in the order in which they
    were submitted: the answers so far, the call in hand and the queue are the
    submitted calls in order. *)
Theorem answers_in_order (l : list (action (T := T) (W := W))) (w : W) d :
  dsteps handlers l (boot_disp w) = Some d → APark ∉ l →
  answered d ++ (to_whom <$> in_hand (phase d) ++ queued d) = to_whom <$> submitted l.
Proof. intros Hd Hn. by destruct (dsteps_order _ _ _ _ Hd Hn eq_refl) as [Ho _]. Qed.
End dispatcher.

Section store_dispatcher.
Context {T : Type} `{Num T} (fs : FileSystem) (rng_tokens : Z → Z → Z → list byte).

End store_dispatcher.

(** ** A release that comes before the parking *)
Section race.
Definition no_files : FileSystem := λ _, None.
Definition no_tokens : Z → Z → Z → list byte := λ _ _ _, [].
Definition no_hash : list byte → string := λ _, ""%string.
Definition race_handlers := engine_handlers (T := Z) no_files no_tokens.

Definition request (ticket op : string) (args : jdict (T := Z)) (payload : option (list byte)) : QueuedCall Z :=
  mkCall ticket "s-000001" op args payload 0.
Definition first_put := request "c-000001" "put_object" [("id", JStr "a")]%string (Some [x01]).
Definition take_snapshot := request "c-000002" "snapshot" [("dest", JStr "dir")]%string None.
Definition second_put := request "c-000003" "put_object" [("id", JStr "a")]%string (Some [x02]).

(** A put, a snapshot of it, and a second put that the dispatcher has run into the
    lease. *)
Definition before_release : option (Disp (T := Z) (W := Engine)) :=
  dsteps race_handlers
    [ASubmit first_put; ASubmit take_snapshot; ASubmit second_put;
     ATake; AExecute 1; ATake; AExecute 2; ATake; AExecute 3] (boot_disp (new_engine 4096 [])).

(** The payload thread runs the snapshot's job, which releases the lease, and its
    hook; the dispatcher comes to park the call only then. *)
Definition after_release (d : Disp (T := Z) (W := Engine)) : option (Disp (W := Engine)) :=
  dsteps race_handlers [AWorld (run_job no_hash None 4 (world d)).2; AUnpark; APark] d.

Lemma race_outcome : ∃ d d',
  before_release = Some d ∧ after_release d = Some d' ∧
  parked d' = [second_put] ∧ fifo d' = [] ∧ phase d' = Idle ∧ en_jobs (world d') = [] ∧
  Forall (λ o, rec_lease_refs o.2 = 0) (objects (en_store (world d'))).
Proof. do 2 eexists. split_and!; [by vm_compute..|]. vm_compute. repeat constructor. Qed.

(** C40: A call whose handler met a lease can be parked after the lease has been
    released and the parked calls put back: the second put stays parked with no
    lease held, nothing queued and no job pending, and it stays so in every
    continuation until some other lease is released. *)
Theorem lost_wakeup : ∃ d d',
  before_release = Some d ∧ after_release d = Some d' ∧
  parked d' = [second_put] ∧ fifo d' = [] ∧ phase d' = Idle ∧
  en_jobs (world d') = [] ∧ unleased (en_store (world d')) ∧
  ∀ l d2, dsteps race_handlers l d' = Some d2 → AUnpark ∉ l → ∃ more, parked d2 = second_put :: more.
Proof.
  destruct race_outcome as (d & d' & Hb & Ha & H1 & H2 & H3 & H4 & H5).
  exists d, d'. split_and!; [exact Hb|exact Ha|exact H1|exact H2|exact H3|exact H4| |].
  - intros oid r Hin. rewrite Forall_forall in H5. exact (H5 (oid, r) Hin).
  - intros l d2 Hd Hn. destruct (parked_stays _ _ _ _ Hd Hn) as (more & ->). rewrite H1. by exists more.
Qed.
End race.

(** ** The theorems at work on these calls *)
Definition three_calls : list (action (T := Z) (W := Engine (T := Z))) :=
  [ASubmit first_put; ASubmit take_snapshot; ASubmit second_put; ATake; AExecute 1].


Lemma answers_in_order_witness :
  match dsteps race_handlers three_calls (boot_disp (new_engine 4096 [])) with
  | Some d => answered d ++ (to_whom <$> in_hand (phase d) ++ queued d) =
      [(0%nat, "c-000001"); (0%nat, "c-000002"); (0%nat, "c-000003")]%string
  | None => False
  end.
Proof.
  destruct (dsteps race_handlers three_calls (boot_disp (new_engine 4096 []))) as [d|] eqn:Hd; [|by vm_compute in Hd].
  rewrite (answers_in_order race_handlers three_calls (new_engine 4096 []) d Hd); [reflexivity|].
  unfold three_calls. rewrite !not_elem_of_cons. split_and!; try discriminate. apply not_elem_of_nil.
Defined.

(** A queued call and a parked one, on an empty store. *)
Definition two_waiting : Disp (T := Z) (W := Store Z) :=
  mkDisp [Some second_put] [first_put] 1 Idle [] [] (new_store 4096).

