(* ===== verification/SvcExamples.v ===== *)
(** * The service's theorems at work

    A small store and its snapshot, on which the theorems of the service apply;
    and what the sizes and orders that nothing checks do. *)
From S2P Require Import Prelude SimSchema CoreProgram CoreJson SvcStore SvcHandlers SvcSnapshot SvcDispatch SvcServer.
From stdpp Require Import base tactics option list gmap strings.
From Stdlib Require Import ZArith Lia Init.Byte.
From S2P Require Import SvcAlloc SvcStoreInv SvcStoreSpec SvcStoreRun SvcSnapshotOk SvcSnapshotRun SvcServerRun.
Open Scope Z_scope.

(** ** Runs of the store *)
Lemma ok_pair {S E A} (p : result E A * S) : is_ok p.1 = true → ∃ a, p = (Ok a, p.2).
Proof. destruct p as [[a|e] s]; [by exists a|done]. Qed.

Lemma step_ok {T} `{Num T} md (c : call (T := T)) s held now rest got :
  valid md c → Permutation held (takes c ++ rest) → (perform now c s).1 = Ok got →
  step md (s, held) c true ((perform now c s).2, got ++ rest).
Proof.
  intros Hv Hp Ho. apply (step_returns _ _ _ now rest); [done..|].
  cbn [fst]. rewrite (surjective_pairing (perform now c s)). by rewrite Ho.
Qed.

Lemma run_ok {T} `{Num T} md (cs : list (call (T := T))) st s held c now rest got :
  run md st cs (s, held) → valid md c → Permutation held (takes c ++ rest) →
  (perform now c s).1 = Ok got → run md st (cs ++ [c]) ((perform now c s).2, got ++ rest).
Proof. intros Hr Hv Hp Ho. eapply run_snoc; [exact Hr|]. by apply step_ok. Qed.

Definition loose := mkMode False 12288.
Definition put_a : call (T := Z) := CPut "a" [x01; x02; x03] None "w".
Definition copy_a : call (T := Z) := CDuplicate "a" "b".
Definition lease_a : call (T := Z) := CAcquire ["a"%string].
Definition demo : list call := [put_a; copy_a; lease_a].
Definition demo_1 := (perform 0 put_a (new_store 12288)).2.
Definition demo_2 := (perform 0 copy_a demo_1).2.
Definition demo_3 := (perform 0 lease_a demo_2).2.

Lemma demo_run_2 : run loose (boot loose) [put_a; copy_a] (demo_2, []).
Proof.
  apply (run_ok loose [put_a] _ demo_1 [] copy_a 0 [] []); [|done|done|by vm_compute].
  apply (run_ok loose [] _ (new_store 12288) [] put_a 0 [] []); [apply run_nil| |done|by vm_compute].
  split; [simpl; lia|done].
Qed.
Lemma demo_run : run loose (boot loose) demo (demo_3, []).
Proof. apply (run_ok loose [put_a; copy_a] _ demo_2 [] lease_a 0 [] []); [exact demo_run_2|done|done|by vm_compute]. Qed.

Lemma store_never_overlaps_witness :
  disjoint_extents (mkExtent 0 4096) (mkExtent 4096 4096) ∧ used_bytes (allocator demo_3) = 8192.
Proof.
  destruct (store_never_overlaps 12288 demo demo_3 [] eq_refl demo_run) as (Hd & _ & _ & Hu & _). split.
  - apply (Hd _ _ []). by vm_compute.
  - rewrite Hu. by vm_compute.
Defined.

Definition at_1 : system := (demo_1, []).
Definition at_2 : system := (demo_2, []).
Lemma store_refines_map_witness : effect copy_a at_1.1 (abs at_1.1) (abs at_2.1).
Proof.
  assert (run loose (boot loose) [put_a] at_1) as Hr.
  { apply (run_ok loose [] _ (new_store 12288) [] put_a 0 [] []); [apply run_nil| |done|by vm_compute].
    split; [simpl; lia|done]. }
  assert (step loose at_1 copy_a true at_2) as Hs.
  { apply (step_ok loose copy_a demo_1 [] 0 [] []); [done|done|by vm_compute]. }
  exact (store_refines_map 12288 [put_a] at_1 copy_a true at_2 eq_refl Hr Hs).
Defined.

(** The leased object while others come and go. *)
Definition put_c : call (T := Z) := CPut "c" [x07] None "w".
Definition drop_b : call (T := Z) := CRelease "b" false.
Definition demo_4 := (perform 0 put_c demo_3).2.
Definition demo_5 := (perform 0 drop_b demo_4).2.

Definition at_3 : system := (demo_3, []).
Definition at_5 : system := (demo_5, []).

(** Everything released again. *)
Definition strict := mkMode True 12288.
Definition drop_a : call (T := Z) := CRelease "a" false.
Definition drained := (perform 0 drop_a demo_1).2.
Lemma drained_store_is_whole_witness :
  free (allocator drained) = [mkExtent 0 12288] ∧ ∃ s', st_alloc 12288 drained = (Ok (mkExtent 0 12288), s').
Proof.
  destruct (drained_store_is_whole 12288 [put_a; drop_a] drained 12288) as [Hf Hs]; [done| |by vm_compute|by vm_compute|].
  - apply (run_ok strict [put_a] _ demo_1 [] drop_a 0 [] []); [|done|done|by vm_compute].
    apply (run_ok strict [] _ (new_store 12288) [] put_a 0 [] []); [apply run_nil| |done|by vm_compute].
    split; [simpl; lia|by intros _].
  - split; [exact Hf|]. destruct Hs as [s' Hs]; [done|by vm_compute|]. exists s'. exact Hs.
Defined.

(** ** A snapshot and its restore *)
Definition small := mkMode False 4096.
Definition plain_hash : list byte → string := λ _, "h"%string.

Definition saved_engine : Engine (T := Z) := with_store (perform 0 put_a (new_store 4096)).2 (new_engine 4096 []).
Definition snapped := (snapshot "dir" [] None saved_engine).2.
Definition written := (run_job plain_hash None 1 snapped).2.
Definition other_engine : Engine (T := Z) := new_engine 4096 (en_disk written).
Definition admitted_restore := (restore_snapshot 2 "dir" false true None other_engine).2.
Definition restored := (run_job plain_hash None 3 admitted_restore).2.

Lemma put_a_valid : valid small put_a.
Proof. split; [simpl; lia|done]. Qed.

Lemma small_runs (c1 c2 : call (T := Z)) n1 n2 : valid small c1 → valid small c2 → takes c1 = [] → takes c2 = [] →
  (perform n1 c1 (new_store 4096)).1 = Ok [] → (perform n2 c2 (perform n1 c1 (new_store 4096)).2).1 = Ok [] →
  StoreInv small (perform n1 c1 (new_store 4096)).2 [] ∧
  StoreInv small (perform n2 c2 (perform n1 c1 (new_store 4096)).2).2 [].
Proof.
  intros Hv1 Hv2 Ht1 Ht2 H1 H2.
  assert (run small (boot small) [c1] ((perform n1 c1 (new_store 4096)).2, [])) as Hr1.
  { apply (run_ok small [] _ (new_store 4096) [] c1 n1 [] []); [apply run_nil|done|by rewrite Ht1|done]. }
  split; [by apply (run_inv small _ (_, []) eq_refl Hr1)|].
  refine (run_inv small ([c1] ++ [c2]) (_, []) eq_refl _).
  apply (run_ok small [c1] _ _ [] c2 n2 [] []); [done|done|by rewrite Ht2|done].
Qed.

Lemma meanwhile_refl md path (g : Engine (T := Z)) held : StoreInv md (en_store g) held → meanwhile md path g g.
Proof.
  intros HI. split_and!; [by exists held|done|done|]. intros oid o Ho _. rewrite Ho. apply still_refl.
Qed.

Definition create_a : call (T := Z) := CCreate "a" 3 (Some []) "restore".

Lemma snapshot_roundtrip_witness : ∃ o, abs (en_store restored) !! "a"%string = Some o ∧ o_bytes o = [x01; x02; x03].
Proof.
  destruct (small_runs put_a lease_a 0 0) as [Hs1 Hs2]; [apply put_a_valid|done|done|done|by vm_compute|by vm_compute|].
  destruct (small_runs create_a lease_a 2 0) as [_ Hk2]; [split; [lia|done]|done|done|done|by vm_compute|by vm_compute|].
  assert (en_store snapped = (perform 0 lease_a (perform 0 put_a (new_store 4096)).2).2) as He1 by (vm_compute; reflexivity).
  assert (en_store admitted_restore = (perform 0 lease_a (perform 2 create_a (new_store 4096)).2).2) as He2 by (vm_compute; reflexivity).
  destruct (ok_pair (snapshot "dir" [] None saved_engine)) as [rep Hsn]; [by vm_compute|].
  destruct (ok_pair (restore_snapshot 2 "dir" false true None other_engine)) as [rid Hre]; [by vm_compute|].
  destruct (ok_pair (run_job plain_hash None 1 snapped)) as [u1 Hu1]; [by vm_compute|].
  destruct (ok_pair (run_job plain_hash None 3 admitted_restore)) as [u2 Hu2]; [by vm_compute|].
  destruct (snapshot_roundtrip plain_hash small small "dir" [] saved_engine snapped snapped written
    other_engine admitted_restore admitted_restore restored [] [] rep 1 2 3 false true rid u1 u2) as [_ Hall].
  - exact Hs1.
  - reflexivity.
  - exact Hsn.
  - apply (meanwhile_refl _ _ _ []). rewrite He1. exact Hs2.
  - exact Hu1.
  - exact (new_store_inv small eq_refl).
  - reflexivity.
  - reflexivity.
  - exact Hre.
  - apply (meanwhile_refl _ _ _ []). rewrite He2. exact Hk2.
  - exact Hu2.
  - destruct (Hall "a"%string (mkObj [x01; x02; x03] false 0 1)) as (o & Ho & Hb & _); [by vm_compute|].
    exists o. exact (conj Ho Hb).
Defined.
