(* ===== verification/SvcEdges.v ===== *)
(** * What the service's checks let through

    Closed runs of the store, the handlers and the jobs on the inputs nothing
    guards: sizes that are not positive, a wipe that meets a lease, a restore
    that does not fit. *)
From S2P Require Import Prelude SimSchema CoreProgram CoreJson SvcStore SvcHandlers SvcSnapshot SvcDispatch SvcServer.
From stdpp Require Import base tactics option list gmap strings.
From Stdlib Require Import ZArith Lia Init.Byte.
From S2P Require Import SvcAlloc.
Open Scope Z_scope.

(** ** Serving calls one after another *)
Section serving.
Context {W : Type} (handlers : list (string * (Z → QueuedCall Z → M W SvcError (Reply Z)))).

(** The outcome of each call, and the world after them. *)
Fixpoint answers (cs : list (QueuedCall Z)) (w : W) : list (result SvcError (Reply Z)) * W :=
  match cs with
  | [] => ([], w)
  | c :: cs =>
      let '(r, w) := call_handler handlers 0 c w in
      let '(rs, w) := answers cs w in (r :: rs, w)
  end.
End serving.

Definition ask (op : string) (args : jdict (T := Z)) (payload : option (list byte)) : QueuedCall Z :=
  mkCall "c-000001" "s-000001" op args payload 0.
Definition ask_put (oid : string) (b : list byte) : QueuedCall Z := ask "put_object" [("id", JStr oid)]%string (Some b).
Definition ask_create (oid : string) (n : Z) : QueuedCall Z :=
  ask "create_object" [("id", JStr oid); ("size_bytes", JInt n)]%string None.
Definition ask_release (oid : string) : QueuedCall Z := ask "release_object" [("id", JStr oid)]%string None.
Definition ask_wipe (scope : string) : QueuedCall Z := ask "wipe" [("scope", JStr scope)]%string None.

Definition empty_disk : FileSystem := λ _, None.
Definition zero_tokens : Z → Z → Z → list byte := λ _ _ n, replicate (Z.to_nat n) x00.
Definition plain_store : list (string * Handler Z) := store_handlers empty_disk zero_tokens.

(** *** Sizes *)
Definition negative_run := answers plain_store
  [ask_put "a" [x01; x02; x03]; ask_create "b" (-5000); ask_put "c" [x09; x09]] (new_store 8192).
Definition zero_run := answers plain_store
  [ask_create "a" 4096; ask_create "b" 4096; ask_release "a"; ask_create "z" 0; ask_release "z"; ask_release "b";
   ask_create "d" 12288] (new_store 12288).

(** A size is taken as it comes: creating an object of a negative size succeeds
    and moves the bump of the slab back, and the next object is written over
    another one's bytes without any call failing. *)
Theorem negative_size_overlaps :
  Forall (λ r, is_ok r = true) negative_run.1 ∧
  (get_bytes "a" (negative_run.2)).1 = Ok [x09; x09; x03] ∧
  (∃ ext, rec_extent <$> find_rec "a" negative_run.2 = Some ext ∧ rec_extent <$> find_rec "c" negative_run.2 = Some ext).
Proof. split_and!; [by vm_compute; repeat constructor..|by vm_compute|]. eexists. by vm_compute. Qed.

(** An object of size zero can leave the free list fragmented for good: with all
    objects released again, every byte free and nothing allocated, a request for
    the capacity fails, which no history without empty objects can do. *)
Theorem empty_object_fragments :
  objects zero_run.2 = [] ∧ used_bytes (allocator zero_run.2) = 0 ∧ st_free_bytes (stats (allocator zero_run.2)) = 12288 ∧
  (∃ e, last zero_run.1 = Some (Err (Capacity e)) ∧ ex_need e = 12288 ∧ ex_free_total e = 12288).
Proof. split_and!; [by vm_compute..|]. eexists. by vm_compute. Qed.

(** *** A wipe that meets a lease *)
Definition edge_handlers := engine_handlers (T := Z) empty_disk zero_tokens.
Definition edge_hash : list byte → string := λ _, "h"%string.
Definition slice_b : json Z := JDict [("id", JStr "b")]%string.
Definition wipe_setup : list (QueuedCall Z) :=
  [ask_put "a" [x01]; ask_put "b" [x02];
   ask "snapshot" [("dest", JStr "dir"); ("slices", JList [slice_b])]%string None].

(** The wipe runs into the lease of [b], is parked, and runs again after the
    snapshot's job has released it. *)
Definition wipe_first := answers edge_handlers (wipe_setup ++ [ask_wipe "all"]) (new_engine 8192 []).
Definition wipe_again := answers edge_handlers [ask_wipe "all"] (run_job edge_hash None 0 wipe_first.2).2.

(** A wipe that meets a leased object has already removed others when it raises
    LEASED, so the call that the dispatcher parks and runs again is no longer the
    same call: its reply counts one object and one byte where two of each are gone. *)
Theorem wipe_before_lease :
  last wipe_first.1 = Some (Err (Leased "b")) ∧
  find_rec "a" (en_store wipe_first.2) = None ∧
  objects (en_store wipe_again.2) = [] ∧
  rp_result <$> (default (Err BadRequest) (head wipe_again.1)) =
    Ok (JDict [("freed_bytes", JInt 1); ("n_objects", JInt 1); ("skipped", JList [])]%string).
Proof. split_and!; by vm_compute. Qed.

(** *** A restore that does not fit *)
Definition ask_snapshot (dest : string) := ask "snapshot" [("dest", JStr dest)]%string None.
Definition ask_restore (path : string) := ask "restore_snapshot" [("path", JStr path)]%string None.
Definition two_saved : Engine (T := Z) :=
  (run_job edge_hash None 0 (answers edge_handlers
     [ask_put "a" [x01]; ask_put "b" [x02]; ask_snapshot "dir"] (new_engine 8192 [])).2).2.
Definition refused := answers edge_handlers [ask_restore "dir"; ask_restore "dir"] (new_engine 4096 (en_disk two_saved)).

(** A restore refused for want of memory keeps what it had created before the
    failing allocation: the object [a], never written and never leased, stays,
    fills the store, and makes the same restore collide when it is tried again. *)
Theorem refused_restore_leaks :
  (∃ e r, refused.1 = [Err (Capacity e); Err (Collision "a")] ∧
   find_rec "a" (en_store refused.2) = Some r ∧ rec_lease_refs r = 0 ∧ rec_version r = 1) ∧
  en_restores refused.2 = [] ∧ en_jobs refused.2 = [] ∧
  free (allocator (en_store refused.2)) = [].
Proof. split_and!; [|by vm_compute..]. do 2 eexists. by vm_compute. Qed.
