(* ===== verification/CkRecord.v ===== *)
(** * Checkpoint records ([dataflow/checkpoint/record.py])

    A record maps byte ranges of engine snapshots into logical objects.  The
    digest of a field schema, a hash of its JSON text, is an argument. *)
From S2P Require Import Prelude SimSchema CoreProgram CoreJson.
From stdpp Require Import base tactics option list gmap strings sorting.
From Stdlib Require Import ZArith Lia Strings.Ascii.
Open Scope Z_scope.

(** [CheckpointError] by its message, with the data of the message, and the
    Python exceptions the functions let through. *)
Inductive CkError :=
| SchemaSkew
| UnknownLogical (lid : string)
| BadSnapshotIndex (lid : string) (snap : Z)
| LengthMismatch (lid : string)
| OutsideObject (lid : string)
| NoResident (lid : string) (snap : Z)
| OutsideResident (lid : string)
| Uncovered (lid : string) (gaps : list (Z * Z))
| PartialOverlap (lid : string) (lo hi : Z)
| Drift (lid : string) (span : Z * Z)
| DigestMismatch (lid : string)
| MidElement (lid : string) (offset : Z)
| OutsideFields (lid : string) (offset : Z)
| Incomplete
| SnapshotFailed (key : string)
| NoHash (key lid : string) (span : Z * Z)
| UnknownTarget (lid : string)
| BindingSize (lid : string)
| NoSnapshotOf (key : string)
| NoBytesOf (key lid : string)
| NoResidentSize (key target : string)
| KeyErr (k : string)
| IndexErr.

(** ** Data *)
Record RecSlice := mkRecSlice {
  cs_snapshot : Z;
  cs_snapshot_range : Z * Z;
  cs_object_range : Z * Z;
  cs_hash : option string;
}.
Record LogicalObject := mkLogical { lo_bytes : Z; lo_digest : option string }.
Record SourceSnapshot := mkSource { ss_path : string; ss_source : string; ss_objects : list (string * Z) }.
Record Field := mkField { fd_name : string; fd_offset : Z; fd_size : Z; fd_dtype : string }.

Definition RECORD_SCHEMA : string := "dataflow-checkpoint/v1".

Record CkRecord {T : Type} `{Num T} := mkCkRecord {
  cr_schema : string;
  cr_step : Z;
  cr_seed : Z;
  cr_created : T;
  cr_scheme : jdict (T := T);
  cr_logical : list (string * LogicalObject);
  cr_snapshots : list SourceSnapshot;
  cr_slices : list (string * list RecSlice);
  cr_engine_spec : jdict (T := T);
  cr_launch : jdict (T := T);
  cr_payload : jdict (T := T);
  cr_summary : jdict (T := T);
}.
Arguments CkRecord T {_}.

Definition dtype_bytes (d : string) : option Z :=
  assoc_get [("fp32", 4); ("bf16", 2); ("fp16", 2); ("fp8", 1);
             ("int32", 4); ("int64", 8); ("int8", 1); ("uint8", 1)]%string d.

(** Tuples in their lexicographic order. *)
Definition range_leb (a b : Z * Z) : bool := if a.1 =? b.1 then a.2 <=? b.2 else a.1 <? b.1.

(** [l[i]]. *)
Definition py_index {A} (l : list A) (i : Z) : option A :=
  let j := if i <? 0 then i + Z.of_nat (length l) else i in
  if j <? 0 then None else l !! Z.to_nat j.

(** [lid.rsplit("@", 1)[0]] if there is an at sign. *)
Fixpoint before_last_at (s : string) : option string :=
  match s with
  | EmptyString => None
  | String c s =>
      match before_last_at s with
      | Some p => Some (String c p)
      | None => if Ascii.eqb c "@"%char then Some EmptyString else None
      end
  end.
Definition bare_id (lid : string) : string := default lid (before_last_at lid).

(** ** The checks of one logical object *)
Definition check_entry_shape (lid : string) (total : Z) (snapshots : list SourceSnapshot) (e : RecSlice) :
    result CkError unit :=
  let snap := cs_snapshot e in
  let src := cs_snapshot_range e in
  let dst := cs_object_range e in
  raise_if (negb ((0 <=? snap) && (snap <? Z.of_nat (length snapshots)))) (BadSnapshotIndex lid snap) ;;
  raise_if (negb (dst.2 - dst.1 =? src.2 - src.1)) (LengthMismatch lid) ;;
  raise_if (negb ((0 <=? dst.1) && (dst.1 <? dst.2) && (dst.2 <=? total))) (OutsideObject lid) ;;
  match py_index snapshots snap ≫= λ s, assoc_get (ss_objects s) (bare_id lid) with
  | None => Err (NoResident lid snap)
  | Some resident =>
      raise_if (negb ((0 <=? src.1) && (src.1 <? src.2) && (src.2 <=? resident))) (OutsideResident lid)
  end.

Definition check_entry_shapes (lid : string) (total : Z) (entries : list RecSlice)
    (snapshots : list SourceSnapshot) : result CkError unit :=
  iterR (check_entry_shape lid total snapshots) entries.

(** The loop of [coverage_gaps] over the sorted spans. *)
Fixpoint gaps_from (total cursor : Z) (spans : list (Z * Z)) : list (Z * Z) :=
  match spans with
  | [] => if cursor <? total then [(cursor, total)] else []
  | (lo, hi) :: spans =>
      (if cursor <? lo then [(cursor, lo)] else []) ++ gaps_from total (Z.max cursor hi) spans
  end.
Definition coverage_gaps (total : Z) (entries : list RecSlice) : list (Z * Z) :=
  gaps_from total 0 (py_sorted range_leb (cs_object_range <$> entries)).

Definition nonempty_list {A} (l : list A) : bool := match l with [] => false | _ => true end.

Definition check_coverage (lid : string) (total : Z) (entries : list RecSlice) : result CkError unit :=
  let gaps := coverage_gaps total entries in
  raise_if (nonempty_list gaps) (Uncovered lid gaps).

(** [zip(bounds, bounds[1:])] of the sorted endpoints. *)
Definition endpoints (entries : list RecSlice) : list Z :=
  py_sorted Z.leb (remove_dups (entries ≫= λ e, [(cs_object_range e).1; (cs_object_range e).2])).
Definition elementary (entries : list RecSlice) : list (Z * Z) :=
  let bounds := endpoints entries in zip bounds (tail bounds).
Definition covers_interval (iv : Z * Z) (e : RecSlice) : bool :=
  ((cs_object_range e).1 <=? iv.1) && (iv.2 <=? (cs_object_range e).2).
Definition covering (entries : list RecSlice) (iv : Z * Z) : list RecSlice :=
  filter (λ e, covers_interval iv e = true) entries.

Definition check_interval (lid : string) (entries : list RecSlice) (iv : Z * Z) : result CkError unit :=
  match covering entries iv with
  | [] => Ok tt
  | first :: others =>
      iterR (λ other, raise_if (negb (bool_decide (cs_object_range other = cs_object_range first)))
                        (PartialOverlap lid iv.1 iv.2)) others
  end.
Definition check_overlap (lid : string) (entries : list RecSlice) : result CkError unit :=
  iterR (check_interval lid entries) (elementary entries).

(** [by_span]: the entries of each range, in their order. *)
Definition by_span (entries : list RecSlice) : list ((Z * Z) * list RecSlice) :=
  foldl (λ d e, let span := cs_object_range e in
                assoc_set d span (default [] (assoc_get d span) ++ [e])) [] entries.

Definition check_twins (lid : string) (p : (Z * Z) * list RecSlice) : result CkError unit :=
  match p.2 with
  | [] => Ok tt
  | first :: others =>
      iterR (λ other, raise_if (negb (bool_decide (cs_hash other = cs_hash first))) (Drift lid p.1)) others
  end.
Definition check_replica_hashes (lid : string) (entries : list RecSlice) : result CkError unit :=
  iterR (check_twins lid) (by_span entries).

Fixpoint check_element_boundary (lid : string) (offset : Z) (fields : list Field) : result CkError unit :=
  match fields with
  | [] => Err (OutsideFields lid offset)
  | f :: fields =>
      let lo := fd_offset f in
      let hi := lo + fd_size f in
      if (lo <=? offset) && (offset <=? hi) then
        match dtype_bytes (fd_dtype f) with
        | None => Err (KeyErr (fd_dtype f))
        | Some esize => raise_if (negb ((offset - lo) mod esize =? 0)) (MidElement lid offset)
        end
      else check_element_boundary lid offset fields
  end.
Definition check_alignment (lid : string) (entries : list RecSlice) (fields : list Field) :
    result CkError unit :=
  iterR (λ e, check_element_boundary lid (cs_object_range e).1 fields ;;
              check_element_boundary lid (cs_object_range e).2 fields) entries.

(** ** The record *)
Section Record.
Context {T : Type} `{Num T} (schema_digest : list Field → string).

Definition check_digest (lid : string) (spec : LogicalObject) (fields : list Field) : result CkError unit :=
  raise_if (negb (bool_decide (lo_digest spec = Some (schema_digest fields)))) (DigestMismatch lid).

Definition entries_of (r : CkRecord T) (lid : string) : list RecSlice := default [] (assoc_get (cr_slices r) lid).

Definition check_logical (r : CkRecord T) (field_schemas : list (string * list Field))
    (p : string * LogicalObject) : result CkError unit :=
  let '(lid, spec) := p in
  let total := lo_bytes spec in
  let entries := entries_of r lid in
  check_entry_shapes lid total entries (cr_snapshots r) ;;
  check_coverage lid total entries ;;
  check_overlap lid entries ;;
  check_replica_hashes lid entries ;;
  match assoc_get field_schemas lid with
  | None => Ok tt
  | Some fields => check_digest lid spec fields ;; check_alignment lid entries fields
  end.

Definition validate_record (r : CkRecord T) (field_schemas : list (string * list Field)) :
    result CkError unit :=
  raise_if (negb (String.eqb (cr_schema r) RECORD_SCHEMA)) SchemaSkew ;;
  iterR (λ p : string * list RecSlice,
    raise_if (negb (bool_decide (is_Some (assoc_get (cr_logical r) p.1)))) (UnknownLogical p.1)) (cr_slices r) ;;
  iterR (check_logical r field_schemas) (cr_logical r).
End Record.
