(* ===== verification/CkRecordOk.v ===== *)
(** * What a valid checkpoint record is

    The checks of a logical object against their meaning: slices in their
    places, every byte covered, overlaps only between equal copies. *)
From S2P Require Import Prelude SimSchema CoreProgram CoreJson CkRecord.
From stdpp Require Import base tactics option list gmap strings sorting.
From Stdlib Require Import ZArith Lia.
Open Scope Z_scope.

Definition inside (r : Z * Z) (x : Z) : Prop := r.1 ≤ x < r.2.
#[export] Instance inside_dec r x : Decision (inside r x).
Proof. unfold inside. apply _. Defined.

(** ** Orders *)
Lemma range_leb_total a b : range_leb a b = true ∨ range_leb b a = true.
Proof. unfold range_leb. destruct (Z.eqb_spec a.1 b.1), (Z.eqb_spec b.1 a.1); lia. Qed.
Lemma range_leb_trans a b c : range_leb a b = true → range_leb b c = true → range_leb a c = true.
Proof. unfold range_leb. destruct (Z.eqb_spec a.1 b.1), (Z.eqb_spec b.1 c.1), (Z.eqb_spec a.1 c.1); lia. Qed.
Lemma range_leb_fst a b : range_leb a b = true → a.1 ≤ b.1.
Proof. unfold range_leb. destruct (Z.eqb_spec a.1 b.1); lia. Qed.

Lemma StronglySorted_impl {A} (R R' : A → A → Prop) (l : list A) :
  (∀ a b, R a b → R' a b) → StronglySorted R l → StronglySorted R' l.
Proof.
  intros HR. induction 1 as [|x l Hl IH Hx]; constructor; [done|].
  eapply Forall_impl; [exact Hx|]. intros y. apply HR.
Qed.

(** The entries of a dict. *)
Lemma assoc_get_elem {K V} `{EqDecision K} (d : list (K * V)) k v : assoc_get d k = Some v → (k, v) ∈ d.
Proof. intros Hg. apply assoc_get_split in Hg as (d1 & d2 & -> & _). set_solver. Qed.
Lemma elem_assoc_get {K V} `{EqDecision K} (d : list (K * V)) k v :
  NoDup d.*1 → (k, v) ∈ d → assoc_get d k = Some v.
Proof.
  intros Hn Hin. induction d as [|[k' v'] d IH]; [by apply elem_of_nil in Hin|].
  rewrite fmap_cons in Hn. apply NoDup_cons in Hn as [Hni Hn]. cbn [assoc_get].
  apply elem_of_cons in Hin as [[= -> ->]|Hin]; [by rewrite decide_True|].
  rewrite decide_False; [by apply IH|]. intros ->. apply Hni, list_elem_of_fmap. by exists (k', v).
Qed.

(** Distinct numbers in order. *)
Lemma sorted_distinct (l : list Z) : NoDup l → StronglySorted Z.lt (py_sorted Z.leb l).
Proof.
  intros Hn. assert (NoDup (py_sorted Z.leb l)) as Hn' by by rewrite <-py_sorted_perm.
  assert (StronglySorted (λ a b, (a <=? b) = true) (py_sorted Z.leb l)) as Hs.
  { apply py_sorted_sorted; intros; lia. }
  induction Hs as [|x l' Hl IH Hx]; [constructor|]. apply NoDup_cons in Hn' as [Hni Hn'].
  constructor; [by apply IH|]. apply Forall_forall. intros y Hy. rewrite Forall_forall in Hx.
  specialize (Hx y Hy). assert (x ≠ y) by by intros ->. lia.
Qed.

(** ** Consecutive pairs *)
Section consecutive.
Implicit Types (l : list Z) (iv : Z * Z).

Lemma consecutive_bounds l iv : StronglySorted Z.lt l → iv ∈ zip l (tail l) →
  iv.1 < iv.2 ∧ iv.1 ∈ l ∧ iv.2 ∈ l ∧ ∀ b, b ∈ l → b ≤ iv.1 ∨ iv.2 ≤ b.
Proof.
  induction 1 as [|x l Hl IH Hx]; [by intros ?%elem_of_nil|]. destruct l as [|y l]; [by intros ?%elem_of_nil|].
  rewrite Forall_forall in Hx. cbn [tail zip zip_with]. intros [->|Hin]%elem_of_cons.
  - simpl. pose proof (Hx y (list_elem_of_here _ _)). split_and!; [done|set_solver..|].
    intros b [->|[->|Hb]%elem_of_cons]%elem_of_cons; [lia|lia|]. inversion Hl as [|? ? _ Hy]; subst.
    rewrite Forall_forall in Hy. specialize (Hy b Hb). lia.
  - destruct (IH Hin) as (H1 & H2 & H3 & H4). split_and!; [done|set_solver..|].
    intros b [->|Hb]%elem_of_cons; [|by apply H4]. left. specialize (Hx _ H2). lia.
Qed.

Lemma consecutive_inside l a b x : StronglySorted Z.lt l → a ∈ l → b ∈ l → a ≤ x < b →
  ∃ iv, iv ∈ zip l (tail l) ∧ inside iv x.
Proof.
  intros Hs. revert a. induction Hs as [|y l Hl IH Hy]; intros a Ha Hb Hx; [by apply elem_of_nil in Ha|].
  rewrite Forall_forall in Hy. destruct l as [|z l].
  { apply list_elem_of_singleton in Ha as ->. apply list_elem_of_singleton in Hb as ->. lia. }
  apply elem_of_cons in Hb as [->|Hb].
  { apply elem_of_cons in Ha as [->|Ha]; [lia|]. specialize (Hy a Ha). lia. }
  cbn [tail zip zip_with]. destruct (decide (x < z)) as [Hz|Hz].
  - exists (y, z). split; [apply list_elem_of_here|]. unfold inside. simpl.
    apply elem_of_cons in Ha as [->|Ha]; [lia|]. specialize (Hy a Ha). lia.
  - destruct (IH z (list_elem_of_here _ _) Hb) as (iv & Hin & Hi); [lia|].
    exists iv. split; [by apply list_elem_of_further|done].
Qed.

Lemma consecutive_apart l : StronglySorted Z.lt l → StronglySorted (λ a b, a.2 ≤ b.1) (zip l (tail l)).
Proof.
  induction 1 as [|x l Hl IH Hx]; [constructor|]. destruct l as [|y l]; [constructor|].
  cbn [tail zip zip_with]. constructor; [exact IH|]. apply Forall_forall. intros iv Hiv. simpl.
  destruct (consecutive_bounds _ _ Hl Hiv) as (_ & Hin & _). inversion Hl as [|? ? _ Hy]; subst.
  apply elem_of_cons in Hin as [->|Hin]; [lia|]. rewrite Forall_forall in Hy. specialize (Hy _ Hin). lia.
Qed.
End consecutive.

(** ** Coverage *)
Definition covered (es : list RecSlice) (x : Z) : Prop := ∃ e, e ∈ es ∧ inside (cs_object_range e) x.

Lemma gaps_from_spec total spans : ∀ c,
  StronglySorted (λ a b, a.1 ≤ b.1) spans → Forall (λ sp, sp.1 < sp.2 ∧ sp.2 ≤ total) spans →
  Forall (λ g, g.1 < g.2) (gaps_from total c spans) ∧
  ∀ x, (∃ g, g ∈ gaps_from total c spans ∧ inside g x) ↔ c ≤ x < total ∧ ∀ sp, sp ∈ spans → ¬ inside sp x.
Proof.
  unfold inside. induction spans as [|[lo hi] spans IH]; intros c Hs Hb; cbn [gaps_from].
  - destruct (Z.ltb_spec c total) as [Hc|Hc]; split; try by repeat constructor.
    + intros x. split.
      * intros (g & ->%list_elem_of_singleton & Hg). split; [done|by intros ? ?%elem_of_nil].
      * intros [Hx _]. exists (c, total). split; [apply list_elem_of_here|done].
    + intros x. split; [by intros (? & ?%elem_of_nil & _)|]. intros [Hx _]. lia.
  - inversion Hs as [|? ? Hs' Hlo]; subst. apply Forall_cons in Hb as [[Hb1 Hb2] Hb]. simpl in Hb1, Hb2.
    destruct (IH (Z.max c hi) Hs' Hb) as [H1 H2]. split.
    { apply Forall_app. split; [|done]. destruct (Z.ltb_spec c lo); by repeat constructor. }
    intros x. transitivity ((c < lo ∧ c ≤ x < lo) ∨ ∃ g, g ∈ gaps_from total (Z.max c hi) spans ∧ g.1 ≤ x < g.2).
    { split.
      - intros (g & [Hg|Hg]%elem_of_app & Hx); [left|right; eauto].
        destruct (Z.ltb_spec c lo); [|by apply elem_of_nil in Hg]. apply list_elem_of_singleton in Hg as ->. done.
      - intros [[Hc Hx]|(g & Hg & Hx)]; [|exists g; split; [apply elem_of_app; by right|done]].
        exists (c, lo). rewrite (proj2 (Z.ltb_lt _ _)) by done. split; [apply elem_of_app; left; apply list_elem_of_here|done]. }
    rewrite H2. rewrite Forall_forall in Hlo. split.
    + intros [[Hc Hx]|[Hx Hn]].
      * split; [lia|]. intros sp [->|Hsp]%elem_of_cons; simpl; [lia|]. specialize (Hlo sp Hsp). simpl in Hlo. lia.
      * split; [lia|]. intros sp [->|Hsp]%elem_of_cons; simpl; [lia|by apply Hn].
    + intros [Hx Hn]. pose proof (Hn (lo, hi) (list_elem_of_here _ _)) as H0. simpl in H0.
      destruct (decide (x < lo)); [left; lia|right]. split; [lia|]. intros sp Hsp. apply Hn. by apply list_elem_of_further.
Qed.

(** The places of the slices are proper ranges of the object. *)
Definition ranged (total : Z) (es : list RecSlice) : Prop :=
  ∀ e, e ∈ es → 0 ≤ (cs_object_range e).1 < (cs_object_range e).2 ∧ (cs_object_range e).2 ≤ total.

Lemma coverage_gaps_exact total es : ranged total es →
  Forall (λ g, g.1 < g.2) (coverage_gaps total es) ∧
  ∀ x, (∃ g, g ∈ coverage_gaps total es ∧ inside g x) ↔ 0 ≤ x < total ∧ ¬ covered es x.
Proof.
  intros Hr. unfold coverage_gaps. set (spans := py_sorted range_leb (cs_object_range <$> es)).
  assert (∀ sp, sp ∈ spans ↔ ∃ e, e ∈ es ∧ sp = cs_object_range e) as Hin.
  { intros sp. unfold spans. rewrite elem_of_py_sorted, list_elem_of_fmap. naive_solver. }
  destruct (gaps_from_spec total spans 0) as [H1 H2].
  - eapply StronglySorted_impl; [|apply py_sorted_sorted; [exact range_leb_total|exact range_leb_trans]].
    intros a b. apply range_leb_fst.
  - apply Forall_forall. intros sp (e & He & ->)%Hin. destruct (Hr e He). lia.
  - split; [done|]. intros x. rewrite H2. unfold covered. split; intros [Hx Hn]; (split; [done|]).
    + intros (e & He & Hi). apply (Hn (cs_object_range e)); [|done]. apply Hin. eauto.
    + intros sp (e & He & ->)%Hin Hi. apply Hn. eauto.
Qed.

#[export] Instance covered_dec es x : Decision (covered es x).
Proof.
  unfold covered. destruct (decide (Exists (λ e, inside (cs_object_range e) x) es)) as [He|He].
  - left. by apply Exists_exists in He.
  - right. intros Hc. by apply He, Exists_exists.
Defined.

Lemma coverage_ok total es : ranged total es →
  coverage_gaps total es = [] ↔ ∀ x, 0 ≤ x < total → covered es x.
Proof.
  intros Hr. destruct (coverage_gaps_exact total es Hr) as [H1 H2]. split.
  - intros Hg x Hx. destruct (decide (covered es x)) as [?|Hn]; [done|].
    destruct (proj2 (H2 x) (conj Hx Hn)) as (g & Hin & _). rewrite Hg in Hin. by apply elem_of_nil in Hin.
  - intros Hc. destruct (coverage_gaps total es) as [|g gs]; [done|]. apply Forall_cons in H1 as [Hg _].
    destruct (proj1 (H2 g.1)) as [Hx Hn]; [exists g; split; [apply list_elem_of_here|unfold inside; lia]|].
    by destruct (Hn (Hc _ Hx)).
Qed.

(** ** Elementary intervals *)
Section elementary.
Implicit Types (es : list RecSlice) (e : RecSlice) (iv : Z * Z).

Lemma endpoints_sorted es : StronglySorted Z.lt (endpoints es).
Proof. apply sorted_distinct, NoDup_remove_dups. Qed.

Lemma elem_of_endpoints es b : b ∈ endpoints es ↔ ∃ e, e ∈ es ∧ (b = (cs_object_range e).1 ∨ b = (cs_object_range e).2).
Proof.
  unfold endpoints. rewrite elem_of_py_sorted, elem_of_remove_dups, list_elem_of_bind.
  setoid_rewrite elem_of_cons. setoid_rewrite list_elem_of_singleton. naive_solver.
Qed.

Lemma elem_of_covering es iv e : e ∈ covering es iv ↔ e ∈ es ∧ covers_interval iv e = true.
Proof. unfold covering. rewrite list_elem_of_filter. naive_solver. Qed.

Lemma elementary_proper es iv : iv ∈ elementary es → iv.1 < iv.2.
Proof. intros Hiv. by destruct (consecutive_bounds _ _ (endpoints_sorted es) Hiv). Qed.

(** All bytes of an elementary interval are covered by the same slices. *)
Lemma covering_inside es iv x e : iv ∈ elementary es → inside iv x → e ∈ es →
  e ∈ covering es iv ↔ inside (cs_object_range e) x.
Proof.
  intros Hiv Hx He. rewrite elem_of_covering. unfold covers_interval, inside in *.
  destruct (consecutive_bounds _ _ (endpoints_sorted es) Hiv) as (_ & _ & _ & Hb).
  destruct (Hb (cs_object_range e).1) as [?|?]; [apply elem_of_endpoints; eauto|..];
    destruct (Hb (cs_object_range e).2) as [?|?]; try (apply elem_of_endpoints; eauto); split; intros; lia || (split; [done|lia]).
Qed.

Lemma elementary_of es e x : e ∈ es → inside (cs_object_range e) x → ∃ iv, iv ∈ elementary es ∧ inside iv x.
Proof.
  intros He Hx. apply (consecutive_inside _ (cs_object_range e).1 (cs_object_range e).2);
    [apply endpoints_sorted|apply elem_of_endpoints; eauto..|exact Hx].
Qed.

Lemma elementary_apart es : StronglySorted (λ a b, a.2 ≤ b.1) (elementary es).
Proof. apply consecutive_apart, endpoints_sorted. Qed.

(** *** Overlaps *)
Definition no_partial_overlap es : Prop :=
  ∀ e1 e2 x, e1 ∈ es → e2 ∈ es → inside (cs_object_range e1) x → inside (cs_object_range e2) x →
    cs_object_range e1 = cs_object_range e2.

Lemma check_overlap_ok lid es u : check_overlap lid es = Ok u ↔ no_partial_overlap es.
Proof.
  unfold check_overlap. rewrite iterR_ok, Forall_forall. split.
  - intros Hall. assert (∀ iv e1 e2, iv ∈ elementary es → e1 ∈ covering es iv → e2 ∈ covering es iv →
      cs_object_range e1 = cs_object_range e2) as Hiv.
    { intros iv e1 e2 Hiv H1 H2. specialize (Hall iv Hiv). unfold check_interval in Hall.
      destruct (covering es iv) as [|f os]; [by apply elem_of_nil in H1|]. apply iterR_ok in Hall.
      assert (∀ e, e ∈ f :: os → cs_object_range e = cs_object_range f) as Hf.
      { intros e [->|He]%elem_of_cons; [done|]. rewrite Forall_forall in Hall. specialize (Hall e He).
        apply raise_if_ok, negb_false_iff, bool_decide_eq_true in Hall. done. }
      by rewrite (Hf e1), (Hf e2). }
    intros e1 e2 x H1 H2 Hx1 Hx2. destruct (elementary_of es e1 x H1 Hx1) as (iv & Hin & Hx).
    apply (Hiv iv); [done|by apply (covering_inside es iv x)..].
  - intros Hn iv Hin. pose proof (elementary_proper _ _ Hin) as Hlt. unfold check_interval.
    assert (∀ e, e ∈ covering es iv → e ∈ es ∧ inside (cs_object_range e) iv.1) as Hc.
    { intros e He. assert (e ∈ es) as Hes by by apply elem_of_covering in He as [? _]. split; [done|].
      apply (covering_inside es iv); [done|unfold inside; lia|done..]. }
    destruct (covering es iv) as [|f os]; [done|]. apply iterR_ok, Forall_forall. intros e He.
    apply raise_if_ok, negb_false_iff, bool_decide_eq_true.
    destruct (Hc f (list_elem_of_here _ _)) as [Hf1 Hf2]. destruct (Hc e) as [He1 He2]; [by apply list_elem_of_further|].
    by apply (Hn e f iv.1).
Qed.

(** *** Replicas *)
Definition equal_replicas es : Prop :=
  ∀ e1 e2, e1 ∈ es → e2 ∈ es → cs_object_range e1 = cs_object_range e2 → cs_hash e1 = cs_hash e2.

Lemma by_span_spec es :
  NoDup (by_span es).*1 ∧
  ∀ span, default [] (assoc_get (by_span es) span) = filter (λ e, cs_object_range e = span) es.
Proof.
  unfold by_span. induction es as [|e es IH] using rev_ind; [by split; [constructor|]|].
  rewrite foldl_app. cbn [foldl]. destruct IH as [Hn IH]. split; [by apply assoc_set_keys|].
  intros span. rewrite filter_app. destruct (decide (cs_object_range e = span)) as [<-|Hne].
  - by rewrite assoc_get_set, filter_cons_True, filter_nil, <-IH by done.
  - by rewrite assoc_get_set_ne, filter_cons_False, filter_nil, app_nil_r, IH by done.
Qed.

Lemma by_span_twins es sp tw : (sp, tw) ∈ by_span es → tw = filter (λ e, cs_object_range e = sp) es.
Proof. intros Hp. destruct (by_span_spec es) as [Hn Hs]. by rewrite <-Hs, (elem_assoc_get _ _ tw). Qed.

Lemma check_replicas_ok lid es u : check_replica_hashes lid es = Ok u ↔ equal_replicas es.
Proof.
  unfold check_replica_hashes. rewrite iterR_ok, Forall_forall. split.
  - intros Hall e1 e2 H1 H2 Hr. destruct (by_span_spec es) as [_ Hs]. specialize (Hs (cs_object_range e2)).
    destruct (assoc_get (by_span es) (cs_object_range e2)) as [tw|] eqn:Hg; simpl in Hs.
    + specialize (Hall _ (assoc_get_elem _ _ _ Hg)). unfold check_twins in Hall. simpl in Hall.
      assert (∀ e, e ∈ es → cs_object_range e = cs_object_range e2 → e ∈ tw) as Hin.
      { intros e He Hre. rewrite Hs. by apply list_elem_of_filter. }
      destruct tw as [|f os]; [by pose proof (Hin e2 H2 eq_refl) as ?%elem_of_nil|]. apply iterR_ok in Hall.
      assert (∀ e, e ∈ f :: os → cs_hash e = cs_hash f) as Hf.
      { intros e [->|He]%elem_of_cons; [done|]. rewrite Forall_forall in Hall. specialize (Hall e He).
        apply raise_if_ok, negb_false_iff, bool_decide_eq_true in Hall. done. }
      by rewrite (Hf e1), (Hf e2) by auto.
    + assert (e2 ∈ filter (λ e, cs_object_range e = cs_object_range e2) es) as Hin by by apply list_elem_of_filter.
      rewrite <-Hs in Hin. by apply elem_of_nil in Hin.
  - intros Heq [sp tw] Hp. apply by_span_twins in Hp. unfold check_twins. simpl.
    assert (∀ e, e ∈ tw → e ∈ es ∧ cs_object_range e = sp) as Htw.
    { intros e He. rewrite Hp in He. by apply list_elem_of_filter in He as [? ?]. }
    destruct tw as [|f os]; [done|]. apply iterR_ok, Forall_forall. intros e He.
    apply raise_if_ok, negb_false_iff, bool_decide_eq_true.
    destruct (Htw f (list_elem_of_here _ _)) as [Hf1 Hf2]. destruct (Htw e) as [He1 He2]; [by apply list_elem_of_further|].
    apply Heq; [done..|congruence].
Qed.
End elementary.

(** ** Element boundaries *)
Definition in_field (f : Field) (off : Z) : Prop := fd_offset f ≤ off ≤ fd_offset f + fd_size f.

(** The first field that contains [off] has an element that begins there. *)
Definition on_boundary (fields : list Field) (off : Z) : Prop :=
  ∃ before f after esize, fields = before ++ f :: after ∧ Forall (λ g, ¬ in_field g off) before ∧
    in_field f off ∧ dtype_bytes (fd_dtype f) = Some esize ∧ (off - fd_offset f) mod esize = 0.

Lemma check_boundary_ok lid off fields u :
  check_element_boundary lid off fields = Ok u ↔ on_boundary fields off.
Proof.
  induction fields as [|f fields IH]; cbn [check_element_boundary].
  { split; [done|]. by intros ([|? ?] & ? & ? & ? & ? & _). }
  destruct (decide (in_field f off)) as [Hf|Hf].
  - rewrite (proj2 (Z.leb_le _ _)), (proj2 (Z.leb_le _ _)) by (unfold in_field in Hf; lia). cbn [andb].
    assert (∀ b g a, f :: fields = b ++ g :: a → Forall (λ g, ¬ in_field g off) b → b = [] ∧ g = f) as Hfirst.
    { intros [|? b] g a; [by intros [= -> _]|]. intros [= -> _] Hb. by apply Forall_cons in Hb as [? _]. }
    destruct (dtype_bytes (fd_dtype f)) as [esize|] eqn:Hd.
    + rewrite raise_if_ok, negb_false_iff, Z.eqb_eq. split.
      * intros Hm. exists [], f, fields, esize. split_and!; try done.
      * intros (b & g & a & n & Heq & Hb & _ & Hdn & Hm). destruct (Hfirst _ _ _ Heq Hb) as [_ ->]. congruence.
    + split; [done|]. intros (b & g & a & n & Heq & Hb & _ & Hdn & _). destruct (Hfirst _ _ _ Heq Hb) as [_ ->]. congruence.
  - replace (_ && _) with false by (unfold in_field in Hf; destruct (Z.leb_spec (fd_offset f) off), (Z.leb_spec off (fd_offset f + fd_size f)); try done; lia).
    rewrite IH. unfold on_boundary. split.
    + intros (b & g & a & n & -> & Hb & Hrest). exists (f :: b), g, a, n. split; [done|]. split; [by constructor|done].
    + intros ([|? b] & g & a & n & Heq & Hb & Hrest); [injection Heq as -> _; by destruct Hrest|].
      injection Heq as -> ->. apply Forall_cons in Hb as [_ Hb]. by exists b, g, a, n.
Qed.

(** ** The whole record *)
Section certified.
Context {T : Type} `{Num T} (schema_digest : list Field → string).
Implicit Types (r : CkRecord T) (lid : string) (e : RecSlice).

(** Where a slice comes from and where it belongs. *)
Record SliceOk r lid (total : Z) e : Prop := {
  so_snapshot : 0 ≤ cs_snapshot e < Z.of_nat (length (cr_snapshots r));
  so_length : (cs_object_range e).2 - (cs_object_range e).1 = (cs_snapshot_range e).2 - (cs_snapshot_range e).1;
  so_range : 0 ≤ (cs_object_range e).1 < (cs_object_range e).2 ∧ (cs_object_range e).2 ≤ total;
  so_resident : ∃ s n, py_index (cr_snapshots r) (cs_snapshot e) = Some s ∧
    assoc_get (ss_objects s) (bare_id lid) = Some n ∧
    0 ≤ (cs_snapshot_range e).1 < (cs_snapshot_range e).2 ∧ (cs_snapshot_range e).2 ≤ n;
}.

Record ObjectOk r lid (total : Z) : Prop := {
  oo_slices : ∀ e, e ∈ entries_of r lid → SliceOk r lid total e;
  oo_covered : ∀ x, 0 ≤ x < total → covered (entries_of r lid) x;
  oo_overlap : no_partial_overlap (entries_of r lid);
  oo_replicas : equal_replicas (entries_of r lid);
}.

Record Certified r (field_schemas : list (string * list Field)) : Prop := {
  ce_schema : cr_schema r = RECORD_SCHEMA;
  ce_known : ∀ lid, lid ∈ (cr_slices r).*1 → lid ∈ (cr_logical r).*1;
  ce_objects : ∀ lid spec, (lid, spec) ∈ cr_logical r → ObjectOk r lid (lo_bytes spec);
  ce_fields : ∀ lid spec fields, (lid, spec) ∈ cr_logical r → assoc_get field_schemas lid = Some fields →
    lo_digest spec = Some (schema_digest fields) ∧
    ∀ e, e ∈ entries_of r lid →
      on_boundary fields (cs_object_range e).1 ∧ on_boundary fields (cs_object_range e).2;
}.

Lemma check_shape_ok r lid total e u :
  check_entry_shape lid total (cr_snapshots r) e = Ok u ↔ SliceOk r lid total e.
Proof.
  unfold check_entry_shape. cbv zeta. rewrite !result_bind_ok. setoid_rewrite result_bind_ok. setoid_rewrite result_bind_ok.
  setoid_rewrite raise_if_ok. setoid_rewrite negb_false_iff. split.
  - intros ([] & H1 & [] & H2 & [] & H3 & H4).
    destruct (py_index _ _ ≫= _) as [n|] eqn:Hn; [|done]. apply raise_if_ok, negb_false_iff in H4.
    destruct (py_index (cr_snapshots r) (cs_snapshot e)) as [s|] eqn:Hs; [|done]. simpl in Hn.
    split; [lia..|]. exists s, n. split_and!; [done|done|lia..].
  - intros [H1 H2 H3 (s & n & Hs & Hn & H4)].
    exists tt. split; [lia|]. exists tt. split; [lia|]. exists tt. split; [lia|].
    rewrite Hs. simpl. rewrite Hn. apply raise_if_ok, negb_false_iff. lia.
Qed.

Lemma check_shapes_ok r lid total u :
  check_entry_shapes lid total (entries_of r lid) (cr_snapshots r) = Ok u ↔
  ∀ e, e ∈ entries_of r lid → SliceOk r lid total e.
Proof. unfold check_entry_shapes. rewrite iterR_ok, Forall_forall. by setoid_rewrite check_shape_ok. Qed.

Lemma slices_ranged r lid total : (∀ e, e ∈ entries_of r lid → SliceOk r lid total e) → ranged total (entries_of r lid).
Proof. intros Hs e He. by destruct (Hs e He). Qed.

Lemma check_coverage_ok r lid total u : ranged total (entries_of r lid) →
  check_coverage lid total (entries_of r lid) = Ok u ↔ ∀ x, 0 ≤ x < total → covered (entries_of r lid) x.
Proof.
  intros Hr. unfold check_coverage. rewrite raise_if_ok, <-(coverage_ok _ _ Hr).
  by destruct (coverage_gaps total (entries_of r lid)).
Qed.

Lemma check_logical_ok r fs lid spec u :
  check_logical schema_digest r fs (lid, spec) = Ok u ↔
  ObjectOk r lid (lo_bytes spec) ∧
  ∀ fields, assoc_get fs lid = Some fields → lo_digest spec = Some (schema_digest fields) ∧
    ∀ e, e ∈ entries_of r lid → on_boundary fields (cs_object_range e).1 ∧ on_boundary fields (cs_object_range e).2.
Proof.
  unfold check_logical. cbv zeta. rewrite result_bind_ok.
  setoid_rewrite result_bind_ok. setoid_rewrite result_bind_ok. setoid_rewrite result_bind_ok.
  setoid_rewrite check_shapes_ok. setoid_rewrite check_overlap_ok. setoid_rewrite check_replicas_ok.
  assert (∀ fields u, (check_digest schema_digest lid spec fields ;; check_alignment lid (entries_of r lid) fields) = Ok u ↔
    lo_digest spec = Some (schema_digest fields) ∧
    ∀ e, e ∈ entries_of r lid → on_boundary fields (cs_object_range e).1 ∧ on_boundary fields (cs_object_range e).2) as Hfs.
  { intros fields u'. rewrite result_bind_ok. unfold check_digest, check_alignment. setoid_rewrite raise_if_ok.
    setoid_rewrite negb_false_iff. setoid_rewrite bool_decide_eq_true. setoid_rewrite iterR_ok.
    setoid_rewrite Forall_forall. setoid_rewrite result_bind_ok. setoid_rewrite check_boundary_ok. naive_solver. }
  split.
  - intros ([] & H1 & [] & H2 & [] & H3 & [] & H4 & H5). pose proof (proj1 (check_coverage_ok r lid (lo_bytes spec) tt (slices_ranged _ _ _ H1)) H2) as H2'.
    split; [done|]. intros fields Hf. rewrite Hf in H5. by apply Hfs in H5.
  - intros [[H1 H2 H3 H4] H5]. exists tt. split; [done|]. exists tt.
    split; [by apply (check_coverage_ok _ _ _ _ (slices_ranged _ _ _ H1))|]. exists tt. split; [done|]. exists tt. split; [done|].
    destruct (assoc_get fs lid) as [fields|]; [|by destruct u]. apply Hfs. by apply H5.
Qed.

Lemma validate_iff r fs : validate_record schema_digest r fs = Ok tt ↔ Certified r fs.
Proof.
  unfold validate_record. rewrite result_bind_ok. setoid_rewrite result_bind_ok. setoid_rewrite iterR_ok.
  setoid_rewrite raise_if_ok. setoid_rewrite negb_false_iff. setoid_rewrite String.eqb_eq. setoid_rewrite Forall_forall.
  setoid_rewrite bool_decide_eq_true. split.
  - intros ([] & H1 & [] & H2 & H3). split; [done| |by intros lid spec [? _]%H3%check_logical_ok|].
    + intros lid ([lid' es] & -> & Hin)%list_elem_of_fmap. apply H2 in Hin as [v Hv]. simpl in *.
      apply assoc_get_elem in Hv. apply list_elem_of_fmap. by exists (lid', v).
    + intros lid spec fields [_ Hf]%H3%check_logical_ok. by apply Hf.
  - intros [H1 H2 H3 H4]. exists tt. split; [done|]. exists tt. split.
    + intros [lid es] Hin. simpl. destruct (assoc_get (cr_logical r) lid) eqn:Hg; [by eexists|].
      apply assoc_get_none in Hg. destruct Hg. apply H2, list_elem_of_fmap. by exists (lid, es).
    + intros [lid spec] Hin. apply check_logical_ok. split; [by apply H3|]. intros fields. by apply H4.
Qed.
End certified.
