(* ===== verification/CkTargets.v ===== *)
(** * Fetch plans of a checkpoint ([dataflow/checkpoint/targets.py])

    A record and a set of targets become one restore call per snapshot, in the
    engine's remap shape.  The step's dicts are records, and a target set is one of
    the shapes the code tells apart. *)
From S2P Require Import Prelude SimSchema CoreProgram CoreJson SvcSnapshot CkRecord.
From stdpp Require Import base tactics option list gmap strings pretty.
From Stdlib Require Import ZArith Lia.
Open Scope Z_scope.

Section Targets.
Context {T : Type} `{Num T}.
Implicit Types (record : CkRecord T).

(** A list of ids, or a program by the objects it starts with. *)
Inductive Want :=
| WantIds (ids : list string)
| WantProgram (initial_objects : list ObjectSpec).

Inductive Targets :=
| TargetAll
| TargetKeyed (l : list (string * Want))
| TargetPlain (w : Want).

Record Step := mkStep { st_snapshot : Z; st_path : string; st_remap : Remap }.

Definition persisted_objects (initial_objects : list ObjectSpec) : list ObjectSpec :=
  filter (λ s, os_persistent s = true) initial_objects.

(** [f"{a}@{b}"]. *)
Definition qualified (a b : string) : string := a +:+ "@" +:+ b.

(** ** Sizes *)
Fixpoint first_view (snapshots : list SourceSnapshot) (key lid : string) : Z :=
  match snapshots with
  | [] => 0
  | s :: snapshots =>
      if String.eqb (ss_source s) key then
        match assoc_get (ss_objects s) lid with
        | Some n => n
        | None => first_view snapshots key lid
        end
      else first_view snapshots key lid
  end.
Definition source_view_bytes record (key lid : string) : Z := first_view (cr_snapshots record) key lid.

Definition source_resident_bytes record (key : string) : result CkError Z :=
  let own := filter (λ s, ss_source s = key) (cr_snapshots record) in
  raise_if (negb (nonempty_list own)) (NoSnapshotOf key) ;;
  Ok (sumZ ((λ s, sumZ (ss_objects s).*2) <$> own)).

(** ** Targets to ids *)
Definition known_target record (key : option string) (id : string) : bool :=
  bool_decide (is_Some (assoc_get (cr_logical record) id)) ||
  match key with
  | Some k => bool_decide (is_Some (assoc_get (cr_logical record) (qualified id k)))
  | None => false
  end.

Definition target_id record (key : option string) (spec : ObjectSpec) : result CkError string :=
  raise_if (negb (known_target record key (os_id spec))) (UnknownTarget (os_id spec)) ;;
  expect ← match key with
           | None => match assoc_get (cr_logical record) (os_id spec) with
                     | Some l => Ok (lo_bytes l)
                     | None => Err (KeyErr (os_id spec))
                     end
           | Some k => Ok (source_view_bytes record k (os_id spec))
           end;
  raise_if (negb (os_size_bytes spec =? expect)) (BindingSize (os_id spec)) ;;
  Ok (os_id spec).

Fixpoint mapR {A B} (f : A → result CkError B) (l : list A) : result CkError (list B) :=
  match l with
  | [] => Ok []
  | x :: l => y ← f x; ys ← mapR f l; Ok (y :: ys)
  end.

Definition target_ids record (want : Want) (key : option string) : result CkError (list string) :=
  match want with
  | WantIds ids => Ok ids
  | WantProgram objs => mapR (target_id record key) (persisted_objects objs)
  end.

(** ** One source for every byte *)

(** [min(l, key=snapshot_index)]: the first of the least. *)
Fixpoint min_snapshot (best : RecSlice) (l : list RecSlice) : RecSlice :=
  match l with
  | [] => best
  | e :: l => min_snapshot (if cs_snapshot e <? cs_snapshot best then e else best) l
  end.

Definition chosen_for (entries : list RecSlice) (iv : Z * Z) : option ((Z * Z) * RecSlice) :=
  match covering entries iv with
  | [] => None
  | e :: l => Some (iv, min_snapshot e l)
  end.
Definition choose_sources (entries : list RecSlice) : list ((Z * Z) * RecSlice) :=
  omap (chosen_for entries) (elementary entries).

(** A window of a logical object in a snapshot. *)
Definition TargetPiece : Type := Z * string * Window.

Definition logical_pieces record (lid : string) : result CkError (list TargetPiece) :=
  match assoc_get (cr_logical record) lid with
  | None => Err (UnknownTarget lid)
  | Some spec =>
      let total := lo_bytes spec in
      let entries := entries_of record lid in
      let gaps := coverage_gaps total entries in
      raise_if (nonempty_list gaps) (Uncovered lid gaps) ;;
      Ok ((λ p, (cs_snapshot p.2, lid, mkWindow p.1 lid p.1 total)) <$> choose_sources entries)
  end.

(** ** Steps *)
Definition windows_abut (a b : Window) : bool :=
  ((wi_logical b).1 =? (wi_logical a).2) && ((wi_local b).1 =? (wi_local a).2) &&
  (wi_bytes b =? wi_bytes a) && String.eqb (wi_id b) (wi_id a).
Definition join_windows (a b : Window) : Window :=
  mkWindow ((wi_logical a).1, (wi_logical b).2) (wi_id a) ((wi_local a).1, (wi_local b).2) (wi_bytes a).
(** The loop of [coalesce_windows], with [out[-1]]. *)
Fixpoint coalesce_from (last : Window) (ws : list Window) : list Window :=
  match ws with
  | [] => [last]
  | w :: ws => if windows_abut last w then coalesce_from (join_windows last w) ws
               else last :: coalesce_from w ws
  end.
Definition coalesce_windows (ws : list Window) : result CkError (list Window) :=
  match ws with [] => Err IndexErr | w :: ws => Ok (coalesce_from w ws) end.

Definition window_leb (a b : Window) : bool := range_leb (wi_logical a) (wi_logical b).

(** [d.setdefault(k, []).append(v)]. *)
Definition push {K V} `{EqDecision K} (d : list (K * list V)) (k : K) (v : V) : list (K * list V) :=
  assoc_set d k (default [] (assoc_get d k) ++ [v]).

(** [by_snapshot]. *)
Definition by_snapshot (pieces : list TargetPiece) : list (Z * list (string * list Window)) :=
  foldl (λ d p, let '(snap, lid, w) := p in assoc_set d snap (push (default [] (assoc_get d snap)) lid w)) [] pieces.

Definition remap_windows_of (p : string * list Window) : result CkError (string * list Window) :=
  ws ← coalesce_windows (py_sorted window_leb p.2); Ok (p.1, ws).

Definition step_of record (d : list (Z * list (string * list Window))) (snap : Z) : result CkError Step :=
  remap ← mapR remap_windows_of (default [] (assoc_get d snap));
  match py_index (cr_snapshots record) snap with
  | None => Err IndexErr
  | Some s => Ok (mkStep snap (ss_path s) remap)
  end.

Definition merge_steps record (pieces : list TargetPiece) : result CkError (list Step) :=
  let d := by_snapshot pieces in
  mapR (step_of record d) (py_sorted Z.leb d.*1).

Definition logical_plan record (ids : list string) : result CkError (list Step) :=
  pieces ← mapR (logical_pieces record) ids;
  merge_steps record (concat pieces).

(** ** The rank view *)
Definition own_snapshots record (key : string) : list Z :=
  (λ p, Z.of_nat p.1) <$> filter (λ p, ss_source p.2 = key) (imap pair (cr_snapshots record)).

Definition entry_leb (a b : RecSlice) : bool := range_leb (cs_object_range a) (cs_object_range b).

(** The logical object behind a target of source [key]. *)
Definition resolve_lid record (key target : string) : string :=
  if bool_decide (is_Some (assoc_get (cr_logical record) target)) then target
  else if bool_decide (is_Some (assoc_get (cr_logical record) (qualified target key))) then qualified target key
  else target.

Definition keyed_piece record (key target lid : string) (e : RecSlice) : result CkError TargetPiece :=
  match py_index (cr_snapshots record) (cs_snapshot e) with
  | None => Err IndexErr
  | Some s =>
      match assoc_get (ss_objects s) target with
      | None => Err (NoResidentSize key target)
      | Some n => Ok (cs_snapshot e, lid, mkWindow (cs_object_range e) target (cs_snapshot_range e) n)
      end
  end.

Definition keyed_pieces record (key : string) (own : list Z) (target : string) : result CkError (list TargetPiece) :=
  let lid := resolve_lid record key target in
  raise_if (negb (bool_decide (is_Some (assoc_get (cr_logical record) lid)))) (UnknownTarget target) ;;
  let entries := filter (λ e, cs_snapshot e ∈ own) (entries_of record lid) in
  raise_if (negb (nonempty_list entries)) (NoBytesOf key lid) ;;
  mapR (keyed_piece record key target lid) (py_sorted entry_leb entries).

Definition keyed_plan record (key : string) (ids : list string) : result CkError (list TargetPiece) :=
  let own := own_snapshots record key in
  raise_if (negb (nonempty_list own)) (NoSnapshotOf key) ;;
  pieces ← mapR (keyed_pieces record key own) ids;
  Ok (concat pieces).

Definition resolve_targets (schema_digest : list Field → string) record (targets : Targets) (validate : bool) :
    result CkError (list Step) :=
  (if validate then validate_record schema_digest record [] else Ok tt) ;;
  match targets with
  | TargetAll => logical_plan record (py_sorted String.leb (cr_logical record).*1)
  | TargetKeyed l =>
      pieces ← mapR (λ p : string * Want, ids ← target_ids record p.2 (Some p.1); keyed_plan record p.1 ids) l;
      merge_steps record (concat pieces)
  | TargetPlain w => ids ← target_ids record w None; logical_plan record ids
  end.
End Targets.
