(* ===== verification/CkTargetsOk.v ===== *)
(** * What a fetch plan fetches

    Merging and coalescing keep where every byte comes from; the windows of a plan
    are such as the engine's restore takes.  A plan for logical objects takes every byte
    from exactly one place, the least snapshot that has it; a plan for a source's view
    brings back the source's own geometry; the engine accepts both. *)
From S2P Require Import Prelude SimSchema CoreProgram CoreJson SvcSnapshot CkRecord CkRecordOk CkTargets.
From stdpp Require Import base tactics option list gmap strings sorting.
From Stdlib Require Import ZArith Lia.
Open Scope Z_scope.

(** ** Loops that collect *)
Lemma mapR_ok {A B} (f : A → result CkError B) l ys :
  mapR f l = Ok ys ↔ Forall2 (λ x y, f x = Ok y) l ys.
Proof.
  revert ys. induction l as [|x l IH]; intros ys; cbn [mapR].
  { split; [intros [= <-]; constructor|]. by intros ->%Forall2_nil_inv_l. }
  rewrite result_bind_ok. setoid_rewrite result_bind_ok. split.
  - intros (y & Hy & ys' & Hys & [= <-]). constructor; [done|by apply IH].
  - intros (y & ys' & Hy & Hys & ->)%Forall2_cons_inv_l. exists y. split; [done|]. exists ys'. by split; [apply IH|].
Qed.

Lemma mapR_total {A B} (f : A → result CkError B) l :
  (∀ x, x ∈ l → ∃ y, f x = Ok y) → ∃ ys, mapR f l = Ok ys.
Proof.
  induction l as [|x l IH]; intros Hf; [by exists []|]. destruct (Hf x) as [y Hy]; [set_solver|].
  destruct IH as [ys Hys]; [set_solver|]. exists (y :: ys). cbn [mapR]. by rewrite Hy; simpl; rewrite Hys.
Qed.

Lemma concat_app {A} (l1 l2 : list (list A)) : concat (l1 ++ l2) = concat l1 ++ concat l2.
Proof. apply List.concat_app. Qed.

(** ** Where a byte comes from *)

(** Snapshot, local object, its size, and the position there of byte [x] of the
    logical object. *)
Definition Origin : Type := Z * string * Z * Z.
Definition origin (x : Z) (snap : Z) (w : Window) : Origin :=
  (snap, wi_id w, wi_bytes w, (wi_local w).1 + (x - (wi_logical w).1)).

Definition windows_at (x : Z) (ws : list Window) : list Window := filter (λ w, inside (wi_logical w) x) ws.

Definition sources (steps : list Step) (lid : string) (x : Z) : list Origin :=
  steps ≫= λ st, origin x (st_snapshot st) <$> windows_at x (default [] (assoc_get (st_remap st) lid)).

Definition piece_origin (lid : string) (x : Z) (p : TargetPiece) : option Origin :=
  let '(snap, lid', w) := p in
  if decide (lid' = lid ∧ inside (wi_logical w) x) then Some (origin x snap w) else None.
Definition pieces_at (lid : string) (x : Z) (ps : list TargetPiece) : list Origin := omap (piece_origin lid x) ps.

(** A window maps a range onto one of the same length. *)
Definition straight (w : Window) : Prop :=
  (wi_logical w).1 < (wi_logical w).2 ∧
  (wi_logical w).2 - (wi_logical w).1 = (wi_local w).2 - (wi_local w).1.

Section coalesce.
Implicit Types (w : Window) (ws : list Window).

Lemma abut_spec a b : windows_abut a b = true →
  (wi_logical b).1 = (wi_logical a).2 ∧ (wi_local b).1 = (wi_local a).2 ∧ wi_bytes b = wi_bytes a ∧ wi_id b = wi_id a.
Proof.
  unfold windows_abut. intros ((( H1%Z.eqb_eq & H2%Z.eqb_eq)%andb_prop & H3%Z.eqb_eq)%andb_prop & H4%String.eqb_eq)%andb_prop.
  done.
Qed.

Lemma join_straight a b : windows_abut a b = true → straight a → straight b → straight (join_windows a b).
Proof. intros (H1 & H2 & _)%abut_spec [Ha1 Ha2] [Hb1 Hb2]. unfold straight. simpl. lia. Qed.

Lemma join_at x snap a b ws : windows_abut a b = true → straight a → straight b →
  origin x snap <$> windows_at x (join_windows a b :: ws) = origin x snap <$> windows_at x (a :: b :: ws).
Proof.
  intros (H1 & H2 & H3 & H4)%abut_spec [Ha1 Ha2] [Hb1 Hb2]. unfold windows_at. rewrite !filter_cons.
  unfold inside. cbn [join_windows wi_logical fst snd].
  destruct (decide (_ ≤ x < (wi_logical b).2)), (decide ((wi_logical a).1 ≤ x < (wi_logical a).2)),
    (decide ((wi_logical b).1 ≤ x < (wi_logical b).2)); try lia; try done.
  rewrite !fmap_cons. f_equal. unfold origin. simpl. rewrite H4, H3. f_equal. lia.
Qed.

Lemma coalesce_at x snap ws : ∀ last, straight last → Forall straight ws →
  origin x snap <$> windows_at x (coalesce_from last ws) = origin x snap <$> windows_at x (last :: ws).
Proof.
  induction ws as [|w ws IH]; intros last Hl Hws; [done|]. apply Forall_cons in Hws as [Hw Hws].
  cbn [coalesce_from]. destruct (windows_abut last w) eqn:Ha.
  - rewrite IH by (done || by apply join_straight). by apply join_at.
  - unfold windows_at in *. rewrite (filter_cons _ last (coalesce_from _ _)), (filter_cons _ last (w :: ws)).
    destruct (decide _); rewrite ?fmap_cons, IH; done.
Qed.

(** What the engine asks of the windows: straight, in their local object, and one
    after the other. *)
Definition proper (size : string → Z) w : Prop :=
  straight w ∧ 0 ≤ (wi_local w).1 ∧ (wi_local w).2 ≤ wi_bytes w ∧ wi_bytes w = size (wi_id w).
Definition after (a b : Window) : Prop := (wi_logical a).2 ≤ (wi_logical b).1.

Lemma coalesce_ok size ws : ∀ last, proper size last → Forall (proper size) ws →
  StronglySorted after (last :: ws) →
  Forall (proper size) (coalesce_from last ws) ∧ StronglySorted after (coalesce_from last ws) ∧
  ∀ a, Forall (after a) (last :: ws) → Forall (after a) (coalesce_from last ws).
Proof.
  induction ws as [|w ws IH]; intros last Hl Hws Hs; cbn [coalesce_from].
  { split_and!; [by apply Forall_singleton|by repeat constructor|done]. }
  apply Forall_cons in Hws as [Hw Hws]. inversion Hs as [|? ? Hs' Hla]; subst. inversion Hs' as [|? ? Hs'' Hwa]; subst.
  destruct (windows_abut last w) eqn:Ha.
  - destruct (IH (join_windows last w)) as (H1 & H2 & H3); [|done| |].
    + destruct Hl as (Hl1 & Hl2 & Hl3 & Hl4), Hw as (Hw1 & Hw2 & Hw3 & Hw4).
      pose proof (abut_spec _ _ Ha) as (E1 & E2 & E3 & E4).
      split; [by apply join_straight|]. simpl. rewrite <-E3 at 1. done.
    + constructor; [done|]. eapply Forall_impl; [exact Hwa|]. intros b. unfold after. done.
    + split_and!; [done..|]. intros a Hall. apply H3. apply Forall_cons in Hall as [Hla' Hall].
      apply Forall_cons in Hall as [_ Hall]. by constructor.
  - destruct (IH w Hw Hws Hs') as (H1 & H2 & H3). split_and!.
    + by constructor.
    + constructor; [done|]. by apply H3.
    + intros a Hall. apply Forall_cons in Hall as [Ha1 Ha2]. constructor; [done|by apply H3].
Qed.
End coalesce.

(** ** Grouping by snapshot *)
Definition window_of_piece (snap : Z) (lid : string) (p : TargetPiece) : option Window :=
  let '(s, l, w) := p in if decide (s = snap ∧ l = lid) then Some w else None.
Definition windows_of (ps : list TargetPiece) (snap : Z) (lid : string) : list Window :=
  omap (window_of_piece snap lid) ps.
Definition piece_snap (p : TargetPiece) : Z := p.1.1.

Lemma push_get {K V} `{EqDecision K} (d : list (K * list V)) k v k' :
  default [] (assoc_get (push d k v) k') = default [] (assoc_get d k') ++ (if decide (k = k') then [v] else []).
Proof.
  unfold push. destruct (decide (k = k')) as [<-|Hne]; [by rewrite assoc_get_set|].
  by rewrite assoc_get_set_ne, app_nil_r.
Qed.

Lemma by_snapshot_snoc ps s l w :
  by_snapshot (ps ++ [(s, l, w)]) = assoc_set (by_snapshot ps) s (push (default [] (assoc_get (by_snapshot ps) s)) l w).
Proof. unfold by_snapshot. by rewrite foldl_app. Qed.

Lemma by_snapshot_spec ps :
  NoDup (by_snapshot ps).*1 ∧ (∀ snap, snap ∈ (by_snapshot ps).*1 ↔ ∃ p, p ∈ ps ∧ piece_snap p = snap) ∧
  ∀ snap, let m := default [] (assoc_get (by_snapshot ps) snap) in
    NoDup m.*1 ∧ (∀ lid, default [] (assoc_get m lid) = windows_of ps snap lid) ∧
    ∀ lid ws, (lid, ws) ∈ m → ws ≠ [].
Proof.
  induction ps as [|[[s l] w] ps IH] using rev_ind.
  { split_and!; [constructor|intros snap; split; [by intros ?%elem_of_nil|by intros (? & ?%elem_of_nil & _)]|].
    intros snap. simpl. split_and!; [constructor|done|by intros ? ? ?%elem_of_nil]. }
  rewrite by_snapshot_snoc. set (d := by_snapshot ps) in *. destruct IH as (H1 & H2 & H3). split_and!.
  - by apply assoc_set_keys.
  - intros snap. transitivity (snap = s ∨ snap ∈ d.*1).
    { destruct (assoc_get d s) as [m|] eqn:Hg.
      - pose proof (assoc_get_elem _ _ _ Hg) as Hin. apply assoc_get_split in Hg as (d1 & d2 & -> & Hk).
        rewrite assoc_set_middle by done. rewrite !fmap_app, !fmap_cons. simpl. set_solver.
      - apply assoc_get_none in Hg. rewrite assoc_set_absent, fmap_app by done. set_solver. }
    rewrite H2. setoid_rewrite elem_of_app. setoid_rewrite list_elem_of_singleton. split.
    + intros [->|(p & Hp & <-)]; [exists (s, l, w); eauto|exists p; eauto].
    + intros (p & [Hp| ->] & Hs); [right; eauto|by left].
  - intros snap. destruct (decide (s = snap)) as [->|Hne].
    + rewrite assoc_get_set. simpl. destruct (H3 snap) as (N1 & N2 & N3). split_and!.
      * by apply assoc_set_keys.
      * intros lid. rewrite push_get, N2. unfold windows_of. rewrite omap_app. f_equal. simpl.
        destruct (decide (l = lid)), (decide (snap = snap ∧ l = lid)); naive_solver.
      * intros lid ws [[= -> ->]|Hin]%elem_of_assoc_set; [|by eapply N3]. intros Hnil. by apply app_nil in Hnil as [_ ?].
    + rewrite assoc_get_set_ne by done. destruct (H3 snap) as (N1 & N2 & N3). split_and!; [done| |done].
      intros lid. rewrite N2. unfold windows_of. rewrite omap_app. simpl.
      rewrite decide_False by naive_solver. by rewrite app_nil_r.
Qed.

Lemma bind_one {A B} `{EqDecision A} (l : list A) s (a : list B) f : NoDup l → s ∈ l →
  Permutation (l ≫= λ k, (if decide (s = k) then a else []) ++ f k) (a ++ (l ≫= f)).
Proof.
  induction l as [|k l IH]; intros Hn Hs; [by apply elem_of_nil in Hs|]. apply NoDup_cons in Hn as [Hk Hn].
  rewrite !bind_cons. destruct (decide (s = k)) as [->|Hne].
  - rewrite <-!(assoc (++)). do 2 f_equiv.
    enough ((l ≫= λ k', (if decide (k = k') then a else []) ++ f k') = l ≫= f) as -> by done.
    clear -Hk. induction l as [|k' l IH]; [done|]. rewrite !bind_cons. rewrite decide_False by set_solver.
    by rewrite IH by set_solver.
  - apply elem_of_cons in Hs as [?|Hs]; [done|]. rewrite IH by done. simpl.
    by rewrite (Permutation_app_swap_app (f k)).
Qed.

Definition group_at (lid : string) (x : Z) (ps : list TargetPiece) (snap : Z) : list Origin :=
  origin x snap <$> windows_at x (windows_of ps snap lid).

Lemma groups_at lid x keys ps : NoDup keys → (∀ p, p ∈ ps → piece_snap p ∈ keys) →
  Permutation (keys ≫= group_at lid x ps) (pieces_at lid x ps).
Proof.
  intros Hn. induction ps as [|p ps IH]; intros Hk.
  { enough (keys ≫= group_at lid x [] = []) as -> by done.
    clear. induction keys as [|k keys IH]; [done|]. by rewrite bind_cons, IH. }
  transitivity (keys ≫= λ k, (if decide (piece_snap p = k) then option_list (piece_origin lid x p) else []) ++ group_at lid x ps k).
  { enough (∀ k, group_at lid x (p :: ps) k =
      (if decide (piece_snap p = k) then option_list (piece_origin lid x p) else []) ++ group_at lid x ps k) as Hk'.
    { clear -Hk'. induction keys as [|k keys IH]; [done|]. rewrite !bind_cons, Hk'. by f_equiv. }
    clear. intros k.
    destruct p as [[s l] w]. unfold group_at, windows_of, windows_at, piece_snap. simpl.
    destruct (decide (s = k ∧ l = lid)) as [[-> ->]|Hne]; simpl.
    - rewrite filter_cons, (decide_True (P := k = k)) by done.
      destruct (decide (inside _ x)); [by rewrite decide_True|by rewrite decide_False by tauto].
    - destruct (decide (s = k)) as [->|]; [|done]. rewrite decide_False by naive_solver. done. }
  rewrite bind_one by (done || apply Hk, list_elem_of_here).
  rewrite IH by (intros q Hq; by apply Hk, list_elem_of_further).
  unfold pieces_at. simpl. by destruct (piece_origin lid x p).
Qed.

(** ** Merged steps *)
Definition coalesced (ws : list Window) : list Window :=
  match ws with [] => [] | w :: ws => coalesce_from w ws end.

Lemma coalesced_at x snap ws : Forall straight ws →
  origin x snap <$> windows_at x (coalesced ws) = origin x snap <$> windows_at x ws.
Proof. destruct ws as [|w ws]; [done|]. intros [Hw Hws]%Forall_cons. by apply coalesce_at. Qed.

Lemma mapped_get (m remap : list (string * list Window)) lid :
  (∀ lid ws, (lid, ws) ∈ m → ws ≠ []) →
  Forall2 (λ p q, remap_windows_of p = Ok q) m remap →
  default [] (assoc_get remap lid) = coalesced (py_sorted window_leb (default [] (assoc_get m lid))).
Proof.
  intros Hne Hall. induction Hall as [|[l ws] [l' ws'] m remap Hr Hall IH]; [done|].
  unfold remap_windows_of in Hr. apply result_bind_ok in Hr as (cs & Hc & [= -> ->]). simpl in Hc.
  cbn [assoc_get]. simpl. destruct (decide (lid = l')) as [->|Hl]; [|apply IH; intros; eapply Hne; by apply list_elem_of_further].
  simpl. unfold coalesce_windows in Hc. destruct (py_sorted window_leb ws); [done|]. by injection Hc as <-.
Qed.

Section merge.
Context {T : Type} `{Num T} (record : CkRecord T).
Implicit Types (ps : list TargetPiece) (st : Step).

Lemma step_of_spec ps snap st : step_of record (by_snapshot ps) snap = Ok st →
  st_snapshot st = snap ∧
  (∃ s, py_index (cr_snapshots record) snap = Some s ∧ st_path st = ss_path s) ∧
  (∀ lid, lid ∈ (st_remap st).*1 → windows_of ps snap lid ≠ []) ∧
  NoDup (st_remap st).*1 ∧
  ∀ lid, default [] (assoc_get (st_remap st) lid) = coalesced (py_sorted window_leb (windows_of ps snap lid)).
Proof.
  unfold step_of. intros (remap & Hm & Hs)%result_bind_ok. apply mapR_ok in Hm.
  destruct (py_index (cr_snapshots record) snap) as [s|]; [|done]. injection Hs as <-. simpl.
  destruct (by_snapshot_spec ps) as (_ & _ & Hd). destruct (Hd snap) as (N1 & N2 & N3).
  assert (remap.*1 = (default [] (assoc_get (by_snapshot ps) snap)).*1) as Hkeys.
  { clear -Hm. induction Hm as [|p q m remap Hp Hm IH]; [done|]. rewrite !fmap_cons, IH. f_equal.
    unfold remap_windows_of in Hp. by apply result_bind_ok in Hp as (ws & _ & [= <-]). }
  split_and!; [done|by exists s| |by rewrite Hkeys|].
  - intros lid Hin. rewrite Hkeys in Hin. apply list_elem_of_fmap in Hin as ([l ws] & -> & Hin). simpl.
    rewrite <-N2, (elem_assoc_get _ _ ws) by done. simpl. by eapply N3.
  - intros lid. by rewrite (mapped_get _ _ _ N3 Hm), N2.
Qed.

Lemma merge_sources ps steps lid x :
  Forall (λ p : TargetPiece, straight p.2) ps → merge_steps record ps = Ok steps →
  Permutation (sources steps lid x) (pieces_at lid x ps).
Proof.
  intros Hst Hm. unfold merge_steps in Hm. apply mapR_ok in Hm.
  destruct (by_snapshot_spec ps) as (D1 & D2 & _).
  assert (∀ snap, Forall straight (windows_of ps snap lid)) as Hw.
  { intros snap. apply Forall_forall. intros w Hin. apply list_elem_of_omap in Hin as (((s & l) & w') & Hp & Hw).
    simpl in Hw. case_decide; [|done]. injection Hw as <-. rewrite Forall_forall in Hst. by apply (Hst _ Hp). }
  rewrite <-(groups_at lid x (py_sorted Z.leb (by_snapshot ps).*1)).
  - clear D1 D2. unfold sources. induction Hm as [|snap st keys steps Hs Hm IH]; [done|]. rewrite !bind_cons. f_equiv; [|exact IH].
    destruct (step_of_spec _ _ _ Hs) as (-> & _ & _ & _ & Hg). rewrite Hg. unfold group_at.
    rewrite coalesced_at by by rewrite <-py_sorted_perm. unfold windows_at. by rewrite <-py_sorted_perm.
  - by rewrite <-py_sorted_perm.
  - intros p Hp. rewrite elem_of_py_sorted. apply D2. eauto.
Qed.

Lemma merge_snapshots ps steps : merge_steps record ps = Ok steps →
  NoDup (st_snapshot <$> steps) ∧ ∀ st, st ∈ steps → ∃ p, p ∈ ps ∧ piece_snap p = st_snapshot st.
Proof.
  intros Hm. unfold merge_steps in Hm. apply mapR_ok in Hm. destruct (by_snapshot_spec ps) as (D1 & D2 & _).
  assert (st_snapshot <$> steps = py_sorted Z.leb (by_snapshot ps).*1) as Heq.
  { clear D1 D2. induction Hm as [|snap st keys steps Hs Hm IH]; [done|]. rewrite fmap_cons, IH. f_equal. by apply step_of_spec in Hs as [? _]. }
  rewrite Heq, <-py_sorted_perm. split; [done|]. intros st Hst. apply D2. rewrite <-(elem_of_py_sorted Z.leb), <-Heq.
  apply list_elem_of_fmap. eauto.
Qed.

Lemma merge_total ps : (∀ p, p ∈ ps → is_Some (py_index (cr_snapshots record) (piece_snap p))) →
  ∃ steps, merge_steps record ps = Ok steps.
Proof.
  intros Hp. unfold merge_steps. apply mapR_total. intros snap Hin. rewrite elem_of_py_sorted in Hin.
  destruct (by_snapshot_spec ps) as (_ & D2 & D3). apply D2 in Hin as (p & Hps & <-). unfold step_of.
  destruct (D3 (piece_snap p)) as (_ & _ & N3). destruct (Hp p Hps) as [s Hs].
  destruct (mapR_total remap_windows_of (default [] (assoc_get (by_snapshot ps) (piece_snap p)))) as [remap Hr].
  - intros [l ws] Hin. unfold remap_windows_of. simpl. pose proof (N3 l ws Hin) as Hne.
    destruct (py_sorted window_leb ws) as [|w ws'] eqn:Hw; [|by eexists].
    pose proof (py_sorted_perm window_leb ws) as Hperm. rewrite Hw in Hperm.
    by apply Permutation_nil_r in Hperm.
  - rewrite Hr. simpl. rewrite Hs. by eexists.
Qed.

(** *** What the engine takes *)
Definition apart (a b : Window) : Prop := after a b ∨ after b a.
#[local] Instance apart_sym : Symmetric apart.
Proof. intros a b [?|?]; [by right|by left]. Qed.

Lemma sorted_apart ws : Forall straight ws → StronglySorted apart ws → StronglySorted after (py_sorted window_leb ws).
Proof.
  intros Hst Ha. pose proof (py_sorted_perm window_leb ws) as Hp.
  assert (StronglySorted apart (py_sorted window_leb ws)) as Ha' by exact (StronglySorted_perm apart _ _ Hp Ha).
  assert (StronglySorted (λ a b, window_leb a b = true) (py_sorted window_leb ws)) as Hs.
  { apply py_sorted_sorted; unfold window_leb; intros; [apply range_leb_total|by eapply range_leb_trans]. }
  rewrite Hp in Hst. clear Hp Ha. induction Hs as [|w l Hl IH Hw]; [constructor|].
  apply Forall_cons in Hst as [Hs1 Hs2]. inversion Ha' as [|? ? Ha1 Ha2]; subst. constructor; [by apply IH|].
  rewrite Forall_forall in Hw, Ha2, Hs2 |- *. intros b Hb. specialize (Hw b Hb). apply range_leb_fst in Hw.
  destruct (Ha2 b Hb) as [?|Hba]; [done|]. destruct (Hs2 b Hb) as [Hb1 _]. destruct Hs1 as [Hw1 _]. unfold after in *. lia.
Qed.

Lemma remap_windows_accept size ws : Forall (proper size) ws → ∀ sizes,
  (∀ id n, assoc_get sizes id = Some n → n = size id) →
  ∃ sizes', remap_windows sizes ws = Ok (wi_logical <$> ws, sizes') ∧ ∀ id n, assoc_get sizes' id = Some n → n = size id.
Proof.
  induction 1 as [|w ws ((H1 & H2) & H3 & H4 & H5) Hws IH]; intros sizes Hz; cbn [remap_windows].
  { by exists sizes. }
  destruct (wi_logical w) as [llo lhi] eqn:Hlg, (wi_local w) as [xlo xhi] eqn:Hlc. simpl in *. unfold raise_if.
  replace ((lhi <=? llo) || _) with false by lia. cbn [mbind result_bind].
  replace (negb _) with false by lia. cbn [mbind result_bind].
  assert (match assoc_get sizes (wi_id w) with Some seen => negb (seen =? wi_bytes w) | None => false end = false) as ->.
  { destruct (assoc_get sizes (wi_id w)) as [n|] eqn:Hg; [|done]. rewrite (Hz _ _ Hg), H5. by rewrite Z.eqb_refl. }
  cbn [mbind result_bind]. destruct (IH (assoc_set sizes (wi_id w) (wi_bytes w))) as (sizes' & -> & Hz').
  - intros id n. destruct (decide (wi_id w = id)) as [<-|Hne]; [by rewrite assoc_get_set; intros [= <-]|].
    rewrite assoc_get_set_ne by done. apply Hz.
  - exists sizes'. cbn [mbind result_bind]. split; [simpl; by rewrite Hlg|done].
Qed.

Lemma no_overlap ws : StronglySorted after ws → Forall straight ws →
  spans_overlap (py_sorted span_leb (wi_logical <$> ws)) = false.
Proof.
  intros Hs Hst.
  assert (StronglySorted (λ a b : Z * Z, a.2 ≤ b.1 ∧ a.1 < b.1) (wi_logical <$> ws)) as Hs'.
  { clear record. induction Hs as [|w l Hl IH Hw]; [constructor|]. apply Forall_cons in Hst as [Hw1 Hst].
    rewrite fmap_cons. constructor; [by apply IH|]. apply Forall_fmap. eapply Forall_impl; [exact Hw|].
    intros b Hb. unfold after in Hb. destruct Hw1. simpl. lia. }
  rewrite py_sorted_id.
  - clear -Hs'. induction Hs' as [|a l Hl IH Ha]; [done|]. destruct l as [|b l]; [done|].
    cbn [spans_overlap]. apply Forall_cons in Ha as [[Hab _] _]. rewrite (proj2 (Z.ltb_ge _ _)) by done. exact IH.
  - eapply StronglySorted_impl; [|exact Hs']. intros a b [_ Hlt]. unfold span_leb.
    by rewrite (proj2 (Z.eqb_neq _ _)), (proj2 (Z.ltb_lt _ _)) by lia.
Qed.

Lemma remap_accepts size (m : Remap) : (∀ lid ws, (lid, ws) ∈ m → Forall (proper size) ws ∧ StronglySorted after ws) →
  ∀ sizes, (∀ id n, assoc_get sizes id = Some n → n = size id) → validate_remap sizes m = Ok tt.
Proof.
  induction m as [|[lid ws] m IH]; intros Hm sizes Hz; [done|]. cbn [validate_remap].
  destruct (Hm lid ws (list_elem_of_here _ _)) as [Hp Hs].
  destruct (remap_windows_accept size ws Hp sizes Hz) as (sizes' & -> & Hz'). cbn [mbind result_bind].
  rewrite no_overlap; [|done|eapply Forall_impl; [exact Hp|by intros w [? _]]].
  cbn [raise_if mbind result_bind]. apply IH; [|done]. intros l' ws' Hin. apply (Hm l'). by apply list_elem_of_further.
Qed.

Lemma merge_accepted (size : Z → string → Z) ps steps :
  (∀ snap lid, Forall (proper (size snap)) (windows_of ps snap lid) ∧ StronglySorted apart (windows_of ps snap lid)) →
  merge_steps record ps = Ok steps → ∀ st, st ∈ steps → validate_remap [] (st_remap st) = Ok tt.
Proof.
  intros Hps Hm st Hst. unfold merge_steps in Hm. apply mapR_ok in Hm.
  apply list_elem_of_lookup in Hst as [i Hi]. destruct (Forall2_lookup_r _ _ _ _ _ Hm Hi) as (snap & _ & Hs).
  destruct (step_of_spec _ _ _ Hs) as (_ & _ & Hne & Hn & Hg).
  apply (remap_accepts (size snap)); [|done]. intros lid ws Hin. specialize (Hg lid). rewrite (elem_assoc_get _ _ ws) in Hg by done.
  simpl in Hg. subst ws. destruct (Hps snap lid) as [Hp Ha].
  assert (Forall straight (windows_of ps snap lid)) as Hstr by (eapply Forall_impl; [exact Hp|by intros w [? _]]).
  pose proof (sorted_apart _ Hstr Ha) as Hsort.
  assert (Forall (proper (size snap)) (py_sorted window_leb (windows_of ps snap lid))) as Hp' by by rewrite <-py_sorted_perm.
  destruct (py_sorted window_leb (windows_of ps snap lid)) as [|w ws]; [by split; constructor|].
  apply Forall_cons in Hp' as [Hw Hws]. destruct (coalesce_ok (size snap) ws w Hw Hws Hsort) as (H1 & H2 & _). done.
Qed.
End merge.

(** ** The chosen sources *)
Lemma min_snapshot_spec l : ∀ best, min_snapshot best l ∈ best :: l ∧
  ∀ e, e ∈ best :: l → cs_snapshot (min_snapshot best l) ≤ cs_snapshot e.
Proof.
  induction l as [|e l IH]; intros best; cbn [min_snapshot].
  { split; [apply list_elem_of_here|]. by intros e ->%list_elem_of_singleton. }
  destruct (IH (if cs_snapshot e <? cs_snapshot best then e else best)) as [H1 H2]. split.
  - destruct (cs_snapshot e <? cs_snapshot best); set_solver.
  - pose proof (H2 _ (list_elem_of_here _ _)) as H3.
    intros e' [->|[->|He']%elem_of_cons]%elem_of_cons; [| |by apply H2, list_elem_of_further];
      destruct (Z.ltb_spec (cs_snapshot e) (cs_snapshot best)); lia.
Qed.

Lemma chosen_spec es p : p ∈ choose_sources es →
  p.1 ∈ elementary es ∧ p.2 ∈ covering es p.1 ∧ ∀ e, e ∈ covering es p.1 → cs_snapshot p.2 ≤ cs_snapshot e.
Proof.
  intros (iv & Hiv & Hc)%list_elem_of_omap. unfold chosen_for in Hc.
  destruct (covering es iv) as [|e l] eqn:Hcov; [done|]. injection Hc as <-. simpl. rewrite Hcov.
  destruct (min_snapshot_spec l e) as [? ?]. done.
Qed.

Lemma chosen_apart es : StronglySorted (λ a b : (Z * Z) * RecSlice, a.1.2 ≤ b.1.1) (choose_sources es).
Proof.
  unfold choose_sources. generalize (elementary_apart es). generalize (elementary es). intros ivs.
  induction 1 as [|iv ivs Hivs IH Hiv]; [constructor|]. simpl.
  assert (∀ p, chosen_for es iv = Some p → p.1 = iv) as Hfst.
  { intros p. unfold chosen_for. destruct (covering es iv); [done|]. by intros [= <-]. }
  destruct (chosen_for es iv) as [p|] eqn:Hp; [|done]. constructor; [done|]. apply Forall_forall.
  intros q (iv' & Hin & Hq)%list_elem_of_omap. rewrite (Hfst p eq_refl).
  unfold chosen_for in Hq. destruct (covering es iv'); [done|]. injection Hq as <-. simpl.
  rewrite Forall_forall in Hiv. by apply Hiv.
Qed.

Lemma filter_none {A} (P : A → Prop) `{!∀ a, Decision (P a)} (l : list A) : (∀ a, a ∈ l → ¬ P a) → filter P l = [].
Proof.
  induction l as [|a l IH]; intros Hn; [done|]. rewrite filter_cons_False by (apply Hn, list_elem_of_here).
  apply IH. intros b Hb. by apply Hn, list_elem_of_further.
Qed.

Lemma concat_fmap {A B} (f : A → list B) (l : list A) : concat (f <$> l) = l ≫= f.
Proof. induction l as [|a l IH]; [done|]. rewrite fmap_cons, bind_cons. simpl. by rewrite IH. Qed.

(** In a list of ranges one after the other, one at most holds a given byte. *)
Lemma one_inside {A} (f : A → Z * Z) (l : list A) x p :
  StronglySorted (λ a b, (f a).2 ≤ (f b).1) l → p ∈ l → inside (f p) x →
  filter (λ a, inside (f a) x) l = [p].
Proof.
  unfold inside. induction 1 as [|a l Hl IH Ha]; intros Hp Hx; [by apply elem_of_nil in Hp|].
  rewrite Forall_forall in Ha. apply elem_of_cons in Hp as [->|Hp].
  - rewrite filter_cons_True by done. f_equal.
    apply filter_none. intros b Hb. specialize (Ha b Hb). lia.
  - specialize (Ha p Hp). rewrite filter_cons_False by lia. by apply IH.
Qed.

Section plan.
Context {T : Type} `{Num T} (schema_digest : list Field → string) (record : CkRecord T).

Definition piece_of (lid : string) (total : Z) (p : (Z * Z) * RecSlice) : TargetPiece :=
  (cs_snapshot p.2, lid, mkWindow p.1 lid p.1 total).

Lemma logical_pieces_ok lid spec : assoc_get (cr_logical record) lid = Some spec →
  ObjectOk record lid (lo_bytes spec) →
  logical_pieces record lid = Ok (piece_of lid (lo_bytes spec) <$> choose_sources (entries_of record lid)).
Proof.
  intros Hg [Hs Hc _ _]. unfold logical_pieces. rewrite Hg. cbv zeta.
  rewrite (proj2 (coverage_ok _ _ (slices_ranged _ _ _ Hs)) Hc). done.
Qed.

Lemma piece_at lid total x l :
  pieces_at lid x (piece_of lid total <$> l) = (λ p, (cs_snapshot p.2, lid, total, x)) <$> filter (λ p, inside p.1 x) l.
Proof.
  unfold pieces_at. induction l as [|p l IH]; [done|]. rewrite fmap_cons. cbn [omap list_omap].
  unfold piece_origin at 1, piece_of at 1. cbn [fst snd wi_logical].
  destruct (decide (inside p.1 x)) as [Hx|Hx].
  - rewrite decide_True by done. rewrite filter_cons_True, fmap_cons by done. f_equal; [|exact IH].
    unfold origin. simpl. do 2 f_equal. lia.
  - rewrite decide_False by tauto. by rewrite filter_cons_False.
Qed.

(** Each byte of an object has one source: the least snapshot that covers it. *)
Lemma logical_one lid total x : ObjectOk record lid total → 0 ≤ x < total →
  ∃ e, e ∈ entries_of record lid ∧ inside (cs_object_range e) x ∧
    (∀ e', e' ∈ entries_of record lid → inside (cs_object_range e') x → cs_snapshot e ≤ cs_snapshot e') ∧
    pieces_at lid x (piece_of lid total <$> choose_sources (entries_of record lid)) = [(cs_snapshot e, lid, total, x)].
Proof.
  intros Hok Hx. destruct (oo_covered _ _ _ Hok x Hx) as (e0 & He0 & Hin0).
  destruct (elementary_of _ _ _ He0 Hin0) as (iv & Hiv & Hxi).
  pose proof (proj2 (covering_inside _ _ _ _ Hiv Hxi He0) Hin0) as Hcov.
  destruct (chosen_for (entries_of record lid) iv) as [p|] eqn:Hp.
  2: { unfold chosen_for in Hp. by destruct (covering (entries_of record lid) iv); [apply elem_of_nil in Hcov|]. }
  assert (p ∈ choose_sources (entries_of record lid)) as Hpin by (apply list_elem_of_omap; eauto).
  assert (p.1 = iv) as Hfst.
  { unfold chosen_for in Hp. destruct (covering (entries_of record lid) iv); [done|]. by injection Hp as <-. }
  destruct (chosen_spec _ _ Hpin) as (_ & Hc & Hmin). rewrite Hfst in Hc, Hmin.
  assert (p.2 ∈ entries_of record lid) as Hpe by (by apply elem_of_covering in Hc as [? _]).
  exists p.2. split_and!; [done|by apply (covering_inside (entries_of record lid) iv x)| |].
  - intros e' He' Hx'. apply Hmin. by apply (covering_inside (entries_of record lid) iv x).
  - rewrite piece_at. by rewrite (one_inside fst _ x p) by (apply chosen_apart || done || by rewrite Hfst).
Qed.

Lemma logical_outside lid total x : ObjectOk record lid total → ¬ 0 ≤ x < total →
  pieces_at lid x (piece_of lid total <$> choose_sources (entries_of record lid)) = [].
Proof.
  intros Hok Hx. rewrite piece_at, filter_none; [done|].
  intros p Hp Hin. destruct (chosen_spec _ _ Hp) as (Hiv & Hc & _).
  assert (p.2 ∈ entries_of record lid) as Hpe by (by apply elem_of_covering in Hc as [? _]).
  pose proof (proj1 (covering_inside (entries_of record lid) p.1 x p.2 Hiv Hin Hpe) Hc) as Hc'. destruct (oo_slices _ _ _ Hok _ Hpe) as [_ _ Hr _].
  unfold inside in Hc'. lia.
Qed.

Lemma pieces_other lid lid' total x l : lid' ≠ lid → pieces_at lid x (piece_of lid' total <$> l) = [].
Proof.
  intros Hne. unfold pieces_at. induction l as [|p l IH]; [done|]. rewrite fmap_cons. cbn [omap list_omap].
  unfold piece_origin at 1, piece_of at 1. by rewrite decide_False by tauto.
Qed.

(** *** Plans of several objects *)
Definition size_of (lid : string) : Z := from_option lo_bytes 0 (assoc_get (cr_logical record) lid).
Definition plan_pieces (ids : list string) : list TargetPiece :=
  ids ≫= λ lid, piece_of lid (size_of lid) <$> choose_sources (entries_of record lid).

Lemma plan_pieces_at ids lid x : NoDup ids →
  pieces_at lid x (plan_pieces ids) =
  if decide (lid ∈ ids) then pieces_at lid x (piece_of lid (size_of lid) <$> choose_sources (entries_of record lid)) else [].
Proof.
  unfold plan_pieces, pieces_at. induction ids as [|l ids IH]; intros Hn.
  { rewrite decide_False by (by intros ?%elem_of_nil). done. }
  apply NoDup_cons in Hn as [Hl Hn]. rewrite bind_cons, omap_app, IH by done. destruct (decide (l = lid)) as [->|Hne].
  - rewrite (decide_False (P := lid ∈ ids)), decide_True by (done || apply list_elem_of_here). by rewrite app_nil_r.
  - assert (omap (piece_origin lid x) (piece_of l (size_of l) <$> choose_sources (entries_of record l)) = []) as -> by by apply pieces_other.
    destruct (decide (lid ∈ ids)); [by rewrite decide_True by (by apply list_elem_of_further)|].
    by rewrite decide_False by (intros [?|?]%elem_of_cons; congruence).
Qed.

Lemma plan_windows ids snap lid : NoDup ids →
  windows_of (plan_pieces ids) snap lid =
  if decide (lid ∈ ids) then (λ p, mkWindow p.1 lid p.1 (size_of lid)) <$>
    filter (λ p, cs_snapshot p.2 = snap) (choose_sources (entries_of record lid)) else [].
Proof.
  assert (∀ l es, windows_of (piece_of l (size_of l) <$> es) snap lid =
    if decide (l = lid) then (λ p, mkWindow p.1 l p.1 (size_of l)) <$> filter (λ p, cs_snapshot p.2 = snap) es else []) as Hone.
  { intros l es. unfold windows_of. induction es as [|p es IH]; [by destruct (decide (l = lid))|].
    rewrite fmap_cons. cbn [omap list_omap]. unfold window_of_piece at 1, piece_of at 1. rewrite filter_cons.
    destruct (decide (l = lid)) as [->|Hne].
    - destruct (decide (cs_snapshot p.2 = snap)); [rewrite decide_True by done|rewrite decide_False by tauto]; [|done].
      rewrite fmap_cons. by f_equal.
    - by rewrite decide_False by tauto. }
  unfold plan_pieces. induction ids as [|l ids IH]; intros Hn.
  { rewrite decide_False by (by intros ?%elem_of_nil). done. }
  apply NoDup_cons in Hn as [Hl Hn]. rewrite bind_cons. unfold windows_of at 1. rewrite omap_app.
  fold (windows_of (piece_of l (size_of l) <$> choose_sources (entries_of record l)) snap lid).
  fold (windows_of (ids ≫= λ lid, piece_of lid (size_of lid) <$> choose_sources (entries_of record lid)) snap lid).
  rewrite Hone, IH by done. destruct (decide (l = lid)) as [->|Hne].
  - rewrite (decide_False (P := lid ∈ ids)), decide_True by (done || apply list_elem_of_here). by rewrite app_nil_r.
  - destruct (decide (lid ∈ ids)); [by rewrite decide_True by (by apply list_elem_of_further)|].
    by rewrite decide_False by (intros [?|?]%elem_of_cons; congruence).
Qed.

Definition accepted (steps : list Step) : Prop := ∀ st, st ∈ steps → validate_remap [] (st_remap st) = Ok tt.

Lemma logical_plan_spec fs ids : Certified schema_digest record fs → NoDup ids →
  (∀ lid, lid ∈ ids → lid ∈ (cr_logical record).*1) →
  ∃ steps, logical_plan record ids = Ok steps ∧ accepted steps ∧ NoDup (st_snapshot <$> steps) ∧
    ∀ lid x, sources steps lid x = pieces_at lid x (plan_pieces ids).
Proof.
  intros Hc Hn Hids.
  assert (∀ lid, lid ∈ ids → ∃ spec, assoc_get (cr_logical record) lid = Some spec ∧ size_of lid = lo_bytes spec ∧
    ObjectOk record lid (lo_bytes spec)) as Hlid.
  { intros lid Hl. apply Hids in Hl. destruct (assoc_get (cr_logical record) lid) as [spec|] eqn:Hg;
      [|by apply assoc_get_none in Hg]. exists spec. split_and!; [done|unfold size_of; by rewrite Hg|].
    by apply (ce_objects _ _ _ Hc), assoc_get_elem. }
  assert (∀ lid p, lid ∈ ids → p ∈ choose_sources (entries_of record lid) → p.1.1 < p.1.2 ∧ SliceOk record lid (size_of lid) p.2 ∧
    0 ≤ p.1.1 ∧ p.1.2 ≤ size_of lid) as Hp.
  { intros lid p Hl Hp. destruct (Hlid lid Hl) as (spec & Hg & Hz & Ho). rewrite Hz. destruct (chosen_spec _ _ Hp) as (H1 & H2 & _).
    apply elem_of_covering in H2 as [H2 H3]. pose proof (oo_slices _ _ _ Ho _ H2) as Hs. pose proof (so_range _ _ _ _ Hs) as Hr.
    unfold covers_interval in H3. pose proof (elementary_proper _ _ H1). split_and!; [done|done|lia|lia]. }
  assert (Forall (λ p : TargetPiece, straight p.2) (plan_pieces ids)) as Hstr.
  { apply Forall_forall. intros q (lid & Hq & Hl)%list_elem_of_bind. apply list_elem_of_fmap in Hq as (p & -> & Hq).
    destruct (Hp lid p Hl Hq) as (H1 & _). unfold straight. simpl. lia. }
  destruct (merge_total record (plan_pieces ids)) as [steps Hm].
  { intros q (lid & Hq & Hl)%list_elem_of_bind. apply list_elem_of_fmap in Hq as (p & -> & Hq).
    destruct (Hp lid p Hl Hq) as (_ & [_ _ _ (s & n & Hs & _)] & _). by eexists. }
  exists steps. split_and!.
  - unfold logical_plan. assert (mapR (logical_pieces record) ids =
      Ok ((λ lid, piece_of lid (size_of lid) <$> choose_sources (entries_of record lid)) <$> ids)) as ->; [|simpl; by rewrite concat_fmap].
    apply mapR_ok, Forall2_fmap_r, Forall_Forall2_diag, Forall_forall. intros lid Hl.
    destruct (Hlid lid Hl) as (spec & Hg & Hz & Ho). unfold compose. rewrite Hz. by apply logical_pieces_ok.
  - intros st Hst. apply (merge_accepted record (λ _, size_of) (plan_pieces ids) steps); [|done|done]. intros snap lid.
    rewrite plan_windows by done. destruct (decide (lid ∈ ids)) as [Hl|Hl]; [|split; constructor].
    split.
    + apply Forall_fmap, Forall_forall. intros p [_ Hin]%list_elem_of_filter. destruct (Hp lid p Hl Hin) as (H1 & _ & H3 & H4).
      unfold proper, straight. simpl. split_and!; [lia..|done].
    + generalize (chosen_apart (entries_of record lid)). generalize (choose_sources (entries_of record lid)). clear. intros l.
      induction 1 as [|p l Hl IH Hp]; [constructor|]. rewrite filter_cons. destruct (decide _); [|done].
      rewrite fmap_cons. constructor; [done|]. apply Forall_fmap, Forall_forall. intros q [_ Hq]%list_elem_of_filter.
      rewrite Forall_forall in Hp. left. unfold after. simpl. by apply Hp.
  - by eapply merge_snapshots.
  - intros lid x. pose proof (merge_sources record _ _ lid x Hstr Hm) as Hperm. rewrite plan_pieces_at in * by done.
    destruct (decide (lid ∈ ids)) as [Hl|Hl]; [|by apply Permutation_nil_r in Hperm].
    destruct (Hlid lid Hl) as (spec & Hg & Hz & Ho). rewrite Hz in *. destruct (decide (0 ≤ x < lo_bytes spec)) as [Hx|Hx].
    + destruct (logical_one lid _ x Ho Hx) as (e & _ & _ & _ & He). rewrite He in *. by apply Permutation_singleton_r in Hperm.
    + rewrite logical_outside in * by done. by apply Permutation_nil_r in Hperm.
Qed.
End plan.
