(* ===== verification/CkRestore.v ===== *)
(** * Checkpoints from validation to restore

    What the record layer promises: validation decides, every byte is fetched
    once, the engine's restore places it where it belongs, and a source gets
    its own geometry back. *)
From S2P Require Import Prelude SimSchema CoreProgram CoreJson SvcStore SvcSnapshot SvcSnapshotRun CkRecord CkRecordOk CkTargets CkTargetsOk.
From stdpp Require Import base tactics option list gmap strings sorting.
From Stdlib Require Import ZArith Lia.
Open Scope Z_scope.

Lemma iterR_err {E A} (f : A → result E unit) l e : iterR f l = Err e → ∃ x, x ∈ l ∧ f x = Err e.
Proof.
  induction l as [|x l IH]; [done|]. cbn [iterR]. destruct (f x) as [[]|e'] eqn:Hf; simpl.
  - intros Hl. destruct (IH Hl) as (y & Hy & Hfy). exists y. split; [by apply list_elem_of_further|done].
  - intros [= ->]. exists x. split; [apply list_elem_of_here|done].
Qed.

Section claims.
Context {T : Type} `{Num T} (schema_digest : list Field → string).
Implicit Types (record : CkRecord T).

(** C37: validate_record returns exactly on certified records: every slice lies in its
    object and in a resident object of its snapshot, every byte of every object is
    covered, slices overlap only as copies of the same range, and copies carry
    equal hashes (with field schemas, all ends lie on element boundaries).  When it
    refuses for a lack of coverage, the ranges it names are exactly the bytes that
    no slice covers. *)
Theorem validate_record_decides record field_schemas :
  (validate_record schema_digest record field_schemas = Ok tt ↔ Certified schema_digest record field_schemas) ∧
  ∀ lid gaps, validate_record schema_digest record field_schemas = Err (Uncovered lid gaps) →
    ∃ spec, (lid, spec) ∈ cr_logical record ∧
      ∀ x, (∃ g, g ∈ gaps ∧ CkRecordOk.inside g x) ↔ 0 ≤ x < lo_bytes spec ∧ ¬ covered (entries_of record lid) x.
Proof.
  split; [apply validate_iff|]. intros lid gaps Hv. unfold validate_record in Hv.
  apply result_bind_err in Hv as [Hv|(? & _ & Hv)]; [by destruct (negb _)|].
  apply result_bind_err in Hv as [Hv|(? & _ & Hv)].
  { apply iterR_err in Hv as (p & _ & Hp). by destruct (negb _). }
  apply iterR_err in Hv as ([l spec] & Hin & Hp). unfold check_logical in Hp. cbv zeta in Hp.
  apply result_bind_err in Hp as [Hp|([] & Hshape & Hp)].
  { apply iterR_err in Hp as (e & _ & He). unfold check_entry_shape, raise_if in He. cbv zeta in He.
    do 3 (apply result_bind_err in He as [He|(? & _ & He)]; [by destruct (negb _)|]). destruct (py_index _ _ ≫= _) in He; [by destruct (negb _) in He|done]. }
  pose proof (slices_ranged _ _ _ (proj1 (check_shapes_ok record l (lo_bytes spec) tt) Hshape)) as Hr. apply result_bind_err in Hp as [Hp|(? & _ & Hp)].
  - unfold check_coverage, raise_if in Hp. destruct (nonempty_list _); [|done]. injection Hp as <- <-.
    exists spec. split; [done|]. by apply coverage_gaps_exact.
  - exfalso. apply result_bind_err in Hp as [Hp|(? & _ & Hp)].
    { apply iterR_err in Hp as (iv & _ & Hp). unfold check_interval in Hp. destruct (covering _ _); [done|].
      apply iterR_err in Hp as (o & _ & Hp). unfold raise_if in Hp. by destruct (negb _). }
    apply result_bind_err in Hp as [Hp|(? & _ & Hp)].
    { apply iterR_err in Hp as (tw & _ & Hp). unfold check_twins in Hp. destruct (tw.2); [done|].
      apply iterR_err in Hp as (o & _ & Hp). unfold raise_if in Hp. by destruct (negb _). }
    destruct (assoc_get field_schemas l) as [fields|]; [|done].
    apply result_bind_err in Hp as [Hp|(? & _ & Hp)]; [unfold check_digest, raise_if in Hp; by destruct (negb _)|].
    apply iterR_err in Hp as (e & _ & Hp).
    assert (∀ off, check_element_boundary l off fields ≠ Err (Uncovered lid gaps)) as Hb.
    { intros off. clear. induction fields as [|f fields IH]; [done|]. cbn [check_element_boundary].
      destruct (_ && _); [|done]. destruct (dtype_bytes _); [|done]. unfold raise_if. by destruct (negb _). }
    apply result_bind_err in Hp as [Hp|(? & _ & Hp)]; by apply Hb in Hp.
Qed.

(** ** Plans for all objects *)
Lemma all_plan record : NoDup (cr_logical record).*1 → Certified schema_digest record [] →
  ∃ steps, resolve_targets schema_digest record TargetAll true = Ok steps ∧ accepted steps ∧ NoDup (st_snapshot <$> steps) ∧
  (∀ lid spec x, (lid, spec) ∈ cr_logical record → 0 ≤ x < lo_bytes spec →
    ∃ e, e ∈ entries_of record lid ∧ CkRecordOk.inside (cs_object_range e) x ∧
      (∀ e', e' ∈ entries_of record lid → CkRecordOk.inside (cs_object_range e') x → cs_snapshot e ≤ cs_snapshot e') ∧
      sources steps lid x = [(cs_snapshot e, lid, lo_bytes spec, x)]) ∧
  ∀ lid x, (∀ spec, (lid, spec) ∈ cr_logical record → ¬ 0 ≤ x < lo_bytes spec) → sources steps lid x = [].
Proof.
  intros Hn Hc. set (ids := py_sorted String.leb (cr_logical record).*1).
  assert (∀ lid, lid ∈ ids ↔ lid ∈ (cr_logical record).*1) as Hids by (intros; apply elem_of_py_sorted).
  assert (NoDup ids) as Hnids by by unfold ids; rewrite <-py_sorted_perm.
  destruct (logical_plan_spec schema_digest record [] ids Hc Hnids) as (steps & Hp & Ha & Hns & Hs); [by intros ? ?%Hids|].
  assert (∀ lid spec, (lid, spec) ∈ cr_logical record → lid ∈ ids ∧ size_of record lid = lo_bytes spec) as Hin.
  { intros lid spec Hl. split; [apply Hids, list_elem_of_fmap; by exists (lid, spec)|].
    unfold size_of. by rewrite (elem_assoc_get _ _ spec). }
  exists steps. split_and!; [|done|done| |].
  - unfold resolve_targets. rewrite (proj2 (validate_iff schema_digest record []) Hc). exact Hp.
  - intros lid spec x Hl Hx. destruct (Hin lid spec Hl) as [Hl' Hz].
    destruct (logical_one record lid (lo_bytes spec) x (ce_objects _ _ _ Hc lid spec Hl) Hx) as (e & H1 & H2 & H3 & H4).
    exists e. split_and!; [done..|]. by rewrite Hs, plan_pieces_at, decide_True, Hz.
  - intros lid x Hno. rewrite Hs, plan_pieces_at by done. destruct (decide (lid ∈ ids)) as [Hl|]; [|done].
    apply Hids, list_elem_of_fmap in Hl as ([l spec] & -> & Hl). destruct (Hin l spec Hl) as [_ Hz]. simpl. rewrite Hz.
    apply (logical_outside record); [by apply (ce_objects _ _ _ Hc)|by apply Hno].
Qed.

(** Of a valid record the plan for all targets exists, the engine accepts each of
    its steps, and it fetches every byte of every logical object exactly once, from
    the least snapshot that holds it, into that byte of an object of the
    logical size, and fetches nothing else. *)
Theorem every_byte_fetched_once record :
  NoDup (cr_logical record).*1 → validate_record schema_digest record [] = Ok tt →
  ∃ steps, resolve_targets schema_digest record TargetAll true = Ok steps ∧ accepted steps ∧
  (∀ lid spec x, (lid, spec) ∈ cr_logical record → 0 ≤ x < lo_bytes spec →
    ∃ e, e ∈ entries_of record lid ∧ CkRecordOk.inside (cs_object_range e) x ∧
      (∀ e', e' ∈ entries_of record lid → CkRecordOk.inside (cs_object_range e') x → cs_snapshot e ≤ cs_snapshot e') ∧
      sources steps lid x = [(cs_snapshot e, lid, lo_bytes spec, x)]) ∧
  ∀ lid x, (∀ spec, (lid, spec) ∈ cr_logical record → ¬ 0 ≤ x < lo_bytes spec) → sources steps lid x = [].
Proof.
  intros Hn Hv. destruct (all_plan record Hn) as (steps & H1 & H2 & _ & H3 & H4); [by apply validate_iff|].
  by exists steps.
Qed.

(** ** With the engine's restore *)
Lemma sources_elem steps lid x o : o ∈ sources steps lid x ↔
  ∃ st w, st ∈ steps ∧ w ∈ default [] (assoc_get (st_remap st) lid) ∧ CkRecordOk.inside (wi_logical w) x ∧
    o = origin x (st_snapshot st) w.
Proof.
  unfold sources. rewrite list_elem_of_bind. setoid_rewrite list_elem_of_fmap. unfold windows_at.
  setoid_rewrite list_elem_of_filter. naive_solver.
Qed.

Section restored.
Context (record : CkRecord T) (steps : list Step).
Context (Hn : NoDup (cr_logical record).*1) (Hns : NoDup (st_snapshot <$> steps)).
Context (Hin : ∀ lid spec x, (lid, spec) ∈ cr_logical record → 0 ≤ x < lo_bytes spec →
    ∃ e, e ∈ entries_of record lid ∧ CkRecordOk.inside (cs_object_range e) x ∧
      (∀ e', e' ∈ entries_of record lid → CkRecordOk.inside (cs_object_range e') x → cs_snapshot e ≤ cs_snapshot e') ∧
      sources steps lid x = [(cs_snapshot e, lid, lo_bytes spec, x)]).
Context (Hout : ∀ lid x, (∀ spec, (lid, spec) ∈ cr_logical record → ¬ 0 ≤ x < lo_bytes spec) → sources steps lid x = []).

(** A window of a step that holds byte [x] of an object is the one of its source. *)
Lemma step_window st lid w x : st ∈ steps → w ∈ default [] (assoc_get (st_remap st) lid) → CkRecordOk.inside (wi_logical w) x →
  ∃ spec, (lid, spec) ∈ cr_logical record ∧ 0 ≤ x < lo_bytes spec ∧ wi_id w = lid ∧ wi_bytes w = lo_bytes spec ∧
    (wi_local w).1 + (x - (wi_logical w).1) = x ∧ sources steps lid x = [(st_snapshot st, lid, lo_bytes spec, x)].
Proof.
  intros Hst Hw Hx. assert (origin x (st_snapshot st) w ∈ sources steps lid x) as Ho by (apply sources_elem; eauto 10).
  destruct (assoc_get (cr_logical record) lid) as [spec|] eqn:Hg.
  - pose proof (assoc_get_elem _ _ _ Hg) as Hl. destruct (decide (0 ≤ x < lo_bytes spec)) as [Hr|Hr].
    + exists spec. destruct (Hin lid spec x Hl Hr) as (e & _ & _ & _ & He). rewrite He in Ho |- *.
      apply list_elem_of_singleton in Ho. unfold origin in Ho. injection Ho as -> -> -> ->. done.
    + rewrite Hout in Ho; [by apply elem_of_nil in Ho|]. intros spec' Hl'.
      apply (elem_assoc_get _ _ _ Hn) in Hl'. by simplify_eq.
  - rewrite Hout in Ho; [by apply elem_of_nil in Ho|]. intros spec' Hl'.
    apply (elem_assoc_get _ _ _ Hn) in Hl'. by simplify_eq.
Qed.

Lemma add_pieces_total (size : string → Z) (pcs : list (Piece (T := T))) :
  (∀ pc, pc ∈ pcs → pc_total pc = size (pl_target (pc_place pc))) →
  ∀ req, (∀ t v, assoc_get req t = Some v → v.1 = size t) → ∃ req', foldR add_piece req pcs = Ok req'.
Proof.
  induction pcs as [|pc pcs IH]; intros Hp req Hr; [by exists req|]. cbn [foldR].
  pose proof (Hp pc (list_elem_of_here _ _)) as Hpc. unfold add_piece at 2.
  destruct (assoc_get req (pl_target (pc_place pc))) as [[n meta]|] eqn:Hg.
  - pose proof (Hr _ _ Hg) as Hz. simpl in Hz. rewrite Hz, <-Hpc, Z.eqb_refl. cbn [negb raise_if mbind result_bind].
    apply IH; [|done]. intros pc' Hin'. by apply Hp, list_elem_of_further.
  - cbn [mbind result_bind]. apply IH; [intros pc' Hin'; by apply Hp, list_elem_of_further|].
    intros t v. destruct (decide (pl_target (pc_place pc) = t)) as [<-|Hne].
    + rewrite assoc_get_set. by intros [= <-].
    + rewrite assoc_get_set_ne by done. apply Hr.
Qed.

Lemma step_resolves st (es : list (Entry (T := T))) : st ∈ steps →
  ∃ ps req, resolve_placements es (Some (st_remap st)) = Ok (ps, req).
Proof.
  intros Hst. unfold resolve_placements. destruct (add_pieces_total (size_of record) (es ≫= pieces_of (Some (st_remap st)))) with (req := ([] : Required (T := T))) as [req Hreq]; [|done|].
  - intros pc (e & Hpc & _)%list_elem_of_bind. cbn [pieces_of] in Hpc. apply list_elem_of_omap in Hpc as (w & Hw & Hpc).
    unfold window_piece in Hpc. cbv zeta in Hpc. destruct (Z.leb_spec (Z.min (en_dst e).2 (wi_logical w).2) (Z.max (en_dst e).1 (wi_logical w).1)) as [|Hlt]; [done|].
    injection Hpc as <-. simpl. destruct (step_window st (en_logical_id e) w (Z.max (en_dst e).1 (wi_logical w).1)) as (spec & Hl & _ & -> & -> & _);
      [done|done|unfold CkRecordOk.inside; lia|]. unfold size_of. by rewrite (elem_assoc_get _ _ _ Hn Hl).
  - rewrite Hreq. simpl. eauto.
Qed.

Lemma step_places st (es : list (Entry (T := T))) ps req lid x off : st ∈ steps →
  resolve_placements es (Some (st_remap st)) = Ok (ps, req) →
  placed ps lid x off ↔ (∃ n, sources steps lid x = [(st_snapshot st, lid, n, x)]) ∧
    ∃ en, en ∈ es ∧ en_logical_id en = lid ∧ CkRecordOk.inside (en_dst en) x ∧ off = (en_payload en).1 + (x - (en_dst en).1).
Proof.
  intros Hst Hr. destruct (resolved_placed (st_remap st) es ps req lid x off Hr) as [-> _]. unfold windows. split.
  - intros (e & w & l & He & Hw & Hid & Hd & Hl & Hx & Ho).
    destruct (step_window st (en_logical_id e) w l Hst Hw Hl) as (spec & _ & _ & Hid' & _ & Hpos & Hs).
    assert (en_logical_id e = lid) as <- by congruence. assert (l = x) as -> by lia. eauto 10.
  - intros [[n Hs] (en & He & Hid & Hd & Ho)].
    assert ((st_snapshot st, lid, n, x) ∈ sources steps lid x) as Hin' by (rewrite Hs; apply list_elem_of_here).
    apply sources_elem in Hin' as (st' & w & Hst' & Hw & Hx & Heq). unfold origin in Heq. injection Heq as Hsn Hwid Hn' Hpos.
    assert (st' = st) as ->.
    { apply list_elem_of_lookup in Hst as [i Hi]. apply list_elem_of_lookup in Hst' as [j Hj].
      assert (i = j) as <-; [|congruence]. apply (NoDup_lookup _ _ _ (st_snapshot st) Hns); rewrite list_lookup_fmap;
        [by rewrite Hi|rewrite Hj; simpl; congruence]. }
    exists en, w, x. rewrite Hid. by split_and!.
Qed.
End restored.

(** C9: The composition with the engine's restore: given the slice lists of the
    snapshots, which hold each slice of the record at its range, every step of the
    plan of all targets is admitted, and of all the placements of all its steps
    exactly those of byte [x] of an object go to that byte of the object, in the
    one step of the least snapshot that covers it, and read the payload of
    a slice saved there where it keeps [x]. *)
Theorem restore_places_every_byte record (docs : Z → list (Entry (T := T))) :
  NoDup (cr_logical record).*1 → validate_record schema_digest record [] = Ok tt →
  (∀ lid e, e ∈ entries_of record lid →
    ∃ en, en ∈ docs (cs_snapshot e) ∧ en_logical_id en = lid ∧ en_dst en = cs_object_range e) →
  ∃ steps, resolve_targets schema_digest record TargetAll true = Ok steps ∧
  (∀ st, st ∈ steps → validate_remap [] (st_remap st) = Ok tt ∧
    ∃ ps req, resolve_placements (docs (st_snapshot st)) (Some (st_remap st)) = Ok (ps, req)) ∧
  ∀ lid spec x, (lid, spec) ∈ cr_logical record → 0 ≤ x < lo_bytes spec →
  ∃ e, e ∈ entries_of record lid ∧ CkRecordOk.inside (cs_object_range e) x ∧
    (∀ e', e' ∈ entries_of record lid → CkRecordOk.inside (cs_object_range e') x → cs_snapshot e ≤ cs_snapshot e') ∧
    (∃ st off ps req, st ∈ steps ∧ resolve_placements (docs (st_snapshot st)) (Some (st_remap st)) = Ok (ps, req) ∧ placed ps lid x off) ∧
    ∀ st ps req off, st ∈ steps → resolve_placements (docs (st_snapshot st)) (Some (st_remap st)) = Ok (ps, req) →
      placed ps lid x off → st_snapshot st = cs_snapshot e ∧
        ∃ en, en ∈ docs (cs_snapshot e) ∧ en_logical_id en = lid ∧ CkRecordOk.inside (en_dst en) x ∧
          off = (en_payload en).1 + (x - (en_dst en).1).
Proof.
  intros Hn Hv Hdocs. destruct (all_plan record Hn) as (steps & H1 & H2 & Hns & H3 & H4); [by apply validate_iff|].
  exists steps. split_and!; [done| |].
  - intros st Hst. split; [by apply H2|]. by apply (step_resolves record steps Hn H3 H4).
  - intros lid spec x Hl Hx. destruct (H3 lid spec x Hl Hx) as (e & He & Hex & Hmin & Hs). exists e. split_and!; [done..| |].
    + assert ((cs_snapshot e, lid, lo_bytes spec, x) ∈ sources steps lid x) as Ho by (rewrite Hs; apply list_elem_of_here).
      apply sources_elem in Ho as (st & w & Hst & Hw & _ & Heq). unfold origin in Heq. injection Heq as Hsn _ _ _.
      destruct (step_resolves record steps Hn H3 H4 st (docs (st_snapshot st)) Hst) as (ps & req & Hr).
      destruct (Hdocs lid e He) as (en & Hen & Hid & Hd). exists st, ((en_payload en).1 + (x - (en_dst en).1)), ps, req.
      split_and!; [done..|]. apply (step_places record steps Hn Hns H3 H4 st _ ps req lid x _ Hst Hr). split.
      * exists (lo_bytes spec). by rewrite Hs, Hsn.
      * exists en. rewrite <-Hsn, Hd. done.
    + intros st ps req off Hst Hr Hp. apply (step_places record steps Hn Hns H3 H4 st _ ps req lid x off Hst Hr) in Hp as [[n Hs'] Hen].
      rewrite Hs in Hs'. injection Hs' as Hsn _. split; [done|]. by rewrite Hsn.
Qed.
End claims.
