(* ===== verification/CkRank.v ===== *)
(** * The rank view of a checkpoint

    A plan for one source restores the source's own slices at the places they had
    in its own objects. *)
From S2P Require Import Prelude SimSchema CoreProgram CoreJson SvcSnapshot CkRecord CkRecordOk CkTargets CkTargetsOk.
From stdpp Require Import base tactics option list gmap strings sorting.
From Stdlib Require Import ZArith Lia.
Open Scope Z_scope.

Section rank.
Context {T : Type} `{Num T} (schema_digest : list Field → string) (record : CkRecord T) (key : string).
Notation lid := (resolve_lid record key).
Notation own := (own_snapshots record key).

(** The slices of a target that are in the source's snapshots, and where its byte
    [x] was in the source's object. *)
Definition own_entries (t : string) : list RecSlice := filter (λ e, cs_snapshot e ∈ own) (entries_of record (lid t)).
Definition resident (snap : Z) (t : string) : Z :=
  default 0 (py_index (cr_snapshots record) snap ≫= λ s, assoc_get (ss_objects s) t).
Definition home (t : string) (x : Z) (e : RecSlice) : Origin :=
  (cs_snapshot e, t, resident (cs_snapshot e) t, (cs_snapshot_range e).1 + (x - (cs_object_range e).1)).

(** The source holds bytes of the target, and its snapshots list the target
    under its own name. *)
Record Held (t : string) : Prop := {
  hd_known : lid t ∈ (cr_logical record).*1;
  hd_bytes : own_entries t ≠ [];
  hd_name : bare_id (lid t) = t;
}.

Definition home_piece (t : string) (e : RecSlice) : TargetPiece :=
  (cs_snapshot e, lid t, mkWindow (cs_object_range e) t (cs_snapshot_range e) (resident (cs_snapshot e) t)).
Definition home_pieces (t : string) : list TargetPiece := home_piece t <$> py_sorted entry_leb (own_entries t).

Lemma own_source snap : snap ∈ own ↔ ∃ s, 0 ≤ snap ∧ cr_snapshots record !! Z.to_nat snap = Some s ∧ ss_source s = key.
Proof.
  unfold own_snapshots. rewrite list_elem_of_fmap. setoid_rewrite list_elem_of_filter.
  setoid_rewrite elem_of_lookup_imap. split.
  - intros ([i s] & -> & Hk & j & s' & [= -> ->] & Hl). simpl in *. exists s'. rewrite Nat2Z.id. split_and!; [lia|done..].
  - intros (s & Hs & Hl & Hk). exists (Z.to_nat snap, s). simpl. split; [lia|]. split; [done|]. eauto.
Qed.

Lemma index_nonneg {A} (l : list A) i : 0 ≤ i → py_index l i = l !! Z.to_nat i.
Proof. intros Hi. unfold py_index. by rewrite !(proj2 (Z.ltb_ge _ _)) by (rewrite ?(proj2 (Z.ltb_ge _ _)) by done; done). Qed.

Context (Hc : Certified schema_digest record []).

Lemma own_slice t e : Held t → e ∈ own_entries t →
  ∃ spec, SliceOk record (lid t) (lo_bytes spec) e ∧ py_index (cr_snapshots record) (cs_snapshot e) ≫= (λ s, assoc_get (ss_objects s) t) = Some (resident (cs_snapshot e) t) ∧
  (cs_snapshot_range e).2 ≤ resident (cs_snapshot e) t.
Proof.
  intros [Hk _ Hn] [_ He]%list_elem_of_filter. apply list_elem_of_fmap in Hk as ([l spec] & Hl & Hin). simpl in Hl. subst l.
  exists spec. pose proof (oo_slices _ _ _ (ce_objects _ _ _ Hc _ _ Hin) e He) as Hs. split; [done|].
  destruct Hs as [_ _ _ (s & n & Hs & Hr & _ & Hle)]. rewrite Hn in Hr. unfold resident. rewrite Hs. simpl. by rewrite Hr.
Qed.

Lemma mapR_fmap {A B} (f : A → result CkError B) (g : A → B) l : (∀ a, a ∈ l → f a = Ok (g a)) → mapR f l = Ok (g <$> l).
Proof. intros Hf. apply mapR_ok, Forall2_fmap_r, Forall_Forall2_diag, Forall_forall. exact Hf. Qed.

Lemma keyed_pieces_ok t : Held t → keyed_pieces record key own t = Ok (home_pieces t).
Proof.
  intros Hh. unfold keyed_pieces. cbv zeta. destruct (Hh) as [Hk Hb _].
  destruct (assoc_get (cr_logical record) (lid t)) eqn:Hg; [|by apply assoc_get_none in Hg].
  rewrite (bool_decide_true (is_Some _)) by by eexists. cbn [negb raise_if mbind result_bind].
  fold (own_entries t). destruct (own_entries t) as [|e0 es0] eqn:Hes; [done|]. cbn [nonempty_list negb raise_if mbind result_bind].
  unfold home_pieces. rewrite Hes. apply mapR_fmap. intros e. rewrite elem_of_py_sorted, <-Hes. intros He.
  destruct (own_slice t e Hh He) as (spec & _ & Hr & _). unfold keyed_piece.
  destruct (py_index (cr_snapshots record) (cs_snapshot e)) as [s|]; [|done]. simpl in Hr. by rewrite Hr.
Qed.

Lemma home_straight t : Held t → Forall (λ p : TargetPiece, straight p.2) (home_pieces t).
Proof.
  intros Hh. apply Forall_fmap, Forall_forall. intros e. rewrite elem_of_py_sorted. intros He.
  destruct (own_slice t e Hh He) as (spec & [_ Hl Hr _] & _). unfold straight. simpl. lia.
Qed.

Lemma home_at t x : Permutation (pieces_at (lid t) x (home_pieces t))
  (home t x <$> filter (λ e, inside (cs_object_range e) x) (own_entries t)).
Proof.
  assert (∀ es, pieces_at (lid t) x (home_piece t <$> es) = home t x <$> filter (λ e, inside (cs_object_range e) x) es) as Heq.
  { intros es. unfold pieces_at. induction es as [|e es IH]; [done|]. rewrite fmap_cons. cbn [omap list_omap].
    unfold piece_origin at 1, home_piece at 1. cbn [fst snd wi_logical]. destruct (decide (inside (cs_object_range e) x)).
    - rewrite decide_True by done. rewrite filter_cons_True, fmap_cons by done. by f_equal.
    - rewrite decide_False by tauto. by rewrite filter_cons_False. }
  unfold home_pieces. rewrite Heq. by rewrite <-py_sorted_perm.
Qed.

(** What looks at the pieces of one logical object sees those of its target. *)
Lemma omap_other {B} (f : TargetPiece → option B) l t : (∀ p : TargetPiece, p.1.2 ≠ l → f p = None) → lid t ≠ l → omap f (home_pieces t) = [].
Proof.
  intros Hf Hne. unfold home_pieces. induction (py_sorted entry_leb (own_entries t)) as [|e es IH]; [done|].
  rewrite fmap_cons. cbn [omap list_omap]. by rewrite Hf.
Qed.

Lemma homes_omap {B} (f : TargetPiece → option B) l ids : (∀ p : TargetPiece, p.1.2 ≠ l → f p = None) → NoDup (lid <$> ids) →
  (∀ t, t ∈ ids → l = lid t → omap f (ids ≫= home_pieces) = omap f (home_pieces t)) ∧
  ((∀ t, t ∈ ids → l ≠ lid t) → omap f (ids ≫= home_pieces) = []).
Proof.
  intros Hf. induction ids as [|t ids IH]; intros Hn.
  { split; [by intros t ?%elem_of_nil|done]. }
  rewrite fmap_cons in Hn. apply NoDup_cons in Hn as [Ht Hn]. destruct (IH Hn) as [IH1 IH2].
  rewrite bind_cons, omap_app. split.
  - intros t' [->|Ht']%elem_of_cons ->.
    + rewrite IH2, app_nil_r; [done|]. intros t' Ht' Heq. apply Ht. rewrite Heq. by apply list_elem_of_fmap_2.
    + rewrite (IH1 t' Ht' eq_refl), (omap_other f (lid t') t Hf); [done|]. intros Heq. apply Ht. rewrite Heq. by apply list_elem_of_fmap_2.
  - intros Hno. rewrite IH2, (omap_other f l t Hf); [done| |].
    + intros Heq. apply (Hno t); [apply list_elem_of_here|done].
    + intros t' Ht'. apply Hno. by apply list_elem_of_further.
Qed.

Lemma origin_of_other l x (p : TargetPiece) : p.1.2 ≠ l → piece_origin l x p = None.
Proof. destruct p as [[snap l'] w]. simpl. intros Hne. by rewrite decide_False by tauto. Qed.
Lemma window_of_other snap l (p : TargetPiece) : p.1.2 ≠ l → window_of_piece snap l p = None.
Proof. destruct p as [[s l'] w]. simpl. intros Hne. by rewrite decide_False by tauto. Qed.

(** Slices of a source that are not two copies in one snapshot. *)
Definition no_twins (t : string) : Prop := NoDup ((λ e, (cs_snapshot e, cs_object_range e)) <$> own_entries t).

Lemma home_windows t snap : Held t → no_twins t →
  Forall (proper (resident snap)) (windows_of (home_pieces t) snap (lid t)) ∧
  StronglySorted apart (windows_of (home_pieces t) snap (lid t)).
Proof.
  intros Hh Hn. unfold home_pieces, no_twins in *.
  assert (∀ es, NoDup ((λ e, (cs_snapshot e, cs_object_range e)) <$> es) → (∀ e, e ∈ es → e ∈ own_entries t) →
    Forall (proper (resident snap)) (windows_of (home_piece t <$> es) snap (lid t)) ∧
    StronglySorted apart (windows_of (home_piece t <$> es) snap (lid t))) as Hgen.
  2: { apply Hgen; [by rewrite <-py_sorted_perm|]. intros e. by rewrite elem_of_py_sorted. }
  clear Hn. induction es as [|e es IH]; intros Hn He; [split; constructor|]. rewrite fmap_cons in Hn.
  apply NoDup_cons in Hn as [Hne Hn]. destruct (IH Hn) as [IH1 IH2]; [intros; by apply He, list_elem_of_further|].
  unfold windows_of in *. rewrite fmap_cons. cbn [omap list_omap].
  assert (∀ e, window_of_piece snap (lid t) (home_piece t e) =
    if decide (cs_snapshot e = snap) then Some (home_piece t e).2 else None) as Hwp.
  { intros e1. unfold home_piece. simpl. destruct (decide (cs_snapshot e1 = snap)); [by rewrite decide_True|by rewrite decide_False by tauto]. }
  rewrite Hwp. destruct (decide (cs_snapshot e = snap)) as [Hs|]; [|by split].
  pose proof (He e (list_elem_of_here _ _)) as Hoe. destruct (own_slice t e Hh Hoe) as (spec & [_ Hl Hr (s & n & _ & _ & Hr1 & Hr2)] & _ & Hle). split.
  - constructor; [|done]. unfold proper, straight. simpl. rewrite Hs in *. split_and!; [lia..|done].
  - constructor; [done|]. apply Forall_forall. intros w Hw. apply list_elem_of_omap in Hw as (p & Hp & Hw).
    apply list_elem_of_fmap in Hp as (e' & -> & He'). rewrite Hwp in Hw. case_decide as Hd; [|done]. injection Hw as <-.
    assert (e' ∈ own_entries t) as Hoe' by (by apply He, list_elem_of_further).
    destruct (own_slice t e' Hh Hoe') as (spec' & [_ _ Hr' _] & _). unfold apart, after. simpl.
    destruct (Z.le_gt_cases (cs_object_range e).2 (cs_object_range e').1) as [?|H1]; [by left|].
    destruct (Z.le_gt_cases (cs_object_range e').2 (cs_object_range e).1) as [?|H2]; [by right|]. exfalso.
    apply Hne, list_elem_of_fmap. exists e'. split; [|done]. f_equal; [congruence|].
    apply list_elem_of_filter in Hoe as [_ Hoe], Hoe' as [_ Hoe'].
    assert (∃ sp, (lid t, sp) ∈ cr_logical record) as [sp Hsp].
    { pose proof (hd_known _ Hh) as Hk. apply list_elem_of_fmap in Hk as ([l sp] & Hl' & Hk). simpl in Hl'. subst l. eauto. }
    apply (oo_overlap _ _ _ (ce_objects _ _ _ Hc _ _ Hsp) e e' (Z.max (cs_object_range e).1 (cs_object_range e').1) Hoe Hoe');
      unfold inside; lia.
Qed.

(** The plan of a source, step by step. *)
Lemma rank_plan ids : own ≠ [] → (∀ t, t ∈ ids → Held t) →
  ∃ steps, resolve_targets schema_digest record (TargetKeyed [(key, WantIds ids)]) true = Ok steps ∧
    merge_steps record (ids ≫= home_pieces) = Ok steps.
Proof.
  intros Ho Hh. destruct (merge_total record (ids ≫= home_pieces)) as [steps Hm].
  { intros p (t & Hp & Ht)%list_elem_of_bind. apply list_elem_of_fmap in Hp as (e & -> & He). rewrite elem_of_py_sorted in He.
    destruct (own_slice t e (Hh t Ht) He) as (spec & [_ _ _ (s & n & Hs & _)] & _). by exists s. }
  exists steps. split; [|done]. unfold resolve_targets. rewrite (proj2 (validate_iff schema_digest record []) Hc).
  cbn [mbind result_bind mapR]. unfold keyed_plan. cbn [target_ids fst snd mbind result_bind].
  destruct own eqn:Heq; [done|]. cbn [nonempty_list negb raise_if mbind result_bind]. rewrite <-Heq.
  rewrite (mapR_fmap _ home_pieces) by (intros t Ht; by apply keyed_pieces_ok, Hh).
  cbn [mbind result_bind concat]. by rewrite app_nil_r, concat_fmap.
Qed.

End rank.

(** C38: The rank view: the plan of one source for targets it holds exists, reads the
    source's own snapshots only, and brings byte [x] of a target's logical object
    back exactly from the source's slices that cover it, each to the place it had
    in the source's own object, which is created under the bare name at its
    recorded size; the engine accepts the steps unless a snapshot has one range
    twice. *)
Theorem rank_view_restores {T : Type} `{Num T} (schema_digest : list Field → string) (record : CkRecord T) key ids :
  validate_record schema_digest record [] = Ok tt → own_snapshots record key ≠ [] →
  NoDup (resolve_lid record key <$> ids) → (∀ t, t ∈ ids → Held record key t) →
  ∃ steps, resolve_targets schema_digest record (TargetKeyed [(key, WantIds ids)]) true = Ok steps ∧
  (∀ st, st ∈ steps → ∃ s, py_index (cr_snapshots record) (st_snapshot st) = Some s ∧ ss_source s = key ∧ st_path st = ss_path s) ∧
  (∀ t x, t ∈ ids → Permutation (sources steps (resolve_lid record key t) x)
    (home record t x <$> filter (λ e, inside (cs_object_range e) x) (own_entries record key t))) ∧
  (∀ l x, (∀ t, t ∈ ids → l ≠ resolve_lid record key t) → sources steps l x = []) ∧
  ((∀ t, t ∈ ids → no_twins record key t) → accepted steps).
Proof.
  intros Hv Ho Hn Hh. pose proof (proj1 (validate_iff schema_digest record []) Hv) as Hc.
  destruct (rank_plan schema_digest record key Hc ids Ho Hh) as (steps & Hr & Hm). exists steps.
  assert (Forall (λ p : TargetPiece, straight p.2) (ids ≫= home_pieces record key)) as Hst.
  { apply Forall_forall. intros p (t & Hp & Ht)%list_elem_of_bind.
    pose proof (home_straight schema_digest record key Hc t (Hh t Ht)) as Hs. rewrite Forall_forall in Hs. by apply Hs. }
  split_and!; [done| | | |].
  - intros st Hin. destruct (proj2 (merge_snapshots record _ _ Hm) st Hin) as (p & Hp & Hps).
    apply list_elem_of_bind in Hp as (t & Hp & Ht). apply list_elem_of_fmap in Hp as (e & -> & He).
    rewrite elem_of_py_sorted in He. apply list_elem_of_filter in He as [Hown _].
    apply own_source in Hown as (s & Hs0 & Hs & Hk). unfold piece_snap in Hps. simpl in Hps. exists s.
    assert (py_index (cr_snapshots record) (st_snapshot st) = Some s) as Hidx by by rewrite <-Hps, index_nonneg.
    split_and!; [done..|]. unfold merge_steps in Hm. apply mapR_ok in Hm. apply list_elem_of_lookup in Hin as [i Hi].
    destruct (Forall2_lookup_r _ _ _ _ _ Hm Hi) as (snap & _ & Hstep).
    destruct (step_of_spec _ _ _ _ Hstep) as (Hsn & (s' & Hs' & Hpath) & _). rewrite Hsn in Hidx. congruence.
  - intros t x Ht. rewrite (merge_sources record _ _ _ x Hst Hm).
    destruct (homes_omap record key (piece_origin (resolve_lid record key t) x) _ ids (origin_of_other _ _) Hn) as [H1 _].
    unfold pieces_at. rewrite (H1 t Ht eq_refl). apply home_at.
  - intros l x Hno. pose proof (merge_sources record _ _ l x Hst Hm) as Hp.
    destruct (homes_omap record key (piece_origin l x) _ ids (origin_of_other _ _) Hn) as [_ H2].
    unfold pieces_at in Hp. rewrite (H2 Hno) in Hp. by apply Permutation_nil_r in Hp.
  - intros Htw st Hin. apply (merge_accepted record (resident record) (ids ≫= home_pieces record key) steps); [|done|done].
    intros snap l. destruct (homes_omap record key (window_of_piece snap l) _ ids (window_of_other _ _) Hn) as [H1 H2].
    unfold windows_of. destruct (decide (l ∈ (resolve_lid record key <$> ids))) as [(t & -> & Ht)%list_elem_of_fmap|Hl].
    + rewrite (H1 t Ht eq_refl). by apply (home_windows schema_digest record key Hc t snap (Hh t Ht) (Htw t Ht)).
    + rewrite H2; [split; constructor|]. intros t Ht ->. apply Hl. by apply list_elem_of_fmap_2.
Qed.
