(* ===== verification/CkCompose.v ===== *)
(** * The checkpoint composer ([dataflow/checkpoint/compose.py]) and the record file

    The sources' engines are arguments: what their clients' calls answer, and do to a
    world of their own.  A record file holds its document; the text of JSON and
    the paths of directories are not modelled. *)
From S2P Require Import Prelude SimSchema CoreProgram CoreJson SvcSnapshot CkRecord CkRecordOk.
From stdpp Require Import base tactics option list gmap strings sorting.
From Stdlib Require Import ZArith Lia.
Open Scope Z_scope.

(** [l.append(f(x))] in a loop whose body may raise. *)
Fixpoint collectM {S E A B} (l : list A) (f : A → M S E B) : M S E (list B) :=
  match l with
  | [] => mret []
  | x :: l => y ← f x; ys ← collectM l f; mret (y :: ys)
  end.

Section Compose.
Context {T : Type} `{Num T} (schema_digest : list Field → string).
Notation jdict := (jdict (T := T)).

(** A slice as the policy compiler emits it, without its hash. *)
Record RecordEntry := mkEntry { re_logical : string; re_snapshot_range : Z * Z; re_object_range : Z * Z }.
Record Source := mkSrc {
  src_path : string;
  src_slices : list SliceSpec;
  src_record : list RecordEntry;
  src_objects : list (string * Z);
  src_meta : jdict;
}.
(** The reply of [snapshot_status]: per slice its logical id, range and hash. *)
Record Status := mkStatus { stt_state : string; stt_slices : list (string * (Z * Z) * string) }.

(** What the composer is given besides the sources. *)
Record Header := mkHeader {
  hd_step : Z; hd_seed : Z; hd_logical : list (string * LogicalObject); hd_scheme : jdict;
  hd_payload : jdict; hd_summary : jdict; hd_launch : jdict; hd_fields : list (string * list Field);
}.

(** ** The record file *)
Definition Records : Type := list (string * CkRecord T).

Definition write_record (dest : string) (doc : CkRecord T) (fields : list (string * list Field)) :
    M Records CkError (CkRecord T) :=
  lift (validate_record schema_digest doc fields) ;;
  modify (λ d, assoc_set d dest doc) ;;
  mret doc.

Definition read_record (dest : string) (d : Records) : result CkError (CkRecord T) :=
  match assoc_get d dest with
  | None => Err Incomplete
  | Some doc =>
      raise_if (negb (String.eqb (cr_schema doc) RECORD_SCHEMA)) SchemaSkew ;;
      validate_record schema_digest doc [] ;;
      Ok doc
  end.

(** ** Composition *)
Definition hash_by_span (s : Status) : list ((string * (Z * Z)) * string) :=
  foldl (λ d x, assoc_set d x.1 x.2) [] (stt_slices s).

(** The entries of one source: [slices.setdefault(...).append(...)]. *)
Fixpoint add_entries (key : string) (order : Z) (hashes : list ((string * (Z * Z)) * string))
    (slices : list (string * list RecSlice)) (es : list RecordEntry) : result CkError (list (string * list RecSlice)) :=
  match es with
  | [] => Ok slices
  | e :: es =>
      match assoc_get hashes (re_logical e, re_object_range e) with
      | None => Err (NoHash key (re_logical e) (re_object_range e))
      | Some h =>
          let slice := mkRecSlice order (re_snapshot_range e) (re_object_range e) (Some h) in
          add_entries key order hashes
            (assoc_set slices (re_logical e) (default [] (assoc_get slices (re_logical e)) ++ [slice])) es
      end
  end.

Definition all_slices (statuses : list ((string * Source) * Status)) : result CkError (list (string * list RecSlice)) :=
  foldR (λ slices p, let '(order, (src, status)) := p in
           add_entries src.1 (Z.of_nat order) (hash_by_span status) slices (src_record src.2))
    [] (imap pair statuses).

Definition check_replication_drift (slices : list (string * list RecSlice)) : result CkError unit :=
  iterR (λ p : string * list RecSlice, check_replica_hashes p.1 p.2) slices.

Context {W : Type}.
Context (client_snapshot : string → string → list SliceSpec → jdict → M W CkError string).
Context (client_wait : string → string → M W CkError Status).
Context (client_spec : string → M W CkError (json T)).

Definition on_world {A} (m : M W CkError A) : M (W * Records) CkError A := λ s,
  let '(r, w) := m s.1 in (r, (w, s.2)).
Definition on_records {A} (m : M Records CkError A) : M (W * Records) CkError A := λ s,
  let '(r, d) := m s.2 in (r, (s.1, d)).

Definition wait_done (p : (string * Source) * string) : M (W * Records) CkError ((string * Source) * Status) :=
  s ← on_world (client_wait p.1.1 p.2);
  check (String.eqb (stt_state s) "done") (SnapshotFailed p.1.1) ;;
  mret (p.1, s).

Definition source_leb (a b : string * Source) : bool := String.leb a.1 b.1.

Definition save_checkpoint (sources : list (string * Source)) (dest : string) (h : Header) (now : T) :
    M (W * Records) CkError (CkRecord T) :=
  let ordered := py_sorted source_leb sources in
  receipts ← collectM ordered (λ p,
    id ← on_world (client_snapshot p.1 (dest +:+ "/" +:+ src_path p.2) (src_slices p.2) (src_meta p.2));
    mret (p, id));
  statuses ← collectM receipts wait_done;
  let snapshots := (λ p : string * Source, mkSource (src_path p.2) p.1 (src_objects p.2)) <$> ordered in
  slices ← lift (all_slices statuses);
  lift (check_replication_drift slices) ;;
  specs ← collectM ordered (λ p, j ← on_world (client_spec p.1); mret (p.1, j));
  on_records (write_record dest
    (mkCkRecord T _ RECORD_SCHEMA (hd_step h) (hd_seed h) now (hd_scheme h) (hd_logical h) snapshots slices
       specs (hd_launch h) (hd_payload h) (hd_summary h)) (hd_fields h)).
End Compose.
