(* ===== verification/CkComposeOk.v ===== *)
(** * Complete or absent

    What a composed record holds, and what a failed composition leaves. *)
From S2P Require Import Prelude SimSchema CoreProgram CoreJson SvcSnapshot CkRecord CkRecordOk CkCompose.
From stdpp Require Import base tactics option list gmap strings sorting.
From Stdlib Require Import ZArith Lia.
Open Scope Z_scope.

Section compose.
Context {T : Type} `{Num T} (schema_digest : list Field → string).

(** A record entry with the hash its source reported. *)
Definition hashed (order : Z) (hashes : list ((string * (Z * Z)) * string)) (e : RecordEntry) : RecSlice :=
  mkRecSlice order (re_snapshot_range e) (re_object_range e) (assoc_get hashes (re_logical e, re_object_range e)).
Definition of_logical (lid : string) (es : list RecordEntry) : list RecordEntry := filter (λ e, re_logical e = lid) es.

Lemma add_entries_spec key order hashes es : ∀ slices slices', add_entries key order hashes slices es = Ok slices' →
  Forall (λ e, is_Some (assoc_get hashes (re_logical e, re_object_range e))) es ∧
  ∀ lid, default [] (assoc_get slices' lid) = default [] (assoc_get slices lid) ++ (hashed order hashes <$> of_logical lid es).
Proof.
  induction es as [|e es IH]; intros slices slices'; cbn [add_entries].
  { intros [= <-]. split; [constructor|]. intros lid. by rewrite app_nil_r. }
  destruct (assoc_get hashes (re_logical e, re_object_range e)) as [h|] eqn:Hh; [|done]. intros Ha.
  destruct (IH _ _ Ha) as [H1 H2]. split; [constructor; [by eexists|done]|]. intros lid. rewrite H2. unfold of_logical.
  rewrite filter_cons. destruct (decide (re_logical e = lid)) as [<-|Hne].
  - rewrite assoc_get_set, fmap_cons. simpl. rewrite <-(assoc (++)). do 2 f_equal. unfold hashed. by rewrite Hh.
  - by rewrite assoc_get_set_ne.
Qed.

(** The slices of a logical object, source by source. *)
Definition reported (statuses : list ((string * Source (T := T)) * Status)) (lid : string) : list RecSlice :=
  imap pair statuses ≫= λ p, hashed (Z.of_nat p.1) (hash_by_span p.2.2) <$> of_logical lid (src_record p.2.1.2).

Lemma all_slices_spec statuses slices : all_slices statuses = Ok slices →
  Forall (λ p, Forall (λ e, is_Some (assoc_get (hash_by_span p.2) (re_logical e, re_object_range e))) (src_record p.1.2)) statuses ∧
  ∀ lid, default [] (assoc_get slices lid) = reported statuses lid.
Proof.
  unfold all_slices, reported.
  assert (∀ l slices slices', foldR (λ slices (p : nat * ((string * Source (T := T)) * Status)), let '(order, (src, status)) := p in
      add_entries src.1 (Z.of_nat order) (hash_by_span status) slices (src_record src.2)) slices l = Ok slices' →
    Forall (λ p, Forall (λ e, is_Some (assoc_get (hash_by_span p.2.2) (re_logical e, re_object_range e))) (src_record p.2.1.2)) l ∧
    ∀ lid, default [] (assoc_get slices' lid) = default [] (assoc_get slices lid) ++
      (l ≫= λ p, hashed (Z.of_nat p.1) (hash_by_span p.2.2) <$> of_logical lid (src_record p.2.1.2))) as Hgen.
  { clear. induction l as [|[order [src st]] l IH]; intros slices slices'; cbn [foldR].
    { intros [= <-]. split; [constructor|]. intros lid. simpl. by rewrite app_nil_r. }
    intros (s1 & Ha & Hl)%result_bind_ok. apply add_entries_spec in Ha as [A1 A2]. destruct (IH _ _ Hl) as [B1 B2].
    split; [by constructor|]. intros lid. rewrite B2, A2, bind_cons. simpl. by rewrite <-(assoc (++)). }
  intros Ha. destruct (Hgen _ _ _ Ha) as [H1 H2]. split; [|exact H2].
  apply Forall_forall. intros p (i & Hi)%list_elem_of_lookup.
  apply (proj1 (Forall_forall _ _) H1 (i, p)). apply elem_of_lookup_imap. eauto.
Qed.

Lemma certified_weaken (r : CkRecord T) fs : Certified schema_digest r fs → Certified schema_digest r [].
Proof. intros [H1 H2 H3 _]. by split. Qed.

Lemma triple_collect {S E A B} (I : S → Prop) (P : A → B → Prop) (f : A → M S E B) l :
  (∀ x, triple I (f x) (λ y s, I s ∧ P x y) (λ _, I)) →
  triple I (collectM l f) (λ ys s, I s ∧ Forall2 P l ys) (λ _, I).
Proof.
  intros Hf. induction l as [|x l IH]; cbn [collectM]; [by intros s Hs|].
  eapply triple_bind; [apply Hf|]. intros y. eapply (triple_bind _ _ _ (λ ys s, (I s ∧ P x y) ∧ Forall2 P l ys)).
  - intros s [Hs Hp]. specialize (IH s Hs). unfold wp in *. destruct (collectM l f s) as [[ys|e] s']; [|done]. by destruct IH.
  - intros ys s [[Hs Hp] Hys]. split; [done|by constructor].
Qed.

Lemma triple_lift {S E A} (I : S → Prop) (r : result E A) : triple I (lift r) (λ a s, I s ∧ r = Ok a) (λ _, I).
Proof. intros s Hs. unfold wp, lift. by destruct r. Qed.

Lemma triple_pure {S E A} (I : S → Prop) (φ : Prop) (m : M S E A) Q R :
  (φ → triple I m Q R) → triple (λ s, I s ∧ φ) m Q R.
Proof. intros Hm s [Hs Hp]. by apply Hm. Qed.

Context {W : Type}.
Context (client_snapshot : string → string → list SliceSpec → jdict (T := T) → M W CkError string).
Context (client_wait : string → string → M W CkError Status).
Context (client_spec : string → M W CkError (json T)).

Lemma triple_world {A} (m : M W CkError A) d :
  triple (λ s : W * Records (T := T), s.2 = d) (on_world m) (λ _ s, s.2 = d) (λ _ s, s.2 = d).
Proof. intros [w d'] Hd. unfold wp, on_world. simpl in *. by destruct (m w) as [[?|?] ?]. Qed.

Lemma triple_wait p d : triple (λ s : W * Records (T := T), s.2 = d) (wait_done client_wait p)
  (λ q s, s.2 = d ∧ q.1 = p.1 ∧ stt_state q.2 = "done"%string) (λ _ s, s.2 = d).
Proof.
  eapply triple_bind; [apply triple_world|]. intros st s Hs. unfold wp, check.
  destruct (String.eqb_spec (stt_state st) "done"); [|done]. by split.
Qed.

(** C10: Complete or absent: when the composition returns, every source's snapshot was
    reported done, the record at the destination is the returned one, reads back as
    such, is certified, and lists for each logical object exactly the sources'
    entries, in the order of the source keys, with the hashes the sources
    reported; when it raises, whatever fails, no record has been written. *)
Theorem checkpoint_complete_or_absent sources dest h now (w : W) (d : Records (T := T)) :
  let '(res, (_, d')) := save_checkpoint schema_digest client_snapshot client_wait client_spec sources dest h now (w, d) in
  match res with
  | Ok doc =>
      d' = assoc_set d dest doc ∧ read_record schema_digest dest d' = Ok doc ∧ Certified schema_digest doc (hd_fields h) ∧
      cr_logical doc = hd_logical h ∧
      ∃ statuses, statuses.*1 = py_sorted source_leb sources ∧ Forall (λ p, stt_state p.2 = "done"%string) statuses ∧
        (cr_snapshots doc = (λ p, mkSource (src_path p.2) p.1 (src_objects p.2)) <$> statuses.*1) ∧
        ∀ lid, entries_of doc lid = reported statuses lid
  | Err _ => d' = d
  end.
Proof.
  assert (triple (λ s : W * Records, s.2 = d) (save_checkpoint schema_digest client_snapshot client_wait client_spec sources dest h now)
    (λ doc s, s.2 = assoc_set d dest doc ∧ Certified schema_digest doc (hd_fields h) ∧ cr_logical doc = hd_logical h ∧
      ∃ statuses, statuses.*1 = py_sorted source_leb sources ∧ Forall (λ p, stt_state p.2 = "done"%string) statuses ∧
        (cr_snapshots doc = (λ p, mkSource (src_path p.2) p.1 (src_objects p.2)) <$> statuses.*1) ∧
        ∀ lid, entries_of doc lid = reported statuses lid) (λ _ s, s.2 = d)) as Ht.
  { unfold save_checkpoint. cbv zeta. eapply triple_bind.
    { apply (triple_collect _ (λ p q, q.1 = p)). intros p. eapply triple_bind; [apply triple_world|]. by intros id s Hs. }
    intros receipts. apply triple_pure. intros Hr. eapply triple_bind.
    { apply (triple_collect _ (λ p q, q.1 = p.1 ∧ stt_state q.2 = "done"%string)). intros p. apply triple_wait. }
    intros statuses. apply triple_pure. intros Hst. eapply triple_bind; [apply triple_lift|].
    intros slices. apply triple_pure. intros Hsl. eapply triple_bind; [apply triple_lift|].
    intros u. apply triple_pure. intros _. eapply triple_bind.
    { apply (triple_collect _ (λ _ _, True)). intros p. eapply triple_bind; [apply triple_world|]. by intros j s Hs. }
    intros specs. apply triple_pure. intros _ [w1 d1] Hd. simpl in Hd. subst d1.
    unfold wp, on_records, write_record, lift, mbind, M_bind. cbn [fst snd]. set (doc := mkCkRecord _ _ _ _ _ _ _ _ _ _ _ _ _ _).
    destruct (validate_record schema_digest doc (hd_fields h)) as [[]|e] eqn:Hv; [|done]. simpl.
    split_and!; [done|by apply validate_iff|done|]. exists statuses.
    assert (receipts.*1 = py_sorted source_leb sources) as <-.
    { clear -Hr. induction Hr as [|p q l l' Hq Hr IH]; [done|]. by rewrite fmap_cons, Hq, IH. }
    assert (statuses.*1 = receipts.*1 ∧ Forall (λ p, stt_state p.2 = "done"%string) statuses) as [-> Hdone].
    { clear -Hst. induction Hst as [|p q l l' [Hq Hd] Hst [IH1 IH2]]; [by split; [|constructor]|].
      rewrite !fmap_cons, Hq, IH1. by split; [|constructor]. }
    split_and!; [done..|]. intros lid. apply all_slices_spec in Hsl as [_ Hsl]. exact (Hsl lid). }
  specialize (Ht (w, d) eq_refl). unfold wp in Ht. destruct (save_checkpoint _ _ _ _ _ _ _ _ _) as [[doc|e] [w' d']]; [|done].
  cbn [snd] in Ht. destruct Ht as (-> & Hc & Hrest). split_and!; [done| |done|apply Hrest..].
  unfold read_record. rewrite assoc_get_set, (ce_schema _ _ _ Hc). simpl.
  by rewrite (proj2 (validate_iff schema_digest doc []) (certified_weaken _ _ Hc)).
Qed.
End compose.
