(* ===== verification/CkExamples.v ===== *)
(** * Checkpoints at work

    A record of two sources, its plans and restores, and a composition of it. *)
From S2P Require Import Prelude SimSchema CoreProgram CoreJson SvcStore SvcSnapshot SvcSnapshotRun CkRecord CkRecordOk CkTargets CkTargetsOk CkRestore CkRank CkCompose CkComposeOk.
From stdpp Require Import base tactics option list gmap strings sorting.
From Stdlib Require Import ZArith Lia.
Open Scope string_scope.
Open Scope Z_scope.

Definition no_digest : list Field → string := λ _, "".

(** Object [A] is split over two sources, [B] is replicated on both. *)
Definition slices_a : list RecSlice :=
  [mkRecSlice 0 (0, 6) (0, 6) (Some "h0"); mkRecSlice 1 (2, 4) (6, 8) (Some "h1")].
Definition slices_b : list RecSlice :=
  [mkRecSlice 1 (0, 4) (0, 4) (Some "hb"); mkRecSlice 0 (0, 4) (0, 4) (Some "hb")].
Definition two_sources : list SourceSnapshot :=
  [mkSource "r0" "0" [("A", 6); ("B", 4)]; mkSource "r1" "1" [("A", 4); ("B", 4)]].
Definition record_of (slices : list (string * list RecSlice)) : CkRecord Z :=
  mkCkRecord Z _ RECORD_SCHEMA 1 0 0 [] [("A", mkLogical 8 None); ("B", mkLogical 4 None)] two_sources slices [] [] [] [].
Definition whole_record := record_of [("A", slices_a); ("B", slices_b)].

Lemma whole_valid : validate_record no_digest whole_record [] = Ok tt.
Proof. reflexivity. Qed.
Lemma whole_keys : NoDup (cr_logical whole_record).*1.
Proof. by apply (bool_decide_unpack _). Qed.

(** A record that lacks the last two bytes of [A]. *)
Definition short_record := record_of [("A", [mkRecSlice 0 (0, 6) (0, 6) (Some "h0")]); ("B", slices_b)].
Lemma validate_record_decides_witness :
  validate_record no_digest short_record [] = Err (Uncovered "A" [(6, 8)]) ∧
  ∃ spec, ("A", spec) ∈ cr_logical short_record ∧
    ∀ x, (∃ g, g ∈ [(6, 8)] ∧ CkRecordOk.inside g x) ↔ 0 ≤ x < lo_bytes spec ∧ ¬ covered (entries_of short_record "A") x.
Proof. split; [reflexivity|]. by apply (validate_record_decides no_digest short_record []). Defined.

Lemma every_byte_fetched_once_witness :
  ∃ steps, resolve_targets no_digest whole_record TargetAll true = Ok steps ∧
    sources steps "A" 7 = [(1, "A", 8, 7)] ∧ sources steps "B" 3 = [(0, "B", 4, 3)].
Proof.
  destruct (every_byte_fetched_once no_digest whole_record whole_keys whole_valid) as (steps & Hr & _ & Hs & _).
  exists steps. split; [exact Hr|]. split.
  - destruct (Hs "A" (mkLogical 8 None) 7) as (e & He & Hx & _ & ->); [by left|done|].
    apply elem_of_cons in He as [-> | ->%list_elem_of_singleton]; [by destruct Hx|done].
  - destruct (Hs "B" (mkLogical 4 None) 3) as (e & He & Hx & Hmin & ->); [by right; left|done|].
    specialize (Hmin (mkRecSlice 0 (0, 4) (0, 4) (Some "hb"))). cbn in Hmin.
    apply elem_of_cons in He as [-> | ->%list_elem_of_singleton]; [|done]. exfalso.
    cut ((1 ≤ 0)%Z); [by intros []|]. apply Hmin; [by right; left|done].
Defined.

(** The snapshots' documents: each slice saved at its range. *)
Definition saved_slice (lid : string) (payload : Z) (e : RecSlice) : Entry (T := Z) :=
  SvcSnapshot.mkEntry lid 8 [] false (cs_snapshot_range e) lid (cs_object_range e) 8 (payload, 4) (cs_hash e).
Definition two_docs (snap : Z) : list Entry :=
  if snap =? 0 then [saved_slice "A" 0 (mkRecSlice 0 (0, 6) (0, 6) (Some "h0")); saved_slice "B" 4096 (mkRecSlice 0 (0, 4) (0, 4) (Some "hb"))]
  else [saved_slice "B" 0 (mkRecSlice 1 (0, 4) (0, 4) (Some "hb")); saved_slice "A" 4096 (mkRecSlice 1 (2, 4) (6, 8) (Some "h1"))].

Lemma docs_hold lid e : e ∈ entries_of whole_record lid →
  ∃ en, en ∈ two_docs (cs_snapshot e) ∧ en_logical_id en = lid ∧ en_dst en = cs_object_range e.
Proof.
  unfold entries_of. cbn [whole_record record_of cr_slices assoc_get].
  destruct (decide (lid = "A")) as [->|]; [|destruct (decide (lid = "B")) as [->|]; [|by intros ?%elem_of_nil]]; simpl;
    intros [-> | ->%list_elem_of_singleton]%elem_of_cons; eexists; simpl.
  - split; [by left|done].
  - split; [by right; left|done].
  - split; [by left|done].
  - split; [by right; left|done].
Qed.

Lemma restore_places_every_byte_witness :
  ∃ steps st off ps req, resolve_targets no_digest whole_record TargetAll true = Ok steps ∧ st ∈ steps ∧
    resolve_placements (two_docs (st_snapshot st)) (Some (st_remap st)) = Ok (ps, req) ∧ placed ps "A" 7 off.
Proof.
  destruct (restore_places_every_byte no_digest whole_record two_docs whole_keys whole_valid docs_hold) as (steps & Hr & _ & Hs).
  destruct (Hs "A" (mkLogical 8 None) 7) as (e & _ & _ & _ & (st & off & ps & req & H1 & H2 & H3) & _); [by left|done|].
  exists steps, st, off, ps, req. exact (conj Hr (conj H1 (conj H2 H3))).
Defined.

(** Source 1 gets its own bytes back where they were. *)
Lemma rank_view_restores_witness :
  ∃ steps, resolve_targets no_digest whole_record (TargetKeyed [("1", WantIds ["A"])]) true = Ok steps ∧ accepted steps ∧
    Permutation (sources steps "A" 6) [(1, "A", 4, 2)].
Proof.
  destruct (rank_view_restores no_digest whole_record "1" ["A"] whole_valid) as (steps & Hr & _ & Hs & _ & Ha).
  - done.
  - by apply (bool_decide_unpack _).
  - intros t ->%list_elem_of_singleton. split; [by left|done|done].
  - exists steps. split; [exact Hr|]. split.
    + apply Ha. intros t ->%list_elem_of_singleton. by apply (bool_decide_unpack _).
    + apply (Hs "A" 6). by left.
Defined.

(** ** A composition *)
Definition source_0 : CkCompose.Source (T := Z) :=
  mkSrc "r0" [] [mkEntry "A" (0, 6) (0, 6); mkEntry "B" (0, 4) (0, 4)] [("A", 6); ("B", 4)] [].
Definition source_1 : CkCompose.Source (T := Z) :=
  mkSrc "r1" [] [mkEntry "A" (2, 4) (6, 8); mkEntry "B" (0, 4) (0, 4)] [("A", 4); ("B", 4)] [].
Definition header_ab : Header (T := Z) := mkHeader 1 0 [("A", mkLogical 8 None); ("B", mkLogical 4 None)] [] [] [] [] [].
Definition fake_snapshot (key _ : string) (_ : list SliceSpec) (_ : jdict (T := Z)) : M unit CkError string := mret ("snap-" +:+ key).
(** Both report the replica [B]; [hb] is the hash source 1 reports. *)
Definition fake_wait (hb : string) (key _ : string) : M unit CkError Status :=
  mret (mkStatus "done" (if String.eqb key "0" then [("A", (0, 6), "h0"); ("B", (0, 4), "hb")]
                         else [("A", (6, 8), "h1"); ("B", (0, 4), hb)])).
Definition fake_spec (_ : string) : M unit CkError (json Z) := mret JNull.
Definition composed (hb : string) := save_checkpoint no_digest fake_snapshot (fake_wait hb) fake_spec
  [("1", source_1); ("0", source_0)] "ck" header_ab 0 (tt, []).

(** A composition that succeeds; and two sources whose copies of one range carry
    different hashes make no checkpoint. *)
Example composed_ok : is_ok (composed "hb").1 = true ∧ assoc_get (composed "hb").2.2 "ck" ≠ None.
Proof. split; [reflexivity|]. vm_compute. discriminate. Qed.
Example composed_drift : composed "other" = (Err (Drift "B" (0, 4)), (tt, [])).
Proof. reflexivity. Qed.

(** ** Twins *)

(** Source 0 saved [B] twice: the record is valid, but the plan of its view fetches
    each byte of [B] twice, and the engine refuses it. *)
Definition twin_record := record_of [("A", slices_a); ("B", slices_b ++ [mkRecSlice 0 (0, 4) (0, 4) (Some "hb")])%list].
Definition twin_steps : list Step :=
  match resolve_targets no_digest twin_record (TargetKeyed [("0", WantIds ["B"])]) true with Ok l => l | Err _ => [] end.

Theorem twin_slices_refused :
  validate_record no_digest twin_record [] = Ok tt ∧
  is_ok (resolve_targets no_digest twin_record (TargetKeyed [("0", WantIds ["B"])]) true) = true ∧
  sources twin_steps "B" 0 = [(0, "B", 4, 0); (0, "B", 4, 0)] ∧
  (validate_remap [] ∘ st_remap) <$> twin_steps = [Err BadRequest].
Proof. split_and!; reflexivity. Qed.
