(* ===== verification/RcReport.v ===== *)
(** * Stall report ([dataflow_sim/engine/stall_report.py])

    Where the time of a finished simulation went: how long compute stood idle and
    for which object, how busy each transfer stream was, and when it had work
    waiting.  [sum] adds from left to right. *)
From S2P Require Import Prelude SimSchema.
From stdpp Require Import base tactics option list gmap strings sorting.
From Stdlib Require Import ZArith Lia Ascii.
Open Scope Z_scope.

(** ** Python's numbers and strings *)

(** [x / n] for an int [n] that is not zero. *)
Class NumDiv (T : Type) := num_div : T → nat → T.

(** [sum(l)] and [max(l, default=0)]. *)
Definition num_sum {T} `{Num T} (l : list T) : T := foldl num_add num_zero l.
Definition num_maximum {T} `{Num T} (l : list T) : T :=
  match l with [] => num_zero | x :: l => foldl num_max x l end.

(** [s.split(c, 1)]: what precedes the first [c] and, if there is one, what follows. *)
Fixpoint split_first (c : ascii) (s : string) : string * option string :=
  match s with
  | EmptyString => (EmptyString, None)
  | String a s =>
      if decide (a = c) then (EmptyString, Some s)
      else let '(l, r) := split_first c s in (String a l, r)
  end.

(** ** The report *)
Record StallReport (T : Type) := mkStallReport {
  makespan_us : T;
  compute_busy_us : T;
  stall_us : T;
  input_wait_us : T;
  capacity_wait_us : T;
  other_wait_us : T;
  stall_by_object : list (string * T);
  stream_busy_us : TransferDirection → T;
  backlog_us : TransferDirection → T;
  backlog_windows : TransferDirection → list (T * T);
  transfer_backlog_overlap : list (string * T);
}.
Arguments mkStallReport {T}.
Arguments makespan_us {T}.
Arguments compute_busy_us {T}.
Arguments stall_us {T}.
Arguments input_wait_us {T}.
Arguments capacity_wait_us {T}.
Arguments other_wait_us {T}.
Arguments stall_by_object {T}.
Arguments stream_busy_us {T}.
Arguments backlog_us {T}.
Arguments backlog_windows {T}.
Arguments transfer_backlog_overlap {T}.

Inductive ReportError := ReportIndexError.

(** [task_id.split(":", 1)[1].split("#", 1)[0]]. *)
Definition transfer_obj (tid : string) : result ReportError string :=
  match (split_first ":" tid).2 with
  | Some obj => Ok (split_first "#" obj).1
  | None => Err ReportIndexError
  end.

Section Report.
Context {T : Type} `{Num T, NumDiv T}.
Implicit Types (iv : TaskInterval T) (ivs : list (TaskInterval T)).

Definition on_track (tr : Track) ivs : list (TaskInterval T) := filter (λ iv, iv_track iv = tr) ivs.
Definition iv_length iv : T := num_sub (iv_end iv) (iv_start iv).

(** *** Windows with work waiting

    A point is a time with [+1] for work that arrives and [-1] for work that starts;
    Python orders them as tuples. *)
Definition Point : Type := T * Z.
Definition point_leb (a b : Point) : bool :=
  if num_eqb a.1 b.1 then a.2 <=? b.2 else num_ltb a.1 b.1.

Record Sweep := mkSweep { sw_windows : list (T * T); sw_depth : Z; sw_open : option T }.

Definition sweep_point (s : Sweep) (p : Point) : Sweep :=
  let prev := sw_depth s in
  let depth := prev + p.2 in
  if (prev =? 0) && (0 <? depth) then mkSweep (sw_windows s) depth (Some p.1)
  else
    match sw_open s with
    | Some open_t =>
        if (0 <? prev) && (depth =? 0) then
          mkSweep (if num_ltb open_t p.1 then sw_windows s ++ [(open_t, p.1)] else sw_windows s) depth None
        else mkSweep (sw_windows s) depth (Some open_t)
    | None => mkSweep (sw_windows s) depth None
    end.

Definition merge_windows (points : list Point) : list (T * T) :=
  sw_windows (foldl sweep_point (mkSweep [] 0 None) (py_sorted point_leb points)).

Definition overlap_with (a0 a1 : T) (windows : list (T * T)) : T :=
  foldl (λ total w,
    let lo := num_max a0 w.1 in
    let hi := num_min a1 w.2 in
    if num_ltb lo hi then num_add total (num_sub hi lo) else total) num_zero windows.

(** *** Arrivals: for each end time the objects whose transfers end then *)
Fixpoint arrival_add (t : T) (o : string) (d : list (T * gset string)) : list (T * gset string) :=
  match d with
  | [] => [(t, {[o]})]
  | (t', os) :: d => if num_eqb t t' then (t', os ∪ {[o]}) :: d else (t', os) :: arrival_add t o d
  end.

Fixpoint arrival_get (t : T) (d : list (T * gset string)) : option (gset string) :=
  match d with
  | [] => None
  | (t', os) :: d => if num_eqb t t' then Some os else arrival_get t d
  end.

Definition arrivals ivs : result ReportError (list (T * gset string)) :=
  foldR (λ d iv, obj ← transfer_obj (iv_id iv); Ok (arrival_add (iv_end iv) obj d)) [] ivs.

(** [d[k] = d.get(k, 0) + v]. *)
Definition dict_add (d : list (string * T)) (k : string) (v : T) : list (string * T) :=
  assoc_set d k (num_add (default num_zero (assoc_get d k)) v).

(** *** Blame of the idle time before each task *)
Record Blame := mkBlame {
  bl_stall : T; bl_input : T; bl_capacity : T; bl_other : T;
  bl_by_object : list (string * T); bl_prev_end : T;
}.

Definition tasks_by_id (chain : TaskChain T) : gmap string (Task T) :=
  foldl (λ m t, <[task_id t := t]> m) ∅ (tasks chain).

(** The inputs of the task whose transfers end exactly as it starts. *)
Definition blocking_inputs (by_id : gmap string (Task T)) (from_ends : list (T * gset string)) iv : list string :=
  match by_id !! iv_id iv with
  | Some task =>
      py_sorted String.leb
        (elements (default ∅ (arrival_get (iv_start iv) from_ends) ∩ list_to_set (inputs task)))
  | None => []
  end.

Definition blame_bar (by_id : gmap string (Task T)) (from_ends to_ends : list (T * gset string))
    (b : Blame) iv : Blame :=
  let gap := num_sub (iv_start iv) (bl_prev_end b) in
  if num_leb gap num_zero then
    mkBlame (bl_stall b) (bl_input b) (bl_capacity b) (bl_other b) (bl_by_object b) (iv_end iv)
  else
    let stall := num_add (bl_stall b) gap in
    match blocking_inputs by_id from_ends iv with
    | [] =>
        match arrival_get (iv_start iv) to_ends with
        | Some _ => mkBlame stall (bl_input b) (num_add (bl_capacity b) gap) (bl_other b)
                      (bl_by_object b) (iv_end iv)
        | None => mkBlame stall (bl_input b) (bl_capacity b) (num_add (bl_other b) gap)
                    (bl_by_object b) (iv_end iv)
        end
    | (_ :: _) as blocking =>
        let share := num_div gap (length blocking) in
        mkBlame stall (num_add (bl_input b) gap) (bl_capacity b) (bl_other b)
          (foldl (λ d oid, dict_add d oid share) (bl_by_object b) blocking) (iv_end iv)
    end.

Definition blame_bars (chain : TaskChain T) (from_ends to_ends : list (T * gset string)) ivs : Blame :=
  foldl (blame_bar (tasks_by_id chain) from_ends to_ends)
    (mkBlame num_zero num_zero num_zero num_zero [] num_zero) ivs.

(** *** Backlog

    A transfer waits from the end of the task that triggered it until its start;
    the [n]-th transfer of an object is matched with the [n]-th trigger. *)
Definition ends_by_task ivs : gmap string T := foldl (λ m iv, <[iv_id iv := iv_end iv]> m) ∅ ivs.

Definition triggers_of (d : TransferDirection) (t : Task T) : list (TransferTrigger T) :=
  match d with from_slow => prefetch_after t | to_slow => offload_after t end.

Definition add_fire (t_end : T) (m : gmap string (list T)) (trig : TransferTrigger T) : gmap string (list T) :=
  <[trig_obj trig := default [] (m !! trig_obj trig) ++ [t_end]]> m.

Definition trigger_times (chain : TaskChain T) (ends : gmap string T) (d : TransferDirection) :
    gmap string (list T) :=
  foldl (λ m t,
    match ends !! task_id t with
    | Some t_end => foldl (add_fire t_end) m (triggers_of d t)
    | None => m
    end) ∅ (tasks chain).

Definition start_leb iv1 iv2 : bool := num_leb (iv_start iv1) (iv_start iv2).

(** The time the [idx]-th transfer of [obj] is put in its queue. *)
Definition enqueue_time (fires : gmap string (list T)) (obj : string) (idx : nat) iv : T :=
  num_min (default (iv_start iv) (default [] (fires !! obj) !! idx)) (iv_start iv).

Definition delta_of (fires : gmap string (list T)) (acc : list Point * gmap string nat) iv :
    result ReportError (list Point * gmap string nat) :=
  obj ← transfer_obj (iv_id iv);
  let idx := default O (acc.2 !! obj) in
  let enqueue := enqueue_time fires obj idx iv in
  Ok (if num_ltb enqueue (iv_start iv) then acc.1 ++ [(enqueue, 1); (iv_start iv, -1)] else acc.1,
      <[obj := S idx]> acc.2).

Definition deltas (fires : gmap string (list T)) ivs : result ReportError (list Point) :=
  acc ← foldR (delta_of fires) ([], ∅) (py_sorted start_leb ivs);
  Ok acc.1.

Definition stream_windows (chain : TaskChain T) (ends : gmap string T) (d : TransferDirection) ivs :
    result ReportError (list (T * T)) :=
  points ← deltas (trigger_times chain ends d) ivs;
  Ok (merge_windows points).

Definition total_length (windows : list (T * T)) : T := num_sum ((λ w, num_sub w.2 w.1) <$> windows).

Definition stream_overlap (windows : list (T * T)) (acc : list (string * T)) ivs :
    result ReportError (list (string * T)) :=
  match windows with
  | [] => Ok acc
  | _ => foldR (λ acc iv,
           obj ← transfer_obj (iv_id iv);
           let ov := overlap_with (iv_start iv) (iv_end iv) windows in
           Ok (if num_eqb ov num_zero then acc else dict_add acc obj ov)) acc ivs
  end.

Definition per_stream {A} (f t : A) (d : TransferDirection) : A :=
  match d with from_slow => f | to_slow => t end.

Definition build_stall_report (chain : TaskChain T) (log : EventLog T) : result ReportError (StallReport T) :=
  let ivs := task_intervals log in
  let compute := on_track track_compute ivs in
  let ins := on_track (track_of from_slow) ivs in
  let outs := on_track (track_of to_slow) ivs in
  from_ends ← arrivals ins;
  to_ends ← arrivals outs;
  let b := blame_bars chain from_ends to_ends compute in
  let ends := ends_by_task compute in
  win_in ← stream_windows chain ends from_slow ins;
  win_out ← stream_windows chain ends to_slow outs;
  ov ← stream_overlap win_in [] ins;
  ov ← stream_overlap win_out ov outs;
  Ok {| makespan_us := num_maximum (iv_end <$> ivs);
        compute_busy_us := num_sum (iv_length <$> compute);
        stall_us := bl_stall b; input_wait_us := bl_input b; capacity_wait_us := bl_capacity b;
        other_wait_us := bl_other b; stall_by_object := bl_by_object b;
        stream_busy_us := per_stream (num_sum (iv_length <$> ins)) (num_sum (iv_length <$> outs));
        backlog_us := per_stream (total_length win_in) (total_length win_out);
        backlog_windows := per_stream win_in win_out;
        transfer_backlog_overlap := ov |}.
End Report.
