(* ===== verification/RcReportOk.v ===== *)
(** * The backlog windows of a stall report

    The sweep of the stall report opens a window when the number of waiting
    transfers leaves zero and closes it when it returns there.  The windows of a
    stream are disjoint, in order, and cover exactly the times at which some
    transfer of the stream has been put in the queue and has not started. *)
From S2P Require Import Prelude SimSchema SimValidate Simulator SimulatorTime RcReport.
From stdpp Require Import base tactics option list gmap strings sorting.
From Stdlib Require Import ZArith Lia QArith Qcanon Ascii.
Open Scope Z_scope.

Section Windows.
Context {T : Type} `{NumLaws T}.
Implicit Types (t τ : T) (p : T * Z) (ps P R : list (T * Z)) (jobs : list (T * T)) (s : @Sweep T).
Local Notation "a ⊑ b" := (num_leb a b = true) (at level 70).
Local Notation "a ⊏ b" := (num_ltb a b = true) (at level 70).

(** ** Points in order *)
Lemma num_ltb_trans_r t1 t2 t3 : t1 ⊏ t2 → t2 ⊑ t3 → t1 ⊏ t3.
Proof.
  rewrite !num_ltb_leb, !negb_true_iff. intros H1 H2. apply not_true_iff_false. intros H3.
  rewrite (num_leb_trans t2 t3 t1) in H1; done.
Qed.

Lemma num_ltb_trans_l t1 t2 t3 : t1 ⊑ t2 → t2 ⊏ t3 → t1 ⊏ t3.
Proof.
  rewrite !num_ltb_leb, !negb_true_iff. intros H1 H2. apply not_true_iff_false. intros H3.
  rewrite (num_leb_trans t3 t1 t2) in H2; done.
Qed.

Lemma num_eqb_iff t1 t2 : num_eqb t1 t2 = true ↔ t1 ⊑ t2 ∧ t2 ⊑ t1.
Proof. by rewrite num_eqb_leb, andb_true_iff. Qed.

Lemma num_leb_cases t1 t2 : t1 ⊑ t2 → num_eqb t1 t2 = true ∨ t1 ⊏ t2.
Proof.
  intros Hle. destruct (num_leb t2 t1) eqn:Hle'; [left; by rewrite num_eqb_iff|right].
  by rewrite num_ltb_leb, Hle'.
Qed.

(** Tuples are ordered by their times and, at the same time, by their deltas. *)
Lemma point_leb_iff p1 p2 :
  point_leb p1 p2 = true ↔ p1.1 ⊑ p2.1 ∧ (p2.1 ⊑ p1.1 → p1.2 ≤ p2.2).
Proof.
  unfold point_leb. destruct (num_eqb p1.1 p2.1) eqn:He.
  - apply num_eqb_iff in He as [H1 H2]. rewrite Z.leb_le. naive_solver.
  - rewrite num_ltb_leb, negb_true_iff. split.
    + intros Hn. split; [destruct (num_leb_total p1.1 p2.1) as [?|Hle]; [done|congruence]|congruence].
    + intros [Hle _]. apply not_true_iff_false. intros Hle'.
      assert (num_eqb p1.1 p2.1 = true) by (by rewrite num_eqb_iff). congruence.
Qed.

Lemma point_leb_total p1 p2 : point_leb p1 p2 = true ∨ point_leb p2 p1 = true.
Proof.
  rewrite !point_leb_iff. destruct (num_leb p1.1 p2.1) eqn:H1, (num_leb p2.1 p1.1) eqn:H2.
  - destruct (Z.le_ge_cases p1.2 p2.2); [left|right]; split; auto; lia.
  - left. split; congruence.
  - right. split; congruence.
  - destruct (num_leb_total p1.1 p2.1); congruence.
Qed.

Lemma point_leb_trans p1 p2 p3 : point_leb p1 p2 = true → point_leb p2 p3 = true → point_leb p1 p3 = true.
Proof.
  rewrite !point_leb_iff. intros [H1 H1'] [H2 H2']. split; [by eapply num_leb_trans|]. intros H3.
  assert (p2.1 ⊑ p1.1) as H4 by (by eapply num_leb_trans). assert (p3.1 ⊑ p2.1) as H5 by (by eapply num_leb_trans).
  specialize (H1' H4). specialize (H2' H5). lia.
Qed.

(** ** Depths *)
Definition depth ps : Z := sumZ ps.*2.
(** The number of transfers waiting at [t]. *)
Definition depth_at t ps : Z := sumZ ((λ p, if num_leb p.1 t then p.2 else 0) <$> ps).

Lemma depth_app ps1 ps2 : depth (ps1 ++ ps2) = depth ps1 + depth ps2.
Proof. unfold depth. by rewrite fmap_app, sumZ_app. Qed.
Lemma depth_at_app t ps1 ps2 : depth_at t (ps1 ++ ps2) = depth_at t ps1 + depth_at t ps2.
Proof. unfold depth_at. by rewrite fmap_app, sumZ_app. Qed.
Lemma depth_at_late t ps : (∀ p, p ∈ ps → p.1 ⊑ t) → depth_at t ps = depth ps.
Proof.
  unfold depth_at, depth. intros Hle. f_equal. apply list_fmap_ext. intros i p Hp.
  by rewrite Hle by (apply list_elem_of_lookup; eauto).
Qed.

(** The points of a list of transfers that waited from [e] to [s]. *)
Definition job_points jobs : list (T * Z) := jobs ≫= λ j, [(j.1, 1); (j.2, -1)].

Lemma depth_at_jobs t jobs : Forall (λ j, j.1 ⊏ j.2) jobs →
  0 ≤ depth_at t (job_points jobs) ∧
  (0 < depth_at t (job_points jobs) ↔ ∃ j, j ∈ jobs ∧ j.1 ⊑ t ∧ t ⊏ j.2).
Proof.
  induction 1 as [|[e s] jobs Hlt _ IH]; simpl in *.
  { split; [done|]. split; [done|]. intros (j & Hj%elem_of_nil & _); done. }
  change ((e, 1) :: (s, -1) :: job_points jobs) with ([(e, 1); (s, -1)] ++ job_points jobs).
  unfold job_points in *. simpl. change (?a :: ?b :: ?l) with ([a; b] ++ l).
  rewrite depth_at_app. setoid_rewrite elem_of_cons.
  assert (depth_at t [(e, 1); (s, -1)] = if num_leb e t && num_ltb t s then 1 else 0) as ->.
  { unfold depth_at. simpl. rewrite num_ltb_leb. destruct (num_leb e t) eqn:He, (num_leb s t) eqn:Hs; simpl; try done.
    exfalso. apply num_ltb_weaken in Hlt. rewrite (num_leb_trans e s t) in He; done. }
  destruct IH as [Hn IH]. destruct (num_leb e t && num_ltb t s) eqn:Hc.
  - apply andb_true_iff in Hc as [H1 H2]. split; [lia|]. split; [|lia].
    intros _. exists (e, s). auto.
  - split; [lia|]. rewrite Z.add_0_l, IH. split; [intros (j & ? & ?); eauto|].
    intros (j & [->|Hj] & H1 & H2); [|eauto]. simpl in *. by rewrite H1, H2 in Hc.
Qed.

(** ** The sweep never goes below zero

    A [-1] comes after the [+1] of its transfer. *)
Definition balanced ps : Prop := ∀ P R, ps = P ++ R → 0 ≤ depth P.

Lemma balanced_insert (x y : T) (A B C : list (T * Z)) : balanced (A ++ B ++ C) → balanced (A ++ (x, 1) :: B ++ (y, -1) :: C).
Proof.
  intros Hb P R Heq. apply app_eq_inv in Heq as [(k & -> & _)|(k & -> & Hk)].
  { by apply (Hb P (k ++ B ++ C)); rewrite <-app_assoc. }
  rewrite depth_app. destruct k as [|q k]; simpl in Hk; [specialize (Hb A (B ++ C) eq_refl); unfold depth at 2; simpl; lia|].
  injection Hk as <- Hk. change ((x, 1) :: k) with ([(x, 1)] ++ k). rewrite depth_app.
  assert (depth [(x, 1)] = 1) as -> by done.
  apply app_eq_inv in Hk as [(k' & -> & _)|(k' & -> & Hk)].
  { specialize (Hb (A ++ k) (k' ++ C)). rewrite depth_app in Hb. rewrite <-!app_assoc in Hb. specialize (Hb eq_refl). lia. }
  destruct k' as [|q k']; simpl in Hk.
  - specialize (Hb (A ++ B) C). rewrite app_nil_r, depth_app, <-app_assoc in *. specialize (Hb eq_refl). lia.
  - injection Hk as <- Hk. subst C. change ((y, -1) :: k') with ([(y, -1)] ++ k'). rewrite !depth_app.
    assert (depth [(y, -1)] = -1) as -> by done.
    specialize (Hb (A ++ B ++ k') R). rewrite !depth_app, <-!app_assoc in Hb. specialize (Hb eq_refl). lia.
Qed.

Lemma balanced_jobs jobs ps :
  Forall (λ j, j.1 ⊏ j.2) jobs → Permutation (job_points jobs) ps →
  StronglySorted (λ a b, point_leb a b = true) ps → balanced ps.
Proof.
  intros Hlt. revert ps. induction Hlt as [|[e s] jobs He _ IH]; intros ps Hperm Hs.
  { apply Permutation_nil_l in Hperm; subst ps. intros P R HPR. symmetry in HPR. by apply app_nil in HPR as [-> _]. }
  change (job_points ((e, s) :: jobs)) with ((e, 1) :: (s, -1) :: job_points jobs) in Hperm.
  assert ((e, 1) ∈ ps) as (A & D & ->)%list_elem_of_split by (rewrite <-Hperm; by left).
  rewrite <-Permutation_middle in Hperm. apply Permutation_cons_inv in Hperm.
  assert ((s, -1) ∈ A ++ D) as Hin by (rewrite <-Hperm; by left).
  apply elem_of_app in Hin as [Hin|(B & C & ->)%list_elem_of_split].
  { exfalso. apply StronglySorted_app_iff in Hs as (_ & _ & Hs).
    assert (point_leb (s, -1) (e, 1) = true) as [Hle _]%point_leb_iff by (apply Hs; [done|by left]).
    simpl in *. rewrite num_ltb_leb, Hle in He. done. }
  apply balanced_insert, IH.
  - rewrite (assoc (++)), <-Permutation_middle, <-(assoc (++)) in Hperm. by apply Permutation_cons_inv in Hperm.
  - apply StronglySorted_app_iff in Hs as (HA & HD & HAD).
    apply StronglySorted_inv in HD as [HD _]. apply StronglySorted_app_iff in HD as (HB & HC & HBC).
    apply StronglySorted_inv in HC as [HC _].
    apply StronglySorted_app_iff. split_and!; [done| |].
    + apply StronglySorted_app_iff. split_and!; [done..|]. intros x y Hx Hy. apply HBC; [done|by right].
    + intros x y Hx Hy. apply HAD; [done|]. apply elem_of_cons. right.
      apply elem_of_app in Hy as [Hy|Hy]; apply elem_of_app; [by left|right; by right].
Qed.

(** ** The invariant of the sweep *)
Definition inside t (w : T * T) : Prop := w.1 ⊑ t ∧ t ⊏ w.2.

(** Windows in order, each of positive length. *)
Definition windows_ok (ws : list (T * T)) : Prop :=
  StronglySorted (λ w w', w.2 ⊑ w'.1) ws ∧ Forall (λ w, w.1 ⊏ w.2) ws.

(** After the points [P], with the points [R] still to come. *)
Record swept P R s : Prop := {
  swp_depth : sw_depth s = depth P;
  swp_open : match sw_open s with
             | Some o => 0 < depth P ∧ (∀ w, w ∈ sw_windows s → w.2 ⊑ o) ∧ ∀ p, p ∈ R → o ⊑ p.1
             | None => depth P = 0
             end;
  swp_windows : windows_ok (sw_windows s);
  swp_past : ∀ w p, w ∈ sw_windows s → p ∈ R → w.2 ⊑ p.1;
  swp_cover : ∀ t, (∃ w, w ∈ sw_windows s ∧ inside t w) ∨ (∃ o, sw_open s = Some o ∧ o ⊑ t) ↔
                   0 < depth_at t P;
}.

Lemma swept_start R : swept [] R (mkSweep [] 0 None).
Proof.
  split; simpl; try done.
  - split; constructor.
  - intros w p Hw%elem_of_nil. done.
  - intros t. split; [|done]. intros [(w & Hw%elem_of_nil & _)|(o & Ho & _)]; done.
Qed.

Lemma windows_ok_snoc ws w :
  windows_ok ws → w.1 ⊏ w.2 → (∀ w', w' ∈ ws → w'.2 ⊑ w.1) → windows_ok (ws ++ [w]).
Proof.
  intros [Hs Hp] Hw Hle. split; [|apply Forall_app; by rewrite Forall_singleton].
  apply StronglySorted_app_iff. split_and!; [done|repeat constructor|].
  intros x y Hx ->%list_elem_of_singleton. by apply Hle.
Qed.

(** What the next point adds to the depth at [t]. *)
Lemma depth_at_snoc t P p R : StronglySorted (λ a b, point_leb a b = true) (P ++ p :: R) →
  depth_at t (P ++ [p]) = if num_leb p.1 t then depth (P ++ [p]) else depth_at t P.
Proof.
  intros Hs. destruct (num_leb p.1 t) eqn:Hle.
  - apply depth_at_late. intros q Hq. apply elem_of_app in Hq as [Hq| ->%list_elem_of_singleton]; [|done].
    apply StronglySorted_app_iff in Hs as (_ & _ & Hs).
    assert (point_leb q p = true) as [Hqp _]%point_leb_iff by (apply Hs; [done|by left]).
    by eapply num_leb_trans.
  - rewrite depth_at_app. unfold depth_at at 2. simpl. rewrite Hle. lia.
Qed.

Lemma later_points P p R q :
  StronglySorted (λ a b, point_leb a b = true) (P ++ p :: R) → q ∈ R → p.1 ⊑ q.1.
Proof.
  intros Hs Hq. apply StronglySorted_app_iff in Hs as (_ & Hs & _).
  apply StronglySorted_inv in Hs as [_ Hs]. rewrite Forall_forall in Hs. by apply point_leb_iff, Hs.
Qed.

Lemma swept_open P p R s : depth P = 0 → 0 < depth (P ++ [p]) →
  StronglySorted (λ a b, point_leb a b = true) (P ++ p :: R) → swept P (p :: R) s →
  swept (P ++ [p]) R (mkSweep (sw_windows s) (depth (P ++ [p])) (Some p.1)).
Proof.
  intros H0' Hd Hs [Hdep Hop Hw Hpast Hcov].
  assert (sw_open s = None) as Hnone by (destruct (sw_open s); [destruct Hop; lia|done]). split; simpl; [done| |done| |].
  - split_and!; [done| |intros q Hq; by eapply later_points]. intros w Hwin. apply Hpast; [done|by left].
  - intros w q Hwin Hq. apply Hpast; [done|by right].
  - intros t. rewrite (depth_at_snoc t P p R Hs). destruct (num_leb p.1 t) eqn:Hle.
    + split; [done|intros _; right; eauto].
    + rewrite <-Hcov, Hnone. split; (intros [?|(o & Ho & Hot)]; [by left|]); [injection Ho as <-; congruence|done].
Qed.

Lemma swept_close P p R s o : sw_open s = Some o → depth (P ++ [p]) = 0 →
  StronglySorted (λ a b, point_leb a b = true) (P ++ p :: R) → swept P (p :: R) s →
  swept (P ++ [p]) R
    (mkSweep (if num_ltb o p.1 then sw_windows s ++ [(o, p.1)] else sw_windows s) 0 None).
Proof.
  intros Ho Hd Hs [Hdep Hop Hw Hpast Hcov]. rewrite Ho in Hop. destruct Hop as (Hpos & Hwo & Hor).
  assert (o ⊑ p.1) as Hop by (apply Hor; by left). split; simpl; [done..| | |].
  - destruct (num_ltb o p.1) eqn:Hlt; [|done]. by apply windows_ok_snoc.
  - intros w q Hwin Hq. assert (w ∈ sw_windows s ∨ w = (o, p.1)) as [Hin| ->].
    { destruct (num_ltb o p.1); [apply elem_of_app in Hwin as [?| ->%list_elem_of_singleton]; auto|by left]. }
    + apply Hpast; [done|by right].
    + by eapply later_points.
  - intros t. rewrite (depth_at_snoc t P p R Hs), Hd. destruct (num_leb p.1 t) eqn:Hle.
    + split; [|done]. intros [(w & Hwin & Hin)|(? & ? & _)]; [exfalso|done].
      assert (w.2 ⊑ p.1) as Hwp.
      { destruct (num_ltb o p.1); [apply elem_of_app in Hwin as [?| ->%list_elem_of_singleton]|]; [| apply num_leb_refl|];
          (apply Hpast; [done|by left]). }
      destruct Hin as [_ Hin]. rewrite num_ltb_leb, (num_leb_trans _ _ _ Hwp Hle) in Hin. done.
    + rewrite <-Hcov, Ho. assert (t ⊏ p.1) as Htp by (by rewrite num_ltb_leb, Hle). split.
      * intros [(w & Hwin & Hin)|(? & ? & _)]; [|done].
        destruct (num_ltb o p.1); [apply elem_of_app in Hwin as [?| ->%list_elem_of_singleton]|]; [by left; eauto| |by left; eauto].
        right. exists o. split; [done|apply Hin].
      * intros [(w & Hwin & Hin)|(o' & [= <-] & Hot)]; left.
        -- exists w. split; [|done]. destruct (num_ltb o p.1); [apply elem_of_app; by left|done].
        -- rewrite (num_ltb_trans_l _ _ _ Hot Htp). exists (o, p.1). split; [apply elem_of_app; right; by left|done].
Qed.

Lemma swept_stay P p R s o : sw_open s = Some o → 0 < depth (P ++ [p]) →
  StronglySorted (λ a b, point_leb a b = true) (P ++ p :: R) → swept P (p :: R) s →
  swept (P ++ [p]) R (mkSweep (sw_windows s) (depth (P ++ [p])) (Some o)).
Proof.
  intros Ho Hd Hs [Hdep Hop Hw Hpast Hcov]. rewrite Ho in Hop. destruct Hop as (Hpos & Hwo & Hor).
  split; simpl; [done| |done| |].
  - split_and!; [done..|]. intros q Hq. apply Hor. by right.
  - intros w q Hwin Hq. apply Hpast; [done|by right].
  - intros t. rewrite (depth_at_snoc t P p R Hs). destruct (num_leb p.1 t) eqn:Hle.
    + split; [done|]. intros _. right. exists o. split; [done|]. eapply num_leb_trans; [|exact Hle]. apply Hor. by left.
    + by rewrite <-Hcov, Ho.
Qed.

Lemma swept_idle P p R s : depth P = 0 → depth (P ++ [p]) = 0 →
  StronglySorted (λ a b, point_leb a b = true) (P ++ p :: R) → swept P (p :: R) s →
  swept (P ++ [p]) R (mkSweep (sw_windows s) (depth (P ++ [p])) None).
Proof.
  intros HP Hd Hs [Hdep Hop Hw Hpast Hcov].
  assert (sw_open s = None) as Hnone by (destruct (sw_open s); [destruct Hop; lia|done]).
  split; simpl; [done|done|done| |].
  - intros w q Hwin Hq. apply Hpast; [done|by right].
  - intros t. rewrite (depth_at_snoc t P p R Hs), Hd. destruct (num_leb p.1 t) eqn:Hle; [|by rewrite <-Hcov, Hnone].
    split; [|done]. intros [(w & Hwin & Hin)|(? & ? & _)]; [|done]. exfalso.
    assert (w.2 ⊑ p.1) as Hwp by (apply Hpast; [done|by left]).
    destruct Hin as [_ Hin]. rewrite num_ltb_leb, (num_leb_trans _ _ _ Hwp Hle) in Hin. done.
Qed.

Lemma swept_step P p R s : balanced (P ++ p :: R) →
  StronglySorted (λ a b, point_leb a b = true) (P ++ p :: R) →
  swept P (p :: R) s → swept (P ++ [p]) R (sweep_point s p).
Proof.
  intros Hb Hs Hsw. pose proof (Hb P (p :: R) eq_refl) as HP.
  assert (0 ≤ depth (P ++ [p])) as HP' by (apply (Hb _ R); by rewrite <-(assoc (++))).
  unfold sweep_point. pose proof (swp_depth _ _ _ Hsw) as Hdep. pose proof (swp_open _ _ _ Hsw) as Hop.
  assert (sw_depth s + p.2 = depth (P ++ [p])) as ->
    by (rewrite depth_app, Hdep; unfold depth at 3; simpl; lia).
  rewrite Hdep. destruct ((depth P =? 0) && (0 <? depth (P ++ [p]))) eqn:Hc1.
  { apply andb_true_iff in Hc1 as [?%Z.eqb_eq ?%Z.ltb_lt]. by apply swept_open. }
  apply andb_false_iff in Hc1. rewrite Z.eqb_neq, Z.ltb_ge in Hc1. destruct (sw_open s) as [o|] eqn:Ho.
  - destruct ((0 <? depth P) && (depth (P ++ [p]) =? 0)) eqn:Hc2.
    + apply andb_true_iff in Hc2 as [?%Z.ltb_lt Hz%Z.eqb_eq]. rewrite Hz. by apply swept_close.
    + apply andb_false_iff in Hc2. rewrite Z.eqb_neq, Z.ltb_ge in Hc2. apply swept_stay; try done. lia.
  - apply swept_idle; try done. lia.
Qed.

Lemma swept_all R : ∀ P s, balanced (P ++ R) → StronglySorted (λ a b, point_leb a b = true) (P ++ R) →
  swept P R s → swept (P ++ R) [] (foldl sweep_point s R).
Proof.
  induction R as [|p R IH]; intros P s Hb Hs Hsw; simpl; [by rewrite app_nil_r|].
  rewrite (cons_middle p P R), (assoc (++)) in *. apply IH; [done..|]. apply swept_step; by rewrite <-(assoc (++)) in *.
Qed.

(** The windows of a list of waits. *)
Lemma merge_windows_exact jobs : Forall (λ j, j.1 ⊏ j.2) jobs →
  windows_ok (merge_windows (job_points jobs)) ∧
  ∀ t, (∃ w, w ∈ merge_windows (job_points jobs) ∧ inside t w) ↔ ∃ j, j ∈ jobs ∧ inside t j.
Proof.
  intros Hlt. set (ps := py_sorted point_leb (job_points jobs)).
  pose proof (py_sorted_perm point_leb (job_points jobs)) as Hperm.
  pose proof (py_sorted_sorted point_leb point_leb_total point_leb_trans (job_points jobs)) as Hs. fold ps in Hperm, Hs.
  pose proof (balanced_jobs jobs ps Hlt Hperm Hs) as Hb.
  pose proof (swept_all ps [] _ Hb Hs (swept_start ps)) as [_ Hop Hw _ Hcov]. simpl in *.
  split; [done|]. intros t. unfold merge_windows. fold ps.
  destruct (depth_at_jobs t jobs Hlt) as [_ Hd]. assert (depth ps = 0) as Hzero.
  { unfold depth. rewrite <-(sumZ_perm _ _ (fmap_Permutation snd _ _ Hperm)). clear. induction jobs as [|j jobs IH]; [done|].
    change (job_points (j :: jobs)) with ((j.1, 1) :: (j.2, -1) :: job_points jobs). rewrite !fmap_cons, !sumZ_cons, IH. done. }
  destruct (sw_open _) as [o|]; [lia|]. unfold inside at 2. rewrite <-Hd.
  assert (depth_at t (job_points jobs) = depth_at t ps) as -> by (by apply sumZ_perm, fmap_Permutation).
  rewrite <-Hcov. naive_solver.
Qed.
End Windows.

(** ** The waits of a stream *)
Section Waits.
Context {T : Type} `{NumLaws T, NumDiv T}.
Implicit Types (iv : TaskInterval T) (l : list (TaskInterval T)) (fires : gmap string (list T)).

Definition moves (o : string) iv : bool :=
  match transfer_obj (iv_id iv) with Ok o' => bool_decide (o' = o) | Err _ => false end.

(** How many of the first [k] transfers move [o]. *)
Definition earlier_moves l k o : nat := length (filter (λ iv, moves o iv = true) (take k l)).

(** The [k]-th transfer moves [o] and waits during [j]. *)
Definition wait_of fires l k iv o (j : T * T) : Prop :=
  l !! k = Some iv ∧ transfer_obj (iv_id iv) = Ok o ∧
  j = (enqueue_time fires o (earlier_moves l k o) iv, iv_start iv).

(** At [t] some transfer of the stream is in its queue. *)
Definition waiting_at (chain : TaskChain T) (log : EventLog T) (d : TransferDirection) (t : T) : Prop :=
  let fires := trigger_times chain (ends_by_task (on_track track_compute (task_intervals log))) d in
  let l := py_sorted start_leb (on_track (track_of d) (task_intervals log)) in
  ∃ k iv o j, wait_of fires l k iv o j ∧ inside t j.

Lemma earlier_moves_S l k iv o : l !! k = Some iv →
  earlier_moves l (S k) o = if moves o iv then S (earlier_moves l k o) else earlier_moves l k o.
Proof.
  intros Hk. unfold earlier_moves. rewrite (take_S_r _ _ _ Hk), filter_app, length_app. rewrite filter_cons.
  destruct (moves o iv) eqn:Hm; [rewrite decide_True by done|rewrite decide_False by done]; simpl; lia.
Qed.

Lemma deltas_waits fires l acc : foldR (delta_of fires) ([], ∅) l = Ok acc → ∃ jobs,
  acc.1 = job_points jobs ∧ Forall (λ j, num_ltb j.1 j.2 = true) jobs ∧
  ∀ j, j ∈ jobs ↔ num_ltb j.1 j.2 = true ∧ ∃ k iv o, wait_of fires l k iv o j.
Proof.
  intros Hf. set (I := λ (n : nat) (acc : list (T * Z) * gmap string nat),
    (∀ o, default O (acc.2 !! o) = earlier_moves l n o) ∧ ∃ jobs,
    acc.1 = job_points jobs ∧ Forall (λ j, num_ltb j.1 j.2 = true) jobs ∧
    ∀ j, j ∈ jobs ↔ num_ltb j.1 j.2 = true ∧ ∃ k iv o, (k < n)%nat ∧ wait_of fires l k iv o j).
  assert (I (0 + length l)%nat acc) as [_ (jobs & Hacc & Hlt & Hj)].
  { eapply foldR_ok_inv; [exact Hf| |].
    - split; [intros o; simpl; rewrite lookup_empty; done|]. exists []. split_and!; [done|constructor|].
      intros j. split; [by intros ?%elem_of_nil|]. intros (_ & k & iv & o & Hk & _). lia.
    - intros k iv b b' Hk [Hseen (jobs & Hb & Hlt & Hj)] Hstep. simpl in *. unfold delta_of in Hstep.
      apply result_bind_ok in Hstep as (o & Ho & [= <-]). simpl. split.
      { intros o'. rewrite (earlier_moves_S _ _ _ _ Hk). unfold moves. rewrite Ho. simpl. case_bool_decide as Heq.
        - subst o'. rewrite lookup_insert_eq. simpl. by rewrite Hseen.
        - rewrite lookup_insert_ne by done. apply Hseen. }
      simpl. rewrite Hseen. set (w := (enqueue_time fires o (earlier_moves l k o) iv, iv_start iv)).
      exists (if num_ltb w.1 w.2 then jobs ++ [w] else jobs). split_and!.
      + subst w. simpl. destruct (num_ltb _ _); [|done]. unfold job_points. rewrite bind_app. f_equal. exact Hb.
      + destruct (num_ltb _ _) eqn:Hw; [|done]. apply Forall_app. by rewrite Forall_singleton.
      + intros j. assert (j ∈ (if num_ltb w.1 w.2 then jobs ++ [w] else jobs) ↔ j ∈ jobs ∨ (j = w ∧ num_ltb j.1 j.2 = true)) as ->.
        { clear. destruct (num_ltb w.1 w.2) eqn:Hw; [rewrite elem_of_app, list_elem_of_singleton|].
          - split; (intros [?|Hj]; [by left|right]); [subst j; done|by destruct Hj].
          - split; [by left|]. intros [?|[-> ?]]; [done|congruence]. }
        rewrite Hj. split.
        * intros [(Hlt' & k' & iv' & o' & Hk' & Hwait)|(-> & Hlt')]; split; try done;
            [exists k', iv', o'; split; [lia|done]|exists k, iv, o; split; [lia|done]].
        * intros (Hlt' & k' & iv' & o' & Hk' & Hwait). destruct (decide (k' = k)) as [->|Hne].
          -- right. destruct Hwait as (Hk2 & Ho2 & ->). rewrite Hk in Hk2. injection Hk2 as <-.
             rewrite Ho in Ho2. injection Ho2 as <-. done.
          -- left. split; [done|]. exists k', iv', o'. split; [lia|done]. }
  exists jobs. split_and!; [done..|]. intros j. rewrite Hj. split; intros (Hlt' & k & iv & o & Hw); split; try done.
  - destruct Hw as [_ Hw]. eauto.
  - exists k, iv, o. split; [|done]. destruct Hw as (Hk & _). apply lookup_lt_Some in Hk. done.
Qed.

Lemma inside_lt (t : T) (j : T * T) : inside t j → num_ltb j.1 j.2 = true.
Proof. intros [Hs He]. by eapply num_ltb_trans_l. Qed.

Lemma stream_windows_exact chain ends d ivs ws :
  stream_windows chain ends d ivs = Ok ws →
  windows_ok ws ∧ ∀ t, (∃ w, w ∈ ws ∧ inside t w) ↔
    ∃ k iv o j, wait_of (trigger_times chain ends d) (py_sorted start_leb ivs) k iv o j ∧ inside t j.
Proof.
  unfold stream_windows, deltas. rewrite result_bind_ok. intros (ps & Hps & [= <-]).
  apply result_bind_ok in Hps as (acc & Hacc & [= <-]).
  destruct (deltas_waits _ _ _ Hacc) as (jobs & -> & Hlt & Hj).
  destruct (merge_windows_exact jobs Hlt) as [Hok Hcov]. split; [done|]. intros t. rewrite Hcov. split.
  - intros (j & Hin & Ht). apply Hj in Hin as (_ & k & iv & o & Hw). by exists k, iv, o, j.
  - intros (k & iv & o & j & Hw & Ht). exists j. split; [|done]. apply Hj. split; [by eapply inside_lt|eauto].
Qed.

Ltac report_inv H :=
  repeat match type of H with
  | (_ ≫= _) = Ok _ => let x := fresh "x" in let Hx := fresh "Hx" in apply result_bind_ok in H as (x & Hx & H)
  end.

(** C34: The backlog windows of a report are disjoint, in order and of positive length,
    and together they are exactly the times at which some transfer of the stream
    has been triggered and has not started, transfers of an object being
    matched with its triggers in order. *)
Theorem backlog_windows_exact (chain : TaskChain T) (log : EventLog T) r :
  build_stall_report chain log = Ok r →
  ∀ d, windows_ok (backlog_windows r d) ∧
    ∀ t, (∃ w, w ∈ backlog_windows r d ∧ inside t w) ↔ waiting_at chain log d t.
Proof.
  intros Hr d. unfold build_stall_report in Hr. report_inv Hr. injection Hr as <-.
  destruct d; simpl; by eapply stream_windows_exact.
Qed.
End Waits.
