(* ===== verification/RcAccounts.v ===== *)
(** * The accounts of a stall report

    Rational numbers satisfy the laws of Python's numbers and divide exactly; the bars
    that the simulator draws on its transfer tracks are named so that the report finds
    the object that moved.  Over exact times, the report of a run of the simulator
    splits the time of the compute lane without remainder. *)
From S2P Require Import Prelude SimSchema SimValidate Simulator SimulatorTime RcReport RcReportOk.
From stdpp Require Import base tactics option list gmap strings pretty.
From Stdlib Require Import ZArith Lia QArith Qcanon Ascii.
Open Scope Z_scope.

#[export] Instance num_Qc : Num Qc := {|
  num_of_Z := λ z, Q2Qc (inject_Z z); num_add := Qcplus; num_sub := Qcminus;
  num_leb := λ a b, Qle_bool a b; num_ltb := λ a b, negb (Qle_bool b a);
  num_eqb := λ a b, Qle_bool a b && Qle_bool b a;
|}.

#[export] Instance num_div_Qc : NumDiv Qc := λ x n, Qcdiv x (Q2Qc (inject_Z (Z.of_nat n))).

Lemma Qc_leb_le (a b : Qc) : num_leb a b = true ↔ (a <= b)%Qc.
Proof. apply Qle_bool_iff. Qed.

Lemma Qc_of_Z_mono x y : x ≤ y → (Q2Qc (inject_Z x) <= Q2Qc (inject_Z y))%Qc.
Proof. intros Hle. unfold Qcle. simpl. rewrite !Qred_correct. by rewrite <-Zle_Qle. Qed.

Lemma Qc_le_total (a b : Qc) : (a <= b)%Qc ∨ (b <= a)%Qc.
Proof. destruct (Qclt_le_dec a b) as [Hlt|Hle]; [left; by apply Qclt_le_weak|by right]. Qed.

#[export] Instance num_laws_Qc : NumLaws Qc.
Proof.
  split; try done.
  - intros a. apply Qc_leb_le, Qcle_refl.
  - intros a b c. rewrite !Qc_leb_le. apply Qcle_trans.
  - intros a b. rewrite !Qc_leb_le. apply Qc_le_total.
  - intros a d. rewrite !Qc_leb_le. intros Hd. rewrite <-(Qcplus_0_r a) at 1. apply Qcplus_le_compat; [apply Qcle_refl|exact Hd].
  - intros a b d _. rewrite !Qc_leb_le. intros Hab. apply Qcplus_le_compat; [done|apply Qcle_refl].
  - intros x y Hxy. apply Qc_leb_le. by apply Qc_of_Z_mono.
Qed.

Lemma Qc_ltb_lt (a b : Qc) : num_ltb a b = true ↔ (a < b)%Qc.
Proof.
  rewrite num_ltb_leb, negb_true_iff, <-not_true_iff_false, Qc_leb_le. split.
  - apply Qcnot_le_lt.
  - intros Hlt Hle. by apply (Qcle_not_lt _ _ Hle).
Qed.

Lemma Qc_eqb_eq (a b : Qc) : num_eqb a b = true ↔ a = b.
Proof.
  rewrite num_eqb_leb, andb_true_iff, !Qc_leb_le. split; [intros [? ?]; by apply Qcle_antisym|].
  intros ->. split; apply Qcle_refl.
Qed.

(** [n] equal shares make the whole. *)
Fixpoint Qc_times (n : nat) (x : Qc) : Qc := match n with O => 0%Qc | S n => (x + Qc_times n x)%Qc end.

Lemma Qc_of_S n : Q2Qc (inject_Z (Z.of_nat (S n))) = (1 + Q2Qc (inject_Z (Z.of_nat n)))%Qc.
Proof.
  apply Qc_is_canon. rewrite Nat2Z.inj_succ. unfold Z.succ. simpl. rewrite !Qred_correct, inject_Z_plus. ring.
Qed.

Lemma Qc_times_mult n x : Qc_times n x = (Q2Qc (inject_Z (Z.of_nat n)) * x)%Qc.
Proof.
  induction n as [|n IH]; [change (Q2Qc (inject_Z (Z.of_nat 0))) with 0%Qc; simpl; ring|]. rewrite Qc_of_S. simpl Qc_times. rewrite IH. ring.
Qed.

Lemma Qc_of_S_pos n : (0 < Q2Qc (inject_Z (Z.of_nat (S n))))%Qc.
Proof. unfold Qclt, Q2Qc. cbn [this]. rewrite !Qred_correct. change 0%Q with (inject_Z 0). rewrite <-Zlt_Qlt. lia. Qed.

Lemma Qc_shares n x : Qc_times (S n) (num_div x (S n)) = x.
Proof.
  rewrite Qc_times_mult. unfold num_div, num_div_Qc. apply Qcmult_div_r.
  intros Heq. pose proof (Qc_of_S_pos n) as Hpos. rewrite Heq in Hpos. by apply Qclt_not_eq in Hpos.
Qed.

Lemma Qc_share_pos n x : (0 < x)%Qc → (0 < num_div x (S n))%Qc.
Proof.
  intros Hx. apply Qcnot_le_lt. intros Hle. apply (Qclt_not_le 0 x Hx). rewrite <-(Qc_shares n x), Qc_times_mult.
  rewrite (Qcmult_comm _ (num_div _ _)), <-(Qcmult_0_l (Q2Qc (inject_Z (Z.of_nat (S n))))).
  apply Qcmult_le_compat_r; [done|]. apply Qclt_le_weak, Qc_of_S_pos.
Qed.

(** ** Names of transfer bars *)
Lemma split_first_app c s1 s2 : (split_first c s1).2 = None → split_first c (s1 +:+ String c s2) = (s1, Some s2).
Proof.
  induction s1 as [|a s1 IH]; simpl; [by rewrite decide_True|].
  destruct (decide (a = c)); [done|]. destruct (split_first c s1) as [l r]. simpl. intros ->.
  by rewrite IH.
Qed.

Lemma split_first_none c s : (split_first c s).2 = None → split_first c s = (s, None).
Proof.
  induction s as [|a s IH]; simpl; [done|]. destruct (decide (a = c)); [done|].
  destruct (split_first c s) as [l r]. simpl. intros ->. by injection (IH eq_refl) as ->.
Qed.

Lemma split_first_found c s1 s2 l r : split_first c s1 = (l, Some r) → split_first c (s1 +:+ s2) = (l, Some (r +:+ s2)).
Proof.
  revert l r. induction s1 as [|a s1 IH]; intros l r; simpl; [done|]. destruct (decide (a = c)); [by intros [= <- <-]|].
  destruct (split_first c s1) as [l1 [r1|]]; [|done]. intros [= <- <-]. by rewrite (IH _ _ eq_refl).
Qed.

(** The report reads the moved object off the name of the bar, up to a [#] in its id. *)
Lemma transfer_obj_name d oid seq :
  transfer_obj (transfer_name d oid seq) = Ok (split_first "#" oid).1.
Proof.
  assert (∀ s, transfer_obj (dir_name d +:+ String ":" s) = Ok (split_first "#" s).1) as Ho.
  { intros s. unfold transfer_obj. by rewrite split_first_app by by destruct d. }
  unfold transfer_name. destruct (seq =? 0)%nat; [apply Ho|].
  change (dir_name d +:+ ":" +:+ oid +:+ "#" +:+ pretty seq)
    with (dir_name d +:+ String ":" (oid +:+ String "#" (pretty seq))).
  rewrite Ho. destruct (split_first "#" oid) as [l [r|]] eqn:Hs.
  - by rewrite (split_first_found _ _ _ _ _ Hs).
  - rewrite split_first_app by by rewrite Hs. pose proof (split_first_none "#" oid) as Hn. rewrite Hs in Hn. by injection (Hn eq_refl) as ->.
Qed.

(** ** The bars of a run *)
Section Names.
Context {T : Type} `{Num T}.
Variable chain : TaskChain T.
Variable snapshots memory_trace_on : bool.
Variable ref_starts : gmap string T.
Implicit Types s : Sim T.

Definition named_bar (iv : TaskInterval T) : Prop :=
  match iv_track iv with
  | track_compute => True
  | track_of d => ∃ oid seq, iv_id iv = transfer_name d oid seq
  end.

Definition Named s : Prop := Forall named_bar (intervals s).

Lemma Named_add s s' iv : named_bar iv → intervals s' = intervals s ++ [iv] → Named s → Named s'.
Proof. intros Hiv Heq Hs. unfold Named. rewrite Heq. apply Forall_app. by rewrite Forall_singleton. Qed.

Ltac names := keeps_tac; try match goal with
  | |- keeps _ (modify _) => by apply keeps_modify; intros [] ?
  end.

Lemma named_emit k t i a : keeps Named (emit chain snapshots memory_trace_on ref_starts k t i a).
Proof. unfold emit, emit_memory_trace. names. Qed.
Lemma named_emit_transfer k t i oid d :
  keeps Named (emit_transfer chain snapshots memory_trace_on ref_starts k t i oid d).
Proof. apply named_emit. Qed.
Lemma named_set_state k st : keeps Named (set_state k st).
Proof. unfold set_state. names. Qed.
Lemma named_add_total l z : keeps Named (add_total l z).
Proof. unfold add_total. names. Qed.
Hint Resolve named_emit named_emit_transfer named_set_state named_add_total : keeps.

Lemma named_record_start d t i tx : keeps Named (record_start chain snapshots memory_trace_on ref_starts d t i tx).
Proof.
  unfold record_start. destruct d; names.
  all: apply keeps_modify; intros s; (eapply Named_add; [|done]); unfold named_bar; simpl; eauto.
Qed.
Hint Resolve named_record_start : keeps.
Lemma named_queue d q : keeps (E:=SimError) Named (modify (set_queue d q)).
Proof. destruct d; names. Qed.
Lemma named_queue_add d tx : keeps (E:=SimError) Named (modify (λ s, set_queue d (queue d s ++ [tx]) s)).
Proof. destruct d; names. Qed.
Lemma named_in_flight d f : keeps (E:=SimError) Named (modify (set_in_flight d f)).
Proof. destruct d; names. Qed.
Hint Resolve named_queue named_queue_add named_in_flight : keeps.
Lemma named_try_start d t i : keeps Named (try_start chain snapshots memory_trace_on ref_starts d t i).
Proof. unfold try_start, start_transfer, allocate_dst. names. Qed.
Lemma named_complete d t i : keeps Named (complete chain snapshots memory_trace_on ref_starts d t i).
Proof. unfold complete, settle, activate_waiters. names. Qed.
Hint Resolve named_try_start named_complete : keeps.
Lemma named_complete_next i : keeps Named (complete_next chain snapshots memory_trace_on ref_starts i).
Proof. unfold complete_next. names. Qed.
Hint Resolve named_complete_next : keeps.
Lemma named_advance t i : keeps Named (advance chain snapshots memory_trace_on ref_starts t i).
Proof.
  unfold advance. keeps_tac. generalize (S (measure s)) as fuel. intros fuel.
  induction fuel as [|fuel IH]; simpl; keeps_tac; done.
Qed.
Hint Resolve named_advance : keeps.
Lemma named_drain task i t : keeps Named (drain chain snapshots memory_trace_on ref_starts task i t).
Proof.
  unfold drain. keeps_tac. generalize (S (measure s)) as fuel. intros fuel. revert t.
  induction fuel as [|fuel IH]; intros t; simpl; keeps_tac; done.
Qed.
Lemma named_final_drain : keeps Named (final_drain chain snapshots memory_trace_on ref_starts).
Proof.
  unfold final_drain. keeps_tac. generalize (S (measure s)) as fuel. intros fuel.
  induction fuel as [|fuel IH]; simpl; keeps_tac; done.
Qed.
Lemma named_start_task task i t : keeps Named (start_task chain snapshots memory_trace_on ref_starts task i t).
Proof.
  unfold start_task. names. apply keeps_modify. intros s. (eapply Named_add; [|done]); done.
Qed.
Lemma named_reserve_task task : keeps Named (reserve_task chain task).
Proof. unfold reserve_task, check_backing_outputs, reserve_outputs, reserve_output, check_committed. names. Qed.
Lemma named_finish_outputs task i t : keeps Named (finish_outputs chain snapshots memory_trace_on ref_starts task i t).
Proof. unfold finish_outputs. names. Qed.
Lemma named_do_releases task i t : keeps Named (do_releases chain snapshots memory_trace_on ref_starts task i t).
Proof. unfold do_releases, release_one. names. Qed.
Lemma named_offload_one task i t trig : keeps Named (offload_one chain snapshots memory_trace_on ref_starts task i t trig).
Proof. unfold offload_one. names. Qed.
Lemma named_prefetch_one task i t trig : keeps Named (prefetch_one chain snapshots memory_trace_on ref_starts task i t trig).
Proof. unfold prefetch_one. names. Qed.
Hint Resolve named_drain named_final_drain named_start_task named_reserve_task named_finish_outputs
  named_do_releases named_offload_one named_prefetch_one : keeps.
Lemma named_run_task i task : keeps Named (run_task chain snapshots memory_trace_on ref_starts i task).
Proof. unfold run_task, finish_task. names. Qed.
Lemma named_run_body : keeps Named (run_body chain snapshots memory_trace_on ref_starts).
Proof. unfold run_body, check_stuck. names. apply keeps_forI. intros. apply named_run_task. Qed.
End Names.

Section RunNames.
Context {T : Type} `{Num T}.

Lemma run_impl_named (chain : TaskChain T) starts sn mt log :
  run_impl chain starts sn mt = Ok log → Forall named_bar (task_intervals log).
Proof.
  unfold run_impl. rewrite result_bind_ok. intros (s0 & Hs0 & Hrun).
  unfold start_state in Hs0. rewrite result_bind_ok in Hs0. destruct Hs0 as ([p [f b]] & _ & Hs0).
  apply result_bind_ok in Hs0 as (u & _ & [= <-]).
  set (rs := if sn then _ else _) in Hrun.
  pose proof (named_run_body chain sn mt rs (initial_sim p f b) (Forall_nil_2 _)) as Hwp. unfold wp in Hwp.
  destruct (run_body _ _ _ _ _) as [[[]|e] s]; [|done]. by injection Hrun as <-.
Qed.

Lemma run_named (chain : TaskChain T) validate sn mt log :
  run chain validate sn mt = Ok log → Forall named_bar (task_intervals log).
Proof.
  unfold run. rewrite result_bind_ok. intros (u & _ & Hrun). destruct sn; [|by eapply run_impl_named].
  rewrite result_bind_ok in Hrun. destruct Hrun as (first & _ & Hrun). by eapply run_impl_named.
Qed.
End RunNames.

#[local] Arguments num_eqb : simpl never.
#[local] Arguments num_leb : simpl never.
#[local] Arguments num_add : simpl never.

(** ** Sums *)
Definition Qc_sum (l : list Qc) : Qc := foldr Qcplus 0%Qc l.

Lemma Qc_sum_app l1 l2 : Qc_sum (l1 ++ l2) = (Qc_sum l1 + Qc_sum l2)%Qc.
Proof. induction l1 as [|x l1 IH]; simpl; [ring|]. rewrite IH. ring. Qed.

Lemma Qc_sum_cons x l : Qc_sum (x :: l) = (x + Qc_sum l)%Qc.
Proof. done. Qed.
Lemma Qc_sum_one x : Qc_sum [x] = x.
Proof. rewrite Qc_sum_cons. apply Qcplus_0_r. Qed.

Lemma num_sum_Qc (l : list Qc) : num_sum l = Qc_sum l.
Proof.
  unfold num_sum. change (num_zero : Qc) with 0%Qc. change (@num_add Qc _) with Qcplus.
  assert (∀ a, foldl Qcplus a l = (a + Qc_sum l)%Qc) as ->; [|ring].
  induction l as [|x l IH]; intros a; simpl; [ring|]. rewrite IH. ring.
Qed.

Lemma dict_add_sum (d : list (string * Qc)) k v : Qc_sum (dict_add d k v).*2 = (Qc_sum d.*2 + v)%Qc.
Proof.
  unfold dict_add. destruct (assoc_get d k) as [w|] eqn:Hg; simpl.
  - apply assoc_get_split in Hg as (d1 & d2 & -> & Hk). rewrite assoc_set_middle by done.
    rewrite !fmap_app, !fmap_cons, !Qc_sum_app, !Qc_sum_cons. cbn [snd]. change (num_add w v) with (w + v)%Qc. ring.
  - apply assoc_get_none in Hg. rewrite assoc_set_absent, fmap_app, Qc_sum_app by done. rewrite fmap_cons, Qc_sum_one. cbn [snd].
    apply (f_equal (Qcplus _)), Qcplus_0_l.
Qed.

Lemma dict_add_all_sum ks v : ∀ d : list (string * Qc),
  Qc_sum (foldl (λ d k, dict_add d k v) d ks).*2 = (Qc_sum d.*2 + Qc_times (length ks) v)%Qc.
Proof. induction ks as [|k ks IH]; intros d; simpl; [ring|]. rewrite IH, dict_add_sum. ring. Qed.

(** The keys that a sequence of additions may have touched. *)
Lemma dict_add_all_elem ks v (P : string → Qc → Prop) : ∀ d : list (string * Qc),
  (∀ k x, (k, x) ∈ d → P k x) → (∀ k x, k ∈ ks → P k x → P k (x + v)%Qc) → (∀ k, k ∈ ks → P k v) →
  ∀ k x, (k, x) ∈ foldl (λ d k, dict_add d k v) d ks → P k x.
Proof.
  induction ks as [|k0 ks IH]; intros d Hd Hadd Hnew; simpl; [done|].
  apply IH; [|intros; apply Hadd; [by right|done]|intros; apply Hnew; by right].
  intros k x Hin. apply elem_of_assoc_set in Hin as [[= -> ->]|Hin]; [|by apply Hd].
  destruct (assoc_get d k0) as [w|] eqn:Hg; simpl.
  - apply Hadd; [by left|]. apply Hd. apply assoc_get_split in Hg as (d1 & d2 & -> & _). apply elem_of_app. right. by left.
  - change (P k0 (0 + v)%Qc). rewrite Qcplus_0_l. apply Hnew. by left.
Qed.

(** ** Arrivals *)
Lemma arrival_get_add (t t' : Qc) o d :
  arrival_get t (arrival_add t' o d) =
    if num_eqb t t' then Some (default ∅ (arrival_get t' d) ∪ {[o]}) else arrival_get t d.
Proof.
  induction d as [|[u os] d IH]; simpl.
  { destruct (num_eqb t t'); [|done]. by rewrite (left_id_L ∅ (∪)). }
  destruct (num_eqb t' u) eqn:H1.
  - apply Qc_eqb_eq in H1 as ->. simpl. by destruct (num_eqb t u).
  - simpl. destruct (num_eqb t u) eqn:H2; [|done]. apply Qc_eqb_eq in H2 as ->.
    destruct (num_eqb u t') eqn:H3; [|done]. apply Qc_eqb_eq in H3 as ->.
    assert (num_eqb t' t' = true) by by apply Qc_eqb_eq. congruence.
Qed.

(** The objects found at [t] are those of the transfers that end at [t]. *)
Lemma arrivals_spec ivs d : arrivals ivs = Ok d → ∀ (t : Qc) o,
  o ∈ default ∅ (arrival_get t d) ↔ ∃ iv, iv ∈ ivs ∧ transfer_obj (iv_id iv) = Ok o ∧ iv_end iv = t.
Proof.
  intros Hd t o. set (I := λ (n : nat) (d : list (Qc * gset string)), ∀ t o,
    o ∈ default ∅ (arrival_get t d) ↔
    ∃ k iv, (k < n)%nat ∧ ivs !! k = Some iv ∧ transfer_obj (iv_id iv) = Ok o ∧ iv_end iv = t).
  assert (I (0 + length ivs)%nat d) as HI.
  { eapply foldR_ok_inv; [exact Hd| |].
    - intros t' o'. simpl. split; [by intros ?%not_elem_of_empty|]. intros (k & iv & Hk & _). lia.
    - intros k iv b b' Hk Hb Hstep t' o'. apply result_bind_ok in Hstep as (obj & Hobj & [= <-]).
      rewrite arrival_get_add. pose proof (Hb t' o') as Hb'. simpl in Hb'. destruct (num_eqb t' (iv_end iv)) eqn:He.
      + apply Qc_eqb_eq in He as ->. simpl. rewrite elem_of_union, elem_of_singleton, Hb'. split.
        * intros [(k' & iv' & Hk' & Hiv')| ->]; [exists k', iv'; split; [lia|done]|exists k, iv; split_and!; [lia|done..]].
        * intros (k' & iv' & Hk' & Hl & Ho & He). destruct (decide (k' = k)) as [->|Hne].
          -- right. rewrite Hk in Hl. injection Hl as <-. congruence.
          -- left. exists k', iv'. split; [lia|done].
      + rewrite Hb'. split; intros (k' & iv' & Hk' & Hl & Ho & Hend).
        * exists k', iv'. split; [lia|done].
        * exists k', iv'. split_and!; [|done..]. destruct (decide (k' = k)) as [->|]; [exfalso|lia].
          rewrite Hk in Hl. injection Hl as <-. rewrite <-Hend in He.
          assert (num_eqb (iv_end iv) (iv_end iv) = true) by by apply Qc_eqb_eq. congruence. }
  rewrite (HI t o). split.
  - intros (k & iv & _ & Hk & Ho & He). exists iv. split; [apply list_elem_of_lookup; eauto|done].
  - intros (iv & Hin & Ho & He). apply list_elem_of_lookup in Hin as [k Hk].
    exists k, iv. split_and!; try done. by eapply lookup_lt_Some.
Qed.

(** ** Blame *)
Section Accounts.
Variable chain : TaskChain Qc.
Variable log : EventLog Qc.
Let bars := on_track track_compute (task_intervals log).
Let ins := on_track (track_of from_slow) (task_intervals log).
Variable from_ends to_ends : list (Qc * gset string).
Hypothesis Hfrom : arrivals ins = Ok from_ends.

(** [o] is an input of a task, and a transfer of [o] ended as the task started. *)
Definition blamed (o : string) : Prop := ∃ iv task tr,
  iv ∈ bars ∧ task ∈ tasks chain ∧ task_id task = iv_id iv ∧ o ∈ inputs task ∧
  tr ∈ ins ∧ transfer_obj (iv_id tr) = Ok o ∧ iv_end tr = iv_start iv.

(** After the bars [done]. *)
Record accounted (done : list (TaskInterval Qc)) (b : Blame) : Prop := {
  ac_end : bl_prev_end b = default 0%Qc (iv_end <$> last done);
  ac_busy : bl_prev_end b = (Qc_sum (iv_length <$> done) + bl_stall b)%Qc;
  ac_split : bl_stall b = (bl_input b + bl_capacity b + bl_other b)%Qc;
  ac_objects : Qc_sum (bl_by_object b).*2 = bl_input b;
  ac_blamed : ∀ o x, (o, x) ∈ bl_by_object b → (0 < x)%Qc ∧ blamed o;
}.

Lemma tasks_by_id_elem i task : tasks_by_id chain !! i = Some task → task ∈ tasks chain ∧ task_id task = i.
Proof.
  unfold tasks_by_id.
  apply (foldl_ind (λ m, m !! i = Some task → task ∈ tasks chain ∧ task_id task = i)); [by rewrite lookup_empty|].
  intros t m Ht Hm. rewrite lookup_insert_Some. intros [[<- <-]|[_ Hl]]; auto.
Qed.

Lemma blocking_blamed iv o : iv ∈ bars → o ∈ blocking_inputs (tasks_by_id chain) from_ends iv → blamed o.
Proof.
  intros Hiv. unfold blocking_inputs. destruct (tasks_by_id chain !! iv_id iv) as [task|] eqn:Ht; [|by intros ?%elem_of_nil].
  rewrite elem_of_py_sorted, elem_of_elements, elem_of_intersection, elem_of_list_to_set. intros [Ho Hin].
  apply (arrivals_spec ins from_ends Hfrom) in Ho as (tr & Htr & Hobj & Hend). apply tasks_by_id_elem in Ht as [Htask Hid].
  exists iv, task, tr. done.
Qed.

Lemma accounted_step done iv b : iv ∈ bars → accounted done b → (bl_prev_end b <= iv_start iv)%Qc →
  accounted (done ++ [iv]) (blame_bar (tasks_by_id chain) from_ends to_ends b iv).
Proof.
  intros Hiv [He Hb Hs Ho Hbl] Hle.
  assert (∀ stall inp cap oth by_obj,
    (stall = bl_stall b + (iv_start iv - bl_prev_end b))%Qc → (stall = inp + cap + oth)%Qc →
    Qc_sum by_obj.*2 = inp → (∀ o x, (o, x) ∈ by_obj → (0 < x)%Qc ∧ blamed o) →
    accounted (done ++ [iv]) (mkBlame stall inp cap oth by_obj (iv_end iv))) as Hmk.
  { intros stall inp cap oth by_obj Hst Hspl Hsum Hall. split; simpl; try done.
    - by rewrite last_snoc.
    - rewrite fmap_app, Qc_sum_app, Hst. change (iv_length <$> [iv]) with [(iv_end iv - iv_start iv)%Qc].
      rewrite Qc_sum_one, Hb. ring. }
  unfold blame_bar. change (num_sub (iv_start iv) (bl_prev_end b)) with (iv_start iv - bl_prev_end b)%Qc.
  change (@num_add Qc _) with Qcplus. destruct (num_leb _ num_zero) eqn:Hgap.
  { apply Qc_leb_le in Hgap. assert (iv_start iv = bl_prev_end b) as Heq.
    { apply Qcle_antisym; [|done]. apply Qcle_minus_iff in Hgap. apply Qcle_minus_iff.
      change (num_zero : Qc) with 0%Qc in Hgap. by replace (0 + - (iv_start iv - bl_prev_end b))%Qc with (bl_prev_end b + - iv_start iv)%Qc in Hgap by ring. }
    apply Hmk; [|done..]. rewrite Heq. ring. }
  assert (0 < iv_start iv - bl_prev_end b)%Qc as Hpos.
  { apply Qcnot_le_lt. intros Hn. apply Qc_leb_le in Hn. change (num_zero : Qc) with 0%Qc in Hgap. congruence. }
  set (gap := (iv_start iv - bl_prev_end b)%Qc) in *.
  destruct (blocking_inputs _ _ _) as [|k ks] eqn:Hblk.
  - destruct (arrival_get _ _); (apply Hmk; [done| |done..]); rewrite Hs; ring.
  - apply Hmk; [done|rewrite Hs; ring| |].
    + rewrite dict_add_all_sum. change (length (k :: ks)) with (S (length ks)). by rewrite Qc_shares, Ho.
    + pose proof (Qc_share_pos (length ks) gap Hpos) as Hshare.
      assert (∀ o, o ∈ k :: ks → blamed o) as Hks by (intros o; rewrite <-Hblk; by apply blocking_blamed).
      apply dict_add_all_elem; [done| |intros o Hin; split; [done|by apply Hks]].
      intros o x Hin [Hx _]. split; [|by apply Hks]. rewrite <-(Qcplus_0_r 0).
      eapply Qclt_le_trans; [|apply Qcplus_le_compat; [apply Qcle_refl|apply Qclt_le_weak, Hshare]].
      by rewrite !Qcplus_0_r.
Qed.

Lemma accounted_all todo : ∀ done b, bars = done ++ todo → sequential bars → accounted done b →
  (∀ iv, iv ∈ bars → (0 <= iv_start iv)%Qc) →
  accounted bars (foldl (blame_bar (tasks_by_id chain) from_ends to_ends) b todo).
Proof.
  induction todo as [|iv todo IH]; intros done b Heq Hseq Hb Hpos; simpl; [by rewrite Heq, app_nil_r|].
  apply (IH (done ++ [iv])); [by rewrite <-(assoc (++))|done| |done].
  assert (iv ∈ bars) as Hin by (rewrite Heq; apply elem_of_app; right; by left).
  apply accounted_step; [done..|]. rewrite (ac_end _ _ Hb). destruct (last done) as [iv'|] eqn:Hl; simpl; [|by apply Hpos].
  apply last_Some in Hl as [done' ->]. apply Qc_leb_le. unfold sequential in Hseq. rewrite Heq in Hseq.
  apply StronglySorted_app_iff in Hseq as (_ & _ & Hle). apply Hle; [apply elem_of_app; right; by left|by left].
Qed.

Lemma accounts : sequential bars → (∀ iv, iv ∈ bars → (0 <= iv_start iv)%Qc) →
  accounted bars (blame_bars chain from_ends to_ends bars).
Proof.
  intros Hseq Hpos. apply (accounted_all bars []); [done|done| |done].
  split; simpl; try done. intros o x Hin%elem_of_nil. done.
Qed.
End Accounts.

(** ** Runs *)
Section Total.
Context {T : Type} `{NumLaws T, NumDiv T}.
Implicit Types ivs : list (TaskInterval T).

Lemma foldR_total {E A B} (f : B → A → result E B) l acc :
  (∀ b x, x ∈ l → ∃ b', f b x = Ok b') → ∃ acc', foldR f acc l = Ok acc'.
Proof.
  intros Hf. destruct (foldR f acc l) as [acc'|e] eqn:Hl; [eauto|exfalso].
  apply foldR_err in Hl as (b & x & Hx & He). destruct (Hf b x Hx) as [b' Hb]. congruence.
Qed.

Definition named_moves ivs : Prop := ∀ iv, iv ∈ ivs → ∃ o, transfer_obj (iv_id iv) = Ok o.

Lemma named_on_track d ivs : Forall named_bar ivs → named_moves (on_track (track_of d) ivs).
Proof.
  rewrite Forall_forall. intros Hn iv [Htr Hin]%list_elem_of_filter. specialize (Hn iv Hin).
  unfold named_bar in Hn. rewrite Htr in Hn. destruct Hn as (oid & seq & ->). eauto using transfer_obj_name.
Qed.

Lemma arrivals_total ivs : named_moves ivs → ∃ d, arrivals ivs = Ok d.
Proof. intros Hn. apply foldR_total. intros b iv Hiv. destruct (Hn iv Hiv) as [o ->]. simpl. eauto. Qed.

Lemma stream_windows_total chain ends d ivs : named_moves ivs → ∃ ws, stream_windows chain ends d ivs = Ok ws.
Proof.
  intros Hn. unfold stream_windows, deltas.
  destruct (foldR_total (delta_of (trigger_times chain ends d)) (py_sorted start_leb ivs) ([], ∅)) as [acc ->]; [|simpl; eauto].
  intros b iv Hiv%elem_of_py_sorted. unfold delta_of. destruct (Hn iv Hiv) as [o ->]. simpl. eauto.
Qed.

Lemma stream_overlap_total ws acc ivs : named_moves ivs → ∃ ov, stream_overlap ws acc ivs = Ok ov.
Proof.
  intros Hn. unfold stream_overlap. destruct ws as [|w ws]; [eauto|]. apply foldR_total.
  intros b iv Hiv. destruct (Hn iv Hiv) as [o ->]. simpl. eauto.
Qed.

Lemma report_total (chain : TaskChain T) log :
  Forall named_bar (task_intervals log) → ∃ r, build_stall_report chain log = Ok r.
Proof.
  intros Hn. unfold build_stall_report. cbv zeta.
  pose proof (named_on_track from_slow _ Hn) as Hin. pose proof (named_on_track to_slow _ Hn) as Hout.
  destruct (arrivals_total _ Hin) as [d1 ->]. destruct (arrivals_total _ Hout) as [d2 ->]. cbn [mbind result_bind].
  set (ends := ends_by_task _).
  destruct (stream_windows_total chain ends from_slow _ Hin) as [w1 ->].
  destruct (stream_windows_total chain ends to_slow _ Hout) as [w2 ->]. cbn [mbind result_bind].
  destruct (stream_overlap_total w1 [] _ Hin) as [o1 ->]. cbn [mbind result_bind].
  destruct (stream_overlap_total w2 o1 _ Hout) as [o2 ->]. cbn [mbind result_bind]. eauto.
Qed.

Lemma foldl_max_ge (l : list T) a : num_leb a (foldl num_max a l) = true ∧ ∀ x, x ∈ l → num_leb x (foldl num_max a l) = true.
Proof.
  revert a. induction l as [|y l IH]; intros a; simpl; [split; [apply num_leb_refl|by intros ? ?%elem_of_nil]|].
  destruct (IH (num_max a y)) as [Ha Hl]. split.
  - eapply num_leb_trans; [apply num_max_l|exact Ha].
  - intros x [->|Hx]%elem_of_cons; [|by apply Hl]. eapply num_leb_trans; [apply num_max_r|exact Ha].
Qed.

Lemma num_maximum_ge (l : list T) x : x ∈ l → num_leb x (num_maximum l) = true.
Proof.
  destruct l as [|y l]; simpl; [by intros ?%elem_of_nil|]. destruct (foldl_max_ge l y) as [Hy Hl].
  intros [->|Hx]%elem_of_cons; auto.
Qed.
End Total.


(** The last task waits eleven units for the weight that an earlier one wrote back. *)
Definition exact_chain : TaskChain Qc :=
  mkChain
    [mkObject "W" 8 Backing "weight"; mkObject "W" 8 Fast "weight"]
    [mkTask "step" ["W"] [] (num_of_Z 5) 0 [] [mkTrigger "W" None] [] ["W"];
     mkTask "idle" [] [] (num_of_Z 5) 0 [] [] [mkTrigger "W" None] [];
     mkTask "use" ["W"] [] (num_of_Z 5) 0 [] [] [] []]
    [("W", Backing)] (Some 16) (Some 16) (Some 1) (Some 1).

Lemma exact_runtimes : runtimes_nonneg exact_chain.
Proof. repeat constructor. Qed.

Lemma exact_run : is_ok (run exact_chain true false false) = true.
Proof. vm_compute. reflexivity. Qed.


Lemma backlog_windows_exact_witness : ∃ log r,
  run exact_chain true false false = Ok log ∧ build_stall_report exact_chain log = Ok r ∧
  windows_ok (backlog_windows r from_slow).
Proof.
  pose proof exact_run as Hok. destruct (run exact_chain true false false) as [log|e] eqn:Hrun; [|discriminate].
  destruct (report_total exact_chain log (run_named _ _ _ _ _ Hrun)) as [r Hr].
  destruct (backlog_windows_exact exact_chain log r Hr from_slow) as [Hw _].
  exists log, r. split; [reflexivity|]. split; [exact Hr|exact Hw].
Defined.
