(* ===== verification/RcPlan.v ===== *)
(** * Recompute planner ([dataflow_sim/planning/recompute.py],
    [dataflow_sim/workloads/common/recompute.py])

    The planner chooses, for each saved activation, how much of it to recompute.  It
    evaluates variants of a chain through a builder, a residency policy and the
    simulator, starts from a few fixed choices and improves on them as long as the
    simulated makespan falls.  The builder and the policy are arguments, as in the
    code, and so are the readings of the clock; [float("inf")] is [None]. *)
From S2P Require Import Prelude SimSchema SimValidate Simulator RcReport.
From stdpp Require Import base tactics option list gmap strings.
From Stdlib Require Import ZArith Lia.
Open Scope Z_scope.

(** ** Rewrites *)
Record RecomputeOption (T : Type) := mkOption {
  op_level : Z;
  op_saved_bytes : Z;
  op_recompute_us : T;
  op_label : string;
}.
Arguments mkOption {T}.
Arguments op_level {T}.
Arguments op_saved_bytes {T}.
Arguments op_recompute_us {T}.
Arguments op_label {T}.

Record RecomputeRewrite (T : Type) := mkRewrite {
  rw_object_id : string;
  rw_f_task_id : string;
  rw_r_task_id : string;
  rw_options : list (RecomputeOption T);
  rw_f_compute_block_key : string;
  rw_r_compute_block_key : string;
  rw_group_key : string;
}.
Arguments mkRewrite {T}.
Arguments rw_object_id {T}.
Arguments rw_f_task_id {T}.
Arguments rw_r_task_id {T}.
Arguments rw_options {T}.
Arguments rw_f_compute_block_key {T}.
Arguments rw_r_compute_block_key {T}.
Arguments rw_group_key {T}.

(** ** Results *)
Record RecomputeStep (T : Type) := mkStep {
  st_converted : list string;
  st_makespan_us : option T;
  st_accepted : bool;
}.
Arguments mkStep {T}.
Arguments st_converted {T}.
Arguments st_makespan_us {T}.
Arguments st_accepted {T}.

(** The items of a dict of levels, one per rewritten object. *)
Definition Levels : Type := list (string * Z).

Record RecomputePlanResult (T : Type) := mkPlanResult {
  pr_levels : Levels;
  pr_chain : TaskChain T;
  pr_makespan_us : T;
  pr_baseline_makespan_us : option T;
  pr_planning_time_s : T;
  pr_history : list (RecomputeStep T);
  pr_report : StallReport T;
}.
Arguments mkPlanResult {T}.
Arguments pr_levels {T}.
Arguments pr_chain {T}.
Arguments pr_makespan_us {T}.
Arguments pr_baseline_makespan_us {T}.
Arguments pr_planning_time_s {T}.
Arguments pr_history {T}.
Arguments pr_report {T}.

(** ** Exceptions: those of the builder and the policy are of any type [E]. *)
Inductive PlanError (E : Type) :=
| VariantError (e : E)
| SimulationError (e : SimError)
| ReportError_ (e : ReportError)
| NoSuchLevel (oid : string) (level : Z)
| OptionsIndexError (oid : string)
| LevelsKeyError (oid : string)
| NoFeasibleVariant.
Arguments VariantError {E} e.
Arguments SimulationError {E} e.
Arguments ReportError_ {E} e.
Arguments NoSuchLevel {E} oid level.
Arguments OptionsIndexError {E} oid.
Arguments LevelsKeyError {E} oid.
Arguments NoFeasibleVariant {E}.

(** The exceptions of the simulator that are instances of [ValueError]. *)
Definition sim_value_error (e : SimError) : bool :=
  match e with
  | ZeroDivisionError | AssertionError | PoolKeyError _ | LocationKeyError _ | BandKeyError _
  | StartKeyError _ | NoDeferredPrefetch _ | NoScheduledOffload _ | NoScheduledPrefetch _
  | OutOfFuel => false
  | _ => true
  end.

Definition lift_err {E1 E2 A} (f : E1 → E2) (r : result E1 A) : result E2 A :=
  match r with Ok a => Ok a | Err e => Err (f e) end.

Section Planner.
Context {T : Type} `{Num T, NumDiv T} {E : Type}.
Variable is_value_error : E → bool.
Variable build_variant : Levels → result E (TaskChain T).
Variable policy_fn : TaskChain T → result E (TaskChain T).
Variable rewrites : list (RecomputeRewrite T).
(** The [k]-th reading of [time.perf_counter]. *)
Variable perf_counter : nat → T.
Variable max_iters : Z.
Variable max_wall_s : option T.

Definition value_error (e : PlanError E) : bool :=
  match e with
  | VariantError e => is_value_error e
  | SimulationError e => sim_value_error e
  | NoSuchLevel _ _ => true
  | _ => false
  end.

(** [{rw.object_id: rw for rw in rewrites}]. *)
Definition rewrites_by_obj : list (string * RecomputeRewrite T) :=
  foldl (λ d rw, assoc_set d (rw_object_id rw) rw) [] rewrites.

Definition evaluate (levels : Levels) : result (PlanError E) (TaskChain T * StallReport T) :=
  bare ← lift_err VariantError (build_variant levels);
  annotated ← lift_err VariantError (policy_fn bare);
  log ← lift_err SimulationError (run annotated true false false);
  report ← lift_err ReportError_ (build_stall_report annotated log);
  Ok (annotated, report).

(** [try: ... except ValueError]: the value, or the refusal. *)
Definition evaluated (levels : Levels) :
    result (PlanError E) (TaskChain T * StallReport T + PlanError E) :=
  match evaluate levels with
  | Ok cr => Ok (inl cr)
  | Err e => if value_error e then Ok (inr e) else Err e
  end.

(** *** Ranking *)
Fixpoint next_level_of (options : list (RecomputeOption T)) (current : Z) : Z :=
  match options with
  | [] => current
  | o :: options => if current <? op_level o then op_level o else next_level_of options current
  end.
Definition next_level (rw : RecomputeRewrite T) (current : Z) : Z := next_level_of (rw_options rw) current.

Fixpoint option_at (oid : string) (options : list (RecomputeOption T)) (level : Z) :
    result (PlanError E) (RecomputeOption T) :=
  match options with
  | [] => Err (NoSuchLevel oid level)
  | o :: options => if op_level o =? level then Ok o else option_at oid options level
  end.
Definition option_ (rw : RecomputeRewrite T) (level : Z) : result (PlanError E) (RecomputeOption T) :=
  option_at (rw_object_id rw) (rw_options rw) level.

(** The benefit of converting an object: the blame it carries. *)
Definition benefit (report : StallReport T) (oid : string) : T :=
  num_add (default num_zero (assoc_get (stall_by_object report) oid))
          (default num_zero (assoc_get (transfer_backlog_overlap report) oid)).

Definition candidate (levels : Levels) (report : StallReport T) (out : list (string * T))
    (orw : string * RecomputeRewrite T) : result (PlanError E) (list (string * T)) :=
  let '(obj_id, rw) := orw in
  let current := default 0 (assoc_get levels obj_id) in
  let nxt := next_level rw current in
  if nxt =? current then Ok out
  else
    cur_opt ← option_ rw current;
    nxt_opt ← option_ rw nxt;
    let cost := num_sub (op_recompute_us nxt_opt) (op_recompute_us cur_opt) in
    let net := num_sub (benefit report obj_id) cost in
    Ok (if num_ltb num_zero net then out ++ [(obj_id, net)] else out).

(** The key [(-net, obj_id)]. *)
Definition rank_leb (a b : string * T) : bool :=
  if num_eqb a.2 b.2 then String.leb a.1 b.1 else num_ltb b.2 a.2.

Definition ranked_candidates (levels : Levels) (report : StallReport T) :
    result (PlanError E) (list (string * T)) :=
  out ← foldR (candidate levels report) [] rewrites_by_obj;
  Ok (py_sorted rank_leb out).

(** *** State: the history and the number of clock readings so far *)
Record Planning := mkPlanning { pl_history : list (RecomputeStep T); pl_ticks : nat }.
Local Notation PM := (M Planning (PlanError E)).

Definition record (step : RecomputeStep T) : PM unit :=
  modify (λ s, mkPlanning (pl_history s ++ [step]) (pl_ticks s)).

Definition now : PM T :=
  s ← get;
  modify (λ s, mkPlanning (pl_history s) (S (pl_ticks s))) ;;
  mret (perf_counter (pl_ticks s)).

Definition over_budget (t0 : T) : PM bool :=
  match max_wall_s with
  | None => mret false
  | Some w => t ← now; mret (num_ltb w (num_sub t t0))
  end.

(** A variant that was evaluated: its levels, chain and report. *)
Definition Variant : Type := Levels * TaskChain T * StallReport T.
Definition v_levels (v : Variant) : Levels := v.1.1.
Definition v_report (v : Variant) : StallReport T := v.2.
Definition v_makespan (v : Variant) : T := makespan_us (v_report v).

(** *** Baseline and seeds *)
Definition zero_levels : Levels := foldl (λ d rw, assoc_set d (rw_object_id rw) 0) [] rewrites.

Definition last_level (rw : RecomputeRewrite T) : result (PlanError E) Z :=
  match last (rw_options rw) with
  | Some o => Ok (op_level o)
  | None => Err (OptionsIndexError (rw_object_id rw))
  end.

Definition seed_all : result (PlanError E) Levels :=
  foldR (λ d rw, l ← last_level rw; Ok (assoc_set d (rw_object_id rw) l)) [] rewrites.

Definition seed_half : result (PlanError E) Levels :=
  d ← foldR (λ (acc : Levels * nat) rw,
        l ← (if Nat.even acc.2 then last_level rw else Ok 0);
        Ok (assoc_set acc.1 (rw_object_id rw) l, S acc.2)) ([], O) rewrites;
  Ok d.1.

Definition try_baseline : PM (option Variant * option (PlanError E)) :=
  r ← lift (evaluated zero_levels);
  match r with
  | inl (chain, report) => mret (Some (zero_levels, chain, report), None)
  | inr err =>
      record (mkStep ["<baseline:infeasible>"%string] None false) ;;
      mret (None, Some err)
  end.

Definition try_seed (name : string) (seed_levels : Levels) (best : option Variant) : PM (option Variant) :=
  r ← lift (evaluated seed_levels);
  match r with
  | inr _ => mret best
  | inl (chain, report) =>
      let accepted := match best with
                      | None => true
                      | Some b => num_ltb (makespan_us report) (v_makespan b)
                      end in
      record (mkStep ["<seed:" +:+ name +:+ ">"] (Some (makespan_us report)) accepted) ;;
      mret (if accepted then Some (seed_levels, chain, report) else best)
  end.

(** *** The evidence loop *)
Definition convert (levels : Levels) (chosen : list (string * T)) : result (PlanError E) Levels :=
  foldR (λ levels c,
    match assoc_get rewrites_by_obj c.1, assoc_get levels c.1 with
    | Some rw, Some l => Ok (assoc_set levels c.1 (next_level rw l))
    | _, _ => Err (LevelsKeyError c.1)
    end) levels chosen.

(** The batches of one iteration, halved on every refusal; [batch] itself is enough fuel. *)
Fixpoint try_batches (fuel : nat) (t0 : T) (candidates : list (string * T)) (batch : nat)
    (current best : Variant) : PM (option (Variant * Variant)) :=
  match fuel with
  | O => mret None
  | S fuel =>
      if (1 <=? batch)%nat then
        over ← over_budget t0;
        if (over : bool) then mret None
        else
          let chosen := take batch candidates in
          trial_levels ← lift (convert (v_levels current) chosen);
          r ← lift (evaluated trial_levels);
          match r with
          | inr _ => try_batches fuel t0 candidates (batch / 2) current best
          | inl (trial_chain, trial_report) =>
              let accepted := num_ltb (makespan_us trial_report) (v_makespan current) in
              record (mkStep chosen.*1 (Some (makespan_us trial_report)) accepted) ;;
              if (accepted : bool) then
                let trial := (trial_levels, trial_chain, trial_report) in
                mret (Some (trial,
                  if num_ltb (makespan_us trial_report) (v_makespan best) then trial else best))
              else try_batches fuel t0 candidates (batch / 2) current best
          end
      else mret None
  end.

Fixpoint evidence_loop (iters : nat) (t0 : T) (current best : Variant) : PM Variant :=
  match iters with
  | O => mret best
  | S iters =>
      over ← over_budget t0;
      if (over : bool) then mret best
      else
        candidates ← lift (ranked_candidates (v_levels current) (v_report current));
        match candidates with
        | [] => mret best
        | _ :: _ =>
            let batch := Nat.max 1 (length candidates / 2) in
            r ← try_batches batch t0 candidates batch current best;
            match r with
            | None => mret best
            | Some (current, best) => evidence_loop iters t0 current best
            end
        end
  end.

Definition plan_body : PM (RecomputePlanResult T) :=
  t0 ← now;
  '(greedy_start, baseline_error) ← try_baseline;
  all ← lift seed_all;
  half ← lift seed_half;
  best ← try_seed "all" all greedy_start;
  best ← try_seed "half" half best;
  match best with
  | None => raise (default NoFeasibleVariant baseline_error)
  | Some best =>
      best ← evidence_loop (Z.to_nat max_iters) t0 (default best greedy_start) best;
      t1 ← now;
      s ← get;
      mret {| pr_levels := v_levels best; pr_chain := best.1.2;
              pr_makespan_us := v_makespan best;
              pr_baseline_makespan_us := v_makespan <$> greedy_start;
              pr_planning_time_s := num_sub t1 t0;
              pr_history := pl_history s; pr_report := v_report best |}
  end.

Definition plan_with_recompute : result (PlanError E) (RecomputePlanResult T) :=
  (plan_body (mkPlanning [] 0)).1.
End Planner.
