(* ===== verification/RcPlanOk.v ===== *)
(** * The recompute planner never loses

    Whatever the builder, the policy and the clock do, a plan that is returned has
    been simulated, and no variant the planner evaluated beats it: not the
    baseline, not a seed, not a trial.  A planner whose builder and policy refuse by
    [ValueError] only fails when all three fixed choices are infeasible. *)
From S2P Require Import Prelude SimSchema SimValidate SimVersions Simulator RcReport RcAccounts RcPlan.
From stdpp Require Import base tactics option list gmap strings.
From Stdlib Require Import ZArith Lia QArith Qcanon.
Open Scope Z_scope.
Open Scope string_scope.
Open Scope list_scope.
Open Scope Z_scope.

(** ** Dicts with the same keys *)
Lemma assoc_set_fst {V} (d : list (string * V)) k v :
  (assoc_set d k v).*1 = if decide (k ∈ d.*1) then d.*1 else d.*1 ++ [k].
Proof.
  destruct (assoc_get d k) as [w|] eqn:Hg.
  - apply assoc_get_split in Hg as (d1 & d2 & -> & Hk). rewrite assoc_set_middle, !fmap_app, !fmap_cons by done. simpl.
    rewrite decide_True; [done|]. apply elem_of_app. right. by left.
  - apply assoc_get_none in Hg. by rewrite assoc_set_absent, fmap_app, decide_False by done.
Qed.

Lemma assoc_get_keys {V} (d : list (string * V)) k : k ∈ d.*1 → ∃ v, assoc_get d k = Some v.
Proof. intros Hk. destruct (assoc_get d k) as [v|] eqn:Hg; [eauto|]. by apply assoc_get_none in Hg. Qed.

Lemma rewrites_get_elem {V} (d : list (string * V)) k v : assoc_get d k = Some v → (k, v) ∈ d.
Proof. intros Hg. apply assoc_get_split in Hg as (d1 & d2 & -> & _). apply elem_of_app. right. by left. Qed.

Section PlanOk.
Context {T : Type} `{NumLaws T, NumDiv T} {E : Type}.
Variable is_value_error : E → bool.
Variable build_variant : Levels → result E (TaskChain T).
Variable policy_fn : TaskChain T → result E (TaskChain T).
Variable rewrites : list (RecomputeRewrite T).
Variable perf_counter : nat → T.
Variable max_iters : Z.
Variable max_wall_s : option T.
Local Notation "a ⊑ b" := (num_leb a b = true) (at level 70).
Local Notation evaluate := (evaluate build_variant policy_fn).
Local Notation evaluated := (evaluated is_value_error build_variant policy_fn).
Local Notation plan := (plan_with_recompute is_value_error build_variant policy_fn rewrites perf_counter max_iters max_wall_s).
Implicit Types (rw : RecomputeRewrite T) (lv : Levels) (v current best : Variant (T:=T)) (s : Planning (T:=T)).

(** ** Levels *)

(** A level the rewrite offers, or none at all. *)
Definition offers rw (l : Z) : Prop := l = 0 ∨ ∃ o, o ∈ rw_options rw ∧ op_level o = l.

Definition key_list : list string :=
  foldl (λ ks rw, if decide (rw_object_id rw ∈ ks) then ks else ks ++ [rw_object_id rw]) [] rewrites.

Definition levels_ok lv : Prop :=
  lv.*1 = key_list ∧ ∀ o l, (o, l) ∈ lv → ∃ rw, rw ∈ rewrites ∧ rw_object_id rw = o ∧ offers rw l.

(** A loop that assigns each rewrite an offered level. *)
Lemma levels_fold {B} (f : B → RecomputeRewrite T → result (PlanError E) B) (lv_of : B → Levels) (rws : list (RecomputeRewrite T)) :
  (∀ b rw b', rw ∈ rws → f b rw = Ok b' → ∃ l, offers rw l ∧ lv_of b' = assoc_set (lv_of b) (rw_object_id rw) l) →
  ∀ b b', foldR f b rws = Ok b' →
    (lv_of b').*1 = foldl (λ ks rw, if decide (rw_object_id rw ∈ ks) then ks else ks ++ [rw_object_id rw]) (lv_of b).*1 rws ∧
    ∀ o l, (o, l) ∈ lv_of b' → (o, l) ∈ lv_of b ∨ ∃ rw, rw ∈ rws ∧ rw_object_id rw = o ∧ offers rw l.
Proof.
  induction rws as [|rw rws IH]; intros Hf b b'; simpl.
  { intros [= <-]. split; [done|]. intros o l Hin. by left. }
  rewrite result_bind_ok. intros (b1 & Hb1 & Hb').
  destruct (Hf _ _ _ (list_elem_of_here _ _) Hb1) as (l0 & Hl0 & Hset).
  destruct (IH (λ b rw b' Hin, Hf b rw b' (list_elem_of_further _ _ _ Hin)) _ _ Hb') as [Hk Hin]. split.
  - rewrite Hk, Hset, assoc_set_fst. done.
  - intros o l Ho. destruct (Hin o l Ho) as [Ho1|(rw' & ? & ?)]; [|right; exists rw'; split; [by right|done]].
    rewrite Hset in Ho1. apply elem_of_assoc_set in Ho1 as [[= -> ->]|?]; [|by left].
    right. exists rw. split; [by left|done].
Qed.

Lemma offers_zero rw : offers rw 0.
Proof. by left. Qed.

Lemma last_level_offered rw l : last_level (E:=E) rw = Ok l → offers rw l.
Proof.
  unfold last_level. destruct (last (rw_options rw)) as [o|] eqn:Hl; [|done]. intros [= <-]. right. exists o.
  apply last_Some in Hl as [os ->]. split; [apply elem_of_app; right; by left|done].
Qed.

Lemma levels_ok_fold {B} (f : B → RecomputeRewrite T → result (PlanError E) B) (lv_of : B → Levels) b b' :
  lv_of b = [] →
  (∀ b rw b', rw ∈ rewrites → f b rw = Ok b' → ∃ l, offers rw l ∧ lv_of b' = assoc_set (lv_of b) (rw_object_id rw) l) →
  foldR f b rewrites = Ok b' → levels_ok (lv_of b').
Proof.
  intros Hb Hf Hfold. destruct (levels_fold f lv_of rewrites Hf b b' Hfold) as [Hk Hin]. rewrite Hb in *. split; [done|].
  intros o l Ho. destruct (Hin o l Ho) as [Ho'%elem_of_nil|?]; done.
Qed.

Lemma foldR_pure {A B} (g : B → A → B) l b : foldR (λ b x, Ok (g b x)) b l = (Ok (foldl g b l) : result (PlanError E) B).
Proof. revert b. induction l as [|x l IH]; intros b; simpl; [done|apply IH]. Qed.

Lemma zero_levels_ok : levels_ok (zero_levels rewrites).
Proof.
  eapply (levels_ok_fold (λ d rw, Ok (assoc_set d (rw_object_id rw) 0)) id []); [done| |apply foldR_pure].
  intros b rw b' _ [= <-]. exists 0. split; [apply offers_zero|done].
Qed.

Lemma seed_all_ok lv : seed_all (E:=E) rewrites = Ok lv → levels_ok lv.
Proof.
  intros Hf. eapply (levels_ok_fold _ id []); [done| |exact Hf].
  intros b rw b' _ Hb. apply result_bind_ok in Hb as (l & Hl & [= <-]). exists l. split; [by apply last_level_offered|done].
Qed.

Lemma seed_half_ok lv : seed_half (E:=E) rewrites = Ok lv → levels_ok lv.
Proof.
  unfold seed_half. rewrite result_bind_ok. intros (d & Hf & [= <-]).
  eapply (levels_ok_fold _ fst ([], O)); [done| |exact Hf].
  intros b rw b' _ Hb. apply result_bind_ok in Hb as (l & Hl & [= <-]). exists l. split; [|done].
  destruct (Nat.even b.2); [by apply last_level_offered|]. injection Hl as <-. apply offers_zero.
Qed.

Lemma next_level_of_offered os l : next_level_of os l = l ∨ ∃ o, o ∈ os ∧ op_level o = next_level_of (T:=T) os l.
Proof.
  induction os as [|o os IH]; simpl; [by left|]. destruct (l <? op_level o); [right; exists o; split; [by left|done]|].
  destruct IH as [?|(o' & ? & ?)]; [by left|right]. exists o'. split; [by right|done].
Qed.

(** The table of rewrites has the same keys, and each entry is a rewrite. *)
Lemma rewrites_by_obj_spec : (rewrites_by_obj rewrites).*1 = key_list ∧
  ∀ o rw, (o, rw) ∈ rewrites_by_obj rewrites → rw ∈ rewrites ∧ rw_object_id rw = o.
Proof.
  unfold rewrites_by_obj, key_list.
  assert (∀ rws d, (∀ rw, rw ∈ rws → rw ∈ rewrites) → (∀ o rw, (o, rw) ∈ d → rw ∈ rewrites ∧ rw_object_id rw = o) →
    (foldl (λ d rw, assoc_set d (rw_object_id rw) rw) d rws).*1 =
      foldl (λ ks rw, if decide (rw_object_id rw ∈ ks) then ks else ks ++ [rw_object_id rw]) d.*1 rws ∧
    ∀ o rw, (o, rw) ∈ foldl (λ d rw, assoc_set d (rw_object_id rw) rw) d rws → rw ∈ rewrites ∧ rw_object_id rw = o) as Hfold.
  { intros rws. induction rws as [|rw rws IH]; intros d Hsub Hd; simpl; [done|]. rewrite <-assoc_set_fst with (v := rw). apply IH.
    - intros rw' Hin. apply Hsub. by right.
    - intros o rw' Hin. apply elem_of_assoc_set in Hin as [[= -> ->]|Hin]; [|by apply Hd].
      split; [apply Hsub; by left|done]. }
  apply (Hfold rewrites []); [done|]. intros o rw Hin%elem_of_nil. done.
Qed.

Lemma convert_ok lv cs lv' : levels_ok lv → convert rewrites lv cs = Ok (E:=PlanError E) lv' → levels_ok lv'.
Proof.
  unfold convert. revert lv. induction cs as [|[o x] cs IH]; intros lv Hlv; simpl; [by intros [= <-]|].
  rewrite result_bind_ok. intros (lv1 & Hlv1 & Hrest).
  destruct (assoc_get (rewrites_by_obj rewrites) o) as [rw|] eqn:Hrw; [|done].
  destruct (assoc_get lv o) as [l|] eqn:Hl; [|done]. injection Hlv1 as <-. eapply IH; [|exact Hrest].
  destruct Hlv as [Hk Hin]. split.
  - rewrite assoc_set_fst, decide_True; [done|]. apply rewrites_get_elem in Hl. by apply (list_elem_of_fmap_2 fst) in Hl.
  - intros o' l' Ho'. apply elem_of_assoc_set in Ho' as [[= -> ->]|?]; [|by apply Hin].
    unfold next_level. destruct (next_level_of_offered (rw_options rw) l) as [->|Ho].
    + by apply rewrites_get_elem, Hin in Hl.
    + apply rewrites_get_elem, rewrites_by_obj_spec in Hrw as [Hrw Hid]. exists rw. split_and!; [done..|by right].
Qed.

Lemma convert_total lv cs : lv.*1 = key_list → (∀ c, c ∈ cs → c.1 ∈ key_list) →
  ∃ lv', convert (E:=E) rewrites lv cs = Ok lv'.
Proof.
  unfold convert. revert lv. induction cs as [|[o x] cs IH]; intros lv Hlv Hcs; simpl; [eauto|].
  assert (o ∈ key_list) as Ho by (apply (Hcs (o, x)); by left).
  destruct (assoc_get_keys (rewrites_by_obj rewrites) o) as [rw ->]; [by rewrite (proj1 rewrites_by_obj_spec)|].
  destruct (assoc_get_keys lv o) as [l Hl]; [by rewrite Hlv|]. rewrite Hl. simpl. apply IH.
  - rewrite assoc_set_fst, decide_True; [done|]. by rewrite Hlv.
  - intros c Hc. apply Hcs. by right.
Qed.

(** ** What the caller relies on

    Distinct objects, each with a level 0 among its options, and refusals by
    [ValueError] only. *)
Definition sound : Prop :=
  NoDup (rw_object_id <$> rewrites) ∧
  (∀ rw, rw ∈ rewrites → ∃ o, o ∈ rw_options rw ∧ op_level o = 0) ∧
  (∀ lv e, evaluate lv = Err e → value_error is_value_error e = true).

Lemma option_at_ok oid os l : (∃ o, o ∈ os ∧ op_level (T:=T) o = l) → ∃ o, option_at (E:=E) oid os l = Ok o.
Proof.
  induction os as [|o os IH]; simpl; [by intros (o & Ho%elem_of_nil & _)|]. intros (o' & Ho' & Hl).
  destruct (op_level o =? l) eqn:He; [eauto|]. apply Z.eqb_neq in He. apply IH. exists o'. split; [|done].
  apply elem_of_cons in Ho' as [->|?]; done.
Qed.

Lemma offered_ok rw l : sound → rw ∈ rewrites → offers rw l → ∃ o, option_ (E:=E) rw l = Ok o.
Proof. intros (_ & Hz & _) Hrw [->|Ho]; apply option_at_ok; [by apply Hz|done]. Qed.

Lemma ranked_candidates_spec lv report : levels_ok lv →
  match ranked_candidates (E:=E) rewrites lv report with
  | Ok out => ∀ c, c ∈ out → c.1 ∈ key_list
  | Err _ => ¬ sound
  end.
Proof.
  intros [Hk Hlv]. destruct rewrites_by_obj_spec as [Hkeys Hin]. unfold ranked_candidates.
  destruct (foldR (candidate lv report) [] (rewrites_by_obj rewrites)) as [out|e] eqn:Hf; simpl.
  - intros c. rewrite elem_of_py_sorted. revert c.
    apply (foldR_ok_inv _ (λ _ out, ∀ c, c ∈ out → c.1 ∈ key_list) _ _ _ O Hf); [by intros c Hc%elem_of_nil|].
    simpl. intros j [o rw] b b' Hj Hb Hstep.
    unfold candidate in Hstep. destruct (_ =? _); [by injection Hstep as <-|].
    apply result_bind_ok in Hstep as (o1 & _ & Hstep). apply result_bind_ok in Hstep as (o2 & _ & [= <-]).
    destruct (num_ltb _ _); [|done]. intros c [Hc| ->%list_elem_of_singleton]%elem_of_app; [by apply Hb|]. simpl.
    rewrite <-Hkeys. apply (list_elem_of_fmap_2 fst _ (o, rw)). apply list_elem_of_lookup. eauto.
  - intros Hsound. apply foldR_err in Hf as (out & [o rw] & Hrw & He). destruct (Hin _ _ Hrw) as [Hrw' Hid].
    unfold candidate in He. destruct (_ =? _) eqn:Hnxt in He; [done|]. apply Z.eqb_neq in Hnxt.
    destruct (assoc_get_keys lv o) as [l Hl]; [rewrite Hk, <-Hkeys; by apply (list_elem_of_fmap_2 fst _ (o, rw))|].
    rewrite Hl in *. simpl in *. apply rewrites_get_elem, Hlv in Hl as (rw0 & Hrw0 & Hid0 & Hoff).
    assert (rw0 = rw) as ->.
    { destruct Hsound as (Hnd & _). apply list_elem_of_lookup in Hrw' as [i Hi], Hrw0 as [j Hj].
      assert (i = j) as ->; [|congruence]. apply (NoDup_lookup _ _ _ o Hnd); rewrite list_lookup_fmap; [rewrite Hi|rewrite Hj]; simpl; congruence. }
    destruct (offered_ok rw l Hsound Hrw' Hoff) as [o1 Ho1]. rewrite Ho1 in He. simpl in He.
    destruct (next_level_of_offered (rw_options rw) l) as [Heq|Hoff']; [by destruct Hnxt|].
    destruct (offered_ok rw (next_level rw l) Hsound Hrw') as [o2 Ho2]; [by right|]. rewrite Ho2 in He. done.
Qed.

(** ** The invariant of the loops *)
Definition replayed v : Prop := evaluate (v_levels v) = Ok (v.1.2, v_report v).
Definition valid v : Prop := replayed v ∧ levels_ok (v_levels v).
Definition unbeaten best s : Prop :=
  ∀ st x, st ∈ pl_history s → st_makespan_us st = Some x → v_makespan best ⊑ x.

Record Searching current best s : Prop := {
  se_current : valid current;
  se_best : valid best;
  se_least : v_makespan best ⊑ v_makespan current;
  se_unbeaten : unbeaten best s;
}.

Lemma Searching_ticks current best s s' :
  pl_history s' = pl_history s → Searching current best s → Searching current best s'.
Proof. intros Hh [? ? ? Hu]. split; try done. intros st x. rewrite Hh. apply Hu. Qed.

Lemma unbeaten_record best s step : unbeaten best s → (∀ x, st_makespan_us step = Some x → v_makespan best ⊑ x) →
  unbeaten best (mkPlanning (pl_history s ++ [step]) (pl_ticks s)).
Proof.
  intros Hu Hx st x. simpl. rewrite elem_of_app, list_elem_of_singleton. intros [Hst| ->]; [by apply Hu|by apply Hx].
Qed.

Lemma wp_now_bind {B} (f : T → M (Planning (T:=T)) (PlanError E) B) s Q R :
  (∀ t s', pl_history s' = pl_history s → wp (f t) s' Q R) → wp (now perf_counter ≫= f) s Q R.
Proof. intros Hf. unfold now. wp_auto. by apply Hf. Qed.

Lemma wp_over_budget_bind {B} t0 (f : bool → M (Planning (T:=T)) (PlanError E) B) s Q R :
  (∀ b s', pl_history s' = pl_history s → wp (f b) s' Q R) → wp (over_budget perf_counter max_wall_s t0 ≫= f) s Q R.
Proof.
  intros Hf. unfold over_budget. destruct max_wall_s; [|wp_auto; by apply Hf].
  apply wp_bind_assoc, wp_now_bind. intros ? s' Hs'. wp_auto. by apply Hf.
Qed.

Lemma evaluated_spec lv :
  match evaluated lv with
  | Ok (inl (c, r)) => evaluate lv = Ok (c, r)
  | Ok (inr e) => evaluate lv = Err e
  | Err _ => ¬ sound
  end.
Proof.
  unfold RcPlan.evaluated. destruct (evaluate lv) as [[c r]|e] eqn:He; [done|].
  destruct (value_error is_value_error e) eqn:Hv; [done|]. intros (_ & _ & Hs). apply Hs in He. congruence.
Qed.

Lemma num_ltb_nle (a b : T) : num_ltb a b = true → a ⊑ b.
Proof. apply num_ltb_weaken. Qed.

Lemma Searching_better current best s trial m step :
  Searching current best s → valid trial → v_makespan trial = m → num_ltb m (v_makespan current) = true →
  st_makespan_us step = Some m →
  let best' := if num_ltb m (v_makespan best) then trial else best in
  Searching trial best' (mkPlanning (pl_history s ++ [step]) (pl_ticks s)) ∧ v_makespan best' ⊑ v_makespan best.
Proof.
  intros [Hc Hb Hle Hu] Ht Hm Hlt Hstep. destruct (num_ltb m (v_makespan best)) eqn:Hltb; subst m.
  - split; [split; try done|by apply num_ltb_weaken]; [apply num_leb_refl|].
    apply unbeaten_record; [|intros x [= <-]%(eq_trans (eq_sym Hstep)); apply num_leb_refl].
    intros st x Hst Hx. eapply num_leb_trans; [apply num_ltb_weaken, Hltb|]. by eapply Hu.
  - apply num_ltb_false in Hltb. split; [split; try done|apply num_leb_refl].
    apply unbeaten_record; [done|]. by intros x [= <-]%(eq_trans (eq_sym Hstep)).
Qed.

Lemma try_batches_spec fuel t0 candidates : (∀ c, c ∈ candidates → c.1 ∈ key_list) → ∀ batch current best,
  triple (Searching current best)
    (try_batches is_value_error build_variant policy_fn rewrites perf_counter max_wall_s fuel t0 candidates batch current best)
    (λ r s, match r with
            | None => Searching current best s
            | Some (c, b) => Searching c b s ∧ v_makespan b ⊑ v_makespan best
            end) (λ _ _, ¬ sound).
Proof.
  intros Hcs. induction fuel as [|fuel IH]; intros batch current best s Hs; [exact Hs|cbn [try_batches]].
  destruct (1 <=? batch)%nat; [|exact Hs]. apply wp_over_budget_bind. intros over s1 Hs1.
  apply (Searching_ticks _ _ _ s1 Hs1) in Hs. destruct over; [exact Hs|]. apply wp_lift_bind.
  2:{ intros e He. exfalso. destruct (convert_total (v_levels current) (take batch candidates)) as [lv' Hlv'];
        [apply Hs|intros c Hc; apply Hcs; apply elem_of_take in Hc as (i & Hi & _); apply list_elem_of_lookup; eauto|congruence]. }
  intros lv Hlv. apply convert_ok in Hlv; [|apply Hs]. pose proof (evaluated_spec lv) as Hev.
  apply wp_lift_bind; [|by intros e He; rewrite He in Hev]. intros [[c r]|e] Hr; rewrite Hr in Hev; [|by apply IH].
  unfold record. wp_auto.
  - apply (Searching_better current best s1 (lv, c, r)); try done.
  - apply IH. destruct Hs as [Hc Hb Hle Hu]. split; try done. apply unbeaten_record; [done|]. intros x [= <-].
    eapply num_leb_trans; [exact Hle|]. by apply num_ltb_false.
Qed.

Lemma evidence_loop_spec iters t0 : ∀ current best,
  triple (Searching current best)
    (evidence_loop is_value_error build_variant policy_fn rewrites perf_counter max_wall_s iters t0 current best)
    (λ b s, valid b ∧ unbeaten b s ∧ v_makespan b ⊑ v_makespan best) (λ _ _, ¬ sound).
Proof.
  induction iters as [|iters IH]; intros current best s Hs; simpl.
  { wp_auto; split_and!; [apply Hs..|apply num_leb_refl]. }
  apply wp_over_budget_bind. intros over s1 Hs1. apply (Searching_ticks _ _ _ s1 Hs1) in Hs.
  destruct over; [wp_auto; split_and!; [apply Hs..|apply num_leb_refl]|].
  pose proof (ranked_candidates_spec (v_levels current) (v_report current) (proj2 (se_current _ _ _ Hs))) as Hcs.
  apply wp_lift_bind; [|by intros e He; rewrite He in Hcs]. intros cs Hr. rewrite Hr in Hcs.
  destruct cs as [|c cs]; [wp_auto; split_and!; [apply Hs..|apply num_leb_refl]|].
  eapply wp_call_bind; [by apply try_batches_spec|exact Hs|]. intros [[c' b']|] s2 Hs2.
  - destruct Hs2 as [Hs2 Hle]. eapply wp_mono; [by apply IH| |done]. intros b s3 (? & ? & ?). split_and!; try done.
    by eapply num_leb_trans.
  - wp_auto; split_and!; [apply Hs2..|apply num_leb_refl].
Qed.

(** ** The fixed choices *)
Definition fixed_choice lv : Prop :=
  lv = zero_levels rewrites ∨ seed_all (E:=E) rewrites = Ok lv ∨ seed_half (E:=E) rewrites = Ok lv.

Definition beats (best : option (Variant (T:=T))) (x : T) : Prop := ∃ b, best = Some b ∧ v_makespan b ⊑ x.

Definition Best (best : option (Variant (T:=T))) s : Prop :=
  match best with
  | Some b => valid b ∧ unbeaten b s
  | None => ∀ st, st ∈ pl_history s → st_makespan_us st = None
  end.

(** What evaluating [lv] adds to the best variant so far. *)
Record tried lv (best best' : option (Variant (T:=T))) s : Prop := {
  tr_best : Best best' s;
  tr_kept : ∀ b, best = Some b → beats best' (v_makespan b);
  tr_new : ∀ c r, evaluate lv = Ok (c, r) → beats best' (makespan_us r);
  tr_from : ∀ b, best' = Some b → best = Some b ∨ evaluate lv = Ok (b.1.2, v_report b);
  tr_none : best' = None → best = None ∧ ∃ e, evaluate lv = Err e;
}.

Lemma beats_trans (best best' : option (Variant (T:=T))) x :
  (∀ b, best = Some b → beats best' (v_makespan b)) → beats best x → beats best' x.
Proof.
  intros Hk (b & -> & Hb). destruct (Hk b eq_refl) as (b' & -> & Hb'). exists b'. split; [done|]. by eapply num_leb_trans.
Qed.

Lemma beats_some v (x : T) : v_makespan v ⊑ x → beats (Some v) x.
Proof. intros Hv. by exists v. Qed.

Lemma Best_none_unbeaten b s step : (∀ st, st ∈ pl_history s → st_makespan_us st = None) →
  (∀ x, st_makespan_us step = Some x → v_makespan b ⊑ x) →
  unbeaten b (mkPlanning (pl_history s ++ [step]) (pl_ticks s)).
Proof. intros Hn. apply unbeaten_record. intros st x Hst Hx. rewrite (Hn st Hst) in Hx. done. Qed.

Lemma try_seed_spec name lv (best : option (Variant (T:=T))) : levels_ok lv →
  triple (Best best) (try_seed is_value_error build_variant policy_fn name lv best)
    (λ (best' : option (Variant (T:=T))) s, tried lv best best' s) (λ _ _, ¬ sound).
Proof.
  intros Hlv s Hs. unfold try_seed. pose proof (evaluated_spec lv) as Hev.
  apply wp_lift_bind; [|by intros e He; rewrite He in Hev]. intros [[c r]|e] Hr; rewrite Hr in Hev; unfold record; wp_auto.
  - assert (valid (lv, c, r)) as Hv by done. destruct best as [b|]; simpl in *.
    + destruct Hs as [Hb Hu]. destruct (num_ltb (makespan_us r) (v_makespan b)) eqn:Hlt.
      * split; simpl; [split; [done|]| | |by intros b' [= <-]; right|done].
        -- apply unbeaten_record; [|intros x [= <-]; apply num_leb_refl]. intros st x Hst Hx.
           eapply num_leb_trans; [apply num_ltb_weaken, Hlt|by eapply Hu].
        -- intros b' [= <-]. by apply beats_some, num_ltb_weaken.
        -- intros c' r' Hcr. rewrite Hev in Hcr. injection Hcr as <- <-. apply beats_some, num_leb_refl.
      * apply num_ltb_false in Hlt. split; simpl; [split; [done|]| | |by left|done].
        -- apply unbeaten_record; [done|by intros x [= <-]].
        -- intros b' [= <-]. apply beats_some, num_leb_refl.
        -- intros c' r' Hcr. rewrite Hev in Hcr. injection Hcr as <- <-. by apply beats_some.
    + split; simpl; [split; [done|]|done| |by intros b' [= <-]; right|done].
      * apply Best_none_unbeaten; [done|intros x [= <-]; apply num_leb_refl].
      * intros c' r' Hcr. rewrite Hev in Hcr. injection Hcr as <- <-. apply beats_some, num_leb_refl.
  - split; [done| | |by left|].
    + intros b ->. apply beats_some, num_leb_refl.
    + intros c r Hcr. congruence.
    + intros ->. eauto.
Qed.

Lemma try_baseline_spec s : pl_history s = [] →
  wp (try_baseline is_value_error build_variant policy_fn rewrites) s
    (λ ge s', tried (zero_levels rewrites) None ge.1 s' ∧
      (ge.1 = None → ∃ e, ge.2 = Some e ∧ evaluate (zero_levels rewrites) = Err e)) (λ _ _, ¬ sound).
Proof.
  intros Hs. unfold try_baseline. pose proof (evaluated_spec (zero_levels rewrites)) as Hev.
  apply wp_lift_bind; [|by intros e He; rewrite He in Hev]. intros [[c r]|e] Hr; rewrite Hr in Hev; unfold record; wp_auto; simpl.
  - split; [split|done]; simpl; try done.
    + split; [split; [done|apply zero_levels_ok]|]. intros st x. rewrite Hs. by intros ?%elem_of_nil.
    + intros c' r' Hcr. rewrite Hev in Hcr. injection Hcr as <- <-. apply beats_some, num_leb_refl.
    + intros g [= <-]. by right.
  - split; [split|eauto]; simpl; try done.
    + intros st. rewrite Hs. by intros ->%list_elem_of_singleton.
    + congruence.
    + eauto.
Qed.

Lemma last_level_total rw : sound → rw ∈ rewrites → ∃ l, last_level (E:=E) rw = Ok l.
Proof.
  intros (_ & Hz & _) Hrw. destruct (Hz rw Hrw) as (o & Ho & _). unfold last_level.
  destruct (last (rw_options rw)) as [o'|] eqn:Hl; [eauto|]. apply last_None in Hl. rewrite Hl in Ho. by apply elem_of_nil in Ho.
Qed.

Lemma seed_all_total e : seed_all (E:=E) rewrites = Err e → ¬ sound.
Proof.
  intros He Hs. apply foldR_err in He as (d & rw & Hrw & He). destruct (last_level_total rw Hs Hrw) as [l Hl].
  by rewrite Hl in He.
Qed.

Lemma seed_half_total e : seed_half (E:=E) rewrites = Err e → ¬ sound.
Proof.
  unfold seed_half. rewrite result_bind_err. intros [He|(? & _ & ?)] Hs; [|done].
  apply foldR_err in He as (d & rw & Hrw & He). destruct (last_level_total rw Hs Hrw) as [l Hl].
  destruct (Nat.even d.2); [by rewrite Hl in He|done].
Qed.

(** ** Whole runs *)
Record planned (r : RecomputePlanResult T) : Prop := {
  pd_replays : evaluate (pr_levels r) = Ok (pr_chain r, pr_report r);
  pd_makespan : pr_makespan_us r = makespan_us (pr_report r);
  pd_levels : levels_ok (pr_levels r);
  pd_fixed : ∀ lv c rep, fixed_choice lv → evaluate lv = Ok (c, rep) → pr_makespan_us r ⊑ makespan_us rep;
  pd_history : ∀ st x, st ∈ pr_history r → st_makespan_us st = Some x → pr_makespan_us r ⊑ x;
  pd_baseline : ∀ b, pr_baseline_makespan_us r = Some b →
    pr_makespan_us r ⊑ b ∧ ∃ c rep, evaluate (zero_levels rewrites) = Ok (c, rep) ∧ b = makespan_us rep;
}.

Definition feasible : Prop := ∃ lv c rep, fixed_choice lv ∧ evaluate lv = Ok (c, rep).

Lemma plan_body_spec :
  wp (plan_body is_value_error build_variant policy_fn rewrites perf_counter max_iters max_wall_s) (mkPlanning [] 0)
    (λ r _, planned r ∧ feasible)
    (λ e _, ¬ sound ∨ (evaluate (zero_levels rewrites) = Err e ∧ ¬ feasible)).
Proof.
  unfold plan_body. apply wp_now_bind. intros t0 s0 Hs0. apply wp_bind.
  eapply wp_mono; [by apply try_baseline_spec| |by intros; left]. intros [g err] s1 ([Hb1 _ Hn1 Hg _] & Herr). simpl in *.
  apply wp_lift_bind; [|intros e He; left; by eapply seed_all_total]. intros all Hall.
  apply wp_lift_bind; [|intros e He; left; by eapply seed_half_total]. intros half Hhalf.
  apply wp_bind. eapply wp_mono; [by apply try_seed_spec; [eapply seed_all_ok|]| |by intros; left]. intros best2 s2 [Hb2 Hk2 Hn2 Hf2 Hz2].
  apply wp_bind. eapply wp_mono; [by apply try_seed_spec; [eapply seed_half_ok|]| |by intros; left]. intros best3 s3 [Hb3 Hk3 Hn3 Hf3 Hz3].
  assert (∀ lv c rep, fixed_choice lv → evaluate lv = Ok (c, rep) → beats best3 (makespan_us rep)) as Hfix.
  { intros lv c rep [->|[Hlv|Hlv]] Hev.
    - eapply beats_trans; [exact Hk3|]. eapply beats_trans; [exact Hk2|]. by eapply Hn1.
    - rewrite Hall in Hlv. injection Hlv as <-. eapply beats_trans; [exact Hk3|]. by eapply Hn2.
    - rewrite Hhalf in Hlv. injection Hlv as <-. by eapply Hn3. }
  destruct best3 as [b3|].
  2:{ wp_auto. right. destruct (Hz3 eq_refl) as [-> _]. destruct (Hz2 eq_refl) as [-> _].
      destruct (Herr eq_refl) as (e & -> & He). split; [done|]. intros (lv & c & rep & Hlv & Hev).
      by destruct (Hfix lv c rep Hlv Hev) as (b & ? & _). }
  assert (Searching (default b3 g) b3 s3) as Hs3.
  { destruct Hb3 as [Hv3 Hu3]. destruct g as [g|]; simpl; split; try done; [apply Hb1| |apply num_leb_refl].
    destruct (beats_trans (Some g) (Some b3) (v_makespan g)) as (b & [= <-] & Hle); [|by apply beats_some, num_leb_refl|done].
    intros b [= <-]. destruct (Hk2 g eq_refl) as (b2 & -> & Hle2). by eapply beats_trans; [exact Hk3|apply beats_some]. }
  apply wp_bind. eapply wp_mono; [by apply (evidence_loop_spec _ _ _ _ _ Hs3)| |by intros; left].
  intros b s4 ([Hrep Hlv] & Hu & Hle). apply wp_now_bind. intros t1 s5 Hs5. wp_auto.
  assert (feasible) as Hfeas.
  { destruct (Hf3 b3 eq_refl) as [Heq|Hev]; [|exists half, b3.1.2, (v_report b3); split; [by right; right|done]].
    destruct (Hf2 b3 Heq) as [Heq2|Hev]; [|exists all, b3.1.2, (v_report b3); split; [by right; left|done]].
    destruct (Hg b3 Heq2) as [|Hev]; [done|]. exists (zero_levels rewrites), b3.1.2, (v_report b3). split; [by left|done]. }
  split; [|done]. split; simpl; try done.
  - intros lv c rep Hlv' Hev. destruct (Hfix lv c rep Hlv' Hev) as (b' & [= <-] & Hb'). by eapply num_leb_trans.
  - intros st x. rewrite Hs5. apply Hu.
  - intros x Hx. destruct g as [g|]; [|done]. injection Hx as <-. destruct (Hg g eq_refl) as [|Hg']; [done|].
    destruct (Hfix (zero_levels rewrites) g.1.2 (v_report g)) as (b' & [= <-] & Hb'); [by left|done|].
    split; [by eapply num_leb_trans|eauto].
Qed.

(** C31: A plan that the recompute planner returns never loses: its chain is the policy's
    for the builder's variant of its levels, its report is that of the chain's
    simulation, every level is 0 or one the object offers, and its makespan is at
    most that of the baseline, of both seeds and of every step of its history. *)
Theorem recompute_never_loses r :
  plan = Ok r →
  (∃ bare log, build_variant (pr_levels r) = Ok bare ∧ policy_fn bare = Ok (pr_chain r) ∧
     run (pr_chain r) true false false = Ok log ∧ build_stall_report (pr_chain r) log = Ok (pr_report r)) ∧
  pr_makespan_us r = makespan_us (pr_report r) ∧
  levels_ok (pr_levels r) ∧
  (∀ lv c rep, fixed_choice lv → evaluate lv = Ok (c, rep) → pr_makespan_us r ⊑ makespan_us rep) ∧
  (∀ st x, st ∈ pr_history r → st_makespan_us st = Some x → pr_makespan_us r ⊑ x) ∧
  (∀ b, pr_baseline_makespan_us r = Some b → pr_makespan_us r ⊑ b).
Proof.
  intros Hr. pose proof plan_body_spec as Hwp. unfold plan_with_recompute in Hr. unfold wp in Hwp.
  destruct (plan_body _ _ _ _ _ _ _ _) as [[r'|e] s]; [injection Hr as ->|done]. destruct Hwp as [[Hev Hm Hl Hf Hh Hb] _].
  split_and!; [|done..|intros b Hx; by apply Hb]. unfold RcPlan.evaluate in Hev.
  apply result_bind_ok in Hev as (bare & Hbare & Hev). apply result_bind_ok in Hev as (ann & Hann & Hev).
  apply result_bind_ok in Hev as (log & Hlog & Hev). apply result_bind_ok in Hev as (rep & Hrep & [= <- <-]).
  exists bare, log. unfold lift_err in *.
  destruct (build_variant _); [injection Hbare as ->|done]. destruct (policy_fn _); [injection Hann as ->|done].
  destruct (run _ _ _ _); [injection Hlog as ->|done]. destruct (build_stall_report _ _); [injection Hrep as ->|done]. done.
Qed.

(** C35: When the objects are distinct and each may be saved whole, and builder and policy
    refuse by [ValueError] only, the planner returns a plan exactly if the baseline
    or one of the two seeds is feasible; otherwise it raises what refused the baseline. *)
Theorem recompute_returns : sound →
  match plan with
  | Ok _ => feasible
  | Err e => evaluate (zero_levels rewrites) = Err e ∧ ¬ feasible
  end.
Proof.
  intros Hs. pose proof plan_body_spec as Hwp. unfold plan_with_recompute. unfold wp in Hwp.
  destruct (plan_body _ _ _ _ _ _ _ _) as [[r|e] s]; [by destruct Hwp|by destruct Hwp as [Hn|?]].
Qed.

(** The fuel of the batches never runs out. *)
Lemma try_batches_fuel t0 candidates fuel : ∀ batch current best s, (batch ≤ fuel)%nat →
  try_batches is_value_error build_variant policy_fn rewrites perf_counter max_wall_s fuel t0 candidates batch current best s =
  try_batches is_value_error build_variant policy_fn rewrites perf_counter max_wall_s batch t0 candidates batch current best s.
Proof.
  induction fuel as [fuel IH] using lt_wf_ind. intros batch current best s Hle. destruct batch as [|batch].
  { by destruct fuel. }
  destruct fuel as [|fuel]; [lia|]. cbn [try_batches]. change (1 <=? S batch)%nat with true. cbv iota.
  assert (S batch / 2 ≤ batch)%nat as Hhalf by (apply Nat.lt_succ_r, Nat.div_lt; lia).
  assert (∀ s, try_batches is_value_error build_variant policy_fn rewrites perf_counter max_wall_s fuel t0 candidates (S batch / 2) current best s =
    try_batches is_value_error build_variant policy_fn rewrites perf_counter max_wall_s batch t0 candidates (S batch / 2) current best s) as Heq.
  { intros s'. rewrite (IH fuel) by lia. by rewrite (IH batch) by lia. }
  unfold mbind, M_bind. destruct (over_budget _ _ _ s) as [[[]|e] s1]; [done| |done].
  destruct (lift _ s1) as [[lv|e] s2]; [|done]. destruct (lift _ s2) as [[[[c r]|e]|e] s3]; [|apply Heq|done].
  destruct (record _ s3) as [[[]|e] s4]; [|done]. destruct (num_ltb _ _); [done|apply Heq].
Qed.
End PlanOk.

(** ** A choice that pays

    Saving [W] makes the last task wait eleven units for it; recomputing it costs three. *)
Module Payoff.
Definition us (z : Z) : Qc := num_of_Z z.
Definition rewrite : RecomputeRewrite Qc :=
  mkRewrite "W" "step" "redo" [mkOption 0 8 (us 0) ""; mkOption 1 0 (us 3) ""] "" "" "".
Definition recomputed_chain : TaskChain Qc :=
  mkChain [mkObject "W" 8 Backing "weight"; mkObject "W" 8 Fast "weight"]
    [mkTask "step" ["W"] [] (us 5) 0 [] [mkTrigger "W" None] [] ["W"];
     mkTask "idle" [] [] (us 5) 0 [] [] [] [];
     mkTask "redo" [] [mkOutput "V" 8 Fast "weight"] (us 3) 0 [] [] [] [];
     mkTask "use" ["V"] [] (us 5) 0 [] [] [] []]
    [("W", Backing)] (Some 16) (Some 16) (Some 1) (Some 1).
Definition build (levels : Levels) : result unit (TaskChain Qc) :=
  match assoc_get levels "W"%string with
  | Some 0 => Ok exact_chain
  | Some _ => Ok recomputed_chain
  | None => Err tt
  end.
Definition plan : result (PlanError unit) (RecomputePlanResult Qc) :=
  plan_with_recompute (λ _, true) build Ok [rewrite] (λ _, us 0) 8 None.

Lemma plan_ok : is_ok plan = true.
Proof. vm_compute. reflexivity. Qed.

Lemma recompute_never_loses_witness : ∃ r, plan = Ok r ∧ levels_ok [rewrite] (pr_levels r).
Proof.
  pose proof plan_ok as Hok. destruct plan as [r|e] eqn:Hp; [|discriminate]. exists r. split; [reflexivity|].
  destruct (recompute_never_loses (λ _, true) build Ok [rewrite] (λ _, us 0) 8 None r Hp) as (_ & _ & Hl & _). exact Hl.
Defined.

Lemma recomputed_run : is_ok (run recomputed_chain true false false) = true.
Proof. vm_compute. reflexivity. Qed.

Lemma chain_evaluates chain : is_ok (run chain true false false) = true →
  ∃ cr, (log ← lift_err (E2:=PlanError unit) SimulationError (run chain true false false);
         report ← lift_err ReportError_ (build_stall_report chain log); Ok (chain, report)) = Ok cr.
Proof.
  intros Hok. destruct (run chain true false false) as [log|e] eqn:Hrun; [|discriminate]. simpl.
  destruct (report_total chain log (run_named _ _ _ _ _ Hrun)) as [r ->]. simpl. eauto.
Qed.

Lemma payoff_sound : sound (λ _ : unit, true) build Ok [rewrite].
Proof.
  split_and!.
  - apply NoDup_singleton.
  - intros rw ->%list_elem_of_singleton. exists (mkOption 0 8 (us 0) ""). split; [by left|done].
  - intros lv e He. destruct (build lv) as [chain|u] eqn:Hb.
    + destruct (chain_evaluates chain) as [cr Hcr].
      { unfold build in Hb. destruct (assoc_get lv "W"%string) as [[| |]|]; [| | |discriminate];
          injection Hb as <-; [exact exact_run|exact recomputed_run..]. }
      unfold evaluate in He. rewrite Hb in He. cbn [lift_err mbind result_bind] in He. rewrite Hcr in He. discriminate.
    + unfold evaluate in He. rewrite Hb in He. cbn [lift_err mbind result_bind] in He. by injection He as <-.
Qed.

Lemma recompute_returns_witness :
  sound (λ _ : unit, true) build Ok [rewrite] ∧ feasible (E:=unit) build Ok [rewrite].
Proof.
  split; [exact payoff_sound|]. pose proof plan_ok as Hok.
  pose proof (recompute_returns (λ _, true) build Ok [rewrite] (λ _, us 0) 8 None payoff_sound) as Hf.
  fold plan in Hf. destruct plan as [r|e]; [exact Hf|discriminate].
Defined.

Example plan_recomputes : match plan with Ok r => pr_levels r = [("W"%string, 1)] | Err _ => False end.
Proof. vm_compute. reflexivity. Qed.
End Payoff.
