(* ===== verification/JsonText.v ===== *)
(** * JSON text, as the service's wire uses it

    [json.dumps] with the default separators or [separators=(",", ":")], with
    [sort_keys] or without, and [json.loads] of a line of bytes, in the behaviour of Python's [json] module.  Strings are those whose characters are
    below 256.  A line with a NUL or a byte above 127 (whose decoding starts
    with a guess of the encoding) and an escape above [\u00ff] are outside this model:
    [loads] answers [OutsideText].  How a float is written and read is a class; ints
    have at most the 4300 digits that Python converts. *)
From S2P Require Import Prelude SimSchema CoreProgram CoreJson.
From stdpp Require Import base tactics option list strings.
From Stdlib Require Import ZArith Lia Decimal DecimalN Init.Byte.
Open Scope Z_scope.

(** [float.__repr__] (with [NaN] and [Infinity] as the encoder writes them) and [float]. *)
Class FloatText (T : Type) := {
  float_repr : T → list byte;
  float_of : list byte → T;
}.

Inductive TextError := JSONDecodeError | OutsideText | TextFuel.

(** ** Characters *)
#[export] Instance byte_eq_decision : EqDecision byte := Byte.byte_eq_dec.

Definition byteb (a b : byte) : bool := Byte.eqb a b.
Definition code (b : byte) : N := Byte.to_N b.
Definition is_ws (b : byte) : bool :=
  byteb b x20 || byteb b x09 || byteb b x0a || byteb b x0d.
Definition is_digit (b : byte) : bool := (48 <=? code b)%N && (code b <=? 57)%N.

(** Two nibbles make a byte. *)
Definition hex_digit (n : N) : byte :=
  default x00 (Byte.of_N (if (n <? 10)%N then 48 + n else 87 + n)).
Definition hex_value (b : byte) : option N :=
  let c := code b in
  if (48 <=? c)%N && (c <=? 57)%N then Some (c - 48)%N
  else if (97 <=? c)%N && (c <=? 102)%N then Some (c - 87)%N
  else if (65 <=? c)%N && (c <=? 70)%N then Some (c - 55)%N
  else None.

(** ** Writing *)
Definition escape (b : byte) : list byte :=
  match b with
  | x22 => [x5c; x22]
  | x5c => [x5c; x5c]
  | x0a => [x5c; x6e]
  | x0d => [x5c; x72]
  | x09 => [x5c; x74]
  | x0c => [x5c; x66]
  | x08 => [x5c; x62]
  | _ =>
      if (32 <=? code b)%N && (code b <=? 126)%N then [b]
      else [x5c; x75; x30; x30; hex_digit (code b / 16); hex_digit (code b mod 16)]
  end.

Definition write_string (s : string) : list byte :=
  [x22] ++ (Strings.String.list_byte_of_string s ≫= escape) ++ [x22].

Fixpoint uint_bytes (u : uint) : list byte :=
  match u with
  | Nil => []
  | D0 u => x30 :: uint_bytes u | D1 u => x31 :: uint_bytes u | D2 u => x32 :: uint_bytes u
  | D3 u => x33 :: uint_bytes u | D4 u => x34 :: uint_bytes u | D5 u => x35 :: uint_bytes u
  | D6 u => x36 :: uint_bytes u | D7 u => x37 :: uint_bytes u | D8 u => x38 :: uint_bytes u
  | D9 u => x39 :: uint_bytes u
  end.

Definition write_nat (n : N) : list byte := uint_bytes (N.to_uint n).
Definition write_int (z : Z) : list byte := if z <? 0 then x2d :: write_nat (Z.abs_N z) else write_nat (Z.abs_N z).

(** What follows a comma or a colon: a space with the default separators, nothing with
    [separators=(",", ":")]. *)
Definition gap (spaced : bool) : list byte := if spaced then [x20] else [].

(** The items between brackets, with commas. *)
Fixpoint comma_join (spaced : bool) (l : list (list byte)) : list byte :=
  match l with
  | [] => []
  | [x] => x
  | x :: l => x ++ x2c :: gap spaced ++ comma_join spaced l
  end.

Definition lit_null : list byte := [x6e; x75; x6c; x6c].
Definition lit_true : list byte := [x74; x72; x75; x65].
Definition lit_false : list byte := [x66; x61; x6c; x73; x65].
Definition lit_nan : list byte := [x4e; x61; x4e].
Definition lit_inf : list byte := [x49; x6e; x66; x69; x6e; x69; x74; x79].

Section Text.
Context {T : Type} `{FloatText T}.

Fixpoint dumps_with (spaced : bool) (v : json T) : list byte :=
  match v with
  | JNull => lit_null
  | JBool true => lit_true
  | JBool false => lit_false
  | JInt z => write_int z
  | JFloat f => float_repr f
  | JStr s => write_string s
  | JList l => x5b :: comma_join spaced (map (dumps_with spaced) l) ++ [x5d]
  | JDict d => x7b :: comma_join spaced (map (λ kv, write_string kv.1 ++ x3a :: gap spaced ++ dumps_with spaced kv.2) d) ++ [x7d]
  end.

(** [json.dumps(v, separators=(",", ":"))]. *)
Definition dumps (v : json T) : list byte := dumps_with false v.

(** [sort_keys=True]: the items of every dict by key. *)
Definition key_leb (a b : string * json T) : bool := String.leb a.1 b.1.
Fixpoint sort_keys (v : json T) : json T :=
  match v with
  | JList l => JList (map sort_keys l)
  | JDict d => JDict (py_sorted key_leb (map (λ kv, (kv.1, sort_keys kv.2)) d))
  | _ => v
  end.

(** ** Reading *)
Fixpoint skip_ws (s : list byte) : list byte :=
  match s with
  | b :: s' => if is_ws b then skip_ws s' else s
  | [] => []
  end.

Fixpoint strip_lit (p s : list byte) : option (list byte) :=
  match p, s with
  | [], _ => Some s
  | a :: p, b :: s => if byteb a b then strip_lit p s else None
  | _ :: _, [] => None
  end.

Definition short_escape (b : byte) : option byte :=
  match b with
  | x22 => Some x22 | x5c => Some x5c | x2f => Some x2f | x62 => Some x08 | x66 => Some x0c
  | x6e => Some x0a | x72 => Some x0d | x74 => Some x09
  | _ => None
  end.

(** The rest of a string after its opening quote. *)
Fixpoint scan_string (s : list byte) : result TextError (list byte * list byte) :=
  match s with
  | [] => Err JSONDecodeError
  | x22 :: s => Ok ([], s)
  | x5c :: x75 :: a :: b :: c :: d :: s =>
      match hex_value a, hex_value b, hex_value c, hex_value d with
      | Some a, Some b, Some c, Some d =>
          match Byte.of_N (((a * 16 + b) * 16 + c) * 16 + d) with
          | Some ch => '(t, s) ← scan_string s; Ok (ch :: t, s)
          | None => Err OutsideText
          end
      | _, _, _, _ => Err JSONDecodeError
      end
  | x5c :: e :: s =>
      match short_escape e with
      | Some ch => '(t, s) ← scan_string s; Ok (ch :: t, s)
      | None => Err JSONDecodeError
      end
  | [x5c] => Err JSONDecodeError
  | ch :: s =>
      if (code ch <? 32)%N then Err JSONDecodeError
      else '(t, s) ← scan_string s; Ok (ch :: t, s)
  end.

(** The longest run of digits. *)
Fixpoint scan_digits (s : list byte) : uint * list byte :=
  match s with
  | x30 :: s => let '(u, r) := scan_digits s in (D0 u, r)
  | x31 :: s => let '(u, r) := scan_digits s in (D1 u, r)
  | x32 :: s => let '(u, r) := scan_digits s in (D2 u, r)
  | x33 :: s => let '(u, r) := scan_digits s in (D3 u, r)
  | x34 :: s => let '(u, r) := scan_digits s in (D4 u, r)
  | x35 :: s => let '(u, r) := scan_digits s in (D5 u, r)
  | x36 :: s => let '(u, r) := scan_digits s in (D6 u, r)
  | x37 :: s => let '(u, r) := scan_digits s in (D7 u, r)
  | x38 :: s => let '(u, r) := scan_digits s in (D8 u, r)
  | x39 :: s => let '(u, r) := scan_digits s in (D9 u, r)
  | _ => (Nil, s)
  end.

(** [0|[1-9]\d*]. *)
Definition scan_nat (s : list byte) : option (uint * list byte) :=
  match s with
  | x30 :: s => Some (D0 Nil, s)
  | _ => match scan_digits s with (Nil, _) => None | ur => Some ur end
  end.

(** [(\.\d+)?]. *)
Definition scan_frac (s : list byte) : list byte * list byte :=
  match s with
  | x2e :: r => match scan_digits r with (Nil, _) => ([], s) | (u, r) => (x2e :: uint_bytes u, r) end
  | _ => ([], s)
  end.

(** [([eE][-+]?\d+)?]. *)
Definition scan_exp (s : list byte) : list byte * list byte :=
  match s with
  | e :: r =>
      if byteb e x65 || byteb e x45 then
        let '(sg, r) := match r with
                        | x2b :: r' => ([x2b], r')
                        | x2d :: r' => ([x2d], r')
                        | _ => ([], r)
                        end in
        match scan_digits r with (Nil, _) => ([], s) | (u, r) => (e :: sg ++ uint_bytes u, r) end
      else ([], s)
  | [] => ([], [])
  end.

(** A number: its sign, its integer part, and what makes it a float. *)
Record Scanned := mkScanned { sc_neg : bool; sc_int : uint; sc_tail : list byte }.

Definition scan_number (s : list byte) : option (Scanned * list byte) :=
  let '(neg, s) := match s with x2d :: s => (true, s) | _ => (false, s) end in
  '(u, s) ← scan_nat s;
  let '(fr, s) := scan_frac s in
  let '(ex, s) := scan_exp s in
  Some (mkScanned neg u (fr ++ ex), s).

Definition scanned_text (n : Scanned) : list byte :=
  (if sc_neg n then [x2d] else []) ++ uint_bytes (sc_int n) ++ sc_tail n.

Definition scanned_value (n : Scanned) : json T :=
  match sc_tail n with
  | [] => let m := Z.of_N (N.of_uint (sc_int n)) in JInt (if sc_neg n then - m else m)
  | _ :: _ => JFloat (float_of (scanned_text n))
  end.

Definition scan_atom (s : list byte) : result TextError (json T * list byte) :=
  match strip_lit lit_null s, strip_lit lit_true s, strip_lit lit_false s,
        strip_lit lit_nan s, strip_lit lit_inf s, strip_lit (x2d :: lit_inf) s with
  | Some r, _, _, _, _, _ => Ok (JNull, r)
  | _, Some r, _, _, _, _ => Ok (JBool true, r)
  | _, _, Some r, _, _, _ => Ok (JBool false, r)
  | _, _, _, Some r, _, _ => Ok (JFloat (float_of lit_nan), r)
  | _, _, _, _, Some r, _ => Ok (JFloat (float_of lit_inf), r)
  | _, _, _, _, _, Some r => Ok (JFloat (float_of (x2d :: lit_inf)), r)
  | None, None, None, None, None, None =>
      match scan_number s with
      | Some (n, r) => Ok (scanned_value n, r)
      | None => Err JSONDecodeError
      end
  end.

Definition to_str (l : list byte) : string := Strings.String.string_of_list_byte l.

Fixpoint scan_value (fuel : nat) (s : list byte) : result TextError (json T * list byte) :=
  match fuel with
  | O => Err TextFuel
  | S fuel =>
      match s with
      | x22 :: s => '(t, r) ← scan_string s; Ok (JStr (to_str t), r)
      | x7b :: s =>
          match skip_ws s with
          | x7d :: r => Ok (JDict [], r)
          | s => '(d, r) ← scan_members fuel [] s; Ok (JDict d, r)
          end
      | x5b :: s =>
          match skip_ws s with
          | x5d :: r => Ok (JList [], r)
          | s => '(l, r) ← scan_items fuel s; Ok (JList l, r)
          end
      | s => scan_atom s
      end
  end
with scan_items (fuel : nat) (s : list byte) : result TextError (list (json T) * list byte) :=
  match fuel with
  | O => Err TextFuel
  | S fuel =>
      '(v, r) ← scan_value fuel s;
      match skip_ws r with
      | x5d :: r => Ok ([v], r)
      | x2c :: r => '(l, r) ← scan_items fuel (skip_ws r); Ok (v :: l, r)
      | _ => Err JSONDecodeError
      end
  end
with scan_members (fuel : nat) (acc : list (string * json T)) (s : list byte) :
    result TextError (list (string * json T) * list byte) :=
  match fuel with
  | O => Err TextFuel
  | S fuel =>
      match s with
      | x22 :: s =>
          '(k, r) ← scan_string s;
          match skip_ws r with
          | x3a :: r =>
              '(v, r) ← scan_value fuel (skip_ws r);
              let acc := assoc_set acc (to_str k) v in
              match skip_ws r with
              | x7d :: r => Ok (acc, r)
              | x2c :: r => scan_members fuel acc (skip_ws r)
              | _ => Err JSONDecodeError
              end
          | _ => Err JSONDecodeError
          end
      | _ => Err JSONDecodeError
      end
  end.

Definition plain (b : byte) : bool := (0 <? code b)%N && (code b <? 128)%N.

Definition loads (line : list byte) : result TextError (json T) :=
  if forallb plain line then
    '(v, r) ← scan_value (S (2 * length line)) (skip_ws line);
    match skip_ws r with [] => Ok v | _ => Err JSONDecodeError end
  else Err OutsideText.
End Text.
