(* ===== verification/JsonTextOk.v ===== *)
(** * JSON text reads back

    What [dumps] writes is printable ASCII, so that a line of it holds no newline, and
    [loads] reads the value back; [loads] never runs out of its fuel. *)
From S2P Require Import Prelude SimSchema CoreProgram CoreJson JsonText.
From stdpp Require Import base tactics option list strings.
From Stdlib Require Import ZArith Lia Decimal DecimalN DecimalFacts Init.Byte.
Open Scope Z_scope.

(** ** Induction on JSON values *)
Section JsonInd.
Context {T : Type} (P : json T → Prop).
Context (Hnull : P JNull) (Hbool : ∀ b, P (JBool b)) (Hint : ∀ z, P (JInt z)) (Hfloat : ∀ f, P (JFloat f)).
Context (Hstr : ∀ s, P (JStr s)) (Hlist : ∀ l, Forall P l → P (JList l)).
Context (Hdict : ∀ d, Forall (λ kv, P kv.2) d → P (JDict d)).

Fixpoint json_induction (v : json T) : P v :=
  match v with
  | JNull => Hnull
  | JBool b => Hbool b
  | JInt z => Hint z
  | JFloat f => Hfloat f
  | JStr s => Hstr s
  | JList l => Hlist l ((fix go l : Forall P l :=
      match l with [] => Forall_nil_2 _ | v :: l => Forall_cons_2 _ _ _ (json_induction v) (go l) end) l)
  | JDict d => Hdict d ((fix go d : Forall (λ kv, P kv.2) d :=
      match d with [] => Forall_nil_2 _ | kv :: d => Forall_cons_2 _ _ _ (json_induction kv.2) (go d) end) d)
  end.
End JsonInd.

(** ** What is assumed of floats: their text is a float and reads back *)
Definition printable (b : byte) : bool := (32 <=? code b)%N && (code b <=? 126)%N.

Definition float_token (t : list byte) : bool :=
  forallb printable t &&
  (bool_decide (t = lit_nan) || bool_decide (t = lit_inf) || bool_decide (t = x2d :: lit_inf) ||
   match scan_number t with Some (n, []) => nonempty (sc_tail n) | _ => false end).

Class FloatTextLaws (T : Type) `{FloatText T} := {
  float_repr_token : ∀ f : T, float_token (float_repr f) = true;
  float_of_repr : ∀ f : T, float_of (float_repr f) = f;
}.

(** A value whose dicts have each key once, as Python's have. *)
Fixpoint json_ok {T} (v : json T) : bool :=
  match v with
  | JList l => forallb json_ok l
  | JDict d => bool_decide (NoDup d.*1) && forallb (λ kv, json_ok kv.2) d
  | _ => true
  end.

(** ** Scanners *)

(** What may follow a value: the end, a comma or a closing bracket. *)
Definition stops (r : list byte) : Prop :=
  match r with [] | x2c :: _ | x5d :: _ | x7d :: _ => True | _ => False end.

Lemma scan_escape b s : scan_string (escape b ++ s) = '(t, r) ← scan_string s; Ok (b :: t, r).
Proof. by destruct b. Qed.

Lemma scan_written bs s : scan_string ((bs ≫= escape) ++ x22 :: s) = Ok (bs, s).
Proof.
  induction bs as [|b bs IH]; [done|]. rewrite bind_cons, <-(assoc (++)), scan_escape, IH. done.
Qed.

Lemma scan_write_string s r : scan_string (tail (write_string s) ++ r) = Ok (Strings.String.list_byte_of_string s, r).
Proof. unfold write_string. simpl. rewrite <-(assoc (++)). apply scan_written. Qed.

Lemma scan_digits_stop r : stops r → scan_digits r = (Nil, r).
Proof. by destruct r as [|[] r]. Qed.

Lemma scan_digits_written u r : stops r → scan_digits (uint_bytes u ++ r) = (u, r).
Proof. intros Hr. induction u; simpl; rewrite ?IHu; try done. by apply scan_digits_stop. Qed.

Lemma scan_digits_app s r u s' : stops r → scan_digits s = (u, s') → scan_digits (s ++ r) = (u, s' ++ r).
Proof.
  intros Hr. revert u s'. induction s as [|b s IH]; intros u s'; [intros [= <- <-]; by apply scan_digits_stop|].
  destruct b; simpl; try (by intros [= <- <-]); destruct (scan_digits s) as [u0 s0] eqn:Hs;
    rewrite (IH _ _ eq_refl); by intros [= <- <-].
Qed.

Lemma scan_digits_text s u s' : scan_digits s = (u, s') → s = uint_bytes u ++ s'.
Proof.
  revert u s'. induction s as [|b s IH]; intros u s'; [by intros [= <- <-]|].
  destruct b; simpl; try (by intros [= <- <-]); destruct (scan_digits s) as [u0 s0] eqn:Hs;
    intros [= <- <-]; simpl; by rewrite (IH _ _ eq_refl) at 1.
Qed.

Lemma scan_nat_app s r u s' : stops r → scan_nat s = Some (u, s') → scan_nat (s ++ r) = Some (u, s' ++ r).
Proof.
  intros Hr. destruct s as [|b s]; [done|]. unfold scan_nat. destruct (scan_digits (b :: s)) as [u0 s0] eqn:Hs.
  pose proof (scan_digits_app _ _ _ _ Hr Hs) as Hs'. change ((b :: s) ++ r) with (b :: s ++ r) in *. rewrite Hs'.
  destruct b; try (by intros [= <- <-]); by destruct u0; intros [= <- <-].
Qed.

Lemma scan_nat_text s u s' : scan_nat s = Some (u, s') → s = uint_bytes u ++ s' ∧ u ≠ Nil.
Proof.
  destruct s as [|b s]; [done|]. unfold scan_nat. destruct (scan_digits (b :: s)) as [u0 s0] eqn:Hs.
  pose proof (scan_digits_text _ _ _ Hs) as Ht.
  destruct b; try (by intros [= <- <-]); destruct u0; intros [= <- <-]; done.
Qed.

Lemma scan_frac_app s r f s' : stops r → scan_frac s = (f, s') → scan_frac (s ++ r) = (f, s' ++ r).
Proof.
  intros Hr. destruct s as [|b s]; simpl.
  { intros [= <- <-]. by destruct r as [|[] r]. }
  destruct b; try (by intros [= <- <-]). destruct (scan_digits s) as [u0 s0] eqn:Hs.
  rewrite (scan_digits_app _ _ _ _ Hr Hs). destruct u0; by intros [= <- <-].
Qed.

Lemma scan_frac_text s f s' : scan_frac s = (f, s') → s = f ++ s'.
Proof.
  destruct s as [|b s]; simpl; [by intros [= <- <-]|]. destruct b; try (by intros [= <- <-]).
  destruct (scan_digits s) as [u0 s0] eqn:Hs. pose proof (scan_digits_text _ _ _ Hs) as Ht.
  destruct u0; intros [= <- <-]; simpl; by f_equal.
Qed.

(** The sign of an exponent. *)
Definition exp_sign (r : list byte) : list byte * list byte :=
  match r with x2b :: r' => ([x2b], r') | x2d :: r' => ([x2d], r') | _ => ([], r) end.

Lemma exp_sign_app s r sg s' : stops r → exp_sign s = (sg, s') → exp_sign (s ++ r) = (sg, s' ++ r).
Proof.
  intros Hr. destruct s as [|b s]; simpl; [intros [= <- <-]; by destruct r as [|[] r]|].
  destruct b; by intros [= <- <-].
Qed.

Lemma exp_sign_text s sg s' : exp_sign s = (sg, s') → s = sg ++ s'.
Proof. destruct s as [|b s]; [by intros [= <- <-]|]. destruct b; by intros [= <- <-]. Qed.

Lemma scan_exp_app s r e s' : stops r → scan_exp s = (e, s') → scan_exp (s ++ r) = (e, s' ++ r).
Proof.
  intros Hr. destruct s as [|b s]; simpl.
  { intros [= <- <-]. by destruct r as [|[] r]. }
  destruct (byteb b x65 || byteb b x45); [|by intros [= <- <-]]. fold (exp_sign s). fold (exp_sign (s ++ r)).
  destruct (exp_sign s) as [sg s1] eqn:Hsg. rewrite (exp_sign_app _ _ _ _ Hr Hsg).
  destruct (scan_digits s1) as [u0 s0] eqn:Hs. rewrite (scan_digits_app _ _ _ _ Hr Hs). destruct u0; by intros [= <- <-].
Qed.

Lemma scan_exp_text s e s' : scan_exp s = (e, s') → s = e ++ s'.
Proof.
  destruct s as [|b s]; simpl; [by intros [= <- <-]|].
  destruct (byteb b x65 || byteb b x45); [|by intros [= <- <-]]. fold (exp_sign s).
  destruct (exp_sign s) as [sg s1] eqn:Hsg. apply exp_sign_text in Hsg as ->.
  destruct (scan_digits s1) as [u0 s0] eqn:Hs. apply scan_digits_text in Hs as ->.
  destruct u0; intros [= <- <-]; simpl; rewrite <-?(assoc (++)); done.
Qed.

Definition sign_of (s : list byte) : bool * list byte :=
  match s with x2d :: s => (true, s) | _ => (false, s) end.

Lemma scan_number_app s r n s' : stops r → scan_number s = Some (n, s') → scan_number (s ++ r) = Some (n, s' ++ r).
Proof.
  intros Hr. unfold scan_number. fold (sign_of s). fold (sign_of (s ++ r)).
  assert (s ≠ [] → sign_of (s ++ r) = ((sign_of s).1, (sign_of s).2 ++ r)) as Hsg by (by destruct s as [|[] s]).
  destruct (decide (s = [])) as [->|Hne]; [done|]. rewrite Hsg by done. destruct (sign_of s) as [ng s0]. simpl.
  destruct (scan_nat s0) as [[u s1]|] eqn:Hn; [|done]. simpl. rewrite (scan_nat_app _ _ _ _ Hr Hn). simpl.
  destruct (scan_frac s1) as [f s2] eqn:Hf. rewrite (scan_frac_app _ _ _ _ Hr Hf).
  destruct (scan_exp s2) as [e s3] eqn:He. rewrite (scan_exp_app _ _ _ _ Hr He). by intros [= <- <-].
Qed.

Lemma scan_number_text s n s' : scan_number s = Some (n, s') → s = scanned_text n ++ s' ∧ sc_int n ≠ Nil.
Proof.
  unfold scan_number. fold (sign_of s).
  assert (s = (if (sign_of s).1 then [x2d] else []) ++ (sign_of s).2) as Hsg by (by destruct s as [|[] s]).
  destruct (sign_of s) as [ng s0]. simpl in *. subst s.
  destruct (scan_nat s0) as [[u s1]|] eqn:Hn; [|done]. apply scan_nat_text in Hn as [-> Hu]. simpl.
  destruct (scan_frac s1) as [f s2] eqn:Hf. apply scan_frac_text in Hf as ->.
  destruct (scan_exp s2) as [e s3] eqn:He. apply scan_exp_text in He as ->. intros [= <- <-]. split; [|done].
  unfold scanned_text. simpl. by rewrite <-!(assoc (++)).
Qed.

(** ** Decimal integers *)
Lemma to_uint_lead n : N.to_uint n = D0 Nil ∨ ∃ b u, uint_bytes (N.to_uint n) = b :: u ∧ is_digit b = true ∧ b ≠ x30.
Proof.
  assert (N.to_uint n = unorm (N.to_uint n)) as Hu by (by rewrite <-DecimalN.Unsigned.to_of, DecimalN.Unsigned.of_to).
  revert Hu. generalize (N.to_uint n). intros u Hu.
  assert (∀ u, match nzhead u with Nil => True | D0 _ => False | _ => True end) as Hz by (intros u'; induction u'; done).
  specialize (Hz u). destruct (nzhead u) as [| | | | | | | | | |] eqn:Hh; [left|done|right..].
  { rewrite Hu. by apply unorm_0. }
  all: rewrite unorm_nzhead, Hh in Hu by (by rewrite Hh); rewrite Hu; simpl; eexists _, _; split; [reflexivity|split; [reflexivity|done]].
Qed.

Lemma scan_nat_written n r : stops r → scan_nat (write_nat n ++ r) = Some (N.to_uint n, r).
Proof.
  intros Hr. unfold write_nat. pose proof (scan_digits_written (N.to_uint n) r Hr) as Hd.
  destruct (to_uint_lead n) as [->|(b & u & Hu & Hb & Hne)]; [done|]. rewrite Hu in *. simpl in *.
  destruct b; try discriminate; try done; rewrite Hd; destruct (N.to_uint n); done.
Qed.

(** Whole numbers as floats: their digits and [.0]. *)
#[export] Instance float_text_Z : FloatText Z := {|
  float_repr := λ z, write_int z ++ [x2e; x30];
  float_of := λ t, match scan_number t with
                   | Some (n, _) => let m := Z.of_N (N.of_uint (sc_int n)) in if sc_neg n then - m else m
                   | None => 0
                   end;
|}.

Lemma scan_number_Z z :
  scan_number (write_int z ++ [x2e; x30]) = Some (mkScanned (z <? 0) (N.to_uint (Z.abs_N z)) [x2e; x30], []).
Proof.
  assert (∀ u, scan_digits (uint_bytes u ++ [x2e; x30]) = (u, [x2e; x30])) as Hd by (intros u; induction u; simpl; by rewrite ?IHu).
  unfold scan_number. fold (sign_of (write_int z ++ [x2e; x30])).
  assert (sign_of (write_int z ++ [x2e; x30]) = (z <? 0, write_nat (Z.abs_N z) ++ [x2e; x30])) as ->.
  { unfold write_int. destruct (z <? 0); [done|]. unfold write_nat.
    destruct (to_uint_lead (Z.abs_N z)) as [->|(b & u & -> & Hb & _)]; [done|]. simpl. by destruct b. }
  assert (scan_nat (write_nat (Z.abs_N z) ++ [x2e; x30]) = Some (N.to_uint (Z.abs_N z), [x2e; x30])) as ->; [|done].
  unfold write_nat. specialize (Hd (N.to_uint (Z.abs_N z))).
  destruct (to_uint_lead (Z.abs_N z)) as [->|(b & u & Hu & Hb & Hne)]; [done|]. rewrite Hu in *. simpl in *.
  destruct b; try discriminate; try done; rewrite Hd; destruct (N.to_uint _); done.
Qed.

Lemma scan_tail_stop r : stops r → scan_frac r = ([], r) ∧ scan_exp r = ([], r).
Proof. by destruct r as [|[] r]. Qed.

Section Values.
Context {T : Type} `{FloatTextLaws T} (spaced : bool).
Implicit Types (v : json T) (r s : list byte).

(** A text that scans as a number is no literal. *)
Lemma scan_atom_number s n r : scan_number s = Some (n, r) → scan_atom (T:=T) s = Ok (scanned_value n, r).
Proof.
  intros Hn. assert (strip_lit lit_null s = None ∧ strip_lit lit_true s = None ∧ strip_lit lit_false s = None ∧
    strip_lit lit_nan s = None ∧ strip_lit lit_inf s = None ∧ strip_lit (x2d :: lit_inf) s = None) as (H1 & H2 & H3 & H4 & H5 & H6).
  { destruct (scan_number_text _ _ _ Hn) as [-> Hne]. unfold scanned_text. destruct n as [ng u t]; simpl in *.
    destruct u; [done|..]; by destruct ng. }
  unfold scan_atom. by rewrite H1, H2, H3, H4, H5, H6, Hn.
Qed.

Lemma scan_int z r : stops r → scan_atom (T:=T) (write_int z ++ r) = Ok (JInt z, r).
Proof.
  intros Hr. destruct (scan_tail_stop r Hr) as [Hf He].
  assert (scan_number (write_int z ++ r) = Some (mkScanned (z <? 0) (N.to_uint (Z.abs_N z)) [], r)) as Hn.
  { unfold scan_number. fold (sign_of (write_int z ++ r)).
    assert (sign_of (write_int z ++ r) = (z <? 0, write_nat (Z.abs_N z) ++ r)) as ->.
    { unfold write_int. destruct (z <? 0); [done|]. unfold write_nat.
      destruct (to_uint_lead (Z.abs_N z)) as [->|(b & u & -> & Hb & _)]; [done|]. simpl. by destruct b. }
    rewrite scan_nat_written by done. simpl. by rewrite Hf, He. }
  rewrite (scan_atom_number _ _ _ Hn). unfold scanned_value. simpl. rewrite DecimalN.Unsigned.of_to.
  do 3 f_equal. destruct (z <? 0) eqn:Hz; [apply Z.ltb_lt in Hz|apply Z.ltb_ge in Hz]; lia.
Qed.

Lemma scan_special t r : t = lit_nan ∨ t = lit_inf ∨ t = x2d :: lit_inf →
  scan_atom (T:=T) (t ++ r) = Ok (JFloat (float_of t), r).
Proof. by intros [->|[->| ->]]. Qed.

Lemma scan_float f r : stops r → scan_atom (T:=T) (float_repr f ++ r) = Ok (JFloat f, r).
Proof.
  intros Hr. pose proof (float_repr_token f) as Ht. pose proof (float_of_repr f) as Hf.
  unfold float_token in Ht. apply andb_true_iff in Ht as [_ Ht]. rewrite !orb_true_iff, !bool_decide_eq_true in Ht.
  destruct Ht as [Ht|Ht]; [by rewrite scan_special, Hf by (destruct Ht as [[->| ->]| ->]; auto)|].
  destruct (scan_number (float_repr f)) as [[n [|]]|] eqn:Hn; [|done..].
  pose proof (scan_number_text _ _ _ Hn) as [Htext _]. rewrite List.app_nil_r in Htext.
  pose proof (scan_number_app _ _ _ _ Hr Hn) as Hn'. rewrite (scan_atom_number _ _ _ Hn'). unfold scanned_value.
  destruct (sc_tail n); [done|]. by rewrite <-Htext, Hf.
Qed.

(** ** Values read back *)
Definition item (kv : string * json T) : list byte := write_string kv.1 ++ x3a :: gap spaced ++ dumps_with spaced kv.2.

Lemma comma_join_cons x l rest : comma_join spaced (x :: l) ++ rest =
  x ++ match l with [] => rest | _ :: _ => x2c :: gap spaced ++ comma_join spaced l ++ rest end.
Proof.
  destruct l as [|y l]; [done|]. change (comma_join spaced (x :: y :: l)) with (x ++ x2c :: gap spaced ++ comma_join spaced (y :: l)).
  by rewrite <-(List.app_assoc x), <-app_comm_cons, <-(List.app_assoc (gap spaced)).
Qed.

Lemma skip_gap s : skip_ws (gap spaced ++ s) = skip_ws s.
Proof. by destruct spaced. Qed.

Lemma write_string_head k s : ∃ t, write_string k ++ s = x22 :: t ∧ scan_string t = Ok (Strings.String.list_byte_of_string k, s).
Proof. exists (tail (write_string k) ++ s). split; [done|apply scan_write_string]. Qed.

Lemma to_str_of k : to_str (Strings.String.list_byte_of_string k) = k.
Proof. apply Strings.String.string_of_list_byte_of_string. Qed.

(** The first byte of a value is no white space and no closing bracket. *)
Definition value_head (b : byte) : Prop := skip_ws [b] = [b] ∧ b ≠ x5d ∧ b ≠ x7d.

Lemma dumps_head v : ∃ b t, dumps_with spaced v = b :: t ∧ value_head b ∧
  match v with
  | JStr _ => b = x22 | JList _ => b = x5b | JDict _ => b = x7b
  | _ => b ≠ x22 ∧ b ≠ x5b ∧ b ≠ x7b
  end.
Proof.
  destruct v as [|[]|z|f|s|l|d]; simpl; try (eexists _, _; split; [reflexivity|]; done).
  - unfold write_int, write_nat. destruct (z <? 0); [eexists _, _; split; [reflexivity|]; done|].
    destruct (to_uint_lead (Z.abs_N z)) as [->|(b & u & -> & Hb & _)]; simpl; eexists _, _; (split; [reflexivity|]); [done|].
    by destruct b.
  - pose proof (float_repr_token f) as Ht. unfold float_token in Ht. apply andb_true_iff in Ht as [_ Ht].
    rewrite !orb_true_iff, !bool_decide_eq_true in Ht.
    destruct Ht as [[[->| ->]| ->]|Ht]; [eexists _, _; split; [reflexivity|]; done..|].
    destruct (scan_number (float_repr f)) as [[n [|]]|] eqn:Hn; [|done..].
    pose proof (scan_number_text _ _ _ Hn) as [-> Hne]. rewrite List.app_nil_r. unfold scanned_text. destruct n as [ng u t]; simpl in *.
    destruct ng; [eexists _, _; split; [reflexivity|]; done|]. destruct u; [done|..]; eexists _, _; (split; [reflexivity|]); done.
Qed.

Lemma scan_value_atom fuel b t : b ≠ x22 → b ≠ x5b → b ≠ x7b →
  scan_value (T:=T) (S fuel) (b :: t) = scan_atom (b :: t).
Proof. by destruct b. Qed.

Lemma scan_value_list fuel s : scan_value (T:=T) (S fuel) (x5b :: s) =
  match skip_ws s with
  | x5d :: r => Ok (JList [], r)
  | s => '(l, r) ← scan_items fuel s; Ok (JList l, r)
  end.
Proof. done. Qed.

Lemma scan_value_dict fuel s : scan_value (T:=T) (S fuel) (x7b :: s) =
  match skip_ws s with
  | x7d :: r => Ok (JDict [], r)
  | s => '(d, r) ← scan_members fuel [] s; Ok (JDict d, r)
  end.
Proof. done. Qed.

Lemma skip_head b t : skip_ws [b] = [b] → skip_ws (b :: t) = b :: t.
Proof. simpl. by destruct (is_ws b). Qed.

(** The three scanners read back what is written, with fuel for twice the text. *)
Definition reads_value fuel : Prop := ∀ v r, json_ok v = true → stops r →
  (2 * length (dumps_with spaced v ++ r) < fuel)%nat → scan_value fuel (dumps_with spaced v ++ r) = Ok (v, r).
Definition reads_items fuel : Prop := ∀ v l r, forallb json_ok (v :: l) = true →
  (2 * length (comma_join spaced (map (dumps_with spaced) (v :: l)) ++ x5d :: r) < Nat.pred fuel)%nat →
  scan_items fuel (comma_join spaced (map (dumps_with spaced) (v :: l)) ++ x5d :: r) = Ok (v :: l, r).
Definition reads_members fuel : Prop := ∀ kv d acc r,
  forallb (λ kv, json_ok kv.2) (kv :: d) = true → NoDup (acc ++ kv :: d).*1 →
  (2 * length (comma_join spaced (map item (kv :: d)) ++ x7d :: r) < Nat.pred fuel)%nat →
  scan_members fuel acc (comma_join spaced (map item (kv :: d)) ++ x7d :: r) = Ok (acc ++ kv :: d, r).

Lemma skip_dumps v r : skip_ws (dumps_with spaced v ++ r) = dumps_with spaced v ++ r.
Proof. destruct (dumps_head v) as (b & t & -> & [Hb _] & _). by apply skip_head. Qed.

Lemma skip_item kv r : skip_ws (item kv ++ r) = item kv ++ r.
Proof. done. Qed.

Lemma reads_items_step fuel : reads_value fuel → reads_items fuel → reads_items (S fuel).
Proof.
  intros Hval IH v l r Hok Hlen. rewrite map_cons, comma_join_cons in *. simpl in Hok. apply andb_true_iff in Hok as [Hv Hl].
  simpl Nat.pred in Hlen. cbn [scan_items]. rewrite Hval; [|done|by destruct l|exact Hlen]. cbn [mbind result_bind].
  destruct l as [|v' l]; [done|]. cbn [map].
  change (skip_ws (x2c :: ?a)) with (x2c :: a). cbv iota. rewrite skip_gap.
  assert (skip_ws (comma_join spaced (dumps_with spaced v' :: map (dumps_with spaced) l) ++ x5d :: r) = comma_join spaced (dumps_with spaced v' :: map (dumps_with spaced) l) ++ x5d :: r) as Hskip.
  { rewrite comma_join_cons. apply skip_dumps. }
  specialize (IH v' l r Hl). cbn [map] in IH. rewrite Hskip, IH; [done|]. cbn [map] in Hlen. rewrite length_app in Hlen. cbn [length] in Hlen. rewrite length_app in Hlen.
  destruct (dumps_head v) as (b & t & Hb & _). rewrite Hb in Hlen. cbn [length map] in *. lia.
Qed.

Lemma reads_members_step fuel : reads_value fuel → reads_members fuel → reads_members (S fuel).
Proof.
  intros Hval IH [k v] d acc r Hok Hnd Hlen. rewrite map_cons, comma_join_cons in *. simpl in Hok. apply andb_true_iff in Hok as [Hv Hd].
  simpl Nat.pred in Hlen. set (rest := match map item d with [] => _ | _ => _ end) in *.
  assert (item (k, v) ++ rest = write_string k ++ x3a :: gap spaced ++ dumps_with spaced v ++ rest) as Hitem
    by (unfold item; by rewrite <-(List.app_assoc (write_string _)), <-app_comm_cons, <-(List.app_assoc (gap spaced))).
  rewrite Hitem in *. destruct (write_string_head k (x3a :: gap spaced ++ dumps_with spaced v ++ rest)) as (t & Ht & Hscan).
  assert (stops rest) as Hstop by (subst rest; by destruct d).
  assert (S (length (dumps_with spaced v ++ rest)) < length (write_string k ++ x3a :: gap spaced ++ dumps_with spaced v ++ rest))%nat as Hshort
    by (rewrite (length_app (write_string k)); simpl; rewrite (length_app (gap spaced)); lia).
  rewrite Ht. cbn [scan_members]. rewrite Hscan. cbn [mbind result_bind].
  change (skip_ws (x3a :: ?a)) with (x3a :: a). cbv iota. rewrite skip_gap, skip_dumps, Hval; [|done..|lia]. cbn [mbind result_bind].
  rewrite to_str_of. rewrite fmap_app, fmap_cons in Hnd. pose proof Hnd as Hnd'. apply NoDup_app in Hnd' as (_ & Hk & _).
  assert (k ∉ acc.*1) as Hkacc by (intros Hin; apply (Hk k Hin); by left).
  rewrite assoc_set_absent by done. subst rest. destruct d as [|kv' d]; [done|]. cbn [map].
  change (skip_ws (x2c :: ?a)) with (x2c :: a). cbv iota. rewrite skip_gap.
  assert (skip_ws (comma_join spaced (item kv' :: map item d) ++ x7d :: r) = comma_join spaced (item kv' :: map item d) ++ x7d :: r) as Hskip.
  { rewrite comma_join_cons. apply skip_item. }
  specialize (IH kv' d (acc ++ [(k, v)]) r Hd). cbn [map] in IH. rewrite Hskip, IH.
  - by rewrite <-(assoc (++)).
  - rewrite <-(assoc (++)), fmap_app. exact Hnd.
  - cbn [map] in *. rewrite !length_app in *. cbn [length] in *. rewrite !length_app in *. cbn [length] in *. lia.
Qed.

Lemma reads_value_step fuel : reads_items fuel → reads_members fuel → reads_value (S fuel).
Proof.
  intros Hits Hmem v r Hok Hr Hlen. destruct v as [|b|z|f|s|l|d].
  - done.
  - by destruct b.
  - destruct (dumps_head (JInt z)) as (b & t & Hb & _ & H1' & H2' & H3'). pose proof (scan_int z r Hr) as Hs.
    change (dumps_with spaced (JInt z)) with (write_int z) in *. rewrite Hb in *. rewrite <-Hs. by apply scan_value_atom.
  - destruct (dumps_head (JFloat f)) as (b & t & Hb & _ & H1' & H2' & H3'). pose proof (scan_float f r Hr) as Hs.
    change (dumps_with spaced (JFloat f)) with (float_repr f) in *. rewrite Hb in *. rewrite <-Hs. by apply scan_value_atom.
  - change (dumps_with spaced (JStr s)) with (write_string s) in *. destruct (write_string_head s r) as (t & -> & Hs).
    cbn [scan_value]. rewrite Hs. cbn [mbind result_bind]. by rewrite to_str_of.
  - destruct l as [|v l]; [done|]. change (dumps_with spaced (JList (v :: l)) ++ r) with (x5b :: (comma_join spaced (map (dumps_with spaced) (v :: l)) ++ [x5d]) ++ r) in *.
    rewrite <-List.app_assoc in Hlen |- *. change ([x5d] ++ r) with (x5d :: r) in *. cbn [length] in Hlen. rewrite scan_value_list.
    assert (∃ b t, comma_join spaced (map (dumps_with spaced) (v :: l)) ++ x5d :: r = b :: t ∧ skip_ws (b :: t) = b :: t ∧ b ≠ x5d) as (b & t & Hb & Hskip & Hne).
    { rewrite map_cons, comma_join_cons. destruct (dumps_head v) as (b & t & -> & (Hw & Hne & _) & _).
      eexists b, _. split; [reflexivity|]. split; [by apply skip_head|done]. }
    specialize (Hits v l r Hok). rewrite Hb in *. rewrite Hskip.
    assert (scan_items fuel (b :: t) = Ok (v :: l, r)) as Hits' by (apply Hits; cbn [length] in *; lia).
    clear -Hits' Hne. destruct b; (done || (cbv iota beta; by rewrite Hits')).
  - destruct d as [|kv d]; [done|]. change (dumps_with spaced (JDict (kv :: d)) ++ r) with (x7b :: (comma_join spaced (map item (kv :: d)) ++ [x7d]) ++ r) in *.
    rewrite <-List.app_assoc in Hlen |- *. change ([x7d] ++ r) with (x7d :: r) in *. cbn [length] in Hlen. rewrite scan_value_dict.
    cbn [json_ok] in Hok. apply andb_true_iff in Hok as [Hnd%bool_decide_eq_true Hok].
    specialize (Hmem kv d [] r Hok Hnd).
    assert (∃ t, comma_join spaced (map item (kv :: d)) ++ x7d :: r = x22 :: t) as (t & Ht).
    { rewrite map_cons, comma_join_cons. unfold item, write_string. eexists. reflexivity. }
    rewrite Ht in *. change (skip_ws (x22 :: t)) with (x22 :: t). cbv iota.
    assert (scan_members fuel [] (x22 :: t) = Ok (kv :: d, r)) as Hmem' by (apply Hmem; cbn [length] in *; lia).
    by rewrite Hmem'.
Qed.

Lemma scanners_read fuel : reads_value fuel ∧ reads_items fuel ∧ reads_members fuel.
Proof.
  induction fuel as [|fuel (IHv & IHi & IHm)].
  { split_and!; [intros v r _ _ Hl|intros v l r _ Hl|intros kv d acc r _ _ Hl]; lia. }
  split_and!; [by apply reads_value_step|by apply reads_items_step|by apply reads_members_step].
Qed.
End Values.

(** ** Whole lines *)
Section Lines.
Context {T : Type} `{FloatTextLaws T}.
Implicit Types (v : json T) (s r : list byte).

Lemma printable_escape b : forallb printable (escape b) = true.
Proof. by destruct b. Qed.

Lemma printable_bind bs : forallb printable (bs ≫= escape) = true.
Proof. induction bs as [|b bs IH]; [done|]. by rewrite bind_cons, forallb_app, printable_escape. Qed.

Lemma printable_string k : forallb printable (write_string k) = true.
Proof. unfold write_string. by rewrite !forallb_app, printable_bind. Qed.

Lemma printable_nat n : forallb printable (write_nat n) = true.
Proof. unfold write_nat. by induction (N.to_uint n). Qed.

Lemma printable_gap spaced : forallb printable (gap spaced) = true.
Proof. by destruct spaced. Qed.

Lemma printable_join spaced l : forallb (forallb printable) l = true → forallb printable (comma_join spaced l) = true.
Proof.
  induction l as [|x l IH]; [done|]. intros [Hx Hl]%andb_true_iff.
  rewrite <-(List.app_nil_r (comma_join spaced _)), comma_join_cons, forallb_app, Hx. destruct l as [|y l]; [done|].
  rewrite List.app_nil_r. change (forallb printable (gap spaced ++ comma_join spaced (y :: l)) = true).
  by rewrite forallb_app, printable_gap, IH.
Qed.

Lemma dumps_printable spaced v : forallb printable (dumps_with spaced v) = true.
Proof.
  induction v as [|[]|z|f|k|l IH|d IH] using json_induction; try done.
  - unfold dumps_with, write_int. destruct (z <? 0); simpl; apply printable_nat.
  - pose proof (float_repr_token f) as Ht. by apply andb_true_iff in Ht as [Ht _].
  - apply printable_string.
  - cbn [dumps_with forallb]. rewrite forallb_app, printable_join; [done|]. induction IH as [|x l Hx _ IHl]; [done|].
    cbn [map forallb]. by rewrite Hx, IHl.
  - cbn [dumps_with forallb]. rewrite forallb_app, printable_join; [done|]. induction IH as [|[k x] l Hx _ IHl]; [done|].
    cbn [map forallb]. rewrite IHl, forallb_app, printable_string. cbn [forallb]. rewrite forallb_app, printable_gap. simpl in *. by rewrite Hx.
Qed.

#[export] Instance float_text_laws_Z : FloatTextLaws Z.
Proof.
  split; intros z; unfold float_repr, float_of, float_text_Z.
  - unfold float_token. rewrite scan_number_Z, forallb_app. apply andb_true_iff. split; [|by rewrite orb_true_r].
    unfold write_int. destruct (z <? 0); simpl; by rewrite printable_nat.
  - rewrite scan_number_Z. simpl. rewrite DecimalN.Unsigned.of_to. destruct (z <? 0) eqn:Hz; [apply Z.ltb_lt in Hz|apply Z.ltb_ge in Hz]; lia.
Qed.

Lemma printable_plain b : printable b = true → plain b = true.
Proof. unfold printable, plain. intros [H1 H2]%andb_true_iff. apply N.leb_le in H1, H2. apply andb_true_iff. split; apply N.ltb_lt; lia. Qed.

Lemma dumps_no_newline v : x0a ∉ dumps v.
Proof.
  intros Hin. pose proof (dumps_printable false v) as Hp. rewrite forallb_forall in Hp.
  specialize (Hp x0a (proj1 (list_elem_of_In _ _) Hin)). done.
Qed.

Lemma loads_dumps_with spaced v : json_ok v = true → loads (dumps_with spaced v) = Ok v.
Proof.
  intros Hok. unfold loads. assert (forallb plain (dumps_with spaced v) = true) as ->.
  { pose proof (dumps_printable spaced v) as Hp. rewrite forallb_forall in *. intros b Hb. by apply printable_plain, Hp. }
  destruct (scanners_read (T:=T) spaced (S (2 * length (dumps_with spaced v)))) as (Hv & _ & _).
  specialize (Hv v [] Hok I). rewrite List.app_nil_r in Hv.
  pose proof (skip_dumps spaced v []) as Hs. rewrite List.app_nil_r in Hs. rewrite Hs, Hv by lia. done.
Qed.

Lemma loads_dumps v : json_ok v = true → loads (dumps v) = Ok v.
Proof. apply loads_dumps_with. Qed.

(** ** The fuel of [loads] is enough *)
Definition shorter {A} s (r : result TextError (A * list byte)) : Prop :=
  match r with Ok (_, r) => (length r < length s)%nat | Err e => e ≠ TextFuel end.

Lemma shorter_bind {A B} s s' (m : result TextError (A * list byte)) (f : A → B) :
  shorter s m → (length s < length s')%nat → shorter s' ('(t, r) ← m; Ok (f t, r)).
Proof. destruct m as [[a r]|e]; simpl; [lia|done]. Qed.

Lemma scan_string_shorter n : ∀ s, (length s < n)%nat → shorter s (scan_string s).
Proof.
  induction n as [|n IH]; intros s Hlen; [lia|]. destruct s as [|b s]; [done|]. simpl in Hlen.
  destruct (decide (b = x22)) as [->|H1]; [simpl; lia|].
  destruct (decide (b = x5c)) as [->|H2].
  2:{ assert (scan_string (b :: s) = if (code b <? 32)%N then Err JSONDecodeError else '(t, s) ← scan_string s; Ok (b :: t, s)) as ->
        by (clear -H1 H2; by destruct b).
      destruct (code b <? 32)%N; [done|]. apply (shorter_bind s); [apply IH; lia|simpl; lia]. }
  destruct s as [|e s]; [done|]. simpl in Hlen. destruct (decide (e = x75)) as [->|H3].
  - destruct s as [|a [|b [|c [|d s]]]]; try done. simpl in Hlen.
    change (scan_string (x5c :: x75 :: a :: b :: c :: d :: s)) with
      (match hex_value a, hex_value b, hex_value c, hex_value d with
      | Some a, Some b, Some c, Some d =>
          match Byte.of_N (((a * 16 + b) * 16 + c) * 16 + d) with
          | Some ch => '(t, s) ← scan_string s; Ok (ch :: t, s)
          | None => Err OutsideText
          end
      | _, _, _, _ => Err JSONDecodeError
      end).
    destruct (hex_value a), (hex_value b), (hex_value c), (hex_value d); try done. destruct (Byte.of_N _); [|done].
    apply (shorter_bind s); [apply IH; lia|simpl; lia].
  - assert (scan_string (x5c :: e :: s) = match short_escape e with
      | Some ch => '(t, s) ← scan_string s; Ok (ch :: t, s) | None => Err JSONDecodeError end) as -> by (clear -H3; by destruct e).
    destruct (short_escape e); [|done]. apply (shorter_bind s); [apply IH; lia|simpl; lia].
Qed.

Lemma strip_lit_app p s r : strip_lit p s = Some r → s = p ++ r.
Proof.
  revert s. induction p as [|a p IH]; intros s; simpl; [by intros [= ->]|]. destruct s as [|b s]; [done|].
  destruct (byteb a b) eqn:Hb; [|done]. intros Hs. apply Byte.byte_dec_bl in Hb as ->. by rewrite (IH _ Hs).
Qed.

Lemma scan_atom_shorter s : shorter s (scan_atom (T:=T) s).
Proof.
  assert (∀ p r, strip_lit p s = Some r → p ≠ [] → (length r < length s)%nat) as Hp.
  { intros p r Hs Hne. apply strip_lit_app in Hs as ->. rewrite length_app. destruct p; [done|simpl; lia]. }
  unfold scan_atom. destruct (strip_lit lit_null s) eqn:H1; [by apply (Hp _ _ H1)|].
  destruct (strip_lit lit_true s) eqn:H2; [by apply (Hp _ _ H2)|]. destruct (strip_lit lit_false s) eqn:H3; [by apply (Hp _ _ H3)|].
  destruct (strip_lit lit_nan s) eqn:H4; [by apply (Hp _ _ H4)|]. destruct (strip_lit lit_inf s) eqn:H5; [by apply (Hp _ _ H5)|].
  destruct (strip_lit (x2d :: lit_inf) s) eqn:H6; [by apply (Hp _ _ H6)|].
  destruct (scan_number s) as [[n r]|] eqn:Hn; [|done]. apply scan_number_text in Hn as [-> Hne]. simpl.
  unfold scanned_text. rewrite !length_app. destruct (sc_int n); [done|..]; simpl; lia.
Qed.

Lemma skip_ws_length s : (length (skip_ws s) ≤ length s)%nat.
Proof. induction s as [|b s IH]; simpl; [lia|]. destruct (is_ws b); simpl; lia. Qed.
End Lines.

Section Fuel.
Context {T : Type} `{FloatTextLaws T}.
Implicit Types (s r : list byte).

Lemma scan_value_cases fuel b s :
  scan_value (T:=T) (S fuel) (b :: s) =
    if decide (b = x22) then '(t, r) ← scan_string s; Ok (JStr (to_str t), r)
    else if decide (b = x7b) then
      match skip_ws s with
      | x7d :: r => Ok (JDict [], r)
      | s => '(d, r) ← scan_members fuel [] s; Ok (JDict d, r)
      end
    else if decide (b = x5b) then
      match skip_ws s with
      | x5d :: r => Ok (JList [], r)
      | s => '(l, r) ← scan_items fuel s; Ok (JList l, r)
      end
    else scan_atom (b :: s).
Proof. by destruct b. Qed.

Lemma scan_items_S fuel s : scan_items (T:=T) (S fuel) s =
  '(v, r) ← scan_value fuel s;
  match skip_ws r with
  | x5d :: r => Ok ([v], r)
  | x2c :: r => '(l, r) ← scan_items fuel (skip_ws r); Ok (v :: l, r)
  | _ => Err JSONDecodeError
  end.
Proof. done. Qed.

Lemma scan_members_S fuel acc s : scan_members (T:=T) (S fuel) acc s =
  match s with
  | x22 :: s =>
      '(k, r) ← scan_string s;
      match skip_ws r with
      | x3a :: r =>
          '(v, r) ← scan_value fuel (skip_ws r);
          match skip_ws r with
          | x7d :: r => Ok (assoc_set acc (to_str k) v, r)
          | x2c :: r => scan_members fuel (assoc_set acc (to_str k) v) (skip_ws r)
          | _ => Err JSONDecodeError
          end
      | _ => Err JSONDecodeError
      end
  | _ => Err JSONDecodeError
  end.
Proof. done. Qed.

(** What follows an opening bracket. *)
Lemma bracket_cases {A B} (c : byte) s (empty : list byte → result TextError (B * list byte))
    (m : list byte → result TextError (A * list byte)) (f : A → B) s0 :
  (length s < length s0)%nat → (∀ r, length r < length s0 → shorter s0 (empty r))%nat →
  shorter (skip_ws s) (m (skip_ws s)) →
  shorter s0 (match skip_ws s with
              | b :: r => if decide (b = c) then empty r else '(a, r) ← m (b :: r); Ok (f a, r)
              | [] => '(a, r) ← m []; Ok (f a, r)
              end).
Proof.
  intros Hs He Hm. pose proof (skip_ws_length s) as Hw. destruct (skip_ws s) as [|b r].
  - eapply shorter_bind; [exact Hm|lia].
  - destruct (decide (b = c)); [apply He; simpl in Hw; lia|]. eapply shorter_bind; [exact Hm|simpl in *; lia].
Qed.

Lemma scanners_shorter fuel :
  (∀ s, (2 * length s < fuel)%nat → shorter s (scan_value (T:=T) fuel s)) ∧
  (∀ s, (2 * length s < Nat.pred fuel)%nat → shorter s (scan_items (T:=T) fuel s)) ∧
  (∀ acc s, (2 * length s < Nat.pred fuel)%nat → shorter s (scan_members (T:=T) fuel acc s)).
Proof.
  induction fuel as [|fuel (IHv & IHi & IHm)]; [split_and!; intros; lia|]. split_and!.
  - intros [|b s] Hlen; [done|]. rewrite scan_value_cases. simpl in Hlen. pose proof (skip_ws_length s) as Hw.
    destruct (decide (b = x22)); [eapply shorter_bind; [eapply scan_string_shorter; exact (Nat.lt_succ_diag_r _)|simpl; lia]|].
    destruct (decide (b = x7b)).
    { pose proof (bracket_cases x7d s (λ r, Ok (JDict (T:=T) [], r)) (scan_members fuel []) JDict (b :: s)) as Hb.
      destruct (skip_ws s) as [|b' r] eqn:Hsk; [apply Hb; simpl; try lia; apply IHm; simpl; lia|].
      simpl in Hw. destruct b'; (apply Hb; simpl; try lia; apply IHm; simpl; lia). }
    destruct (decide (b = x5b)); [|apply scan_atom_shorter].
    pose proof (bracket_cases x5d s (λ r, Ok (JList (T:=T) [], r)) (scan_items fuel) JList (b :: s)) as Hb.
    destruct (skip_ws s) as [|b' r] eqn:Hsk; [apply Hb; simpl; try lia; apply IHi; simpl; lia|].
    simpl in Hw. destruct b'; (apply Hb; simpl; try lia; apply IHi; simpl; lia).
  - intros s Hlen. simpl in Hlen. rewrite scan_items_S. pose proof (IHv s Hlen) as Hv.
    destruct (scan_value fuel s) as [[v r]|e]; [|done]. cbn [mbind result_bind]. simpl in Hv. pose proof (skip_ws_length r) as Hw.
    destruct (skip_ws r) as [|b r'] eqn:Hsk; [done|]. simpl in Hw.
    destruct (decide (b = x5d)) as [->|H1]; [simpl; lia|]. destruct (decide (b = x2c)) as [->|H2]; [|by destruct b].
    pose proof (skip_ws_length r') as Hw'. eapply shorter_bind; [apply IHi|]; lia.
  - intros acc s Hlen. simpl in Hlen. rewrite scan_members_S. destruct s as [|b s]; [done|]. simpl in Hlen.
    destruct (decide (b = x22)) as [->|H0']; [|by destruct b].
    pose proof (scan_string_shorter (S (length s)) s (Nat.lt_succ_diag_r _)) as Hs.
    destruct (scan_string s) as [[k r]|e]; [|done]. cbn [mbind result_bind]. simpl in Hs. pose proof (skip_ws_length r) as Hw.
    destruct (skip_ws r) as [|b r1] eqn:Hsk; [done|]. simpl in Hw. destruct (decide (b = x3a)) as [->|H1]; [|by destruct b].
    pose proof (skip_ws_length r1) as Hw1. assert (2 * length (skip_ws r1) < fuel)%nat as Hl1 by lia. pose proof (IHv _ Hl1) as Hv.
    destruct (scan_value fuel (skip_ws r1)) as [[v r2]|e]; [|done]. cbn [mbind result_bind]. simpl in Hv.
    pose proof (skip_ws_length r2) as Hw2. destruct (skip_ws r2) as [|b r3] eqn:Hsk2; [done|]. simpl in Hw2.
    destruct (decide (b = x7d)) as [->|H2]; [simpl; lia|]. destruct (decide (b = x2c)) as [->|H3]; [|by destruct b].
    pose proof (skip_ws_length r3) as Hw3.
    assert (shorter (skip_ws r3) (scan_members fuel (assoc_set acc (to_str k) v) (skip_ws r3))) as Hm by (apply IHm; lia).
    destruct (scan_members _ _ _) as [[d r4]|e]; [|done]. simpl in *. lia.
Qed.

(** [loads] ends in a value or one of its refusals. *)
Lemma loads_fuel line : loads (T:=T) line ≠ Err TextFuel.
Proof.
  unfold loads. destruct (forallb plain line); [|done]. pose proof (skip_ws_length line) as Hw.
  destruct (scanners_shorter (S (2 * length line))) as (Hv & _ & _). specialize (Hv (skip_ws line)).
  destruct (scan_value _ (skip_ws line)) as [[v r]|e]; cbn [mbind result_bind]; [by destruct (skip_ws r)|].
  intros [= ->]. apply Hv; [lia|done].
Qed.
End Fuel.
