(* ===== verification/SvcWire.v ===== *)
(** * The service's wire ([dataflow/service/wire.py])

    Frames over a stream socket: one line of JSON, and after it as many raw bytes as
    its [payload_bytes] says.  The socket delivers what the peer sent in pieces of
    any size, then the end of the stream: [cuts] are the sizes of the next pieces.
    A buffer of any announced size can be allocated. *)
From S2P Require Import Prelude SimSchema CoreProgram CoreJson JsonText.
From stdpp Require Import base tactics option list strings.
From Stdlib Require Import ZArith Lia Init.Byte.
Open Scope Z_scope.

Inductive WireError :=
| WireText (e : TextError)
| WireNotADict
| WireBadLength
| WireEOFMidPayload
| WireFuel.

Record Sock := mkSock { incoming : list byte; cuts : list nat }.

(** [sock.recv(n)]: at least one byte unless the stream has ended. *)
Definition sock_recv (n : nat) (s : Sock) : list byte * Sock :=
  let k := match cuts s with [] => n | c :: _ => Nat.min n (Nat.max 1 c) end in
  (take k (incoming s), mkSock (drop k (incoming s)) (tail (cuts s))).

(** A connection: the read-ahead buffer, the socket, and what was sent. *)
Record Conn := mkConn { rbuf : list byte; sock : Sock; sent : list byte }.
Definition set_rbuf b c := mkConn b (sock c) (sent c).
Definition set_sock k c := mkConn (rbuf c) k (sent c).

Definition RECV_SIZE : nat := Z.to_nat 65536.

Section Wire.
Context {T : Type} `{Num T, FloatText T}.

Record Frame := mkFrame { fr_msg : list (string * json T); fr_payload : option (list byte) }.

Local Notation CM := (M Conn WireError).

(** ** Sending *)
Definition announce (msg : list (string * json T)) (payload : option (list byte)) : list (string * json T) :=
  match payload with
  | Some p => assoc_set msg "payload_bytes"%string (JInt (Z.of_nat (length p)))
  | None => msg
  end.

Definition sendall (data : list byte) : CM unit := modify (λ c, mkConn (rbuf c) (sock c) (sent c ++ data)).

Definition send (msg : list (string * json T)) (payload : option (list byte)) : CM unit :=
  sendall (dumps (JDict (announce msg payload)) ++ [x0a]) ;;
  match payload with Some p => sendall p | None => mret tt end.

(** ** Receiving *)

(** [buf.split(b"\n", 1)], if there is a newline. *)
Fixpoint split_line (s : list byte) : option (list byte * list byte) :=
  match s with
  | [] => None
  | x0a :: s => Some ([], s)
  | b :: s => '(l, r) ← split_line s; Some (b :: l, r)
  end.

Fixpoint read_line_loop (fuel : nat) : CM (option (list byte)) :=
  match fuel with
  | O => raise WireFuel
  | S fuel =>
      c ← get;
      match split_line (rbuf c) with
      | Some (line, rest) => modify (set_rbuf rest) ;; mret (Some line)
      | None =>
          let '(chunk, s) := sock_recv RECV_SIZE (sock c) in
          modify (set_sock s) ;;
          match chunk with
          | [] => mret (match rbuf c with [] => None | b => Some b end)
          | _ :: _ => modify (set_rbuf (rbuf c ++ chunk)) ;; read_line_loop fuel
          end
      end
  end.

(** Every turn takes a byte from the socket. *)
Definition read_line : CM (option (list byte)) :=
  c ← get; read_line_loop (S (length (incoming (sock c)))).

Fixpoint fill_loop (fuel : nat) (n : nat) (out : list byte) : CM (list byte) :=
  if (length out <? n)%nat then
    match fuel with
    | O => raise WireFuel
    | S fuel =>
        c ← get;
        let '(chunk, s) := sock_recv (n - length out) (sock c) in
        modify (set_sock s) ;;
        match chunk with
        | [] => raise WireEOFMidPayload
        | _ :: _ => fill_loop fuel n (out ++ chunk)
        end
    end
  else mret out.

Definition read_exact (n : nat) : CM (list byte) :=
  c ← get;
  let have := Nat.min (length (rbuf c)) n in
  modify (set_rbuf (drop have (rbuf c))) ;;
  fill_loop n n (take have (rbuf c)).

(** [bytearray(n)] for the announced length. *)
Definition payload_length (n : json T) : result WireError nat :=
  match n with
  | JInt z => if z <? 0 then Err WireBadLength else Ok (Z.to_nat z)
  | JBool true => Ok 1%nat
  | _ => Err WireBadLength
  end.

Definition recv : CM (option Frame) :=
  line ← read_line;
  match line with
  | None => mret None
  | Some line =>
      match loads line with
      | Err e => raise (WireText e)
      | Ok (JDict d) =>
          let n := default (JInt 0) (dget d "payload_bytes") in
          let msg := assoc_del d "payload_bytes"%string in
          if truthy n then
            len ← lift (payload_length n);
            p ← read_exact len;
            mret (Some (mkFrame msg (Some p)))
          else mret (Some (mkFrame msg None))
      | Ok _ => raise WireNotADict
      end
  end.

Definition take_buffered : CM (list byte) :=
  c ← get; modify (set_rbuf []) ;; mret (rbuf c).

(** ** Several frames *)
Fixpoint send_all (frames : list Frame) : CM unit :=
  match frames with
  | [] => mret tt
  | f :: frames => send (fr_msg f) (fr_payload f) ;; send_all frames
  end.

Fixpoint recv_times (k : nat) : CM (list (option Frame)) :=
  match k with
  | O => mret []
  | S k => f ← recv; fs ← recv_times k; mret (f :: fs)
  end.
End Wire.
