(* ===== verification/SvcWireOk.v ===== *)
(** * Frames arrive as they were sent

    However the socket cuts the stream, a connection receives exactly the frames its
    peer sent, and what it has read ahead is what the next reader needs. *)
From S2P Require Import Prelude SimSchema CoreProgram CoreJson JsonText JsonTextOk SvcWire.
From stdpp Require Import base tactics option list strings.
From Stdlib Require Import ZArith Lia Init.Byte.
Open Scope Z_scope.

(** ** The socket *)
Lemma sock_recv_spec n s chunk s' : (0 < n)%nat → sock_recv n s = (chunk, s') →
  incoming s = chunk ++ incoming s' ∧ (length chunk ≤ n)%nat ∧ (chunk = [] → incoming s = []).
Proof.
  intros Hn. unfold sock_recv. intros [= <- <-]. simpl. split_and!.
  - by rewrite take_drop.
  - rewrite length_take. destruct (cuts s); lia.
  - intros Ht. destruct (incoming s) as [|b l]; [done|]. exfalso. revert Ht.
    destruct (cuts s) as [|c cs]; [destruct n; [lia|done]|]. destruct n; [lia|]. by destruct c.
Qed.

Lemma split_line_some s l r : split_line s = Some (l, r) → s = l ++ x0a :: r ∧ x0a ∉ l.
Proof.
  revert l r. induction s as [|b s IH]; intros l r; [done|]. destruct (decide (b = x0a)) as [->|Hb].
  { intros [= <- <-]. split; [done|]. apply not_elem_of_nil. }
  assert (split_line (b :: s) = '(l, r) ← split_line s; Some (b :: l, r)) as -> by (by destruct b).
  destruct (split_line s) as [[l0 r0]|]; [|done]. simpl. intros [= <- <-]. destruct (IH _ _ eq_refl) as [-> Hn].
  split; [done|]. apply not_elem_of_cons. auto.
Qed.

Lemma split_line_none s : split_line s = None → x0a ∉ s.
Proof.
  induction s as [|b s IH]; [intros _; apply not_elem_of_nil|]. destruct (decide (b = x0a)) as [->|Hb]; [done|].
  assert (split_line (b :: s) = '(l, r) ← split_line s; Some (b :: l, r)) as -> by (by destruct b).
  destruct (split_line s) as [[l0 r0]|]; [done|]. intros _. apply not_elem_of_cons. auto.
Qed.

(** What is still to be read: the buffer, then the socket. *)
Definition unread (c : Conn) : list byte := rbuf c ++ incoming (sock c).

Lemma line_unique (l1 l2 r1 r2 : list byte) : l1 ++ x0a :: r1 = l2 ++ x0a :: r2 → x0a ∉ l1 → x0a ∉ l2 → l1 = l2 ∧ r1 = r2.
Proof.
  revert l2. induction l1 as [|b l1 IH]; intros [|b2 l2]; simpl; intros Heq H1 H2.
  - by injection Heq.
  - injection Heq as <- _. exfalso. apply H2. by left.
  - injection Heq as -> _. exfalso. apply H1. by left.
  - injection Heq as <- Heq. apply not_elem_of_cons in H1 as [_ H1], H2 as [_ H2]. by destruct (IH _ Heq H1 H2) as [-> ->].
Qed.

(** ** Lines and payloads *)
Lemma read_line_loop_spec line rest : x0a ∉ line → ∀ fuel c,
  (length (incoming (sock c)) < fuel)%nat → unread c = line ++ x0a :: rest →
  ∃ c', read_line_loop fuel c = (Ok (Some line), c') ∧ unread c' = rest ∧ sent c' = sent c.
Proof.
  intros Hline. induction fuel as [|fuel IH]; intros c Hlen Hun; [lia|]. cbn [read_line_loop].
  unfold mbind, M_bind, get. destruct (split_line (rbuf c)) as [[l r]|] eqn:Hs.
  - apply split_line_some in Hs as [Hb Hl]. unfold unread in Hun. rewrite Hb, <-(assoc (++)) in Hun. simpl in Hun.
    apply line_unique in Hun as [-> Hr]; [|done..]. eexists. split; [reflexivity|]. done.
  - apply split_line_none in Hs. destruct (sock_recv RECV_SIZE (sock c)) as [chunk s] eqn:Hr.
    apply sock_recv_spec in Hr as (Hin & _ & Hemp); [|unfold RECV_SIZE; lia].
    destruct chunk as [|b chunk].
    { exfalso. unfold unread in Hun. rewrite (Hemp eq_refl), List.app_nil_r in Hun. apply Hs. rewrite Hun. apply elem_of_app. right. by left. }
    unfold modify. destruct (IH (set_rbuf (rbuf c ++ b :: chunk) (set_sock s c))) as (c' & Hc' & Hu' & Hs').
    + simpl. rewrite Hin, length_app in Hlen. simpl in Hlen. lia.
    + unfold unread in *. simpl. rewrite <-(assoc (++)). by rewrite Hin in Hun.
    + exists c'. done.
Qed.

Lemma fill_loop_spec rest p : ∀ fuel out c,
  (length p ≤ length out + fuel)%nat → (length out ≤ length p)%nat → rbuf c = [] ∨ length out = length p →
  out ++ unread c = p ++ rest →
  ∃ c', fill_loop fuel (length p) out c = (Ok p, c') ∧ unread c' = rest ∧ sent c' = sent c.
Proof.
  assert (∀ out c, length out = length p → out ++ unread c = p ++ rest → out = p ∧ unread c = rest) as Hdone
    by (intros out c Hl Heq; by apply app_inj_1 in Heq).
  assert (∀ fuel out c, length out = length p → out ++ unread c = p ++ rest →
    ∃ c', fill_loop fuel (length p) out c = (Ok p, c') ∧ unread c' = rest ∧ sent c' = sent c) as Hend.
  { intros fuel out c Hl Heq. destruct (Hdone out c Hl Heq) as [-> Hu]. exists c.
    destruct fuel; cbn [fill_loop]; rewrite Nat.ltb_irrefl; done. }
  induction fuel as [|fuel IH]; intros out c Hf Hle Hb Heq; [apply Hend; [lia|done]|].
  destruct (decide (length out = length p)) as [Hl|Hne]; [by apply Hend|]. destruct Hb as [Hb|]; [|done].
  cbn [fill_loop]. rewrite (proj2 (Nat.ltb_lt _ _)) by lia. unfold mbind, M_bind, get.
  destruct (sock_recv (length p - length out) (sock c)) as [chunk s] eqn:Hr.
  apply sock_recv_spec in Hr as (Hin & Hcl & Hemp); [|lia]. unfold unread in Heq. rewrite Hb in Heq. simpl in Heq.
  destruct chunk as [|b chunk].
  { exfalso. rewrite (Hemp eq_refl), List.app_nil_r in Heq. apply (f_equal length) in Heq. rewrite length_app in Heq. lia. }
  unfold modify. destruct (IH (out ++ b :: chunk) (set_sock s c)) as (c' & Hc' & Hu' & Hs').
  - rewrite length_app. simpl. lia.
  - rewrite length_app. lia.
  - by left.
  - unfold unread. simpl. rewrite Hb, <-(assoc (++)). by rewrite Hin in Heq.
  - exists c'. done.
Qed.

Lemma read_exact_spec p rest c : unread c = p ++ rest →
  ∃ c', read_exact (length p) c = (Ok p, c') ∧ unread c' = rest ∧ sent c' = sent c.
Proof.
  intros Hun. unfold read_exact, mbind, M_bind, get, modify. set (have := Nat.min (length (rbuf c)) (length p)).
  destruct (fill_loop_spec rest p (length p) (take have (rbuf c)) (set_rbuf (drop have (rbuf c)) c)) as (c' & Hc' & Hu & Hs);
    [unfold have..|by exists c'].
  - lia.
  - rewrite length_take. lia.
  - simpl. rewrite length_take. destruct (decide (length (rbuf c) ≤ length p)%nat); [left|right; lia].
    apply drop_ge. lia.
  - unfold unread in *. simpl. rewrite (assoc (++)), take_drop. exact Hun.
Qed.

(** ** Frames *)
Section Frames.
Context {T : Type} `{Num T, FloatTextLaws T}.
Implicit Types (f : Frame (T:=T)) (c : Conn).

(** A frame a client or a handler makes: a dict that leaves [payload_bytes] to the wire. *)
Definition frame_ok f : Prop := json_ok (JDict (fr_msg f)) = true ∧ "payload_bytes"%string ∉ (fr_msg f).*1.

(** The bytes of a frame. *)
Definition frame_bytes f : list byte :=
  dumps (JDict (announce (fr_msg f) (fr_payload f))) ++ x0a :: default [] (fr_payload f).

(** What arrives: an empty payload is not told from none. *)
Definition delivered f : Frame (T:=T) :=
  mkFrame (fr_msg f) (match fr_payload f with Some [] => None | p => p end).

Lemma send_bytes f c : send (fr_msg f) (fr_payload f) c = (Ok tt, mkConn (rbuf c) (sock c) (sent c ++ frame_bytes f)).
Proof.
  unfold send, sendall, mbind, M_bind, modify, frame_bytes. destruct (fr_payload f) as [p|]; cbn [announce default from_option rbuf sock sent]; [|reflexivity].
  by rewrite <-!(assoc (++)).
Qed.

Lemma send_all_bytes fs c : send_all fs c = (Ok tt, mkConn (rbuf c) (sock c) (sent c ++ (fs ≫= frame_bytes))).
Proof.
  revert c. induction fs as [|f fs IH]; intros c; cbn [send_all]; [by destruct c; simpl; rewrite List.app_nil_r|].
  unfold mbind at 1, M_bind at 1. rewrite send_bytes, IH. cbn [rbuf sock sent]. by rewrite bind_cons, <-(assoc (++)).
Qed.

Lemma announce_ok f : frame_ok f → json_ok (JDict (announce (fr_msg f) (fr_payload f))) = true.
Proof.
  intros [Hok Hk]. unfold announce. destruct (fr_payload f) as [p|]; [|done]. cbn [json_ok] in *.
  apply andb_true_iff in Hok as [Hnd%bool_decide_eq_true Hall]. apply andb_true_iff. split.
  - apply bool_decide_eq_true. by apply assoc_set_keys.
  - rewrite assoc_set_absent by done. by rewrite forallb_app, Hall.
Qed.

Lemma dget_assoc (d : list (string * json T)) k : dget d k = assoc_get d k.
Proof.
  induction d as [|[k' v] d IH]; [done|]. simpl. rewrite IH. destruct (String.eqb_spec k k') as [->|Hne].
  - by rewrite decide_True.
  - by rewrite decide_False.
Qed.

(** A frame at the head of what is unread is received, whatever follows. *)
Lemma recv_frame f rest c : frame_ok f → unread c = frame_bytes f ++ rest →
  ∃ c', recv c = (Ok (Some (delivered f)), c') ∧ unread c' = rest ∧ sent c' = sent c.
Proof.
  intros Hok Hun. unfold frame_bytes in Hun. rewrite <-(assoc (++)) in Hun. cbn [app] in Hun.
  destruct (read_line_loop_spec _ _ (dumps_no_newline _) (S (length (incoming (sock c)))) c (Nat.lt_succ_diag_r _) Hun)
    as (c1 & Hl & Hu1 & Hs1).
  unfold recv, read_line, mbind, M_bind, get. rewrite Hl, loads_dumps by by apply announce_ok.
  rewrite dget_assoc. destruct Hok as [_ Hk]. unfold announce. destruct (fr_payload f) as [p|] eqn:Hp; cbn [default from_option id] in Hu1.
  - rewrite assoc_get_set, (assoc_set_absent (fr_msg f)) by done.
    assert (assoc_del (fr_msg f ++ [("payload_bytes"%string, JInt (Z.of_nat (length p)))]) "payload_bytes"%string = fr_msg f) as ->
      by (rewrite assoc_del_middle, List.app_nil_r by done; done).
    cbn [default from_option id truthy]. destruct (Z.of_nat (length p) =? 0) eqn:Hz; cbn [negb].
    + apply Z.eqb_eq in Hz. destruct p; [|done]. exists c1. unfold delivered. by rewrite Hp.
    + apply Z.eqb_neq in Hz. unfold payload_length. rewrite (proj2 (Z.ltb_ge _ _)) by lia. rewrite Nat2Z.id. unfold lift.
      destruct (read_exact_spec p rest c1 Hu1) as (c2 & Hr & Hu2 & Hs2). rewrite Hr. exists c2. split; [|by rewrite Hs2].
      unfold delivered. rewrite Hp. by destruct p.
  - rewrite (proj2 (assoc_get_none _ _) Hk), assoc_del_absent by done. exists c1. unfold delivered. by rewrite Hp.
Qed.

Lemma recv_frames fs : ∀ rest c, Forall frame_ok fs → unread c = (fs ≫= frame_bytes) ++ rest →
  ∃ c', recv_times (length fs) c = (Ok (Some ∘ delivered <$> fs), c') ∧ unread c' = rest ∧ sent c' = sent c.
Proof.
  induction fs as [|f fs IH]; intros rest c Hok Hun; [by exists c|]. apply Forall_cons in Hok as [Hf Hok].
  rewrite bind_cons, <-(assoc (++)) in Hun. destruct (recv_frame f _ c Hf Hun) as (c1 & Hr & Hu1 & Hs1).
  destruct (IH rest c1 Hok Hu1) as (c2 & Hr2 & Hu2 & Hs2). exists c2. split; [|by rewrite Hs2].
  cbn [length recv_times]. unfold mbind, M_bind. by rewrite Hr, Hr2.
Qed.

Lemma recv_eof c : unread c = [] → ∃ c', recv (T:=T) c = (Ok None, c').
Proof.
  intros Hun. apply app_nil in Hun as [Hb Hi]. unfold recv, read_line, mbind, M_bind, get. cbn [read_line_loop].
  unfold mbind, M_bind, get. rewrite Hb. cbn [split_line]. destruct (sock_recv RECV_SIZE (sock c)) as [chunk s] eqn:Hr.
  apply sock_recv_spec in Hr as (Hin & _ & _); [|unfold RECV_SIZE; lia]. rewrite Hi in Hin. symmetry in Hin. apply app_nil in Hin as [-> _].
  eexists. reflexivity.
Qed.


End Frames.

(** ** A handshake and an upload, cut in threes *)
Definition hello : Frame (T:=Z) :=
  mkFrame [("id", JInt 1); ("op", JStr "hello"); ("args", JDict [("t", JFloat 3)])]%string None.
Definition upload : Frame (T:=Z) :=
  mkFrame [("id", JInt 2); ("op", JStr "create_object")]%string (Some [x01; x0a; xff]).

Lemma hello_upload_ok : Forall frame_ok [hello; upload].
Proof.
  repeat constructor; simpl; try (vm_compute; reflexivity); intros Hin; repeat (apply elem_of_cons in Hin as [?|Hin]; [discriminate|]);
    by apply elem_of_nil in Hin.
Qed.


