(* ===== verification/SvcRegistry.v ===== *)
(** * The resolver registry ([dataflow/service/registry.py])

    Kinds of programs and how their resolvers are built: [_BUILDS] and [_CACHE], which are
    globals of the module, are the state.  A build is a function of the spec that may
    raise; what it returns, a value of [R], is the workload's own.  [JitterResolver]
    is a wrapper around it; its kernel and random delays are not modelled. *)
From S2P Require Import Prelude SimSchema CoreProgram CoreJson SvcStore JsonText.
From stdpp Require Import base tactics option list strings.
From Stdlib Require Import ZArith Lia Init.Byte.
Open Scope Z_scope.

Section Registry.
Context {T : Type} `{Num T, FloatText T} {R : Type}.
Notation jdict := (jdict (T := T)).

Inductive Resolver :=
| Built (r : R)
| Jittered (r : R) (low_us high_us : T) (seed : json T).

Definition Build : Type := jdict → result SvcError R.

(** The cache key: the kind and the canonical text of the spec. *)
Abbreviation CacheKey := (string * list byte)%type.

Record Registry := mkRegistry {
  _BUILDS : list (string * Build);
  _CACHE : list (CacheKey * Resolver);
}.

(** [register_program_resolver]: the cached resolvers of the kind are dropped. *)
Definition register_program_resolver (kind : string) (build : Build) (g : Registry) : Registry :=
  mkRegistry (assoc_set (_BUILDS g) kind build) (filter (λ e, e.1.1 ≠ kind) (_CACHE g)).

Definition registered_kinds (g : Registry) : list string := py_sorted String.leb (_BUILDS g).*1.

(** [float(jitter.get(k, default))]. *)
Definition jitter_float (d : jdict) (k : string) (def : Z) : result SvcError T :=
  match dget d k with
  | None => Ok (num_of_Z def)
  | Some (JInt z) => Ok (num_of_Z z)
  | Some (JFloat f) => Ok f
  | Some _ => Err (TypeError k)
  end.

(** [random.Random(jitter.get("seed", 0))]. *)
Definition jitter_seed (d : jdict) : result SvcError (json T) :=
  match dget d "seed" with
  | None => Ok (JInt 0)
  | Some (JList _) | Some (JDict _) => Err (TypeError "seed")
  | Some v => Ok v
  end.

(** The wrapper of a spec with [debug_jitter]. *)
Definition with_jitter (spec : jdict) (r : R) : result SvcError Resolver :=
  match dget spec "debug_jitter" with
  | None => Ok (Built r)
  | Some v =>
      if truthy v then
        match v with
        | JDict d =>
            lo ← jitter_float d "min_us" 20;
            hi ← jitter_float d "max_us" 400;
            seed ← jitter_seed d;
            Ok (Jittered r lo hi seed)
        | _ => Err (TypeError "debug_jitter")
        end
      else Ok (Built r)
  end.

(** [spec.get("kind")], as the key of [_BUILDS]; no kind but a string is registered. *)
Definition spec_build (spec : jdict) (g : Registry) : result SvcError (string * Build) :=
  match dget spec "kind" with
  | Some (JStr kind) =>
      match assoc_get (_BUILDS g) kind with Some build => Ok (kind, build) | None => Err BadRequest end
  | Some (JList _) | Some (JDict _) => Err (TypeError "kind")
  | _ => Err BadRequest
  end.

Definition lookup_resolver (spec : jdict) : M Registry SvcError Resolver :=
  g ← get;
  '(kind, build) ← lift (spec_build spec g);
  let key := (kind, dumps_with true (sort_keys (JDict spec))) in
  match assoc_get (_CACHE g) key with
  | Some hit => mret hit
  | None =>
      r ← lift (build spec);
      hit ← lift (with_jitter spec r);
      modify (λ g, mkRegistry (_BUILDS g) (assoc_set (_CACHE g) key hit)) ;;
      mret hit
  end.

(** Whatever the modules that are imported and the programs that are registered do. *)
Inductive RegistryCall :=
| RegisterKind (kind : string) (build : Build)
| LookupSpec (spec : jdict).

Definition registry_call (c : RegistryCall) (g : Registry) : Registry :=
  match c with
  | RegisterKind kind build => register_program_resolver kind build g
  | LookupSpec spec => (lookup_resolver spec g).2
  end.

Definition registry_after (l : list RegistryCall) : Registry :=
  foldl (λ g c, registry_call c g) (mkRegistry [] []) l.
End Registry.
Arguments Resolver : clear implicits.
Arguments Registry : clear implicits.
