(* ===== verification/SvcRegistryOk.v ===== *)
(** * The registry's cache is transparent

    What [lookup_resolver] answers from its cache is what it would build afresh, because
    the text of the key determines the spec up to the order of its keys. *)
From S2P Require Import Prelude SimSchema CoreProgram CoreJson SvcStore JsonText JsonTextOk SvcRegistry.
From stdpp Require Import base tactics option list strings sorting.
From Stdlib Require Import ZArith Lia Init.Byte.
Open Scope Z_scope.

(** ** Sorted keys *)
Section Sorted.
Context {T : Type} `{Num T, FloatTextLaws T}.
Implicit Types (v w : json T) (d : jdict (T := T)).

Definition sorted_items d : jdict (T := T) := map (λ kv, (kv.1, sort_keys kv.2)) d.

Lemma sorted_items_keys d : (sorted_items d).*1 = d.*1.
Proof. induction d as [|[k v] d IH]; [done|]. simpl. by f_equal. Qed.

Lemma json_ok_sorted v : json_ok v = true → json_ok (sort_keys v) = true.
Proof.
  induction v as [| | | | |l IH|d IH] using json_induction; [done..| |]; cbn [sort_keys json_ok].
  - rewrite !forallb_forall. intros Hl x (y & <- & Hy)%in_map_iff. rewrite Forall_forall in IH.
    apply IH; [by apply list_elem_of_In|by apply Hl].
  - intros [Hnd%bool_decide_eq_true Hd]%andb_true_iff. apply andb_true_iff. split.
    + apply bool_decide_eq_true. rewrite <-(py_sorted_perm key_leb). by rewrite <-(sorted_items_keys d) in Hnd.
    + rewrite forallb_forall in *. intros kv Hkv. apply list_elem_of_In in Hkv.
      rewrite elem_of_py_sorted in Hkv. apply list_elem_of_In, in_map_iff in Hkv as ([k v] & <- & Hin). simpl.
      rewrite Forall_forall in IH. apply (IH (k, v)); [by apply list_elem_of_In|by apply (Hd (k, v))].
Qed.

(** The text of the sorted value determines it. *)
Lemma canonical_text spaced v w : json_ok v = true → json_ok w = true →
  dumps_with spaced (sort_keys v) = dumps_with spaced (sort_keys w) → sort_keys v = sort_keys w.
Proof.
  intros Hv%json_ok_sorted Hw%json_ok_sorted Heq. apply (loads_dumps_with spaced) in Hv, Hw.
  rewrite Heq, Hw in Hv. by injection Hv.
Qed.

(** ** Lookups in a sorted dict *)
Lemma dget_elem d k v : NoDup d.*1 → dget d k = Some v ↔ (k, v) ∈ d.
Proof.
  induction d as [|[k0 v0] d IH]; simpl; [by split; [|intros ?%elem_of_nil]|]. intros [Hk Hd]%NoDup_cons.
  rewrite elem_of_cons. destruct (String.eqb_spec k k0) as [->|Hne].
  - split; [by intros [= ->]; left|]. intros [[= ->]|Hin]; [done|]. exfalso. apply Hk.
    by apply (list_elem_of_fmap_2 fst) in Hin.
  - rewrite (IH Hd). split; [auto|]. by intros [[= -> _]|?].
Qed.

Lemma dget_perm d d' k : NoDup d.*1 → Permutation d d' → dget d k = dget d' k.
Proof.
  intros Hd Hp. assert (NoDup d'.*1) as Hd' by by rewrite <-Hp. apply option_eq. intros v.
  by rewrite !dget_elem, Hp by done.
Qed.

Lemma dget_sorted_items d k : dget (sorted_items d) k = sort_keys <$> dget d k.
Proof. induction d as [|[k0 v0] d IH]; [done|]. simpl. by destruct (String.eqb k k0). Qed.

Lemma dget_sorted d k : NoDup d.*1 → dget (py_sorted key_leb (sorted_items d)) k = sort_keys <$> dget d k.
Proof.
  intros Hd. rewrite <-dget_sorted_items. symmetry. apply dget_perm; [by rewrite sorted_items_keys|apply py_sorted_perm].
Qed.

(** Two dicts that are one in Python: equal up to the order of keys, everywhere. *)
Definition same_dict d d' : Prop := sort_keys (JDict d) = sort_keys (JDict d').

Lemma same_dict_get d d' k : NoDup d.*1 → NoDup d'.*1 → same_dict d d' →
  sort_keys <$> dget d k = sort_keys <$> dget d' k.
Proof.
  intros Hd Hd' [= Heq]. rewrite <-!dget_sorted by done. unfold sorted_items. by rewrite Heq.
Qed.

Lemma same_get_cases d d' k : NoDup d.*1 → NoDup d'.*1 → same_dict d d' →
  match dget d k, dget d' k with
  | Some (JDict a), Some (JDict b) => same_dict a b
  | Some (JList a), Some (JList b) => map sort_keys a = map sort_keys b
  | x, y => x = y
  end.
Proof.
  intros Hd Hd' Hs. pose proof (same_dict_get d d' k Hd Hd' Hs) as Hg.
  destruct (dget d k) as [[]|], (dget d' k) as [[]|]; simpl in Hg; try done; try (by injection Hg as ->).
  cbv zeta. unfold same_dict. cbn [sort_keys]. by injection Hg as ->.
Qed.

Lemma same_dict_truthy d d' : same_dict d d' → truthy (JDict d) = truthy (JDict d').
Proof.
  intros [= Heq]. pose proof (py_sorted_perm key_leb (sorted_items d)) as Hp1.
  pose proof (py_sorted_perm key_leb (sorted_items d')) as Hp2. unfold sorted_items in *. rewrite Heq, <-Hp2 in Hp1.
  apply Permutation_length in Hp1. rewrite !length_map in Hp1. by destruct d, d'.
Qed.
End Sorted.

(** ** The cache *)
Section Cache.
Context {T : Type} `{Num T, FloatTextLaws T} {R : Type}.
Implicit Types (spec d : jdict (T := T)) (g : Registry T R) (build : Build (T := T) (R := R)).

(** A build is a function of its spec, which has no order of keys for Python. *)
Definition pure build : Prop := ∀ spec spec',
  json_ok (JDict spec) = true → json_ok (JDict spec') = true → same_dict spec spec' → build spec = build spec'.

Definition spec_ok spec : Prop := json_ok (JDict spec) = true.

Definition call_ok (c : RegistryCall (T := T) (R := R)) : Prop :=
  match c with RegisterKind _ build => pure build | LookupSpec spec => spec_ok spec end.

(** What a lookup without a cache answers. *)
Definition fresh spec build : result SvcError (Resolver T R) := r ← build spec; with_jitter spec r.

Lemma json_ok_nodup d : spec_ok d → NoDup d.*1.
Proof. unfold spec_ok. cbn [json_ok]. by intros [?%bool_decide_eq_true _]%andb_true_iff. Qed.

Lemma dget_ok d k v : spec_ok d → dget d k = Some v → json_ok v = true.
Proof.
  intros Hd Hg. pose proof (json_ok_nodup d Hd) as Hnd. apply dget_elem in Hg; [|done].
  unfold spec_ok in Hd. cbn [json_ok] in Hd. apply andb_true_iff in Hd as [_ Hd]. rewrite forallb_forall in Hd.
  by apply (Hd (k, v)), list_elem_of_In.
Qed.

Lemma jitter_float_same d d' k def : spec_ok d → spec_ok d' → same_dict d d' →
  jitter_float d k def = jitter_float d' k def.
Proof.
  intros Hd%json_ok_nodup Hd'%json_ok_nodup Hs. pose proof (same_get_cases d d' k Hd Hd' Hs) as Hk. unfold jitter_float.
  by destruct (dget d k) as [[]|], (dget d' k) as [[]|]; simplify_eq.
Qed.

Lemma jitter_seed_same d d' : spec_ok d → spec_ok d' → same_dict d d' → jitter_seed d = jitter_seed d'.
Proof.
  intros Hd%json_ok_nodup Hd'%json_ok_nodup Hs. pose proof (same_get_cases d d' "seed" Hd Hd' Hs) as Hk. unfold jitter_seed.
  by destruct (dget d "seed") as [[]|], (dget d' "seed") as [[]|]; simplify_eq.
Qed.

Lemma with_jitter_same spec spec' (r : R) : spec_ok spec → spec_ok spec' → same_dict spec spec' →
  with_jitter spec r = with_jitter spec' r.
Proof.
  intros Hd Hd' Hs. pose proof (same_get_cases spec spec' "debug_jitter" (json_ok_nodup _ Hd) (json_ok_nodup _ Hd') Hs) as Hk.
  pose proof (dget_ok spec "debug_jitter") as Hok. pose proof (dget_ok spec' "debug_jitter") as Hok'. unfold with_jitter.
  destruct (dget spec "debug_jitter") as [[| | | | |l|d]|], (dget spec' "debug_jitter") as [[| | | | |l'|d']|]; simplify_eq; try done.
  - destruct l, l'; done.
  - specialize (Hok _ Hd eq_refl). specialize (Hok' _ Hd' eq_refl).
    rewrite (same_dict_truthy d d' Hk), (jitter_float_same d d' "min_us" 20), (jitter_float_same d d' "max_us" 400),
      (jitter_seed_same d d'); done.
Qed.

Lemma fresh_same spec spec' build : pure build → spec_ok spec → spec_ok spec' → same_dict spec spec' →
  fresh spec build = fresh spec' build.
Proof.
  intros Hp Hd Hd' Hs. unfold fresh. rewrite (Hp spec spec') by done. destruct (build spec'); [|done].
  by apply with_jitter_same.
Qed.

(** Every cached resolver is that of a spec with the key's text, built by the kind's build. *)
Definition cached_ok g : Prop := ∀ kind text hit, assoc_get (_CACHE g) (kind, text) = Some hit →
  ∃ build spec, assoc_get (_BUILDS g) kind = Some build ∧ spec_ok spec ∧
    text = dumps_with true (sort_keys (JDict spec)) ∧ fresh spec build = Ok hit.

Definition registry_ok g : Prop :=
  cached_ok g ∧ ∀ kind build, assoc_get (_BUILDS g) kind = Some build → pure build.

Definition uncached spec g : result SvcError (Resolver T R) := '(_, build) ← spec_build spec g; fresh spec build.

Lemma spec_build_spec spec g kind build : spec_build spec g = Ok (kind, build) → assoc_get (_BUILDS g) kind = Some build.
Proof.
  unfold spec_build. destruct (dget spec "kind") as [[]|]; try done. destruct (assoc_get _ _) eqn:Hb; [|done].
  by intros [= <- <-].
Qed.

Lemma lookup_spec spec g : registry_ok g → spec_ok spec →
  (lookup_resolver spec g).1 = uncached spec g ∧ registry_ok (lookup_resolver spec g).2 ∧
  _BUILDS (lookup_resolver spec g).2 = _BUILDS g.
Proof.
  intros [Hc Hp] Hs. unfold lookup_resolver, uncached, lift, modify, mbind, M_bind, get. cbv zeta.
  destruct (spec_build spec g) as [[kind build]|e] eqn:Hb; [|done]. cbn [mbind result_bind].
  pose proof (spec_build_spec _ _ _ _ Hb) as Hkind. pose proof (Hp _ _ Hkind) as Hpure.
  destruct (assoc_get (_CACHE g) _) as [hit|] eqn:Hhit.
  - destruct (Hc _ _ _ Hhit) as (build' & spec' & Hb' & Hs' & Htext & Hf). rewrite Hkind in Hb'. injection Hb' as <-.
    apply canonical_text in Htext; [|done..]. split; [|done]. change (Ok hit = fresh spec build). by rewrite <-Hf, (fresh_same spec spec').
  - unfold fresh. destruct (build spec) as [r|e] eqn:Hr; [|done]. cbn [mbind result_bind].
    destruct (with_jitter spec r) as [hit|e] eqn:Hj; [|done]. simpl. split_and!; [done| |done]. split; [|done].
    intros kind' text hit'. simpl. destruct (decide ((kind, dumps_with true (sort_keys (JDict spec))) = (kind', text))) as [[= <- <-]|Hne].
    + rewrite assoc_get_set. intros [= <-]. exists build, spec. split_and!; [done..|]. unfold fresh. by rewrite Hr.
    + rewrite assoc_get_set_ne by done. apply Hc.
Qed.

Lemma assoc_get_filter {V} (l : list ((string * list byte) * V)) kind key :
  assoc_get (filter (λ e, e.1.1 ≠ kind) l) key = if decide (key.1 = kind) then None else assoc_get l key.
Proof.
  induction l as [|[k v] l IH]; [by destruct (decide _)|]. rewrite filter_cons.
  destruct (decide ((k, v).1.1 ≠ kind)) as [Hk|Hk]; cbn [assoc_get]; rewrite IH; simpl in Hk.
  - destruct (decide (key = k)) as [->|]; [by rewrite decide_False|done].
  - destruct (decide (key.1 = kind)); [done|]. rewrite decide_False; [done|]. intros ->. tauto.
Qed.

Lemma register_ok kind build g : pure build → registry_ok g → registry_ok (register_program_resolver kind build g).
Proof.
  intros Hp [Hc Hb]. split.
  - intros kind' text hit. simpl. rewrite assoc_get_filter. simpl. destruct (decide (kind' = kind)) as [->|Hne]; [done|].
    intros (build' & spec & Hb' & Hrest)%Hc. exists build', spec. by rewrite assoc_get_set_ne.
  - intros kind' build'. simpl. destruct (decide (kind = kind')) as [<-|Hne].
    + rewrite assoc_get_set. by intros [= <-].
    + rewrite assoc_get_set_ne by done. apply Hb.
Qed.

Lemma registry_after_ok l g : Forall call_ok l → registry_ok g → registry_ok (foldl (λ g c, registry_call c g) g l).
Proof.
  intros Hl. revert g. induction Hl as [|c l Hc _ IH]; intros g Hg; [done|]. apply IH.
  destruct c as [kind build|spec]; [by apply register_ok|]. by apply lookup_spec.
Qed.

(** C30: The cache of the registry is transparent: after any registrations and lookups, a
    lookup answers what the last build registered for the spec's kind answers for that
    very spec, with its delays around it, and raises what an empty cache would raise. *)
Theorem registry_cache_transparent (l : list (RegistryCall (T := T) (R := R))) spec :
  Forall call_ok l → spec_ok spec →
  (lookup_resolver spec (registry_after l)).1 = uncached spec (registry_after l).
Proof.
  intros Hl Hs. apply lookup_spec; [|done]. by apply registry_after_ok.
Qed.
End Cache.

(** Two kinds, one of which is registered again; a spec whose keys come in another order. *)
Module Kinds.
Definition scale (n : Z) : Build (T := Z) (R := Z) := λ spec,
  match dget spec "size" with Some (JInt z) => Ok (n * z) | _ => Err BadRequest end.
Definition spec1 : jdict (T := Z) := [("kind", JStr "a"); ("size", JInt 3)]%string.
Definition spec2 : jdict (T := Z) := [("size", JInt 3); ("kind", JStr "a")]%string.
Definition calls : list (RegistryCall (T := Z) (R := Z)) :=
  [RegisterKind "a" (scale 2); LookupSpec spec1; RegisterKind "b" (scale 5); RegisterKind "a" (scale 7); LookupSpec spec1].

Lemma scale_pure n : pure (scale n).
Proof.
  intros s s' Hs Hs' Hsame. unfold scale.
  pose proof (same_get_cases s s' "size" (json_ok_nodup _ Hs) (json_ok_nodup _ Hs') Hsame) as Hk.
  by destruct (dget s "size") as [[]|], (dget s' "size") as [[]|]; simplify_eq.
Qed.

Lemma registry_cache_transparent_witness :
  (lookup_resolver spec2 (registry_after calls)).1 = Ok (Built 21).
Proof.
  rewrite (registry_cache_transparent calls spec2); [vm_compute; reflexivity| |reflexivity].
  repeat constructor; apply scale_pure.
Defined.
End Kinds.
