(* ===== verification/SvcRuns.v ===== *)
(** * Programs and runs ([dataflow/service/handlers_runs.py], [execution.py])

    Registration of programs, the [run] call, and the critical and fast-path operations on
    runs.  A program of host tasks runs here, on the extents of its objects
    ([execute_host_run]); for a program of device tasks [prepare_placement] and
    [execute_run] call the engine on the CUDA backend and are arguments.  The other
    arguments: the hash of a program's text, files with JSON, the launch of an executable
    on the slab's bytes, [struct.unpack("<f")], torch's memory peaks, the clock, and at
    which polls of a run a [cancel_run] has been called. *)
From S2P Require Import Prelude SimSchema CoreProgram CoreJson SvcStore JsonText SvcRegistry SvcHandlers.
From stdpp Require Import base tactics option list strings pretty.
From Stdlib Require Import ZArith Lia Init.Byte.
From S2P Require Import SvcAlloc SvcSnapshot SvcServer.
Open Scope Z_scope.

Section Runs.
Context {T : Type} `{Num T, FloatText T} {R Art : Type}.
Notation jdict := (jdict (T := T)).

(** ** State *)
Record RegisteredProgram := mkRegistered {
  pg_prog_id : string;
  pg_name : json T;
  pg_program : Program T;
  pg_resolver_spec : jdict;
  pg_registered_t : T;
  pg_placement : option Art;
  pg_runs : Z;
}.

(** The diagnostic of a run that was cancelled or failed. *)
Record RunOutcome := mkOutcome { oc_cancelled : bool; oc_message : string; oc_task_id : option string }.

Record RunRecord := mkRunRecord {
  rn_run_id : string;
  rn_prog_id : string;
  rn_args : jdict;
  rn_state : string;
  rn_started : option T;
  rn_finished : option T;
  rn_tasks_total : Z;
  rn_makespan_us : option T;
  rn_counts : list (string * Z);    (* peak_fast_bytes .. placement_extent_bytes *)
  rn_error : option (json T);
  rn_fetched : list (string * json T);
  rn_trace_tail : list string;
}.

Definition COUNTS : list (string * Z) :=
  [("peak_fast_bytes", 0); ("slab_overflows", 0); ("pressure_evictions", 0); ("placement_escapes", 0);
   ("torch_reserved_peak", 0); ("torch_allocated_peak", 0); ("placement_extent_bytes", 0)]%string.

Definition new_run (run_id prog_id : string) (args : jdict) (n : Z) : RunRecord :=
  mkRunRecord run_id prog_id args "queued" None None n None COUNTS None [] [].
Definition set_run_state (x : string) (r : RunRecord) : RunRecord :=
  mkRunRecord (rn_run_id r) (rn_prog_id r) (rn_args r) x (rn_started r) (rn_finished r) (rn_tasks_total r)
    (rn_makespan_us r) (rn_counts r) (rn_error r) (rn_fetched r) (rn_trace_tail r).
Definition set_run_error (x : json T) (r : RunRecord) : RunRecord :=
  mkRunRecord (rn_run_id r) (rn_prog_id r) (rn_args r) (rn_state r) (rn_started r) (rn_finished r) (rn_tasks_total r)
    (rn_makespan_us r) (rn_counts r) (Some x) (rn_fetched r) (rn_trace_tail r).
Definition set_started (t : T) (r : RunRecord) : RunRecord :=
  mkRunRecord (rn_run_id r) (rn_prog_id r) (rn_args r) (rn_state r) (Some t) (rn_finished r) (rn_tasks_total r)
    (rn_makespan_us r) (rn_counts r) (rn_error r) (rn_fetched r) (rn_trace_tail r).
Definition set_finished (t : T) (r : RunRecord) : RunRecord :=
  mkRunRecord (rn_run_id r) (rn_prog_id r) (rn_args r) (rn_state r) (rn_started r) (Some t) (rn_tasks_total r)
    (rn_makespan_us r) (rn_counts r) (rn_error r) (rn_fetched r) (rn_trace_tail r).
Definition set_measured (t : T) (counts : list (string * Z)) (tail : list string) (r : RunRecord) : RunRecord :=
  mkRunRecord (rn_run_id r) (rn_prog_id r) (rn_args r) (rn_state r) (rn_started r) (rn_finished r) (rn_tasks_total r)
    (Some t) counts (rn_error r) (rn_fetched r) tail.
Definition set_fetched (oid : string) (v : json T) (r : RunRecord) : RunRecord :=
  mkRunRecord (rn_run_id r) (rn_prog_id r) (rn_args r) (rn_state r) (rn_started r) (rn_finished r) (rn_tasks_total r)
    (rn_makespan_us r) (rn_counts r) (rn_error r) (assoc_set (rn_fetched r) oid v) (rn_trace_tail r).

Record Event := mkEvent { ev_event : string; ev_t : T; ev_seq : Z; ev_payload : jdict }.

(** Of [EngineState]: what the sessions have run, the counters, the current run, the event
    ring; and how often the clock was read. *)
Record EngineState := mkState {
  es_sessions : list (string * (Z * T));
  es_counters : list (string * Z);
  es_current_run : option (json T);
  es_events : list Event;
  es_event_seq : Z;
  es_clock : nat;
}.

Record Service := mkService {
  rs_engine : Engine (T := T);
  rs_registry : Registry T R;
  rs_programs : list (string * RegisteredProgram);
  rs_runs : list (string * RunRecord);
  rs_run_order : list string;
  rs_cancel : bool;
  rs_state : EngineState;
}.
Definition Sv (A : Type) : Type := M Service SvcError A.

Definition set_engine (g : Engine) (s : Service) : Service :=
  mkService g (rs_registry s) (rs_programs s) (rs_runs s) (rs_run_order s) (rs_cancel s) (rs_state s).
Definition set_registry (g : Registry T R) (s : Service) : Service :=
  mkService (rs_engine s) g (rs_programs s) (rs_runs s) (rs_run_order s) (rs_cancel s) (rs_state s).
Definition set_programs (l : list (string * RegisteredProgram)) (s : Service) : Service :=
  mkService (rs_engine s) (rs_registry s) l (rs_runs s) (rs_run_order s) (rs_cancel s) (rs_state s).
Definition set_runs (l : list (string * RunRecord)) (o : list string) (s : Service) : Service :=
  mkService (rs_engine s) (rs_registry s) (rs_programs s) l o (rs_cancel s) (rs_state s).
Definition set_cancel (b : bool) (s : Service) : Service :=
  mkService (rs_engine s) (rs_registry s) (rs_programs s) (rs_runs s) (rs_run_order s) b (rs_state s).
Definition set_state (st : EngineState) (s : Service) : Service :=
  mkService (rs_engine s) (rs_registry s) (rs_programs s) (rs_runs s) (rs_run_order s) (rs_cancel s) st.

Definition set_sessions (l : list (string * (Z * T))) (st : EngineState) : EngineState :=
  mkState l (es_counters st) (es_current_run st) (es_events st) (es_event_seq st) (es_clock st).
Definition set_current_run (r : option (json T)) (st : EngineState) : EngineState :=
  mkState (es_sessions st) (es_counters st) r (es_events st) (es_event_seq st) (es_clock st).
Definition bump (k : string) (n : Z) (st : EngineState) : EngineState :=
  mkState (es_sessions st) (assoc_set (es_counters st) k (default 0 (assoc_get (es_counters st) k) + n))
    (es_current_run st) (es_events st) (es_event_seq st) (es_clock st).

Definition upd_state (f : EngineState → EngineState) : Sv unit := modify (λ s, set_state (f (rs_state s)) s).
Definition upd_run (run_id : string) (f : RunRecord → RunRecord) : Sv unit :=
  modify (λ s, match assoc_get (rs_runs s) run_id with
               | Some r => set_runs (assoc_set (rs_runs s) run_id (f r)) (rs_run_order s) s
               | None => s
               end).
Definition upd_program (prog_id : string) (f : RegisteredProgram → RegisteredProgram) : Sv unit :=
  modify (λ s, match assoc_get (rs_programs s) prog_id with
               | Some p => set_programs (assoc_set (rs_programs s) prog_id (f p)) s
               | None => s
               end).
Definition on_engine {A} (m : En (T := T) A) : Sv A := λ s,
  let '(r, g) := m (rs_engine s) in (r, set_engine g s).
Definition on_registry {A} (m : M (Registry T R) SvcError A) : Sv A := λ s,
  let '(r, g) := m (rs_registry s) in (r, set_registry g s).

(** ** What the code gets from elsewhere *)
Record HostBuffer := mkHostBuffer { hb_id : string; hb_size_bytes : Z; hb_offset : Z }.
Record HostContext := mkHostContext {
  hc_task : TaskSpec T;
  hc_inputs : list (string * HostBuffer);
  hc_mutates : list (string * HostBuffer);
  hc_run_args : jdict;
}.
(** A finished run: its counters, the bytes of its final objects, its trace. *)
Record RunResult := mkRunResult {
  rt_makespan_us : T;
  rt_peak_fast_bytes : Z;
  rt_slab_overflows : Z;
  rt_pressure_evictions : Z;
  rt_placement_escapes : Z;
  rt_objects : list (string * list byte);
  rt_trace : option (list string * json T);
}.

Class ServiceEnv := {
  real_boot : bool;
  content_hash : list byte → string;
  read_json : string → result SvcError jdict;
  resolve_task : Resolver T R → TaskSpec T → result string unit;   (* whether [resolver(task)] raises *)
  launch : Resolver T R → HostContext → M (list byte) string unit;
  prepare_placement : Program T → list (string * HostBuffer) → result SvcError Art;
  extent_bytes : Art → Z;
  execute_run : Program T → Resolver T R → list (string * HostBuffer) → Art → jdict → (nat → bool) →
    M (Store T) SvcError (RunResult + RunOutcome);
  close_session : string → M (Store T) SvcError bool;
  unpack_f32 : list byte → T;
  torch_peaks : Z * Z;
  clock : nat → T;
  to_us : T → T;           (* seconds to microseconds *)
  polls : nat → bool;      (* whether a cancel has come by the i-th poll of the run *)
}.
Context `{env : ServiceEnv}.

(** ** Small steps *)
Definition time : Sv T := λ s,
  let st := rs_state s in
  (Ok (clock (es_clock st)),
   set_state (mkState (es_sessions st) (es_counters st) (es_current_run st) (es_events st) (es_event_seq st)
                (S (es_clock st))) s).

Definition EVENT_RING_CAP : nat := 4096.

Definition emit (event : string) (payload : jdict) : Sv unit :=
  t ← time;
  upd_state (λ st,
    let seq := es_event_seq st + 1 in
    let events := es_events st ++ [mkEvent event t seq payload] in
    mkState (es_sessions st) (es_counters st) (es_current_run st)
      (drop (length events - EVENT_RING_CAP) events) seq (es_clock st)).

Definition jopt (x : option T) : json T := match x with Some t => JFloat t | None => JNull end.

(** [RunRecord.status]. *)
Definition status (r : RunRecord) : Sv jdict :=
  elapsed ← (match rn_started r with
             | Some t0 =>
                 if num_eqb t0 num_zero then mret num_zero
                 else
                   t ← (match rn_finished r with
                        | Some t => if num_eqb t num_zero then time else mret t
                        | None => time
                        end);
                   mret (num_sub t t0)
             | None => mret num_zero
             end);
  mret ([("run_id", JStr (rn_run_id r)); ("prog_id", JStr (rn_prog_id r)); ("state", JStr (rn_state r));
         ("args", JDict (rn_args r)); ("started", jopt (rn_started r)); ("elapsed_s", JFloat elapsed);
         ("tasks_total", JInt (rn_tasks_total r)); ("makespan_us", jopt (rn_makespan_us r))]%string ++
        ((λ c, (c.1, JInt c.2)) <$> rn_counts r) ++
        [("error", default JNull (rn_error r))]%string).

(** ** Registration *)

(** [program_content_id]. *)
Definition program_content_id (pd : jdict) : string :=
  "p-" +:+ content_hash (dumps (sort_keys (JDict pd))).

Record Bindings := mkBindings { bd_adopt : list string; bd_missing : list string }.

(** [_binding_report]. *)
Fixpoint binding_report (specs : list ObjectSpec) (s : Store T) (acc : Bindings) : result SvcError Bindings :=
  match specs with
  | [] => Ok acc
  | spec :: specs =>
      match find_rec (os_id spec) s with
      | None => binding_report specs s (mkBindings (bd_adopt acc) (bd_missing acc ++ [os_id spec]))
      | Some r =>
          raise_if (negb (rec_size_bytes r =? os_size_bytes spec))
            (BindingMismatch (os_id spec) (rec_size_bytes r) (os_size_bytes spec)) ;;
          binding_report specs s (mkBindings (bd_adopt acc ++ [os_id spec]) (bd_missing acc))
      end
  end.

(** [sorted(produced)[:64]]. *)
Definition produced (p : Program T) : list string := p_tasks p ≫= λ t, ous_id <$> ts_outputs t.
Definition created (p : Program T) : list string := take 64 (sorted_ids (produced p)).

Definition initial_ids (p : Program T) : list string := os_id <$> p_initial_objects p.

(** A program is all-host or all-device; a host task has no outputs and touches initial
    objects only. *)
Definition check_host_task (p : Program T) (t : TaskSpec T) : result SvcError unit :=
  raise_if (nonempty (ts_outputs t)) BadRequest ;;
  raise_if (existsb (λ o, negb (bool_decide (o ∈ initial_ids p))) (ts_inputs t ++ ts_mutates t)) BadRequest.

Definition check_host (p : Program T) : result SvcError unit :=
  let host := List.filter ts_host (p_tasks p) in
  raise_if (nonempty host && negb (length host =? length (p_tasks p))%nat) BadRequest ;;
  if nonempty host then iterR (check_host_task p) (p_tasks p) else Ok tt.

Definition program_dict (a : jdict) : result SvcError jdict :=
  v ← arg a "program";
  match v with JStr path => read_json path | JDict pd => Ok pd | _ => Err (TypeError "program") end.

Definition register (persist : bool) (c : QueuedCall T) : Sv (Reply T) :=
  let a := qc_args c in
  pd ← lift (program_dict a);
  let prog_id := program_content_id pd in
  program ← lift (match program_from_dict pd with Ok p => Ok p | Err _ => Err InvalidProgramDict end);
  lift (check_host program) ;;
  spec ← lift (arg_dict a "resolver");
  on_registry (lookup_resolver spec) ;;
  s ← get;
  report ← lift (binding_report (p_initial_objects program) (en_store (rs_engine s)) (mkBindings [] []));
  let name := default JNull (dget a "name") in
  when (persist && negb (bool_decide (is_Some (assoc_get (rs_programs s) prog_id))))
    (t ← time;
     modify (λ s, set_programs
       (assoc_set (rs_programs s) prog_id (mkRegistered prog_id name program spec t None 0)) s) ;;
     upd_state (bump "programs_registered" 1)) ;;
  mret (reply [("prog_id", JStr prog_id); ("name", name);
    ("bindings", JDict [("adopt", JList (JStr <$> bd_adopt report)); ("create", JList (JStr <$> created program));
                        ("missing_inputs", JList (JStr <$> bd_missing report))]);
    ("capacity", JDict [("backing_bytes_needed", JInt (sumZ (os_size_bytes <$> p_initial_objects program)));
                        ("fast_extent_bytes", JNull)]);
    ("warnings", JList [])]%string).

Definition register_program := register true.
Definition validate_program := register false.

Definition unregister_program (c : QueuedCall T) : Sv (Reply T) :=
  id ← lift (arg_str (qc_args c) "prog_id");
  s ← get;
  check (bool_decide (is_Some (assoc_get (rs_programs s) id))) (UnknownProgram id) ;;
  modify (λ s, set_programs (assoc_del (rs_programs s) id) s) ;;
  released ← on_engine (on_store (close_session id));
  mret (reply [("ok", JBool true); ("session_released", JBool released)]%string).

(** ** A run: what is bound *)

(** [d.get(k) or {}] and [or []]. *)
Definition or_dict (a : jdict) (k : string) : result SvcError jdict :=
  match dget a k with
  | None => Ok []
  | Some v => if truthy v then match v with JDict d => Ok d | _ => Err (TypeError k) end else Ok []
  end.
Definition as_string (k : string) (v : json T) : result SvcError string :=
  match v with JStr x => Ok x | _ => Err (TypeError k) end.
Definition or_strings (a : jdict) (k : string) : result SvcError (list string) :=
  match dget a k with
  | None => Ok []
  | Some v => if truthy v then match v with JList l => map_result (as_string k) l | _ => Err (TypeError k) end else Ok []
  end.
Definition rebind_of (a : jdict) : result SvcError (list (string * string)) :=
  d ← or_dict a "rebind"; map_result (λ kv, x ← as_string "rebind" kv.2; Ok (kv.1, x)) d.

(** [rebind.get(spec.id, spec.id)]. *)
Definition target_of (rebind : list (string * string)) (spec : ObjectSpec) : string :=
  default (os_id spec) (assoc_get rebind (os_id spec)).

(** The pass before any mutation: a leased object parks the call. *)
Fixpoint lease_pass (rebind : list (string * string)) (specs : list ObjectSpec) (s : Store T) : result SvcError unit :=
  match specs with
  | [] => Ok tt
  | spec :: specs =>
      (match find_rec (target_of rebind spec) s with
       | Some r => raise_if (negb (rec_lease_refs r =? 0)) (Leased (rec_id r))
       | None => Ok tt
       end) ;;
      lease_pass rebind specs s
  end.

(** [host_task_buffer], [store_buffer]: the second needs a pinned slab. *)
Definition host_task_buffer (r : ObjectRecord T) : HostBuffer :=
  mkHostBuffer ("store:" +:+ rec_id r) (rec_size_bytes r) (offset (rec_extent r)).
Definition store_buffer (r : ObjectRecord T) : result SvcError HostBuffer :=
  if real_boot then Ok (host_task_buffer r) else Err BadRequest.

Definition run_error (code message : string) : json T :=
  JDict [("code", JStr code); ("message", JStr message)]%string.
Definition refuse {A} (run_id code message : string) (e : SvcError) : Sv A :=
  upd_run run_id (λ r, set_run_error (run_error code message) (set_run_state "error" r)) ;;
  raise e.

Fixpoint bind_objects (host : bool) (run_id : string) (rebind : list (string * string)) (specs : list ObjectSpec)
    (values : list (string * HostBuffer)) : Sv (list (string * HostBuffer)) :=
  match specs with
  | [] => mret values
  | spec :: specs =>
      let target := target_of rebind spec in
      let message := (os_id spec +:+ " -> " +:+ target)%string in
      s ← get;
      match find_rec target (en_store (rs_engine s)) with
      | None => refuse run_id "MISSING_INPUTS" message (MissingInputs (os_id spec) target)
      | Some r =>
          if rec_size_bytes r =? os_size_bytes spec then
            on_engine (on_store (upd_rec target (λ r, set_version (rec_version r + 1) r))) ;;
            b ← lift (if host then Ok (host_task_buffer r) else store_buffer r);
            bind_objects host run_id rebind specs (assoc_set values (os_id spec) b)
          else refuse run_id "BINDING_MISMATCH" message (BindingMismatch target (rec_size_bytes r) (os_size_bytes spec))
      end
  end.

(** [{o: values[o] for o in names}]. *)
Fixpoint pick (values : list (string * HostBuffer)) (names : list string) (acc : list (string * HostBuffer)) :
    result string (list (string * HostBuffer)) :=
  match names with
  | [] => Ok acc
  | o :: names =>
      match assoc_get values o with
      | Some b => pick values names (assoc_set acc o b)
      | None => Err ("KeyError: '" +:+ o +:+ "'")%string
      end
  end.

(** ** Programs of host tasks *)
Definition host_context (values : list (string * HostBuffer)) (run_args : jdict) (t : TaskSpec T) :
    result string HostContext :=
  ins ← pick values (ts_inputs t) [];
  muts ← pick values (ts_mutates t) [];
  Ok (mkHostContext t ins muts run_args).

(** The executable writes the slab itself. *)
Definition on_slab {A} (m : M (list byte) string A) : Sv (result string A) := λ s,
  let st := en_store (rs_engine s) in
  let '(r, l) := m (mem st) in (Ok r, set_engine (with_store (set_mem l st) (rs_engine s)) s).

Fixpoint host_tasks (values : list (string * HostBuffer)) (resolver : Resolver T R) (run_args : jdict)
    (i : nat) (tasks : list (TaskSpec T)) : Sv (option RunOutcome) :=
  match tasks with
  | [] => mret None
  | t :: tasks =>
      s ← get;
      if rs_cancel s || polls i then
        mret (Some (mkOutcome true ("cancelled before " +:+ ts_id t) (Some (ts_id t))))
      else
        r ← (match resolve_task resolver t ;; host_context values run_args t with
             | Ok ctx => on_slab (launch resolver ctx)
             | Err e => mret (Err e)
             end);
        match r with
        | Ok _ => host_tasks values resolver run_args (S i) tasks
        | Err message => mret (Some (mkOutcome false message (Some (ts_id t))))
        end
  end.

Definition execute_host_run (program : Program T) (resolver : Resolver T R) (values : list (string * HostBuffer))
    (run_args : jdict) : Sv (RunResult + RunOutcome) :=
  t0 ← time;
  stopped ← host_tasks values resolver run_args 0 (p_tasks program);
  match stopped with
  | Some o => mret (inr o)
  | None => t1 ← time; mret (inl (mkRunResult (to_us (num_sub t1 t0)) 0 0 0 0 [] None))
  end.

(** ** The run call *)
Definition is_host_program (p : Program T) : bool := nonempty (p_tasks p) && forallb ts_host (p_tasks p).

Record RunRequest := mkRequest {
  rq_entry : RegisteredProgram;
  rq_args : jdict;
  rq_rebind : list (string * string);
  rq_fetch : list string;
  rq_run_id : string;
  rq_session : string;
  rq_trace : bool;
}.

Definition RUN_ORDER_CAP : nat := 1024.

(** Up to [run_order.append]. *)
Definition open_run (c : QueuedCall T) : Sv RunRequest :=
  let a := qc_args c in
  prog_id ← lift (arg_str a "prog_id");
  s ← get;
  match assoc_get (rs_programs s) prog_id with
  | None => raise (UnknownProgram prog_id)
  | Some entry =>
      args ← lift (or_dict a "args");
      rebind ← lift (rebind_of a);
      fetch ← lift (or_strings a "fetch");
      lift (lease_pass rebind (p_initial_objects (pg_program entry)) (en_store (rs_engine s))) ;;
      run_id ← on_engine (next_id "r");
      let rec := new_run run_id (pg_prog_id entry) args (Z.of_nat (length (p_tasks (pg_program entry)))) in
      modify (λ s,
        let order := rs_run_order s ++ [run_id] in
        set_runs (assoc_set (rs_runs s) run_id rec) (drop (length order - RUN_ORDER_CAP) order) s) ;;
      mret (mkRequest entry args rebind fetch run_id (qc_session_id c) (arg_true a "trace" || arg_true args "trace"))
  end.

(** The placement of a device program, computed by its first run. *)
Definition set_placement (x : Art) (p : RegisteredProgram) : RegisteredProgram :=
  mkRegistered (pg_prog_id p) (pg_name p) (pg_program p) (pg_resolver_spec p) (pg_registered_t p) (Some x) (pg_runs p).
Definition count_run (p : RegisteredProgram) : RegisteredProgram :=
  mkRegistered (pg_prog_id p) (pg_name p) (pg_program p) (pg_resolver_spec p) (pg_registered_t p) (pg_placement p)
    (pg_runs p + 1).

Definition place_program (entry : RegisteredProgram) (values : list (string * HostBuffer)) : Sv (option Art) :=
  if is_host_program (pg_program entry) then mret None
  else
    match pg_placement entry with
    | Some x => mret (Some x)
    | None =>
        x ← lift (prepare_placement (pg_program entry) values);
        upd_program (pg_prog_id entry) (set_placement x) ;;
        mret (Some x)
    end.

(** [rec.state = "running"] and [rec.started]; then [active_cancel.clear()]. *)
Definition mark_running (run_id : string) : Sv unit :=
  upd_run run_id (set_run_state "running") ;;
  t ← time;
  upd_run run_id (set_started t).
Definition clear_cancel : Sv unit := modify (set_cancel false).

Definition the_run (run_id : string) : Sv RunRecord :=
  s ← get; mret (default (new_run run_id "" [] 0) (assoc_get (rs_runs s) run_id)).

Definition announce_run (rq : RunRequest) : Sv unit :=
  rec ← the_run (rq_run_id rq);
  cur ← status rec;
  upd_state (λ st,
    let st := bump "runs_total" 1 (set_current_run (Some (JDict cur)) st) in
    match assoc_get (es_sessions st) (rq_session rq) with
    | Some (n, secs) => set_sessions (assoc_set (es_sessions st) (rq_session rq) (n + 1, secs)) st
    | None => st
    end) ;;
  emit "run_started" [("run_id", JStr (rq_run_id rq)); ("prog_id", JStr (pg_prog_id (rq_entry rq)));
                      ("args", JDict (rq_args rq))]%string.

Definition run_tasks (rq : RunRequest) (values : list (string * HostBuffer)) (placement : option Art) :
    Sv (RunResult + RunOutcome) :=
  resolver ← on_registry (lookup_resolver (pg_resolver_spec (rq_entry rq)));
  let program := pg_program (rq_entry rq) in
  match placement with
  | None => execute_host_run program resolver values (rq_args rq)
  | Some x => on_engine (on_store (execute_run program resolver values x (rq_args rq) polls))
  end.

Definition outcome_json (o : RunOutcome) : json T :=
  JDict [("kind", JStr (if oc_cancelled o then "cancelled" else "failed")); ("message", JStr (oc_message o));
         ("task_id", match oc_task_id o with Some t => JStr t | None => JNull end)]%string.

(** The branch [if result is None]. *)
Definition fail_run (rq : RunRequest) (o : RunOutcome) : Sv (Reply T) :=
  let kind := if oc_cancelled o then "CANCELLED" else "RUN_FAILED" in
  let error := JDict [("code", JStr kind); ("message", JStr (oc_message o)); ("detail", outcome_json o)]%string in
  upd_run (rq_run_id rq) (λ r, set_run_error error (set_run_state (if oc_cancelled o then "cancelled" else "error") r)) ;;
  upd_state (set_current_run None) ;;
  when (negb (oc_cancelled o)) (upd_state (bump "runs_failed" 1)) ;;
  emit (if oc_cancelled o then "run_done" else "run_error") [("run_id", JStr (rq_run_id rq)); ("error", error)]%string ;;
  raise (if oc_cancelled o then RunCancelled (oc_message o) else RunFailed (oc_message o)).

(** [capture_finals]: the finals that the run made. *)
Fixpoint capture_finals (values : list (string * HostBuffer)) (objects : list (string * list byte)) (writer : string)
    (finals : list (string * Location)) : Sv unit :=
  match finals with
  | [] => mret tt
  | (oid, _) :: finals =>
      (match assoc_get values oid, assoc_get objects oid with
       | None, Some raw =>
           t ← time;
           on_engine (on_store (put t oid (Some raw) None None writer)) ;;
           mret tt
       | _, _ => mret tt
       end) ;;
      capture_finals values objects writer finals
  end.

Fixpoint fetch_objects (run_id : string) (ids : list string) : Sv unit :=
  match ids with
  | [] => mret tt
  | oid :: ids =>
      s ← get;
      v ← (match find_rec oid (en_store (rs_engine s)) with
           | None => mret JNull
           | Some _ =>
               data ← on_engine (on_store (get_bytes oid));
               if (length data =? 4)%nat then mret (JFloat (unpack_f32 data)) else raise BadRequest
           end);
      upd_run run_id (set_fetched oid v) ;;
      fetch_objects run_id ids
  end.

Definition counts_of (placement : option Art) (x : RunResult) : list (string * Z) :=
  [("peak_fast_bytes", rt_peak_fast_bytes x); ("slab_overflows", rt_slab_overflows x);
   ("pressure_evictions", rt_pressure_evictions x); ("placement_escapes", rt_placement_escapes x);
   ("torch_reserved_peak", torch_peaks.1); ("torch_allocated_peak", torch_peaks.2);
   ("placement_extent_bytes", match placement with Some p => extent_bytes p | None => 0 end)]%string.

Definition last_events (x : RunResult) : list string :=
  match rt_trace x with Some (events, _) => drop (length events - 200) events | None => [] end.

(** The rest of the [try] of a run that has a result. *)
Definition finish_run (rq : RunRequest) (values : list (string * HostBuffer)) (placement : option Art) (x : RunResult) :
    Sv (Reply T) :=
  let id := rq_run_id rq in
  let program := pg_program (rq_entry rq) in
  upd_run id (set_measured (rt_makespan_us x) (counts_of placement x) (last_events x)) ;;
  upd_state (bump "tasks_executed" (Z.of_nat (length (p_tasks program)))) ;;
  s ← get;
  rec ← the_run id;
  (match assoc_get (es_sessions (rs_state s)) (rq_session rq), rn_started rec with
   | Some (n, secs), Some t0 =>
       when (negb (num_eqb t0 num_zero))
         (t ← time;
          upd_state (λ st, set_sessions (assoc_set (es_sessions st) (rq_session rq) (n, num_add secs (num_sub t t0))) st))
   | _, _ => mret tt
   end) ;;
  capture_finals values (rt_objects x) id (p_final_locations program) ;;
  fetch_objects id (rq_fetch rq) ;;
  upd_run id (set_run_state "done") ;;
  upd_state (set_current_run None) ;;
  emit "run_done" [("run_id", JStr id); ("prog_id", JStr (pg_prog_id (rq_entry rq)));
                   ("makespan_us", JFloat (rt_makespan_us x))]%string ;;
  rec ← the_run id;
  out ← status rec;
  mret (reply (out ++ [("fetched", JDict (rn_fetched rec))]%string ++
    match rt_trace x with
    | Some (_, tr) => if rq_trace rq then [("trace", tr)]%string else []
    | None => []
    end)).

Definition bind_run (rq : RunRequest) : Sv (list (string * HostBuffer)) :=
  let program := pg_program (rq_entry rq) in
  bind_objects (is_host_program program) (rq_run_id rq) (rq_rebind rq) (p_initial_objects program) [].

(** From the announcement to the reply. *)
Definition conclude_run (rq : RunRequest) (values : list (string * HostBuffer)) (placement : option Art) : Sv (Reply T) :=
  announce_run rq ;;
  result ← run_tasks rq values placement;
  t ← time;
  upd_run (rq_run_id rq) (set_finished t) ;;
  upd_program (pg_prog_id (rq_entry rq)) count_run ;;
  match result with
  | inr o => fail_run rq o
  | inl x => finish_run rq values placement x
  end.

Definition run (c : QueuedCall T) : Sv (Reply T) :=
  rq ← open_run c;
  values ← bind_run rq;
  placement ← place_program (rq_entry rq) values;
  mark_running (rq_run_id rq) ;;
  clear_cancel ;;
  conclude_run rq values placement.

(** ** The critical operation and the queries *)
Definition cancel_run (args : jdict) : Sv jdict :=
  id ← lift (arg_str args "run_id");
  s ← get;
  match assoc_get (rs_runs s) id with
  | None => raise (UnknownRun id)
  | Some r =>
      if String.eqb (rn_state r) "running" then
        modify (set_cancel true) ;; mret [("ok", JBool true); ("state", JStr "cancelling")]%string
      else mret [("ok", JBool true); ("state", JStr (rn_state r))]%string
  end.

Definition run_status (args : jdict) : Sv jdict :=
  id ← lift (arg_str args "run_id");
  s ← get;
  match assoc_get (rs_runs s) id with None => raise (UnknownRun id) | Some r => status r end.

(** [int(args.get(k, default))]. *)
Definition int_or (args : jdict) (k : string) (def : Z) : result SvcError Z :=
  match dget args k with None => Ok def | Some (JInt z) => Ok z | Some _ => Err (TypeError k) end.
(** [l[-n:]]. *)
Definition last_slice {A} (n : Z) (l : list A) : list A :=
  drop (Z.to_nat (slice_index (Z.of_nat (length l)) (- n))) l.

Fixpoint statuses (ids : list string) : Sv (list (json T)) :=
  match ids with
  | [] => mret []
  | id :: ids =>
      s ← get;
      match assoc_get (rs_runs s) id with
      | Some r => d ← status r; ds ← statuses ids; mret (JDict d :: ds)
      | None => statuses ids
      end
  end.
Definition list_runs (args : jdict) : Sv (list (json T)) :=
  limit ← lift (int_or args "limit" 100);
  s ← get;
  statuses (rev (last_slice limit (rs_run_order s))).

Definition run_events (args : jdict) : Sv (list string) :=
  id ← lift (arg_str args "run_id");
  s ← get;
  match assoc_get (rs_runs s) id with
  | None => raise (UnknownRun id)
  | Some r => tail ← lift (int_or args "tail" 200); mret (last_slice tail (rn_trace_tail r))
  end.

Definition list_programs (s : Service) : list (json T) :=
  (λ e, JDict [("prog_id", JStr (pg_prog_id e.2)); ("name", pg_name e.2);
               ("registered_t", JFloat (pg_registered_t e.2)); ("runs", JInt (pg_runs e.2))]%string) <$> rs_programs s.

Definition list_resolvers (s : Service) : jdict :=
  [("kinds", JList (JStr <$> registered_kinds (rs_registry s)))]%string.

Definition newline : list byte := [x0a].
Definition export_trace (c : QueuedCall T) : Sv (Reply T) :=
  id ← lift (arg_str (qc_args c) "run_id");
  s ← get;
  match assoc_get (rs_runs s) id with
  | None => raise (UnknownRun id)
  | Some r =>
      dest ← lift (arg_str (qc_args c) "dest");
      let text := foldr (λ e rest, Strings.String.list_byte_of_string e ++ newline ++ rest) [] (rn_trace_tail r) in
      let text := match text with [] => newline | _ => text end in
      mret (mkReply (JDict [("path", JStr dest); ("bytes", JInt (Z.of_nat (length text)))]%string) None (Some (dest, text)))
  end.

(** ** The dispatcher's table: the store's, the snapshots' and these *)
Definition run_handlers : list (string * (T → QueuedCall T → Sv (Reply T))) :=
  [("register_program", λ _, register_program); ("validate_program", λ _, validate_program);
   ("unregister_program", λ _, unregister_program); ("run", λ _, run); ("export_trace", λ _, export_trace)]%string.

Definition service_handlers (fs : FileSystem) (rng_tokens : Z → Z → Z → list byte) :
    list (string * (T → QueuedCall T → Sv (Reply T))) :=
  ((λ h, (h.1, λ now c, on_engine (h.2 now c))) <$> engine_handlers fs rng_tokens) ++ run_handlers.
End Runs.
Arguments Service : clear implicits.
Arguments RegisteredProgram : clear implicits.
Arguments ServiceEnv : clear implicits.
