(* ===== verification/SvcRunsOk.v ===== *)
(** * What a run of host tasks may touch

    A run binds the objects of its program and lets its tasks write them in the slab.  From
    a store whose extents do not overlap, whatever the run answers, no object changes its
    place, and only bytes of unleased objects that a task declares to mutate change.

    The dispatcher parks a call that raises LEASED and runs it again from scratch, so LEASED
    must come before any change.  For a program of host tasks it does: only the pass over
    the leases raises it.  A cancel that arrives between two lines of [run] is lost. *)
From S2P Require Import Prelude SimSchema CoreProgram CoreJson SvcStore JsonText SvcRegistry SvcHandlers SvcDispatch.
From stdpp Require Import base tactics option list strings.
From Stdlib Require Import ZArith Lia Init.Byte.
From S2P Require Import SvcAlloc SvcStoreInv SvcSnapshot SvcServer SvcRuns.
Open Scope Z_scope.

(** ** Computations that leave the store alone *)
Section inert.
Context {T : Type} `{Num T, FloatText T} {R Art : Type} `{!ServiceEnv T R Art}.
Notation Service := (Service T R Art).

Definition the_store (s : Service) : Store T := en_store (rs_engine s).

(** [always I m]: the invariant holds after [m], also when it raises. *)
Definition always {S E A} (I : S → Prop) (m : M S E A) : Prop := ∀ s, I s → I (m s).2.

Lemma always_ret {S E A} (I : S → Prop) (a : A) : always (E := E) I (mret a).
Proof. by intros s. Qed.
Lemma always_raise {S E A} (I : S → Prop) (e : E) : always (A := A) I (raise e).
Proof. by intros s. Qed.
Lemma always_lift {S E A} (I : S → Prop) (r : result E A) : always I (lift r).
Proof. by intros s. Qed.
Lemma always_check {S E} (I : S → Prop) c (e : E) : always I (check c e).
Proof. by destruct c; intros s. Qed.
Lemma always_bind {S E A B} (I : S → Prop) (m : M S E A) (f : A → M S E B) :
  always I m → (∀ a, always I (f a)) → always I (m ≫= f).
Proof. intros Hm Hf s Hs. unfold mbind, M_bind. specialize (Hm s Hs). destruct (m s) as [[a|e] s']; [by apply Hf|done]. Qed.
Lemma always_get {S E B} (I : S → Prop) (f : S → M S E B) : (∀ s, I s → always I (f s)) → always I (get ≫= f).
Proof. intros Hf s Hs. by apply Hf. Qed.
Lemma always_when {S E} (I : S → Prop) c (m : M S E unit) : always I m → always I (when c m).
Proof. destruct c; [done|]. intros _. apply always_ret. Qed.
Lemma always_modify {S E} (I : S → Prop) f : (∀ s, I s → I (f s)) → always (E := E) I (modify f).
Proof. intros Hf s. apply Hf. Qed.

(** The store is as in [P]; [P] may also fix it. *)
Definition on_the_store (P : Store T → Prop) : Service → Prop := λ s, P (the_store s).

Context (P : Store T → Prop).
Notation I := (on_the_store P).

Lemma inert_state f : always I (upd_state f).
Proof. by intros s. Qed.
Lemma inert_run id f : always I (upd_run id f).
Proof. intros s Hs. unfold upd_run, modify, on_the_store, the_store. simpl. by destruct (assoc_get _ _). Qed.
Lemma inert_program id f : always I (upd_program id f).
Proof. intros s Hs. unfold upd_program, modify, on_the_store, the_store. simpl. by destruct (assoc_get _ _). Qed.
Lemma inert_time : always I time.
Proof. by intros s. Qed.
Lemma inert_registry {A} (m : M (Registry T R) SvcError A) : always I (on_registry m).
Proof. intros s Hs. unfold on_registry. by destruct (m _). Qed.
Lemma always_on_store {A} (m : M (Store T) SvcError A) : always P m → always I (on_engine (on_store m)).
Proof.
  intros Hm s Hs. unfold on_engine, on_store, on_the_store, the_store in *. specialize (Hm _ Hs).
  by destruct (m (en_store (rs_engine s))) as [r st].
Qed.
Lemma inert_next_id kind : always I (on_engine (next_id kind)).
Proof. by intros s. Qed.
End inert.

Create HintDb inert discriminated.
#[export] Hint Resolve always_ret always_raise always_lift always_check inert_state inert_run inert_program
  inert_time inert_registry inert_next_id : inert.

Ltac inert_tac :=
  repeat match goal with
  | |- always _ (get ≫= _) => apply always_get; intros ? _
  | |- always _ (_ ≫= _) => apply always_bind
  | |- always _ (when _ _) => apply always_when
  | |- always _ (if ?c then _ else _) => destruct c eqn:?
  | |- always _ (match ?c with _ => _ end) => destruct c eqn:?
  | |- always _ (let _ := _ in _) => cbv zeta
  | |- ∀ _, _ => intros ?
  | |- always _ _ => solve [auto with inert nocore]
  end.

(** ** The frame of a run *)
Section Frame.
Context {T : Type} `{Num T, FloatText T} {R Art : Type} `{!ServiceEnv T R Art}.
Notation Service := (Service T R Art).
Notation jdict := (jdict (T := T)).
Implicit Types (st : Store T) (r : ObjectRecord T).
Context (st0 : Store T) (target : string → string) (muts : list string).

(** The bytes that the bound, unleased objects of the mutated names occupy. *)
Definition touched (i : Z) : Prop := ∃ o r,
  o ∈ muts ∧ find_rec (target o) st0 = Some r ∧ rec_lease_refs r = 0 ∧
  offset (rec_extent r) ≤ i < offset (rec_extent r) + rec_size_bytes r.

Definition same_object (a b : string * ObjectRecord T) : Prop := b.1 = a.1 ∧ ∃ v, b.2 = set_version v a.2.

Record Framed st : Prop := {
  fr_alloc : allocator st = allocator st0;
  fr_trans : transients st = transients st0;
  fr_len : length (mem st) = length (mem st0);
  fr_mem : ∀ i : nat, ¬ touched (Z.of_nat i) → mem st !! i = mem st0 !! i;
  fr_objs : Forall2 same_object (objects st0) (objects st);
}.

Lemma framed_start : Framed st0.
Proof.
  split; try done. induction (objects st0) as [|[k r] l IH]; constructor; [|done]. split; [done|].
  exists (rec_version r). by destruct r.
Qed.

Lemma same_objects_find (l l' : list (string * ObjectRecord T)) oid : Forall2 same_object l l' →
  match assoc_get l oid, assoc_get l' oid with
  | Some r, Some r' => ∃ v, r' = set_version v r
  | None, None => True
  | _, _ => False
  end.
Proof.
  induction 1 as [|[k r] [k' r'] l l' [Hk Hr] _ IH]; [done|]. simpl in *. subst k'. by destruct (decide (oid = k)).
Qed.

Lemma framed_find st oid : Framed st →
  match find_rec oid st0, find_rec oid st with
  | Some r, Some r' => ∃ v, r' = set_version v r
  | None, None => True
  | _, _ => False
  end.
Proof. intros Hf. apply same_objects_find, Hf. Qed.

Lemma framed_version oid : always Framed (upd_rec oid (λ r, set_version (rec_version r + 1) r)).
Proof.
  intros st Hf. unfold upd_rec, modify. simpl. destruct (find_rec oid st) as [r|] eqn:Hr; [|done].
  destruct Hf as [H1 H2 H3 H4 H5]. split; simpl; try done. unfold find_rec in Hr. revert Hr.
  induction H5 as [|[k a] [k' b] l l' [Hk [v Hv]] Hl IH]; [done|]. simpl in *. subst k'.
  destruct (decide (oid = k)) as [->|Hne].
  - intros [= ->]. constructor; [|done]. split; [done|]. subst r. by eexists.
  - intros Hr. constructor; [|by apply IH]. split; [done|eauto].
Qed.

(** *** Binding *)
Definition bound (o : string) (b : HostBuffer) : Prop := ∃ r,
  find_rec (target o) st0 = Some r ∧ rec_lease_refs r = 0 ∧
  hb_offset b = offset (rec_extent r) ∧ hb_size_bytes b = rec_size_bytes r.
Definition values_ok (values : list (string * HostBuffer)) : Prop := ∀ o b, assoc_get values o = Some b → bound o b.

Lemma values_ok_set values o b : values_ok values → bound o b → values_ok (assoc_set values o b).
Proof.
  intros Hv Hb o' b'. destruct (decide (o = o')) as [<-|Hne].
  - rewrite assoc_get_set. by intros [= <-].
  - rewrite assoc_get_set_ne by done. apply Hv.
Qed.

Lemma pick_ok values names : ∀ acc l, values_ok values → pick values names acc = Ok l →
  (∀ o b, (o, b) ∈ acc → bound o b) → ∀ o b, (o, b) ∈ l → bound o b ∧ (o ∈ names ∨ o ∈ acc.*1).
Proof.
  induction names as [|n names IH]; intros acc l Hv; simpl.
  { intros [= <-] Ha o b Hin. split; [by apply Ha|right]. by apply (list_elem_of_fmap_2 fst) in Hin. }
  destruct (assoc_get values n) as [b0|] eqn:Hn; [|done]. intros Hl Ha o b Hin.
  assert (∀ o b, (o, b) ∈ assoc_set acc n b0 → (o, b) ∈ acc ∨ (o = n ∧ b = b0)) as Hset.
  { clear. induction acc as [|[k v] acc IH]; intros o b; simpl.
    - intros [= -> ->]%list_elem_of_singleton. auto.
    - destruct (decide (n = k)) as [->|Hne]; rewrite !elem_of_cons; [|specialize (IH o b)]; naive_solver. }
  destruct (IH _ _ Hv Hl) with (o := o) (b := b) as [Hb Ho]; [|done|].
  - intros o' b' [?|[-> ->]]%Hset; [by apply Ha|by apply Hv].
  - split; [done|]. destruct Ho as [Ho|Ho]; [by left; right|].
    apply list_elem_of_fmap_1 in Ho as ([o' b'] & -> & [Ho|[-> ->]]%Hset); simpl; [|by left; left].
    right. by apply (list_elem_of_fmap_2 fst) in Ho.
Qed.

(** *** Tasks

    An executable writes its mutated buffers only, and the slab keeps its size. *)
Definition confined : Prop := ∀ resolver ctx l,
  let l' := (launch resolver ctx l).2 in
  length l' = length l ∧
  ∀ i : nat, (∀ o b, (o, b) ∈ hc_mutates ctx →
      ¬ (hb_offset b ≤ Z.of_nat i < hb_offset b + hb_size_bytes b)) → l' !! i = l !! i.

Context (Hconf : confined).

Lemma framed_launch resolver ctx st : Framed st →
  (∀ o b, (o, b) ∈ hc_mutates ctx → o ∈ muts ∧ bound o b) →
  Framed (set_mem (launch resolver ctx (mem st)).2 st).
Proof.
  intros [H1 H2 H3 H4 H5] Hb. destruct (Hconf resolver ctx (mem st)) as [Hlen Hmem]. split; simpl; try done.
  - by rewrite Hlen.
  - intros i Hi. rewrite Hmem; [by apply H4|]. intros o b Hin Hr. destruct (Hb o b Hin) as (Ho & r & Hf & Hl & Hoff & Hsz).
    apply Hi. exists o, r. split_and!; [done|done|done|lia|lia].
Qed.

Lemma host_tasks_framed values resolver run_args tasks : ∀ i,
  values_ok values → (∀ t o, t ∈ tasks → o ∈ ts_mutates t → o ∈ muts) →
  always (on_the_store Framed) (host_tasks values resolver run_args i tasks).
Proof.
  induction tasks as [|t tasks IH]; intros i Hv Hm; cbn [host_tasks]; [apply always_ret|].
  apply always_get. intros s0 _. destruct (_ || _); [apply always_ret|]. apply always_bind.
  - destruct (resolve_task resolver t ;; host_context values run_args t) as [ctx|e] eqn:Hc; [|apply always_ret].
    intros s Hs. unfold on_slab, on_the_store, the_store in *.
    pose proof (framed_launch resolver ctx (en_store (rs_engine s)) Hs) as Hl.
    destruct (launch resolver ctx (mem (en_store (rs_engine s)))) as [r l]. simpl in *. apply Hl.
    unfold host_context in Hc. apply result_bind_ok in Hc as (u & _ & Hc). apply result_bind_ok in Hc as (ins & _ & Hc). apply result_bind_ok in Hc as (ms & Hms & [= <-]).
    simpl. intros o b Hin. destruct (pick_ok values (ts_mutates t) [] ms Hv Hms) with (o := o) (b := b) as [Hb [Ho|Ho]]; try done.
    + by intros ? ? ?%elem_of_nil.
    + split; [|done]. apply (Hm t); [by left|done].
    + by apply elem_of_nil in Ho.
  - intros [_|m]; [|apply always_ret]. apply IH; [done|]. intros t' o Ht. apply Hm. by right.
Qed.
End Frame.

(** ** Whole runs *)
Section Whole.
Context {T : Type} `{Num T, FloatText T} {R Art : Type} `{!ServiceEnv T R Art}.
Notation Service := (Service T R Art).
Implicit Types (st : Store T) (r : ObjectRecord T).
Context (st0 : Store T) (rebind : list (string * string)) (program : Program T) (Hconf : confined (T := T) (R := R) (Art := Art)).

(** [rebind.get(o, o)]. *)
Definition rebound (o : string) : string := default o (assoc_get rebind o).
Definition mutated : list string := p_tasks program ≫= ts_mutates.
Notation Fr := (Framed st0 rebound mutated).
Notation I := (on_the_store (R := R) (Art := Art) Fr).

Lemma lease_pass_ok specs : lease_pass rebind specs st0 = Ok tt →
  ∀ spec r, spec ∈ specs → find_rec (target_of rebind spec) st0 = Some r → rec_lease_refs r = 0.
Proof.
  induction specs as [|sp specs IH]; simpl; [by intros _ ? ? ?%elem_of_nil|].
  intros Hp. apply result_bind_ok in Hp as (u & Hsp & Hp).
  intros spec r [->|Hin]%elem_of_cons Hf; [|by eapply IH]. rewrite Hf in Hsp. apply raise_if_ok in Hsp.
  by apply negb_false_iff, Z.eqb_eq in Hsp.
Qed.

Lemma bind_objects_framed host run_id specs : ∀ values s,
  (∀ spec r, spec ∈ specs → find_rec (target_of rebind spec) st0 = Some r → rec_lease_refs r = 0) →
  values_ok st0 rebound values → I s →
  wp (bind_objects host run_id rebind specs values) s (λ vs s', I s' ∧ values_ok st0 rebound vs) (λ _ s', I s').
Proof.
  induction specs as [|spec specs IH]; intros values s Hl Hv Hs; cbn [bind_objects]; [by apply wp_ret|].
  cbv zeta. apply wp_get_bind. pose proof (framed_find _ _ _ _ (target_of rebind spec) Hs) as Hfind.
  destruct (find_rec (target_of rebind spec) (en_store (rs_engine s))) as [r|] eqn:Hr.
  2: { unfold refuse. apply wp_bind. apply wp_raise. by apply inert_run. }
  unfold the_store in Hfind. rewrite Hr in Hfind.
  destruct (find_rec (target_of rebind spec) st0) as [r0|] eqn:Hr0; [|done]. destruct Hfind as [v ->].
  destruct (_ =? _); [|unfold refuse; apply wp_bind, wp_raise; by apply inert_run].
  apply wp_bind. pose proof (always_on_store _ _ (framed_version st0 rebound mutated (target_of rebind spec)) s Hs) as Hup.
  unfold wp. destruct (on_engine _ s) as [[u|e] s1]; [|done]. change (I s1) in Hup.
  apply wp_lift_bind; [|done]. intros b Hb. apply IH; [intros sp r Hin; apply Hl; by right| |done].
  apply values_ok_set; [done|]. exists r0. split; [done|]. split; [by eapply Hl; [left|]|].
  destruct host; [|unfold store_buffer in Hb; destruct real_boot; [|done]]; by injection Hb as <-.
Qed.

Lemma capture_nothing values writer finals : always I (capture_finals values [] writer finals).
Proof.
  induction finals as [|[oid l] finals IH]; cbn [capture_finals]; [apply always_ret|].
  apply always_bind; [|by intros _]. destruct (assoc_get values oid); apply always_ret.
Qed.

Lemma fetch_inert run_id ids : always I (fetch_objects run_id ids).
Proof.
  induction ids as [|oid ids IH]; cbn [fetch_objects]; [apply always_ret|]. apply always_get. intros s _.
  apply always_bind; [|intros v; apply always_bind; [auto with inert|by intros _]].
  destruct (find_rec _ _); [|apply always_ret]. apply always_bind; [|intros d; destruct (_ =? _)%nat; auto with inert].
  apply always_on_store. unfold get_bytes, require. apply always_bind; [|by intros x st].
  apply always_get. intros s' _. destruct (find_rec oid s'); auto with inert.
Qed.

Lemma emit_inert event payload : always I (emit event payload).
Proof. unfold emit. inert_tac. Qed.

Lemma status_inert rec : always I (status rec).
Proof. unfold status. inert_tac. Qed.

Lemma the_run_inert run_id : always I (the_run run_id).
Proof. unfold the_run. inert_tac. Qed.
#[local] Hint Resolve emit_inert status_inert the_run_inert fetch_inert capture_nothing : inert.

Lemma announce_inert rq : always I (announce_run rq).
Proof. unfold announce_run. inert_tac. Qed.

Lemma fail_inert rq o : always I (fail_run rq o).
Proof. unfold fail_run. cbv zeta. inert_tac. Qed.

Lemma finish_inert rq values placement x : rt_objects x = [] → always I (finish_run rq values placement x).
Proof. intros Hx. unfold finish_run. rewrite Hx. cbv zeta. inert_tac. Qed.

Lemma execute_host_framed resolver values run_args s : values_ok st0 rebound values → I s →
  wp (execute_host_run program resolver values run_args) s
    (λ x s', I s' ∧ match x with inl x => rt_objects x = [] | inr _ => True end) (λ _ s', I s').
Proof.
  intros Hv Hs. unfold execute_host_run. apply wp_bind. unfold time at 1. unfold wp at 1.
  assert (always I (host_tasks (R := R) (Art := Art) values resolver run_args 0 (p_tasks program))) as Ht.
  { apply host_tasks_framed; [done|done|]. intros t o Ht Ho. unfold mutated. apply list_elem_of_bind. eauto. }
  set (s1 := set_state _ s). assert (I s1) as Hs1 by exact Hs. specialize (Ht s1 Hs1).
  apply wp_bind. unfold wp. destruct (host_tasks _ _ _ _ _ s1) as [[[o|]|e] s2]; done.
Qed.

Lemma conclude_framed rq values s : pg_program (rq_entry rq) = program →
  values_ok st0 rebound values → I s → I (conclude_run rq values None s).2.
Proof.
  intros Hp Hv Hs. unfold conclude_run. unfold mbind at 1, M_bind at 1. pose proof (announce_inert rq s Hs) as Ha.
  destruct (announce_run rq s) as [[u|e] s1]; [|done]. change (I s1) in Ha.
  assert (wp (run_tasks rq values None) s1
    (λ x s', I s' ∧ match x with inl x => rt_objects x = [] | inr _ => True end) (λ _ s', I s')) as Ht.
  { unfold run_tasks. apply wp_bind. pose proof (inert_registry Fr (lookup_resolver (pg_resolver_spec (rq_entry rq))) s1 Ha) as Hr.
    unfold wp. destruct (on_registry _ s1) as [[resolver|e] s2]; [|done]. rewrite Hp. by apply execute_host_framed. }
  unfold wp in Ht. unfold mbind at 1, M_bind at 1. destruct (run_tasks rq values None s1) as [[x|e] s2]; [|done].
  destruct Ht as [Hs2 Hx]. revert s2 Hs2. change (always I (t ← time;
    upd_run (rq_run_id rq) (set_finished t) ;; upd_program (pg_prog_id (rq_entry rq)) count_run ;;
    match x with inr o => fail_run rq o | inl x => finish_run rq values None x end)).
  inert_tac; [by apply finish_inert|apply fail_inert].
Qed.
End Whole.

(** ** The theorems *)
Section Isolation.
Context {T : Type} `{Num T, FloatText T} {R Art : Type} `{!ServiceEnv T R Art} (md : Mode).
Notation Service := (Service T R Art).
Implicit Types (st : Store T) (r : ObjectRecord T) (s : Service).

Lemma objects_apart st held oid oid' r r' : StoreInv md st held →
  find_rec oid st = Some r → find_rec oid' st = Some r' → oid ≠ oid' →
  disjoint_extents (rec_extent r) (rec_extent r').
Proof.
  intros HI Hr Hr' Hne. eapply (live_disjoint md st held _ _ _ HI).
  unfold find_rec in *. pose proof (assoc_perm _ _ _ Hr) as Hp.
  assert (assoc_get (assoc_del (objects st) oid) oid' = Some r') as Hd
    by (rewrite assoc_get_del, decide_False; [done|done|by apply HI]).
  apply assoc_perm in Hd. rewrite Hd in Hp. unfold live, obj_extents. rewrite Hp. simpl. reflexivity.
Qed.

Lemma read_slice_same a n (l l' : list byte) : 0 ≤ a → 0 ≤ n → a + n ≤ Z.of_nat (length l) → length l' = length l →
  (∀ i : nat, a ≤ Z.of_nat i < a + n → l' !! i = l !! i) → read_slice a (a + n) l' = read_slice a (a + n) l.
Proof.
  intros Ha Hn Hl Hlen Hi. rewrite !read_slice_in by lia. apply list_eq. intros i.
  destruct (decide (i < Z.to_nat n)%nat) as [Hin|Hin]; [|by rewrite !lookup_take_ge by lia].
  rewrite !lookup_take_lt, !lookup_drop by done. apply Hi. lia.
Qed.

Lemma framed_inv st0 st held target muts : StoreInv md st0 held → Framed st0 target muts st → StoreInv md st held.
Proof.
  intros [H1 H2 H3 H4 H5 H6 H7] [F1 F2 F3 F4 F5].
  assert (obj_extents st = obj_extents st0 ∧ (objects st).*1 = (objects st0).*1) as [Ho Hk].
  { unfold obj_extents. clear -F5. induction F5 as [|[k r] [k' r'] l l' [Hk [v Hr]] _ [IH1 IH2]]; [done|].
    simpl in *. subst. split; f_equal; done. }
  split.
  - unfold live, trans_extents. by rewrite F1, F2, Ho.
  - by rewrite Hk.
  - intros oid r Hr. pose proof (same_objects_find _ _ oid F5) as Hf. unfold find_rec in *. rewrite Hr in Hf.
    destruct (assoc_get (objects st0) oid) as [r0|] eqn:Hr0; [|done]. destruct Hf as [v ->].
    exact (H3 oid r0 Hr0).
  - by rewrite F2.
  - by rewrite F2.
  - by rewrite F1, F3.
  - by rewrite F1.
Qed.

Lemma framed_bytes st0 st held target muts oid r r' : StoreInv md st0 held → Framed st0 target muts st →
  find_rec oid st0 = Some r → find_rec oid st = Some r' →
  rec_lease_refs r ≠ 0 ∨ (∀ o, o ∈ muts → oid ≠ target o) → view_rec r' st = view_rec r st0.
Proof.
  intros HI HF Hr Hr' Hout. pose proof (framed_find _ _ _ _ oid HF) as Hf. rewrite Hr, Hr' in Hf. destruct Hf as [v ->].
  destruct (sv_recs _ _ _ HI _ _ Hr) as (_ & Hsz & _). destruct (live_within _ st0 held (rec_extent r) HI) as (Hw1 & Hw2 & Hw3).
  { unfold live, obj_extents. unfold find_rec in Hr. pose proof (assoc_perm _ _ _ Hr) as Hp. rewrite Hp. simpl. by left. }
  destruct HF as [_ _ Hlen Hmem _].
  apply read_slice_same; [done|lia|lia|done|]. intros i Hi. apply Hmem. intros (o & r1 & Ho & Hr1 & Hl & Hi1).
  destruct (decide (oid = target o)) as [->|Hne].
  { rewrite Hr in Hr1. injection Hr1 as <-. destruct Hout as [Hout|Hout]; [done|by eapply Hout]. }
  destruct (sv_recs _ _ _ HI _ _ Hr1) as (_ & Hsz1 & _).
  destruct (objects_apart _ _ _ _ _ _ HI Hr Hr1 Hne (Z.of_nat i)). unfold holds. lia.
Qed.

Lemma open_run_spec c s :
  wp (open_run (Art := Art) (R := R) c) s
    (λ rq s', the_store s' = the_store s ∧ rebind_of (qc_args c) = Ok (rq_rebind rq) ∧
       (∃ id, arg_str (qc_args c) "prog_id" = Ok id ∧ assoc_get (rs_programs s) id = Some (rq_entry rq)) ∧
       lease_pass (rq_rebind rq) (p_initial_objects (pg_program (rq_entry rq))) (the_store s) = Ok tt)
    (λ _ s', the_store s' = the_store s).
Proof.
  unfold open_run. cbv zeta. apply wp_lift_bind; [|done]. intros id Hid. apply wp_get_bind.
  destruct (assoc_get (rs_programs s) id) as [entry|] eqn:He; [|by apply wp_raise].
  apply wp_lift_bind; [|done]. intros args _. apply wp_lift_bind; [|done]. intros rebind Hrb.
  apply wp_lift_bind; [|done]. intros fetch _. apply wp_lift_bind; [|done]. intros [] Hlease.
  apply wp_bind. unfold wp at 1, on_engine, next_id, mbind at 1, M_bind at 1, get, modify. simpl.
  split_and!; [done|done|by exists id|done].
Qed.

(** From the bindings on, a program of host tasks stays in its frame. *)
Lemma run_from_binding st0 (rq : RunRequest) (entry : RegisteredProgram T Art) s1 res s' :
  confined (T := T) (R := R) (Art := Art) → entry = rq_entry rq → is_host_program (pg_program entry) = true →
  lease_pass (rq_rebind rq) (p_initial_objects (pg_program entry)) st0 = Ok tt →
  on_the_store (Framed st0 (rebound (rq_rebind rq)) (mutated (pg_program entry))) s1 →
  (values ← bind_run rq;
   placement ← place_program (rq_entry rq) values;
   mark_running (rq_run_id rq) ;; clear_cancel ;; conclude_run rq values placement) s1 = (res, s') →
  Framed st0 (rebound (rq_rebind rq)) (mutated (pg_program entry)) (the_store s').
Proof.
  intros Hconf -> Hhost Hlease Hs1 Hrun. set (rebind := rq_rebind rq) in *. set (program := pg_program (rq_entry rq)) in *.
  pose proof (bind_objects_framed st0 rebind program true (rq_run_id rq) (p_initial_objects program) [] s1
    (lease_pass_ok st0 rebind _ Hlease)) as Hb.
  assert (values_ok st0 (rebound rebind) []) as Hnil by done. specialize (Hb Hnil Hs1).
  unfold mbind at 1, M_bind at 1, bind_run in Hrun. cbv zeta in Hrun. fold program in Hrun. rewrite Hhost in Hrun. unfold wp in Hb.
  fold rebind in Hrun. destruct (bind_objects true (rq_run_id rq) rebind (p_initial_objects program) [] s1) as [[vs|e] s2].
  2: { injection Hrun as _ <-. exact Hb. }
  destruct Hb as [Hs2 Hvs]. unfold mbind at 1, M_bind at 1, place_program in Hrun. fold program in Hrun. rewrite Hhost in Hrun.
  assert (always (on_the_store (R := R) (Art := Art) (Framed st0 (rebound rebind) (mutated program)))
    (mark_running (rq_run_id rq) ;; clear_cancel ;; conclude_run rq vs None)) as Ha.
  { unfold mark_running. inert_tac; [by apply always_modify|]. intros s3 Hs3. by apply conclude_framed. }
  specialize (Ha s2 Hs2). unfold mret, M_ret in Hrun. rewrite Hrun in Ha. exact Ha.
Qed.

(** The call runs a program of host tasks. *)
Definition host_call (c : QueuedCall T) s (entry : RegisteredProgram T Art) : Prop := ∃ id,
  arg_str (qc_args c) "prog_id" = Ok id ∧ assoc_get (rs_programs s) id = Some entry ∧
  is_host_program (pg_program entry) = true.

(** A task of the program declares that it mutates the object. *)
Definition may_write (c : QueuedCall T) (entry : RegisteredProgram T Art) (oid : string) : Prop := ∃ rebind t o,
  rebind_of (qc_args c) = Ok rebind ∧ t ∈ p_tasks (pg_program entry) ∧ o ∈ ts_mutates t ∧ oid = rebound rebind o.

(** C28: A run of a program of host tasks stays inside its declaration, whether it returns, is
    cancelled or raises: the store stays in order, every object stays where it is with its
    size, protection and leases, and the bytes of an object change only if some task
    declares to mutate it and no snapshot has leased it. *)
Theorem host_run_isolated c s entry held :
  confined (T := T) (R := R) (Art := Art) → StoreInv md (the_store s) held → host_call c s entry →
  let s' := (run c s).2 in
  StoreInv md (the_store s') held ∧
  ∀ oid, match find_rec oid (the_store s), find_rec oid (the_store s') with
         | Some r, Some r' =>
             (∃ v, r' = set_version v r) ∧
             (rec_lease_refs r ≠ 0 ∨ ¬ may_write c entry oid → view_rec r' (the_store s') = view_rec r (the_store s))
         | None, None => True
         | _, _ => False
         end.
Proof.
  intros Hconf HI (id & Hid & He & Hhost). destruct (run c s) as [res s'] eqn:Hrun. cbn [snd].
  assert (∃ rebind, (rebind_of (qc_args c) = Ok rebind ∨ the_store s' = the_store s) ∧
    Framed (the_store s) (rebound rebind) (mutated (pg_program entry)) (the_store s')) as (rebind & Hrb & HF).
  { pose proof (open_run_spec c s) as Ho. unfold run, mbind at 1, M_bind at 1 in Hrun. unfold wp in Ho.
    destruct (open_run c s) as [[rq|e] s1].
    2: { injection Hrun as _ <-. exists []. rewrite Ho. split; [by right|apply framed_start]. }
    destruct Ho as (Hst & Hrb & (id' & Hid' & He') & Hlease). rewrite Hid in Hid'. injection Hid' as <-.
    rewrite He in He'. injection He' as He'. exists (rq_rebind rq). split; [by left|]. rewrite <-He' in Hlease.
    apply (run_from_binding (the_store s) rq entry s1 res s'); try done. unfold on_the_store. rewrite Hst. apply framed_start. }
  split; [by eapply framed_inv|]. intros oid. pose proof (framed_find _ _ _ _ oid HF) as Hf.
  destruct (find_rec oid (the_store s)) as [r|] eqn:Hr, (find_rec oid (the_store s')) as [r'|] eqn:Hr'; try done.
  split; [done|]. intros Hout. destruct Hrb as [Hrb|Hsame].
  - eapply framed_bytes; [done..|]. destruct Hout as [?|Hout]; [by left|right]. intros o Ho ->. apply Hout.
    unfold mutated in Ho. apply list_elem_of_bind in Ho as (t & Ht & Ho). by exists rebind, t, o.
  - rewrite Hsame in *. rewrite Hr in Hr'. by injection Hr' as ->.
Qed.
End Isolation.

Section Park.
Context {T : Type} `{Num T, FloatText T} {R Art : Type} `{!ServiceEnv T R Art}.
Notation Service := (Service T R Art).
Implicit Types (s : Service).

(** No registered build raises LEASED. *)
Definition builds_calm s : Prop := ∀ kind build spec e,
  assoc_get (_BUILDS (rs_registry s)) kind = Some build → build spec = Err e → is_leased e = false.

(** A computation that does not raise LEASED, nor registers a build. *)
Definition never_leased {A} (m : Sv (R := R) (Art := Art) A) : Prop :=
  triple builds_calm m (λ _, builds_calm) (λ e _, is_leased e = false).

Lemma never_ret {A} (a : A) : never_leased (mret a).
Proof. by intros s. Qed.
Lemma never_raise {A} e : is_leased e = false → never_leased (raise (A := A) e).
Proof. by intros He s Hs. Qed.
Lemma never_lift {A} (r : result SvcError A) : (∀ e, r = Err e → is_leased e = false) → never_leased (lift r).
Proof. intros Hr s Hs. unfold lift, wp. destruct r; [done|by apply Hr]. Qed.
Lemma never_bind {A B} (m : Sv A) (f : A → Sv B) : never_leased m → (∀ a, never_leased (f a)) → never_leased (m ≫= f).
Proof. intros Hm Hf. by eapply triple_bind. Qed.
Lemma never_get {B} (f : Service → Sv B) : (∀ s, never_leased (f s)) → never_leased (get ≫= f).
Proof. intros Hf s Hs. by apply Hf. Qed.
Lemma never_when c (m : Sv unit) : never_leased m → never_leased (when c m).
Proof. destruct c; [done|]. intros _. apply never_ret. Qed.
Lemma never_state f : never_leased (upd_state f).
Proof. by intros s. Qed.
Lemma never_run id f : never_leased (upd_run id f).
Proof. intros s Hs. unfold upd_run, modify, wp. simpl. by destruct (assoc_get _ _). Qed.
Lemma never_program id f : never_leased (upd_program id f).
Proof. intros s Hs. unfold upd_program, modify, wp. simpl. by destruct (assoc_get _ _). Qed.
Lemma never_time : never_leased time.
Proof. by intros s. Qed.
Lemma never_cancel b : never_leased (modify (set_cancel b)).
Proof. by intros s. Qed.
Lemma never_store {A} (m : M (Store T) SvcError A) :
  (∀ st e, (m st).1 = Err e → is_leased e = false) → never_leased (on_engine (on_store m)).
Proof.
  intros Hm s Hs. unfold on_engine, on_store, wp. specialize (Hm (en_store (rs_engine s))).
  destruct (m _) as [[a|e] st]; [done|by apply Hm].
Qed.

Lemma never_lookup spec : never_leased (on_registry (lookup_resolver spec)).
Proof.
  intros s Hs. unfold on_registry, lookup_resolver, lift, modify, mbind, M_bind, get, wp. cbv zeta.
  destruct (spec_build spec (rs_registry s)) as [[kind build]|e] eqn:Hb; simpl.
  - assert (assoc_get (_BUILDS (rs_registry s)) kind = Some build) as Hk.
    { unfold spec_build in Hb. destruct (dget spec "kind") as [[]|]; try done.
      destruct (assoc_get _ _) eqn:Hk; [|done]. by injection Hb as <- <-. }
    destruct (assoc_get (_CACHE _) _); [done|]. destruct (build spec) as [r|e] eqn:Hr; simpl; [|by eapply Hs].
    destruct (with_jitter spec r) as [hit|e] eqn:Hj; simpl; [done|]. unfold with_jitter, jitter_float, jitter_seed in Hj.
    repeat case_match; simplify_eq/=; done.
  - unfold spec_build in Hb. repeat case_match; simplify_eq/=; done.
Qed.
Hint Resolve never_ret never_state never_run never_program never_time never_cancel never_lookup : calm.

Ltac calm_tac :=
  repeat match goal with
  | |- never_leased (get ≫= _) => apply never_get
  | |- never_leased (_ ≫= _) => apply never_bind
  | |- never_leased (when _ _) => apply never_when
  | |- never_leased (raise _) => apply never_raise; done
  | |- never_leased (if ?c then _ else _) => destruct c eqn:?
  | |- never_leased (match ?c with _ => _ end) => destruct c eqn:?
  | |- never_leased (let _ := _ in _) => cbv zeta
  | |- ∀ _, _ => intros ?
  | |- never_leased _ => solve [auto with calm nocore]
  end.

Lemma never_emit event payload : never_leased (emit event payload).
Proof. unfold emit. calm_tac. Qed.
Lemma never_status rec : never_leased (status rec).
Proof. unfold status. calm_tac. Qed.
Lemma never_the_run run_id : never_leased (the_run run_id).
Proof. unfold the_run. calm_tac. Qed.
Hint Resolve never_emit never_status never_the_run : calm.

Lemma never_bind_objects run_id rebind specs : ∀ values, never_leased (bind_objects true run_id rebind specs values).
Proof.
  induction specs as [|spec specs IH]; intros values; cbn [bind_objects]; [apply never_ret|].
  cbv zeta. apply never_get. intros s. destruct (find_rec _ _) as [r|]; [|unfold refuse; calm_tac].
  destruct (_ =? _); [|unfold refuse; calm_tac]. apply never_bind; [by apply never_store|]. intros _.
  apply never_bind; [by apply never_lift|auto].
Qed.

Lemma never_host_tasks values resolver run_args tasks : ∀ i,
  never_leased (host_tasks values resolver run_args i tasks).
Proof.
  induction tasks as [|t tasks IH]; intros i; cbn [host_tasks]; [apply never_ret|].
  apply never_get. intros s. destruct (_ || _); [apply never_ret|]. apply never_bind.
  - destruct (resolve_task resolver t ;; host_context values run_args t) as [ctx|e]; [|apply never_ret].
    intros s' Hs'. unfold on_slab, wp. by destruct (launch resolver ctx _).
  - intros [_|m]; [apply IH|apply never_ret].
Qed.
Hint Resolve never_host_tasks : calm.

Lemma never_fetch run_id ids : never_leased (fetch_objects run_id ids).
Proof.
  induction ids as [|oid ids IH]; cbn [fetch_objects]; [apply never_ret|]. apply never_get. intros s. apply never_bind.
  - destruct (find_rec _ _); [|apply never_ret]. apply never_bind; [|intros d; destruct (_ =? _)%nat; [apply never_ret|by apply never_raise]].
    apply never_store. intros st e. unfold get_bytes, require, mbind, M_bind, get, gets. by destruct (find_rec oid st); intros [= <-].
  - intros v. calm_tac.
Qed.

Lemma never_capture_nothing values writer finals : never_leased (capture_finals values [] writer finals).
Proof.
  induction finals as [|[oid l] finals IH]; cbn [capture_finals]; [apply never_ret|].
  apply never_bind; [|by intros _]. destruct (assoc_get values oid); apply never_ret.
Qed.
Hint Resolve never_fetch never_capture_nothing : calm.

Lemma never_finish rq values placement x : rt_objects x = [] → never_leased (finish_run rq values placement x).
Proof. intros Hx. unfold finish_run. rewrite Hx. cbv zeta. calm_tac. Qed.

Lemma never_fail rq o : never_leased (fail_run rq o).
Proof. unfold fail_run. cbv zeta. calm_tac. apply never_raise. by destruct (oc_cancelled o). Qed.

Lemma host_result_empty program resolver values run_args :
  triple builds_calm (execute_host_run program resolver values run_args)
    (λ x s, builds_calm s ∧ match x with inl x => rt_objects x = [] | inr _ => True end) (λ e _, is_leased e = false).
Proof.
  unfold execute_host_run. eapply triple_bind; [apply never_time|]. intros t0. eapply triple_bind; [apply never_host_tasks|].
  intros [o|]; [by intros s Hs|]. eapply triple_bind; [apply never_time|]. by intros t1 s Hs.
Qed.

Lemma never_conclude rq values : never_leased (conclude_run rq values None).
Proof.
  unfold conclude_run. apply never_bind; [unfold announce_run; calm_tac|]. intros _.
  eapply triple_bind; [eapply triple_bind; [apply never_lookup|intros r; apply host_result_empty]|].
  intros x s [Hs Hx]. revert s Hs. change (never_leased (t ← time;
    upd_run (rq_run_id rq) (set_finished t) ;; upd_program (pg_prog_id (rq_entry rq)) count_run ;;
    match x with inr o => fail_run rq o | inl x => finish_run rq values None x end)).
  calm_tac; [by apply never_finish|apply never_fail].
Qed.

(** [open_run] changes nothing when it raises. *)
Lemma open_run_raises c s :
  wp (open_run c) s (λ rq s', rs_registry s' = rs_registry s ∧ ∃ id,
      arg_str (qc_args c) "prog_id" = Ok id ∧ assoc_get (rs_programs s) id = Some (rq_entry rq)) (λ _ s', s' = s).
Proof.
  unfold open_run. cbv zeta. apply wp_lift_bind; [|done]. intros id Hid. apply wp_get_bind.
  destruct (assoc_get (rs_programs s) id) as [entry|] eqn:He; [|by apply wp_raise].
  apply wp_lift_bind; [|done]. intros args _. apply wp_lift_bind; [|done]. intros rebind _.
  apply wp_lift_bind; [|done]. intros fetch _. apply wp_lift_bind; [|done]. intros [] _.
  apply wp_bind. unfold wp at 1, on_engine, next_id, mbind at 1, M_bind at 1, get, modify. simpl.
  split; [done|by exists id].
Qed.

(** C29: A run of a program of host tasks that raises LEASED has changed nothing: the dispatcher,
    which parks the call and runs it again from scratch, finds the service as it was. *)
Theorem leased_host_run_untouched c s entry oid :
  builds_calm s → host_call c s entry → (run c s).1 = Err (Leased oid) → (run c s).2 = s.
Proof.
  intros Hb (id & Hid & He & Hhost). pose proof (open_run_raises c s) as Ho.
  destruct (run c s) as [res s'] eqn:Hrun. cbn [fst snd]. intros ->. unfold run, mbind at 1, M_bind at 1 in Hrun.
  unfold wp in Ho. destruct (open_run c s) as [[rq|e] s1]; [|injection Hrun as _ <-; done]. destruct Ho as (Hreg & id' & Hid' & He').
  rewrite Hid in Hid'. injection Hid' as <-. rewrite He in He'. injection He' as ->.
  assert (never_leased (values ← bind_run rq; placement ← place_program (rq_entry rq) values;
    mark_running (rq_run_id rq) ;; clear_cancel ;; conclude_run rq values placement)) as Hn.
  { unfold bind_run, place_program. cbv zeta. rewrite Hhost. apply never_bind; [apply never_bind_objects|]. intros values.
    change (never_leased (mark_running (rq_run_id rq) ;; clear_cancel ;; conclude_run rq values None)).
    unfold mark_running, clear_cancel. apply never_bind; [calm_tac|]. intros _. apply never_bind; [apply never_cancel|].
    intros _. apply never_conclude. }
  assert (builds_calm s1) as Hb1 by (unfold builds_calm; by rewrite Hreg). specialize (Hn s1 Hb1). unfold wp in Hn.
  rewrite Hrun in Hn. discriminate Hn.
Qed.

(** A cancel between [rec.state = "running"] and [active_cancel.clear()] is acknowledged and
    then wiped out: the run goes on as without it. *)
Lemma early_cancel_lost args id r s :
  arg_str args "run_id" = Ok id → assoc_get (rs_runs s) id = Some r → rn_state r = "running"%string →
  cancel_run args s = (Ok [("ok", JBool true); ("state", JStr "cancelling")]%string, set_cancel true s) ∧
  clear_cancel (set_cancel true s) = clear_cancel s.
Proof.
  intros Hid Hr Hst. unfold cancel_run. rewrite Hid. unfold lift, mbind, M_bind, get. by rewrite Hr, Hst.
Qed.
End Park.
