(* ===== verification/SvcRunsDemo.v ===== *)
(** * Runs on concrete services

    A program of host tasks and one of device tasks on small stores: the theorems of
    [SvcRunsOk] at a concrete input, and what the [run] call does where its guards are
    incomplete: a leased final object, a fetch that is refused, a cancel that comes early. *)
From S2P Require Import Prelude SimSchema CoreProgram CoreJson SvcStore JsonText JsonTextOk SvcRegistry SvcHandlers.
From stdpp Require Import base tactics option list strings.
From Stdlib Require Import ZArith Lia Init.Byte.
From S2P Require Import SvcAlloc SvcStoreInv SvcStoreSpec SvcStoreRun SvcExamples SvcDispatch SvcSnapshot SvcServer SvcRuns SvcRunsOk.
Open Scope Z_scope.

(** ** An environment

    Executables add one to every byte of what they mutate; the engine's runs do the same to
    all bound objects and make a 4-byte [loss]. *)
Definition next_byte (b : byte) : byte := default x00 (Byte.of_N ((Byte.to_N b + 1) mod 256)).
Definition add_range (b : HostBuffer) (m : list byte) : list byte :=
  let o := Z.to_nat (hb_offset b) in
  let n := Z.to_nat (hb_size_bytes b) in
  if 0 <=? hb_offset b then take o m ++ (next_byte <$> take n (drop o m)) ++ drop n (drop o m) else m.
Definition add_one (l : list (string * HostBuffer)) (m : list byte) : list byte :=
  foldl (λ m b, add_range b.2 m) m l.

Definition demo_launch (_ : Resolver Z Z) (ctx : HostContext (T := Z)) : M (list byte) string unit :=
  modify (add_one (hc_mutates ctx)).

Definition demo_execute (_ : Program Z) (_ : Resolver Z Z) (values : list (string * HostBuffer)) (_ : unit)
    (_ : jdict (T := Z)) (_ : nat → bool) : M (Store Z) SvcError (RunResult (T := Z) + RunOutcome) :=
  modify (λ st, set_mem (add_one values (mem st)) st) ;;
  mret (inl (mkRunResult 7 64 0 0 0 [("loss", [x01; x02; x03; x04])]%string None)).

Definition demo_env (real : bool) : ServiceEnv Z Z unit := {|
  real_boot := real; content_hash := λ _, "0"%string; read_json := λ _, Err IoError;
  resolve_task := λ _ _, Ok tt; launch := demo_launch; prepare_placement := λ _ _, Ok tt; extent_bytes := λ _, 64;
  execute_run := demo_execute; close_session := λ _, mret true; unpack_f32 := λ _, 42;
  torch_peaks := (0, 0); clock := λ n, 1 + Z.of_nat n; to_us := λ t, t; polls := λ _, false;
|}.

Lemma add_range_confined b m : length (add_range b m) = length m ∧
  ∀ i : nat, ¬ (hb_offset b ≤ Z.of_nat i < hb_offset b + hb_size_bytes b) → add_range b m !! i = m !! i.
Proof.
  unfold add_range. destruct (Z.leb_spec 0 (hb_offset b)) as [Ho|_]; [|done].
  set (o := Z.to_nat (hb_offset b)). set (n := Z.to_nat (hb_size_bytes b)). split.
  - rewrite !length_app, length_fmap, !length_take, !length_drop. lia.
  - intros i Hi. destruct (decide (i < o)%nat) as [Hlt|Hge].
    + destruct (decide (i < length m)%nat); [|rewrite !lookup_ge_None_2; [done|lia|]].
      * rewrite lookup_app_l by (rewrite length_take; lia). by apply lookup_take_lt.
      * rewrite !length_app, length_fmap, !length_take, !length_drop. lia.
    + destruct (decide (i < length m)%nat); [|rewrite !lookup_ge_None_2; [done|lia|]].
      * rewrite lookup_app_r by (rewrite length_take; lia).
        rewrite lookup_app_r by (rewrite length_fmap, !length_take, !length_drop; lia).
        rewrite length_fmap, !length_take, !length_drop, !lookup_drop. f_equal. lia.
      * rewrite !length_app, length_fmap, !length_take, !length_drop. lia.
Qed.

Lemma demo_confined real : confined (ServiceEnv0 := demo_env real).
Proof.
  intros resolver ctx l. simpl. unfold add_one. revert l. induction (hc_mutates ctx) as [|[o b] bs IH]; intros l; [done|].
  simpl. destruct (add_range_confined b l) as [Hlen Hout]. destruct (IH (add_range b l)) as [IHlen IHout].
  split; [by rewrite IHlen|]. intros i Hi. rewrite IHout; [|intros o' b' Hin; apply (Hi o' b'); by right].
  apply Hout. apply (Hi o b). by left.
Qed.

(** ** Programs *)
Definition demo_task (host : bool) (id : string) (ins muts : list string) : TaskSpec Z :=
  mkTaskSpec id ins [] muts 1 0 "compute" None [] [] [] [] [] None [] host.
Definition demo_program (host : bool) (finals : list (string * Location)) : Program Z :=
  mkProgram "demo" [mkObjectSpec "a" 2 Backing "other" None false; mkObjectSpec "b" 3 Backing "other" None false]
    [demo_task host "t0" ["a"; "b"] ["b"]; demo_task host "t1" ["b"] ["b"]]%string
    finals None None None None [] [] CoreProgram.SCHEMA_VERSION.

Definition call_of (op : string) (args : jdict (T := Z)) : QueuedCall Z := mkCall "c-1" "s-1" op args None 1.

(** A store of 12 KiB with [a], [b] and [c]. *)
Definition put_all (l : list (string * list byte)) : En (T := Z) unit :=
  forM_ l (λ o, on_store (put 0 o.1 (Some o.2) None None "demo") ;; mret tt).
Definition demo_engine : Engine (T := Z) :=
  (put_all [("a", [x01; x02]); ("b", [x10; x11; x12]); ("c", [x20; x21])]%string (new_engine 12288 [])).2.
Definition demo_registry : Registry Z Z := register_program_resolver "k" (λ _, Ok 5) (mkRegistry [] []).
Definition demo_service : Service Z Z unit :=
  mkService demo_engine demo_registry [] [] [] false (mkState [("s-1", (0, 0))]%string [] None [] 0 0).

Definition register_demo (env : ServiceEnv Z Z unit) (p : Program Z) (s : Service Z Z unit) : Service Z Z unit :=
  (register_program (call_of "register_program"
    [("program", JDict (program_to_dict p)); ("resolver", JDict [("kind", JStr "k")])]%string) s).2.

Definition host_service : Service Z Z unit := register_demo (demo_env false) (demo_program true []) demo_service.
Definition run_host : QueuedCall Z := call_of "run" [("prog_id", JStr "p-0")]%string.

Definition bytes_of (oid : string) (s : Service Z Z unit) : option (list byte) :=
  (λ r, view_rec r (the_store s)) <$> find_rec oid (the_store s).
Definition states (s : Service Z Z unit) : list (string * string) := (λ r, (r.1, rn_state r.2)) <$> rs_runs s.

(** The run of both tasks: [b] is incremented twice. *)
Example host_run :
  let x := run (env := demo_env false) run_host host_service in
  is_ok x.1 = true ∧ states x.2 = [("r-000001", "done")]%string ∧
  bytes_of "a" x.2 = Some [x01; x02] ∧ bytes_of "b" x.2 = Some [x12; x13; x14] ∧ bytes_of "c" x.2 = Some [x20; x21] ∧
  es_current_run (rs_state x.2) = None ∧ (λ e, ev_event e) <$> es_events (rs_state x.2) = ["run_started"; "run_done"]%string.
Proof. vm_compute. done. Qed.

(** The store of the demo is in order. *)
Definition demo_mode := mkMode False 12288.
Definition put_a : call (T := Z) := CPut "a" [x01; x02] None "demo".
Definition put_b : call (T := Z) := CPut "b" [x10; x11; x12] None "demo".
Definition put_c : call (T := Z) := CPut "c" [x20; x21] None "demo".
Definition store_a := (perform 0 put_a (new_store 12288)).2.
Definition store_b := (perform 0 put_b store_a).2.
Definition store_c := (perform 0 put_c store_b).2.

Lemma demo_inv : StoreInv demo_mode (the_store host_service) [].
Proof.
  assert (SvcStoreRun.run demo_mode (boot demo_mode) [put_a; put_b; put_c] (store_c, [])) as Hr.
  { apply (run_ok demo_mode [put_a; put_b] _ store_b [] put_c 0 [] []); [|by split; [simpl; lia|]|done|by vm_compute].
    apply (run_ok demo_mode [put_a] _ store_a [] put_b 0 [] []); [|by split; [simpl; lia|]|done|by vm_compute].
    apply (run_ok demo_mode [] _ (new_store 12288) [] put_a 0 [] []); [apply run_nil|by split; [simpl; lia|]|done|by vm_compute]. }
  apply run_inv in Hr; [|done]. cbn [fst snd] in Hr.
  assert (the_store host_service = store_c) as -> by (vm_compute; reflexivity). exact Hr.
Qed.

Definition demo_entry (host : bool) : RegisteredProgram Z unit :=
  mkRegistered "p-0" JNull (demo_program host []) [("kind", JStr "k")]%string 1 None 0.

Lemma host_run_isolated_witness :
  StoreInv demo_mode (the_store (run (env := demo_env false) run_host host_service).2) [] ∧
  bytes_of "a" (run (env := demo_env false) run_host host_service).2 = Some [x01; x02].
Proof.
  destruct (host_run_isolated (ServiceEnv0 := demo_env false) demo_mode run_host host_service (demo_entry true) []
    (demo_confined false) demo_inv) as [HI Ho].
  { exists "p-0"%string. split_and!; [done|by vm_compute|done]. }
  split; [exact HI|]. specialize (Ho "a"%string). unfold bytes_of.
  assert (is_ok (match find_rec "a" (the_store host_service) with
                 | Some r => if bool_decide (view_rec r (the_store host_service) = [x01; x02]) then Ok tt else Err tt
                 | None => Err tt end) = true) as Ha by (vm_compute; reflexivity).
  destruct (find_rec "a" (the_store host_service)) as [r|]; [|discriminate Ha].
  destruct (find_rec "a" (the_store (run run_host host_service).2)) as [r'|]; [|destruct Ho].
  destruct Ho as [_ Hv].
  change (Some (view_rec r' (the_store (run (env := demo_env false) run_host host_service).2)) = Some [x01; x02]). rewrite Hv.
  - destruct (bool_decide _) eqn:Hb; [|discriminate Ha]. apply bool_decide_eq_true in Hb. by rewrite Hb.
  - right. intros (rebind & t & o & Hrb & Ht & Ho & Heq). injection Hrb as <-. unfold rebound in Heq. simpl in Heq. subst o.
    apply elem_of_cons in Ht as [->|Ht]; [|apply list_elem_of_singleton in Ht as ->];
      apply list_elem_of_singleton in Ho; discriminate Ho.
Defined.

(** A leased initial object parks the call before anything has happened. *)
Definition leased_service : Service Z Z unit := (on_engine (on_store (acquire_leases ["b"]%string)) host_service).2.

Lemma leased_host_run_untouched_witness :
  (run (env := demo_env false) run_host leased_service).1 = Err (Leased "b") ∧
  (run (env := demo_env false) run_host leased_service).2 = leased_service.
Proof.
  assert ((run (env := demo_env false) run_host leased_service).1 = Err (Leased "b")) as Hl by (vm_compute; reflexivity).
  split; [exact Hl|]. apply (leased_host_run_untouched (ServiceEnv0 := demo_env false) run_host leased_service (demo_entry true) "b").
  - assert (_BUILDS (rs_registry leased_service) = [("k", λ _, Ok 5)]%string) as Hb by (vm_compute; reflexivity).
    intros kind build spec e. rewrite Hb. simpl. destruct (decide (kind = "k"%string)); [|done]. intros [= <-]. done.
  - exists "p-0"%string. split_and!; [done|by vm_compute|done].
  - exact Hl.
Defined.

(** ** A leased final object

    The pass over the leases sees the initial objects only.  [loss], which the run makes
    anew each time, is put into the store after the tasks have run; when a snapshot has
    leased it, LEASED is raised then, and the dispatcher parks the call. *)
Definition loss_engine : Engine (T := Z) :=
  (put_all [("a", [x01; x02]); ("b", [x10; x11; x12]); ("loss", [x00; x00; x00; x00])]%string (new_engine 12288 [])).2.
Definition lease_loss (b : bool) (s : Service Z Z unit) : Service Z Z unit :=
  (on_engine (on_store (if b then acquire_leases ["loss"]%string else release_leases ["loss"]%string)) s).2.
Definition loss_service : Service Z Z unit :=
  lease_loss true (register_demo (demo_env true) (demo_program false [("loss", Backing)]%string) (set_engine loss_engine demo_service)).

Definition demo_table := service_handlers (env := demo_env true) (λ _, None) (λ _ _ _, []).


(** ** A fetch that is refused

    The run is over, but its record and [current_run] say that it is running. *)
Definition run_fetch : QueuedCall Z :=
  call_of "run" [("prog_id", JStr "p-0"); ("fetch", JList [JStr "a"])]%string.

Example refused_fetch_stays_running :
  let x := run (env := demo_env false) run_fetch host_service in
  x.1 = Err BadRequest ∧ states x.2 = [("r-000001", "running")]%string ∧
  bool_decide (is_Some (es_current_run (rs_state x.2))) = true ∧
  (cancel_run [("run_id", JStr "r-000001")]%string x.2).1 = Ok [("ok", JBool true); ("state", JStr "cancelling")]%string.
Proof. vm_compute. done. Qed.

(** ** A program registered again with another resolver keeps the first one. *)
Example first_resolver_kept :
  let s := set_registry (register_program_resolver "k2" (λ _, Ok 6) (rs_registry host_service)) host_service in
  let x := register_program (env := demo_env false) (call_of "register_program"
    [("program", JDict (program_to_dict (demo_program true []))); ("resolver", JDict [("kind", JStr "k2")])]%string) s in
  is_ok x.1 = true ∧
  (λ p, pg_resolver_spec p.2) <$> rs_programs x.2 = [[("kind", JStr "k")]]%string.
Proof. vm_compute. done. Qed.

(** [ids[-limit:]] with a limit of 0 is the whole list. *)
Lemma list_runs_zero {A} (l : list A) : last_slice 0 l = l.
Proof. unfold last_slice, slice_index. simpl. rewrite Z.min_l by lia. done. Qed.
